(* ===== verification/_CoqProject ===== *)
-Q . S2P
Prelude.v
Effects.v
World.v
Tables.v
GoTime.v
Api.v
Conditions.v
Instances.v
Workloads.v
External.v
Calls.v
Demo.v
Watches.v
Protection.v
KeystoneClient.v
EndpointController.v
ServiceController.v
ACController.v
Fernet.v
KeyRing.v
Webhook.v
Helpers.v
Pods.v
APIController.v
APIJudgements.v
APIGuards.v
APIInputs.v
APITheorems.v
Admission.v
Setup.v
Main.v
Scheme.v
Catalogue.v
Registry.v
Identity.v
Vault.v
Credentials.v
Wakeups.v
Sharing.v
Ownership.v
Teardown.v
Completion.v
