(* ===== verification/Prelude.v ===== *)
(** * Verification of the keystone-operator

    A Kubernetes operator deploys OpenStack Keystone and registers services,
    endpoints and application credentials in it.  This development models its
    controllers, its admission webhook and the library it offers to other
    operators, definition by definition from the Go source (paths below are
    under src/), and proves what they promise.

    ** How the program becomes definitions

    A reconcile function is a [program] (Effects.v, Calls.v): a free monad over
    one signature of calls to the outside world (the API server, Keystone, the
    clock, the random source).  [runs p t a] says that [p] returns [a] having
    exchanged the trace [t] of calls and answers with SOME environment; the
    answers are arbitrary, so a theorem over [runs] covers stale caches, failed
    requests and concurrent writers.  A Go object that a function mutates and
    patches later is passed and returned; the object two calls share is the one
    value both receive.  A Go error is a [GoError] (its text and what
    [errors.As] sees of it); a pair [(A, error)] is [res A]; a nil pointer is
    [None].  The KeystoneAPI controller, whose steps return early by the dozen,
    is written in a monad [M] of its own over [program] (APIController.v): the
    instance, and an [exit] for an early return, a panic (nil dereference) or a
    loop that never ends.  int64 durations wrap ([wrap64], GoTime.v).

    Code outside the repository is a parameter: [ConditionLib] and
    [FinalizerLib] (lib-common's conditions, controller-runtime's finalizers;
    Conditions.v), [ExternalLib] (URL parsing, JSON, hashes; External.v),
    [PodLib] (pod helpers of lib-common; Pods.v), [WebhookLib] (Webhook.v) and
    [ControllerLib] (APIController.v).  What the theorems rely on is stated as
    laws ([ConditionLaws], [FinalizerLaws], [PodLaws], [ControllerLaws]), and
    Instances.v and the demo instances show that the laws can be met; the
    witnesses evaluate the controllers with them, against the objects and
    handlers of Demo.v.

    ** The parts

    - Api.v: the custom resources (api/v1beta1/*_types.go) as records, their
      pure methods, conditions and secrets.  Conditions.v:
      api/v1beta1/conditions.go, and [summarizeReady], the deferred summary
      every controller ends with.  Workloads.v: deployments, jobs, services and
      the foreign objects the operator reads.
    - KeystoneClient.v: api/v1beta1/keystoneapi.go, the lookup of the
      KeystoneAPI and the admin, user and scoped clients.
    - Protection.v: adding and removing a finalizer on an object another
      controller owns, shared by the next two files.
    - EndpointController.v: internal/controller/keystoneendpoint_controller.go.
      [Reconcile] calls [reconcileInstance], which calls [reconcileNormal]
      ([protectAPI], [protectService], [reconcileEndpoints]), [reconcileDelete]
      or [reconcileDeleteFinalizersOnly].
    - ServiceController.v: internal/controller/keystoneservice_controller.go,
      with the same shape ([reconcileService], [reconcileUser], [deregister]).
    - ACController.v: internal/controller/keystoneapplicationcredential_controller.go
      ([needsRotation], [rotate], [keepCredential], [cleanupUnusedRotatedSecrets],
      [reconcileDelete]).
    - Fernet.v: [ensureFernetKeys] of
      internal/controller/keystoneapi_controller.go and
      internal/keystone/fernet.go; KeyRing.v: the abstract key line it refines.
    - Pods.v: internal/keystone (deployment.go, bootstrap.go, dbsync.go,
      cronjob.go, volumes.go, federation.go) and [ensureFederationRealmConfig].
    - APIController.v: the rest of internal/controller/keystoneapi_controller.go:
      [Reconcile] with its deferred patch ([finish]), [reconcileNormal]
      ([prepare], then [rollout], then [rotateTransportSecret]),
      [reconcileExternalKeystoneAPI] and [reconcileDelete].
    - Watches.v: the field indexes and map functions of its SetupWithManager,
      and findObjectsForSrc.  Setup.v: the builders of all four SetupWithManager
      functions ([apiWatches], [acWatches], ...), the requests a change in the
      cluster leads to ([wake]), and the calls a process makes to its manager.
    - Main.v: cmd/main.go.  A program over those calls that may exit
      ([exiting]); Go slices with their shared arrays, because the TLS options
      of the two servers start as one slice.  Scheme.v: its init function and
      api/v1beta1/groupversion_info.go, the types the clients know.
    - Webhook.v: api/v1beta1/keystoneapi_webhook.go; Admission.v:
      internal/webhook/v1beta1/keystoneapi_webhook.go.
    - Helpers.v: the client library of api/v1beta1 (keystoneendpoint.go,
      keystoneservice.go, keystoneapplicationcredential.go).

    The other files hold no code of the repository.  Demo.v: handlers for the
    witnesses.  World.v: the transition system of a controller and a remote
    service ([step], by ends, losses and crashes of its reconciles); Tables.v:
    the tables such a service keeps; and its instances: Keystone's catalogue
    with the KeystoneEndpoint controller (Catalogue.v), Keystone's services and
    its projects, users and roles with the KeystoneService controller
    (Registry.v, Identity.v), the credentials in Keystone and the secrets of the
    namespace with the application credential controller (Vault.v,
    Credentials.v).  Wakeups.v: progress of these controllers.  APIJudgements.v,
    APIGuards.v, APIInputs.v, APITheorems.v: the proofs about APIController.v.
    Sharing.v: the rule the KeystoneService and KeystoneEndpoint controllers
    follow on the KeystoneAPI they share, as a judgement on programs ([keeps])
    and the proofs that both follow it; Ownership.v: the rule of the
    KeystoneAPI controller; Teardown.v: all of them interleaved; Completion.v:
    a deletion that runs to its end.

    ** What the theorems show

    - Truthful readiness and ordering (APIInputs.v, APITheorems.v): a KeystoneAPI
      is only patched Ready, a deployment only applied, a superseded transport
      secret only released, or forgotten by the status, after everything before
      it happened in the same reconcile, and the pods carry the hash of exactly
      the inputs it read.
    - Totality and liveness (APIGuards.v, Watches.v): a reconcile neither panics
      nor hangs under explicit conditions on the spec and the key secret; every
      secret it reads wakes it again.  Setup.v: a change wakes exactly the
      instances concerned.  Wakeups.v: the controllers that watch only their own
      kind never stop over unfinished work.
    - Start (Main.v): the manager starts only after every step succeeded, with
      everything registered and the TLS configuration the flags ask for; any
      failure ends the process.
    - Keys (Fernet.v, KeyRing.v): the index arithmetic of rotation and resizing
      refines an abstract line of keys, and a history of reconciles is a
      sliding window; the removal loop ends exactly when there is no gap, and
      two changes of FernetMaxActiveKeys that meet a due rotation go wrong.
    - Teardown (Sharing.v, Ownership.v, Teardown.v): reconciles of the KeystoneAPI
      and of all services and endpoints, interleaved call by call with each
      other, with a user and with crashes, take Keystone apart only when no
      consumer that has registered something still holds its finalizer, as long
      as the caches are [coherent] (see below); [stale_registration] shows how
      it fails when they are not.  And it
      is not a deadlock (Completion.v): one more reconcile of each consumer, in
      any order, and one of the KeystoneAPI let a deleted object go.
    - Catalogue (EndpointController.v, ServiceController.v, Catalogue.v,
      Registry.v, Identity.v): a transition system of what Keystone holds and
      the stored object, whose steps are edits, reconciles, lost answers, lost
      status updates and crashes, never duplicates an endpoint, a service, a
      project or a user and converges to the spec; the status mirrors the spec
      after success, stays well formed after any failure, and a steady state is
      left alone; finalizers are taken before and released after the work in
      Keystone.  On every path of a deletion it is said when the finalizer goes,
      what was deleted by then, and what alone can keep it
      ([service_deletion_releases_last], [endpoint_deletion_releases_last],
      [reconcileInstance_deletes_offline]).
    - Credentials (ACController.v): the rotation decision, what one rotation,
      cleanup or deletion does, the bounds on lifetimes.  Credentials.v: over
      whole histories a credential in use is valid until it expires (it is never
      revoked) and the status tells its expiry, no credential loses its secret
      while Keystone answers and the user name is kept, and a cleanup leaves
      exactly the credentials in use.
    - Contracts between parts: clients (KeystoneClient.v), webhook and
      controller (Admission.v), the URL list other operators hash (Helpers.v),
      the key secret and the pods that mount it (Pods.v).

    Catalogue.v, Registry.v and Identity.v assume of Keystone and lib-common what
    [catStep], [regStep] and [idStep] say (a list is complete, projects and users
    are created where there is none of that name in the domain, a search that finds nothing says so, a confirmed
    write was done, an unconfirmed one may have been), and Catalogue.v of
    lib-common that it maps interfaces to availabilities one to one; the service
    of an endpoint keeps its ID over the history, while the type and name of a
    service may be edited.  [vaultStep] of Vault.v says the same of the API server
    and Keystone's credentials: a reconcile reads up to date objects and no other
    writer changes them while it runs, a secret with a finalizer is not removed,
    Keystone never gives an ID twice and revokes only under the owner's ID.  A
    credential has the expiry it was asked for, as Keystone rounds and reports
    it ([v_expires]); it is [valid] at an instant when it was not revoked and
    that instant is before its expiry, and the theorems are for every instant.
    That Keystone may drop a credential once it has expired shows in its answer
    to the revocation ([missing]).
    Between reconciles the spec may be edited and consumers may come and go; a
    consumer only takes the current or the previous secret.

    Teardown.v ([exchange]) assumes of the API server that an update goes through
    on the version it was made from, that a patch is a merge patch of the
    difference (a list is replaced as a whole; it may be applied in part, and
    its answer be lost), and that no finalizer is added to an object that is
    being deleted; of the caches that they serve some version of the object,
    however old; of the work queue that
    no object is reconciled twice at a time; of the user that there is one
    KeystoneAPI and that its edits leave the controllers' finalizers alone; and
    that the finalizers of different controllers differ ([demo_distinct] for
    the instance of the witnesses).  [teardown_safe] needs more of the caches,
    which controller-runtime does not promise: that a controller which removed
    its finalizer from the KeystoneAPI (or the owner that added it) does not
    read a version from before that write ([coherent], [decisive]).  Every
    other write of its own a controller may fail to see, and every write of
    others; Completion.v does not need it.  An [engaged] consumer has registered
    something and not given its finalizer up since; whether it has removed all
    it registered by then is the matter of the files above.  Completion.v assumes
    besides that the requests of the deletion succeed ([cooperative]) and that
    every consumer whose finalizer is left is being deleted too ([leaving]).

    Main.v assumes of Go's append that it grows a slice of pointers from no
    element to one and from one to two without room to spare (the size classes
    of the Go runtime); [certificates_mixed] shows what depends on it.

    APITheorems.v states its theorems for traces whose RBAC answers are
    [honest]: lib-common's ReconcileRbac reports conditions of its own types
    only, and not Ready, which the code relies on when it copies them.
    [rotation_after_rollout] is for traces that are [guarded] besides:
    FinalizeSecretRotation without its guard stays with the old secret, as the
    comments at its call say.

    ** Fuel

    Only Go's two unbounded loops over the key secret take fuel; running out is
    a value of its own ([None], [hang]), never a result.  [enoughFuel M n] is
    [2n + M + 3] for [M] keys in the secret and [n] asked for: each round of the
    removal loop removes a key, each shift passes over at most [M], and the
    insertion adds at most [n].  [Reconcile_returns] and
    [ensureFernetKeys_returns] show that it suffices, [updateKeys_hangs] that
    without their conditions no fuel does.

    ** Not modelled

    The parsing of the command line (its result is [Flags]), which Go's flag
    package does.  What lib-common's SetManagerOptions adds to the options, and the inside of
    controller-runtime: queues, resyncs and leader election, and that its webhook
    server adds h2 to the TLS options it is given.  That metav1.Time keeps whole
    seconds when a status is stored: the instants of the status are as computed.
    The panic of an assignment to a nil map: the Data of a secret that was read
    is never nil here, where [ensureFernetKeys] would panic on one without data.
    Generated deep copies (values are immutable here), api/test/helpers (fixtures), logging, and
    reflection inside the libraries. *)
From Stdlib Require Export ZArith Lia.
From stdpp Require Export base gmap strings list sorting pretty fin_maps.
#[export] Set Default Goal Selector "!".
#[export] Set Warnings "-clear-no-such-hyp".
Open Scope string_scope.
Open Scope list_scope.

(** ** Go errors

    An error is what the code observes of it: its text, the Kubernetes status
    reason ([k8s_errors.IsNotFound], [IsAlreadyExists]) and the HTTP response
    code of a gophercloud error ([gophercloud.ResponseCodeIs]).  Wrapping with
    the [%w] verb keeps both classifications ([errors.As] looks through it). *)

Inductive StatusReason := ReasonNotFound | ReasonAlreadyExists | ReasonUnknown.

#[export] Instance StatusReason_eq_dec : EqDecision StatusReason.
Proof. solve_decision. Defined.

Record GoError := mkError {
  Error : string;
  ReasonOf : StatusReason;
  HTTPCode : option Z
}.

#[export] Instance GoError_eq_dec : EqDecision GoError.
Proof. solve_decision. Defined.

Definition IsNotFound (e : GoError) : bool := bool_decide (ReasonOf e = ReasonNotFound).
Definition IsAlreadyExists (e : GoError) : bool := bool_decide (ReasonOf e = ReasonAlreadyExists).
Definition ResponseCodeIs (e : GoError) (code : Z) : bool := bool_decide (HTTPCode e = Some code).

(** [errors.New] / [fmt.Errorf] without a wrapped error. *)
Definition errorf (msg : string) : GoError := mkError msg ReasonUnknown None.
(** [fmt.Errorf] with one wrapped error: the text is new, the classification kept. *)
Definition wrapErr (msg : string) (e : GoError) : GoError :=
  mkError (msg +:+ ": " +:+ Error e) (ReasonOf e) (HTTPCode e).

(** A Go pair [(A, error)] whose value is not read when the error is set. *)
Abbreviation res A := (GoError + A)%type.

(** ** ctrl.Result *)
Record Result := mkResult { RequeueAfter : Z }.
#[export] Instance Result_eq_dec : EqDecision Result.
Proof. solve_decision. Defined.
Definition noResult : Result := mkResult 0.
Definition second : Z := 1000000000.
Definition minute : Z := 60 * second.
Definition requeueAfter (d : Z) : Result := mkResult d.

(** What a reconcile function returns: [(ctrl.Result, error)]. *)
Abbreviation ret := (Result * option GoError)%type.
Definition done_ : ret := (noResult, None).
Definition failWith (e : GoError) : ret := (noResult, Some e).
Definition requeue (d : Z) : ret := (requeueAfter d, None).

(** ** Strings (package strings, strconv) *)

Fixpoint HasPrefix (s prefix : string) : bool :=
  match prefix, s with
  | EmptyString, _ => true
  | String a p, String b s' => if decide (a = b) then HasPrefix s' p else false
  | String _ _, EmptyString => false
  end.

Fixpoint drop_str (n : nat) (s : string) : string :=
  match n, s with
  | O, _ => s
  | S n', String _ s' => drop_str n' s'
  | S _, EmptyString => EmptyString
  end.

Fixpoint take_str (n : nat) (s : string) : string :=
  match n, s with
  | O, _ => EmptyString
  | S n', String a s' => String a (take_str n' s')
  | S _, EmptyString => EmptyString
  end.

Definition HasSuffix (s suffix : string) : bool :=
  if decide (String.length suffix <= String.length s)%nat
  then bool_decide (drop_str (String.length s - String.length suffix) s = suffix)
  else false.

Definition TrimPrefix (s prefix : string) : string :=
  if HasPrefix s prefix then drop_str (String.length prefix) s else s.

Fixpoint Contains (s sub : string) : bool :=
  HasPrefix s sub ||
  match s with
  | EmptyString => false
  | String _ s' => Contains s' sub
  end.

(** The [%q] verb, for a string without characters to escape. *)
Definition quoteMark : string := String (Ascii.ascii_of_nat 34) EmptyString.
Definition quoted (s : string) : string := quoteMark +:+ s +:+ quoteMark.

(** [strconv.Itoa] and the [%d] verb. *)
Definition Itoa (n : nat) : string := pretty n.

#[local] Arguments String.append : simpl nomatch.

Lemma string_app_assoc (a b c : string) : (a +:+ b) +:+ c = a +:+ (b +:+ c).
Proof. induction a as [|x a IH]; simpl; [done | by f_equal]. Qed.

Lemma string_app_inj_l (a b c : string) : a +:+ b = a +:+ c -> b = c.
Proof. induction a as [|x a IH]; simpl; [done | intros [= H]; auto]. Qed.

Lemma string_length_app (a b : string) : String.length (a +:+ b) = (String.length a + String.length b)%nat.
Proof. induction a as [|x a IH]; simpl; [done | by rewrite IH]. Qed.

Lemma string_app_inj_len (a b c d : string) :
  String.length a = String.length c -> a +:+ b = c +:+ d -> a = c /\ b = d.
Proof.
  revert c; induction a as [|x a IH]; intros [|y c]; simpl; try done.
  intros [= Hl] [= -> H]. by destruct (IH c Hl H) as [-> ->].
Qed.

Lemma take_str_length n (s : string) : String.length (take_str n s) = (n `min` String.length s)%nat.
Proof. revert s; induction n as [|n IH]; intros [|x s]; simpl; [done..|by rewrite IH]. Qed.

Lemma HasPrefix_app (p s : string) : HasPrefix (p +:+ s) p = true.
Proof. induction p as [|a p IH]; simpl; [by destruct s|]. by rewrite decide_True. Qed.

Lemma drop_str_app (p s : string) : drop_str (String.length p) (p +:+ s) = s.
Proof. by induction p. Qed.

Lemma HasPrefix_true (s p : string) :
  HasPrefix s p = true <-> exists r, s = p +:+ r.
Proof.
  split; [|intros [r ->]; apply HasPrefix_app].
  revert s; induction p as [|a p IH]; intros s H; [by exists s|].
  destruct s as [|b s]; [done|]. simpl in H. case_decide; [subst|done].
  destruct (IH _ H) as [r ->]. by exists r.
Qed.

Lemma TrimPrefix_app (p s : string) : TrimPrefix (p +:+ s) p = s.
Proof. unfold TrimPrefix. rewrite HasPrefix_app. apply drop_str_app. Qed.

Lemma Itoa_inj i j : Itoa i = Itoa j -> i = j.
Proof. apply (inj (pretty (A:=nat))). Qed.

(** ** Ordered strings: [sort.Strings] and [slices.Sorted] *)

Definition string_leb (a b : string) : bool := String.leb a b.
Definition string_le (a b : string) : Prop := Is_true (string_leb a b).

#[export] Instance string_le_dec : RelDecision string_le.
Proof. intros a b. unfold string_le. apply _. Defined.

Lemma string_leb_compare a b : string_leb a b = true <-> String.compare a b <> Gt.
Proof.
  unfold string_leb, String.leb. destruct (String.compare a b); split; congruence.
Qed.

Lemma string_compare_trans a b c :
  String.compare a b <> Gt -> String.compare b c <> Gt -> String.compare a c <> Gt.
Proof.
  revert b c; induction a as [|x a IH]; intros [|y b] [|z c]; simpl; try congruence.
  unfold Ascii.compare.
  destruct (N.compare_spec (Ascii.N_of_ascii x) (Ascii.N_of_ascii y)) as [E1|E1|E1],
    (N.compare_spec (Ascii.N_of_ascii y) (Ascii.N_of_ascii z)) as [E2|E2|E2],
    (N.compare_spec (Ascii.N_of_ascii x) (Ascii.N_of_ascii z)) as [E3|E3|E3];
    intros; try congruence; try (exfalso; lia); eauto.
Qed.

#[export] Instance string_le_trans : Transitive string_le.
Proof.
  intros a b c. unfold string_le. rewrite !Is_true_true, !string_leb_compare.
  apply string_compare_trans.
Qed.

#[export] Instance string_le_total : Total string_le.
Proof.
  intros a b. unfold string_le. rewrite !Is_true_true, !string_leb_compare.
  rewrite (String.compare_antisym b a).
  destruct (String.compare a b); simpl; first [by left | by right].
Qed.

Lemma string_compare_eq a b : String.compare a b = Eq -> a = b.
Proof. apply String.compare_eq_iff. Qed.

#[export] Instance string_le_antisymm : AntiSymm (=) string_le.
Proof.
  intros a b. unfold string_le. rewrite !Is_true_true, !string_leb_compare.
  rewrite (String.compare_antisym b a). destruct (String.compare a b) eqn:Hc; simpl; [|done..].
  intros _ _. by apply string_compare_eq.
Qed.

Definition sortStrings (l : list string) : list string := merge_sort string_le l.

Lemma sortStrings_perm l : sortStrings l ≡ₚ l.
Proof. apply merge_sort_Permutation. Qed.

Lemma sortStrings_sorted l : StronglySorted string_le (sortStrings l).
Proof. apply StronglySorted_merge_sort; apply _. Qed.

Lemma elem_of_sortStrings x l : x ∈ sortStrings l <-> x ∈ l.
Proof. by rewrite sortStrings_perm. Qed.

(** The sorted list only depends on the elements. *)
Lemma sortStrings_canonical l1 l2 : l1 ≡ₚ l2 -> sortStrings l1 = sortStrings l2.
Proof.
  intros H. apply (StronglySorted_unique string_le); [apply sortStrings_sorted..|].
  by rewrite !sortStrings_perm.
Qed.

(** [slices.Sorted(maps.Keys(m))] *)
Definition sortedKeys {A} (m : gmap string A) : list string := sortStrings (map_to_list m).*1.

Lemma sortedKeys_NoDup {A} (m : gmap string A) : NoDup (sortedKeys m).
Proof. unfold sortedKeys. rewrite sortStrings_perm. apply NoDup_fst_map_to_list. Qed.

Lemma elem_of_sortedKeys {A} (m : gmap string A) k : k ∈ sortedKeys m <-> is_Some (m !! k).
Proof.
  unfold sortedKeys. rewrite elem_of_sortStrings, list_elem_of_fmap. split.
  - intros [[k' v] [-> H]]. apply elem_of_map_to_list in H. simpl. eauto.
  - intros [v H]. exists (k, v). by rewrite elem_of_map_to_list.
Qed.

Lemma sortedKeys_empty {A} : sortedKeys (∅ : gmap string A) = [].
Proof. reflexivity. Qed.

(** [slices.IndexFunc]: the first index where [f] holds, or -1. *)
Fixpoint IndexFunc {A} (f : A -> bool) (l : list A) : Z :=
  match l with
  | [] => -1
  | x :: l' => if f x then 0 else let i := IndexFunc f l' in if (i <? 0)%Z then -1 else (i + 1)%Z
  end.

(** [append(l[:i], l[i+1:]...)] *)
Definition removeAt {A} (i : nat) (l : list A) : list A := take i l ++ drop (S i) l.

Lemma IndexFunc_none {A} (f : A -> bool) l :
  (IndexFunc f l < 0)%Z <-> forall x, x ∈ l -> f x = false.
Proof.
  induction l as [|a l IH]; simpl; [set_solver by lia|].
  destruct (f a) eqn:Ha.
  - split; [lia|]. intros H. specialize (H a ltac:(left)). congruence.
  - destruct (Z.ltb_spec (IndexFunc f l) 0) as [Hl|Hl].
    + split; [|lia]. intros _ x [->|Hx]%elem_of_cons; [done|]. by apply IH.
    + split; [lia|]. intros H. assert (IndexFunc f l < 0)%Z; [|lia].
      apply IH. intros x Hx. apply H. by right.
Qed.

Lemma IndexFunc_some {A} (f : A -> bool) l :
  (0 <= IndexFunc f l)%Z ->
  exists l1 x l2, l = l1 ++ x :: l2 /\ f x = true /\ (forall y, y ∈ l1 -> f y = false)
    /\ Z.to_nat (IndexFunc f l) = length l1.
Proof.
  induction l as [|a l IH]; simpl; [lia|].
  destruct (f a) eqn:Ha.
  - intros _. exists [], a, l. repeat split; [done|set_solver].
  - destruct (Z.ltb_spec (IndexFunc f l) 0) as [Hl|Hl]; [lia|]. intros _.
    destruct (IH Hl) as (l1 & x & l2 & -> & Hx & Hl1 & Hn).
    exists (a :: l1), x, l2. repeat split; [done| |simpl; lia].
    intros y [->|Hy]%elem_of_cons; auto.
Qed.

Lemma removeAt_middle {A} (l1 : list A) x l2 : removeAt (length l1) (l1 ++ x :: l2) = l1 ++ l2.
Proof.
  unfold removeAt. rewrite take_app_length. f_equal.
  rewrite drop_app_ge by lia. replace (S (length l1) - length l1)%nat with 1%nat by lia. done.
Qed.

(** Joining with blanks, as the [%v] verb prints a slice of strings. *)
Fixpoint joinWith (sep : string) (l : list string) : string :=
  match l with
  | [] => ""
  | [s] => s
  | s :: l' => s +:+ sep +:+ joinWith sep l'
  end.
Definition sprintSlice (l : list string) : string := "[" +:+ joinWith " " l +:+ "]".
