(* ===== verification/Effects.v ===== *)
(** Programs that call the outside world.

    A reconcile function is a program: it computes, issues a call (a request to
    the Kubernetes API server, to Keystone, to the clock or to the random
    source), receives whatever the environment answers, and continues.  [prog]
    is the free monad over a signature [E] of calls: [E X] is the type of the
    calls answered by an [X].  Nothing is assumed of the answers: [runs p t a]
    says that [p] can return [a] having exchanged the trace [t] with SOME
    environment, so a theorem over [runs] holds for stale caches, failed
    requests and concurrent writers alike. *)
From Stdlib Require Eqdep.
From S2P Require Import Prelude.

(** ** Syntax *)

Inductive prog (E : Type -> Type) (A : Type) : Type :=
| Ret (a : A)
| Vis {X : Type} (e : E X) (k : X -> prog E A).
Arguments Ret {E A} a.
Arguments Vis {E A X} e k.

Definition call {E X} (e : E X) : prog E X := Vis e Ret.

#[export] Instance prog_ret {E} : MRet (prog E) := fun A a => Ret a.
#[export] Instance prog_bind {E} : MBind (prog E) := fun A B f =>
  fix go (p : prog E A) : prog E B :=
    match p with
    | Ret a => f a
    | Vis e k => Vis e (fun x => go (k x))
    end.

(** An event: a call and the answer it got. *)
Inductive event (E : Type -> Type) : Type :=
| Ev {X : Type} (e : E X) (x : X).
Arguments Ev {E X} e x.

Lemma Ev_inj {E X} (e : E X) (x y : X) : Ev e x = Ev e y -> x = y.
Proof. intros H. by injection H as H%Eqdep.EqdepTheory.inj_pair2. Qed.

(** ** Semantics *)

Section semantics.
Context {E : Type -> Type}.
Implicit Types t : list (event E).

(** [p] returns [a] after the exchange [t]. *)
Fixpoint runs {A} (p : prog E A) t (a : A) : Prop :=
  match p with
  | Ret b => t = [] /\ b = a
  | Vis e k => exists x t', t = Ev e x :: t' /\ runs (k x) t' a
  end.

(** Every complete exchange of [p] satisfies [Q]. *)
Fixpoint wp {A} (p : prog E A) (Q : list (event E) -> A -> Prop) : Prop :=
  match p with
  | Ret a => Q [] a
  | Vis e k => forall x, wp (k x) (fun t a => Q (Ev e x :: t) a)
  end.

(** Every prefix of an exchange: what [p] has done so far when it is
    interrupted (a panic, the death of the process). *)
Fixpoint runs_prefix {A} (p : prog E A) t : Prop :=
  t = [] \/
  match p with
  | Ret _ => False
  | Vis e k => exists x t', t = Ev e x :: t' /\ runs_prefix (k x) t'
  end.

Lemma runs_is_prefix {A} (p : prog E A) t a : runs p t a -> runs_prefix p t.
Proof.
  revert t; induction p as [b|X e k IH]; intros t; cbn [runs runs_prefix]; [by intros [-> _]; left|].
  intros (x & t' & -> & Hr). right. exists x, t'. split; [done|by eapply IH].
Qed.

Lemma wp_runs {A} (p : prog E A) Q :
  wp p Q <-> forall t a, runs p t a -> Q t a.
Proof.
  revert Q; induction p as [b|X e k IH]; intros Q; simpl.
  - split; [intros HQ t a [-> <-]; exact HQ | intros H; by apply H].
  - split.
    + intros H t a (x & t' & -> & Hr). specialize (H x). rewrite IH in H. by apply H.
    + intros H x. apply IH. intros t a Hr. apply H. eauto.
Qed.

Lemma wp_mono {A} (p : prog E A) (Q1 Q2 : list (event E) -> A -> Prop) :
  (forall t a, Q1 t a -> Q2 t a) -> wp p Q1 -> wp p Q2.
Proof. rewrite !wp_runs. eauto. Qed.

Lemma wp_bind {A B} (p : prog E A) (f : A -> prog E B) Q :
  wp (p ≫= f) Q <-> wp p (fun t1 a => wp (f a) (fun t2 b => Q (t1 ++ t2) b)).
Proof.
  revert Q; induction p as [a|X e k IH]; intros Q; simpl.
  - done.
  - split; intros H x; specialize (H x); by apply (IH x (fun t b => Q (Ev e x :: t) b)).
Qed.

Lemma runs_bind {A B} (p : prog E A) (f : A -> prog E B) t b :
  runs (p ≫= f) t b <-> exists t1 t2 a, t = t1 ++ t2 /\ runs p t1 a /\ runs (f a) t2 b.
Proof.
  revert t; induction p as [a|X e k IH]; intros t; simpl.
  - split.
    + intros H. exists [], t, a. done.
    + intros (t1 & t2 & a' & -> & [-> ->] & H). done.
  - split.
    + intros (x & t' & -> & H). apply IH in H as (t1 & t2 & a & -> & H1 & H2).
      exists (Ev e x :: t1), t2, a. eauto 10.
    + intros (t1 & t2 & a & -> & (x & t' & -> & H1) & H2). exists x, (t' ++ t2).
      split; [done|]. apply IH. eauto 10.
Qed.

(** Monad laws, as equalities of their behaviours. *)
Lemma bind_ret_l {A B} (a : A) (f : A -> prog E B) : (mret a : prog E A) ≫= f = f a.
Proof. done. Qed.

Lemma bind_assoc_runs {A B C} (p : prog E A) (f : A -> prog E B) (g : B -> prog E C) t c :
  runs ((p ≫= f) ≫= g) t c <-> runs (p ≫= (fun a => f a ≫= g)) t c.
Proof.
  revert t; induction p as [a|X e k IH]; intros t; simpl; [done|].
  by setoid_rewrite IH.
Qed.

(** ** Executing a program against a handler of its calls *)

Context {W : Type}.

Fixpoint exec {A} (h : forall X, E X -> W -> X * W) (p : prog E A) (w : W)
  : list (event E) * A * W :=
  match p with
  | Ret a => ([], a, w)
  | Vis e k =>
      let '(x, w1) := h _ e w in
      let '(t, a, w2) := exec h (k x) w1 in
      (Ev e x :: t, a, w2)
  end.

Lemma exec_runs {A} h (p : prog E A) w :
  runs p (exec h p w).1.1 (exec h p w).1.2.
Proof.
  revert w; induction p as [a|X e k IH]; intros w; simpl; [done|].
  destruct (h X e w) as [x w1] eqn:Hh. specialize (IH x w1).
  destruct (exec h (k x) w1) as [[t a] w2] eqn:He. simpl in *. eauto.
Qed.
End semantics.

(** ** Static guarantees: every call a program can issue satisfies [P] *)

Fixpoint emits {E A} (P : forall X, E X -> Prop) (p : prog E A) : Prop :=
  match p with
  | Ret _ => True
  | Vis e k => P _ e /\ forall x, emits P (k x)
  end.

Lemma emits_bind {E A B} P (p : prog E A) (f : A -> prog E B) :
  emits P p -> (forall a, emits P (f a)) -> emits P (p ≫= f).
Proof.
  induction p as [a|X e k IH]; simpl; [by auto|].
  intros [He Hk] Hf. split; [done|]. intros x. by apply IH.
Qed.

Lemma emits_mono {E A} (P Q : forall X, E X -> Prop) (p : prog E A) :
  (forall X e, P X e -> Q X e) -> emits P p -> emits Q p.
Proof. intros HPQ. induction p as [a|X e k IH]; simpl; [done|]. intros [He Hk]. split; [by apply HPQ|eauto]. Qed.

Lemma emits_runs {E A} P (p : prog E A) t a :
  emits P p -> runs p t a -> Forall (fun ev => match ev with Ev e _ => P _ e end) t.
Proof.
  revert t; induction p as [b|X e k IH]; intros t; simpl.
  - intros _ [-> _]. constructor.
  - intros [He Hk] (x & t' & -> & Hr). constructor; eauto.
Qed.

(** ** Proof automation

    [wp_go] walks a program whose weakest precondition is the goal: it
    introduces the answers of the calls and decides the branches, leaving one
    goal per path; it stops at a call of a named sub-program, where [wp_use]
    applies that sub-program's specification. *)

Ltac wp_norm := cbn [wp mbind prog_bind mret prog_ret call fst snd app].

Ltac case_match_of x :=
  lazymatch x with
  | context [match _ with _ => _ end] => fail
  | _ => first [is_var x; destruct x | destruct x eqn:?]
  end.

(** Decide one branch of the goal, innermost scrutinee first. *)
Ltac case_goal :=
  match goal with
  | |- context [match ?x with _ => _ end] => case_match_of x
  end.

Ltac wp_step :=
  match goal with
  | |- forall _, _ => intro
  | |- wp (_ ≫= _) _ => rewrite wp_bind
  | |- wp (match ?x with _ => _ end) _ => case_goal
  | |- wp (mret (match ?x with _ => _ end)) _ => case_goal
  end.

Ltac wp_go := repeat (wp_norm; wp_step); wp_norm.

(** Apply the specification of the sub-program at the head of the goal. *)
Ltac wp_use lem := (try rewrite wp_bind); eapply wp_mono; [|apply lem]; cbv beta.

(** Forget what the sub-program at the head of the goal does. *)
Lemma wp_any {E A} (p : prog E A) : wp p (fun _ _ => True).
Proof. by apply wp_runs. Qed.
Ltac wp_skip := first [rewrite wp_bind; eapply wp_mono; [|apply wp_any]; cbv beta; intros ? ? _ | wp_norm; intros ?]; wp_norm.

(** Expose the head of the program run in [H]. *)
Ltac runs_norm H := cbn [runs mbind prog_bind mret prog_ret call fst snd] in H.

(** From a run of a program to its specification. *)
Lemma runs_spec {E A} (p : prog E A) Q t a : wp p Q -> runs p t a -> Q t a.
Proof. rewrite wp_runs. eauto. Qed.

(** Turn a goal about a run into the weakest precondition of its program. *)
Ltac wp_start Hr :=
  lazymatch type of Hr with
  | runs ?p ?t ?a => pattern t, a; refine (runs_spec p _ t a _ Hr); clear Hr; cbv beta
  end.

(** ** Traces *)

(** In a trace whose first part has no event of a kind, an event of that kind
    comes after the whole first part. *)
Lemma event_after {E} (P : event E -> Prop) (ta tb t1 t2 : list (event E)) ev :
  ta ++ tb = t1 ++ ev :: t2 -> Forall (fun x => ~ P x) ta -> P ev ->
  exists t1', t1 = ta ++ t1' /\ tb = t1' ++ ev :: t2.
Proof.
  revert t1; induction ta as [|x ta IH]; intros t1 Heq Hta Hev; simpl in *; [by exists t1|].
  apply Forall_cons in Hta as [Hx Hta]. destruct t1 as [|y t1]; simpl in Heq.
  - injection Heq as -> _. done.
  - injection Heq as -> Heq. destruct (IH _ Heq Hta Hev) as (t1' & -> & ->). by exists t1'.
Qed.

(** Reading the weakest precondition of a composite program: the parts of its
    trace satisfy the specifications of its parts. *)
Lemma wp_conj {E A} (p : prog E A) (Q1 Q2 : list (event E) -> A -> Prop) :
  wp p Q1 -> wp p Q2 -> wp p (fun t a => Q1 t a /\ Q2 t a).
Proof. rewrite !wp_runs. eauto. Qed.

Lemma wp_emits {E A} (P : forall X, E X -> Prop) (p : prog E A) :
  emits P p -> wp p (fun t _ => Forall (fun ev => match ev with Ev e _ => P _ e end) t).
Proof. intros H. apply wp_runs. intros t a. by apply emits_runs. Qed.

(** The events of a trace whose call satisfies a decidable predicate. *)
Definition evIs {E} (P : forall X, E X -> bool) (ev : event E) : bool :=
  match ev with Ev e _ => P _ e end.
(** No event of a trace satisfies it. *)
Definition never {E} (P : forall X, E X -> bool) (t : list (event E)) : Prop :=
  Forall (fun ev => evIs P ev = false) t.

Lemma never_app {E} (P : forall X, E X -> bool) t1 t2 : never P (t1 ++ t2) <-> never P t1 /\ never P t2.
Proof. apply Forall_app. Qed.

(** A program that never issues a call of a kind. *)
Abbreviation avoids P p := (emits (fun X e => P X e = false) p).

Lemma avoids_runs {E A} (P : forall X, E X -> bool) (p : prog E A) t a :
  avoids P p -> runs p t a -> never P t.
Proof. intros Hp Hr. eapply emits_runs in Hp; [|exact Hr]. eapply Forall_impl; [exact Hp|]. by intros []. Qed.

Create HintDb emits.

(** Walk a program proving [emits]; sub-programs are settled by the [emits] hints. *)
Ltac emits_go :=
  repeat (cbn [emits mbind prog_bind mret prog_ret call fst snd];
    lazymatch goal with
    | |- True => exact I
    | |- _ /\ _ => split
    | |- forall _, _ => intro
    | |- _ = _ => reflexivity
    | |- emits _ (_ ≫= _) => apply emits_bind
    | |- emits _ (match ?x with _ => _ end) => case_goal
    | |- emits _ _ => first [solve [eauto 3 with emits nocore] | case_goal]
    end).

(** Every event of a trace stands in a relation to the exchange before it. *)
Definition always {E} (P : list (event E) -> event E -> Prop) (t : list (event E)) : Prop :=
  forall t1 ev t2, t = t1 ++ ev :: t2 -> P t1 ev.

(** Inclusion of a trace in a longer one. *)
Ltac sub_go := let x := fresh in intros x; rewrite ?elem_of_app, ?elem_of_cons, ?elem_of_app; tauto.
Ltac sub_in := rewrite ?elem_of_app, ?elem_of_cons, ?elem_of_app; tauto.

Section always.
Context {E : Type -> Type}.
Implicit Types P Q : list (event E) -> event E -> Prop.

Lemma always_nil P : always P [].
Proof. intros [|??] ev t2; discriminate. Qed.

Lemma always_cons P ev t : always P (ev :: t) <-> P [] ev /\ always (fun u => P (ev :: u)) t.
Proof.
  split.
  - intros H. split; [by apply (H [] ev t)|]. intros t1 ev' t2 ->. by apply (H (ev :: t1) ev' t2).
  - intros [H1 H2] [|x t1] ev' t2 [= -> Ht]; [done|]. by apply (H2 t1 ev' t2).
Qed.

Lemma always_app P t1 t2 : always P (t1 ++ t2) <-> always P t1 /\ always (fun u => P (t1 ++ u)) t2.
Proof.
  revert P; induction t1 as [|x t1 IH]; intros P; simpl.
  - split; [intros H; split; [apply always_nil|exact H]|by intros [_ H]].
  - rewrite !always_cons, IH. tauto.
Qed.

Lemma always_mono P Q t : (forall u ev, P u ev -> Q u ev) -> always P t -> always Q t.
Proof. intros HPQ HP u ev v ->. by eapply HPQ, HP. Qed.

Lemma always_never P (K : forall X, E X -> bool) t :
  (forall u ev, evIs K ev = false -> P u ev) -> never K t -> always P t.
Proof. intros HP Hn u ev v ->. apply Forall_app in Hn as [_ [Hev _]%Forall_cons]. by apply HP. Qed.
End always.
