(* ===== verification/World.v ===== *)
(** Programs against a world with a state: what a call does to the world is a
    relation, and may depend on nothing but the call and its answer.  A
    judgement on programs over such a world, and the transition system of a
    controller that reconciles one object again and again while its user edits
    the object, answers and status updates are lost, and the process dies. *)
From S2P Require Import Prelude Effects.

Section world.
Context {E : Type -> Type} {W : Type} (wstep : W -> event E -> W -> Prop).
Implicit Types (w : W) (t : list (event E)).

(** An exchange takes the world from one state to another. *)
Fixpoint wrun w t w' : Prop :=
  match t with
  | [] => w' = w
  | ev :: t => exists w1, wstep w ev w1 /\ wrun w1 t w'
  end.
Lemma wrun_app w t1 t2 w' : wrun w (t1 ++ t2) w' <-> exists w1, wrun w t1 w1 /\ wrun w1 t2 w'.
Proof.
  revert w; induction t1 as [|ev t1 IH]; intros w; cbn [app wrun].
  { split; [intros H; by exists w|by intros (w1 & -> & ?)]. }
  setoid_rewrite IH. naive_solver.
Qed.

(** [wwp p w Q]: run from [w], whatever is answered, [p] ends with [Q] of its
    exchange, the world it leaves and its value. *)
Definition wwp {A} (p : prog E A) w (Q : list (event E) -> W -> A -> Prop) : Prop :=
  wp p (fun t a => forall w', wrun w t w' -> Q t w' a).

Lemma wwp_mono {A} (p : prog E A) w (Q1 Q2 : list (event E) -> W -> A -> Prop) :
  (forall t w' a, Q1 t w' a -> Q2 t w' a) -> wwp p w Q1 -> wwp p w Q2.
Proof. intros H. apply wp_mono. eauto. Qed.
Lemma wwp_runs {A} (p : prog E A) w Q t a w' : wwp p w Q -> runs p t a -> wrun w t w' -> Q t w' a.
Proof. intros Hw Hr. eapply runs_spec in Hr; [|exact Hw]. auto. Qed.
Lemma wwp_ret {A} (a : A) w Q : Q [] w a -> wwp (mret a) w Q.
Proof. intros HQ w' ->. exact HQ. Qed.
Lemma wwp_bind {A B} (p : prog E A) (f : A -> prog E B) w Q :
  wwp p w (fun t1 w1 a => wwp (f a) w1 (fun t2 w2 b => Q (t1 ++ t2) w2 b)) -> wwp (p ≫= f) w Q.
Proof.
  intros H. unfold wwp. rewrite wp_bind. eapply wp_mono; [|exact H]. cbv beta. intros t1 a H1.
  apply wp_runs. intros t2 b Hr w' (w1 & Hw1 & Hw2)%wrun_app. eapply wwp_runs in Hr; [|by apply H1|exact Hw2]. exact Hr.
Qed.
Lemma wwp_call {X} (c : E X) w Q : (forall x w', wstep w (Ev c x) w' -> Q [Ev c x] w' x) -> wwp (call c) w Q.
Proof. intros H x w' (w1 & Hs & ->). by apply H. Qed.

(** ** Crashes *)

(** A call that can fail without effect. *)
Context (canFail : forall X, E X -> Prop).
Context (fails : forall X (c : E X) w, canFail X c -> exists x, wstep w (Ev c x) w).

(** A program that dies in the middle has done what a run does that loses its
    connection there. *)
Lemma crash_extends {A} (p : prog E A) w t w' :
  emits canFail p -> runs_prefix p t -> wrun w t w' -> exists u a, runs p (t ++ u) a /\ wrun w (t ++ u) w'.
Proof.
  assert (forall (p : prog E A) w, emits canFail p -> exists u a, runs p u a /\ wrun w u w) as Hfail.
  { clear -fails. intros p; induction p as [a|X c k IH]; intros w Hem; [by exists [], a|]. destruct Hem as [Hc Hk].
    destruct (fails X c w Hc) as [x Hx]. destruct (IH x w (Hk x)) as (u & a & Hr & Hu).
    exists (Ev c x :: u), a. split; [by exists x, u|by exists w]. }
  revert w t. induction p as [a|X c k IH]; intros w t Hem Hp Hrun; cbn [runs_prefix] in Hp.
  { destruct Hp as [->|[]]. exists [], a. by rewrite app_nil_r. }
  destruct Hp as [->|(x & t' & -> & Hp)].
  - cbn [wrun] in Hrun. subst w'. destruct (Hfail (Vis c k) w Hem) as (u & a & ? & ?). by exists u, a.
  - destruct Hrun as (w1 & Hs & Hrun). destruct Hem as [_ Hk]. destruct (IH x w1 t' (Hk x) Hp Hrun) as (u & a & Hr & Hu).
    exists u, a. cbn [app]. split; [by exists x, (t' ++ u)|by exists w1].
Qed.

(** ** Histories *)

Context {O R : Type} (reconcile : O -> prog E (O * R)) (edit : O -> O -> Prop).

(** The world, and the object as the API server stores it: the user edits it; a
    reconcile ends and the object it leaves is stored, or that is lost; the
    process dies in the middle of a reconcile. *)
Inductive step : W * O -> W * O -> Prop :=
| step_edit w o o' : edit o o' -> step (w, o) (w, o')
| step_reconcile w o t o' r w' : runs (reconcile o) t (o', r) -> wrun w t w' -> step (w, o) (w', o')
| step_lost w o t r w' : runs (reconcile o) t r -> wrun w t w' -> step (w, o) (w', o)
| step_crash w o t w' : runs_prefix (reconcile o) t -> wrun w t w' -> step (w, o) (w', o).

(** An invariant of the reconciles and the edits is one of all histories. *)
Lemma step_invariant (Inv : W -> O -> Prop) s s' :
  (forall w o o', edit o o' -> Inv w o -> Inv w o') ->
  (forall o, emits canFail (reconcile o)) ->
  (forall w o, Inv w o -> wwp (reconcile o) w (fun _ w' r => Inv w' r.1 /\ Inv w' o)) ->
  rtc step s s' -> Inv s.1 s.2 -> Inv s'.1 s'.2.
Proof.
  intros Hedit Hem Hrec. induction 1 as [s|s s1 s' Hstep _ IH]; [done|]. intros HI. apply IH. clear IH.
  destruct Hstep as [w o o' He|w o t o' r w' Hr Hw|w o t r w' Hr Hw|w o t w' Hp Hw]; cbn [fst snd] in *.
  - by eapply Hedit.
  - by apply (wwp_runs _ _ _ _ _ _ (Hrec _ _ HI) Hr Hw).
  - by apply (wwp_runs _ _ _ _ _ _ (Hrec _ _ HI) Hr Hw).
  - destruct (crash_extends _ _ _ _ (Hem o) Hp Hw) as (u & a & Hr & Hu).
    by apply (wwp_runs _ _ _ _ _ _ (Hrec _ _ HI) Hr Hu).
Qed.
End world.

(** ** Running against an executable world *)

Section executable.
Context {E : Type -> Type} {W : Type} (wstep : W -> event E -> W -> Prop) (h : forall X, E X -> W -> X * W).
Context (h_step : forall X (c : E X) w, wstep w (Ev c (h X c w).1) (h X c w).2).
Lemma exec_wrun {A} (p : prog E A) w : wrun wstep w (exec h p w).1.1 (exec h p w).2.
Proof.
  revert w; induction p as [a|X c k IH]; intros w; cbn [exec]; [done|].
  pose proof (h_step X c w) as Hs. destruct (h X c w) as [x w1]. specialize (IH x w1).
  destruct (exec h (k x) w1) as [[t a] w2]. by exists w1.
Qed.
End executable.
