(* ===== verification/Tables.v ===== *)
(** Tables of a remote service, by the ID the service gives each entry: entries
    have a key (a slot of the catalogue, the type and name of a service) that
    the service does not keep unique, but the operator has to. *)
From S2P Require Import Prelude.

Section tables.
Context {V K : Type} (key : V -> K).
Implicit Types (m : gmap string V) (k : K) (S : K -> Prop).

(** Nothing has changed outside some keys. *)
Definition sameOutside S m m' : Prop := forall id v, ~ S (key v) -> (m !! id = Some v <-> m' !! id = Some v).
#[export] Instance sameOutside_preorder S : PreOrder (sameOutside S).
Proof. split; [by intros m id v|intros m1 m2 m3 H1 H2 id v Hv; by rewrite (H1 id v Hv), (H2 id v Hv)]. Qed.
Lemma sameOutside_mono S S' m m' : (forall k, S k -> S' k) -> sameOutside S m m' -> sameOutside S' m m'.
Proof. intros HS H id v Hv. apply H. auto. Qed.

(** At most one entry has the key; none has; exactly one has, with this ID,
    which is not empty, and it satisfies [P]. *)
Definition uniqueAt m k : Prop :=
  forall id id' v v', m !! id = Some v -> m !! id' = Some v' -> key v = k -> key v' = k -> id = id'.
Definition emptyAt m k : Prop := forall id v, m !! id = Some v -> key v <> k.
Definition soleAt m k (id : string) (P : V -> Prop) : Prop :=
  id <> "" /\ (exists v, m !! id = Some v /\ key v = k /\ P v) /\ forall id' v', m !! id' = Some v' -> key v' = k -> id' = id.

Lemma soleAt_outside S m m' k id P : sameOutside S m m' -> ~ S k -> soleAt m k id P -> soleAt m' k id P.
Proof.
  intros HS Hk (Hid & (v & Hv & Hkey & HP) & Huniq). split_and!; [done| |].
  - exists v. split_and!; [|done..]. apply HS; [by rewrite Hkey|done].
  - intros id' v' Hv' <-. eapply Huniq; [apply HS; [exact Hk|exact Hv']|done].
Qed.
Lemma emptyAt_outside S m m' k : sameOutside S m m' -> ~ S k -> emptyAt m k -> emptyAt m' k.
Proof. intros HS Hk He id v Hv <-. eapply He; [apply HS; [exact Hk|exact Hv]|done]. Qed.
Lemma uniqueAt_subset m m' k : m' ⊆ m -> uniqueAt m k -> uniqueAt m' k.
Proof. intros Hsub Hu id id' v v' H1 H2. eapply Hu; eapply lookup_weaken; eauto. Qed.
Lemma emptyAt_unique m k : emptyAt m k -> uniqueAt m k.
Proof. intros He id id' v v' H1 _ Hk. by destruct (He _ _ H1). Qed.

(** Writing the entry of a key, where it was or where nothing was. *)
Lemma written_entry m id v :
  id <> "" -> (forall id' v', m !! id' = Some v' -> key v' = key v -> id' = id) ->
  (forall v', m !! id = Some v' -> key v' = key v) ->
  sameOutside (eq (key v)) m (<[id := v]> m) /\ soleAt (<[id := v]> m) (key v) id (eq v) /\
  forall k, uniqueAt m k -> uniqueAt (<[id := v]> m) k.
Proof.
  intros Hid Honly Hold. split; [|split; [split; [exact Hid|split]|]].
  - intros id' v' Hv'. rewrite lookup_insert_Some. split; [|intros [[<- <-]|[_ ?]]; [by destruct Hv'|done]].
    intros L. right. split; [|done]. intros <-. apply Hv'. symmetry. by apply Hold.
  - exists v. by rewrite lookup_insert_eq.
  - intros id' v'. rewrite lookup_insert_Some. intros [[<- _]|[_ L]] Hk; [done|by eapply Honly].
  - intros k Hu id1 id2 v1 v2. rewrite !lookup_insert_Some.
    intros [[<- <-]|[N1 L1]] [[<- <-]|[N2 L2]] K1 K2; [done| | |by eapply Hu].
    + symmetry. eapply Honly; [exact L2|congruence].
    + eapply Honly; [exact L1|congruence].
Qed.
End tables.

(** An ID no entry has, for executable services. *)
Definition newID {V} (m : gmap string V) : string := fresh ({[ "" ]} ∪ dom m : gset string).
Lemma newID_fresh {V} (m : gmap string V) : newID m <> "" /\ m !! newID m = None.
Proof.
  unfold newID. pose proof (is_fresh ({[ "" ]} ∪ dom m : gset string)) as [H1 H2]%not_elem_of_union.
  split; [by intros He; apply H1, elem_of_singleton|by apply not_elem_of_dom].
Qed.
