(* ===== verification/GoTime.v ===== *)
(** Machine integers, durations and instants (packages time, builtin int64).

    A [time.Duration] is an int64 count of nanoseconds, so a product such as
    [time.Duration(days) * 24 * time.Hour] wraps around; an instant is an
    integer count of nanoseconds since the Unix epoch. *)
From S2P Require Import Prelude.
Open Scope Z_scope.

Definition wrap64 (z : Z) : Z := (z + 2^63) mod 2^64 - 2^63.
Definition wrap32 (z : Z) : Z := (z + 2^31) mod 2^32 - 2^31.
Definition int64 (z : Z) : Prop := - 2^63 <= z < 2^63.

Definition nanosecondsPerHour : Z := 3600 * second.
Definition day : Z := 24 * nanosecondsPerHour.

(** [time.Duration(d) * 24 * time.Hour]: two int64 multiplications. *)
Definition durationOfDays (d : Z) : Z := wrap64 (wrap64 (d * 24) * nanosecondsPerHour).

(** [t.Add(d)], [t.After(u)], [t.Before(u)], [t.AddDate(0, 0, n)] (UTC). *)
Definition timeAdd (t d : Z) : Z := t + d.
Definition timeAfter (t u : Z) : bool := u <? t.
Definition timeBefore (t u : Z) : bool := t <? u.
Definition timeAddDays (t n : Z) : Z := t + n * day.

(** The zero [time.Time]: 0001-01-01 00:00:00 UTC. *)
Definition zeroTime : Z := -62135596800 * second.
(** [IsZero] of a [metav1.Time] pointer, nil included. *)
Definition timeIsZero (t : option Z) : bool :=
  match t with None => true | Some t => bool_decide (t = zeroTime) end.

(** The largest number of days whose duration fits an int64. *)
Definition maxDurationDays : Z := 106751.

Lemma wrap64_range z : int64 (wrap64 z).
Proof.
  unfold int64, wrap64. pose proof (Z.mod_pos_bound (z + 2^63) (2^64) ltac:(lia)). lia.
Qed.

Lemma wrap64_id z : int64 z -> wrap64 z = z.
Proof. unfold int64, wrap64. intros H. rewrite Z.mod_small; lia. Qed.

(** [wrap64] only depends on the residue modulo 2^64. *)
Lemma wrap64_eq z w : (z mod 2^64 = w mod 2^64) -> wrap64 z = wrap64 w.
Proof.
  intros H. unfold wrap64. f_equal.
  by rewrite (Z.add_mod z), (Z.add_mod w), H by lia.
Qed.

Lemma wrap64_mod z : wrap64 z mod 2^64 = z mod 2^64.
Proof.
  unfold wrap64. rewrite Zminus_mod_idemp_l. f_equal. lia.
Qed.

Lemma wrap64_mul_l a b : wrap64 (wrap64 a * b) = wrap64 (a * b).
Proof.
  apply wrap64_eq. by rewrite Z.mul_mod, wrap64_mod, <- Z.mul_mod by lia.
Qed.

Lemma wrap64_opp a : wrap64 (- wrap64 a) = wrap64 (- a).
Proof.
  apply wrap64_eq.
  replace (- wrap64 a) with (0 - wrap64 a) by lia.
  replace (- a) with (0 - a) by lia.
  rewrite Zminus_mod, wrap64_mod. by rewrite <- Zminus_mod.
Qed.

Lemma durationOfDays_wrap d : durationOfDays d = wrap64 (d * day).
Proof. unfold durationOfDays, day. rewrite wrap64_mul_l. f_equal. lia. Qed.

Lemma durationOfDays_exact d :
  0 <= d <= maxDurationDays -> durationOfDays d = d * day.
Proof.
  intros H. rewrite durationOfDays_wrap. apply wrap64_id.
  unfold int64, day, nanosecondsPerHour, second, maxDurationDays in *. lia.
Qed.
(** Beyond that a duration of days wraps around, at least once; up to twice
    as many it becomes negative. *)
Lemma wrap64_above d : maxDurationDays < d -> wrap64 (d * day) + 2^64 <= d * day.
Proof.
  intros Hd. unfold wrap64. pose proof (Z.div_mod (d * day + 2^63) (2^64) ltac:(lia)) as Hdiv.
  assert (1 <= (d * day + 2^63) / 2^64); [|lia].
  apply Z.div_le_lower_bound; [lia|]. unfold maxDurationDays, day, nanosecondsPerHour, second in *. lia.
Qed.
Lemma wrap64_above_negative d : maxDurationDays < d <= 2 * maxDurationDays -> wrap64 (d * day) < 0.
Proof.
  intros Hd. unfold wrap64. unfold maxDurationDays in Hd.
  replace (d * day + 2^63) with (d * day - 2^63 + 1 * 2^64) by lia.
  rewrite Z_mod_plus_full, Z.mod_small; unfold day, nanosecondsPerHour, second in *; lia.
Qed.

(** [-time.Duration(d) * 24 * time.Hour] and [-(time.Duration(d) * 24 * time.Hour)]
    are the same int64, overflow included. *)
Lemma durationOfDays_opp d : durationOfDays (wrap64 (- d)) = wrap64 (- durationOfDays d).
Proof.
  rewrite !durationOfDays_wrap, wrap64_mul_l, wrap64_opp. f_equal. lia.
Qed.
