(* ===== verification/Api.v ===== *)
(** The API data: the custom resources of api/v1beta1 and the Kubernetes
    objects the operator reads and writes.

    A Go map is a [gmap] (a nil map and an empty one read alike and the code
    makes every map it writes to), a pointer is an [option], a slice a [list].
    [Conditions] keeps nil apart from empty because the code tests it. *)
From S2P Require Import Prelude GoTime.

(** ** metav1.ObjectMeta, conditions, Secret *)

Record ObjectMeta := mkMeta {
  Name : string;
  Namespace : string;
  Generation : Z;
  Finalizers : list string;
  Labels : gmap string string;
  Annotations : gmap string string;
  DeletionTimestamp : option Z
}.

Definition setFinalizers (fs : list string) (m : ObjectMeta) : ObjectMeta :=
  mkMeta (Name m) (Namespace m) (Generation m) fs (Labels m) (Annotations m) (DeletionTimestamp m).
Definition setLabels (l : gmap string string) (m : ObjectMeta) : ObjectMeta :=
  mkMeta (Name m) (Namespace m) (Generation m) (Finalizers m) l (Annotations m) (DeletionTimestamp m).
Definition setAnnotations (a : gmap string string) (m : ObjectMeta) : ObjectMeta :=
  mkMeta (Name m) (Namespace m) (Generation m) (Finalizers m) (Labels m) a (DeletionTimestamp m).
Definition newMeta (name ns : string) : ObjectMeta := mkMeta name ns 0 [] ∅ ∅ None.

(** [instance.DeletionTimestamp.IsZero()] *)
Definition notDeleting (m : ObjectMeta) : bool := timeIsZero (DeletionTimestamp m).

(** condition.Condition *)
Record Condition := mkCondition {
  c_Type : string;
  c_Status : string;
  c_Reason : string;
  c_Severity : string;
  c_Message : string;
  c_LastTransitionTime : Z
}.
#[export] Instance Condition_eq_dec : EqDecision Condition.
Proof. solve_decision. Defined.

(** condition.Conditions, a slice: [None] is nil. *)
Abbreviation Conditions := (option (list Condition)).

(** corev1.Secret *)
Record Secret := mkSecret {
  s_meta : ObjectMeta;
  s_Immutable : option bool;
  s_Data : gmap string string
}.
Definition s_Name (s : Secret) : string := Name (s_meta s).
Definition setSecretMeta (m : ObjectMeta) (s : Secret) : Secret := mkSecret m (s_Immutable s) (s_Data s).
Definition setSecretData (d : gmap string string) (s : Secret) : Secret := mkSecret (s_meta s) (s_Immutable s) d.

(** ** KeystoneService *)

Record KeystoneServiceSpec := mkServiceSpec {
  ks_ServiceType : string;
  ks_ServiceName : string;
  ks_ServiceDescription : string;
  ks_Enabled : bool;
  ks_ServiceUser : string;
  ks_Secret : string;
  ks_PasswordSelector : string
}.

Record KeystoneServiceStatus := mkServiceStatus {
  ks_ServiceID : string;
  ks_Conditions : Conditions
}.

Record KeystoneService := mkService {
  ks_meta : ObjectMeta;
  ks_spec : KeystoneServiceSpec;
  ks_status : KeystoneServiceStatus
}.

Definition ks_setMeta (m : ObjectMeta) (i : KeystoneService) := mkService m (ks_spec i) (ks_status i).
Definition ks_setConditions (c : Conditions) (i : KeystoneService) :=
  mkService (ks_meta i) (ks_spec i) (mkServiceStatus (ks_ServiceID (ks_status i)) c).
Definition ks_setServiceID (id : string) (i : KeystoneService) :=
  mkService (ks_meta i) (ks_spec i) (mkServiceStatus id (ks_Conditions (ks_status i))).
Definition ks_setFinalizers (fs : list string) (i : KeystoneService) := ks_setMeta (setFinalizers fs (ks_meta i)) i.

(** ** KeystoneEndpoint *)

Record KeystoneEndpointSpec := mkEndpointSpec {
  ke_ServiceName : string;
  ke_Endpoints : gmap string string
}.

Record Endpoint := mkEndpoint {
  e_Interface : string;
  e_URL : string;
  e_ID : string
}.
#[export] Instance Endpoint_eq_dec : EqDecision Endpoint.
Proof. solve_decision. Defined.

Record KeystoneEndpointStatus := mkEndpointStatus {
  kes_EndpointIDs : gmap string string;
  kes_ServiceID : string;
  kes_Conditions : Conditions;
  kes_Endpoints : list Endpoint;
  kes_ObservedGeneration : Z
}.

Record KeystoneEndpoint := mkKeystoneEndpoint {
  ke_meta : ObjectMeta;
  ke_spec : KeystoneEndpointSpec;
  ke_status : KeystoneEndpointStatus
}.

Definition ke_setMeta (m : ObjectMeta) (i : KeystoneEndpoint) := mkKeystoneEndpoint m (ke_spec i) (ke_status i).
Definition ke_setStatus (s : KeystoneEndpointStatus) (i : KeystoneEndpoint) :=
  mkKeystoneEndpoint (ke_meta i) (ke_spec i) s.
Definition ke_setFinalizers (fs : list string) (i : KeystoneEndpoint) := ke_setMeta (setFinalizers fs (ke_meta i)) i.
Definition kes_setIDs (ids : gmap string string) (s : KeystoneEndpointStatus) :=
  mkEndpointStatus ids (kes_ServiceID s) (kes_Conditions s) (kes_Endpoints s) (kes_ObservedGeneration s).
Definition kes_setServiceID (id : string) (s : KeystoneEndpointStatus) :=
  mkEndpointStatus (kes_EndpointIDs s) id (kes_Conditions s) (kes_Endpoints s) (kes_ObservedGeneration s).
Definition kes_setConditions (c : Conditions) (s : KeystoneEndpointStatus) :=
  mkEndpointStatus (kes_EndpointIDs s) (kes_ServiceID s) c (kes_Endpoints s) (kes_ObservedGeneration s).
Definition kes_setEndpoints (es : list Endpoint) (s : KeystoneEndpointStatus) :=
  mkEndpointStatus (kes_EndpointIDs s) (kes_ServiceID s) (kes_Conditions s) es (kes_ObservedGeneration s).
Definition kes_setObservedGeneration (g : Z) (s : KeystoneEndpointStatus) :=
  mkEndpointStatus (kes_EndpointIDs s) (kes_ServiceID s) (kes_Conditions s) (kes_Endpoints s) g.

(** ** KeystoneApplicationCredential *)

Record ACRule := mkACRule { ar_Service : string; ar_Path : string; ar_Method : string }.
#[export] Instance ACRule_eq_dec : EqDecision ACRule.
Proof. solve_decision. Defined.

Record KeystoneApplicationCredentialSpec := mkACSpec {
  ac_Secret : string;
  ac_PasswordSelector : string;
  ac_UserName : string;
  ac_ExpirationDays : Z;
  ac_GracePeriodDays : Z;
  ac_Roles : list string;
  ac_Unrestricted : bool;
  ac_AccessRules : list ACRule
}.

Record KeystoneApplicationCredentialStatus := mkACStatus {
  acs_ACID : string;
  acs_SecretName : string;
  acs_PreviousSecretName : string;
  acs_Conditions : Conditions;
  acs_CreatedAt : option Z;
  acs_ExpiresAt : option Z;
  acs_RotationEligibleAt : option Z;
  acs_LastRotated : option Z;
  acs_ObservedGeneration : Z;
  acs_SecurityHash : string
}.

Record KeystoneApplicationCredential := mkAC {
  ac_meta : ObjectMeta;
  ac_spec : KeystoneApplicationCredentialSpec;
  ac_status : KeystoneApplicationCredentialStatus
}.

Definition ac_setMeta (m : ObjectMeta) (i : KeystoneApplicationCredential) := mkAC m (ac_spec i) (ac_status i).
Definition ac_setStatus (s : KeystoneApplicationCredentialStatus) (i : KeystoneApplicationCredential) :=
  mkAC (ac_meta i) (ac_spec i) s.
Definition ac_setFinalizers (fs : list string) (i : KeystoneApplicationCredential) :=
  ac_setMeta (setFinalizers fs (ac_meta i)) i.
Definition acs_setConditions (c : Conditions) (s : KeystoneApplicationCredentialStatus) :=
  mkACStatus (acs_ACID s) (acs_SecretName s) (acs_PreviousSecretName s) c (acs_CreatedAt s)
    (acs_ExpiresAt s) (acs_RotationEligibleAt s) (acs_LastRotated s) (acs_ObservedGeneration s) (acs_SecurityHash s).
Definition acs_setRotationEligibleAt (t : option Z) (s : KeystoneApplicationCredentialStatus) :=
  mkACStatus (acs_ACID s) (acs_SecretName s) (acs_PreviousSecretName s) (acs_Conditions s) (acs_CreatedAt s)
    (acs_ExpiresAt s) t (acs_LastRotated s) (acs_ObservedGeneration s) (acs_SecurityHash s).
Definition acs_setLastRotated (t : option Z) (s : KeystoneApplicationCredentialStatus) :=
  mkACStatus (acs_ACID s) (acs_SecretName s) (acs_PreviousSecretName s) (acs_Conditions s) (acs_CreatedAt s)
    (acs_ExpiresAt s) (acs_RotationEligibleAt s) t (acs_ObservedGeneration s) (acs_SecurityHash s).
Definition acs_setObservedGeneration (g : Z) (s : KeystoneApplicationCredentialStatus) :=
  mkACStatus (acs_ACID s) (acs_SecretName s) (acs_PreviousSecretName s) (acs_Conditions s) (acs_CreatedAt s)
    (acs_ExpiresAt s) (acs_RotationEligibleAt s) (acs_LastRotated s) g (acs_SecurityHash s).

(** ** KeystoneAPI *)

(** corev1 volumes as the operator builds them. *)
Record KeyToPath := mkKeyToPath { ktp_Key : string; ktp_Path : string }.
Record VolumeMount := mkVolumeMount {
  vm_Name : string;
  vm_MountPath : string;
  vm_SubPath : string;
  vm_ReadOnly : bool
}.
#[export] Instance VolumeMount_eq_dec : EqDecision VolumeMount.
Proof. solve_decision. Defined.

(** storage.VolMounts (lib-common): a volume source is carried through as is. *)
Record StorageVolume := mkStorageVolume { sv_Name : string; sv_Source : string }.
Record VolMounts := mkVolMounts {
  vms_Propagation : list string;
  vms_Volumes : list StorageVolume;
  vms_Mounts : list VolumeMount
}.
Record KeystoneExtraMounts := mkExtraMounts {
  em_Name : string;
  em_Region : string;
  em_VolMounts : list VolMounts
}.

(** tls.API (lib-common) *)
Record GenericService := mkGenericService { gs_SecretName : option string }.
Record TLSAPI := mkTLSAPI {
  tls_Public : GenericService;
  tls_Internal : GenericService;
  tls_CaBundleSecretName : string
}.

(** service.RoutedOverrideSpec (lib-common): the embedded OverrideSpec with its
    pointer to labels and annotations, and the endpoint URL. *)
Record OverrideSpec := mkOverrideSpec {
  os_EmbeddedLabelsAnnotations : option (gmap string string * gmap string string);
  os_Spec : string
}.
Record RoutedOverrideSpec := mkRoutedOverride {
  ro_OverrideSpec : OverrideSpec;
  ro_EndpointURL : option string
}.

(** service.EndpointPublic, service.EndpointInternal *)
Definition EndpointPublic : string := "public".
Definition EndpointInternal : string := "internal".

Record RabbitMqConfig := mkRabbitMqConfig { rc_Cluster : string; rc_User : string; rc_Vhost : string }.
Record TopoRef := mkTopoRef { tr_Name : string; tr_Namespace : string }.
#[export] Instance TopoRef_eq_dec : EqDecision TopoRef.
Proof. solve_decision. Defined.
Record HttpdCustomization := mkHttpdCustomization {
  hc_ProcessNumber : option Z;
  hc_CustomConfigSecret : option string
}.
Record ResourceRequirements := mkResources { rr_Limits : gmap string string; rr_Requests : gmap string string }.

Record KeystoneAPISpecCore := mkAPISpecCore {
  ka_DatabaseInstance : string;
  ka_DatabaseAccount : string;
  ka_MemcachedInstance : string;
  ka_Region : string;
  ka_AdminProject : string;
  ka_AdminUser : string;
  ka_Replicas : option Z;
  ka_Secret : string;
  ka_EnableSecureRBAC : bool;
  ka_TrustFlushArgs : string;
  ka_TrustFlushSchedule : string;
  ka_TrustFlushSuspend : bool;
  ka_FernetRotationDays : option Z;
  ka_FernetMaxActiveKeys : option Z;
  ka_PasswordSelectorAdmin : string;
  ka_NodeSelector : option (gmap string string);
  ka_PreserveJobs : bool;
  ka_CustomServiceConfig : string;
  ka_DefaultConfigOverwrite : gmap string string;
  ka_HttpdCustomization : HttpdCustomization;
  ka_Resources : ResourceRequirements;
  ka_NetworkAttachments : list string;
  ka_OverrideService : gmap string RoutedOverrideSpec;
  ka_RabbitMqClusterName : string;
  ka_TLS : TLSAPI;
  ka_APITimeout : Z;
  ka_TopologyRef : option TopoRef;
  ka_ExtraMounts : list KeystoneExtraMounts;
  ka_FederatedRealmConfig : string;
  ka_ExternalKeystoneAPI : bool;
  ka_NotificationsBus : option RabbitMqConfig
}.

Record KeystoneAPISpec := mkAPISpec {
  ka_core : KeystoneAPISpecCore;
  ka_ContainerImage : string
}.

Record KeystoneAPIStatus := mkAPIStatus {
  kas_ReadyCount : Z;
  kas_Hash : gmap string string;
  kas_APIEndpoints : gmap string string;
  kas_Conditions : Conditions;
  kas_DatabaseHostname : string;
  kas_NetworkAttachments : gmap string (list string);
  kas_TransportURLSecret : string;
  kas_ObservedGeneration : Z;
  kas_LastAppliedTopology : option TopoRef;
  kas_Region : string
}.

Record KeystoneAPI := mkKeystoneAPI {
  ka_meta : ObjectMeta;
  ka_spec : KeystoneAPISpec;
  ka_status : KeystoneAPIStatus
}.

Definition ka_setMeta (m : ObjectMeta) (i : KeystoneAPI) := mkKeystoneAPI m (ka_spec i) (ka_status i).
Definition ka_setFinalizers (fs : list string) (i : KeystoneAPI) := ka_setMeta (setFinalizers fs (ka_meta i)) i.
Definition ka_setStatus (s : KeystoneAPIStatus) (i : KeystoneAPI) := mkKeystoneAPI (ka_meta i) (ka_spec i) s.

Definition ka_setAPITimeout (n : Z) (s : KeystoneAPISpecCore) : KeystoneAPISpecCore :=   mkAPISpecCore
    (ka_DatabaseInstance s) (ka_DatabaseAccount s) (ka_MemcachedInstance s) (ka_Region s) (ka_AdminProject s)
    (ka_AdminUser s) (ka_Replicas s) (ka_Secret s) (ka_EnableSecureRBAC s) (ka_TrustFlushArgs s)
    (ka_TrustFlushSchedule s) (ka_TrustFlushSuspend s) (ka_FernetRotationDays s) (ka_FernetMaxActiveKeys s)
    (ka_PasswordSelectorAdmin s) (ka_NodeSelector s) (ka_PreserveJobs s) (ka_CustomServiceConfig s)
    (ka_DefaultConfigOverwrite s) (ka_HttpdCustomization s) (ka_Resources s) (ka_NetworkAttachments s)
    (ka_OverrideService s) (ka_RabbitMqClusterName s) (ka_TLS s) n (ka_TopologyRef s) (ka_ExtraMounts s)
    (ka_FederatedRealmConfig s) (ka_ExternalKeystoneAPI s) (ka_NotificationsBus s).

Definition kas_setReadyCount n (s : KeystoneAPIStatus) :=
  mkAPIStatus n (kas_Hash s) (kas_APIEndpoints s) (kas_Conditions s) (kas_DatabaseHostname s)
    (kas_NetworkAttachments s) (kas_TransportURLSecret s) (kas_ObservedGeneration s) (kas_LastAppliedTopology s) (kas_Region s).
Definition kas_setHash h (s : KeystoneAPIStatus) :=
  mkAPIStatus (kas_ReadyCount s) h (kas_APIEndpoints s) (kas_Conditions s) (kas_DatabaseHostname s)
    (kas_NetworkAttachments s) (kas_TransportURLSecret s) (kas_ObservedGeneration s) (kas_LastAppliedTopology s) (kas_Region s).
Definition kas_setAPIEndpoints e (s : KeystoneAPIStatus) :=
  mkAPIStatus (kas_ReadyCount s) (kas_Hash s) e (kas_Conditions s) (kas_DatabaseHostname s)
    (kas_NetworkAttachments s) (kas_TransportURLSecret s) (kas_ObservedGeneration s) (kas_LastAppliedTopology s) (kas_Region s).
Definition kas_setConditions c (s : KeystoneAPIStatus) :=
  mkAPIStatus (kas_ReadyCount s) (kas_Hash s) (kas_APIEndpoints s) c (kas_DatabaseHostname s)
    (kas_NetworkAttachments s) (kas_TransportURLSecret s) (kas_ObservedGeneration s) (kas_LastAppliedTopology s) (kas_Region s).
Definition kas_setDatabaseHostname h (s : KeystoneAPIStatus) :=
  mkAPIStatus (kas_ReadyCount s) (kas_Hash s) (kas_APIEndpoints s) (kas_Conditions s) h
    (kas_NetworkAttachments s) (kas_TransportURLSecret s) (kas_ObservedGeneration s) (kas_LastAppliedTopology s) (kas_Region s).
Definition kas_setNetworkAttachments n (s : KeystoneAPIStatus) :=
  mkAPIStatus (kas_ReadyCount s) (kas_Hash s) (kas_APIEndpoints s) (kas_Conditions s) (kas_DatabaseHostname s)
    n (kas_TransportURLSecret s) (kas_ObservedGeneration s) (kas_LastAppliedTopology s) (kas_Region s).
Definition kas_setTransportURLSecret n (s : KeystoneAPIStatus) :=
  mkAPIStatus (kas_ReadyCount s) (kas_Hash s) (kas_APIEndpoints s) (kas_Conditions s) (kas_DatabaseHostname s)
    (kas_NetworkAttachments s) n (kas_ObservedGeneration s) (kas_LastAppliedTopology s) (kas_Region s).
Definition kas_setObservedGeneration n (s : KeystoneAPIStatus) :=
  mkAPIStatus (kas_ReadyCount s) (kas_Hash s) (kas_APIEndpoints s) (kas_Conditions s) (kas_DatabaseHostname s)
    (kas_NetworkAttachments s) (kas_TransportURLSecret s) n (kas_LastAppliedTopology s) (kas_Region s).
Definition kas_setLastAppliedTopology n (s : KeystoneAPIStatus) :=
  mkAPIStatus (kas_ReadyCount s) (kas_Hash s) (kas_APIEndpoints s) (kas_Conditions s) (kas_DatabaseHostname s)
    (kas_NetworkAttachments s) (kas_TransportURLSecret s) (kas_ObservedGeneration s) n (kas_Region s).
Definition kas_setRegion n (s : KeystoneAPIStatus) :=
  mkAPIStatus (kas_ReadyCount s) (kas_Hash s) (kas_APIEndpoints s) (kas_Conditions s) (kas_DatabaseHostname s)
    (kas_NetworkAttachments s) (kas_TransportURLSecret s) (kas_ObservedGeneration s) (kas_LastAppliedTopology s) n.

(** [KeystoneAPI.GetEndpoint] *)
Definition GetEndpoint (instance : KeystoneAPI) (endpointType : string) : res string :=
  match kas_APIEndpoints (ka_status instance) !! endpointType with
  | Some url => inr url
  | None => inl (errorf (endpointType +:+ " endpoint not found"))
  end.

(** [RbacNamespace], [RbacResourceName], [GetRegion] *)
Definition RbacNamespace (instance : KeystoneAPI) : string := Namespace (ka_meta instance).
Definition RbacResourceName (instance : KeystoneAPI) : string := "keystone-" +:+ Name (ka_meta instance).
Definition GetRegion (instance : KeystoneAPI) : string := kas_Region (ka_status instance).

(** ** Application credential names (keystoneapplicationcredential.go) *)

Definition GetACCRName (serviceName : string) : string := "ac-" +:+ serviceName.
Definition GetServiceNameFromACCR (acName : string) : string := TrimPrefix acName "ac-".

Definition ACIDSecretKey : string := "AC_ID".
Definition ACSecretSecretKey : string := "AC_SECRET".
Definition EDPMServiceAnnotation : string := "keystone.openstack.org/edpm-service".

(** [IsEDPMService]: a missing annotation reads as the empty string. *)
Definition IsEDPMService (ac : KeystoneApplicationCredential) : bool :=
  negb (bool_decide (default "" (Annotations (ac_meta ac) !! EDPMServiceAnnotation) = "false")).
