(* ===== verification/Conditions.v ===== *)
(** The interface of lib-common's condition package and of controller-runtime's
    finalizer helpers: code outside the repository, so a class of operations
    the controllers are parameterised by, a class of the documented behaviour
    the theorems rely on, and one concrete instance of both (used by the
    witnesses and to show that the laws can be met). *)
From S2P Require Import Prelude GoTime Api.

(** ** Constants of conditions.go and of lib-common *)

Definition ReadyCondition : string := "Ready".
Definition KeystoneAPIReadyCondition : string := "KeystoneAPIReady".
Definition AdminServiceClientReadyCondition : string := "AdminServiceClientReady".
Definition KeystoneServiceOSServiceReadyCondition : string := "KeystoneServiceOSServiceReady".
Definition KeystoneServiceOSEndpointsReadyCondition : string := "KeystoneServiceOSEndpointsReady".
Definition KeystoneServiceOSUserReadyCondition : string := "KeystoneServiceOSUserReady".
Definition KeystoneApplicationCredentialReadyCondition : string := "KeystoneApplicationCredentialReady".
Definition KeystoneServiceReadyCondition : string := "KeystoneServiceReady".

Definition InitReason : string := "Init".
Definition RequestedReason : string := "Requested".
Definition ErrorReason : string := "Error".
Definition SeverityInfo : string := "Info".
Definition SeverityWarning : string := "Warning".
Definition ConditionTrue : string := "True".
Definition ConditionFalse : string := "False".
Definition ConditionUnknown : string := "Unknown".

Definition KeystoneAPIReadyInitMessage : string := "KeystoneAPI not started".
Definition KeystoneAPIReadyMessage : string := "KeystoneAPI ready".
Definition KeystoneAPIReadyNotFoundMessage : string := "KeystoneAPI not found".
Definition KeystoneAPIReadyWaitingMessage : string := "KeystoneAPI not yet ready".
Definition KeystoneAPIReadyErrorMessage : string := "KeystoneAPI error occured %s".
Definition AdminServiceClientReadyInitMessage : string := "Admin client not started".
Definition AdminServiceClientReadyMessage : string := "Admin client ready".
Definition AdminServiceClientReadyWaitingMessage : string := "Admin client not yet ready".
Definition AdminServiceClientReadyErrorMessage : string := "Admin client error occured %s".
Definition KeystoneServiceOSServiceReadyInitMessage : string := "Keystone Service registration not started".
Definition KeystoneServiceOSServiceReadyMessage : string := "Keystone Service %s - %s ready".
Definition KeystoneServiceOSServiceReadyErrorMessage : string := "Keystone Service error occured %s".
Definition KeystoneServiceOSEndpointsReadyInitMessage : string := "Keystone Endpoints registration not started".
Definition KeystoneServiceOSEndpointsReadyMessage : string := "Keystone Endpoints ready: %+v".
Definition KeystoneServiceOSEndpointsReadyErrorMessage : string := "Keystone Endpoints error occured %s".
Definition KeystoneServiceOSUserReadyInitMessage : string := "Keystone Service user registration not started".
Definition KeystoneServiceOSUserReadyMessage : string := "Keystone Service user %s ready".
Definition KeystoneServiceOSUserReadyWaitingMessage : string := "Keystone Service user not yet ready".
Definition KeystoneServiceOSUserReadyErrorMessage : string := "Keystone Service user error occured %s".
Definition KeystoneApplicationCredentialReadyInitMessage : string := "ApplicationCredential not yet created".
Definition KeystoneApplicationCredentialReadyMessage : string := "ApplicationCredential ready".
Definition KeystoneApplicationCredentialWaitingMessage : string :=
  "ApplicationCredential waiting for secret %s to be available".
Definition KeystoneApplicationCredentialReadyErrorMessage : string := "ApplicationCredential error occurred: %s".

(** ** Operations *)

Class ConditionLib := {
  (** [FalseCondition(t, reason, severity, format, args...)] *)
  FalseCondition : string -> string -> string -> string -> list string -> Condition;
  UnknownCondition : string -> string -> string -> Condition;
  CreateList : list Condition -> Conditions;
  (** the methods of [Conditions]; [Set] takes a pointer, nil included *)
  condSet : option Condition -> Conditions -> Conditions;
  condMarkTrue : string -> string -> list string -> Conditions -> Conditions;
  condMarkUnknown : string -> string -> string -> Conditions -> Conditions;
  condInit : Conditions -> Conditions -> Conditions;
  condIsTrue : string -> Conditions -> bool;
  condAllSubConditionIsTrue : Conditions -> bool;
  condMirror : string -> Conditions -> option Condition;
  RestoreLastTransitionTimes : Conditions -> Conditions -> Conditions;
  ReadyInitMessage : string;
  ReadyMessage : string
}.

Class FinalizerLib := {
  (** controllerutil.AddFinalizer / RemoveFinalizer on an object's finalizer
      list, with the report whether the list was changed *)
  AddFinalizer : string -> list string -> list string * bool;
  RemoveFinalizer : string -> list string -> list string * bool
}.

(** The status of the condition of type [t], if there is one. *)
Fixpoint findCondition (t : string) (l : list Condition) : option Condition :=
  match l with
  | [] => None
  | c :: l' => if decide (c_Type c = t) then Some c else findCondition t l'
  end.
Definition condStatus (t : string) (cs : Conditions) : option string :=
  c_Status <$> findCondition t (default [] cs).

(** ** Documented behaviour *)

Class ConditionLaws `{ConditionLib} := {
  FalseCondition_type t r s f a : c_Type (FalseCondition t r s f a) = t;
  FalseCondition_status t r s f a : c_Status (FalseCondition t r s f a) = ConditionFalse;
  UnknownCondition_type t r m : c_Type (UnknownCondition t r m) = t;
  UnknownCondition_status t r m : c_Status (UnknownCondition t r m) = ConditionUnknown;
  condSet_nil cs : condSet None cs = cs;
  condSet_status c cs t :
    condStatus t (condSet (Some c) cs)
    = if decide (t = c_Type c) then Some (c_Status c) else condStatus t cs;
  condMarkTrue_status t' f a cs t :
    condStatus t (condMarkTrue t' f a cs)
    = if decide (t = t') then Some ConditionTrue else condStatus t cs;
  condMarkUnknown_status t' r m cs t :
    condStatus t (condMarkUnknown t' r m cs)
    = if decide (t = t') then Some ConditionUnknown else condStatus t cs;
  CreateList_status l c :
    NoDup (c_Type <$> l) -> c ∈ l -> condStatus (c_Type c) (CreateList l) = Some (c_Status c);
  (** [Init] resets the listed conditions, and Ready to Unknown *)
  condInit_status cl cs t s :
    condStatus t cl = Some s -> t ≠ ReadyCondition -> condStatus t (condInit cl cs) = Some s;
  condInit_Ready cl cs :
    condStatus ReadyCondition cl = None \/ condStatus ReadyCondition cl = Some ConditionUnknown ->
    condStatus ReadyCondition (condInit cl cs) = Some ConditionUnknown;
  condIsTrue_spec t cs : condIsTrue t cs = bool_decide (condStatus t cs = Some ConditionTrue);
  (** [AllSubConditionIsTrue] looks at every condition but Ready *)
  condAllSub_true cs t s :
    condAllSubConditionIsTrue cs = true -> t ≠ ReadyCondition ->
    condStatus t cs = Some s -> s = ConditionTrue;
  condAllSub_MarkTrue_Ready f a cs :
    condAllSubConditionIsTrue (condMarkTrue ReadyCondition f a cs) = condAllSubConditionIsTrue cs;
  condAllSub_MarkUnknown_Ready r m cs :
    condAllSubConditionIsTrue (condMarkUnknown ReadyCondition r m cs) = condAllSubConditionIsTrue cs;
  condAllSub_Set_Ready c cs :
    c_Type c = ReadyCondition ->
    condAllSubConditionIsTrue (condSet (Some c) cs) = condAllSubConditionIsTrue cs;
  (** [Mirror] reflects the most severe of the conditions that are not True *)
  condMirror_type t cs c : condMirror t cs = Some c -> c_Type c = t;
  condMirror_status cs c :
    condAllSubConditionIsTrue cs = false -> condMirror ReadyCondition cs = Some c ->
    c_Status c ≠ ConditionTrue;
  Restore_status cs saved t : condStatus t (RestoreLastTransitionTimes cs saved) = condStatus t cs;
  Restore_AllSub cs saved :
    condAllSubConditionIsTrue (RestoreLastTransitionTimes cs saved) = condAllSubConditionIsTrue cs
}.

Class FinalizerLaws `{FinalizerLib} := {
  AddFinalizer_elem f l g : g ∈ (AddFinalizer f l).1 <-> g = f \/ g ∈ l;
  AddFinalizer_flag f l : (AddFinalizer f l).2 = negb (bool_decide (f ∈ l));
  AddFinalizer_same f l : f ∈ l -> (AddFinalizer f l).1 = l;
  RemoveFinalizer_elem f l g : g ∈ (RemoveFinalizer f l).1 <-> g ≠ f /\ g ∈ l;
  RemoveFinalizer_flag f l : (RemoveFinalizer f l).2 = bool_decide (f ∈ l);
  RemoveFinalizer_same f l : f ∉ l -> (RemoveFinalizer f l).1 = l
}.

(** ** The ready bookkeeping every controller runs when it returns

    The deferred function of the four reconcilers. *)

Definition summarizeReady `{ConditionLib} (cs : Conditions) : Conditions :=
  if condAllSubConditionIsTrue cs
  then condMarkTrue ReadyCondition ReadyMessage [] cs
  else
    let cs := condMarkUnknown ReadyCondition InitReason ReadyInitMessage cs in
    condSet (condMirror ReadyCondition cs) cs.

Section ready.
Context `{ConditionLaws}.

Lemma summarizeReady_AllSub cs :
  condAllSubConditionIsTrue (summarizeReady cs) = condAllSubConditionIsTrue cs.
Proof.
  unfold summarizeReady. destruct (condAllSubConditionIsTrue cs) eqn:Hs.
  - by rewrite condAllSub_MarkTrue_Ready.
  - destruct (condMirror _ _) as [c|] eqn:Hm.
    + rewrite condAllSub_Set_Ready by (by apply condMirror_type in Hm).
      by rewrite condAllSub_MarkUnknown_Ready.
    + by rewrite condSet_nil, condAllSub_MarkUnknown_Ready.
Qed.

Lemma summarizeReady_Ready cs :
  condIsTrue ReadyCondition (summarizeReady cs) = condAllSubConditionIsTrue cs.
Proof.
  rewrite condIsTrue_spec. unfold summarizeReady.
  destruct (condAllSubConditionIsTrue cs) eqn:Hs.
  - rewrite condMarkTrue_status, decide_True by done. by apply bool_decide_eq_true_2.
  - apply bool_decide_eq_false_2. destruct (condMirror _ _) as [c|] eqn:Hm.
    + rewrite condSet_status, (condMirror_type _ _ _ Hm), decide_True by done.
      intros [= Hc]. eapply condMirror_status; [|exact Hm|exact Hc].
      by rewrite condAllSub_MarkUnknown_Ready.
    + rewrite condSet_nil, condMarkUnknown_status, decide_True by done. done.
Qed.

Lemma summarizeReady_other cs t :
  t ≠ ReadyCondition -> condStatus t (summarizeReady cs) = condStatus t cs.
Proof.
  intros Ht. unfold summarizeReady. destruct (condAllSubConditionIsTrue cs).
  - by rewrite condMarkTrue_status, decide_False.
  - destruct (condMirror _ _) as [c|] eqn:Hm.
    + rewrite condSet_status, (condMirror_type _ _ _ Hm), decide_False by done.
      by rewrite condMarkUnknown_status, decide_False.
    + by rewrite condSet_nil, condMarkUnknown_status, decide_False.
Qed.
End ready.
