(* ===== verification/Instances.v ===== *)
(** Concrete instances of the interfaces of Conditions.v: a list implementation
    of the condition and finalizer operations with the proofs that it obeys the
    laws.  The witnesses evaluate the controllers with it. *)
From S2P Require Import Prelude GoTime Api Conditions.

(** ** Conditions as a list keyed by type *)

Fixpoint setCondition (c : Condition) (l : list Condition) : list Condition :=
  match l with
  | [] => [c]
  | d :: l' => if decide (c_Type d = c_Type c) then c :: l' else d :: setCondition c l'
  end.

Definition isSub (c : Condition) : bool := negb (bool_decide (c_Type c = ReadyCondition)).
Definition isTrue (c : Condition) : bool := bool_decide (c_Status c = ConditionTrue).
Definition allSub (l : list Condition) : bool := forallb (fun c => negb (isSub c) || isTrue c) l.

Definition mkCond (t s r sev m : string) : Condition := mkCondition t s r sev m 0.
Definition retype (t : string) (c : Condition) : Condition :=
  mkCondition t (c_Status c) (c_Reason c) (c_Severity c) (c_Message c) (c_LastTransitionTime c).

Definition severest (l : list Condition) : option Condition :=
  match filter (fun c => isSub c && negb (isTrue c)) l with
  | c :: _ => Some c
  | [] => head l
  end.

#[export] Instance listConditionLib : ConditionLib := {|
  FalseCondition := fun t r s f a => mkCond t ConditionFalse r s (foldr (fun x acc => acc +:+ x) f a);
  UnknownCondition := fun t r m => mkCond t ConditionUnknown r "" m;
  CreateList := fun l => Some (foldr setCondition [] l);
  condSet := fun c cs => match c with None => cs | Some c => Some (setCondition c (default [] cs)) end;
  condMarkTrue := fun t f a cs =>
    Some (setCondition (mkCond t ConditionTrue "Ready" "" (foldr (fun x acc => acc +:+ x) f a)) (default [] cs));
  condMarkUnknown := fun t r m cs => Some (setCondition (mkCond t ConditionUnknown r "" m) (default [] cs));
  condInit := fun cl _ =>
    Some (foldr setCondition [mkCond ReadyCondition ConditionUnknown InitReason "" "Setup started"]
            (default [] cl));
  condIsTrue := fun t cs => bool_decide (condStatus t cs = Some ConditionTrue);
  condAllSubConditionIsTrue := fun cs => allSub (default [] cs);
  condMirror := fun t cs => retype t <$> severest (default [] cs);
  RestoreLastTransitionTimes := fun cs _ => cs;
  ReadyInitMessage := "Setup started";
  ReadyMessage := "Setup complete"
|}.

Lemma findCondition_setCondition t c l :
  findCondition t (setCondition c l) = if decide (t = c_Type c) then Some c else findCondition t l.
Proof.
  induction l as [|d l IH]; simpl.
  - destruct (decide (c_Type c = t)), (decide (t = c_Type c)); congruence.
  - destruct (decide (c_Type d = c_Type c)) as [Hd|Hd]; simpl.
    + destruct (decide (c_Type c = t)), (decide (t = c_Type c)), (decide (c_Type d = t)); congruence.
    + rewrite IH.
      destruct (decide (c_Type d = t)), (decide (t = c_Type c)); congruence.
Qed.

Lemma condStatus_setCondition t c l :
  condStatus t (Some (setCondition c l))
  = if decide (t = c_Type c) then Some (c_Status c) else condStatus t (Some l).
Proof. unfold condStatus. simpl. rewrite findCondition_setCondition. by case_decide. Qed.

Lemma allSub_setReady c l : c_Type c = ReadyCondition -> allSub (setCondition c l) = allSub l.
Proof.
  intros Hc. unfold allSub, isSub. induction l as [|d l IH]; simpl.
  - by rewrite Hc.
  - case_decide as Hd; simpl; [|by rewrite IH]. by rewrite Hd, Hc.
Qed.

Lemma findCondition_elem t l c : findCondition t l = Some c -> c ∈ l /\ c_Type c = t.
Proof.
  induction l as [|d l IH]; simpl; [done|]. case_decide.
  - intros [= <-]. by split; [left|].
  - intros Hf. destruct (IH Hf). by split; [right|].
Qed.

Lemma findCondition_foldr l0 l c :
  NoDup (c_Type <$> l) -> c ∈ l -> findCondition (c_Type c) (foldr setCondition l0 l) = Some c.
Proof.
  induction l as [|d l IH]; intros Hnd Hc; [by apply elem_of_nil in Hc|].
  cbn in *. apply NoDup_cons in Hnd as [Hd Hnd].
  rewrite findCondition_setCondition. apply elem_of_cons in Hc as [->|Hc].
  - by rewrite decide_True.
  - rewrite decide_False; [by apply IH|]. intros Heq. apply Hd. rewrite <- Heq.
    by apply list_elem_of_fmap_2.
Qed.

Lemma findCondition_foldr_init t l0 l :
  findCondition t (foldr setCondition l0 l)
  = match findCondition t l with Some c => Some c | None => findCondition t l0 end.
Proof.
  induction l as [|d l IH]; cbn; [done|].
  rewrite findCondition_setCondition, IH.
  destruct (decide (c_Type d = t)), (decide (t = c_Type d)); congruence.
Qed.

Lemma severest_not_true l c : allSub l = false -> severest l = Some c -> c_Status c ≠ ConditionTrue.
Proof.
  unfold severest. intros Hs.
  destruct (filter _ l) as [|d l'] eqn:Hf.
  - exfalso. apply not_true_iff_false in Hs. apply Hs. unfold allSub. apply forallb_forall.
    intros x Hx. apply list_elem_of_In in Hx. destruct (negb (isSub x) || isTrue x) eqn:Hb; [done|].
    assert (x ∈ filter (fun c => isSub c && negb (isTrue c)) l) as Hin.
    { apply list_elem_of_filter. split; [|done]. destruct (isSub x), (isTrue x); done. }
    rewrite Hf in Hin. by apply elem_of_nil in Hin.
  - intros [= ->]. assert (c ∈ filter (fun c => isSub c && negb (isTrue c)) l) as Hin.
    { rewrite Hf. left. }
    apply list_elem_of_filter in Hin as [Hb _]. intros Ht. unfold isTrue in Hb.
    rewrite bool_decide_eq_true_2 in Hb by done. by destruct (isSub c).
Qed.

#[export] Instance listConditionLaws : ConditionLaws.
Proof.
  split; try done.
  - intros c cs t; apply condStatus_setCondition.
  - intros; apply condStatus_setCondition.
  - intros; apply condStatus_setCondition.
  - intros l c Hnd Hc. unfold condStatus. simpl. by rewrite findCondition_foldr.
  - intros cl cs t s Hs Ht. unfold condStatus in *. simpl in *. rewrite findCondition_foldr_init.
    by destruct (findCondition t (default [] cl)).
  - intros cl cs Hs. unfold condStatus in *. simpl in *. rewrite findCondition_foldr_init.
    destruct (findCondition _ (default [] cl)) as [c|]; [|done].
    destruct Hs as [Hs|Hs]; [done|]. exact Hs.
  - intros cs t s Hall Ht Hs. unfold condStatus in Hs. simpl in *.
    destruct (findCondition t (default [] cs)) as [c|] eqn:Hf; [|done].
    injection Hs as <-. apply findCondition_elem in Hf as [Hc Htc].
    apply list_elem_of_In in Hc. eapply forallb_forall in Hall; [|exact Hc].
    unfold isSub, isTrue in Hall. rewrite Htc, bool_decide_eq_false_2 in Hall by done.
    by apply bool_decide_eq_true_1 in Hall.
  - intros; by apply allSub_setReady.
  - intros; by apply allSub_setReady.
  - intros; by apply allSub_setReady.
  - intros t cs c. simpl. destruct (severest _); [|done]. by intros [= <-].
  - intros cs c Hall. simpl. destruct (severest _) as [d|] eqn:Hd; [|done].
    intros [= <-]. simpl. eapply severest_not_true; [exact Hall|exact Hd].
Qed.

(** ** Finalizers *)

#[export] Instance listFinalizerLib : FinalizerLib := {|
  AddFinalizer := fun f l => if decide (f ∈ l) then (l, false) else (l ++ [f], true);
  RemoveFinalizer := fun f l => (filter (fun g => g ≠ f) l, bool_decide (f ∈ l))
|}.

#[export] Instance listFinalizerLaws : FinalizerLaws.
Proof.
  split; simpl.
  - intros f l g. case_decide; simpl; [set_solver|]. rewrite elem_of_app, list_elem_of_singleton. tauto.
  - intros f l. case_decide as Hd; simpl.
    + by rewrite bool_decide_eq_true_2.
    + by rewrite bool_decide_eq_false_2.
  - intros f l Hf. by rewrite decide_True.
  - intros f l g. by rewrite list_elem_of_filter.
  - done.
  - intros f l Hf. induction l as [|a l IH]; [done|]. rewrite filter_cons, decide_True by set_solver.
    f_equal. apply IH. set_solver.
Qed.
