(* ===== verification/Workloads.v ===== *)
(** The data of the workloads the operator creates and of the objects of other
    operators it consumes: pods, jobs, services and secrets' templates
    (Kubernetes), the memcached instance, the database handle and the transport
    URL.  Of foreign objects the fields are those the code reads or writes, a
    method of theirs being a field that holds its answer. *)
From S2P Require Import Prelude GoTime Api.
Open Scope Z_scope.

(** ** Kubernetes data *)

Inductive VolumeSource :=
| SecretSource (secretName : string) (items : list KeyToPath) (mode : Z)
| EmptyDir
| OtherSource (description : string).
Record Volume := mkVolume { v_Name : string; v_Source : VolumeSource }.

Inductive EnvValue := EnvLiteral (value : string) | EnvFromSecret (secretName key : string).
Record EnvVar := mkEnvVar { ev_Name : string; ev_Value : EnvValue }.

Record Probe := mkProbe {
  p_TimeoutSeconds : Z; p_PeriodSeconds : Z; p_InitialDelaySeconds : Z;
  p_Path : string; p_Port : Z; p_Scheme : string
}.

Record Container := mkContainer {
  ct_Name : string;
  ct_Image : string;
  ct_Command : list string;
  ct_Args : list string;
  ct_SecurityContext : string;
  ct_Env : list EnvVar;
  ct_VolumeMounts : list VolumeMount;
  ct_Resources : ResourceRequirements;
  ct_ReadinessProbe : option Probe;
  ct_LivenessProbe : option Probe
}.

Record PodSpec := mkPodSpec {
  ps_RestartPolicy : string;
  ps_ServiceAccountName : string;
  ps_AutomountToken : bool;
  ps_SecurityContext : string;
  ps_Volumes : list Volume;
  ps_Container : Container;
  ps_NodeSelector : option (gmap string string)
}.

(** Where the pods may run: a topology, or the default affinity. *)
Inductive Placement := PlaceTopology (topology : string) | DistributePods (selectorKey : string) (values : list string) (topologyKey : string).

Record DeploymentSpec := mkDeployment {
  dp_Name : string; dp_Namespace : string; dp_Labels : gmap string string; dp_Annotations : gmap string string;
  dp_Replicas : option Z; dp_Pod : PodSpec; dp_Placement : Placement
}.
Record Job := mkJob {
  jb_Name : string; jb_Namespace : string; jb_Labels : gmap string string; jb_Annotations : gmap string string; jb_Pod : PodSpec
}.
Record CronJobSpec := mkCronJob {
  cj_Name : string; cj_Namespace : string; cj_Schedule : string; cj_Suspend : bool; cj_ConcurrencyPolicy : string;
  cj_Parallelism : Z; cj_Completions : Z;
  cj_Labels : gmap string string; cj_Annotations : gmap string string; cj_Pod : PodSpec
}.

(** service.Service (lib-common) *)
Record Service := mkKubeService {
  kv_Name : string; kv_Namespace : string; kv_Labels : gmap string string; kv_Selector : gmap string string;
  kv_PortName : string; kv_Port : Z; kv_Annotations : gmap string string; kv_Type : string; kv_Hostname : string
}.

Definition AddAnnotation (k v : string) (s : Service) : Service :=
  mkKubeService (kv_Name s) (kv_Namespace s) (kv_Labels s) (kv_Selector s) (kv_PortName s) (kv_Port s)
    (<[k := v]> (kv_Annotations s)) (kv_Type s) (kv_Hostname s).

(** What the controller reads of the deployment after it was patched. *)
Record DeploymentState := mkDeploymentState {
  ds_Name : string; ds_Namespace : string;
  ds_Generation : Z; ds_ObservedGeneration : Z; ds_ReadyReplicas : Z; ds_IsReady : bool
}.

(** ** Objects of other operators *)

(** memcachedv1.Memcached and the answers of its methods *)
Record Memcached := mkMemcached {
  mc_meta : ObjectMeta; mc_IsReady : bool; mc_MTLSSecret : string;
  mc_ServerList : string; mc_ServerListWithInet : string; mc_TLSSupport : bool
}.
Definition mc_setFinalizers (fs : list string) (m : Memcached) : Memcached :=
  mkMemcached (setFinalizers fs (mc_meta m)) (mc_IsReady m) (mc_MTLSSecret m) (mc_ServerList m)
    (mc_ServerListWithInet m) (mc_TLSSupport m).

(** mariadbv1.Database: what NewDatabaseForAccount is given, and what its
    calls fill in (the host, the account's user, the secret's password). *)
Record Database := mkDatabase {
  db_Instance : string; db_Name : string; db_CRName : string; db_Account : string; db_Namespace : string;
  db_Hostname : string; db_UserName : string; db_Password : string
}.
Definition NewDatabaseForAccount (instance name crName account ns : string) : Database :=
  mkDatabase instance name crName account ns "" "" "".

(** rabbitmqv1.TransportURL *)
Record TransportURL := mkTransportURL {
  tu_Name : string; tu_Namespace : string; tu_Labels : gmap string string;
  tu_RabbitmqClusterName : string; tu_Username : string; tu_Vhost : string; tu_SecretName : string
}.

(** A value of a template parameter map, and the parameters of the
    configuration template with the nested map of its virtual hosts. *)
Inductive TValue := TString (s : string) | TBool (b : bool) | TInt (n : option Z).
Record TemplateParameters := mkTemplateParameters {
  tp_Values : gmap string TValue; tp_VHosts : gmap string (gmap string TValue)
}.
(** util.Template *)
Record Template := mkTemplate {
  tm_Name : string; tm_Namespace : string; tm_StringTemplate : gmap string string; tm_CustomData : gmap string string;
  tm_ConfigOptions : TemplateParameters; tm_Labels : gmap string string; tm_CommonTemplates : list string
}.

(** keystone.OpenStackConfig and OpenStackConfigSecret (cloudconfig.go) *)
Record OpenStackConfig := mkOpenStackConfig {
  oc_AuthURL : string; oc_ProjectName : string; oc_UserName : string;
  oc_UserDomainName : string; oc_ProjectDomainName : string; oc_RegionName : string
}.
Record OpenStackConfigSecret := mkOpenStackConfigSecret { ocs_Password : string }.
