(* ===== verification/External.v ===== *)
(** Pure functions of the libraries the operator calls (lib-common, the Go
    url and time packages), as one class the definitions are parameterised by. *)
From S2P Require Import Prelude GoTime Api.

Class ExternalLib := {
  (** [url.Parse(u)]: the scheme of the parsed URL *)
  urlParse : string -> res string;
  (** tls.CABundleKey *)
  CABundleKey : string;
  (** [helper.GetFinalizer()], by the kind of the helper's object *)
  helperFinalizer : string -> string;
  (** labels.GetGroupLabel and labels.GetLabels (by the object's name) *)
  GetGroupLabel : string -> string;
  GetLabels : string -> string -> gmap string string -> gmap string string;
  (** util.MergeStringMaps, common.AppSelector *)
  MergeStringMaps : gmap string string -> gmap string string -> gmap string string;
  AppSelector : string;
  (** openstack.GetAvailability *)
  GetAvailability : string -> res string;
  (** [util.WrapErrorForObject(msg, object, err)]: never nil *)
  WrapErrorForObject : string -> ObjectMeta -> option GoError -> GoError;
  (** openstack.ServiceNotFound *)
  ServiceNotFound : string;
  (** [util.ObjectHash] of the security fields of an application credential,
      and of a list of URLs *)
  ObjectHashSecurity : list string * list ACRule * bool -> res string;
  ObjectHashURLs : list string -> res string;
  (** [time.Format(time.RFC3339)] and [time.Parse(time.RFC3339, _)] *)
  formatRFC3339 : Z -> string;
  parseRFC3339 : string -> option Z
}.

(** An instance for the witnesses. *)
#[export] Instance demoExternalLib : ExternalLib := {|
  urlParse := fun u => inr (if HasPrefix u "https:" then "https" else if HasPrefix u "http:" then "http" else "");
  CABundleKey := "tls-ca-bundle.pem";
  helperFinalizer := fun kind => "openstack.org/" +:+ kind;
  GetGroupLabel := fun name => name +:+ ".openstack.org";
  GetLabels := fun name group custom => <[ "service" := name ]> custom;
  MergeStringMaps := fun a b => a ∪ b;
  AppSelector := "service";
  GetAvailability := fun t =>
    if decide (t ∈ ["admin"; "internal"; "public"]) then inr t else inl (errorf "unknown availability");
  WrapErrorForObject := fun msg m _ => errorf (msg +:+ " " +:+ Name m);
  ServiceNotFound := "service not found in keystone";
  ObjectHashSecurity := fun '(roles, rules, u) =>
    inr (joinWith "," roles +:+ "|" +:+ joinWith "," ((fun r => ar_Service r +:+ ar_Path r +:+ ar_Method r) <$> rules)
      +:+ (if u then "|t" else "|f"));
  ObjectHashURLs := fun l => inr (joinWith "," l);
  formatRFC3339 := fun t => pretty (t / second)%Z;
  parseRFC3339 := fun s => if decide (s = "") then None else Some 0%Z
|}.
