(* ===== verification/Calls.v ===== *)
(** The operator's calls to the outside world, as one signature.

    Each constructor is a call the code makes through a client library (the
    controller-runtime client, lib-common's secret and openstack modules,
    gophercloud, the clock, the random source); its index is the type of the
    answer.  A Go function that answers [(A, error)] with [A] unread on error
    answers a [res A]; one whose values are all read answers the tuple. *)
From S2P Require Import Prelude Effects GoTime Api Workloads.

(** openstack.Endpoint, and an endpoint as Keystone's catalogue returns it. *)
Record OSEndpoint := mkOSEndpoint {
  ose_Name : string;
  ose_ServiceID : string;
  ose_Availability : string;
  ose_URL : string
}.
Record RegisteredEndpoint := mkRegEndpoint {
  re_ID : string;
  re_Name : string;
  re_ServiceID : string;
  re_URL : string
}.

(** openstack.Service; a registered service with the string entries of Extra. *)
Record OSService := mkOSService {
  oss_Name : string;
  oss_Type : string;
  oss_Description : string;
  oss_Enabled : bool
}.
Record RegisteredService := mkRegService {
  rs_ID : string;
  rs_Enabled : bool;
  rs_Extra : gmap string string
}.

Record OSProject := mkOSProject { osp_Name : string; osp_Description : string; osp_DomainID : string }.
Record OSUser := mkOSUser { osu_Name : string; osu_Password : string; osu_ProjectID : string; osu_DomainID : string }.

(** gophercloud.AuthScope and openstack.AuthOpts *)
Record AuthScope := mkAuthScope { as_System : bool; as_ProjectName : string; as_DomainName : string }.
Record AuthOpts := mkAuthOpts {
  ao_AuthURL : string;
  ao_Username : string;
  ao_Password : string;
  ao_TenantName : string;
  ao_DomainName : string;
  ao_Region : string;
  ao_CACerts : list string;
  ao_Scope : AuthScope
}.

(** A client object, known by its identity only. *)
Abbreviation OSClient := nat.

(** applicationcredentials.CreateOpts, and what Create returns. *)
Record ACCreateOpts := mkACCreateOpts {
  aco_Name : string;
  aco_Description : string;
  aco_Unrestricted : bool;
  aco_Roles : list string;
  aco_AccessRules : list ACRule;
  aco_ExpiresAt : option Z
}.
Record CreatedAC := mkCreatedAC { cac_ID : string; cac_Secret : string; cac_ExpiresAt : Z }.

Inductive Call : Type -> Type :=
(* controller-runtime client and lib-common helper *)
| NewHelper : Call (option GoError)
| GetKeystoneEndpoint (ns name : string) : Call (res KeystoneEndpoint)
| ListKeystoneEndpoints (ns : string) : Call (res (list KeystoneEndpoint))
| CreateOrPatchKeystoneEndpoint (o : KeystoneEndpoint) (mutate : KeystoneEndpoint -> KeystoneEndpoint)
    : Call (option GoError)
| UpdateKeystoneEndpoint (o : KeystoneEndpoint) : Call (option GoError)
| DeleteKeystoneEndpoint (o : KeystoneEndpoint) : Call (option GoError)
| PatchKeystoneEndpoint (o : KeystoneEndpoint) : Call (option GoError)
| GetKeystoneService (ns name : string) : Call (res KeystoneService)
| CreateOrPatchKeystoneService (o : KeystoneService) (mutate : KeystoneService -> KeystoneService)
    : Call (option GoError)
| UpdateKeystoneService (o : KeystoneService) : Call (option GoError)
| DeleteKeystoneService (o : KeystoneService) : Call (option GoError)
| PatchKeystoneService (o : KeystoneService) : Call (option GoError)
| GetKeystoneAPICR (ns name : string) : Call (res KeystoneAPI)
| ListKeystoneAPIs (ns : string) (labels : gmap string string) : Call (res (list KeystoneAPI))
(* a list by the value of an indexed field *)
| ListKeystoneAPIsByField (ns field value : string) : Call (res (list KeystoneAPI))
| UpdateKeystoneAPI (o : KeystoneAPI) : Call (option GoError)
| PatchKeystoneAPI (o : KeystoneAPI) : Call (option GoError)
| GetApplicationCredential (ns name : string) : Call (res KeystoneApplicationCredential)
| ListApplicationCredentials (ns : string) : Call (res (list KeystoneApplicationCredential))
| PatchApplicationCredential (o : KeystoneApplicationCredential) : Call (option GoError)
| GetSecret (ns name : string) : Call (res Secret)
| CreateSecret (s : Secret) : Call (option GoError)
| UpdateSecret (s : Secret) : Call (option GoError)
| DeleteSecret (s : Secret) : Call (option GoError)
| SetControllerReference (owner : ObjectMeta) (s : Secret) : Call (option GoError)
(* lib-common secret module *)
| LibGetSecret (ns name : string) : Call (res (Secret * string))
| ListSecrets (ns : string) (labels : gmap string string) : Call (res (list Secret))
| GetDataFromSecret (name : string) (timeout : Z) (key : string) : Call (string * Result * option GoError)
(* EnsureSecrets of one template: the hash it adds to the environment *)
| EnsureSecret (ns name : string) (data labels annotations : gmap string string) : Call (res string)
(* the clock, the random source, the event recorder, the dataplane *)
| Now : Call Z
| RandString (n : nat) : Call string
| RandRead (n : nat) : Call (res (list Z))
| EmitEvent (reason message : string) : Call unit
| AreSecretHashesInSync (ns : string) : Call (res (bool * string))
(* lib-common openstack module *)
| NewOpenStack (opts : AuthOpts) : Call (res OSClient)
| OSDeleteEndpoint (os : OSClient) (e : OSEndpoint) : Call (option GoError)
| OSGetEndpoints (os : OSClient) (serviceID interface : string) : Call (res (list RegisteredEndpoint))
| OSCreateEndpoint (os : OSClient) (e : OSEndpoint) : Call (res string)
| OSUpdateEndpoint (os : OSClient) (e : OSEndpoint) (id : string) : Call (res string)
| OSGetService (os : OSClient) (type name : string) : Call (option RegisteredService * option GoError)
| OSCreateService (os : OSClient) (s : OSService) : Call (string * option GoError)
| OSUpdateService (os : OSClient) (s : OSService) (id : string) : Call (option GoError)
| OSDeleteService (os : OSClient) (id : string) : Call (option GoError)
| OSCreateProject (os : OSClient) (p : OSProject) : Call (res string)
| OSCreateUser (os : OSClient) (u : OSUser) : Call (res string)
| OSDeleteUser (os : OSClient) (name domainID : string) : Call (option GoError)
| OSCreateRole (os : OSClient) (name : string) : Call (res string)
| OSAssignUserRole (os : OSClient) (role userID projectID : string) : Call (option GoError)
(* gophercloud *)
| TokenExtractUser (os : OSClient) : Call (res string)
| ACCreate (os : OSClient) (userID : string) (opts : ACCreateOpts) : Call (res CreatedAC)
| ACDelete (os : OSClient) (userID id : string) : Call (option GoError)
(* lib-common secret, tls, configmap, nad, rbac, job, deployment, cronjob, service *)
| VerifySecretFields (ns name : string) (fields : list string) (timeout : Z) : Call (string * Result * option GoError)
| ValidateCACertSecret (ns name : string) : Call (res string)
| ValidateCertSecrets (t : TLSAPI) (ns : string) : Call (res string)
| EnsureConfigMap (ns name : string) (data labels : gmap string string) : Call (option GoError)
| EnsureTemplate (t : Template) : Call (res string)
| GetNADWithName (name ns : string) : Call (res (option string))
(* the conditions it hands to RbacConditionsSet, in order *)
| ReconcileRbac (ns resourceName : string) (rules : list string) : Call (list Condition * Result * option GoError)
(* the job's hash, and whether it has changed *)
| DoJob (job : Job) (hashName : string) (preserve : bool) (timeout : Z) (beforeHash : string)
    : Call (bool * string * Result * option GoError)
| CreateOrPatchService (s : Service) : Call (Service * Result * option GoError)
| CreateOrPatchDeployment (d : DeploymentSpec) (timeout : Z) : Call (DeploymentState * Result * option GoError)
| IsReadyForInput (ns name hash : string) : Call (res bool)
| CreateOrPatchCronJob (c : CronJobSpec) (timeout : Z) : Call (Result * option GoError)
| VerifyNetworkStatus (networks : list string) (labels : gmap string string) (readyCount : Z)
    : Call (res (bool * gmap string (list string)))
(* lib-common object module *)
| ManageSecretConsumerFinalizer (ns name finalizer : string) : Call (option GoError)
| RemoveSecretConsumerFinalizer (ns name finalizer : string) : Call (option GoError)
| FinalizeSecretRotation (ns old new finalizer : string) (ready : bool) : Call (res string)
| PruneSecretConsumerFinalizers (ns finalizer : string) (keep : list string) : Call (option GoError)
(* mariadb-operator *)
| EnsureMariaDBAccount (ns name : string) (requireTLS : bool) (prefix : string) : Call (option GoError)
| CreateOrPatchAll (db : Database) : Call (Database * Result * option GoError)
| WaitForDBCreated (db : Database) : Call (Database * Result * option GoError)
| GetDatabaseByNameAndAccount (name account ns : string) : Call (res Database)
| DeleteDBFinalizer (db : Database) : Call (option GoError)
| DeleteUnusedMariaDBAccountFinalizers (name account ns : string) : Call (option GoError)
(* infra-operator: rabbitmq, memcached, topology *)
| CreateOrUpdateTransportURL (owner : ObjectMeta) (o : TransportURL) (mutate : TransportURL -> TransportURL)
    : Call (TransportURL * option GoError)
| GetTransportURL (ns name : string) : Call (res TransportURL)
| GetMemcachedByName (ns name : string) : Call (res Memcached)
| UpdateMemcached (m : Memcached) : Call (option GoError)
| EnsureServiceTopology (ref last : option TopoRef) (name : string) (labels : gmap string string)
    : Call (res (option string))
| EnsureDeletedTopologyRef (last : option TopoRef) (name : string) : Call (Result * option GoError).

Abbreviation program := (prog Call).
Abbreviation trace := (list (event Call)).

(** The writes of a reconciled object that the controllers defer to their end. *)
Definition isPatch (X : Type) (c : Call X) : bool :=
  match c with
  | PatchKeystoneEndpoint _ | PatchKeystoneService _ | PatchKeystoneAPI _ | PatchApplicationCredential _ => true
  | _ => false
  end.

(** The calls that reach the Keystone REST API. *)
Definition isKeystone (X : Type) (c : Call X) : bool :=
  match c with
  | NewOpenStack _ | OSDeleteEndpoint _ _ | OSGetEndpoints _ _ _ | OSCreateEndpoint _ _
  | OSUpdateEndpoint _ _ _ | OSGetService _ _ _ | OSCreateService _ _ | OSUpdateService _ _ _
  | OSDeleteService _ _ | OSCreateProject _ _ | OSCreateUser _ _ | OSDeleteUser _ _ _
  | OSCreateRole _ _ | OSAssignUserRole _ _ _ _ | TokenExtractUser _ | ACCreate _ _ _ | ACDelete _ _ _ => true
  | _ => false
  end.

(** The calls that read or write a KeystoneAPI. *)
Definition isAPICall (X : Type) (c : Call X) : bool :=
  match c with
  | GetKeystoneAPICR _ _ | ListKeystoneAPIs _ _ | UpdateKeystoneAPI _ | PatchKeystoneAPI _ => true
  | _ => false
  end.
(** The calls that register something in Keystone. *)
Definition isRegistration (X : Type) (c : Call X) : bool :=
  match c with
  | OSCreateService _ _ | OSUpdateService _ _ _ | OSCreateProject _ _ | OSCreateUser _ _ | OSCreateRole _ _
  | OSAssignUserRole _ _ _ _ | OSCreateEndpoint _ _ | OSUpdateEndpoint _ _ _ => true
  | _ => false
  end.
(** The calls that take Keystone apart. *)
Definition isTeardown (X : Type) (c : Call X) : bool :=
  match c with
  | EnsureDeletedTopologyRef _ _ | DeleteDBFinalizer _ | RemoveSecretConsumerFinalizer _ _ _ => true
  | _ => false
  end.
Definition isShared (X : Type) (c : Call X) : bool := isAPICall X c || isRegistration X c || isTeardown X c.

Definition notFound : GoError := mkError "not found" ReasonNotFound (Some 404%Z).
Definition unavailable : GoError := mkError "unavailable" ReasonUnknown None.

(** A handler that finds nothing and accepts every write: witnesses override
    the calls they are about. *)
Definition nullHandler {W : Type} (X : Type) (c : Call X) (w : W) : X * W :=
  match c in Call X return X * W with
  | NewHelper => (None, w)
  | GetKeystoneEndpoint _ _ => (inl notFound, w)
  | ListKeystoneEndpoints _ => (inr [], w)
  | CreateOrPatchKeystoneEndpoint _ _ => (None, w)
  | UpdateKeystoneEndpoint _ => (None, w)
  | DeleteKeystoneEndpoint _ => (None, w)
  | PatchKeystoneEndpoint _ => (None, w)
  | GetKeystoneService _ _ => (inl notFound, w)
  | CreateOrPatchKeystoneService _ _ => (None, w)
  | UpdateKeystoneService _ => (None, w)
  | DeleteKeystoneService _ => (None, w)
  | PatchKeystoneService _ => (None, w)
  | GetKeystoneAPICR _ _ => (inl notFound, w)
  | ListKeystoneAPIs _ _ => (inr [], w)
  | ListKeystoneAPIsByField _ _ _ => (inr [], w)
  | UpdateKeystoneAPI _ => (None, w)
  | PatchKeystoneAPI _ => (None, w)
  | GetApplicationCredential _ _ => (inl notFound, w)
  | ListApplicationCredentials _ => (inr [], w)
  | PatchApplicationCredential _ => (None, w)
  | GetSecret _ _ => (inl notFound, w)
  | CreateSecret _ => (None, w)
  | UpdateSecret _ => (None, w)
  | DeleteSecret _ => (None, w)
  | SetControllerReference _ _ => (None, w)
  | LibGetSecret _ _ => (inl notFound, w)
  | ListSecrets _ _ => (inr [], w)
  | GetDataFromSecret _ _ _ => (("pw", noResult, None), w)
  | EnsureSecret _ _ _ _ _ => (inr "hash", w)
  | Now => (0%Z, w)
  | RandString _ => ("abcde", w)
  | RandRead n => (inr (repeat 0%Z n), w)
  | EmitEvent _ _ => (tt, w)
  | AreSecretHashesInSync _ => (inr (true, ""), w)
  | NewOpenStack _ => (inr 0%nat, w)
  | OSDeleteEndpoint _ _ => (None, w)
  | OSGetEndpoints _ _ _ => (inr [], w)
  | OSCreateEndpoint _ _ => (inr "new-id", w)
  | OSUpdateEndpoint _ _ id => (inr id, w)
  | OSGetService _ _ _ => ((None, None), w)
  | OSCreateService _ _ => (("new-id", None), w)
  | OSUpdateService _ _ _ => (None, w)
  | OSDeleteService _ _ => (None, w)
  | OSCreateProject _ _ => (inr "project-id", w)
  | OSCreateUser _ _ => (inr "user-id", w)
  | OSDeleteUser _ _ _ => (None, w)
  | OSCreateRole _ _ => (inr "role-id", w)
  | OSAssignUserRole _ _ _ _ => (None, w)
  | TokenExtractUser _ => (inr "user-id", w)
  | ACCreate _ _ _ => (inr (mkCreatedAC "abcdef0123" "s3cr3t" 0), w)
  | ACDelete _ _ _ => (None, w)
  | VerifySecretFields _ _ _ _ => (("secret-hash", noResult, None), w)
  | ValidateCACertSecret _ _ => (inr "ca-hash", w)
  | ValidateCertSecrets _ _ => (inr "certs-hash", w)
  | EnsureConfigMap _ _ _ _ => (None, w)
  | EnsureTemplate _ => (inr "config-hash", w)
  | GetNADWithName n _ => (inr (Some n), w)
  | ReconcileRbac _ _ _ => (([], noResult, None), w)
  | DoJob _ _ _ _ _ => ((true, "job-hash", noResult, None), w)
  | CreateOrPatchService s => ((s, noResult, None), w)
  | CreateOrPatchDeployment d _ => ((mkDeploymentState (dp_Name d) (dp_Namespace d) 1 1 1 true, noResult, None), w)
  | IsReadyForInput _ _ _ => (inr true, w)
  | CreateOrPatchCronJob _ _ => ((noResult, None), w)
  | VerifyNetworkStatus _ _ _ => (inr (true, ∅), w)
  | ManageSecretConsumerFinalizer _ _ _ => (None, w)
  | RemoveSecretConsumerFinalizer _ _ _ => (None, w)
  | FinalizeSecretRotation _ _ new _ _ => (inr new, w)
  | PruneSecretConsumerFinalizers _ _ _ => (None, w)
  | EnsureMariaDBAccount _ _ _ _ => (None, w)
  | CreateOrPatchAll db => ((db, noResult, None), w)
  | WaitForDBCreated db => ((db, noResult, None), w)
  | GetDatabaseByNameAndAccount _ _ _ => (inl notFound, w)
  | DeleteDBFinalizer _ => (None, w)
  | DeleteUnusedMariaDBAccountFinalizers _ _ _ => (None, w)
  | CreateOrUpdateTransportURL _ o mutate => ((mutate o, None), w)
  | GetTransportURL _ _ => (inl notFound, w)
  | GetMemcachedByName _ _ => (inl notFound, w)
  | UpdateMemcached _ => (None, w)
  | EnsureServiceTopology _ _ _ _ => (inr None, w)
  | EnsureDeletedTopologyRef _ _ => ((noResult, None), w)
  end.
