(* ===== verification/Demo.v ===== *)
(** Concrete objects and a handler of the calls that serves them: the inputs
    at which the witnesses evaluate the controllers. *)
From S2P Require Import Prelude Effects GoTime Api Conditions Instances Calls External.

Definition readyCondition : Condition := mkCondition ReadyCondition ConditionTrue "Ready" "" "Setup complete" 0.

Definition demoCore : KeystoneAPISpecCore := {|
  ka_DatabaseInstance := "openstack";
  ka_DatabaseAccount := "keystone";
  ka_MemcachedInstance := "memcached";
  ka_Region := "regionOne";
  ka_AdminProject := "admin";
  ka_AdminUser := "admin";
  ka_Replicas := Some 1;
  ka_Secret := "osp-secret";
  ka_EnableSecureRBAC := true;
  ka_TrustFlushArgs := "";
  ka_TrustFlushSchedule := "1 * * * *";
  ka_TrustFlushSuspend := false;
  ka_FernetRotationDays := Some 1;
  ka_FernetMaxActiveKeys := Some 5;
  ka_PasswordSelectorAdmin := "AdminPassword";
  ka_NodeSelector := None;
  ka_PreserveJobs := false;
  ka_CustomServiceConfig := "";
  ka_DefaultConfigOverwrite := ∅;
  ka_HttpdCustomization := mkHttpdCustomization (Some 3) None;
  ka_Resources := mkResources ∅ ∅;
  ka_NetworkAttachments := [];
  ka_OverrideService := ∅;
  ka_RabbitMqClusterName := "rabbitmq";
  ka_TLS := mkTLSAPI (mkGenericService None) (mkGenericService None) "";
  ka_APITimeout := 60;
  ka_TopologyRef := None;
  ka_ExtraMounts := [];
  ka_FederatedRealmConfig := "";
  ka_ExternalKeystoneAPI := false;
  ka_NotificationsBus := None
|}.

Definition demoAPIStatus : KeystoneAPIStatus := {|
  kas_ReadyCount := 1;
  kas_Hash := ∅;
  kas_APIEndpoints := {[ "internal" := "http://keystone-internal:5000"; "public" := "http://keystone-public:5000" ]};
  kas_Conditions := Some [readyCondition];
  kas_DatabaseHostname := "db";
  kas_NetworkAttachments := ∅;
  kas_TransportURLSecret := "";
  kas_ObservedGeneration := 1;
  kas_LastAppliedTopology := None;
  kas_Region := "regionOne"
|}.

Definition demoAPI : KeystoneAPI :=
  mkKeystoneAPI (newMeta "keystone" "openstack") (mkAPISpec demoCore "keystone:latest") demoAPIStatus.

Definition deletingMeta (name ns : string) (finalizers : list string) : ObjectMeta :=
  mkMeta name ns 1 finalizers ∅ ∅ (Some 0).

Definition demoService : KeystoneService :=
  mkService (newMeta "keystone" "openstack")
    (mkServiceSpec "identity" "keystone" "Identity" true "" "osp-secret" "KeystonePassword")
    (mkServiceStatus "service-id" (Some [readyCondition])).

Definition demoEndpointSpec : KeystoneEndpointSpec :=
  mkEndpointSpec "keystone" {[ "public" := "http://public"; "internal" := "http://internal" ]}.
Definition demoEndpoint : KeystoneEndpoint :=
  mkKeystoneEndpoint (newMeta "keystone" "openstack") demoEndpointSpec
    (mkEndpointStatus {[ "admin" := "old" ]} "service-id" (Some []) [mkEndpoint "admin" "http://admin" "old"] 0).

(** A handler that finds the objects above. *)
Definition demoHandler (X : Type) (c : Call X) (w : unit) : X * unit :=
  match c in Call X return X * unit with
  | GetKeystoneEndpoint _ _ => (inr demoEndpoint, w)
  | GetKeystoneService _ _ => (inr demoService, w)
  | ListKeystoneAPIs _ _ => (inr [demoAPI], w)
  | GetKeystoneAPICR _ _ => (inr demoAPI, w)
  | c => nullHandler _ c w
  end.

(** The exchange, the value and the run of a program against [demoHandler]. *)
Definition demoTrace {A} (p : program A) : trace := (exec demoHandler p tt).1.1.
Definition demoResult {A} (p : program A) : A := (exec demoHandler p tt).1.2.
Lemma demo_runs {A} (p : program A) : runs p (demoTrace p) (demoResult p).
Proof. apply exec_runs. Qed.
Definition traceWith {A} (h : forall X, Call X -> unit -> X * unit) (p : program A) : trace := (exec h p tt).1.1.
Definition resultWith {A} (h : forall X, Call X -> unit -> X * unit) (p : program A) : A := (exec h p tt).1.2.
Lemma runsWith {A} h (p : program A) : runs p (traceWith h p) (resultWith h p).
Proof. apply exec_runs. Qed.
Lemma demo_snd {A B} (p : program (A * B)) b :
  (demoResult p).2 = b -> runs p (demoTrace p) ((demoResult p).1, b).
Proof. intros <-. rewrite <- surjective_pairing. apply demo_runs. Qed.
Lemma runsWith_snd {A B} h (p : program (A * B)) b :
  (resultWith h p).2 = b -> runs p (traceWith h p) ((resultWith h p).1, b).
Proof. intros <-. rewrite <- surjective_pairing. apply runsWith. Qed.

(** The answers in a trace are the handler's. *)
Lemma traceWith_answers {A} h (p : program A) X (c : Call X) x : Ev c x ∈ traceWith h p -> x = (h X c tt).1.
Proof.
  unfold traceWith. induction p as [a|Y d k IH]; cbn [exec].
  { intros Hin. by apply not_elem_of_nil in Hin. }
  destruct (h Y d tt) as [y []] eqn:Hh. specialize (IH y).
  destruct (exec h (k y) tt) as [[t a] w]. cbn [fst] in *.
  intros [Heq|Hin]%elem_of_cons; [|by apply IH].
  injection Heq as HX Hc Hx. subst Y. apply Eqdep.EqdepTheory.inj_pair2 in Hc, Hx. subst d y. by rewrite Hh.
Qed.
