(* ===== verification/Watches.v ===== *)
(** What wakes the KeystoneAPI controller (SetupWithManager and
    findObjectsForSrc of internal/controller/keystoneapi_controller.go): the
    fields it indexes, and the requests a changed secret, topology or
    memcached is mapped to.  The watches that use them are in Setup.v. *)
From S2P Require Import Prelude Effects GoTime Api Conditions Instances Calls External Demo.
Open Scope Z_scope.

(** ** The field indexes *)

Definition passwordSecretField : string := ".spec.secret".
Definition caBundleSecretNameField : string := ".spec.tls.caBundleSecretName".
Definition tlsAPIInternalField : string := ".spec.tls.api.internal.secretName".
Definition tlsAPIPublicField : string := ".spec.tls.api.public.secretName".
Definition topologyField : string := ".spec.topologyRef.Name".
Definition httpdCustomServiceConfigSecretField : string := ".spec.httpdCustomization.customServiceConfigSecret".
Definition federatedRealmConfigField : string := ".spec.federatedRealmConfig".

Definition allWatchFields : list string :=
  [passwordSecretField; caBundleSecretNameField; tlsAPIInternalField; tlsAPIPublicField;
   httpdCustomServiceConfigSecretField; federatedRealmConfigField; topologyField].

(** A string that is indexed unless it is empty; a pointer that is indexed
    unless it is nil. *)
Definition indexString (s : string) : list string := if decide (s = "") then [] else [s].
Definition indexPointer (p : option string) : list string := match p with Some s => [s] | None => [] end.

(** The index functions, in the order of their registration. *)
Definition indexers : list (string * (KeystoneAPI -> list string)) :=
  [(passwordSecretField, fun cr => indexString (ka_Secret (ka_core (ka_spec cr))));
   (caBundleSecretNameField, fun cr => indexString (tls_CaBundleSecretName (ka_TLS (ka_core (ka_spec cr)))));
   (tlsAPIInternalField, fun cr => indexPointer (gs_SecretName (tls_Internal (ka_TLS (ka_core (ka_spec cr))))));
   (tlsAPIPublicField, fun cr => indexPointer (gs_SecretName (tls_Public (ka_TLS (ka_core (ka_spec cr))))));
   (httpdCustomServiceConfigSecretField,
      fun cr => indexPointer (hc_CustomConfigSecret (ka_HttpdCustomization (ka_core (ka_spec cr)))));
   (federatedRealmConfigField, fun cr => indexString (ka_FederatedRealmConfig (ka_core (ka_spec cr))));
   (topologyField, fun cr => indexPointer (tr_Name <$> ka_TopologyRef (ka_core (ka_spec cr))))].

(** The values a field is indexed by: none, if there is no such index. *)
Fixpoint indexed (ixs : list (string * (KeystoneAPI -> list string))) (field : string) (cr : KeystoneAPI) : list string :=
  match ixs with
  | [] => []
  | (f, ix) :: rest => if decide (f = field) then ix cr else indexed rest field cr
  end.

(** ** The map functions *)

Definition requestFor (cr : KeystoneAPI) : string * string := (Name (ka_meta cr), Namespace (ka_meta cr)).

(** The loop of [findObjectsForSrc] over the watched fields: an error ends it
    with what was found so far. *)
Fixpoint findByFields (ns name : string) (fields : list string) (requests : list (string * string))
  : program (list (string * string)) :=
  match fields with
  | [] => mret requests
  | field :: rest =>
      r ← call (ListKeystoneAPIsByField ns field name);
      match r with
      | inl _ => mret requests
      | inr items => findByFields ns name rest (requests ++ (requestFor <$> items))
      end
  end.
Definition findObjectsForSrc (ns name : string) : program (list (string * string)) :=
  findByFields ns name allWatchFields [].

(** The map function of the memcached watch. *)
Definition memcachedFn (ns name : string) : program (list (string * string)) :=
  r ← call (ListKeystoneAPIs ns ∅);
  mret match r with
  | inl _ => []
  | inr items =>
      (fun cr => (Name (ka_meta cr), ns)) <$>
        filter (fun cr => name = ka_MemcachedInstance (ka_core (ka_spec cr))) items
  end.

(** ** What an instance depends on *)

(** The names of the secrets, and of the topology, an instance refers to. *)
Definition references (cr : KeystoneAPI) : list string :=
  let core := ka_core (ka_spec cr) in
  indexString (ka_Secret core)
  ++ indexString (tls_CaBundleSecretName (ka_TLS core))
  ++ indexPointer (gs_SecretName (tls_Internal (ka_TLS core)))
  ++ indexPointer (gs_SecretName (tls_Public (ka_TLS core)))
  ++ indexPointer (hc_CustomConfigSecret (ka_HttpdCustomization core))
  ++ indexString (ka_FederatedRealmConfig core)
  ++ indexPointer (tr_Name <$> ka_TopologyRef core).

Lemma references_indexed cr : allWatchFields ≫= (fun f => indexed indexers f cr) = references cr.
Proof. unfold references. simpl. by rewrite app_nil_r. Qed.

(** The cache of the manager holds [cache] and answers a list by field with
    the objects of the namespace that the index function files under the
    value. *)
Definition servedBy (cache : list KeystoneAPI) (t : trace) : Prop :=
  forall ns field value r, Ev (ListKeystoneAPIsByField ns field value) r ∈ t ->
    r = inr (filter (fun cr => Namespace (ka_meta cr) = ns /\ value ∈ indexed indexers field cr) cache).
Definition listedBy (cache : list KeystoneAPI) (t : trace) : Prop :=
  forall ns labels r, Ev (ListKeystoneAPIs ns labels) r ∈ t ->
    r = inr (filter (fun cr => Namespace (ka_meta cr) = ns) cache).

Lemma findByFields_spec cache ns name fields requests :
  wp (findByFields ns name fields requests) (fun t r => servedBy cache t ->
    forall req, req ∈ r <-> req ∈ requests \/
      exists cr, cr ∈ cache /\ Namespace (ka_meta cr) = ns /\ name ∈ (fields ≫= fun f => indexed indexers f cr) /\
        req = requestFor cr).
Proof.
  revert requests; induction fields as [|f fields IH]; intros requests; cbn [findByFields].
  { intros _ req. split; [by left|]. intros [?|(cr & _ & _ & Hn & _)]; [done|]. by apply elem_of_nil in Hn. }
  wp_norm. intros r. destruct r as [e|items]; wp_norm.
  { intros Hs. specialize (Hs ns f name (inl e) (list_elem_of_here _ _)). discriminate. }
  eapply wp_mono; [|apply IH]. cbv beta. intros t r Hspec Hs req.
  assert (servedBy cache t) as Ht by (intros ? ? ? ? Hin; apply Hs; by apply list_elem_of_further).
  specialize (Hs ns f name (inr items) (list_elem_of_here _ _)). injection Hs as ->.
  rewrite (Hspec Ht), elem_of_app, list_elem_of_fmap. cbn [mbind list_bind].
  setoid_rewrite list_elem_of_filter. setoid_rewrite elem_of_app. split.
  - intros [[?|(cr & -> & [? ?] & ?)]|(cr & ? & ? & ? & ->)]; [by left|right; exists cr; tauto|right; exists cr; tauto].
  - intros [?|(cr & ? & ? & [?|?] & ->)]; [tauto|left; right; exists cr; tauto|right; exists cr; tauto].
Qed.

Lemma findObjectsForSrc_spec cache ns name t r :
  runs (findObjectsForSrc ns name) t r -> servedBy cache t ->
  forall req, req ∈ r <-> exists cr, cr ∈ cache /\ Namespace (ka_meta cr) = ns /\ name ∈ references cr /\ req = requestFor cr.
Proof.
  intros Hr Hs req. eapply runs_spec in Hr; [|apply (findByFields_spec cache)]. rewrite (Hr Hs req).
  setoid_rewrite <- references_indexed. split; [intros [H|H]; [by apply elem_of_nil in H|exact H]|by right].
Qed.

(** The watches miss nothing and wake nobody else: when the manager's cache
    answers the lists (by the registered index functions), a changed secret or
    topology is mapped to requests for exactly the KeystoneAPIs of its
    namespace that refer to it, and a changed memcached to exactly those of
    its namespace that use it. *)
Lemma watches_exact cache ns name :
  (forall t r, runs (findObjectsForSrc ns name) t r -> servedBy cache t ->
     forall req, req ∈ r <->
       exists cr, cr ∈ cache /\ Namespace (ka_meta cr) = ns /\ name ∈ references cr /\ req = requestFor cr) /\
  (forall t r, runs (memcachedFn ns name) t r -> listedBy cache t ->
     forall req, req ∈ r <->
       exists cr, cr ∈ cache /\ Namespace (ka_meta cr) = ns /\ ka_MemcachedInstance (ka_core (ka_spec cr)) = name /\
         req = requestFor cr).
Proof.
  split; [intros t r; apply findObjectsForSrc_spec|].
  intros t r (x & t' & -> & Hr) Hl req. runs_norm Hr. destruct Hr as [-> <-].
  rewrite (Hl ns ∅ x (list_elem_of_here _ _)). rewrite list_elem_of_fmap. unfold requestFor.
  setoid_rewrite list_elem_of_filter. setoid_rewrite list_elem_of_filter. split.
  - intros (cr & -> & Hn & Hns & ?). exists cr. by rewrite Hns.
  - intros (cr & ? & Hns & Hn & ->). exists cr. by rewrite Hns.
Qed.

(** ** Witnesses *)

(** A manager whose cache holds [cache]. *)
Definition cacheHandler (cache : list KeystoneAPI) (X : Type) (c : Call X) (w : unit) : X * unit :=
  match c in Call X return X * unit with
  | ListKeystoneAPIsByField ns field value =>
      (inr (filter (fun cr => Namespace (ka_meta cr) = ns /\ value ∈ indexed indexers field cr) cache), w)
  | ListKeystoneAPIs ns _ => (inr (filter (fun cr => Namespace (ka_meta cr) = ns) cache), w)
  | c => demoHandler _ c w
  end.

Lemma cacheHandler_serves {A} cache (p : program A) : servedBy cache (traceWith (cacheHandler cache) p).
Proof. intros ns field value r Hin. exact (traceWith_answers _ _ _ _ _ Hin). Qed.

(** A cache with [demoAPI] and an instance in another namespace. *)
Definition demoCache : list KeystoneAPI :=
  [demoAPI; mkKeystoneAPI (newMeta "keystone" "other") (ka_spec demoAPI) (ka_status demoAPI)].
