(* ===== verification/Protection.v ===== *)
(** The finalizer idiom the controllers share: add (or remove) one's finalizer
    on an object another controller owns, and update that object only when its
    list changed. *)
From S2P Require Import Prelude Effects GoTime Api Conditions Instances Calls.

Section operations.
Context `{FL : FinalizerLib}.

(** [if controllerutil.AddFinalizer(keystoneAPI, f) { r.Update(ctx, keystoneAPI) }] *)
Definition addAPIFinalizer (f : string) (k : KeystoneAPI) : program (option GoError) :=
  let '(fs, changed) := AddFinalizer f (Finalizers (ka_meta k)) in
  if changed then call (UpdateKeystoneAPI (ka_setFinalizers fs k)) else mret None.
Definition removeAPIFinalizer (f : string) (k : KeystoneAPI) : program (option GoError) :=
  let '(fs, changed) := RemoveFinalizer f (Finalizers (ka_meta k)) in
  if changed then call (UpdateKeystoneAPI (ka_setFinalizers fs k)) else mret None.
Definition addServiceFinalizer (f : string) (s : KeystoneService) : program (option GoError) :=
  let '(fs, changed) := AddFinalizer f (Finalizers (ks_meta s)) in
  if changed then call (UpdateKeystoneService (ks_setFinalizers fs s)) else mret None.
Definition removeServiceFinalizer (f : string) (s : KeystoneService) : program (option GoError) :=
  let '(fs, changed) := RemoveFinalizer f (Finalizers (ks_meta s)) in
  if changed then call (UpdateKeystoneService (ks_setFinalizers fs s)) else mret None.
End operations.

(** The object carries the finalizer: it had it when it was read, or an update
    that carries it succeeded. *)
Definition apiProtected (f : string) (k : KeystoneAPI) (t : trace) : Prop :=
  f ∈ Finalizers (ka_meta k) \/ exists o, Ev (UpdateKeystoneAPI o) None ∈ t /\ f ∈ Finalizers (ka_meta o).
Definition apiReleased (f : string) (k : KeystoneAPI) (t : trace) : Prop :=
  f ∉ Finalizers (ka_meta k) \/ exists o, Ev (UpdateKeystoneAPI o) None ∈ t /\ f ∉ Finalizers (ka_meta o).
Definition svcProtected (f : string) (s : KeystoneService) (t : trace) : Prop :=
  f ∈ Finalizers (ks_meta s) \/ exists o, Ev (UpdateKeystoneService o) None ∈ t /\ f ∈ Finalizers (ks_meta o).
Definition svcReleased (f : string) (s : KeystoneService) (t : trace) : Prop :=
  f ∉ Finalizers (ks_meta s) \/ exists o, Ev (UpdateKeystoneService o) None ∈ t /\ f ∉ Finalizers (ks_meta o).

(** A longer trace establishes the same. *)
Lemma apiProtected_sub f k t t' : t ⊆ t' -> apiProtected f k t -> apiProtected f k t'.
Proof. intros Ht [?|(o & Ho & ?)]; [by left|right]. exists o. split; [by apply Ht|done]. Qed.
Lemma apiReleased_sub f k t t' : t ⊆ t' -> apiReleased f k t -> apiReleased f k t'.
Proof. intros Ht [?|(o & Ho & ?)]; [by left|right]. exists o. split; [by apply Ht|done]. Qed.
Lemma svcProtected_sub f s t t' : t ⊆ t' -> svcProtected f s t -> svcProtected f s t'.
Proof. intros Ht [?|(o & Ho & ?)]; [by left|right]. exists o. split; [by apply Ht|done]. Qed.
Lemma svcReleased_sub f s t t' : t ⊆ t' -> svcReleased f s t -> svcReleased f s t'.
Proof. intros Ht [?|(o & Ho & ?)]; [by left|right]. exists o. split; [by apply Ht|done]. Qed.

(** A trace of updates of the owner only: nothing reaches Keystone and no
    reconciled object is patched. *)
Definition updatesOnly (t : trace) : Prop := never isKeystone t /\ never isPatch t.
Lemma updatesOnly_app t1 t2 : updatesOnly t1 -> updatesOnly t2 -> updatesOnly (t1 ++ t2).
Proof. intros [? ?] [? ?]. split; by apply never_app. Qed.

Section specs.
Context `{FLaws : FinalizerLaws}.

Ltac finalizer_case lem flag f l :=
  pose proof (lem f l f) as Hel; pose proof (flag f l) as Hfl;
  match type of Hfl with snd ?p = _ => destruct p as [fs []] end; simpl in Hel, Hfl;
  [|symmetry in Hfl; first [apply negb_false_iff, bool_decide_eq_true_1 in Hfl
                           |apply bool_decide_eq_false_1 in Hfl]].

Lemma addAPIFinalizer_spec f k :
  wp (addAPIFinalizer f k) (fun t err => updatesOnly t /\ (err = None -> apiProtected f k t)).
Proof.
  unfold addAPIFinalizer. finalizer_case AddFinalizer_elem AddFinalizer_flag f (Finalizers (ka_meta k)); wp_norm.
  - intros err. split; [by repeat constructor|]. intros ->. right. eexists. split; [left|]. apply Hel. by left.
  - split; [by repeat constructor|]. intros _. by left.
Qed.

Lemma removeAPIFinalizer_spec f k :
  wp (removeAPIFinalizer f k) (fun t err => updatesOnly t /\ (err = None -> apiReleased f k t)).
Proof.
  unfold removeAPIFinalizer.
  finalizer_case RemoveFinalizer_elem RemoveFinalizer_flag f (Finalizers (ka_meta k)); wp_norm.
  - intros err. split; [by repeat constructor|]. intros ->. right. eexists. split; [left|].
    simpl. rewrite Hel. by intros [].
  - split; [by repeat constructor|]. intros _. by left.
Qed.

Lemma addServiceFinalizer_spec f s :
  wp (addServiceFinalizer f s) (fun t err => updatesOnly t /\ (err = None -> svcProtected f s t)).
Proof.
  unfold addServiceFinalizer.
  finalizer_case AddFinalizer_elem AddFinalizer_flag f (Finalizers (ks_meta s)); wp_norm.
  - intros err. split; [by repeat constructor|]. intros ->. right. eexists. split; [left|]. apply Hel. by left.
  - split; [by repeat constructor|]. intros _. by left.
Qed.

Lemma removeServiceFinalizer_spec f s :
  wp (removeServiceFinalizer f s) (fun t err => updatesOnly t /\ (err = None -> svcReleased f s t)).
Proof.
  unfold removeServiceFinalizer.
  finalizer_case RemoveFinalizer_elem RemoveFinalizer_flag f (Finalizers (ks_meta s)); wp_norm.
  - intros err. split; [by repeat constructor|]. intros ->. right. eexists. split; [left|].
    simpl. rewrite Hel. by intros [].
  - split; [by repeat constructor|]. intros _. by left.
Qed.
End specs.

(** ** What stops a deletion *)

(** A write, or the lookup of the KeystoneService, that failed. *)
Definition refused (ev : event Call) : Prop :=
  match ev with
  | Ev c x =>
      match c in Call X return X -> Prop with
      | UpdateKeystoneAPI _ | UpdateKeystoneService _ | OSDeleteUser _ _ _ | OSDeleteService _ _ | OSDeleteEndpoint _ _ =>
          fun r => r <> None
      | GetKeystoneService _ _ => fun r => match r with inl e => IsNotFound e = false | inr _ => False end
      | _ => fun _ => False
      end x
  end.
Definition someRefused (t : trace) : Prop := exists ev, ev ∈ t /\ refused ev.
Lemma someRefused_sub t t' : t ⊆ t' -> someRefused t -> someRefused t'.
Proof. intros Ht (ev & Hin & Hev). exists ev. split; [by apply Ht|done]. Qed.

Section refusals.
Context `{FL : FinalizerLib}.
Lemma removeAPIFinalizer_refused f k : wp (removeAPIFinalizer f k) (fun t err => err <> None -> someRefused t).
Proof.
  unfold removeAPIFinalizer. destruct (RemoveFinalizer f _) as [fs []]; wp_norm; [|done].
  intros err Herr. eexists. split; [left|exact Herr].
Qed.
Lemma removeServiceFinalizer_refused f s : wp (removeServiceFinalizer f s) (fun t err => err <> None -> someRefused t).
Proof.
  unfold removeServiceFinalizer. destruct (RemoveFinalizer f _) as [fs []]; wp_norm; [|done].
  intros err Herr. eexists. split; [left|exact Herr].
Qed.
End refusals.

Section avoids.
Context `{FL : FinalizerLib}.
Lemma addAPIFinalizer_avoids f k : avoids isPatch (addAPIFinalizer f k).
Proof. unfold addAPIFinalizer. emits_go. Qed.
Lemma removeAPIFinalizer_avoids f k : avoids isPatch (removeAPIFinalizer f k).
Proof. unfold removeAPIFinalizer. emits_go. Qed.
Lemma addServiceFinalizer_avoids f s : avoids isPatch (addServiceFinalizer f s).
Proof. unfold addServiceFinalizer. emits_go. Qed.
Lemma removeServiceFinalizer_avoids f s : avoids isPatch (removeServiceFinalizer f s).
Proof. unfold removeServiceFinalizer. emits_go. Qed.
End avoids.

#[export] Hint Resolve addAPIFinalizer_avoids removeAPIFinalizer_avoids
  addServiceFinalizer_avoids removeServiceFinalizer_avoids : emits.
