(* ===== verification/KeystoneClient.v ===== *)
(** Finding the KeystoneAPI and building clients for it
    (api/v1beta1/keystoneapi.go). *)
From S2P Require Import Prelude Effects GoTime Api Conditions Instances Calls External Demo.

(** What the client constructors answer: the client (nil or not), a
    [ctrl.Result] and an error. *)
Abbreviation clientResult := (option OSClient * Result * option GoError)%type.

(** [KeystoneAPI.IsReady] and the IsReady of the other resources *)
Definition KeystoneAPI_IsReady `{ConditionLib} (i : KeystoneAPI) : bool :=
  condIsTrue ReadyCondition (kas_Conditions (ka_status i)).
Definition KeystoneService_IsReady `{ConditionLib} (i : KeystoneService) : bool :=
  condIsTrue ReadyCondition (ks_Conditions (ks_status i)).
Definition KeystoneEndpoint_IsReady `{ConditionLib} (i : KeystoneEndpoint) : bool :=
  condIsTrue ReadyCondition (kes_Conditions (ke_status i)).
Definition AC_IsReady `{ConditionLib} (i : KeystoneApplicationCredential) : bool :=
  condIsTrue ReadyCondition (acs_Conditions (ac_status i)).

(** [GetKeystoneAPI]: the one KeystoneAPI of a namespace. *)
Definition GetKeystoneAPI (namespace : string) (labelSelector : gmap string string) : program (res KeystoneAPI) :=
  r ← call (ListKeystoneAPIs namespace labelSelector);
  mret match r with
  | inl e => inl e
  | inr [] => inl (mkError ("No KeystoneAPI object found in namespace " +:+ namespace) ReasonNotFound (Some 404%Z))
  | inr [k] => inr k
  | inr (_ :: _ :: _) => inl (errorf ("more then one KeystoneAPI object found in namespace " +:+ namespace))
  end.

(** [GetKeystoneAPIByName] *)
Definition GetKeystoneAPIByName (name namespace : string) : program (res KeystoneAPI) :=
  call (GetKeystoneAPICR namespace name).

Section client.
Context `{ExternalLib}.

Definition clientTimeout : Z := (10 * second)%Z.

(** The TLS part of [GetScopedClient]: the CA certificates, or the early return. *)
Definition scopedClientTLS (keystoneAPI : KeystoneAPI) (scheme : string)
  : program (clientResult + list string) :=
  let bundle := tls_CaBundleSecretName (ka_TLS (ka_core (ka_spec keystoneAPI))) in
  if bool_decide (scheme = "https") && negb (bool_decide (bundle = "")) then
    '(caCert, ctrlResult, err) ← call (GetDataFromSecret bundle clientTimeout CABundleKey);
    mret match err with
    | Some e => inl (None, ctrlResult, Some e)
    | None =>
        if decide (ctrlResult = noResult) then inr [caCert]
        else inl (None, ctrlResult, Some (errorf ("CABundleSecret " +:+ bundle +:+ " not found")))
    end
  else mret (inr []).

Definition GetScopedClient (keystoneAPI : KeystoneAPI)
    (username password tenantName domainName region endpointType : string) (scope : AuthScope)
  : program clientResult :=
  let region := if decide (region = "") then ka_Region (ka_core (ka_spec keystoneAPI)) else region in
  match GetEndpoint keystoneAPI endpointType with
  | inl e => mret (None, noResult, Some e)
  | inr authURL =>
      match urlParse authURL with
      | inl e => mret (None, noResult, Some e)
      | inr scheme =>
          tls ← scopedClientTLS keystoneAPI scheme;
          match tls with
          | inl r => mret r
          | inr cas =>
              o ← call (NewOpenStack
                (mkAuthOpts authURL username password tenantName domainName region cas scope));
              mret match o with
              | inl e => (None, noResult, Some e)
              | inr c => (Some c, noResult, None)
              end
          end
      end
  end.

Definition GetAdminServiceClient (keystoneAPI : KeystoneAPI) : program clientResult :=
  let core := ka_core (ka_spec keystoneAPI) in
  '(authPassword, ctrlResult, err) ←
    call (GetDataFromSecret (ka_Secret core) clientTimeout (ka_PasswordSelectorAdmin core));
  match err with
  | Some e => mret (None, noResult, Some e)
  | None =>
      if decide (ctrlResult = noResult) then
        GetScopedClient keystoneAPI (ka_AdminUser core) authPassword (ka_AdminProject core) "Default"
          (ka_Region core) EndpointInternal (mkAuthScope true "" "")
      else
        mret (None, ctrlResult,
          Some (errorf ("password for user " +:+ ka_PasswordSelectorAdmin core +:+ " not found")))
  end.

Definition getPasswordFromOSPSecret (ospSecretName passwordSelector : string)
  : program (string * Result * option GoError) :=
  '(data, r, err) ← call (GetDataFromSecret ospSecretName clientTimeout passwordSelector);
  mret match err with
  | Some e => ("", noResult, Some e)
  | None => if decide (r = noResult) then (data, noResult, None) else ("", r, None)
  end.

Definition GetUserServiceClient (keystoneAPI : KeystoneAPI) (userName secretName passwordSelector : string)
  : program clientResult :=
  '(password, r, err) ← getPasswordFromOSPSecret secretName passwordSelector;
  match err with
  | Some e => mret (None, noResult, Some (wrapErr ("failed to get password from osp-secret for user " +:+ quoted userName) e))
  | None =>
      if decide (r = noResult) then
        GetScopedClient keystoneAPI userName password "service" "Default"
          (ka_Region (ka_core (ka_spec keystoneAPI))) EndpointInternal (mkAuthScope false "service" "Default")
      else mret (None, r, None)
  end.

(** [GetScopedAdminServiceClient] (deprecated): the CA bundle is read for any
    https URL, the password after it. *)
Definition GetScopedAdminServiceClient (keystoneAPI : KeystoneAPI) (scope : AuthScope) : program clientResult :=
  let core := ka_core (ka_spec keystoneAPI) in
  match GetEndpoint keystoneAPI EndpointInternal with
  | inl e => mret (None, noResult, Some e)
  | inr authURL =>
      match urlParse authURL with
      | inl e => mret (None, noResult, Some e)
      | inr scheme =>
          let bundle := tls_CaBundleSecretName (ka_TLS core) in
          tls ← (if decide (scheme = "https") then
            '(caCert, ctrlResult, err) ← call (GetDataFromSecret bundle clientTimeout CABundleKey);
            mret match err with
            | Some e => inl (None, noResult, Some e)
            | None =>
                if decide (ctrlResult = noResult) then inr [caCert]
                else inl (None, noResult, Some (errorf ("the CABundleSecret " +:+ bundle +:+ " not found")))
            end
          else mret (inr []));
          match tls with
          | inl r => mret r
          | inr cas =>
              '(authPassword, ctrlResult, err) ←
                call (GetDataFromSecret (ka_Secret core) clientTimeout (ka_PasswordSelectorAdmin core));
              match err with
              | Some e => mret (None, noResult, Some e)
              | None =>
                  if decide (ctrlResult = noResult) then
                    o ← call (NewOpenStack (mkAuthOpts authURL (ka_AdminUser core) authPassword
                      (ka_AdminProject core) "Default" (ka_Region core) cas scope));
                    mret match o with
                    | inl e => (None, noResult, Some e)
                    | inr c => (Some c, noResult, None)
                    end
                  else
                    mret (None, ctrlResult,
                      Some (errorf ("password for user " +:+ ka_PasswordSelectorAdmin core +:+ " not found")))
              end
          end
      end
  end.
End client.

(** ** What the constructors promise their callers *)

Section client_contract.
Context `{ExternalLib}.

(** A client exactly when there is no error. *)
Definition clientOrError (r : clientResult) : Prop :=
  match r with
  | (c, res, None) => res = noResult /\ is_Some c
  | (c, _, Some _) => c = None
  end.

(** The options of every authentication in a trace satisfy [P]. *)
Definition authWith (P : AuthOpts -> Prop) (t : trace) : Prop :=
  Forall (fun ev =>
    match ev with Ev c _ => match c with NewOpenStack o => P o | _ => True end end) t.

(** A key of a secret answered a value, in a trace. *)
Definition dataFrom (secret key value : string) (t : trace) : Prop :=
  Ev (GetDataFromSecret secret clientTimeout key) (value, noResult, None) ∈ t.

(** The CA certificates of an authentication: the configured bundle, read in
    this trace, when the URL is https; none otherwise. *)
Definition trusts (k : KeystoneAPI) (t : trace) (o : AuthOpts) : Prop :=
  let bundle := tls_CaBundleSecretName (ka_TLS (ka_core (ka_spec k))) in
  if decide (urlParse (ao_AuthURL o) = inr "https" /\ bundle <> "")
  then exists ca, ao_CACerts o = [ca] /\ dataFrom bundle CABundleKey ca t
  else ao_CACerts o = [].

Lemma authWith_mono (P Q : AuthOpts -> Prop) t : (forall o, P o -> Q o) -> authWith P t -> authWith Q t.
Proof.
  intros HPQ HP. eapply Forall_impl; [exact HP|]. intros [X c x]. destruct c; auto.
Qed.

Lemma trusts_sub k t t' o : t ⊆ t' -> trusts k t o -> trusts k t' o.
Proof.
  intros Ht. unfold trusts. case_decide; [|done]. intros (ca & Hca & Hin). exists ca. split; [done|by apply Ht].
Qed.

Lemma scopedClientTLS_spec k scheme :
  wp (scopedClientTLS k scheme) (fun t r =>
    authWith (fun _ => False) t /\
    match r with
    | inl c => clientOrError c
    | inr cas => forall u p tn dn rg url sc, urlParse url = inr scheme ->
        trusts k t (mkAuthOpts url u p tn dn rg cas sc)
    end).
Proof.
  unfold scopedClientTLS, trusts. case_match eqn:Hb.
  - apply andb_true_iff in Hb as [->%bool_decide_eq_true_1 Hb].
    apply negb_true_iff, bool_decide_eq_false_1 in Hb.
    wp_norm. intros [[ca res] [e|]]; wp_norm; [split; [by repeat constructor|done]|].
    split; [by repeat constructor|]. case_decide as Hres; [|done]. intros u p tn dn rg url sc Hurl. simpl.
    rewrite decide_True by done. exists ca. subst. split; [done|]. unfold dataFrom. set_solver.
  - split; [constructor|]. intros u p tn dn rg url sc Hurl. simpl. rewrite decide_False; [done|].
    intros [Hs Hne]. rewrite Hurl in Hs. injection Hs as ->.
    rewrite bool_decide_eq_true_2, bool_decide_eq_false_2 in Hb by done. done.
Qed.

Lemma GetScopedClient_spec k u p tn dn rg ep sc :
  wp (GetScopedClient k u p tn dn rg ep sc) (fun t r =>
    clientOrError r /\
    authWith (fun o => ao_Username o = u /\ ao_Password o = p /\ ao_TenantName o = tn /\ ao_Scope o = sc
      /\ GetEndpoint k ep = inr (ao_AuthURL o) /\ trusts k t o) t).
Proof.
  unfold GetScopedClient. destruct (GetEndpoint k ep) as [e|url]; [split; [done|constructor]|].
  destruct (urlParse url) as [e|scheme] eqn:Hurl; [split; [done|constructor]|].
  wp_use scopedClientTLS_spec. intros t1 [c|cas] [Hn Hc]; wp_norm.
  - rewrite app_nil_r. split; [done|]. eapply authWith_mono; [|exact Hn]. done.
  - intros [e|c]; wp_norm; (split; [done|]); apply Forall_app; (split; [|constructor; [|constructor]]).
    1,3: by (eapply authWith_mono; [|exact Hn]).
    all: split_and!; try done; eapply trusts_sub; [|by apply Hc]; set_solver.
Qed.

(** ** The contract of the clients *)

(** C25. [GetAdminServiceClient] answers a client exactly when it answers no
    error, and then never asks for a requeue (so no caller meets a nil client
    or has to wait).  It authenticates only with the admin user and project of
    the spec, system scope, the internal endpoint of the status and a password
    read from the configured secret, and over https only with the configured
    CA bundle. *)
Theorem GetAdminServiceClient_contract k t r :
  runs (GetAdminServiceClient k) t r ->
  clientOrError r /\
  authWith (fun o =>
    let core := ka_core (ka_spec k) in
    ao_Username o = ka_AdminUser core /\ ao_TenantName o = ka_AdminProject core /\
    ao_Scope o = mkAuthScope true "" "" /\ GetEndpoint k EndpointInternal = inr (ao_AuthURL o) /\
    dataFrom (ka_Secret core) (ka_PasswordSelectorAdmin core) (ao_Password o) t /\ trusts k t o) t.
Proof.
  intros Hr. wp_start Hr. unfold GetAdminServiceClient. wp_norm. intros [[pw res] [e|]]; wp_norm.
  { split; [done|by repeat constructor]. }
  case_decide as Hres; [subst|split; [done|by repeat constructor]].
  eapply wp_mono; [|apply GetScopedClient_spec]. cbv beta. intros t' c [Hc Ha]. split; [done|].
  constructor; [done|]. eapply authWith_mono; [|exact Ha]. cbv beta.
  intros o (-> & <- & -> & -> & Hep & Htr). split_and!; try done.
  - unfold dataFrom. set_solver.
  - eapply trusts_sub; [|exact Htr]. set_solver.
Qed.

(** [GetUserServiceClient] answers a client, an error, or a non-empty
    requeue, one of the three and never a nil client with neither; it
    authenticates only as the given user, in the service project, with the
    password the secret holds under the given selector. *)
Lemma GetUserServiceClient_contract k user secret selector t r :
  runs (GetUserServiceClient k user secret selector) t r ->
  (clientOrError r \/ exists d, r = (None, d, None) /\ d <> noResult) /\
  authWith (fun o =>
    ao_Username o = user /\ ao_TenantName o = "service" /\ ao_Scope o = mkAuthScope false "service" "Default" /\
    GetEndpoint k EndpointInternal = inr (ao_AuthURL o) /\
    dataFrom secret selector (ao_Password o) t /\ trusts k t o) t.
Proof.
  intros Hr. wp_start Hr. unfold GetUserServiceClient, getPasswordFromOSPSecret. wp_norm.
  intros [[pw res] [e|]]; wp_norm.
  { split; [by left|by repeat constructor]. }
  case_decide as Hres; wp_norm.
  2: rewrite decide_False by done; wp_norm; split; [right; by eexists|by repeat constructor].
  subst. rewrite decide_True by done.
  eapply wp_mono; [|apply GetScopedClient_spec]. cbv beta. intros t' c [Hc Ha]. split; [by left|].
  constructor; [done|]. eapply authWith_mono; [|exact Ha]. cbv beta.
  intros o (-> & <- & -> & -> & Hep & Htr). split_and!; try done.
  - unfold dataFrom. set_solver.
  - eapply trusts_sub; [|exact Htr]. set_solver.
Qed.

Lemma GetAdminServiceClient_answers k : wp (GetAdminServiceClient k) (fun _ r => clientOrError r).
Proof.
  unfold GetAdminServiceClient. wp_norm. intros [[pw res] [e|]]; wp_norm; [done|]. case_decide; [|done].
  eapply wp_mono; [|apply GetScopedClient_spec]. by intros t r [? _].
Qed.

Lemma GetScopedClient_avoids_patch k u p tn dn rg ep sc : avoids isPatch (GetScopedClient k u p tn dn rg ep sc).
Proof. unfold GetScopedClient, scopedClientTLS. emits_go. Qed.

Lemma GetAdminServiceClient_avoids_patch k : avoids isPatch (GetAdminServiceClient k).
Proof. unfold GetAdminServiceClient, GetScopedClient, scopedClientTLS. emits_go. Qed.

Lemma GetUserServiceClient_avoids_patch k u s p : avoids isPatch (GetUserServiceClient k u s p).
Proof. unfold GetUserServiceClient, getPasswordFromOSPSecret, GetScopedClient, scopedClientTLS. emits_go. Qed.

Lemma GetKeystoneAPI_avoids_patch ns l : avoids isPatch (GetKeystoneAPI ns l).
Proof. unfold GetKeystoneAPI. emits_go. Qed.
End client_contract.

(** ** What a deletion waits for *)

Section deletion.
Context `{CL : ConditionLib} `{XL : ExternalLib}.

(** No client could be had. *)
Definition clientRefused (k : KeystoneAPI) (t : trace) : Prop :=
  exists tc os res e, runs (GetAdminServiceClient k) tc (os, res, Some e) /\ tc ⊆ t.
Lemma clientRefused_sub k t t' : t ⊆ t' -> clientRefused k t -> clientRefused k t'.
Proof.
  intros Ht (tc & os & res & e & Hr & Hsub). exists tc, os, res, e. split; [done|]. by transitivity t.
Qed.
(** Keystone is out of reach for the deletion of an object in [ns]: the
    KeystoneAPI could not be looked up, or there is still something to remove
    ([needed]) and the KeystoneAPI is missing, or it is there to stay and not
    ready, or has no client for the operator. *)
Definition unreachable (needed : Prop) (t : trace) (ans : res (list KeystoneAPI)) : Prop :=
  match ans with
  | inl e => IsNotFound e = false \/ needed
  | inr [] => needed
  | inr [k] => needed /\ notDeleting (ka_meta k) = true /\ (KeystoneAPI_IsReady k = false \/ clientRefused k t)
  | inr _ => True
  end.
Lemma unreachable_mono (P Q : Prop) t ans : (P -> Q) -> unreachable P t ans -> unreachable Q t ans.
Proof. destruct ans as [e|[|k [|? ?]]]; cbn [unreachable]; tauto. Qed.
Definition outOfReach (ns : string) (needed : Prop) (t : trace) : Prop :=
  exists ans, head t = Some (Ev (ListKeystoneAPIs ns ∅) ans) /\ unreachable needed t ans.
End deletion.

#[export] Hint Resolve GetScopedClient_avoids_patch GetAdminServiceClient_avoids_patch
  GetUserServiceClient_avoids_patch GetKeystoneAPI_avoids_patch : emits.

(** An https KeystoneAPI with a CA bundle. *)
Definition tlsAPI : KeystoneAPI :=
  mkKeystoneAPI (newMeta "keystone" "openstack")
    (mkAPISpec {|
       ka_DatabaseInstance := "openstack"; ka_DatabaseAccount := "keystone"; ka_MemcachedInstance := "memcached";
       ka_Region := "regionOne"; ka_AdminProject := "admin"; ka_AdminUser := "admin"; ka_Replicas := Some 1%Z;
       ka_Secret := "osp-secret"; ka_EnableSecureRBAC := true; ka_TrustFlushArgs := "";
       ka_TrustFlushSchedule := ""; ka_TrustFlushSuspend := false; ka_FernetRotationDays := None;
       ka_FernetMaxActiveKeys := None; ka_PasswordSelectorAdmin := "AdminPassword"; ka_NodeSelector := None;
       ka_PreserveJobs := false; ka_CustomServiceConfig := ""; ka_DefaultConfigOverwrite := ∅;
       ka_HttpdCustomization := mkHttpdCustomization None None; ka_Resources := mkResources ∅ ∅;
       ka_NetworkAttachments := []; ka_OverrideService := ∅; ka_RabbitMqClusterName := "";
       ka_TLS := mkTLSAPI (mkGenericService None) (mkGenericService None) "combined-ca-bundle";
       ka_APITimeout := 60%Z; ka_TopologyRef := None; ka_ExtraMounts := []; ka_FederatedRealmConfig := "";
       ka_ExternalKeystoneAPI := false; ka_NotificationsBus := None |} "keystone:latest")
    (kas_setAPIEndpoints {[ "internal" := "https://keystone-internal:5000" ]} demoAPIStatus).

Lemma GetAdminServiceClient_contract_witness :
  let p := GetAdminServiceClient tlsAPI in
  demoResult p = (Some 0%nat, noResult, None) /\ length (demoTrace p) = 3%nat /\
  exists o, Ev (NewOpenStack o) (inr 0%nat) ∈ demoTrace p /\ trusts tlsAPI (demoTrace p) o.
Proof.
  split; [vm_compute; reflexivity|]. split; [vm_compute; reflexivity|].
  destruct (GetAdminServiceClient_contract tlsAPI _ _ (demo_runs _)) as [_ Ha].
  eapply Forall_forall in Ha; [|apply list_elem_of_lookup; exists 2%nat; vm_compute; reflexivity].
  eexists. split; [apply list_elem_of_lookup; exists 2%nat; vm_compute; reflexivity|]. apply Ha.
Defined.
