(* ===== verification/EndpointController.v ===== *)
(** The KeystoneEndpoint controller
    (internal/controller/keystoneendpoint_controller.go): it registers the
    endpoints of a KeystoneEndpoint in the Keystone catalogue, mirrors them in
    the status, and protects the KeystoneAPI and the KeystoneService with
    finalizers while they are needed. *)
From S2P Require Import Prelude Effects GoTime Api Conditions Instances Calls External Demo Protection KeystoneClient.

(** [getEndpointIdx] *)
Definition getEndpointIdx (endpointType : string) (endpoints : list Endpoint) : Z :=
  IndexFunc (fun e => bool_decide (e_Interface e = endpointType)) endpoints.

Section operations.
Context `{CL : ConditionLib} `{FL : FinalizerLib} `{XL : ExternalLib}.

Definition endpointFinalizer : string := helperFinalizer "KeystoneEndpoint".
(** [fmt.Sprintf("%s-%s", helper.GetFinalizer(), instance.Name)] *)
Definition consumerFinalizer (i : KeystoneEndpoint) : string :=
  endpointFinalizer +:+ "-" +:+ Name (ke_meta i).

(** Updates of the instance's conditions. *)
Definition withCond (f : Conditions -> Conditions) (i : KeystoneEndpoint) : KeystoneEndpoint :=
  ke_setStatus (kes_setConditions (f (kes_Conditions (ke_status i))) (ke_status i)) i.
Definition setFalse (t reason severity fmt : string) (args : list string) : KeystoneEndpoint -> KeystoneEndpoint :=
  withCond (condSet (Some (FalseCondition t reason severity fmt args))).
Definition markTrue (t fmt : string) (args : list string) : KeystoneEndpoint -> KeystoneEndpoint :=
  withCond (condMarkTrue t fmt args).

(** ** reconcileEndpoints *)

(** The registered endpoint a spec entry stands for. *)
Definition specEndpoint (i : KeystoneEndpoint) (availability url : string) : OSEndpoint :=
  mkOSEndpoint (ke_ServiceName (ke_spec i)) (kes_ServiceID (ke_status i)) availability url.

(** Forget the status of an endpoint type (its ID, then its list entry). *)
Definition removeStatus (ty : string) (i : KeystoneEndpoint) : KeystoneEndpoint :=
  let st := kes_setIDs (delete ty (kes_EndpointIDs (ke_status i))) (ke_status i) in
  let idx := getEndpointIdx ty (kes_Endpoints st) in
  ke_setStatus
    (if (0 <=? idx)%Z then kes_setEndpoints (removeAt (Z.to_nat idx) (kes_Endpoints st)) st else st) i.

(** Delete the endpoints that have a status but are no longer in the spec. *)
Fixpoint deleteStale (os : OSClient) (types : list string) (i : KeystoneEndpoint)
  : program (KeystoneEndpoint * option GoError) :=
  match types with
  | [] => mret (i, None)
  | ty :: rest =>
      match ke_Endpoints (ke_spec i) !! ty with
      | Some _ => deleteStale os rest i
      | None =>
          match GetAvailability ty with
          | inl e => mret (i, Some e)
          | inr availability =>
              err ← call (OSDeleteEndpoint os (specEndpoint i availability ""));
              match err with
              | Some e => mret (i, Some e)
              | None => deleteStale os rest (removeStatus ty i)
              end
          end
      end
  end.

(** Create, update or keep the registered endpoint of one type; its ID. *)
Definition registerEndpoint (os : OSClient) (ty endpointURL : string) (i : KeystoneEndpoint)
  : program (res string) :=
  match GetAvailability ty with
  | inl e => mret (inl e)
  | inr availability =>
      all ← call (OSGetEndpoints os (kes_ServiceID (ke_status i)) ty);
      match all with
      | inl e => mret (inl e)
      | inr [] => call (OSCreateEndpoint os (specEndpoint i availability endpointURL))
      | inr [endpoint] =>
          if decide (endpointURL = re_URL endpoint) then mret (inr (re_ID endpoint))
          else call (OSUpdateEndpoint os
                 (mkOSEndpoint (re_Name endpoint) (re_ServiceID endpoint) availability endpointURL)
                 (re_ID endpoint))
      | inr (_ :: _ :: _) =>
          mret (inl (WrapErrorForObject
            ("multiple endpoints registered for service:" +:+ ke_ServiceName (ke_spec i)
               +:+ " type: " +:+ ty) (ke_meta i) None))
      end
  end.

(** Record the ID and URL of a registered endpoint in the status. *)
Definition recordStatus (ty url id : string) (i : KeystoneEndpoint) : KeystoneEndpoint :=
  if decide (id = "") then i
  else
    let st := ke_status i in
    let st := match ke_Endpoints (ke_spec i) !! ty with
              | Some _ => kes_setIDs (<[ty:=id]> (kes_EndpointIDs st)) st
              | None => st
              end in
    let idx := getEndpointIdx ty (kes_Endpoints st) in
    ke_setStatus
      (if (0 <=? idx)%Z
       then kes_setEndpoints
              (alter (fun e => mkEndpoint (e_Interface e) url id) (Z.to_nat idx) (kes_Endpoints st)) st
       else kes_setEndpoints (kes_Endpoints st ++ [mkEndpoint ty url id]) st) i.

(** Create or update the endpoints of the spec. *)
Fixpoint createOrUpdate (os : OSClient) (types : list string) (i : KeystoneEndpoint)
  : program (KeystoneEndpoint * option GoError) :=
  match types with
  | [] => mret (i, None)
  | ty :: rest =>
      let endpointURL := default "" (ke_Endpoints (ke_spec i) !! ty) in
      r ← registerEndpoint os ty endpointURL i;
      match r with
      | inl e => mret (i, Some e)
      | inr endpointID => createOrUpdate os rest (recordStatus ty endpointURL endpointID i)
      end
  end.

Definition reconcileEndpoints (os : OSClient) (i : KeystoneEndpoint)
  : program (KeystoneEndpoint * option GoError) :=
  '(i, err) ← deleteStale os (sortedKeys (kes_EndpointIDs (ke_status i))) i;
  match err with
  | Some e => mret (i, Some e)
  | None => createOrUpdate os (sortedKeys (ke_Endpoints (ke_spec i))) i
  end.

(** ** Finalizer bookkeeping on the objects the endpoint depends on *)

(** Remove the endpoint's finalizer from the KeystoneService, if it exists:
    the error to return, if any. *)
Definition releaseService (i : KeystoneEndpoint) : program (option GoError) :=
  r ← call (GetKeystoneService (Namespace (ke_meta i)) (ke_ServiceName (ke_spec i)));
  match r with
  | inr ksSvc => removeServiceFinalizer (consumerFinalizer i) ksSvc
  | inl e => mret (if IsNotFound e then None else Some e)
  end.

(** Remove the endpoint's finalizer from the KeystoneAPI. *)
Definition releaseAPI (i : KeystoneEndpoint) (keystoneAPI : KeystoneAPI) : program (option GoError) :=
  removeAPIFinalizer (consumerFinalizer i) keystoneAPI.

Definition dropFinalizer (i : KeystoneEndpoint) : KeystoneEndpoint :=
  ke_setFinalizers (RemoveFinalizer endpointFinalizer (Finalizers (ke_meta i))).1 i.

(** ** reconcileDelete *)

(** Delete every endpoint of the spec in Keystone; the error to return, if any. *)
Fixpoint deleteSpecEndpoints (os : OSClient) (types : list string) (i : KeystoneEndpoint)
  : program (option GoError) :=
  match types with
  | [] => mret None
  | ty :: rest =>
      match GetAvailability ty with
      | inl e => mret (Some e)
      | inr availability =>
          err ← call (OSDeleteEndpoint os (specEndpoint i availability ""));
          match err with
          | Some e => mret (Some e)
          | None => deleteSpecEndpoints os rest i
          end
      end
  end.

Definition reconcileDelete (i : KeystoneEndpoint) (os : option OSClient) (keystoneAPI : option KeystoneAPI)
  : program (KeystoneEndpoint * ret) :=
  err ← (match os with
         | Some os => deleteSpecEndpoints os (sortedKeys (ke_Endpoints (ke_spec i))) i
         | None => mret None
         end);
  match err with
  | Some e => mret (i, failWith e)
  | None =>
      let i := ke_setStatus (kes_setIDs ∅ (ke_status i)) i in
      err ← releaseService i;
      match err with
      | Some e => mret (i, failWith e)
      | None =>
          err ← (match keystoneAPI with Some k => releaseAPI i k | None => mret None end);
          match err with
          | Some e => mret (i, failWith e)
          | None => mret (dropFinalizer i, done_)
          end
      end
  end.

Definition reconcileDeleteFinalizersOnly (i : KeystoneEndpoint) (keystoneAPI : KeystoneAPI)
  : program (KeystoneEndpoint * ret) :=
  err ← releaseService i;
  match err with
  | Some e => mret (i, failWith e)
  | None =>
      err ← releaseAPI i keystoneAPI;
      match err with
      | Some e => mret (i, failWith e)
      | None => mret (dropFinalizer i, done_)
      end
  end.

(** ** reconcileNormal *)

(** Add the endpoint's finalizer to the KeystoneAPI and to the KeystoneService. *)
Definition protectAPI (i : KeystoneEndpoint) (keystoneAPI : KeystoneAPI) : program (option GoError) :=
  addAPIFinalizer (consumerFinalizer i) keystoneAPI.
Definition protectService (i : KeystoneEndpoint) (ksSvc : KeystoneService) : program (option GoError) :=
  addServiceFinalizer (consumerFinalizer i) ksSvc.

(** The sorted [type:url] list of the condition message. *)
Definition endpointStrs (i : KeystoneEndpoint) : list string :=
  (fun k => k +:+ ":" +:+ default "" (ke_Endpoints (ke_spec i) !! k)) <$> sortedKeys (ke_Endpoints (ke_spec i)).

Definition reconcileNormal (i : KeystoneEndpoint) (os : OSClient) (keystoneAPI : KeystoneAPI)
  : program (KeystoneEndpoint * ret) :=
  r ← call (GetKeystoneService (Namespace (ke_meta i)) (ke_ServiceName (ke_spec i)));
  match r with
  | inl e => mret (i, if IsNotFound e then requeue (5 * second) else failWith e)
  | inr ksSvc =>
      let c := condMirror KeystoneServiceReadyCondition (ks_Conditions (ks_status ksSvc)) in
      let i := match c with Some _ => withCond (condSet c) i | None => i end in
      if negb (KeystoneService_IsReady ksSvc) then mret (i, requeue (10 * second))
      else
        let i := ke_setStatus (kes_setServiceID (ks_ServiceID (ks_status ksSvc)) (ke_status i)) i in
        err ← protectAPI i keystoneAPI;
        match err with
        | Some e => mret (i, failWith e)
        | None =>
            err ← protectService i ksSvc;
            match err with
            | Some e => mret (i, failWith e)
            | None =>
                '(i, err) ← reconcileEndpoints os i;
                match err with
                | Some e =>
                    mret (setFalse KeystoneServiceOSEndpointsReadyCondition ErrorReason SeverityWarning
                            KeystoneServiceOSEndpointsReadyErrorMessage [Error e] i, failWith e)
                | None =>
                    mret (markTrue KeystoneServiceOSEndpointsReadyCondition
                            KeystoneServiceOSEndpointsReadyMessage [sprintSlice (endpointStrs i)] i, done_)
                end
            end
        end
  end.

(** ** Reconcile *)

(** The conditions of a fresh instance. *)
Definition initConditions : Conditions :=
  CreateList
    [UnknownCondition KeystoneAPIReadyCondition InitReason KeystoneAPIReadyInitMessage;
     UnknownCondition AdminServiceClientReadyCondition InitReason AdminServiceClientReadyInitMessage;
     UnknownCondition KeystoneServiceOSEndpointsReadyCondition InitReason
       KeystoneServiceOSEndpointsReadyInitMessage;
     UnknownCondition KeystoneServiceReadyCondition InitReason ""].

Definition deleting (i : KeystoneEndpoint) : bool := negb (notDeleting (ke_meta i)).

(** The admin client, then the normal or the delete path. *)
Definition reconcileWithClient (i : KeystoneEndpoint) (keystoneAPI : KeystoneAPI)
  : program (KeystoneEndpoint * ret) :=
  let i := markTrue KeystoneAPIReadyCondition KeystoneAPIReadyMessage [] i in
  '(os, ctrlResult, err) ← GetAdminServiceClient keystoneAPI;
  match err with
  | Some e =>
      mret (setFalse AdminServiceClientReadyCondition ErrorReason SeverityWarning
              AdminServiceClientReadyErrorMessage [Error e] i, failWith e)
  | None =>
      if decide (ctrlResult ≠ noResult) then
        mret (setFalse AdminServiceClientReadyCondition RequestedReason SeverityInfo
                AdminServiceClientReadyWaitingMessage [] i, (ctrlResult, None))
      else
        let i := markTrue AdminServiceClientReadyCondition AdminServiceClientReadyMessage [] i in
        if deleting i then reconcileDelete i os (Some keystoneAPI)
        else match os with
             | Some os => reconcileNormal i os keystoneAPI
             | None => mret (i, failWith (errorf "nil client")) (* not reached: GetScopedClient_spec *)
             end
  end.

(** What follows the finalizer: find the KeystoneAPI and decide the path. *)
Definition reconcileInstance (i : KeystoneEndpoint) : program (KeystoneEndpoint * ret) :=
  let noIDs := bool_decide (kes_EndpointIDs (ke_status i) = ∅) in
  k ← GetKeystoneAPI (Namespace (ke_meta i)) ∅;
  match k with
  | inl e =>
      if IsNotFound e then
        if deleting i && noIDs then reconcileDelete i None None
        else mret (setFalse KeystoneAPIReadyCondition ErrorReason SeverityWarning
                     KeystoneAPIReadyNotFoundMessage [] i, requeue (5 * second))
      else mret (setFalse KeystoneAPIReadyCondition ErrorReason SeverityWarning
                   KeystoneAPIReadyErrorMessage [Error e] i, failWith e)
  | inr keystoneAPI =>
      if deleting i && negb (notDeleting (ka_meta keystoneAPI)) then
        reconcileDeleteFinalizersOnly i keystoneAPI
      else if deleting i && noIDs then reconcileDelete i None (Some keystoneAPI)
      else if negb (KeystoneAPI_IsReady keystoneAPI) then
        mret (setFalse KeystoneAPIReadyCondition RequestedReason SeverityInfo
                KeystoneAPIReadyWaitingMessage [] i, requeue (5 * second))
      else reconcileWithClient i keystoneAPI
  end.

(** The body of [Reconcile] between the fetch and the deferred patch. *)
Definition reconcileBody (i : KeystoneEndpoint) : program (KeystoneEndpoint * ret) :=
  match kes_Conditions (ke_status i) with
  | None => mret (withCond (fun _ => condInit initConditions (Some [])) i, done_)
  | Some _ =>
      let i := ke_setStatus (kes_setObservedGeneration (Generation (ke_meta i)) (ke_status i)) i in
      let '(fs, added) := AddFinalizer endpointFinalizer (Finalizers (ke_meta i)) in
      if notDeleting (ke_meta i) && added then mret (ke_setFinalizers fs i, done_)
      else reconcileInstance i
  end.

Definition Reconcile (ns name : string) : program ret :=
  r ← call (GetKeystoneEndpoint ns name);
  match r with
  | inl e => mret (if IsNotFound e then done_ else failWith e)
  | inr i =>
      h ← call NewHelper;
      match h with
      | Some e => mret (failWith e)
      | None =>
          '(i, (result, err)) ← reconcileBody i;
          let i := withCond summarizeReady i in
          perr ← call (PatchKeystoneEndpoint i);
          mret (result, match perr with Some e => Some e | None => err end)
      end
  end.
End operations.

#[global] Arguments removeStatus : simpl never.
#[global] Arguments recordStatus : simpl never.

(** ** Status bookkeeping *)

(** The two halves of the status agree: one list entry per interface, and the
    ID map is exactly the IDs of the list. *)
Definition wfStatus (st : KeystoneEndpointStatus) : Prop :=
  NoDup (e_Interface <$> kes_Endpoints st) /\
  forall ty id, kes_EndpointIDs st !! ty = Some id <-> exists url, mkEndpoint ty url id ∈ kes_Endpoints st.

Lemma getEndpointIdx_cases ty l :
  ((getEndpointIdx ty l < 0)%Z /\ ty ∉ e_Interface <$> l) \/
  (exists l1 x l2, l = l1 ++ x :: l2 /\ e_Interface x = ty /\
     (0 <= getEndpointIdx ty l)%Z /\ Z.to_nat (getEndpointIdx ty l) = length l1).
Proof.
  unfold getEndpointIdx. destruct (Z.lt_ge_cases (IndexFunc (fun e => bool_decide (e_Interface e = ty)) l) 0).
  - left. split; [done|]. intros (x & -> & Hx)%list_elem_of_fmap.
    eapply IndexFunc_none in Hx; [|done]. by apply bool_decide_eq_false_1 in Hx.
  - right. destruct (IndexFunc_some (fun e => bool_decide (e_Interface e = ty)) l)
      as (l1 & x & l2 & -> & Hx & _ & Hn); [done|].
    apply bool_decide_eq_true_1 in Hx. by exists l1, x, l2.
Qed.

Lemma removeStatus_wf ty i : wfStatus (ke_status i) -> wfStatus (ke_status (removeStatus ty i)).
Proof.
  intros [Hnd Hids]. unfold removeStatus. simpl.
  destruct (getEndpointIdx_cases ty (kes_Endpoints (ke_status i)))
    as [[Hidx Hty]|(l1 & x & l2 & Hl & Hx & Hidx & Hn)].
  - rewrite (proj2 (Z.leb_gt _ _)) by lia. split; [done|]. simpl. intros ty' id.
    rewrite lookup_delete_Some, Hids. split; [naive_solver|]. intros [url Hin].
    split; [|by exists url]. intros ->. apply Hty.
    by apply (list_elem_of_fmap_2 e_Interface) in Hin.
  - rewrite (proj2 (Z.leb_le _ _)) by lia. rewrite Hn, Hl, removeAt_middle.
    rewrite Hl in Hnd. rewrite fmap_app, fmap_cons in Hnd.
    apply NoDup_app in Hnd as (H1 & H12 & H2). apply NoDup_cons in H2 as [Hx2 H2].
    split.
    + simpl. rewrite fmap_app. apply NoDup_app. split_and!; [done| |done]. set_solver.
    + simpl. intros ty' id. rewrite lookup_delete_Some, Hids, Hl. split.
      * intros [Hne [url Hin]]. exists url. set_solver.
      * intros [url Hin]. split; [|exists url; set_solver]. intros ->.
        apply (list_elem_of_fmap_2 e_Interface) in Hin. simpl in Hin. subst.
        rewrite fmap_app, elem_of_app in Hin. destruct Hin as [Hin|Hin]; [|done].
        eapply H12; [exact Hin|]. left.
Qed.

Lemma removeStatus_spec ty i : ke_spec (removeStatus ty i) = ke_spec i.
Proof. done. Qed.

Lemma removeStatus_ids ty i :
  kes_EndpointIDs (ke_status (removeStatus ty i)) = delete ty (kes_EndpointIDs (ke_status i)).
Proof. unfold removeStatus. simpl. by destruct (_ <=? _)%Z. Qed.

Lemma recordStatus_spec ty url id i : ke_spec (recordStatus ty url id i) = ke_spec i.
Proof. unfold recordStatus. by case_decide. Qed.

Lemma recordStatus_ids ty url id i :
  id ≠ "" -> is_Some (ke_Endpoints (ke_spec i) !! ty) ->
  kes_EndpointIDs (ke_status (recordStatus ty url id i)) = <[ty:=id]> (kes_EndpointIDs (ke_status i)).
Proof.
  intros Hid [u Hu]. unfold recordStatus. rewrite decide_False, Hu by done. simpl.
  by destruct (_ <=? _)%Z.
Qed.

(** The list of endpoints after [recordStatus]: every other interface keeps its
    entry, [ty] has the new one. *)
Lemma recordStatus_endpoints ty url id i e :
  id ≠ "" -> NoDup (e_Interface <$> kes_Endpoints (ke_status i)) ->
  e ∈ kes_Endpoints (ke_status (recordStatus ty url id i)) <->
  e = mkEndpoint ty url id \/ (e ∈ kes_Endpoints (ke_status i) /\ e_Interface e ≠ ty).
Proof.
  intros Hid Hnd. unfold recordStatus. rewrite decide_False by done.
  set (st := match ke_Endpoints (ke_spec i) !! ty with
             | Some _ => kes_setIDs (<[ty:=id]> (kes_EndpointIDs (ke_status i))) (ke_status i)
             | None => ke_status i end).
  assert (kes_Endpoints st = kes_Endpoints (ke_status i)) as Hst
    by (unfold st; by destruct (ke_Endpoints _ !! ty)).
  rewrite Hst.
  destruct (getEndpointIdx_cases ty (kes_Endpoints (ke_status i)))
    as [[Hidx Hty]|(l1 & x & l2 & Hl & Hx & Hidx & Hn)].
  - rewrite (proj2 (Z.leb_gt _ _)) by lia. simpl. rewrite elem_of_app, list_elem_of_singleton.
    split; [|naive_solver]. intros [Hin|]; [right|naive_solver]. split; [done|]. intros <-.
    apply Hty. by apply list_elem_of_fmap_2.
  - rewrite (proj2 (Z.leb_le _ _)) by lia. simpl. rewrite Hn, Hl.
    replace (length l1) with (length l1 + 0)%nat by lia. rewrite alter_app_r. simpl. rewrite Hx.
    rewrite Hl, fmap_app, fmap_cons in Hnd.
    apply NoDup_app in Hnd as (H1 & H12 & H2). apply NoDup_cons in H2 as [Hx2 _].
    rewrite !elem_of_app, !elem_of_cons. split.
    + intros [Hin|[->|Hin]]; [right|by left|right]; split; try tauto.
      * intros <-. apply (list_elem_of_fmap_2 e_Interface) in Hin. eapply H12; [exact Hin|].
        rewrite Hx. left.
      * intros <-. apply Hx2. rewrite Hx. by apply list_elem_of_fmap_2.
    + intros [->|[[Hin|[->|Hin]] Hne]]; tauto.
Qed.

Lemma recordStatus_NoDup ty url id i :
  NoDup (e_Interface <$> kes_Endpoints (ke_status i)) ->
  NoDup (e_Interface <$> kes_Endpoints (ke_status (recordStatus ty url id i))).
Proof.
  intros Hnd. unfold recordStatus. case_decide; [done|].
  set (st := match ke_Endpoints (ke_spec i) !! ty with
             | Some _ => kes_setIDs (<[ty:=id]> (kes_EndpointIDs (ke_status i))) (ke_status i)
             | None => ke_status i end).
  assert (kes_Endpoints st = kes_Endpoints (ke_status i)) as Hst
    by (unfold st; by destruct (ke_Endpoints _ !! ty)).
  rewrite Hst.
  destruct (getEndpointIdx_cases ty (kes_Endpoints (ke_status i)))
    as [[Hidx Hty]|(l1 & x & l2 & Hl & Hx & Hidx & Hn)].
  - rewrite (proj2 (Z.leb_gt _ _)) by lia. simpl. rewrite fmap_app. apply NoDup_app.
    split_and!; [done| |by apply NoDup_singleton]. simpl. intros t Ht Ht'.
    apply list_elem_of_singleton in Ht'. by subst.
  - rewrite (proj2 (Z.leb_le _ _)) by lia. simpl. rewrite Hn, Hl.
    replace (length l1) with (length l1 + 0)%nat by lia. rewrite alter_app_r. simpl.
    by rewrite fmap_app, fmap_cons, Hl, fmap_app, fmap_cons in *.
Qed.

Lemma recordStatus_wf ty url id i :
  is_Some (ke_Endpoints (ke_spec i) !! ty) ->
  wfStatus (ke_status i) -> wfStatus (ke_status (recordStatus ty url id i)).
Proof.
  intros Hspec [Hnd Hids]. split; [by apply recordStatus_NoDup|]. intros ty' id'.
  destruct (decide (id = "")) as [->|Hid]; [unfold recordStatus; by rewrite decide_True|].
  rewrite recordStatus_ids by done. setoid_rewrite recordStatus_endpoints; [|done..].
  rewrite lookup_insert_Some, Hids. split.
  - intros [[-> ->]|[Hne [u Hu]]]; [by eauto|]. exists u. right. by split.
  - intros [u [[= -> -> ->]|[Hin Hne]]]; [by left|]. right. split; [done|by exists u].
Qed.

(** ** reconcileEndpoints: the loops *)

(** The IDs Keystone handed out in a trace are not empty. *)
Definition nonemptyIDs : trace -> Prop :=
  Forall (fun ev =>
    match ev with
    | Ev c x =>
        match c in Call X return X -> Prop with
        | OSCreateEndpoint _ _ => fun r => r ≠ inr ""
        | OSUpdateEndpoint _ _ _ => fun r => r ≠ inr ""
        | OSGetEndpoints _ _ _ => fun r =>
            match r with inr l => forall e, e ∈ l -> re_ID e ≠ "" | inl _ => True end
        | _ => fun _ => True
        end x
    end).

Section loops.
Context `{XL : ExternalLib}.

Lemma deleteStale_ok os types i :
  wfStatus (ke_status i) ->
  wp (deleteStale os types i) (fun _ r =>
    wfStatus (ke_status r.1) /\ ke_spec r.1 = ke_spec i /\ ke_meta r.1 = ke_meta i /\
    kes_ServiceID (ke_status r.1) = kes_ServiceID (ke_status i) /\
    kes_EndpointIDs (ke_status r.1) ⊆ kes_EndpointIDs (ke_status i) /\
    (r.2 = None -> forall ty, ty ∈ types -> ke_Endpoints (ke_spec i) !! ty = None ->
      kes_EndpointIDs (ke_status r.1) !! ty = None)).
Proof.
  revert i; induction types as [|ty types IH]; intros i Hwf; simpl.
  { split_and!; try done. intros _ ty Hty. by apply elem_of_nil in Hty. }
  destruct (ke_Endpoints (ke_spec i) !! ty) as [u|] eqn:Hty.
  - eapply wp_mono; [|by apply IH]. simpl. intros t r (H1 & H2 & H3 & H4 & H5 & H6). split_and!; try done.
    intros Hr ty' [->|Hin]%elem_of_cons; [congruence|auto].
  - destruct (GetAvailability ty) as [e|av]; [by split_and!|].
    intros [e|]; [by split_and!|].
    eapply wp_mono; [|by apply IH, removeStatus_wf]. cbv beta.
    intros t r (H1 & H2 & H3 & H4 & H5 & H6). rewrite removeStatus_ids in H5.
    assert (kes_EndpointIDs (ke_status r.1) ⊆ kes_EndpointIDs (ke_status i)) as Hsub
      by (etrans; [exact H5|apply delete_subseteq]).
    split_and!; try done.
    + rewrite H4. unfold removeStatus. simpl. by destruct (_ <=? _)%Z.
    + intros Hr ty' [->|Hin]%elem_of_cons Hs; [|by apply H6].
      destruct (kes_EndpointIDs (ke_status r.1) !! ty) as [id|] eqn:Hid; [|done].
      eapply lookup_weaken in Hid; [|exact H5]. by rewrite lookup_delete_eq in Hid.
Qed.

(** What one iteration of the second loop returns. *)
Lemma registerEndpoint_ok os ty url i :
  wp (registerEndpoint os ty url i) (fun t r => nonemptyIDs t -> r ≠ inr "").
Proof.
  unfold registerEndpoint. destruct (GetAvailability ty); simpl; [done|].
  intros [e|[|re [|]]]; simpl; [done| | |done].
  - intros r Ht. by apply Forall_cons in Ht as [_ [Hr _]%Forall_cons].
  - destruct (decide (url = re_URL re)); simpl.
    + intros Ht. apply Forall_cons in Ht as [Hr _]. intros [= Hid]. by apply (Hr re); [left|].
    + intros r Ht. by apply Forall_cons in Ht as [_ [Hr _]%Forall_cons].
Qed.

Lemma createOrUpdate_ok os types i :
  wfStatus (ke_status i) -> (forall ty, ty ∈ types -> is_Some (ke_Endpoints (ke_spec i) !! ty)) ->
  wp (createOrUpdate os types i) (fun t r =>
    wfStatus (ke_status r.1) /\ ke_spec r.1 = ke_spec i /\ ke_meta r.1 = ke_meta i /\
    (r.2 = None -> nonemptyIDs t ->
      (forall ty, is_Some (kes_EndpointIDs (ke_status r.1) !! ty) <->
        ty ∈ types \/ is_Some (kes_EndpointIDs (ke_status i) !! ty)) /\
      (forall e, e ∈ kes_Endpoints (ke_status r.1) ->
        (ke_Endpoints (ke_spec i) !! e_Interface e) = Some (e_URL e) \/
        (~ (e_Interface e ∈ types) /\ e ∈ kes_Endpoints (ke_status i))))).
Proof.
  revert i; induction types as [|ty types IH]; intros i Hwf Htypes; simpl.
  { split_and!; try done. intros _ _. split; [set_solver|]. intros e He. right. set_solver. }
  assert (is_Some (ke_Endpoints (ke_spec i) !! ty)) as Hty by (apply Htypes; left).
  destruct Hty as [url Hurl]. rewrite Hurl. simpl.
  wp_use registerEndpoint_ok. intros t1 [e|id] Hid; simpl; [by split_and!|].
  eapply wp_mono; [|apply IH].
  - intros t2 r (H1 & H2 & H3 & H4). rewrite recordStatus_spec in H2, H4.
    assert (ke_meta (recordStatus ty url id i) = ke_meta i) as Hm by (unfold recordStatus; by case_decide).
    split_and!; [done|done|congruence|]. intros Hr [Ht1 Ht2]%Forall_app.
    assert (id ≠ "") as Hne by (intros ->; by apply (Hid Ht1)). destruct (H4 Hr Ht2) as [H5 H6].
    rewrite recordStatus_ids in H5 by eauto. destruct Hwf as [Hnd _]. split.
    + intros ty'. rewrite H5, lookup_insert_is_Some, elem_of_cons.
      destruct (decide (ty = ty')) as [<-|Hne']; [tauto|]. split; [tauto|]. intros [[?|?]|?]; [congruence|tauto|tauto].
    + intros e He. destruct (H6 e He) as [Hu|[Hn He']]; [by left|].
      apply recordStatus_endpoints in He' as [->|[He' Hne']]; [by left| |done|done].
      right. split; [|done]. rewrite elem_of_cons. tauto.
  - apply recordStatus_wf; eauto.
  - intros ty' Hty'. rewrite recordStatus_spec. apply Htypes. by right.
Qed.
End loops.

(** ** Properties of the catalogue synchronisation *)

(** The calls that change Keystone's catalogue. *)
Definition catalogueWrite (ev : event Call) : bool :=
  match ev with
  | Ev c _ =>
      match c with
      | OSDeleteEndpoint _ _ | OSCreateEndpoint _ _ | OSUpdateEndpoint _ _ _ => true
      | _ => false
      end
  end.

(** The registry answers of a trace are the spec: one endpoint per type, with
    the spec's URL and the ID of the status. *)
Definition registryInSync (i : KeystoneEndpoint) : trace -> Prop :=
  Forall (fun ev =>
    match ev with
    | Ev c x =>
        match c in Call X return X -> Prop with
        | OSGetEndpoints _ _ ty => fun r =>
            exists re, r = inr [re] /\ ke_Endpoints (ke_spec i) !! ty = Some (re_URL re)
              /\ kes_EndpointIDs (ke_status i) !! ty = Some (re_ID re)
        | _ => fun _ => True
        end x
    end).

Section endpoint_properties.
Context `{XL : ExternalLib}.

Lemma reconcileEndpoints_spec os i :
  wfStatus (ke_status i) ->
  wp (reconcileEndpoints os i) (fun t r =>
    wfStatus (ke_status r.1) /\ ke_spec r.1 = ke_spec i /\ ke_meta r.1 = ke_meta i /\
    (r.2 = None -> nonemptyIDs t ->
      (forall ty, is_Some (kes_EndpointIDs (ke_status r.1) !! ty) <-> is_Some (ke_Endpoints (ke_spec i) !! ty)) /\
      (forall e, e ∈ kes_Endpoints (ke_status r.1) ->
        (ke_Endpoints (ke_spec i) !! e_Interface e) = Some (e_URL e)))).
Proof.
  intros Hwf. unfold reconcileEndpoints.
  wp_use deleteStale_ok; [|done]. intros t1 [i1 err] (Hwf1 & Hs1 & Hm1 & _ & Hsub & Hdel). simpl in *.
  destruct err as [e|]; simpl; [by split_and!|].
  eapply wp_mono; [|apply createOrUpdate_ok; [done|]].
  - intros t2 [i2 err2] (Hwf2 & Hs2 & Hm2 & Hok). simpl in *. split_and!; [done|congruence..|].
    intros -> [_ Ht2]%Forall_app. destruct (Hok eq_refl Ht2) as [Hids Hends]. rewrite Hs1 in *.
    assert (forall ty, is_Some (kes_EndpointIDs (ke_status i1) !! ty) -> is_Some (ke_Endpoints (ke_spec i) !! ty))
      as Hold.
    { intros ty [id Hid]. destruct (ke_Endpoints (ke_spec i) !! ty) eqn:Hty; [done|].
      rewrite Hdel in Hid; [done|done| |done]. apply elem_of_sortedKeys. exists id.
      by eapply lookup_weaken. }
    split.
    + intros ty. rewrite Hids, elem_of_sortedKeys. split; [intros [?|?]; auto|by left].
    + intros e He. destruct (Hends e He) as [|[Hn He1]]; [done|].
      exfalso. apply Hn, elem_of_sortedKeys, Hold. destruct e as [ty u id]. simpl.
      exists id. apply Hwf1. by exists u.
  - intros ty. by rewrite Hs1, elem_of_sortedKeys.
Qed.

Lemma recordStatus_same ty url id i :
  wfStatus (ke_status i) -> is_Some (ke_Endpoints (ke_spec i) !! ty) ->
  mkEndpoint ty url id ∈ kes_Endpoints (ke_status i) -> recordStatus ty url id i = i.
Proof.
  intros [Hnd Hids] [u Hu] Hin. unfold recordStatus. case_decide; [done|]. rewrite Hu. simpl.
  destruct (getEndpointIdx_cases ty (kes_Endpoints (ke_status i)))
    as [[Hidx Hty]|(l1 & x & l2 & Hl & Hx & Hidx & Hn)].
  { exfalso. apply Hty. by apply (list_elem_of_fmap_2 e_Interface) in Hin. }
  rewrite (proj2 (Z.leb_le _ _)) by lia.
  assert (x = mkEndpoint ty url id) as ->.
  { assert (x ∈ kes_Endpoints (ke_status i)) as Hxin by (rewrite Hl; set_solver).
    apply list_elem_of_lookup in Hin as [n1 H1], Hxin as [n2 H2].
    assert (n1 = n2) as ->; [|congruence].
    eapply NoDup_lookup; [exact Hnd|rewrite list_lookup_fmap, H1; done|].
    rewrite list_lookup_fmap, H2. simpl. by rewrite Hx. }
  rewrite insert_id by (apply Hids; eauto). rewrite Hn.
  destruct i as [m s [ids sid cs es og]]. simpl in *. unfold ke_setStatus, kes_setEndpoints, kes_setIDs. simpl.
  do 2 f_equal. rewrite Hl. replace (length l1) with (length l1 + 0)%nat by lia. by rewrite alter_app_r.
Qed.

(** After a successful [reconcileEndpoints] the status mirrors the spec,
    whatever Keystone and the status held before: the recorded endpoint types
    are exactly the spec's, every list entry carries the spec's URL, and the
    ID map and the list agree, one entry per interface. *)
Lemma reconcileEndpoints_mirrors_spec os i t i' :
  wfStatus (ke_status i) -> nonemptyIDs t ->
  runs (reconcileEndpoints os i) t (i', None) ->
  wfStatus (ke_status i') /\
  (forall ty, is_Some (kes_EndpointIDs (ke_status i') !! ty) <-> is_Some (ke_Endpoints (ke_spec i) !! ty)) /\
  (forall e, e ∈ kes_Endpoints (ke_status i') ->
    (ke_Endpoints (ke_spec i) !! e_Interface e) = Some (e_URL e)).
Proof.
  intros Hwf Ht Hr. eapply runs_spec in Hr; [|by apply reconcileEndpoints_spec]. simpl in Hr.
  destruct Hr as (Hwf' & _ & _ & Hok). split; [done|]. by apply Hok.
Qed.

Lemma demoEndpoint_wf : wfStatus (ke_status demoEndpoint).
Proof.
  split; [vm_compute; repeat constructor; set_solver|]. intros ty id. simpl.
  rewrite lookup_singleton_Some. split; [intros [<- <-]; exists "http://admin"; by left|].
  intros [url Hin]. apply list_elem_of_singleton in Hin. by injection Hin as -> _ ->.
Qed.

(** Whatever Keystone answers and wherever [reconcileEndpoints] stops
    (success or any error, with part of the work done), the two halves of the
    status still agree and the spec and metadata are untouched. *)
Theorem reconcileEndpoints_preserves_wf os i t i' err :
  wfStatus (ke_status i) -> runs (reconcileEndpoints os i) t (i', err) ->
  wfStatus (ke_status i') /\ ke_spec i' = ke_spec i /\ ke_meta i' = ke_meta i.
Proof.
  intros Hwf Hr. eapply runs_spec in Hr; [|by apply reconcileEndpoints_spec].
  destruct Hr as (H1 & H2 & H3 & _). done.
Qed.

(** The second loop on a registry in sync. *)
Lemma createOrUpdate_steady os types i :
  wfStatus (ke_status i) ->
  (forall e, e ∈ kes_Endpoints (ke_status i) -> (ke_Endpoints (ke_spec i) !! e_Interface e) = Some (e_URL e)) ->
  (forall ty, ty ∈ types -> is_Some (ke_Endpoints (ke_spec i) !! ty)) ->
  wp (createOrUpdate os types i) (fun t r =>
    registryInSync i t -> r.1 = i /\ Forall (fun ev => catalogueWrite ev = false) t).
Proof.
  intros Hwf Hurls. induction types as [|ty l IH]; intros Hin; simpl; [done|].
  destruct (Hin ty ltac:(left)) as [url Hurl]. rewrite Hurl. simpl. unfold registerEndpoint.
  destruct (GetAvailability ty); simpl; [done|].
  intros [e|[|re [|]]]; simpl.
  - intros Hs. apply Forall_cons in Hs as [(re & [=] & _) _].
  - intros r. apply wp_runs. intros t r' _ Hs. apply Forall_cons in Hs as [(re & [=] & _) _].
  - destruct (decide (url = re_URL re)) as [->|Hne]; simpl.
    + apply wp_runs. intros t r Hr Hs. apply Forall_cons in Hs as [(re' & [= <-] & _ & Hid) Hs].
      assert (mkEndpoint ty (re_URL re) (re_ID re) ∈ kes_Endpoints (ke_status i)) as Hel.
      { apply Hwf in Hid as [u Hel]. pose proof (Hurls _ Hel) as Hu. simpl in Hu. by simplify_eq. }
      rewrite recordStatus_same in Hr by eauto.
      eapply runs_spec in Hr; [|apply IH; intros ty' Hty'; apply Hin; by right].
      destruct (Hr Hs) as [-> Hw]. split; [done|]. by constructor.
    + intros r. apply wp_runs. intros t r' _ Hs.
      apply Forall_cons in Hs as [(re' & [= <-] & Hu & _) _]. congruence.
  - intros Hs. apply Forall_cons in Hs as [(re' & [=] & _) _].
Qed.

Lemma deleteStale_steady os types i :
  (forall ty, ty ∈ types -> is_Some (ke_Endpoints (ke_spec i) !! ty)) ->
  deleteStale os types i = mret (i, None).
Proof.
  induction types as [|ty l IH]; intros Hin; simpl; [done|].
  destruct (Hin ty ltac:(left)) as [url ->]. apply IH. intros ty' Hty'. apply Hin. by right.
Qed.

(** C29. Steady state: when the status already mirrors the spec and Keystone
    has exactly one endpoint per type, with the spec's URL and the recorded
    ID, the reconcile issues no catalogue write and leaves the instance as it is. *)
Theorem reconcileEndpoints_steady os i t i' err :
  wfStatus (ke_status i) ->
  (forall ty, is_Some (kes_EndpointIDs (ke_status i) !! ty) -> is_Some (ke_Endpoints (ke_spec i) !! ty)) ->
  (forall e, e ∈ kes_Endpoints (ke_status i) -> (ke_Endpoints (ke_spec i) !! e_Interface e) = Some (e_URL e)) ->
  registryInSync i t ->
  runs (reconcileEndpoints os i) t (i', err) ->
  i' = i /\ Forall (fun ev => catalogueWrite ev = false) t.
Proof.
  intros Hwf Hdom Hurls Hsync Hr. unfold reconcileEndpoints in Hr.
  rewrite deleteStale_steady in Hr by (intros ty Hty%elem_of_sortedKeys; auto).
  eapply runs_spec in Hr; [|apply createOrUpdate_steady; [done..|]].
  - by apply Hr.
  - intros ty. by rewrite elem_of_sortedKeys.
Qed.
End endpoint_properties.

(** ** Ordering of the finalizers and the catalogue *)

Section protection.
Context `{CL : ConditionLib} `{FLaws : FinalizerLaws} `{XL : ExternalLib}.

(** The KeystoneService that was read carries the endpoint's finalizer. *)
Definition serviceProtected (i : KeystoneEndpoint) (t : trace) : Prop :=
  exists svc,
    Ev (GetKeystoneService (Namespace (ke_meta i)) (ke_ServiceName (ke_spec i))) (inr svc) ∈ t /\
    svcProtected (consumerFinalizer i) svc t.

Lemma updatesOnly_noWrite t : updatesOnly t -> Forall (fun ev => ~ catalogueWrite ev = true) t.
Proof. intros [Hk _]. eapply Forall_impl; [exact Hk|]. intros [X c x]. by destruct c. Qed.

(** C24. [reconcileNormal] touches Keystone's catalogue only once both the
    KeystoneAPI and the KeystoneService carry the endpoint's finalizer: at any
    catalogue write, the finalizer was found on the object read, or an update
    adding it has already succeeded. *)
Theorem reconcileNormal_protects_first i os k t r t1 ev t2 :
  runs (reconcileNormal i os k) t r -> t = t1 ++ ev :: t2 -> catalogueWrite ev = true ->
  apiProtected (consumerFinalizer i) k t1 /\ serviceProtected i t1.
Proof.
  intros (r0 & t0 & -> & Hr) Ht Hev.
  destruct r0 as [e|svc]; runs_norm Hr; [by destruct Hr as [-> _]; destruct t1 as [|? []]; simplify_eq/=|].
  cbv zeta in Hr. destruct (negb (KeystoneService_IsReady svc)).
  { by destruct Hr as [-> _]; destruct t1 as [|? []]; simplify_eq/=. }
  match type of Hr with context [protectAPI ?j k] => set (i1 := j) in * end.
  assert (ke_meta i1 = ke_meta i) as Hm by (unfold i1; by destruct (condMirror _ _)).
  assert (consumerFinalizer i1 = consumerFinalizer i) as Hcf by (unfold consumerFinalizer; by rewrite Hm).
  apply runs_bind in Hr as (ta & tr & err1 & -> & Ha & Hr).
  eapply runs_spec in Ha; [|apply addAPIFinalizer_spec]. destruct Ha as [Hna%updatesOnly_noWrite Ha].
  destruct (event_after (fun ev => catalogueWrite ev = true) [Ev (GetKeystoneService (Namespace (ke_meta i))
    (ke_ServiceName (ke_spec i))) (inr svc)] (ta ++ tr) t1 t2 ev) as (t1' & -> & Ht1);
    [done|by repeat constructor|done|].
  apply (event_after (fun ev => catalogueWrite ev = true)) in Ht1 as (t1'' & -> & ->); [|done..].
  destruct err1 as [e|]; [by destruct Hr as [Hr _]; destruct t1''|].
  apply runs_bind in Hr as (tb & tc & err2 & Heq & Hb & Hr).
  eapply runs_spec in Hb; [|apply addServiceFinalizer_spec]. destruct Hb as [Hnb%updatesOnly_noWrite Hb].
  symmetry in Heq. apply (event_after (fun ev => catalogueWrite ev = true)) in Heq as (t3 & -> & ->); [|done..].
  destruct err2 as [e|]; [by destruct Hr as [Hr _]; destruct t3|].
  specialize (Ha eq_refl). specialize (Hb eq_refl). rewrite Hcf in *. split.
  - eapply apiProtected_sub; [|exact Ha]. set_solver.
  - exists svc. split; [by left|]. eapply svcProtected_sub; [|exact Hb]. set_solver.
Qed.
End protection.

(** ** Deletion *)

Section deletion.
Context `{CL : ConditionLib} `{FLaws : FinalizerLaws} `{XL : ExternalLib}.

(** The KeystoneService was found gone, or without the endpoint's finalizer,
    or an update that takes the finalizer off it succeeded. *)
Definition serviceReleased (i : KeystoneEndpoint) (t : trace) : Prop :=
  exists ans,
    Ev (GetKeystoneService (Namespace (ke_meta i)) (ke_ServiceName (ke_spec i))) ans ∈ t /\
    match ans with
    | inl e => IsNotFound e = true
    | inr svc =>
        svcReleased (consumerFinalizer i) svc t
    end.
(** Growing the trace keeps what it established. *)
Lemma serviceReleased_sub i t t' : t ⊆ t' -> serviceReleased i t -> serviceReleased i t'.
Proof.
  intros Ht (ans & Hin & Hans). exists ans. split; [by apply Ht|].
  destruct ans as [e|svc]; [done|]. by eapply svcReleased_sub.
Qed.

Lemma releaseService_spec i :
  wp (releaseService i) (fun t err => updatesOnly t /\ match err with None => serviceReleased i t | Some _ => someRefused t end).
Proof.
  unfold releaseService, serviceReleased. wp_norm. intros [e|svc]; wp_norm.
  - split; [by repeat constructor|]. destruct (IsNotFound e) eqn:He.
    + eexists. split; [left|]. exact He.
    + eexists. split; [left|]. exact He.
  - eapply wp_mono; [|exact (wp_conj _ _ _ (removeServiceFinalizer_spec (consumerFinalizer i) svc)
      (removeServiceFinalizer_refused (consumerFinalizer i) svc))]. cbv beta. intros t err [[[H1 H2] Hok] Hno].
    split; [by split; constructor|]. destruct err as [e|].
    + eapply someRefused_sub; [|by apply Hno]. set_solver.
    + eexists. split; [left|]. simpl. eapply svcReleased_sub; [|by apply Hok]. set_solver.
Qed.
Lemma releaseAPI_spec i k :
  wp (releaseAPI i k) (fun t err => updatesOnly t /\
    match err with None => apiReleased (consumerFinalizer i) k t | Some _ => someRefused t end).
Proof.
  eapply wp_mono; [|exact (wp_conj _ _ _ (removeAPIFinalizer_spec (consumerFinalizer i) k)
    (removeAPIFinalizer_refused (consumerFinalizer i) k))].
  cbv beta. intros t [e|] [[H1 H2] H3]; (split; [done|]); [by apply H3|by apply H2].
Qed.

(** The confirmed deletion of one endpoint type. *)
Definition deletionOf (os : OSClient) (i : KeystoneEndpoint) (ty : string) (ev : event Call) : Prop :=
  exists availability, GetAvailability ty = inr availability /\
    ev = Ev (OSDeleteEndpoint os (specEndpoint i availability "")) None.
(** An interface of the spec that Keystone does not know. *)
Definition unknownInterface (i : KeystoneEndpoint) : Prop :=
  exists ty e, is_Some (ke_Endpoints (ke_spec i) !! ty) /\ GetAvailability ty = inl e.

Lemma deleteSpecEndpoints_spec os types i :
  (forall ty, ty ∈ types -> is_Some (ke_Endpoints (ke_spec i) !! ty)) ->
  wp (deleteSpecEndpoints os types i) (fun t err =>
    match err with
    | None => Forall2 (deletionOf os i) types t
    | Some _ => someRefused t \/ unknownInterface i
    end).
Proof.
  induction types as [|ty l IH]; intros Hspec; simpl; [by constructor|].
  destruct (GetAvailability ty) as [e|av] eqn:Hav; simpl; [right; exists ty, e; split; [apply Hspec; left|done]|].
  intros [e|]; simpl.
  { left. eexists. split; [left|done]. }
  eapply wp_mono; [|apply IH; intros ty' ?; apply Hspec; by right]. cbv beta. intros t [e|].
  - intros [Href|?]; [left; eapply someRefused_sub; [|exact Href]; set_solver|by right].
  - intros Hall. constructor; [by exists av|done].
Qed.

Lemma dropFinalizer_gone i : endpointFinalizer ∉ Finalizers (ke_meta (dropFinalizer i)).
Proof. unfold dropFinalizer. simpl. rewrite RemoveFinalizer_elem. by intros []. Qed.

(** What is left of a finished deletion: both finalizers of the endpoint are
    off, and before that the endpoints of the spec were deleted with the
    client, if there is one, and nothing else asked of Keystone. *)
Definition withdrawnWith (i i' : KeystoneEndpoint) (os : option OSClient) (ok : option KeystoneAPI) (t : trace) : Prop :=
  serviceReleased i t /\ (forall k, ok = Some k -> apiReleased (consumerFinalizer i) k t) /\
  match os with
  | None => never isKeystone t
  | Some os => kes_EndpointIDs (ke_status i') = ∅ /\ exists t1 t2, t = t1 ++ t2 /\
      Forall2 (deletionOf os i) (sortedKeys (ke_Endpoints (ke_spec i))) t1 /\ updatesOnly t2
  end.

(** The two finalizers, once Keystone is through. *)
Lemma release_spec i j ok (g : KeystoneEndpoint) :
  endpointFinalizer ∈ Finalizers (ke_meta i) -> ke_meta j = ke_meta i -> ke_spec j = ke_spec i ->
  wp (err ← releaseService j;
      match err with
      | Some e => mret (j, failWith e)
      | None =>
          err ← (match ok with Some k => releaseAPI j k | None => mret None end);
          match err with Some e => mret (j, failWith e) | None => mret (dropFinalizer j, done_) end
      end) (fun t r =>
    ((endpointFinalizer ∉ Finalizers (ke_meta r.1)) <-> r.2 = done_) /\ updatesOnly t /\
    (r.2 = done_ -> r.1 = dropFinalizer j /\ serviceReleased i t /\
       forall k, ok = Some k -> apiReleased (consumerFinalizer i) k t) /\
    (r.2 <> done_ -> someRefused t)).
Proof.
  intros Hin Hm Hsp. assert (consumerFinalizer j = consumerFinalizer i) as Hf by (unfold consumerFinalizer; by rewrite Hm).
  assert (forall t, serviceReleased j t -> serviceReleased i t) as Hserv.
  { intros t. unfold serviceReleased. by rewrite Hm, Hsp, Hf. }
  apply wp_bind. eapply wp_mono; [|apply releaseService_spec]. cbv beta. intros t1 [e|] [Hu1 H1]; wp_norm; rewrite ?app_nil_r.
  { rewrite Hm. split; [by split|]. by split_and!. }
  apply wp_bind. apply Hserv in H1.
  assert (wp (match ok with Some k => releaseAPI j k | None => mret None end) (fun t err => updatesOnly t /\
    match err with None => forall k, ok = Some k -> apiReleased (consumerFinalizer i) k t | Some _ => someRefused t end)) as Hapi.
  { destruct ok as [k|]; [|by split; [by split; constructor|]]. rewrite <- Hf.
    eapply wp_mono; [|apply releaseAPI_spec]. intros t [e|] [Hu Hx]; (split; [done|]); [done|]. by intros k' [= <-]. }
  eapply wp_mono; [|exact Hapi]. cbv beta. intros t2 [e|] [Hu2 H2]; wp_norm; rewrite ?app_nil_r.
  - rewrite Hm. split; [by split|]. split_and!; [by apply updatesOnly_app|done|]. intros _.
    eapply someRefused_sub; [|exact H2]. set_solver.
  - split; [split; [done|intros _; apply dropFinalizer_gone]|]. split_and!; [by apply updatesOnly_app| |done]. intros _.
    split_and!; [done|eapply serviceReleased_sub; [|exact H1]; set_solver|]. intros k Hk.
    eapply apiReleased_sub; [|by apply H2]. set_solver.
Qed.

Lemma reconcileDelete_spec i os ok :
  endpointFinalizer ∈ Finalizers (ke_meta i) ->
  wp (reconcileDelete i os ok) (fun t r =>
    ((endpointFinalizer ∉ Finalizers (ke_meta r.1)) <-> r.2 = done_) /\ (os = None -> never isKeystone t) /\
    (r.2 = done_ -> withdrawnWith i r.1 os ok t) /\
    (r.2 <> done_ -> someRefused t \/ (os <> None /\ unknownInterface i))).
Proof.
  intros Hin. unfold reconcileDelete. apply wp_bind.
  assert (wp (match os with Some os => deleteSpecEndpoints os (sortedKeys (ke_Endpoints (ke_spec i))) i | None => mret None end)
    (fun t err => (os = None -> t = []) /\
      match err with
      | None => forall os', os = Some os' -> Forall2 (deletionOf os' i) (sortedKeys (ke_Endpoints (ke_spec i))) t
      | Some _ => someRefused t \/ (os <> None /\ unknownInterface i)
      end)) as Hdel.
  { destruct os as [os|]; [|by split]. eapply wp_mono; [|apply deleteSpecEndpoints_spec; intros ty;
      by rewrite elem_of_sortedKeys].
    intros t [e|] Hx; (split; [done|]); [naive_solver|]. by intros os' [= <-]. }
  eapply wp_mono; [|exact Hdel]. cbv beta. intros t1 [e|] [Hn H1]; wp_norm; rewrite ?app_nil_r.
  { split; [by split|]. split_and!; [intros ->%Hn; apply Forall_nil_2|done|done]. }
  match goal with |- context [releaseService ?j] => set (j1 := j) end.
  eapply wp_mono; [|by apply (release_spec i j1 ok i)]. cbv beta. intros t2 r (H2 & Hu & H3 & H4).
  split; [done|]. split_and!.
  - intros ->%Hn. apply Hu.
  - intros Hd. destruct (H3 Hd) as (-> & Hs & Ha). split_and!.
    + eapply serviceReleased_sub; [|exact Hs]. set_solver.
    + intros k Hk. eapply apiReleased_sub; [|by apply Ha]. set_solver.
    + destruct os as [os|]; [|rewrite (Hn eq_refl); apply Hu]. split; [done|]. exists t1, t2. by split_and!; [|apply H1|].
  - intros Hd. left. eapply someRefused_sub; [|by apply H4]. set_solver.
Qed.
Lemma reconcileDeleteFinalizersOnly_spec i k :
  endpointFinalizer ∈ Finalizers (ke_meta i) ->
  wp (reconcileDeleteFinalizersOnly i k) (fun t r =>
    ((endpointFinalizer ∉ Finalizers (ke_meta r.1)) <-> r.2 = done_) /\ never isKeystone t /\
    (r.2 = done_ -> withdrawnWith i r.1 None (Some k) t) /\ (r.2 <> done_ -> someRefused t)).
Proof.
  intros Hin. eapply wp_mono; [|by apply (release_spec i i (Some k) i)]. cbv beta. intros t r (H1 & [Hu _] & H3 & H4).
  split; [done|]. split_and!; [done| |done]. intros Hd. by destruct (H3 Hd) as (_ & ? & ?).
Qed.

Lemma reconcileWithClient_deletes i k :
  deleting i = true -> endpointFinalizer ∈ Finalizers (ke_meta i) ->
  wp (reconcileWithClient i k) (fun t r =>
    ((endpointFinalizer ∉ Finalizers (ke_meta r.1)) <-> r.2 = done_) /\
    (r.2 = done_ -> exists os t0 t1, t = t0 ++ t1 /\ runs (GetAdminServiceClient k) t0 (Some os, noResult, None) /\
       withdrawnWith i r.1 (Some os) (Some k) t1) /\
    (r.2 <> done_ -> clientRefused k t \/ someRefused t \/ unknownInterface i)).
Proof.
  intros Hdel Hin. apply wp_runs. intros t r Hr. unfold reconcileWithClient in Hr. cbv zeta in Hr.
  apply runs_bind in Hr as (tc & td & [[os res] err] & -> & Hc & Hr).
  pose proof Hc as Hans. eapply runs_spec in Hans; [|apply GetAdminServiceClient_answers]. cbn in Hans. runs_norm Hr.
  destruct err as [e|].
  { destruct Hr as [-> <-]. split; [by split|]. split; [done|]. intros _. left. exists tc, os, res, e. split; [done|].
    set_solver. }
  destruct Hans as [-> [os' ->]]. rewrite decide_False in Hr by auto. cbv zeta in Hr.
  match type of Hr with context [deleting ?j] => change (deleting j) with (deleting i) in Hr; rewrite Hdel in Hr;
    assert (endpointFinalizer ∈ Finalizers (ke_meta j)) as Hinj by done end.
  eapply runs_spec in Hr; [|by apply reconcileDelete_spec]. destruct Hr as (H1 & _ & H3 & H4). split; [done|]. split.
  - intros Hd. exists os', tc, td. split; [done|]. split; [done|]. exact (H3 Hd).
  - intros Hd. right. destruct (H4 Hd) as [Hs|[_ Hu]]; [left; eapply someRefused_sub; [|exact Hs]; set_solver|by right].
Qed.

(** The paths of a deletion: Keystone is not needed, when no endpoint is on
    record or when the KeystoneAPI is missing or going away itself, or it is
    asked through a client of its KeystoneAPI. *)
Definition offline (i : KeystoneEndpoint) (ans : res (list KeystoneAPI)) : Prop :=
  kes_EndpointIDs (ke_status i) = ∅ \/ match ans with inr [k] => notDeleting (ka_meta k) = false | _ => False end.
Definition found (ans : res (list KeystoneAPI)) : option KeystoneAPI := match ans with inr [k] => Some k | _ => None end.

Lemma reconcileInstance_deletes i t i' r ans :
  deleting i = true -> endpointFinalizer ∈ Finalizers (ke_meta i) -> runs (reconcileInstance i) t (i', r) ->
  head t = Some (Ev (ListKeystoneAPIs (Namespace (ke_meta i)) ∅) ans) ->
  ((endpointFinalizer ∉ Finalizers (ke_meta i')) <-> r = done_) /\
  (offline i ans -> never isKeystone t) /\
  (r = done_ ->
     (offline i ans /\ withdrawnWith i i' None (found ans) (tail t)) \/
     (~ offline i ans /\ exists k os t0 t1, found ans = Some k /\ tail t = t0 ++ t1 /\
        runs (GetAdminServiceClient k) t0 (Some os, noResult, None) /\ withdrawnWith i i' (Some os) (Some k) t1)) /\
  (r <> done_ ->
     unreachable (~ offline i ans) t ans \/ someRefused t \/ (~ offline i ans /\ unknownInterface i)).
Proof.
  intros Hdel Hin Hr Hhd. set (ns := Namespace (ke_meta i)) in *. unfold reconcileInstance, GetKeystoneAPI in Hr. runs_norm Hr.
  destruct Hr as (ans' & t' & -> & Hr). apply (inj Some), Ev_inj in Hhd as ->. runs_norm Hr. fold ns in Hr |- *.
  cbv zeta in Hr. rewrite Hdel in Hr. cbn [andb] in Hr. set (ev := Ev (ListKeystoneAPIs ns ∅) ans). cbn [tail].
  set (outcome := _ /\ _ /\ _ /\ _).
  assert (forall j rr, ke_meta j = ke_meta i -> rr <> done_ -> t' = [] -> unreachable (~ offline i ans) (ev :: t') ans ->
    (j, rr) = (i', r) -> outcome) as Hwait.
  { intros j rr Hj Hrr -> Hout [= <- <-]. unfold outcome. rewrite Hj. split; [by split|].
    split; [by constructor|]. split; [done|]. by left. }
  assert (forall ok, offline i ans -> found ans = ok ->
    runs (reconcileDelete i None ok) t' (i', r) -> outcome) as Hoff.
  { intros ok Hid <- Ho. eapply runs_spec in Ho; [|by apply reconcileDelete_spec]. destruct Ho as (H1 & H2 & H3 & H4).
    specialize (H2 eq_refl). split; [done|]. split; [by constructor|]. split; [intros Hd; left; split; [done|by apply H3]|].
    intros Hd. right. left. destruct (H4 Hd) as [Hs|[? _]]; [eapply someRefused_sub; [|exact Hs]; set_solver|done]. }
  assert (kes_EndpointIDs (ke_status i) <> ∅ -> found ans = None -> ~ offline i ans) as Hneed.
  { intros Hids Hf [?|Hk]; [done|]. by destruct ans as [e|[|k [|? ?]]]. }
  destruct ans as [e|[|k [|k2 l]]].
  - destruct (IsNotFound e) eqn:He; [|destruct Hr as [? Hr]; by refine (Hwait _ _ _ _ _ _ Hr); [| | |left]].
    destruct (bool_decide_reflect (kes_EndpointIDs (ke_status i) = ∅)); [by eapply Hoff; [left| |]|].
    destruct Hr as [? Hr]. refine (Hwait _ _ _ _ _ _ Hr); [done..|]. right. by apply Hneed.
  - change (IsNotFound _) with true in Hr. cbv iota in Hr.
    destruct (bool_decide_reflect (kes_EndpointIDs (ke_status i) = ∅)); [by eapply Hoff; [left| |]|].
    destruct Hr as [? Hr]. refine (Hwait _ _ _ _ _ _ Hr); [done..|]. by apply Hneed.
  - destruct (notDeleting (ka_meta k)) eqn:Hk; cbn [negb] in Hr.
    2: { eapply runs_spec in Hr; [|by apply reconcileDeleteFinalizersOnly_spec]. destruct Hr as (H1 & H2 & H3 & H4).
         split; [done|]. split; [by constructor|]. split; [intros Hd; left; split; [by right|by apply H3]|].
         intros Hd. right. left. eapply someRefused_sub; [|by apply H4]. set_solver. }
    destruct (bool_decide_reflect (kes_EndpointIDs (ke_status i) = ∅)) as [|Hids]; [by eapply Hoff; [left| |]|].
    assert (~ offline i (inr [k])) as Hneeded by (intros [?|Hd]; [done|congruence]).
    destruct (KeystoneAPI_IsReady k) eqn:Hready; cbn [negb] in Hr.
    2: { destruct Hr as [? Hr]. refine (Hwait _ _ _ _ _ _ Hr); [done..|]. split; [done|]. split; [done|]. by left. }
    eapply runs_spec in Hr; [|by apply reconcileWithClient_deletes]. destruct Hr as (H1 & H2 & H3). split; [done|].
    split; [done|]. split.
    + intros Hd. right. destruct (H2 Hd) as (os & t0 & t1 & ? & ? & ?). split; [done|]. by exists k, os, t0, t1.
    + intros Hd. destruct (H3 Hd) as [Hc|[Hw|?]]; [left|right; left; eapply someRefused_sub; [|exact Hw];
        set_solver|by right; right].
      split; [done|]. split; [done|]. right. eapply clientRefused_sub; [|exact Hc]. set_solver.
  - destruct Hr as [? Hr]. by refine (Hwait _ _ _ _ _ _ Hr).
Qed.

(** C23. The deletion of a KeystoneEndpoint, on every path.  A reconcile of an
    endpoint that is being deleted gives up its finalizer exactly when it ends
    without an error or a requeue.  Then the KeystoneService, and the
    KeystoneAPI if there is one, no longer carry the endpoint's finalizer; and
    when endpoints are on record and the KeystoneAPI is there to stay, exactly
    the endpoints of the SPEC were deleted before that, in the order of their
    types and each deletion confirmed, with a client of that KeystoneAPI (an
    endpoint that only the status knows is not deleted).  Any failure keeps the
    finalizer, so that the deletion is tried again. *)
Theorem endpoint_deletion_releases_last i t i' r ans
    (Hdel : deleting i = true)
    (Hin : endpointFinalizer ∈ Finalizers (ke_meta i))
    (Hr : runs (reconcileInstance i) t (i', r))
    (Hhd : head t = Some (Ev (ListKeystoneAPIs (Namespace (ke_meta i)) ∅) ans)) :
  ((endpointFinalizer ∉ Finalizers (ke_meta i')) <-> r = done_) /\
  (r = done_ ->
     (offline i ans /\ withdrawnWith i i' None (found ans) (tail t)) \/
     (~ offline i ans /\ exists k os t0 t1, found ans = Some k /\ tail t = t0 ++ t1 /\
        runs (GetAdminServiceClient k) t0 (Some os, noResult, None) /\ withdrawnWith i i' (Some os) (Some k) t1)).
Proof. by destruct (reconcileInstance_deletes _ _ _ _ _ Hdel Hin Hr Hhd) as (? & _ & ? & _). Qed.

(** C30. The deletion of a KeystoneEndpoint does not get stuck.  With no
    endpoint on record (whether there is a KeystoneAPI or not), or with a
    KeystoneAPI that is being deleted too, no request reaches Keystone, and the
    endpoint gives up its own finalizer, and so is gone, unless the KeystoneAPI
    could not be looked up or a request to the API server was refused.  With
    endpoints on record and a KeystoneAPI to stay, it also needs a ready
    KeystoneAPI with a client, confirmed deletions, and interfaces in the spec
    that Keystone knows; nothing else keeps the finalizer. *)
Theorem reconcileInstance_deletes_offline i t i' r ans
    (Hdel : deleting i = true)
    (Hin : endpointFinalizer ∈ Finalizers (ke_meta i))
    (Hr : runs (reconcileInstance i) t (i', r))
    (Hhd : head t = Some (Ev (ListKeystoneAPIs (Namespace (ke_meta i)) ∅) ans)) :
  (offline i ans -> never isKeystone t /\
     ((r = done_ /\ endpointFinalizer ∉ Finalizers (ke_meta i')) \/ unreachable False t ans \/ someRefused t)) /\
  (~ offline i ans ->
     (r = done_ /\ endpointFinalizer ∉ Finalizers (ke_meta i')) \/
     unreachable True t ans \/ someRefused t \/ unknownInterface i).
Proof.
  destruct (reconcileInstance_deletes _ _ _ _ _ Hdel Hin Hr Hhd) as (Hiff & Hoff & _ & Hno).
  split; intros Ho; [split; [by apply Hoff|]|]; (destruct (decide (r = done_)) as [Hd|Hd]; [left; split;
    [done|by apply Hiff]|right]);
    destruct (Hno Hd) as [Hu|[Hs|[Hn Hi]]]; try done; auto.
  all: left; eapply unreachable_mono; [|exact Hu]; tauto.
Qed.
End deletion.
(** ** Reconcile: the deferred patch *)

Section reconcile.
Context `{CLaws : ConditionLaws} `{FL : FinalizerLib} `{XL : ExternalLib}.

Lemma deleteStale_avoids os types i : avoids isPatch (deleteStale os types i).
Proof. revert i; induction types as [|ty l IH]; intros i; cbn [deleteStale]; emits_go; auto. Qed.
Lemma createOrUpdate_avoids os types i : avoids isPatch (createOrUpdate os types i).
Proof.
  revert i; induction types as [|ty l IH]; intros i; cbn [createOrUpdate]; unfold registerEndpoint; emits_go; auto.
Qed.
Lemma deleteSpecEndpoints_avoids os types i : avoids isPatch (deleteSpecEndpoints os types i).
Proof. induction types as [|ty l IH]; cbn [deleteSpecEndpoints]; emits_go; auto. Qed.
Lemma releaseService_avoids i : avoids isPatch (releaseService i).
Proof. unfold releaseService. emits_go. Qed.
Lemma releaseAPI_avoids i k : avoids isPatch (releaseAPI i k).
Proof. unfold releaseAPI. emits_go. Qed.
#[local] Hint Resolve deleteStale_avoids createOrUpdate_avoids deleteSpecEndpoints_avoids
  releaseService_avoids releaseAPI_avoids : emits.

Lemma reconcileDelete_avoids i os ok : avoids isPatch (reconcileDelete i os ok).
Proof. unfold reconcileDelete. emits_go. Qed.
Lemma reconcileNormal_avoids i os k : avoids isPatch (reconcileNormal i os k).
Proof. unfold reconcileNormal, protectAPI, protectService, reconcileEndpoints. emits_go. Qed.
#[local] Hint Resolve reconcileDelete_avoids reconcileNormal_avoids : emits.

Lemma reconcileBody_avoids i : avoids isPatch (reconcileBody i).
Proof.
  unfold reconcileBody, reconcileInstance, reconcileWithClient, reconcileDeleteFinalizersOnly. emits_go.
Qed.

(** Every reconcile of an existing KeystoneEndpoint writes the instance
    back exactly once, as its last call, whichever branch it took: the
    written Ready condition is True exactly when all the others are, the
    catalogue condition included, and a failed write is what it returns. *)
Lemma Reconcile_patches_once ns name i t r :
  runs (Reconcile ns name) t r ->
  head t = Some (Ev (GetKeystoneEndpoint ns name) (inr i)) ->
  (exists e, r = failWith e /\ Ev NewHelper (Some e) ∈ t /\ never isPatch t) \/
  exists t0 o perr,
    t = t0 ++ [Ev (PatchKeystoneEndpoint o) perr] /\ never isPatch t0 /\
    condIsTrue ReadyCondition (kes_Conditions (ke_status o))
      = condAllSubConditionIsTrue (kes_Conditions (ke_status o)) /\
    (forall ty s, condIsTrue ReadyCondition (kes_Conditions (ke_status o)) = true -> ty ≠ ReadyCondition ->
      condStatus ty (kes_Conditions (ke_status o)) = Some s -> s = ConditionTrue) /\
    (perr ≠ None -> r.2 = perr).
Proof.
  intros (ans & t1 & -> & Hr) Hhd. apply (inj Some), Ev_inj in Hhd as ->.
  destruct Hr as (h & t2 & -> & Hr). destruct h as [e|].
  { destruct Hr as [-> <-]. left. exists e. split_and!; [done|set_solver|by repeat constructor]. }
  right. runs_norm Hr. apply runs_bind in Hr as (t3 & t4 & [j' [result err]] & -> & Hb & Hr). runs_norm Hr.
  destruct Hr as (perr & t5 & -> & [-> <-]).
  eapply avoids_runs in Hb; [|apply reconcileBody_avoids].
  eexists (_ :: _ :: t3), _, perr. split; [done|]. split; [by repeat constructor|].
  cbn [withCond ke_setStatus kes_setConditions ke_status kes_Conditions snd].
  assert (condIsTrue ReadyCondition (summarizeReady (kes_Conditions (ke_status j')))
    = condAllSubConditionIsTrue (summarizeReady (kes_Conditions (ke_status j')))) as Hready
    by (by rewrite summarizeReady_Ready, summarizeReady_AllSub).
  split_and!; [done| |by destruct perr].
  intros ty s Ht Hty Hs. rewrite Hready in Ht. by eapply condAllSub_true.
Qed.
End reconcile.

(** Keystone refuses to create the second endpoint. *)
Definition refuseCreate (X : Type) (c : Call X) (w : unit) : X * unit :=
  match c in Call X return X * unit with
  | OSCreateEndpoint _ e => (if decide (ose_Availability e = "public") then inl unavailable else inr "id-1", w)
  | c => demoHandler _ c w
  end.

Lemma reconcileEndpoints_preserves_wf_witness :
  let r := resultWith refuseCreate (reconcileEndpoints 0%nat demoEndpoint) in
  r.2 = Some unavailable /\ kes_Endpoints (ke_status r.1) = [mkEndpoint "internal" "http://internal" "id-1"] /\
  wfStatus (ke_status r.1).
Proof.
  split; [vm_compute; reflexivity|]. split; [vm_compute; reflexivity|].
  eapply reconcileEndpoints_preserves_wf; [exact demoEndpoint_wf|].
  apply (runsWith_snd refuseCreate _ (Some unavailable)). vm_compute. reflexivity.
Defined.

(** One registered endpoint, in sync with the catalogue. *)
Definition syncedEndpoint : KeystoneEndpoint :=
  mkKeystoneEndpoint (newMeta "keystone" "openstack") (mkEndpointSpec "keystone" {[ "public" := "http://public" ]})
    (mkEndpointStatus {[ "public" := "id-1" ]} "service-id" (Some []) [mkEndpoint "public" "http://public" "id-1"] 0).
Definition syncedHandler (X : Type) (c : Call X) (w : unit) : X * unit :=
  match c in Call X return X * unit with
  | OSGetEndpoints _ _ _ => (inr [mkRegEndpoint "id-1" "keystone" "service-id" "http://public"], w)
  | c => demoHandler _ c w
  end.

Lemma reconcileEndpoints_steady_witness :
  (resultWith syncedHandler (reconcileEndpoints 0%nat syncedEndpoint)).1 = syncedEndpoint.
Proof.
  eapply (reconcileEndpoints_steady 0%nat syncedEndpoint); [| | | |apply (runsWith_snd syncedHandler _ None); vm_compute;
    reflexivity].
  - split; [vm_compute; repeat constructor; set_solver|]. intros ty id. simpl.
    rewrite lookup_singleton_Some. split; [intros [<- <-]; exists "http://public"; by left|].
    intros [url Hin]. apply list_elem_of_singleton in Hin. by injection Hin as -> _ ->.
  - intros ty. simpl. by rewrite !lookup_singleton_is_Some.
  - intros e He. apply list_elem_of_singleton in He as ->. reflexivity.
  - vm_compute. repeat constructor. eexists. repeat split; reflexivity.
Defined.

Lemma reconcileNormal_protects_first_witness :
  let t := demoTrace (reconcileNormal demoEndpoint 0%nat demoAPI) in
  length t = 8%nat /\ serviceProtected demoEndpoint (take 3 t).
Proof.
  split; [vm_compute; reflexivity|].
  eapply (reconcileNormal_protects_first demoEndpoint 0%nat demoAPI); [apply demo_runs|vm_compute; reflexivity|reflexivity].
Defined.

Definition deletingEndpoint : KeystoneEndpoint :=
  ke_setMeta (deletingMeta "keystone" "openstack" ["openstack.org/KeystoneEndpoint"]) demoEndpoint.

Lemma endpoint_deletion_releases_last_witness :
  let p := reconcileInstance deletingEndpoint in
  (demoResult p).2 = done_ /\ ~ (endpointFinalizer ∈ Finalizers (ke_meta (demoResult p).1)) /\
  exists k os t0 t1, tail (demoTrace p) = t0 ++ t1 /\ withdrawnWith deletingEndpoint (demoResult p).1 (Some os) (Some k) t1.
Proof.
  cbv zeta. assert ((demoResult (reconcileInstance deletingEndpoint)).2 = done_) as Hd by (vm_compute; reflexivity).
  destruct (endpoint_deletion_releases_last deletingEndpoint (demoTrace (reconcileInstance deletingEndpoint))
    (demoResult (reconcileInstance deletingEndpoint)).1 (demoResult (reconcileInstance deletingEndpoint)).2 (inr [demoAPI]))
    as (Hiff & Hdone); [reflexivity|left|rewrite <- surjective_pairing; apply demo_runs|reflexivity|].
  split; [exact Hd|]. split; [by apply Hiff|].
  destruct (Hdone Hd) as [[[Hids|Hk] _]|(_ & k & os & t0 & t1 & _ & Ht & _ & Hw)]; [discriminate|discriminate|].
  exists k, os, t0, t1. split; [exact Ht|exact Hw].
Defined.

Definition unregisteredEndpoint : KeystoneEndpoint :=
  ke_setStatus (kes_setIDs ∅ (ke_status deletingEndpoint)) deletingEndpoint.

Lemma reconcileInstance_deletes_offline_witness :
  let p := reconcileInstance unregisteredEndpoint in
  (demoResult p).2 = done_ /\ never isKeystone (demoTrace p).
Proof.
  cbv zeta. split; [vm_compute; reflexivity|].
  destruct (reconcileInstance_deletes_offline unregisteredEndpoint (demoTrace (reconcileInstance unregisteredEndpoint))
    (demoResult (reconcileInstance unregisteredEndpoint)).1 (demoResult (reconcileInstance unregisteredEndpoint)).2 (inr [demoAPI]))
    as (Hoff & _); [reflexivity|left|rewrite <- surjective_pairing; apply demo_runs|reflexivity|].
  apply Hoff. left. reflexivity.
Defined.

Lemma Reconcile_patches_once_demo :
  (exists e, demoResult (Reconcile "openstack" "keystone") = failWith e) \/
  exists t0 o perr, demoTrace (Reconcile "openstack" "keystone") = t0 ++ [Ev (PatchKeystoneEndpoint o) perr].
Proof.
  destruct (Reconcile_patches_once "openstack" "keystone" demoEndpoint _ _ (demo_runs _))
    as [(e & He & _)|(t0 & o & perr & Ht & _)]; [reflexivity|left; by exists e|right; by exists t0, o, perr].
Defined.
