(* ===== verification/ServiceController.v ===== *)
(** The KeystoneService controller
    (internal/controller/keystoneservice_controller.go): it registers a service
    and its user in Keystone, records the service ID, and removes both when the
    KeystoneService is deleted. *)
From S2P Require Import Prelude Effects GoTime Api Conditions Instances Calls External Demo Protection KeystoneClient.

Section operations.
Context `{CL : ConditionLib} `{FL : FinalizerLib} `{XL : ExternalLib}.

Definition serviceFinalizer : string := helperFinalizer "KeystoneService".
Definition svcConsumerFinalizer (i : KeystoneService) : string :=
  serviceFinalizer +:+ "-" +:+ Name (ks_meta i).

Definition svcCond (f : Conditions -> Conditions) (i : KeystoneService) : KeystoneService :=
  ks_setConditions (f (ks_Conditions (ks_status i))) i.
Definition svcFalse (t reason severity fmt : string) (args : list string) : KeystoneService -> KeystoneService :=
  svcCond (condSet (Some (FalseCondition t reason severity fmt args))).
Definition svcTrue (t fmt : string) (args : list string) : KeystoneService -> KeystoneService :=
  svcCond (condMarkTrue t fmt args).

(** ** reconcileService *)

(** The service the spec asks for. *)
Definition desiredService (i : KeystoneService) : OSService :=
  mkOSService (ks_ServiceName (ks_spec i)) (ks_ServiceType (ks_spec i))
    (ks_ServiceDescription (ks_spec i)) (ks_Enabled (ks_spec i)).

(** [service.Enabled != spec.Enabled || service.Extra["description"] != spec.ServiceDescription]:
    a description that was never set is not the empty string. *)
Definition serviceDiffers (s : RegisteredService) (i : KeystoneService) : bool :=
  negb (eqb (rs_Enabled s) (ks_Enabled (ks_spec i))) ||
  negb (bool_decide (rs_Extra s !! "description" = Some (ks_ServiceDescription (ks_spec i)))).

(** Create the service, or adopt it and update what differs. *)
Definition registerService (i : KeystoneService) (os : OSClient) (service : option RegisteredService)
  : program (KeystoneService * option GoError) :=
  match service with
  | None =>
      '(id, err) ← call (OSCreateService os (desiredService i));
      mret (ks_setServiceID id i, err)
  | Some s =>
      let i := ks_setServiceID (rs_ID s) i in
      if serviceDiffers s i then
        err ← call (OSUpdateService os (desiredService i) (rs_ID s));
        mret (i, err)
      else mret (i, None)
  end.

Definition reconcileService (i : KeystoneService) (os : OSClient) : program (KeystoneService * option GoError) :=
  '(service, err) ← call (OSGetService os (ks_ServiceType (ks_spec i)) (ks_ServiceName (ks_spec i)));
  match err with
  | Some e =>
      if negb (Contains (Error e) ServiceNotFound) then mret (i, Some e)
      else registerService i os service
  | None => registerService i os service
  end.

(** ** reconcileUser *)

Definition roleNames : list string := ["admin"; "service"].

(** Create the roles and assign them to the user; the error to return, if any. *)
Fixpoint assignRoles (os : OSClient) (roles : list string) (userID projectID : string)
  : program (option GoError) :=
  match roles with
  | [] => mret None
  | roleName :: rest =>
      r ← call (OSCreateRole os roleName);
      match r with
      | inl e => mret (Some e)
      | inr _ =>
          err ← call (OSAssignUserRole os roleName userID projectID);
          match err with
          | Some e => mret (Some e)
          | None => assignRoles os rest userID projectID
          end
      end
  end.

Definition serviceProject : OSProject := mkOSProject "service" "service" "default".
Definition serviceUser (i : KeystoneService) (password projectID : string) : OSUser :=
  mkOSUser (ks_ServiceUser (ks_spec i)) password projectID "default".

Definition reconcileUser (i : KeystoneService) (os : OSClient) : program ret :=
  '(password, ctrlResult, err) ←
    call (GetDataFromSecret (ks_Secret (ks_spec i)) (10 * second) (ks_PasswordSelector (ks_spec i)));
  match err with
  | Some e => mret (failWith e)
  | None =>
      if decide (ctrlResult ≠ noResult) then mret (ctrlResult, None)
      else
        p ← call (OSCreateProject os serviceProject);
        match p with
        | inl e => mret (failWith e)
        | inr serviceProjectID =>
            u ← call (OSCreateUser os (serviceUser i password serviceProjectID));
            match u with
            | inl e => mret (failWith e)
            | inr userID =>
                err ← assignRoles os roleNames userID serviceProjectID;
                mret match err with Some e => failWith e | None => done_ end
            end
        end
  end.

(** ** reconcileNormal *)

Definition reconcileNormal (i : KeystoneService) (os : OSClient) (keystoneAPI : KeystoneAPI)
  : program (KeystoneService * ret) :=
  err ← addAPIFinalizer (svcConsumerFinalizer i) keystoneAPI;
  match err with
  | Some e => mret (i, failWith e)
  | None =>
      '(i, err) ← reconcileService i os;
      match err with
      | Some e =>
          mret (svcFalse KeystoneServiceOSServiceReadyCondition ErrorReason SeverityWarning
                  KeystoneServiceOSServiceReadyErrorMessage [Error e] i, failWith e)
      | None =>
          let i := svcTrue KeystoneServiceOSServiceReadyCondition KeystoneServiceOSServiceReadyMessage
                     [ks_ServiceName (ks_spec i); ks_ServiceID (ks_status i)] i in
          '(ctrlResult, err) ← reconcileUser i os;
          match err with
          | Some e =>
              mret (svcFalse KeystoneServiceOSUserReadyCondition ErrorReason SeverityWarning
                      KeystoneServiceOSUserReadyErrorMessage [Error e] i, (ctrlResult, Some e))
          | None =>
              if decide (ctrlResult ≠ noResult) then
                mret (svcFalse KeystoneServiceOSUserReadyCondition RequestedReason SeverityInfo
                        KeystoneServiceOSUserReadyWaitingMessage [] i, (ctrlResult, None))
              else
                mret (svcTrue KeystoneServiceOSUserReadyCondition KeystoneServiceOSUserReadyMessage
                        [ks_ServiceUser (ks_spec i)] i, done_)
          end
      end
  end.

(** ** reconcileDelete *)

Definition svcDropFinalizer (i : KeystoneService) : KeystoneService :=
  ks_setFinalizers (RemoveFinalizer serviceFinalizer (Finalizers (ks_meta i))).1 i.

(** Delete the user and the service that were registered; then the ID is
    forgotten. *)
Definition deregister (i : KeystoneService) (os : option OSClient) : program (KeystoneService * option GoError) :=
  match os with
  | Some os =>
      if decide (ks_ServiceID (ks_status i) ≠ "") then
        err ← call (OSDeleteUser os (ks_ServiceUser (ks_spec i)) "default");
        match err with
        | Some e => mret (i, Some e)
        | None =>
            err ← call (OSDeleteService os (ks_ServiceID (ks_status i)));
            match err with
            | Some e => mret (i, Some e)
            | None => mret (ks_setServiceID "" i, None)
            end
        end
      else mret (i, None)
  | None => mret (i, None)
  end.

Definition reconcileDelete (i : KeystoneService) (os : option OSClient) (keystoneAPI : option KeystoneAPI)
  : program (KeystoneService * ret) :=
  '(i, err) ← deregister i os;
  match err with
  | Some e => mret (i, failWith e)
  | None =>
      err ← (match keystoneAPI with
             | Some k => removeAPIFinalizer (svcConsumerFinalizer i) k
             | None => mret None
             end);
      match err with
      | Some e => mret (i, failWith e)
      | None => mret (svcDropFinalizer i, done_)
      end
  end.

Definition reconcileDeleteFinalizersOnly (i : KeystoneService) (keystoneAPI : KeystoneAPI)
  : program (KeystoneService * ret) :=
  err ← removeAPIFinalizer (svcConsumerFinalizer i) keystoneAPI;
  match err with
  | Some e => mret (i, failWith e)
  | None => mret (svcDropFinalizer i, done_)
  end.

(** ** Reconcile *)

Definition initConditions : Conditions :=
  CreateList
    [UnknownCondition KeystoneAPIReadyCondition InitReason KeystoneAPIReadyInitMessage;
     UnknownCondition AdminServiceClientReadyCondition InitReason AdminServiceClientReadyInitMessage;
     UnknownCondition KeystoneServiceOSServiceReadyCondition InitReason KeystoneServiceOSServiceReadyInitMessage;
     UnknownCondition KeystoneServiceOSUserReadyCondition InitReason KeystoneServiceOSUserReadyInitMessage].

Definition deleting (i : KeystoneService) : bool := negb (notDeleting (ks_meta i)).

Definition reconcileWithClient (i : KeystoneService) (keystoneAPI : KeystoneAPI)
  : program (KeystoneService * ret) :=
  let i := svcTrue KeystoneAPIReadyCondition KeystoneAPIReadyMessage [] i in
  '(os, ctrlResult, err) ← GetAdminServiceClient keystoneAPI;
  match err with
  | Some e =>
      mret (svcFalse AdminServiceClientReadyCondition ErrorReason SeverityWarning
              AdminServiceClientReadyErrorMessage [Error e] i, failWith e)
  | None =>
      if decide (ctrlResult ≠ noResult) then
        mret (svcFalse AdminServiceClientReadyCondition RequestedReason SeverityInfo
                AdminServiceClientReadyWaitingMessage [] i, (ctrlResult, None))
      else
        let i := svcTrue AdminServiceClientReadyCondition AdminServiceClientReadyMessage [] i in
        if deleting i then reconcileDelete i os (Some keystoneAPI)
        else match os with
             | Some os => reconcileNormal i os keystoneAPI
             | None => mret (i, failWith (errorf "nil client")) (* not reached: GetScopedClient_spec *)
             end
  end.

Definition reconcileInstance (i : KeystoneService) : program (KeystoneService * ret) :=
  let noID := bool_decide (ks_ServiceID (ks_status i) = "") in
  k ← GetKeystoneAPI (Namespace (ks_meta i)) ∅;
  match k with
  | inl e =>
      if IsNotFound e then
        if deleting i && noID then reconcileDelete i None None
        else mret (svcFalse KeystoneAPIReadyCondition ErrorReason SeverityWarning
                     KeystoneAPIReadyNotFoundMessage [] i, requeue (5 * second))
      else mret (svcFalse KeystoneAPIReadyCondition ErrorReason SeverityWarning
                   KeystoneAPIReadyErrorMessage [Error e] i, failWith e)
  | inr keystoneAPI =>
      if deleting i && negb (notDeleting (ka_meta keystoneAPI)) then
        reconcileDeleteFinalizersOnly i keystoneAPI
      else if deleting i && noID then reconcileDelete i None (Some keystoneAPI)
      else if negb (KeystoneAPI_IsReady keystoneAPI) then
        mret (svcFalse KeystoneAPIReadyCondition RequestedReason SeverityInfo
                KeystoneAPIReadyWaitingMessage [] i, requeue (5 * second))
      else reconcileWithClient i keystoneAPI
  end.

Definition reconcileBody (i : KeystoneService) : program (KeystoneService * ret) :=
  match ks_Conditions (ks_status i) with
  | None => mret (svcCond (fun _ => condInit initConditions (Some [])) i, done_)
  | Some _ =>
      let '(fs, added) := AddFinalizer serviceFinalizer (Finalizers (ks_meta i)) in
      if notDeleting (ks_meta i) && added then mret (ks_setFinalizers fs i, done_)
      else reconcileInstance i
  end.

Definition Reconcile (ns name : string) : program ret :=
  r ← call (GetKeystoneService ns name);
  match r with
  | inl e => mret (if IsNotFound e then done_ else failWith e)
  | inr i =>
      h ← call NewHelper;
      match h with
      | Some e => mret (failWith e)
      | None =>
          '(i, (result, err)) ← reconcileBody i;
          let i := svcCond summarizeReady i in
          perr ← call (PatchKeystoneService i);
          mret (result, match perr with Some e => Some e | None => err end)
      end
  end.
End operations.

(** ** Registration *)

Section registration.
Context `{XL : ExternalLib}.

(** A successful [reconcileService] asks Keystone once and writes at most
    once: it creates the service when there is none, adopts the existing one
    (its ID, nothing else of the instance changes) and updates it exactly
    when the enabled flag or the description differ from the spec. *)
Lemma reconcileService_converges i os t i' :
  runs (reconcileService i os) t (i', None) ->
  exists service err,
    head t = Some (Ev (OSGetService os (ks_ServiceType (ks_spec i)) (ks_ServiceName (ks_spec i))) (service, err)) /\
    i' = ks_setServiceID (ks_ServiceID (ks_status i')) i /\
    match service with
    | None => tail t = [Ev (OSCreateService os (desiredService i)) (ks_ServiceID (ks_status i'), None)]
    | Some s =>
        ks_ServiceID (ks_status i') = rs_ID s /\
        tail t = if serviceDiffers s i then [Ev (OSUpdateService os (desiredService i) (rs_ID s)) None] else []
    end.
Proof.
  intros ([service err] & t' & -> & Hr). runs_norm Hr. exists service, err. split; [done|].
  assert (runs (registerService i os service) t' (i', None)) as Hreg.
  { destruct err as [e|]; [|done]. case_match; [by destruct Hr|done]. }
  clear Hr. destruct service as [s|]; simpl in Hreg.
  - destruct (serviceDiffers s (ks_setServiceID (rs_ID s) i)) eqn:Hd.
    + change (serviceDiffers s i = true) in Hd.
      destruct Hreg as (err' & t'' & -> & -> & [= <- ->]). cbn [tail]. by rewrite Hd.
    + change (serviceDiffers s i = false) in Hd.
      destruct Hreg as [-> [= <-]]. cbn [tail]. by rewrite Hd.
  - destruct Hreg as ([id err'] & t'' & -> & -> & [= <- ->]). done.
Qed.

(** A successful [reconcileUser] leaves the service user able to log in
    to the service project: with the password the secret holds, the project,
    the user, and for each of the admin and service roles the role and then
    its assignment to that user in that project, in this order, each of them
    confirmed by Keystone. *)
Lemma reconcileUser_provisions i os t :
  runs (reconcileUser i os) t done_ ->
  exists password projectID userID r1 r2,
    t = [Ev (GetDataFromSecret (ks_Secret (ks_spec i)) (10 * second) (ks_PasswordSelector (ks_spec i)))
           (password, noResult, None);
         Ev (OSCreateProject os serviceProject) (inr projectID);
         Ev (OSCreateUser os (serviceUser i password projectID)) (inr userID);
         Ev (OSCreateRole os "admin") (inr r1);
         Ev (OSAssignUserRole os "admin" userID projectID) None;
         Ev (OSCreateRole os "service") (inr r2);
         Ev (OSAssignUserRole os "service" userID projectID) None].
Proof.
  intros ([[pw res] err] & t1 & -> & Hr). runs_norm Hr. destruct err as [e|]; [by destruct Hr|].
  destruct (decide (res ≠ noResult)) as [Hres|Hres]; [by destruct Hr as [_ [= ->]]|].
  apply dec_stable in Hres as ->.
  destruct Hr as ([e|pid] & t2 & -> & Hr); runs_norm Hr; [by destruct Hr|].
  destruct Hr as ([e|uid] & t3 & -> & Hr); runs_norm Hr; [by destruct Hr|].
  apply runs_bind in Hr as (t4 & t5 & err & -> & Ha & [-> Hd]). destruct err as [e|]; [done|].
  simpl in Ha.
  destruct Ha as ([e|r1] & t6 & -> & Ha); runs_norm Ha; [by destruct Ha|].
  destruct Ha as ([e|] & t7 & -> & Ha); runs_norm Ha; [by destruct Ha|].
  destruct Ha as ([e|r2] & t8 & -> & Ha); runs_norm Ha; [by destruct Ha|].
  destruct Ha as ([e|] & t9 & -> & Ha); runs_norm Ha; [by destruct Ha|].
  destruct Ha as [-> _]. by exists pw, pid, uid, r1, r2.
Qed.

End registration.

(** ** Ordering and reporting *)

Section normal.
Context `{CLaws : ConditionLaws} `{FLaws : FinalizerLaws} `{XL : ExternalLib}.

(** No request reaches Keystone before the KeystoneAPI carries the
    service's finalizer: at any Keystone call of [reconcileNormal] the
    finalizer was on the KeystoneAPI read, or an update adding it succeeded. *)
Theorem reconcileNormal_protects_api i os k t r t1 ev t2 :
  runs (reconcileNormal i os k) t r -> t = t1 ++ ev :: t2 -> evIs isKeystone ev = true ->
  apiProtected (svcConsumerFinalizer i) k t1.
Proof.
  intros Hr -> Hev. apply runs_bind in Hr as (ta & tb & err & Heq & Ha & Hr).
  eapply runs_spec in Ha; [|apply addAPIFinalizer_spec]. destruct Ha as [[Hna _] Ha].
  symmetry in Heq. apply (event_after (fun ev => evIs isKeystone ev = true)) in Heq as (t1' & -> & ->); [| |done].
  - destruct err as [e|]; [by destruct Hr as [Hr _]; destruct t1'|].
    eapply apiProtected_sub; [|by apply Ha]. set_solver.
  - eapply Forall_impl; [exact Hna|]. intros x Hx. by rewrite Hx.
Qed.

Definition svcStatus (ty : string) (i : KeystoneService) : option string :=
  condStatus ty (ks_Conditions (ks_status i)).

Lemma svcStatus_True ty f a i ty' :
  svcStatus ty' (svcTrue ty f a i) = if decide (ty' = ty) then Some ConditionTrue else svcStatus ty' i.
Proof. apply condMarkTrue_status. Qed.
Lemma svcStatus_False ty r s f a i ty' :
  svcStatus ty' (svcFalse ty r s f a i) = if decide (ty' = ty) then Some ConditionFalse else svcStatus ty' i.
Proof. unfold svcStatus, svcFalse. simpl. by rewrite condSet_status, FalseCondition_type, FalseCondition_status. Qed.

(** C36. What the conditions tell of a [reconcileNormal], and what they do not.
    Success leaves the service and the user condition True; waiting for the
    secret leaves the service condition True and the user condition False; an
    error in Keystone shows as the service condition False, or as the service
    condition True and the user condition False.  The one error that no
    condition shows is that of the very first request, the update that puts the
    finalizer on the KeystoneAPI: it is returned, and the instance is as it was. *)
Theorem reconcileNormal_reports i os k t i' res err :
  runs (reconcileNormal i os k) t (i', (res, err)) ->
  match err with
  | None =>
      svcStatus KeystoneServiceOSServiceReadyCondition i' = Some ConditionTrue /\
      svcStatus KeystoneServiceOSUserReadyCondition i'
        = Some (if decide (res = noResult) then ConditionTrue else ConditionFalse)
  | Some e =>
      svcStatus KeystoneServiceOSServiceReadyCondition i' = Some ConditionFalse \/
      (svcStatus KeystoneServiceOSServiceReadyCondition i' = Some ConditionTrue /\
       svcStatus KeystoneServiceOSUserReadyCondition i' = Some ConditionFalse) \/
      (i' = i /\ exists o, t = [Ev (UpdateKeystoneAPI o) (Some e)])
  end.
Proof.
  intros Hr. apply runs_bind in Hr as (ta & tb & e1 & -> & Ha & Hr).
  destruct e1 as [e|].
  { destruct Hr as [-> [= <- <- <-]]. right; right. rewrite app_nil_r. split; [done|]. unfold addAPIFinalizer in Ha.
    destruct (AddFinalizer _ _) as [fs []]; [|by destruct Ha]. destruct Ha as (x & t' & -> & -> & ->). by eexists. }
  apply runs_bind in Hr as (tc & td & [i1 e2] & -> & _ & Hr).
  destruct e2 as [e|].
  { destruct Hr as [-> [= <- <- <-]]. left. rewrite svcStatus_False. by rewrite decide_True. }
  runs_norm Hr. apply runs_bind in Hr as (te & tf & [res' e3] & -> & _ & Hr).
  destruct e3 as [e|].
  { destruct Hr as [-> [= <- <- <-]]. right; left. rewrite !svcStatus_False, svcStatus_True. done. }
  destruct (decide (res' ≠ noResult)) as [Hres|Hres].
  - destruct Hr as [-> [= <- <- <-]]. rewrite !svcStatus_False, !svcStatus_True.
    destruct (decide (res' = noResult)); [done|]. split; reflexivity.
  - destruct Hr as [-> [= <- <- <-]]. rewrite !svcStatus_True. split; reflexivity.
Qed.
End normal.

(** ** Deletion *)

Section deletion.
Context `{CL : ConditionLib} `{FLaws : FinalizerLaws} `{XL : ExternalLib}.

(** What [deregister] did when it reports no error. *)
Definition deregistered (i : KeystoneService) (os : OSClient) (t : trace) : Prop :=
  t = if decide (ks_ServiceID (ks_status i) ≠ "")
      then [Ev (OSDeleteUser os (ks_ServiceUser (ks_spec i)) "default") None;
            Ev (OSDeleteService os (ks_ServiceID (ks_status i))) None]
      else [].

Lemma deregister_spec i os :
  wp (deregister i (Some os)) (fun t r =>
    ks_meta r.1 = ks_meta i /\
    match r.2 with
    | None => deregistered i os t /\ ks_ServiceID (ks_status r.1) = ""
    | Some _ => r.1 = i
    end).
Proof.
  unfold deregister, deregistered. case_decide as Hid; wp_norm; [|done].
  intros [e|]; wp_norm; [done|]. intros [e|]; by wp_norm.
Qed.

(** An error is one of Keystone's. *)
Lemma deregister_refused i os : wp (deregister i os) (fun t r => r.2 <> None -> someRefused t).
Proof.
  unfold deregister. destruct os as [os|]; [|by intros []]. case_decide; wp_norm; [|by intros []]. intros [e|]; wp_norm.
  { intros _. eexists. split; [left|done]. }
  intros [e|]; wp_norm; [|by intros []]. intros _. eexists. split; [right; left|done].
Qed.

(** What a [reconcileDelete] does with or without a client and a KeystoneAPI. *)
Lemma svc_reconcileDelete_spec i os ok :
  serviceFinalizer ∈ Finalizers (ks_meta i) ->
  wp (reconcileDelete i os ok) (fun t r =>
    (serviceFinalizer ∉ Finalizers (ks_meta r.1) <-> r.2 = done_) /\
    (os = None -> never isKeystone t) /\
    (r.2 = done_ ->
      (forall k, ok = Some k -> apiReleased (svcConsumerFinalizer i) k t) /\
      forall os', os = Some os' -> ks_ServiceID (ks_status r.1) = "" /\
        exists t1 t2, t = t1 ++ t2 /\ deregistered i os' t1 /\ updatesOnly t2) /\
    (r.2 <> done_ -> someRefused t)).
Proof.
  intros Hin. unfold reconcileDelete. apply wp_bind.
  assert (wp (deregister i os) (fun t r => ks_meta r.1 = ks_meta i /\ (os = None -> t = []) /\
    match r.2 with
    | None => forall os', os = Some os' -> deregistered i os' t /\ ks_ServiceID (ks_status r.1) = ""
    | Some _ => someRefused t
    end)) as Hde.
  { pose proof (deregister_refused i os) as Href. destruct os as [os|]; [|by split_and!].
    eapply wp_mono; [|exact (wp_conj _ _ _ Href (deregister_spec i os))]. cbv beta. intros t r (H1 & H2 & H3).
    split_and!; [done..|]. destruct r.2; [by apply H1|]. by intros os' [= <-]. }
  eapply wp_mono; [|exact Hde]. cbv beta. intros t1 [i1 [e|]] (Hm & Hn & H1); cbn [fst snd] in *; wp_norm.
  { rewrite Hm, app_nil_r. split; [by split|]. split_and!; [intros ->%Hn; apply Forall_nil_2|done|done]. }
  assert (svcConsumerFinalizer i1 = svcConsumerFinalizer i) as Hf by (unfold svcConsumerFinalizer; by rewrite Hm).
  apply wp_bind.
  assert (wp (match ok with Some k => removeAPIFinalizer (svcConsumerFinalizer i1) k | None => mret None end) (fun t err =>
    updatesOnly t /\ match err with
                     | None => forall k, ok = Some k -> apiReleased (svcConsumerFinalizer i) k t
                     | Some _ => someRefused t
                     end)) as Hrel.
  { rewrite Hf. destruct ok as [k|]; [|by split; [by split; constructor|]].
    eapply wp_mono; [|exact (wp_conj _ _ _ (removeAPIFinalizer_spec (svcConsumerFinalizer i) k)
      (removeAPIFinalizer_refused (svcConsumerFinalizer i) k))]. cbv beta. intros t err [[H2 H3] H4]. split; [done|].
    destruct err; [by apply H4|]. intros k' [= <-]. by apply H3. }
  eapply wp_mono; [|exact Hrel]. cbv beta. intros t2 [e|] [Hu H2]; wp_norm; rewrite app_nil_r.
  - rewrite Hm. split; [by split|]. split_and!; [intros ->%Hn; apply Hu|done|]. intros _.
    eapply someRefused_sub; [|exact H2]. set_solver.
  - split; [|split_and!; [intros ->%Hn; apply Hu| |done]].
    + split; [done|]. intros _. simpl. rewrite RemoveFinalizer_elem. by intros [].
    + intros _. split.
      * intros k Hk. eapply apiReleased_sub; [|by apply H2]. set_solver.
      * intros os' Hos. destruct (H1 os' Hos) as [? ?]. split; [done|]. by exists t1, t2.
Qed.
Lemma svc_reconcileDeleteFinalizersOnly_spec i k :
  serviceFinalizer ∈ Finalizers (ks_meta i) ->
  wp (reconcileDeleteFinalizersOnly i k) (fun t r =>
    (serviceFinalizer ∉ Finalizers (ks_meta r.1) <-> r.2 = done_) /\ never isKeystone t /\
    (r.2 = done_ -> apiReleased (svcConsumerFinalizer i) k t) /\ (r.2 <> done_ -> someRefused t)).
Proof.
  intros Hin. unfold reconcileDeleteFinalizersOnly. apply wp_bind.
  eapply wp_mono; [|exact (wp_conj _ _ _ (removeAPIFinalizer_spec (svcConsumerFinalizer i) k)
    (removeAPIFinalizer_refused (svcConsumerFinalizer i) k))].
  cbv beta. intros t [e|] [[[Hn _] H1] H2]; wp_norm; rewrite app_nil_r.
  - split; [by split|]. split_and!; [done|done|]. intros _. by apply H2.
  - split; [|by split_and!; [done|intros _; apply H1|]]. split; [done|]. intros _. simpl. rewrite RemoveFinalizer_elem.
    by intros [].
Qed.

(** What the deletion had to do: nothing in Keystone, when no service was ever
    on record or Keystone is missing or going away itself; else to have deleted
    the user and then the service with a client of that KeystoneAPI. *)
Definition withdrawn (i i' : KeystoneService) (ans : res (list KeystoneAPI)) (t : trace) : Prop :=
  match ans with
  | inr [k] =>
      apiReleased (svcConsumerFinalizer i) k t /\
      if decide (ks_ServiceID (ks_status i) = "" \/ notDeleting (ka_meta k) = false) then never isKeystone t
      else ks_ServiceID (ks_status i') = "" /\ exists os t0 t1 t2,
        t = Ev (ListKeystoneAPIs (Namespace (ks_meta i)) ∅) ans :: t0 ++ t1 ++ t2 /\
        runs (GetAdminServiceClient k) t0 (Some os, noResult, None) /\ deregistered i os t1 /\ updatesOnly t2
  | _ => ks_ServiceID (ks_status i) = "" /\ never isKeystone t
  end.

Lemma svc_reconcileWithClient_deletes i k :
  deleting i = true -> serviceFinalizer ∈ Finalizers (ks_meta i) ->
  wp (reconcileWithClient i k) (fun t r =>
    (serviceFinalizer ∉ Finalizers (ks_meta r.1) <-> r.2 = done_) /\
    (r.2 = done_ -> apiReleased (svcConsumerFinalizer i) k t /\ ks_ServiceID (ks_status r.1) = "" /\
       exists os t0 t1 t2, t = t0 ++ t1 ++ t2 /\
         runs (GetAdminServiceClient k) t0 (Some os, noResult, None) /\ deregistered i os t1 /\ updatesOnly t2) /\
    (r.2 <> done_ -> clientRefused k t \/ someRefused t)).
Proof.
  intros Hdel Hin. apply wp_runs. intros t r Hr. unfold reconcileWithClient in Hr. cbv zeta in Hr.
  apply runs_bind in Hr as (tc & td & [[os res] err] & -> & Hc & Hr).
  pose proof Hc as Hans. eapply runs_spec in Hans; [|apply GetAdminServiceClient_answers]. cbn in Hans. runs_norm Hr.
  destruct err as [e|].
  { destruct Hr as [-> <-]. split; [by split|]. split; [done|]. intros _. left. exists tc, os, res, e. split; [done|].
    set_solver. }
  destruct Hans as [-> [os' ->]]. rewrite decide_False in Hr by auto. cbv zeta in Hr.
  match type of Hr with context [deleting ?j] => change (deleting j) with (deleting i) in Hr; rewrite Hdel in Hr;
    assert (serviceFinalizer ∈ Finalizers (ks_meta j)) as Hinj by done end.
  eapply runs_spec in Hr; [|by apply svc_reconcileDelete_spec]. destruct Hr as (H1 & _ & H3 & H4). split; [done|]. split.
  - intros Hd. destruct (H3 Hd) as [Ha Hde]. destruct (Hde os' eq_refl) as (Hi & t1 & t2 & -> & Ht1 & Ht2).
    split; [eapply apiReleased_sub; [|by apply Ha]; set_solver|]. split; [done|]. by exists os', tc, t1, t2.
  - intros Hd. right. eapply someRefused_sub; [|by apply H4]. set_solver.
Qed.

(** C22. The deletion of a KeystoneService, on every path.  A reconcile of a
    service that is being deleted gives up the finalizer exactly when it ends
    without an error or a requeue; then the KeystoneAPI, if there is one, no
    longer carries the service's finalizer, and in Keystone the user and, after
    it, the service on record were deleted and nothing else was asked but for
    the client's login, and the ID is forgotten.  Keystone is not asked at all
    when no service is on record, or when the KeystoneAPI is missing or being
    deleted too.  And nothing else keeps the finalizer: it is only kept when
    Keystone was needed and out of reach, or a write was refused. *)
Theorem service_deletion_releases_last i t i' r
    (Hdel : deleting i = true)
    (Hin : serviceFinalizer ∈ Finalizers (ks_meta i))
    (Hr : runs (reconcileInstance i) t (i', r)) :
  exists ans, head t = Some (Ev (ListKeystoneAPIs (Namespace (ks_meta i)) ∅) ans) /\
    (serviceFinalizer ∉ Finalizers (ks_meta i') <-> r = done_) /\
    (r = done_ -> withdrawn i i' ans t) /\
    (r <> done_ -> outOfReach (Namespace (ks_meta i)) (ks_ServiceID (ks_status i) <> "") t \/ someRefused t).
Proof.
  set (ns := Namespace (ks_meta i)) in *. unfold reconcileInstance, GetKeystoneAPI in Hr. runs_norm Hr.
  destruct Hr as (ans & t' & -> & Hr). runs_norm Hr. fold ns in Hr |- *. set (ev := Ev (ListKeystoneAPIs ns ∅) ans).
  rewrite Hdel in Hr. cbn [andb] in Hr. exists ans. split; [done|].
  set (outcome := fun t =>
    (serviceFinalizer ∉ Finalizers (ks_meta i') <-> r = done_) /\ (r = done_ -> withdrawn i i' ans t) /\
    (r <> done_ -> outOfReach ns (ks_ServiceID (ks_status i) <> "") t \/ someRefused t)).
  change (outcome (ev :: t')).
  assert (forall j rr, ks_meta j = ks_meta i -> rr <> done_ -> unreachable (ks_ServiceID (ks_status i) <> "") (ev :: t') ans ->
    (j, rr) = (i', r) -> outcome (ev :: t')) as Hwait.
  { intros j rr Hj Hrr Hout [= <- <-]. rewrite <- Hj in Hin. split; [by split|]. split; [done|]. left. by exists ans. }
  assert (forall ok, ks_ServiceID (ks_status i) = "" -> match ans with inr [k] => ok = Some k | _ => ok = None end ->
    runs (reconcileDelete i None ok) t' (i', r) -> outcome (ev :: t')) as Hoffline.
  { intros ok Hid Hok Ho. eapply runs_spec in Ho; [|by apply svc_reconcileDelete_spec]. destruct Ho as (H1 & H2 & H3 & H4).
    specialize (H2 eq_refl). split; [done|]. split.
    - intros Hd. destruct (H3 Hd) as [Ha _]. unfold withdrawn. destruct ans as [e|[|k [|]]]; try by split; [|constructor].
      rewrite decide_True by tauto. split; [|by constructor]. eapply apiReleased_sub; [|by apply Ha]. set_solver.
    - intros Hd. right. eapply someRefused_sub; [|by apply H4]. set_solver. }
  destruct ans as [e|[|k [|k2 l]]].
  - destruct (IsNotFound e) eqn:He; [|by refine (Hwait _ _ _ _ _ (proj2 Hr)); [| |left]].
    destruct (bool_decide_reflect (ks_ServiceID (ks_status i) = "")); [by eapply Hoffline|].
    by refine (Hwait _ _ _ _ _ (proj2 Hr)); [| |right].
  - change (IsNotFound _) with true in Hr. cbv iota in Hr.
    destruct (bool_decide_reflect (ks_ServiceID (ks_status i) = "")); [by eapply Hoffline|].
    by refine (Hwait _ _ _ _ _ (proj2 Hr)).
  - destruct (notDeleting (ka_meta k)) eqn:Hk; cbn [negb] in Hr.
    2: { eapply runs_spec in Hr; [|by apply svc_reconcileDeleteFinalizersOnly_spec]. destruct Hr as (H1 & H2 & H3 & H4).
         split; [done|]. split.
         - intros Hd. unfold withdrawn. rewrite decide_True by tauto. split; [|by constructor].
           eapply apiReleased_sub; [|by apply H3]. set_solver.
         - intros Hd. right. eapply someRefused_sub; [|by apply H4]. set_solver. }
    destruct (bool_decide_reflect (ks_ServiceID (ks_status i) = "")) as [|Hid]; [by eapply Hoffline|].
    destruct (KeystoneAPI_IsReady k) eqn:Hready; cbn [negb] in Hr.
    2: { refine (Hwait _ _ _ _ _ (proj2 Hr)); [done|done|]. unfold unreachable. split; [done|]. split; [done|]. left.
    exact Hready. }
    eapply runs_spec in Hr; [|by apply svc_reconcileWithClient_deletes]. destruct Hr as (H1 & H2 & H3). split; [done|]. split.
    + intros Hd. destruct (H2 Hd) as (Ha & Hi & os & t0 & t1 & t2 & -> & Hcall).
      unfold withdrawn. rewrite decide_False by (rewrite Hk; by intros [|]). split; [|split; [done|by exists os, t0, t1, t2]].
      eapply apiReleased_sub; [|exact Ha]. set_solver.
    + intros Hd. destruct (H3 Hd) as [Hc|Hw]; [left|right; eapply someRefused_sub; [|exact Hw]; set_solver].
      eexists. split; [done|]. split; [done|]. split; [done|]. right. eapply clientRefused_sub; [|exact Hc]. set_solver.
  - by refine (Hwait _ _ _ _ _ (proj2 Hr)).
Qed.
End deletion.

(** ** Witnesses *)

Definition demoUserService : KeystoneService :=
  mkService (newMeta "nova" "openstack")
    (mkServiceSpec "compute" "nova" "Compute" true "nova" "osp-secret" "NovaPassword")
    (mkServiceStatus "" (Some [])).

Lemma reconcileUser_provisions_demo :
  exists password projectID userID,
    password = "pw" /\
    Ev (OSCreateUser 0%nat (serviceUser demoUserService password projectID)) (inr userID)
      ∈ demoTrace (reconcileUser demoUserService 0%nat).
Proof.
  destruct (reconcileUser_provisions demoUserService 0%nat (demoTrace (reconcileUser demoUserService 0%nat)))
    as (pw & pid & uid & r1 & r2 & Ht).
  - exact (demo_runs (reconcileUser demoUserService 0%nat)).
  - exists "pw", pid, uid. split; [reflexivity|]. rewrite Ht.
    assert (pw = "pw") as ->; [|set_solver].
    apply (f_equal head), (inj Some), Ev_inj in Ht. by injection Ht.
Defined.

Lemma reconcileNormal_protects_api_witness :
  let t := demoTrace (reconcileNormal demoUserService 0%nat demoAPI) in
  length t = 10%nat /\ apiProtected (svcConsumerFinalizer demoUserService) demoAPI (take 1 t).
Proof.
  split; [vm_compute; reflexivity|].
  eapply (reconcileNormal_protects_api demoUserService 0%nat demoAPI);
    [apply demo_runs|vm_compute; reflexivity|reflexivity].
Defined.

Lemma reconcileNormal_reports_witness :
  let r := demoResult (reconcileNormal demoUserService 0%nat demoAPI) in
  r.2 = done_ /\ svcStatus KeystoneServiceOSUserReadyCondition r.1 = Some ConditionTrue.
Proof.
  split; [vm_compute; reflexivity|].
  apply (reconcileNormal_reports demoUserService 0%nat demoAPI
    (demoTrace (reconcileNormal demoUserService 0%nat demoAPI)) _ noResult None).
  apply (demo_snd _ (noResult, None)). vm_compute. reflexivity.
Defined.

Definition deletingService : KeystoneService :=
  ks_setMeta (deletingMeta "nova" "openstack" ["openstack.org/KeystoneService"]) (ks_setServiceID "svc-1" demoUserService).

Lemma service_deletion_releases_last_witness :
  let p := reconcileInstance deletingService in
  (demoResult p).2 = done_ /\ ~ (serviceFinalizer ∈ Finalizers (ks_meta (demoResult p).1)) /\
  exists k, withdrawn deletingService (demoResult p).1 (inr [k]) (demoTrace p).
Proof.
  cbv zeta. assert ((demoResult (reconcileInstance deletingService)).2 = done_) as Hd by (vm_compute; reflexivity).
  destruct (service_deletion_releases_last deletingService (demoTrace (reconcileInstance deletingService))
    (demoResult (reconcileInstance deletingService)).1 (demoResult (reconcileInstance deletingService)).2)
    as (ans & Hans & Hiff & Hdone & _); [reflexivity|left|rewrite <- surjective_pairing; apply demo_runs|].
  split; [exact Hd|]. split; [by apply Hiff|]. exists demoAPI.
  assert (ans = inr [demoAPI]) as <-; [|exact (Hdone Hd)].
  apply (inj Some), Ev_inj in Hans. symmetry. exact Hans.
Defined.
