(* ===== verification/ACController.v ===== *)
(** The KeystoneApplicationCredential controller
    (internal/controller/keystoneapplicationcredential_controller.go): it
    creates an application credential in Keystone with an immutable secret,
    rotates it before it expires or when its security fields change, and revokes
    the rotated credentials nobody uses any more. *)
From S2P Require Import Prelude Effects GoTime Api Conditions Instances Calls External Demo Protection KeystoneClient.

Definition acSecretFinalizer : string := "openstack.org/ac-secret-protection".
Definition finalizer : string := "openstack.org/applicationcredential".

(** The labels of an application credential secret. *)
Definition acLabels (serviceName : string) : gmap string string :=
  {[ "application-credentials" := "true"; "application-credential-service" := serviceName ]}.

(** The [%d] verb of a machine integer. *)
Definition fmtD (z : Z) : string := pretty z.

(** [acSecretName]: [ac-<service>-<first 5 of the ID>-secret]. *)
Definition acSecretName (serviceName acID : string) : string :=
  "ac-" +:+ serviceName +:+ "-" +:+ take_str 5 acID +:+ "-secret".

(** [hasConsumerFinalizer] *)
Definition hasConsumerFinalizer (s : Secret) : bool :=
  existsb (fun f => HasPrefix f "openstack.org/" && HasSuffix f "-ac-consumer") (Finalizers (s_meta s)).

(** The ID a secret stores; a missing key reads as the empty string. *)
Definition secretACID (s : Secret) : string := default "" (s_Data s !! ACIDSecretKey).

Section operations.
Context `{CL : ConditionLib} `{FL : FinalizerLib} `{XL : ExternalLib}.

Definition acCond (f : Conditions -> Conditions) (i : KeystoneApplicationCredential) : KeystoneApplicationCredential :=
  ac_setStatus (acs_setConditions (f (acs_Conditions (ac_status i))) (ac_status i)) i.
Definition acFalse (t reason severity fmt : string) (args : list string)
  : KeystoneApplicationCredential -> KeystoneApplicationCredential :=
  acCond (condSet (Some (FalseCondition t reason severity fmt args))).
Definition acTrue (t fmt : string) : KeystoneApplicationCredential -> KeystoneApplicationCredential :=
  acCond (condMarkTrue t fmt []).
(** The error condition of a failed creation or rotation. *)
Definition acError (msg : string) : KeystoneApplicationCredential -> KeystoneApplicationCredential :=
  acFalse KeystoneApplicationCredentialReadyCondition ErrorReason SeverityWarning
    KeystoneApplicationCredentialReadyErrorMessage [msg].

(** ** Rotation decision *)

(** [keystone.ComputeSecurityHash] *)
Definition ComputeSecurityHash (spec : KeystoneApplicationCredentialSpec) : res string :=
  ObjectHashSecurity (ac_Roles spec, ac_AccessRules spec, ac_Unrestricted spec).

(** [-time.Duration(GracePeriodDays) * 24 * time.Hour], as needsRotation writes it *)
Definition negGrace (spec : KeystoneApplicationCredentialSpec) : Z :=
  durationOfDays (wrap64 (- ac_GracePeriodDays spec)).
(** [-graceDuration], as reconcileNormal writes it *)
Definition negGraceDuration (spec : KeystoneApplicationCredentialSpec) : Z :=
  wrap64 (- durationOfDays (ac_GracePeriodDays spec)).

Definition needsRotation (ac : KeystoneApplicationCredential) : program (res (bool * string)) :=
  let st := ac_status ac in
  if decide (acs_ACID st = "") then mret (inr (true, "ApplicationCredential does not exist, creating"))
  else
    match ComputeSecurityHash (ac_spec ac) with
    | inl e => mret (inl (wrapErr "failed to compute security hash" e))
    | inr currentSecurityHash =>
        if decide (acs_SecurityHash st ≠ "" /\ currentSecurityHash ≠ acs_SecurityHash st) then
          mret (inr (true, "Security fields changed, rotating"))
        else
          match acs_ExpiresAt st with
          | Some expiry =>
              if timeIsZero (Some expiry) then mret (inr (false, ""))
              else
                now ← call Now;
                if timeAfter now (timeAdd expiry (negGrace (ac_spec ac)))
                then mret (inr (true, "ApplicationCredential is within grace period, rotating"))
                else mret (inr (false, ""))
          | None => mret (inr (false, ""))
          end
    end.

(** ** Keystone operations *)

Definition getUserIDFromToken (os : OSClient) (username : string) : program (res string) :=
  u ← call (TokenExtractUser os);
  mret match u with
  | inl e => inl (wrapErr ("failed to extract user " +:+ username +:+ " from token") e)
  | inr id => if decide (id = "") then inl (errorf ("not found: user ID for user " +:+ username)) else inr id
  end.

Definition createACWithName (os : OSClient) (userID : string) (ac : KeystoneApplicationCredential) (newACName : string)
  : program (res CreatedAC) :=
  let spec := ac_spec ac in
  expires ← (if (0 <? ac_ExpirationDays spec)%Z then
               now ← call Now;
               mret (Some (timeAdd now (durationOfDays (ac_ExpirationDays spec))))
             else mret None);
  created ← call (ACCreate os userID {|
    aco_Name := newACName;
    aco_Description := "Created by keystone-operator for AC CR " +:+ Namespace (ac_meta ac) +:+ "/"
      +:+ Name (ac_meta ac) +:+ " (user: " +:+ ac_UserName spec +:+ ")";
    aco_Unrestricted := ac_Unrestricted spec;
    aco_Roles := ac_Roles spec;
    aco_AccessRules := ac_AccessRules spec;
    aco_ExpiresAt := expires
  |});
  mret match created with
  | inl e => inl (wrapErr ("failed to create ApplicationCredential for user " +:+ ac_UserName spec) e)
  | inr c => inr c
  end.

(** [revokeKeystoneAC]: a credential that is already gone is not an error. *)
Definition revokeKeystoneAC (os : OSClient) (userID acID : string) : program (option GoError) :=
  err ← call (ACDelete os userID acID);
  mret match err with
  | Some e =>
      if ResponseCodeIs e 404 then None
      else Some (wrapErr ("failed to revoke application credential " +:+ acID +:+ " in Keystone") e)
  | None => None
  end.

(** ** Secrets *)

Definition newACSecret (ac : KeystoneApplicationCredential) (newID newSecret : string) : Secret :=
  let serviceName := GetServiceNameFromACCR (Name (ac_meta ac)) in
  mkSecret
    (mkMeta (acSecretName serviceName newID) (Namespace (ac_meta ac)) 0 [acSecretFinalizer]
       (acLabels serviceName) ∅ None)
    (Some true) {[ ACIDSecretKey := newID; ACSecretSecretKey := newSecret ]}.

Definition createImmutableACSecret (ac : KeystoneApplicationCredential) (newID newSecret : string)
  : program (res string) :=
  let secret := newACSecret ac newID newSecret in
  let secretName := s_Name secret in
  err ← call (SetControllerReference (ac_meta ac) secret);
  match err with
  | Some e => mret (inl (wrapErr ("failed to set controller reference on AC secret " +:+ secretName) e))
  | None =>
      err ← call (CreateSecret secret);
      match err with
      | Some e =>
          if IsAlreadyExists e then
            existing ← call (LibGetSecret (Namespace (ac_meta ac)) secretName);
            mret match existing with
            | inl getErr =>
                inl (wrapErr ("AC secret " +:+ secretName +:+ " already exists but failed to fetch for validation") getErr)
            | inr (existing, _) =>
                let existingACID := secretACID existing in
                if decide (existingACID ≠ newID) then
                  inl (errorf ("AC secret already exists with a different ACID: secret=" +:+ secretName
                    +:+ " existingACID=" +:+ existingACID +:+ " expectedACID=" +:+ newID))
                else inr secretName
            end
          else mret (inl (wrapErr ("failed to create immutable AC secret " +:+ secretName) e))
      | None => mret (inr secretName)
      end
  end.

(** [ensureServiceLabel]: label an old secret so that label queries find it
    (the API server answers a secret without labels with a nil map). *)
Definition ensureServiceLabel (secretName namespace serviceName : string) : program (option GoError) :=
  s ← call (GetSecret namespace secretName);
  match s with
  | inl e => mret (if IsNotFound e then None else Some e)
  | inr secret =>
      let labels := Labels (s_meta secret) in
      if decide (labels ≠ ∅ /\ default "" (labels !! "application-credential-service") = serviceName) then mret None
      else call (UpdateSecret (setSecretMeta
             (setLabels (<["application-credential-service" := serviceName]> labels) (s_meta secret)) secret))
  end.

(** The two secrets of the status, labelled; failures are logged only. *)
Fixpoint ensureServiceLabels (names : list string) (namespace serviceName : string) : program unit :=
  match names with
  | [] => mret tt
  | sn :: rest =>
      if decide (sn = "") then ensureServiceLabels rest namespace serviceName
      else
        _ ← ensureServiceLabel sn namespace serviceName;
        ensureServiceLabels rest namespace serviceName
  end.
Definition statusSecrets (i : KeystoneApplicationCredential) : list string :=
  [acs_SecretName (ac_status i); acs_PreviousSecretName (ac_status i)].

(** [if controllerutil.RemoveFinalizer(s, acSecretFinalizer) { Update(ctx, s) }] *)
Definition unprotectSecret (s : Secret) : program (Secret * option GoError) :=
  let '(fs, changed) := RemoveFinalizer acSecretFinalizer (Finalizers (s_meta s)) in
  let s := setSecretMeta (setFinalizers fs (s_meta s)) s in
  if changed then err ← call (UpdateSecret s); mret (s, err) else mret (s, None).

(** ** Cleanup of the rotated secrets nobody uses *)

(** A secret the cleanup must leave alone. *)
Definition inUse (i : KeystoneApplicationCredential) (s : Secret) : bool :=
  bool_decide (s_Name s = acs_SecretName (ac_status i)) ||
  bool_decide (s_Name s = acs_PreviousSecretName (ac_status i)) || hasConsumerFinalizer s.

(** Revoke, unprotect and delete one secret. *)
Definition cleanupSecret (os : option OSClient) (userID : string) (s : Secret) : program (option GoError) :=
  let acID := secretACID s in
  err ← (match os with
         | Some os => if decide (acID = "") then mret None else revokeKeystoneAC os userID acID
         | None => mret None
         end);
  match err with
  | Some e => mret (Some e)
  | None =>
      '(s, err) ← unprotectSecret s;
      match err with
      | Some e => mret (Some (wrapErr ("failed to remove protection finalizer from " +:+ s_Name s) e))
      | None =>
          err ← call (DeleteSecret s);
          mret match err with
          | Some e => if IsNotFound e then None else Some (wrapErr ("failed to delete AC secret " +:+ s_Name s) e)
          | None => None
          end
      end
  end.

Fixpoint cleanupSecrets (os : option OSClient) (userID : string) (i : KeystoneApplicationCredential)
    (items : list Secret) : program (option GoError) :=
  match items with
  | [] => mret None
  | s :: rest =>
      if inUse i s then cleanupSecrets os userID i rest
      else
        err ← cleanupSecret os userID s;
        match err with
        | Some e => mret (Some e)
        | None => cleanupSecrets os userID i rest
        end
  end.

Definition cleanupUnusedRotatedSecrets (i : KeystoneApplicationCredential) (os : option OSClient) (userID : string)
  : program (option GoError) :=
  let serviceName := GetServiceNameFromACCR (Name (ac_meta i)) in
  inSync ← (if IsEDPMService i then
              r ← call (AreSecretHashesInSync (Namespace (ac_meta i)));
              mret match r with inl _ => false | inr (inSync, _) => inSync end
            else mret true);
  if negb inSync then mret None
  else
    secretList ← call (ListSecrets (Namespace (ac_meta i)) (acLabels serviceName));
    match secretList with
    | inl e => mret (Some e)
    | inr items => cleanupSecrets os userID i items
    end.

(** ** Creation and rotation *)

(** The status of a new credential: the previous secret is remembered when
    this is a rotation. *)
Definition recordCredential (isRotation : bool) (created : CreatedAC) (secretName : string) (createdAt : Z)
    (i : KeystoneApplicationCredential) : KeystoneApplicationCredential :=
  let st := ac_status i in
  let expiresAt := cac_ExpiresAt created in
  ac_setStatus
    (mkACStatus (cac_ID created) secretName
       (if isRotation && negb (bool_decide (acs_SecretName st = "")) then acs_SecretName st
        else acs_PreviousSecretName st)
       (acs_Conditions st) (Some createdAt) (Some expiresAt)
       (Some (timeAdd expiresAt (negGraceDuration (ac_spec i))))
       (acs_LastRotated st) (acs_ObservedGeneration st) (acs_SecurityHash st)) i.

Definition setSecurityHash (h : string) (i : KeystoneApplicationCredential) : KeystoneApplicationCredential :=
  let st := ac_status i in
  ac_setStatus (mkACStatus (acs_ACID st) (acs_SecretName st) (acs_PreviousSecretName st) (acs_Conditions st)
    (acs_CreatedAt st) (acs_ExpiresAt st) (acs_RotationEligibleAt st) (acs_LastRotated st)
    (acs_ObservedGeneration st) h) i.

(** The event that announces a rotation. *)
Definition rotatedMessage (i : KeystoneApplicationCredential) (expiresAt : Z) (previousExpiresAt : string) : string :=
  "Rotated credentials for user " +:+ ac_UserName (ac_spec i) +:+ ". New expiration: " +:+ formatRFC3339 expiresAt
  +:+ ", next rotation eligible: " +:+ formatRFC3339 (timeAdd expiresAt (negGraceDuration (ac_spec i)))
  +:+ " (grace period: " +:+ fmtD (ac_GracePeriodDays (ac_spec i)) +:+ " days). Previous credential expires: "
  +:+ previousExpiresAt.

(** After the secret is stored: the status, the hash, the event. *)
Definition finishRotation (i : KeystoneApplicationCredential) (created : CreatedAC) (secretName : string)
  : program (KeystoneApplicationCredential * ret) :=
  let isRotation := negb (bool_decide (acs_ACID (ac_status i) = "")) in
  let previousExpiresAt :=
    match acs_ExpiresAt (ac_status i) with
    | Some t => if isRotation then formatRFC3339 t else ""
    | None => ""
    end in
  createdAt ← call Now;
  let i := recordCredential isRotation created secretName createdAt i in
  match ComputeSecurityHash (ac_spec i) with
  | inl e => mret (i, failWith (wrapErr "failed to compute security hash" e))
  | inr securityHash =>
      let i := setSecurityHash securityHash i in
      let i := acTrue KeystoneApplicationCredentialReadyCondition KeystoneApplicationCredentialReadyMessage i in
      if isRotation then
        now ← call Now;
        let i := ac_setStatus (acs_setLastRotated (Some now) (ac_status i)) i in
        _ ← call (EmitEvent "ApplicationCredentialRotated"
               (rotatedMessage i (cac_ExpiresAt created) previousExpiresAt));
        mret (i, requeue (10 * second))
      else mret (i, requeue (10 * second))
  end.

(** Create the credential and its secret; a credential whose secret cannot be
    stored is revoked again (a failed revocation is logged only). *)
Definition createCredential (i : KeystoneApplicationCredential) (os : OSClient)
  : program (KeystoneApplicationCredential * ret) :=
  u ← getUserIDFromToken os (ac_UserName (ac_spec i));
  match u with
  | inl e => mret (acError ("Failed to get user ID from token: " +:+ Error e) i, failWith e)
  | inr userID =>
      suffix ← call (RandString 5);
      c ← createACWithName os userID i (Name (ac_meta i) +:+ "-" +:+ suffix);
      match c with
      | inl e => mret (acError ("Failed to create ApplicationCredential: " +:+ Error e) i, failWith e)
      | inr created =>
          s ← createImmutableACSecret i (cac_ID created) (cac_Secret created);
          match s with
          | inl e =>
              _ ← revokeKeystoneAC os userID (cac_ID created);
              mret (acError ("Failed to create AC secret: " +:+ Error e) i, failWith e)
          | inr secretName => finishRotation i created secretName
          end
      end
  end.

Definition rotate (i : KeystoneApplicationCredential) (keystoneAPI : KeystoneAPI)
  : program (KeystoneApplicationCredential * ret) :=
  '(userOS, userRes, userErr) ←
    GetUserServiceClient keystoneAPI (ac_UserName (ac_spec i)) (ac_Secret (ac_spec i)) (ac_PasswordSelector (ac_spec i));
  match userErr with
  | Some e => mret (acError (Error e) i, (userRes, Some e))
  | None =>
      if decide (userRes ≠ noResult) then
        mret (acFalse KeystoneApplicationCredentialReadyCondition RequestedReason SeverityInfo
                KeystoneApplicationCredentialWaitingMessage [ac_Secret (ac_spec i)] i, (userRes, None))
      else match userOS with
           | Some os => createCredential i os
           | None => mret (i, failWith (errorf "nil client")) (* not reached: GetScopedClient_spec *)
           end
  end.

(** ** The steady state *)

(** Best-effort cleanup: whatever fails here is logged only. *)
Definition tryCleanup (i : KeystoneApplicationCredential) (keystoneAPI : KeystoneAPI) : program unit :=
  '(userOS, userRes, userErr) ←
    GetUserServiceClient keystoneAPI (ac_UserName (ac_spec i)) (ac_Secret (ac_spec i)) (ac_PasswordSelector (ac_spec i));
  match userErr, userOS with
  | None, Some os =>
      if decide (userRes ≠ noResult) then mret tt
      else
        u ← getUserIDFromToken os (ac_UserName (ac_spec i));
        match u with
        | inl _ => mret tt
        | inr userID => _ ← cleanupUnusedRotatedSecrets i (Some os) userID; mret tt
        end
  | _, _ => mret tt
  end.

(** [RotationEligibleAt] follows the grace period. *)
Definition refreshEligible (i : KeystoneApplicationCredential) : KeystoneApplicationCredential :=
  match acs_ExpiresAt (ac_status i) with
  | Some expiresAt =>
      ac_setStatus (acs_setRotationEligibleAt (Some (timeAdd expiresAt (negGraceDuration (ac_spec i)))) (ac_status i)) i
  | None => i
  end.

Definition keepCredential (i : KeystoneApplicationCredential) (keystoneAPI : KeystoneAPI)
  : program (KeystoneApplicationCredential * ret) :=
  let serviceName := GetServiceNameFromACCR (Name (ac_meta i)) in
  _ ← ensureServiceLabels (statusSecrets i) (Namespace (ac_meta i)) serviceName;
  let i := refreshEligible i in
  _ ← tryCleanup i keystoneAPI;
  mret (acTrue KeystoneApplicationCredentialReadyCondition KeystoneApplicationCredentialReadyMessage i, done_).

Definition reconcileNormal (i : KeystoneApplicationCredential) (keystoneAPI : KeystoneAPI)
  : program (KeystoneApplicationCredential * ret) :=
  d ← needsRotation i;
  match d with
  | inl e => mret (i, failWith e)
  | inr (doRotate, _) =>
      (* a current secret that is gone is rotated too *)
      d ← (if decide (acs_SecretName (ac_status i) = "") then mret (inr doRotate)
           else
             s ← call (GetSecret (Namespace (ac_meta i)) (acs_SecretName (ac_status i)));
             mret match s with
             | inl e => if IsNotFound e then inr true else inl e
             | inr _ => inr doRotate
             end);
      match d with
      | inl e => mret (i, failWith e)
      | inr true => rotate i keystoneAPI
      | inr false => keepCredential i keystoneAPI
      end
  end.

(** ** Deletion *)

(** The client of the revocations, when Keystone can be reached. *)
Definition deleteClient (i : KeystoneApplicationCredential) (keystoneAPI : option KeystoneAPI)
  : program (option (OSClient * string)) :=
  match keystoneAPI with
  | None => mret None
  | Some k =>
      '(userOS, userRes, userErr) ←
        GetUserServiceClient k (ac_UserName (ac_spec i)) (ac_Secret (ac_spec i)) (ac_PasswordSelector (ac_spec i));
      match userErr, userOS with
      | None, Some os =>
          if decide (userRes ≠ noResult) then mret None
          else
            u ← getUserIDFromToken os (ac_UserName (ac_spec i));
            mret match u with inl _ => None | inr uid => Some (os, uid) end
      | _, _ => mret None
      end
  end.

(** One pass over the listed secrets: revoke each credential once, strip the
    protection finalizers. *)
Fixpoint releaseSecrets (c : option (OSClient * string)) (seen : gset string) (items : list Secret)
  : program (option GoError) :=
  match items with
  | [] => mret None
  | s :: rest =>
      let acID := secretACID s in
      seen ← (match c with
              | Some (os, userID) =>
                  if decide (acID ≠ "" /\ acID ∉ seen) then
                    _ ← revokeKeystoneAC os userID acID;
                    mret ({[acID]} ∪ seen)
                  else mret seen
              | None => mret seen
              end);
      '(_, err) ← unprotectSecret s;
      match err with
      | Some e => mret (Some e)
      | None => releaseSecrets c seen rest
      end
  end.

(** The secrets of the status that the label query did not list. *)
Fixpoint releaseStatusSecrets (processed : list string) (namespace : string) (names : list string)
  : program (option GoError) :=
  match names with
  | [] => mret None
  | sn :: rest =>
      if decide (sn = "" \/ sn ∈ processed) then releaseStatusSecrets processed namespace rest
      else
        r ← call (LibGetSecret namespace sn);
        match r with
        | inl e => if IsNotFound e then releaseStatusSecrets processed namespace rest else mret (Some e)
        | inr (fallbackSecret, _) =>
            '(_, err) ← unprotectSecret fallbackSecret;
            match err with
            | Some e => mret (Some e)
            | None => releaseStatusSecrets processed namespace rest
            end
        end
  end.

(** What follows the EDPM gate. *)
Definition deleteCredentials (i : KeystoneApplicationCredential) (keystoneAPI : option KeystoneAPI)
  : program (KeystoneApplicationCredential * ret) :=
  let ns := Namespace (ac_meta i) in
  let serviceName := GetServiceNameFromACCR (Name (ac_meta i)) in
  _ ← ensureServiceLabels (statusSecrets i) ns serviceName;
  secretList ← call (ListSecrets ns (acLabels serviceName));
  match secretList with
  | inl e => mret (i, failWith e)
  | inr items =>
      c ← deleteClient i keystoneAPI;
      err ← releaseSecrets c ∅ items;
      match err with
      | Some e => mret (i, failWith e)
      | None =>
          err ← releaseStatusSecrets (map s_Name items) ns (statusSecrets i);
          match err with
          | Some e => mret (i, failWith e)
          | None => mret (ac_setFinalizers (RemoveFinalizer finalizer (Finalizers (ac_meta i))).1 i, done_)
          end
      end
  end.

Definition reconcileDelete (i : KeystoneApplicationCredential) (keystoneAPI : option KeystoneAPI)
  : program (KeystoneApplicationCredential * ret) :=
  inSync ← (if IsEDPMService i then
              r ← call (AreSecretHashesInSync (Namespace (ac_meta i)));
              mret match r with inl _ => false | inr (inSync, _) => inSync end
            else mret true);
  if negb inSync then mret (i, requeue minute) else deleteCredentials i keystoneAPI.

(** ** Reconcile *)

Definition initConditions : Conditions :=
  CreateList
    [UnknownCondition KeystoneAPIReadyCondition InitReason KeystoneAPIReadyInitMessage;
     UnknownCondition KeystoneApplicationCredentialReadyCondition InitReason KeystoneApplicationCredentialReadyInitMessage;
     UnknownCondition ReadyCondition InitReason ReadyInitMessage].

Definition deleting (i : KeystoneApplicationCredential) : bool := negb (notDeleting (ac_meta i)).

Definition reconcileInstance (i : KeystoneApplicationCredential) : program (KeystoneApplicationCredential * ret) :=
  k ← GetKeystoneAPI (Namespace (ac_meta i)) ∅;
  match k with
  | inl e =>
      if IsNotFound e then
        if deleting i then reconcileDelete i None
        else mret (acFalse KeystoneAPIReadyCondition ErrorReason SeverityWarning
                     KeystoneAPIReadyNotFoundMessage [] i, requeue (5 * second))
      else mret (acFalse KeystoneAPIReadyCondition ErrorReason SeverityWarning
                   KeystoneAPIReadyErrorMessage [Error e] i, failWith e)
  | inr keystoneAPI =>
      if deleting i then reconcileDelete i (Some keystoneAPI)
      else if negb (KeystoneAPI_IsReady keystoneAPI) then
        mret (acFalse KeystoneAPIReadyCondition RequestedReason SeverityInfo
                KeystoneAPIReadyWaitingMessage [] i, requeue (5 * second))
      else reconcileNormal (acTrue KeystoneAPIReadyCondition KeystoneAPIReadyMessage i) keystoneAPI
  end.

(** From the condition init to the deferred patch. *)
Definition reconcileBody (i : KeystoneApplicationCredential) : program (KeystoneApplicationCredential * ret) :=
  let isNewInstance := bool_decide (acs_Conditions (ac_status i) = None) in
  let i := acCond (fun cs => condInit initConditions (Some (default [] cs))) i in
  let i := ac_setStatus (acs_setObservedGeneration (Generation (ac_meta i)) (ac_status i)) i in
  if notDeleting (ac_meta i) then
    let '(fs, added) := AddFinalizer finalizer (Finalizers (ac_meta i)) in
    let i := ac_setFinalizers fs i in
    if added || isNewInstance then mret (i, done_) else reconcileInstance i
  else reconcileInstance i.

(** The conditions the deferred function writes back. *)
Definition finalConditions (saved : Conditions) (i : KeystoneApplicationCredential) : KeystoneApplicationCredential :=
  if notDeleting (ac_meta i)
  then acCond (fun cs => RestoreLastTransitionTimes (summarizeReady cs) saved) i
  else i.

Definition Reconcile (ns name : string) : program ret :=
  r ← call (GetApplicationCredential ns name);
  match r with
  | inl e => mret (if IsNotFound e then done_ else failWith e)
  | inr i =>
      h ← call NewHelper;
      match h with
      | Some e => mret (failWith e)
      | None =>
          let saved := Some (default [] (acs_Conditions (ac_status i))) in
          '(i, (result, err)) ← reconcileBody i;
          perr ← call (PatchApplicationCredential (finalConditions saved i));
          mret (result, match perr with Some e => Some e | None => err end)
      end
  end.

(** [nodesetToACMapFunc]: every application credential of the NodeSet's namespace. *)
Definition nodesetToACMapFunc (ns : string) : program (list (string * string)) :=
  r ← call (ListApplicationCredentials ns);
  mret match r with
  | inl _ => []
  | inr acs => map (fun ac => (Name (ac_meta ac), Namespace (ac_meta ac))) acs
  end.
End operations.

(** ** The rotation decision *)

Section rotation_decision.
Context `{XL : ExternalLib}.

Lemma negGraceDuration_negGrace spec : negGraceDuration spec = negGrace spec.
Proof. unfold negGraceDuration, negGrace. by rewrite durationOfDays_opp. Qed.

(** The start of the grace window, as the status publishes it. *)
Definition eligibleAt (ac : KeystoneApplicationCredential) (expiry : Z) : Z :=
  timeAdd expiry (negGraceDuration (ac_spec ac)).

(** The recorded hash is not the hash of the spec. *)
Definition securityChanged (ac : KeystoneApplicationCredential) : Prop :=
  acs_SecurityHash (ac_status ac) <> "" /\
  exists h, ComputeSecurityHash (ac_spec ac) = inr h /\ h <> acs_SecurityHash (ac_status ac).

Lemma needsRotation_spec ac :
  wp (needsRotation ac) (fun t d =>
    match d with
    | inl _ => exists e, ComputeSecurityHash (ac_spec ac) = inl e
    | inr (b, _) => b = true <->
        acs_ACID (ac_status ac) = "" \/ securityChanged ac \/
        exists expiry now, acs_ExpiresAt (ac_status ac) = Some expiry /\ expiry <> zeroTime /\
          Ev Now now ∈ t /\ eligibleAt ac expiry < now
    end).
Proof.
  unfold needsRotation, securityChanged, eligibleAt. case_decide as Hid; wp_norm.
  { split; [by left|done]. }
  destruct (ComputeSecurityHash (ac_spec ac)) as [e|h] eqn:Hh; wp_norm; [by exists e|].
  case_decide as Hch; wp_norm.
  { split; [|done]. intros _. right; left. destruct Hch. split; [done|by exists h]. }
  assert (~ (acs_SecurityHash (ac_status ac) <> "" /\
    exists h0, @inr GoError string h = inr h0 /\ h0 <> acs_SecurityHash (ac_status ac))) as Hn.
  { intros (H1 & h0 & [= <-] & H2). by apply Hch. }
  destruct (acs_ExpiresAt (ac_status ac)) as [expiry|]; wp_norm.
  2: split; [done|]; intros [?|[?|(e & n & [=] & _)]]; done.
  unfold timeIsZero. case_bool_decide as Hz; wp_norm.
  { split; [done|]. intros [?|[?|(e & n & [= <-] & Hne & _)]]; done. }
  intros now. rewrite negGraceDuration_negGrace. unfold timeAfter.
  destruct (Z.ltb_spec (timeAdd expiry (negGrace (ac_spec ac))) now) as [Hlt|Hge]; wp_norm.
  - split; [|done]. intros _. right; right. exists expiry, now. split_and!; try done. left.
  - split; [done|]. intros [?|[?|(e & n & [= <-] & _ & Hin & Hlt)]]; [done|done|].
    apply list_elem_of_singleton in Hin. apply Ev_inj in Hin as ->. lia.
Qed.

(** C21. A credential is rotated exactly when there is none yet, when its
    security fields changed since the hash was recorded, or when the clock is
    past the RotationEligibleAt instant the status publishes.  The two int64
    computations of the grace period agree, overflow included. *)
Theorem needsRotation_iff ac t b msg :
  runs (needsRotation ac) t (inr (b, msg)) ->
  b = true <->
  acs_ACID (ac_status ac) = "" \/ securityChanged ac \/
  exists expiry now, acs_ExpiresAt (ac_status ac) = Some expiry /\ expiry <> zeroTime /\
    Ev Now now ∈ t /\ exists eligible,
      acs_RotationEligibleAt (ac_status (refreshEligible ac)) = Some eligible /\ eligible < now.
Proof.
  intros Hr. eapply runs_spec in Hr; [|apply needsRotation_spec]. simpl in Hr. rewrite Hr.
  unfold refreshEligible, eligibleAt. split; intros [?|[?|(expiry & now & He & Hz & Hin & H)]]; try tauto; right; right.
  - exists expiry, now. split_and!; try done. rewrite He. simpl. by eexists.
  - exists expiry, now. split_and!; try done. destruct H as (el & Hel & Hlt). rewrite He in Hel. simpl in Hel.
    by injection Hel as ->.
Qed.

(** The expiry Keystone is asked for, in a trace. *)
Definition requestedExpiry (t : trace) : list (option Z) :=
  omap (fun ev => match ev with Ev c _ => match c with ACCreate _ _ o => Some (aco_ExpiresAt o) | _ => None end end) t.
(** The instants the clock answered. *)
Definition clock (t : trace) : list Z :=
  omap (fun ev =>
    match ev with
    | Ev c x => match c in Call X return X -> option Z with Now => Some | _ => fun _ => None end x
    end) t.

Lemma createACWithName_spec os u ac n :
  wp (createACWithName os u ac n) (fun t r =>
    if (0 <? ac_ExpirationDays (ac_spec ac)) then
      exists now, clock t = [now] /\
        requestedExpiry t = [Some (timeAdd now (durationOfDays (ac_ExpirationDays (ac_spec ac))))]
    else clock t = [] /\ requestedExpiry t = [None]).
Proof.
  unfold createACWithName. destruct (0 <? _); wp_norm.
  - intros now. wp_norm. intros created. by exists now.
  - by intros created.
Qed.

(** C32. With a grace period smaller than the lifetime (as the CRD demands)
    and a lifetime within the range of a Go duration, a rotation settles: if
    Keystone grants the expiry it was asked for, the new credential is not
    rotated again for time reasons before [ExpirationDays - GracePeriodDays]
    whole days have passed. *)
Theorem rotation_settles os u ac n t1 c i h t2 b msg isRot sn at_ :
  0 < ac_GracePeriodDays (ac_spec ac) < ac_ExpirationDays (ac_spec ac) ->
  ac_ExpirationDays (ac_spec ac) <= maxDurationDays ->
  runs (createACWithName os u ac n) t1 (inr c) ->
  requestedExpiry t1 = [Some (cac_ExpiresAt c)] -> cac_ID c <> "" ->
  ComputeSecurityHash (ac_spec ac) = inr h ->
  i = setSecurityHash h (recordCredential isRot c sn at_ ac) ->
  runs (needsRotation i) t2 (inr (b, msg)) ->
  (forall created now, created ∈ clock t1 -> Ev Now now ∈ t2 ->
    now <= created + (ac_ExpirationDays (ac_spec ac) - ac_GracePeriodDays (ac_spec ac)) * day) ->
  b = false.
Proof.
  intros Hg Hmax Hr1 Hreq Hid Hh -> Hr2 Hnow.
  eapply runs_spec in Hr1; [|apply createACWithName_spec]. simpl in Hr1.
  rewrite (proj2 (Z.ltb_lt _ _)) in Hr1 by lia. destruct Hr1 as (t0 & Ht0 & He).
  rewrite Hreq in He. injection He as He.
  eapply runs_spec in Hr2; [|apply needsRotation_spec]. simpl in Hr2.
  apply not_true_iff_false. rewrite Hr2. unfold securityChanged, eligibleAt. simpl.
  intros [?|[(_ & h' & Hh' & Hne)|(expiry & now & [= <-] & _ & Hin & Hlt)]]; [done|congruence|].
  specialize (Hnow t0 now ltac:(rewrite Ht0; left) Hin). rewrite negGraceDuration_negGrace in Hlt.
  unfold negGrace, timeAdd in Hlt. rewrite durationOfDays_opp, He in Hlt. unfold timeAdd in Hlt.
  rewrite (durationOfDays_exact (ac_ExpirationDays _)), (durationOfDays_exact (ac_GracePeriodDays _)) in Hlt by lia.
  rewrite wrap64_id in Hlt; [lia|]. unfold int64, maxDurationDays, day, nanosecondsPerHour, second in *. lia.
Qed.

(** C39. What the int64 nanoseconds of [time.Duration(days) * 24 * time.Hour]
    make of a lifetime.  Up to 106751 days the expiry Keystone is asked for is
    that many days from now.  Any more days overflow: the expiry comes too
    early, by 2^64 nanoseconds (584 years) at least, so it is never the one
    that was meant; and up to twice that many days it lies in the past. *)
Theorem expiration_overflows os u ac n t r :
  let d := ac_ExpirationDays (ac_spec ac) in
  0 < d -> runs (createACWithName os u ac n) t r ->
  exists now expires, clock t = [now] /\ requestedExpiry t = [Some expires] /\
    (d <= maxDurationDays -> expires = now + d * day) /\
    (maxDurationDays < d -> expires + 2^64 <= now + d * day) /\
    (maxDurationDays < d <= 2 * maxDurationDays -> expires < now).
Proof.
  cbv zeta. set (d := ac_ExpirationDays (ac_spec ac)). intros Hpos Hr.
  eapply runs_spec in Hr; [|apply createACWithName_spec]. cbv beta in Hr. fold d in Hr.
  rewrite (proj2 (Z.ltb_lt _ _) Hpos) in Hr. destruct Hr as (now & Hc & He).
  exists now, (timeAdd now (durationOfDays d)). unfold timeAdd. split_and!; [done..| | |].
  - intros Hd. rewrite durationOfDays_exact by lia. done.
  - intros Hd. rewrite durationOfDays_wrap. apply wrap64_above in Hd as Hw. lia.
  - intros Hd. rewrite durationOfDays_wrap. apply wrap64_above_negative in Hd. lia.
Qed.
End rotation_decision.

(** ** Creation and rotation *)

Section rotation.
Context `{CL : ConditionLib} `{FL : FinalizerLib} `{XL : ExternalLib}.

(** The credentials a trace created in Keystone. *)
Definition createdACs (t : trace) : list (OSClient * string * CreatedAC) :=
  omap (fun ev =>
    match ev with
    | Ev c x =>
        match c in Call X return X -> option (OSClient * string * CreatedAC) with
        | ACCreate os u _ => fun r => match r with inr a => Some (os, u, a) | inl _ => None end
        | _ => fun _ => None
        end x
    end) t.
Definition isACCreate (X : Type) (c : Call X) : bool := match c with ACCreate _ _ _ => true | _ => false end.

Lemma createdACs_app t1 t2 : createdACs (t1 ++ t2) = createdACs t1 ++ createdACs t2.
Proof. apply omap_app. Qed.

Lemma createdACs_never t : never isACCreate t -> createdACs t = [].
Proof. induction 1 as [|[X c x] t Hc _ IH]; [done|]. by destruct c. Qed.

Lemma avoids_createdACs {A} (p : program A) : avoids isACCreate p -> wp p (fun t _ => createdACs t = []).
Proof. intros Hp. apply wp_runs. intros t a Hr. eapply createdACs_never, avoids_runs; [exact Hp|exact Hr]. Qed.

(** The secret of a new credential is stored: created, or already there for
    this very credential. *)
Definition secretStored (i : KeystoneApplicationCredential) (c : CreatedAC) (t : trace) : Prop :=
  let secret := newACSecret i (cac_ID c) (cac_Secret c) in
  Ev (CreateSecret secret) None ∈ t \/
  exists existing hash, Ev (LibGetSecret (Namespace (ac_meta i)) (s_Name secret)) (inr (existing, hash)) ∈ t
    /\ secretACID existing = cac_ID c.

Lemma secretStored_sub i c t t' : t ⊆ t' -> secretStored i c t -> secretStored i c t'.
Proof. intros Ht [H|(s & h & H & Hs)]; [left; by apply Ht|right]. exists s, h. split; [by apply Ht|done]. Qed.

Lemma createImmutableACSecret_spec i c :
  wp (createImmutableACSecret i (cac_ID c) (cac_Secret c)) (fun t r =>
    createdACs t = [] /\
    match r with
    | inr name => name = s_Name (newACSecret i (cac_ID c) (cac_Secret c)) /\ secretStored i c t
    | inl _ => True
    end).
Proof.
  unfold createImmutableACSecret, secretStored. wp_norm. intros [e|]; wp_norm; [done|].
  intros [e|]; wp_norm.
  - case_match; wp_norm; [|done]. intros [e'|[existing hash]]; wp_norm; [done|].
    case_decide as Hne; [done|]. split_and!; [done..|]. right. exists existing, hash. split; [set_solver|done].
  - split_and!; [done..|]. left. set_solver.
Qed.

(** What the status says of the credential and its secrets. *)
Definition credentialRefs (i : KeystoneApplicationCredential) : string * string * string :=
  (acs_ACID (ac_status i), acs_SecretName (ac_status i), acs_PreviousSecretName (ac_status i)).

(** The references after a rotation: the old secret becomes the previous one. *)
Definition rotatedRefs (i : KeystoneApplicationCredential) (c : CreatedAC) : string * string * string :=
  (cac_ID c, s_Name (newACSecret i (cac_ID c) (cac_Secret c)),
   if decide (acs_ACID (ac_status i) <> "" /\ acs_SecretName (ac_status i) <> "")
   then acs_SecretName (ac_status i) else acs_PreviousSecretName (ac_status i)).

Lemma finishRotation_spec i c :
  wp (finishRotation i c (s_Name (newACSecret i (cac_ID c) (cac_Secret c)))) (fun t r =>
    createdACs t = [] /\ credentialRefs r.1 = rotatedRefs i c).
Proof.
  assert (forall at_ h, credentialRefs (setSecurityHash h (recordCredential
    (negb (bool_decide (acs_ACID (ac_status i) = ""))) c (s_Name (newACSecret i (cac_ID c) (cac_Secret c))) at_ i))
    = rotatedRefs i c) as Href.
  { intros at_ h. unfold credentialRefs, rotatedRefs. simpl. f_equal.
    repeat case_bool_decide; case_decide; simpl; tauto. }
  unfold finishRotation. wp_norm. intros at_. wp_norm.
  destruct (ComputeSecurityHash _) as [e|h]; wp_norm; [split; [done|apply (Href at_ "")]|].
  destruct (negb (bool_decide (acs_ACID (ac_status i) = ""))) eqn:Hrot; wp_norm.
  - intros now []. wp_norm. split; [done|]. apply (Href at_ h).
  - split; [done|]. apply (Href at_ h).
Qed.

(** The outcome of a creation, for the credential created. *)
Definition noOrphan (i i' : KeystoneApplicationCredential) (t : trace) (r : ret) : Prop :=
  (createdACs t = [] /\ credentialRefs i' = credentialRefs i) \/
  exists os u c, createdACs t = [(os, u, c)] /\
    ((secretStored i c t /\ credentialRefs i' = rotatedRefs i c) \/
     ((exists ans, Ev (ACDelete os u (cac_ID c)) ans ∈ t) /\ credentialRefs i' = credentialRefs i /\ r.2 <> None)).

Lemma createACWithName_created os u ac n :
  wp (createACWithName os u ac n) (fun t r =>
    createdACs t = match r with inr c => [(os, u, c)] | inl _ => [] end).
Proof. unfold createACWithName. destruct (0 <? _); wp_norm; [intros now|]; intros [e|c]; by wp_norm. Qed.

(** Keystone confirms a revocation, or the credential is already gone. *)
Definition revokedBy (ans : option GoError) : Prop :=
  match ans with None => True | Some e => ResponseCodeIs e 404 = true end.

Lemma revokeKeystoneAC_spec os u id :
  wp (revokeKeystoneAC os u id) (fun t r =>
    exists ans, t = [Ev (ACDelete os u id) ans] /\ (r = None <-> revokedBy ans)).
Proof.
  unfold revokeKeystoneAC, revokedBy. wp_norm. intros [e|]; wp_norm; eexists; (split; [done|]); [|done].
  simpl. destruct (ResponseCodeIs e 404); split; done.
Qed.

Lemma createCredential_spec i os :
  wp (createCredential i os) (fun t r => noOrphan i r.1 t r.2).
Proof.
  unfold createCredential, noOrphan.
  eapply wp_bind, wp_mono; [|apply avoids_createdACs; unfold getUserIDFromToken; emits_go]. cbv beta.
  intros t1 [e|u] H1; wp_norm; [left; by rewrite app_nil_r|]. intros suffix. wp_norm.
  wp_use createACWithName_created. intros t2 [e|c] H2; wp_norm.
  { left. split; [|done]. rewrite !createdACs_app, H1. cbn. by rewrite createdACs_app, H2. }
  wp_use createImmutableACSecret_spec. intros t3 [e|name] [H3 Hst]; wp_norm.
  - wp_use revokeKeystoneAC_spec. intros t4 r (ans & -> & _). wp_norm. right. exists os, u, c.
    rewrite !createdACs_app, H1. cbn. rewrite !createdACs_app, H2, H3. split; [done|]. right.
    split_and!; [|done|done]. exists ans. set_solver.
  - destruct Hst as [-> Hst]. eapply wp_mono; [|apply finishRotation_spec]. cbv beta. intros t4 r [H4 Href].
    right. exists os, u, c. rewrite !createdACs_app, H1. cbn. rewrite !createdACs_app, H2, H3, H4.
    split; [done|]. left. split; [|done]. eapply secretStored_sub; [|exact Hst]. set_solver.
Qed.

Lemma GetUserServiceClient_createdACs k u s p :
  wp (GetUserServiceClient k u s p) (fun t _ => createdACs t = []).
Proof.
  apply avoids_createdACs.
  unfold GetUserServiceClient, getPasswordFromOSPSecret, GetScopedClient, scopedClientTLS. emits_go.
Qed.

Lemma rotate_spec i k : wp (rotate i k) (fun t r => noOrphan i r.1 t r.2).
Proof.
  unfold rotate. wp_use GetUserServiceClient_createdACs. intros t1 [[os res] [e|]] H1; wp_norm.
  { left. by rewrite app_nil_r. }
  case_decide; wp_norm; [left; by rewrite app_nil_r|].
  destruct os as [os|]; wp_norm; [|left; by rewrite app_nil_r].
  eapply wp_mono; [|apply createCredential_spec]. cbv beta. intros t2 res2 [[H2 Href]|(os' & u & c & H2 & H3)].
  - left. by rewrite createdACs_app, H1.
  - right. exists os', u, c. rewrite createdACs_app, H1. split; [done|].
    destruct H3 as [[Hst Href]|[(ans & Hans) H3]]; [left|right].
    + split; [|done]. eapply secretStored_sub; [|exact Hst]. set_solver.
    + split; [|done]. exists ans. set_solver.
Qed.

(** No rotation leaves an orphaned credential: the at most one credential
    a rotation creates in Keystone either has its secret stored and is the one
    the status refers to, with the secret it replaces remembered as the
    previous one, or its revocation was requested (which the code only logs the
answer of), the status still refers to the
    credential before, and the rotation reports an error. *)
Lemma rotate_no_orphan i k t i' r :
  runs (rotate i k) t (i', r) -> noOrphan i i' t r.
Proof. intros Hr. by eapply runs_spec in Hr; [|apply rotate_spec]. Qed.
End rotation.

(** ** Cleanup *)

Section cleanup.
Context `{CL : ConditionLib} `{FLaws : FinalizerLaws} `{XL : ExternalLib}.

(** The secret without the protection finalizer. *)
Definition unprotected (s : Secret) : Secret :=
  setSecretMeta (setFinalizers (RemoveFinalizer acSecretFinalizer (Finalizers (s_meta s))).1 (s_meta s)) s.

Lemma unprotected_finalizer s : acSecretFinalizer ∉ Finalizers (s_meta (unprotected s)).
Proof. unfold unprotected. simpl. rewrite RemoveFinalizer_elem. by intros []. Qed.

Lemma unprotectSecret_spec s :
  wp (unprotectSecret s) (fun t r =>
    r.1 = unprotected s /\
    t = if bool_decide (acSecretFinalizer ∈ Finalizers (s_meta s)) then [Ev (UpdateSecret (unprotected s)) r.2] else []).
Proof.
  unfold unprotectSecret, unprotected.
  pose proof (RemoveFinalizer_flag acSecretFinalizer (Finalizers (s_meta s))) as Hfl.
  destruct (RemoveFinalizer _ _) as [fs changed]. simpl in *. subst. case_bool_decide; wp_norm; [by intros err|done].
Qed.

(** The credential of a secret is gone from Keystone, according to a trace. *)
Definition revokedIn (os : OSClient) (userID : string) (s : Secret) (t : trace) : Prop :=
  secretACID s <> "" -> exists ans, Ev (ACDelete os userID (secretACID s)) ans ∈ t /\ revokedBy ans.

(** Nobody needs the secret: it is neither of the two the status refers to, and
    no control plane service has its finalizer on it. *)
Definition disused (i : KeystoneApplicationCredential) (s : Secret) : Prop :=
  s_Name s <> acs_SecretName (ac_status i) /\ s_Name s <> acs_PreviousSecretName (ac_status i) /\
  forall f, f ∈ Finalizers (s_meta s) -> HasPrefix f "openstack.org/" = true -> HasSuffix f "-ac-consumer" = false.
Lemma inUse_false i s : inUse i s = false -> disused i s.
Proof.
  unfold inUse, hasConsumerFinalizer. intros [[Hc Hp]%orb_false_iff Hf]%orb_false_iff.
  apply bool_decide_eq_false in Hc, Hp. split_and!; [done..|]. intros f Hin Hpre.
  apply not_true_is_false. intros Hsuf. apply not_true_iff_false in Hf. apply Hf, existsb_exists.
  exists f. split; [by apply list_elem_of_In|by rewrite Hpre, Hsuf].
Qed.

(** What the cleanup of [items] may do after the exchange [u]. *)
Definition cleanupStep (os : OSClient) (userID : string) (i : KeystoneApplicationCredential) (items : list Secret)
    (u : trace) (ev : event Call) : Prop :=
  match ev with
  | Ev c _ =>
      match c with
      | ACDelete os' user' id => os' = os /\ user' = userID /\
          exists s, s ∈ items /\ disused i s /\ secretACID s = id /\ id <> ""
      | UpdateSecret o | DeleteSecret o =>
          exists s, s ∈ items /\ disused i s /\ o = unprotected s /\ revokedIn os userID s u
      | _ => False
      end
  end.

Lemma cleanupStep_mono os userID i items items' u u' ev :
  items ⊆ items' -> u ⊆ u' -> cleanupStep os userID i items u ev -> cleanupStep os userID i items' u' ev.
Proof.
  intros Hi Hu. destruct ev as [X c x], c; simpl; try done.
  1,2: intros (s0 & ? & ? & ? & Hr); exists s0; split_and!; auto; intros Hne;
    destruct (Hr Hne) as (a & ? & ?); exists a; auto.
  intros (? & ? & s0 & ? & ? & ?). split_and!; auto. exists s0. auto.
Qed.

Lemma cleanupSecret_spec os userID i s :
  disused i s -> wp (cleanupSecret (Some os) userID s) (fun t _ => always (cleanupStep os userID i [s]) t).
Proof.
  intros Huse. unfold cleanupSecret.
  rewrite wp_bind. eapply (wp_mono _ (fun t err =>
    always (cleanupStep os userID i [s]) t /\ (err = None -> revokedIn os userID s t))).
  2:{ case_decide as Hid; [split; [apply always_nil|intros _ ?; done]|].
      eapply wp_mono; [|apply revokeKeystoneAC_spec]. cbv beta. intros t err (ans & -> & Hans). split.
      - apply always_cons. split; [|apply always_nil]. simpl. split_and!; try done. exists s. set_solver.
      - intros He%Hans _. exists ans. set_solver. }
  cbv beta. intros t1 [e|] [H1 Hrev]; wp_norm; [by rewrite app_nil_r|]. specialize (Hrev eq_refl).
  assert (forall u, revokedIn os userID s (t1 ++ u)) as Hr
    by (intros u Hne; destruct (Hrev Hne) as (a & ? & ?); exists a; set_solver).
  assert (forall u x, cleanupStep os userID i [s] (t1 ++ u) (Ev (UpdateSecret (unprotected s)) x)) as Hupd
    by (intros u x; exists s; split_and!; [left|done|done|apply Hr]).
  assert (forall u x, cleanupStep os userID i [s] (t1 ++ u) (Ev (DeleteSecret (unprotected s)) x)) as Hdel
    by (intros u x; exists s; split_and!; [left|done|done|apply Hr]).
  wp_use unprotectSecret_spec. intros t2 [s' err] [Hs Ht]. cbn [fst snd] in Hs, Ht. subst s' t2.
  destruct err as [e|]; wp_norm.
  - rewrite app_nil_r. apply always_app. split; [done|]. case_bool_decide; [|apply always_nil].
    apply always_cons. split; [apply Hupd|apply always_nil].
  - intros err. wp_norm. apply always_app. split; [done|]. case_bool_decide; simpl.
    + rewrite !always_cons. split; [apply Hupd|]. split; [apply (Hdel [_])|apply always_nil].
    + rewrite !always_cons. split; [apply Hdel|apply always_nil].
Qed.

Lemma cleanupSecrets_spec os userID i items :
  wp (cleanupSecrets (Some os) userID i items) (fun t _ => always (cleanupStep os userID i items) t).
Proof.
  induction items as [|s l IH]; cbn [cleanupSecrets]; [apply always_nil|].
  destruct (inUse i s) eqn:Huse.
  - eapply wp_mono; [|exact IH]. cbv beta. intros t _. apply always_mono. intros u ev.
    apply cleanupStep_mono; set_solver.
  - wp_use cleanupSecret_spec; [|exact (inUse_false _ _ Huse)]. intros t1 [e|] H1; wp_norm.
    + rewrite app_nil_r. eapply always_mono; [|exact H1]. intros u ev. apply cleanupStep_mono; set_solver.
    + eapply wp_mono; [|exact IH]. cbv beta. intros t2 _ H2. apply always_app. split.
      * eapply always_mono; [|exact H1]. intros u ev. apply cleanupStep_mono; set_solver.
      * eapply always_mono; [|exact H2]. intros u ev. apply cleanupStep_mono; set_solver.
Qed.

(** The labelled secrets of the credential, as a trace listed them. *)
Definition listedIn (i : KeystoneApplicationCredential) (items : list Secret) (t : trace) : Prop :=
  Ev (ListSecrets (Namespace (ac_meta i)) (acLabels (GetServiceNameFromACCR (Name (ac_meta i))))) (inr items) ∈ t.
(** The gate of the services deployed on dataplane nodes was passed. *)
Definition edpmInSync (i : KeystoneApplicationCredential) (t : trace) : Prop :=
  IsEDPMService i = true ->
  exists info, Ev (AreSecretHashesInSync (Namespace (ac_meta i))) (inr (true, info)) ∈ t.
(** The calls that only look. *)
Definition cleanupReads (X : Type) (c : Call X) : bool :=
  match c with AreSecretHashesInSync _ | ListSecrets _ _ => true | _ => false end.

(** C17. Cleanup touches nothing that may be in use.  Every secret it updates
    or deletes and every credential it revokes belongs to a secret the label
    query listed, that is neither the current nor the previous one and carries
    no consumer finalizer; the secret is only touched once Keystone confirmed
    that its credential is gone; and for an EDPM service nothing happens
    before every NodeSet was found in sync. *)
Theorem cleanup_safe i os userID t r t1 ev t2 :
  runs (cleanupUnusedRotatedSecrets i (Some os) userID) t r -> t = t1 ++ ev :: t2 ->
  evIs cleanupReads ev = false ->
  edpmInSync i t1 /\ exists items, listedIn i items t1 /\ cleanupStep os userID i items t1 ev.
Proof.
  intros Hr Ht Hev. apply runs_bind in Hr as (ta & tb & ok & -> & Ha & Hr).
  assert (Forall (fun ev => ~ evIs cleanupReads ev = false) ta /\ (ok = true -> edpmInSync i ta)) as [Hna Hsync].
  { clear -Ha. wp_start Ha. unfold edpmInSync. destruct (IsEDPMService i); wp_norm.
    - intros [e|[[] info]]; wp_norm; (split; [by repeat constructor|]); try done.
      intros _ _. exists info. left.
    - split; [constructor|done]. }
  apply (event_after (fun ev => evIs cleanupReads ev = false)) in Ht as (u & -> & ->); [|done|done].
  destruct ok; cbn [negb] in Hr; [|by destruct Hr as [Hr _]; destruct u].
  destruct Hr as (ans & tc & Heq & Hr). destruct u as [|x u]; injection Heq as -> <-; [done|].
  destruct ans as [e|items]; runs_norm Hr; [by destruct Hr as [Hr _]; destruct u|].
  eapply runs_spec in Hr; [|apply cleanupSecrets_spec]. specialize (Hr u ev t2 eq_refl). split.
  - intros Hi. destruct (Hsync eq_refl Hi) as [info Hin]. exists info. set_solver.
  - exists items. split; [unfold listedIn; set_solver|]. eapply cleanupStep_mono; [done| |exact Hr]. set_solver.
Qed.
End cleanup.

(** ** Deletion *)

Section deletion.
Context `{CL : ConditionLib} `{FLaws : FinalizerLaws} `{XL : ExternalLib}.

(** The credentials a trace asked Keystone to revoke. *)
Definition revocations (t : trace) : list string :=
  omap (fun ev => match ev with Ev c _ => match c with ACDelete _ _ id => Some id | _ => None end end) t.
Definition isACDelete (X : Type) (c : Call X) : bool := match c with ACDelete _ _ _ => true | _ => false end.
(** The calls that touch a credential or its secrets. *)
Definition acWrite (X : Type) (c : Call X) : bool :=
  match c with ACDelete _ _ _ | UpdateSecret _ | DeleteSecret _ => true | _ => false end.

(** A secret no longer carries the protection finalizer. *)
Definition secretReleased (s : Secret) (t : trace) : Prop :=
  acSecretFinalizer ∉ Finalizers (s_meta s) \/ Ev (UpdateSecret (unprotected s)) None ∈ t.

Lemma secretReleased_sub s t t' : t ⊆ t' -> secretReleased s t -> secretReleased s t'.
Proof. intros Ht [?|Hin]; [by left|right; by apply Ht]. Qed.

Lemma revocations_app t1 t2 : revocations (t1 ++ t2) = revocations t1 ++ revocations t2.
Proof. apply omap_app. Qed.

Lemma avoids_revocations {A} (p : program A) : avoids isACDelete p -> wp p (fun t _ => revocations t = []).
Proof.
  intros Hp. apply wp_runs. intros t a Hr. eapply avoids_runs in Hr; [|exact Hp].
  induction Hr as [|[X c x] t Hc _ IH]; [done|]. by destruct c.
Qed.

Lemma unprotectSecret_released s :
  wp (unprotectSecret s) (fun t r => revocations t = [] /\ (r.2 = None -> secretReleased s t)).
Proof.
  eapply wp_mono; [|apply unprotectSecret_spec]. cbv beta. intros t [s' err] [_ ->]. simpl.
  unfold secretReleased. case_bool_decide; (split; [done|]); intros He; [right; rewrite He; left|by left].
Qed.

Lemma releaseSecrets_spec c seen items :
  wp (releaseSecrets c seen items) (fun t err =>
    NoDup (revocations t) /\
    (forall id, id ∈ revocations t -> (id ∉ seen) /\ id <> "" /\ exists s, s ∈ items /\ secretACID s = id) /\
    (err = None -> forall s, s ∈ items -> secretReleased s t) /\
    (err = None -> c <> None -> forall s, s ∈ items -> secretACID s <> "" ->
       secretACID s ∈ seen \/ secretACID s ∈ revocations t)).
Proof.
  revert seen; induction items as [|s l IH]; intros seen; cbn [releaseSecrets].
  { split_and!; [constructor|by intros id ?%elem_of_nil|by intros _ s ?%elem_of_nil|by intros _ _ s ?%elem_of_nil]. }
  rewrite wp_bind. eapply (wp_mono _ (fun t seen' =>
    (revocations t = [] /\ seen' = seen /\ (c <> None -> secretACID s <> "" -> secretACID s ∈ seen)) \/
    (revocations t = [secretACID s] /\ seen' = {[secretACID s]} ∪ seen /\ (secretACID s ∉ seen) /\ secretACID s <> ""))).
  2:{ destruct c as [[os u]|]; [|by left]. case_decide as Hd; [|left; split_and!; [done..|]; intros _ Hne;
        destruct (decide (secretACID s ∈ seen)); [done|by destruct Hd]].
      wp_use revokeKeystoneAC_spec. intros t r (ans & -> & _). wp_norm. right. split_and!; [done|done|apply Hd..]. }
  cbv beta. intros t1 seen' Hseen. wp_use unprotectSecret_released. intros t2 [s' err] [H2 Hrel].
  cbn [fst snd] in Hrel.
  assert (NoDup (revocations t1) /\ seen ⊆ seen' /\
    (forall id, id ∈ revocations t1 -> id = secretACID s /\ (id ∉ seen) /\ id <> "" /\ id ∈ seen') /\
    (forall id, id ∈ seen' -> id ∈ seen \/ id ∈ revocations t1) /\
    (c <> None -> secretACID s <> "" -> secretACID s ∈ seen'))
    as (Hnd & Hss & Hid & Hsub & Hown).
  { clear IH Hrel. destruct Hseen as [(-> & -> & Hs)|(-> & -> & Hn & Hne)]; (split; [|split; [|split; [|split]]]).
    - constructor.
    - done.
    - by intros id ?%elem_of_nil.
    - by left.
    - exact Hs.
    - apply NoDup_singleton.
    - apply union_subseteq_r.
    - intros id ->%list_elem_of_singleton. split_and!; [done..|]. apply elem_of_union_l, elem_of_singleton_2. done.
    - intros id [->%elem_of_singleton|?]%elem_of_union; [right; left|by left].
    - intros _ _. apply elem_of_union_l, elem_of_singleton_2. done. }
  clear Hseen. destruct err as [e|]; wp_norm.
  - rewrite app_nil_r, revocations_app, H2, app_nil_r. split_and!; [done| |done|done].
    intros id Hi. destruct (Hid id Hi) as (-> & ? & ? & _). split_and!; [done..|].
    exists s. split; [left|done].
  - eapply wp_mono; [|apply (IH seen')]. cbv beta. clear IH. intros t3 err (Hnd3 & Hid3 & Hrel3 & Hall3).
    rewrite !revocations_app, H2. simpl. split_and!.
    + apply NoDup_app. split_and!; [done| |done]. intros id H1 H3. destruct (Hid3 id H3) as [Hn _]. by apply Hn, Hid.
    + intros id [Hi|Hi]%elem_of_app.
      * destruct (Hid id Hi) as (-> & ? & ? & _). split_and!; [done..|]. exists s. split; [left|done].
      * destruct (Hid3 id Hi) as (Hns & ? & s0 & ? & ?). split_and!; [by intros ?%Hss|done|].
        exists s0. split; [by right|done].
    + intros He s0 [->|Hs0]%elem_of_cons.
      * eapply secretReleased_sub; [|by apply Hrel]. sub_go.
      * eapply secretReleased_sub; [|by apply Hrel3]. sub_go.
    + intros He Hc s0 Hs0 Hne. rewrite elem_of_app. apply elem_of_cons in Hs0 as [->|Hs0].
      * destruct (Hsub _ (Hown Hc Hne)); tauto.
      * destruct (Hall3 He Hc s0 Hs0 Hne) as [[?|?]%Hsub|?]; tauto.
Qed.

(** A secret of the status is dealt with. *)
Definition statusSecretDone (ns : string) (processed : list string) (t : trace) (sn : string) : Prop :=
  sn = "" \/ sn ∈ processed \/
  exists ans, Ev (LibGetSecret ns sn) ans ∈ t /\
    match ans with inl e => IsNotFound e = true | inr (s, _) => secretReleased s t end.

Lemma statusSecretDone_sub ns p t t' sn : t ⊆ t' -> statusSecretDone ns p t sn -> statusSecretDone ns p t' sn.
Proof.
  intros Ht [?|[?|(ans & Hin & Ha)]]; [by left|by right; left|]. right; right. exists ans. split; [by apply Ht|].
  destruct ans as [e|[s h]]; [done|]. by eapply secretReleased_sub.
Qed.

Lemma releaseStatusSecrets_spec processed ns names :
  wp (releaseStatusSecrets processed ns names) (fun t err =>
    revocations t = [] /\ (err = None -> forall sn, sn ∈ names -> statusSecretDone ns processed t sn)).
Proof.
  induction names as [|sn l IH]; cbn [releaseStatusSecrets]; [split; [done|set_solver]|].
  case_decide as Hskip.
  - eapply wp_mono; [|exact IH]. cbv beta. intros t err [H1 H2]. split; [done|].
    intros He sn' [->|Hin]%elem_of_cons; [|by apply H2]. unfold statusSecretDone. tauto.
  - wp_norm. intros [e|[s h]]; wp_norm.
    + case_match eqn:Hnf; wp_norm; [|done]. eapply wp_mono; [|exact IH]. cbv beta. intros t err [H1 H2].
      split; [done|]. intros He sn' [->|Hin]%elem_of_cons.
      * right; right. exists (inl e). split; [left|done].
      * eapply statusSecretDone_sub; [|by apply H2]. sub_go.
    + wp_use unprotectSecret_released. intros t1 [s' err] [H1 Hrel]. cbn [fst snd] in Hrel.
      destruct err as [e|]; wp_norm; [by rewrite app_nil_r|].
      eapply wp_mono; [|exact IH]. cbv beta. intros t2 err [H2 H3]. split.
      * cbn. by rewrite revocations_app, H1, H2.
      * intros He sn' [->|Hin]%elem_of_cons.
        -- right; right. exists (inr (s, h)). split; [left|]. eapply secretReleased_sub; [|by apply Hrel]. sub_go.
        -- eapply statusSecretDone_sub; [|by apply H3]. sub_go.
Qed.

Lemma ensureServiceLabels_revocations names ns svc :
  wp (ensureServiceLabels names ns svc) (fun t _ => revocations t = []).
Proof.
  apply avoids_revocations. induction names as [|sn l IH]; cbn [ensureServiceLabels]; [done|].
  case_decide; [done|]. unfold ensureServiceLabel. emits_go; done.
Qed.

Lemma deleteClient_revocations i ok :
  wp (deleteClient i ok) (fun t c => revocations t = [] /\ runs (deleteClient i ok) t c).
Proof.
  apply wp_conj; [|by apply wp_runs]. apply avoids_revocations. unfold deleteClient, getUserIDFromToken, GetUserServiceClient,
    getPasswordFromOSPSecret, GetScopedClient, scopedClientTLS. emits_go.
Qed.

(** What a deletion that passed the gate has done. *)
Definition credentialsReleased (i : KeystoneApplicationCredential) (ok : option KeystoneAPI) (t : trace) : Prop :=
  exists items c tc, listedIn i items t /\
    runs (deleteClient i ok) tc c /\ tc ⊆ t /\
    (c <> None -> forall s, s ∈ items -> secretACID s <> "" -> secretACID s ∈ revocations t) /\
    (forall s, s ∈ items -> secretReleased s t) /\
    forall sn, sn ∈ statusSecrets i -> statusSecretDone (Namespace (ac_meta i)) (map s_Name items) t sn.

Lemma deleteCredentials_spec i ok :
  wp (deleteCredentials i ok) (fun t r =>
    NoDup (revocations t) /\
    match r.2 with
    | (res, None) => (finalizer ∉ Finalizers (ac_meta r.1)) /\ res = noResult /\ credentialsReleased i ok t
    | (_, Some _) => r.1 = i
    end).
Proof.
  unfold deleteCredentials. wp_use ensureServiceLabels_revocations. intros t1 [] H1. wp_norm.
  intros [e|items]; wp_norm.
  { rewrite revocations_app, H1. split; [constructor|done]. }
  wp_use deleteClient_revocations. intros t2 c [H2 Hc]. wp_use releaseSecrets_spec. intros t3 err (Hnd & _ & H3 & Hrev).
  assert (forall t4, revocations t4 = [] ->
    NoDup (revocations (t1 ++ Ev (ListSecrets (Namespace (ac_meta i))
      (acLabels (GetServiceNameFromACCR (Name (ac_meta i))))) (inr items) :: t2 ++ t3 ++ t4))) as Hall.
  { intros t4 H4. rewrite revocations_app, H1. cbn. by rewrite !revocations_app, H2, H4, app_nil_r. }
  destruct err as [e|]; wp_norm; [split; [by apply Hall|done]|].
  wp_use releaseStatusSecrets_spec. intros t4 [e|] [H4 H4']; wp_norm; rewrite ?app_nil_r; (split; [by apply Hall|]).
  { done. }
  split_and!; [|done|].
  - simpl. rewrite RemoveFinalizer_elem. by intros [].
  - exists items, c, t2. split; [unfold listedIn; sub_in|]. split; [done|]. split; [sub_go|]. split_and!.
    + intros Hne s Hs Hid. destruct (Hrev eq_refl Hne s Hs Hid) as [?%elem_of_empty|Hin]; [done|].
      rewrite revocations_app. cbn. rewrite !revocations_app, !elem_of_app. tauto.
    + intros s Hs. eapply secretReleased_sub; [|by apply H3]. sub_go.
    + intros sn Hsn. eapply statusSecretDone_sub; [|by apply H4']. sub_go.
Qed.

(** C31. Deleting an application credential: nothing is revoked and no secret
    is touched before the dataplane was found in sync (for an EDPM service);
    no credential is revoked twice; the instance gives up its finalizer
    exactly on success, and then every listed secret and every secret of the
    status has lost its protection finalizer (or was gone), and, if a Keystone
    client could be built, the revocation of every listed credential was
    requested. *)
Theorem ac_delete_releases i ok t i' r :
  finalizer ∈ Finalizers (ac_meta i) -> runs (reconcileDelete i ok) t (i', r) ->
  always (fun u ev => evIs acWrite ev = true -> edpmInSync i u) t /\
  NoDup (revocations t) /\
  (finalizer ∉ Finalizers (ac_meta i') <-> r = done_) /\
  (r = done_ -> credentialsReleased i ok t).
Proof.
  intros Hin Hr. apply runs_bind in Hr as (ta & tb & ok' & -> & Ha & Hr).
  assert (never acWrite ta /\ (ok' = true -> edpmInSync i ta)) as [Hna Hsync].
  { clear -Ha. wp_start Ha. unfold edpmInSync. destruct (IsEDPMService i); wp_norm.
    - intros [e|[[] info]]; wp_norm; (split; [by repeat constructor|]); try done.
      intros _ _. exists info. left.
    - split; [constructor|done]. }
  assert (revocations ta = []) as Hra.
  { clear -Hna. induction Hna as [|[X c x] t Hc _ IH]; [done|]. by destruct c. }
  rewrite always_app, revocations_app, Hra. destruct ok'; cbn [negb] in Hr.
  2: { destruct Hr as [-> [= <- <-]]. split_and!; [|apply always_nil|constructor|by split|done].
       eapply always_never; [|exact Hna]. by intros u ev ->. }
  eapply runs_spec in Hr; [|apply deleteCredentials_spec]. destruct Hr as [Hnd Hres]. split_and!.
  - eapply always_never; [|exact Hna]. by intros u ev ->.
  - intros u ev v _ _ Hi. destruct (Hsync eq_refl Hi) as [info Hinfo]. exists info. rewrite elem_of_app. by left.
  - done.
  - destruct r as [res [e|]]; simpl in Hres; [subst i'; split; [done|done]|]. destruct Hres as (Hf & -> & _). done.
  - intros ->. destruct Hres as (_ & _ & items & c & tc & Hl & Hc & Hsub & Hrev & H1 & H2). exists items, c, tc. split_and!.
    + unfold listedIn. rewrite elem_of_app. by right.
    + done.
    + intros ev Hev. rewrite elem_of_app. right. by apply Hsub.
    + intros Hne s Hs Hid. rewrite revocations_app, Hra. by apply Hrev.
    + intros s Hs. eapply secretReleased_sub; [|by apply H1]. sub_go.
    + intros sn Hsn. eapply statusSecretDone_sub; [|by apply H2]. sub_go.
Qed.
End deletion.

(** ** Names *)

(** The name of a credential's secret identifies the service and the first
    five characters of the credential's ID, nothing less and nothing more: for
    the credentials of services [svc1] and [svc2], whose resources are named by
    [GetACCRName], two secrets have the same name exactly when the services and
    the ID prefixes are the same (the collision [createImmutableACSecret]
    detects by comparing the stored ID). *)
Theorem acSecret_name_collides ac1 ac2 svc1 svc2 id1 id2 x1 x2 :
  Name (ac_meta ac1) = GetACCRName svc1 -> Name (ac_meta ac2) = GetACCRName svc2 ->
  (5 <= String.length id1)%nat -> (5 <= String.length id2)%nat ->
  s_Name (newACSecret ac1 id1 x1) = s_Name (newACSecret ac2 id2 x2) <->
  svc1 = svc2 /\ take_str 5 id1 = take_str 5 id2.
Proof.
  intros H1 H2 Hl1 Hl2. unfold newACSecret, s_Name. cbn [s_meta Name].
  rewrite H1, H2. unfold GetServiceNameFromACCR, GetACCRName. rewrite !TrimPrefix_app. unfold acSecretName.
  split; [|by intros [-> ->]]. intros H%string_app_inj_l.
  assert (String.length svc1 = String.length svc2) as Hlen.
  { apply (f_equal String.length) in H. rewrite !string_length_app, !take_str_length in H. lia. }
  apply string_app_inj_len in H as [-> H%string_app_inj_l]; [|done]. split; [done|].
  apply string_app_inj_len in H as [-> _]; [done|]. rewrite !take_str_length. lia.
Qed.

(** ** Witnesses *)

Definition demoACSpec : KeystoneApplicationCredentialSpec :=
  mkACSpec "osp-secret" "BarbicanPassword" "barbican" 365 182 ["service"] false [].
Definition demoACStatus : KeystoneApplicationCredentialStatus :=
  mkACStatus "0123456789" "ac-barbican-01234-secret" "" (Some []) (Some 0) (Some (1000 * day)) None None 1 "service||f".
Definition demoAC : KeystoneApplicationCredential :=
  mkAC (newMeta "ac-barbican" "openstack") demoACSpec demoACStatus.
Definition freshAC : KeystoneApplicationCredential :=
  mkAC (newMeta "ac-barbican" "openstack") demoACSpec
    (mkACStatus "" "" "" (Some []) None None None None 0 "").

(** The clock, an application credential with the requested expiry, and the
    secrets of the service. *)
Definition demoSecret (name id : string) (finalizers : list string) : Secret :=
  mkSecret (mkMeta name "openstack" 0 finalizers (acLabels "barbican") ∅ None) (Some true) {[ ACIDSecretKey := id ]}.
Definition acHandler (now : Z) (X : Type) (c : Call X) (w : unit) : X * unit :=
  match c in Call X return X * unit with
  | Now => (now, w)
  | ACCreate _ _ o => (inr (mkCreatedAC "abcdef0123" "s3cr3t" (default 0 (aco_ExpiresAt o))), w)
  | ListSecrets _ _ =>
      (inr [demoSecret "ac-barbican-01234-secret" "0123456789" [acSecretFinalizer];
            demoSecret "ac-barbican-99999-secret" "9999999999" [acSecretFinalizer];
            demoSecret "ac-barbican-88888-secret" "8888888888" ["openstack.org/barbican-ac-consumer"]], w)
  | c => demoHandler _ c w
  end.

Lemma needsRotation_iff_witness :
  resultWith (acHandler (900 * day)) (needsRotation demoAC)
    = inr (true, "ApplicationCredential is within grace period, rotating") /\
  (acs_ACID (ac_status demoAC) = "" \/ securityChanged demoAC \/
   exists expiry now, acs_ExpiresAt (ac_status demoAC) = Some expiry /\ expiry <> zeroTime /\
     Ev Now now ∈ traceWith (acHandler (900 * day)) (needsRotation demoAC) /\ exists eligible,
     acs_RotationEligibleAt (ac_status (refreshEligible demoAC)) = Some eligible /\ eligible < now).
Proof.
  split; [vm_compute; reflexivity|].
  apply (needsRotation_iff demoAC (traceWith (acHandler (900 * day)) (needsRotation demoAC)) true
    "ApplicationCredential is within grace period, rotating"); [|reflexivity].
  exact (runsWith (acHandler (900 * day)) (needsRotation demoAC)).
Defined.

Lemma rotation_settles_witness :
  resultWith (acHandler (100 * day)) (needsRotation
    (setSecurityHash "service||f" (recordCredential false (mkCreatedAC "abcdef0123" "s3cr3t" (365 * day))
       "ac-barbican-abcde-secret" 0 freshAC))) = inr (false, "") /\ false = false.
Proof.
  split; [vm_compute; reflexivity|].
  refine (rotation_settles 0%nat "user-id" freshAC "ac-barbican-abcde"
    (traceWith (acHandler 0) (createACWithName 0%nat "user-id" freshAC "ac-barbican-abcde"))
    (mkCreatedAC "abcdef0123" "s3cr3t" (365 * day)) _ "service||f"
    (traceWith (acHandler (100 * day)) (needsRotation
      (setSecurityHash "service||f" (recordCredential false (mkCreatedAC "abcdef0123" "s3cr3t" (365 * day))
       "ac-barbican-abcde-secret" 0 freshAC)))) false ""
    false "ac-barbican-abcde-secret" 0 _ _ _ _ _ _ eq_refl _ _).
  - vm_compute. split; reflexivity.
  - vm_compute. congruence.
  - exact (runsWith (acHandler 0) (createACWithName 0%nat "user-id" freshAC "ac-barbican-abcde")).
  - vm_compute. reflexivity.
  - vm_compute. congruence.
  - vm_compute. reflexivity.
  - exact (runsWith (acHandler (100 * day)) (needsRotation _)).
  - intros created now Hc Hn. vm_compute in Hc. apply list_elem_of_singleton in Hc as ->.
    vm_compute in Hn. apply list_elem_of_singleton in Hn. apply Ev_inj in Hn as ->. vm_compute. congruence.
Defined.

Definition longAC : KeystoneApplicationCredential :=
  mkAC (newMeta "ac-barbican" "openstack") (mkACSpec "osp-secret" "BarbicanPassword" "barbican" 106752 182 ["service"] false [])
    (ac_status freshAC).

Lemma expiration_overflows_witness :
  let p := createACWithName 0%nat "user-id" longAC "ac-barbican-abcde" in
  exists now expires, clock (traceWith (acHandler 0) p) = [now] /\
    requestedExpiry (traceWith (acHandler 0) p) = [Some expires] /\ expires < now.
Proof.
  destruct (expiration_overflows 0%nat "user-id" longAC "ac-barbican-abcde" _ _ ltac:(vm_compute; reflexivity)
    (runsWith (acHandler 0) (createACWithName 0%nat "user-id" longAC "ac-barbican-abcde")))
    as (now & expires & Hc & He & _ & _ & Hpast).
  exists now, expires. split; [exact Hc|]. split; [exact He|]. apply Hpast. vm_compute. split; congruence.
Defined.

Lemma cleanup_safe_witness :
  let t := traceWith (acHandler 0) (cleanupUnusedRotatedSecrets demoAC (Some 0%nat) "user-id") in
  length t = 5%nat /\ edpmInSync demoAC (take 4 t) /\
  exists items, listedIn demoAC items (take 4 t).
Proof.
  split; [vm_compute; reflexivity|].
  destruct (cleanup_safe demoAC 0%nat "user-id" _ _
    (take 4 (traceWith (acHandler 0) (cleanupUnusedRotatedSecrets demoAC (Some 0%nat) "user-id")))
    (Ev (DeleteSecret (unprotected (demoSecret "ac-barbican-99999-secret" "9999999999" [acSecretFinalizer]))) None) []
    (runsWith (acHandler 0) (cleanupUnusedRotatedSecrets demoAC (Some 0%nat) "user-id")))
    as (Hs & items & Hl & _); [vm_compute; reflexivity|reflexivity|].
  split; [exact Hs|]. exists items. exact Hl.
Defined.

Definition deletingAC : KeystoneApplicationCredential :=
  ac_setMeta (deletingMeta "ac-barbican" "openstack" [finalizer]) demoAC.

Lemma ac_delete_releases_witness :
  let p := reconcileDelete deletingAC (Some demoAPI) in
  (resultWith (acHandler 0) p).2 = done_ /\ length (revocations (traceWith (acHandler 0) p)) = 3%nat /\
  NoDup (revocations (traceWith (acHandler 0) p)) /\
  finalizer ∉ Finalizers (ac_meta (resultWith (acHandler 0) p).1).
Proof.
  split; [vm_compute; reflexivity|]. split; [vm_compute; reflexivity|].
  destruct (ac_delete_releases deletingAC (Some demoAPI)
    (traceWith (acHandler 0) (reconcileDelete deletingAC (Some demoAPI)))
    (resultWith (acHandler 0) (reconcileDelete deletingAC (Some demoAPI))).1 done_)
    as (_ & Hnd & Hf & _).
  - left.
  - apply (runsWith_snd (acHandler 0)). vm_compute. reflexivity.
  - split; [exact Hnd|]. apply Hf. reflexivity.
Defined.

Lemma acSecret_name_collides_witness :
  s_Name (newACSecret demoAC "abcdef01" "x") = s_Name (newACSecret demoAC "abcdeffff" "y").
Proof.
  apply (acSecret_name_collides demoAC demoAC "barbican" "barbican" "abcdef01" "abcdeffff" "x" "y");
    [reflexivity|reflexivity|vm_compute; lia|vm_compute; lia|split; reflexivity].
Defined.
