(* ===== verification/Fernet.v ===== *)
(** The fernet key repository: key generation
    (internal/keystone/fernet.go) and [ensureFernetKeys]
    (internal/controller/keystoneapi_controller.go), which creates the secret of
    the keys, rotates them, and follows FernetMaxActiveKeys.

    Keystone reads the keys [FernetKeys<i>] as its key repository: 0 is the
    staged key, the highest index the primary one.  The Go loops are modelled
    with fuel; [None] is a loop that did not end within it, and the theorems say
    exactly when the loops end. *)
From S2P Require Import Prelude Effects GoTime Api Conditions Instances Calls External Demo.
Open Scope Z_scope.

(** ** base64 (encoding/base64, StdEncoding) *)

Definition base64Alphabet : string := "ABCDEFGHIJKLMNOPQRSTUVWXYZabcdefghijklmnopqrstuvwxyz0123456789+/".
Definition base64Char (n : Z) : string :=
  match String.get (Z.to_nat n) base64Alphabet with Some c => String c EmptyString | None => "" end.

(** Three bytes are four characters; one or two left over are padded. *)
Fixpoint base64Encode (bs : list Z) : string :=
  match bs with
  | [] => ""
  | [a] => base64Char (a / 4) +:+ base64Char (a mod 4 * 16) +:+ "=="
  | [a; b] => base64Char (a / 4) +:+ base64Char (a mod 4 * 16 + b / 16) +:+ base64Char (b mod 16 * 4) +:+ "="
  | a :: b :: c :: rest =>
      base64Char (a / 4) +:+ base64Char (a mod 4 * 16 + b / 16) +:+ base64Char (b mod 16 * 4 + c / 64)
      +:+ base64Char (c mod 64) +:+ base64Encode rest
  end.

Definition GenerateFernetKey : program (res string) :=
  r ← call (RandRead 32);
  mret match r with
  | inl e => inl (wrapErr "failed to read random bytes for Fernet key generation" e)
  | inr data => inr (base64Encode data)
  end.

(** ** The loops over the keys of the secret *)

(** [fmt.Sprintf("FernetKeys%d", i)] *)
Definition fernetKey (i : Z) : string := "FernetKeys" +:+ pretty i.

(** The inner removal loop: move every key above [i] down by one, to the first gap. *)
Fixpoint shiftDown (fuel : nat) (i : Z) (data : gmap string string) : option (gmap string string) :=
  match fuel with
  | O => None
  | S fuel =>
      let key := fernetKey i in
      let nextKey := fernetKey (i + 1) in
      match data !! nextKey with
      | None => Some data
      | Some v => shiftDown fuel (i + 1) (delete nextKey (<[key := v]> data))
      end
  end.

(** The removal loop: while there is a key [n], shift down. *)
Fixpoint removeExtra (fuel : nat) (n : Z) (data : gmap string string) : option (gmap string string * bool) :=
  match fuel with
  | O => None
  | S fuel' =>
      match data !! fernetKey n with
      | None => Some (data, false)
      | Some _ =>
          match shiftDown fuel 1 data with
          | None => None
          | Some data' =>
              match removeExtra fuel' n data' with
              | None => None
              | Some (data'', _) => Some (data'', true)
              end
          end
      end
  end.

(** The inner insertion loop: put a key at [i] and move the others up, to the
    first gap. *)
Fixpoint pushUp (fuel : nat) (i : Z) (v : string) (data : gmap string string) : option (gmap string string) :=
  match fuel with
  | O => None
  | S fuel =>
      match data !! fernetKey i with
      | None => Some (<[fernetKey i := v]> data)
      | Some keyValue => pushUp fuel (i + 1) keyValue (<[fernetKey i := v]> data)
      end
  end.

(** The insertion loop: while the last key is missing, push a new one. *)
Fixpoint addMissing (fuel : nat) (n : Z) (data : gmap string string)
  : program (option (res (gmap string string * bool))) :=
  match fuel with
  | O => mret None
  | S fuel' =>
      match data !! fernetKey (n - 1) with
      | Some _ => mret (Some (inr (data, false)))
      | None =>
          k ← GenerateFernetKey;
          match k with
          | inl e => mret (Some (inl e))
          | inr key =>
              match pushUp fuel 1 key data with
              | None => mret None
              | Some data' =>
                  r ← addMissing fuel' n data';
                  mret match r with
                  | Some (inr (data'', _)) => Some (inr (data'', true))
                  | r => r
                  end
              end
          end
      end
  end.

(** ** ensureFernetKeys *)

Definition DefaultFernetMaxActiveKeys : Z := 5.
Definition DefaultFernetRotationDays : Z := 1.
Definition fernetSecretName : string := "keystone".

Definition numberKeys (i : KeystoneAPI) : Z :=
  default DefaultFernetMaxActiveKeys (ka_FernetMaxActiveKeys (ka_core (ka_spec i))).
Definition rotationDays (i : KeystoneAPI) : Z :=
  default DefaultFernetRotationDays (ka_FernetRotationDays (ka_core (ka_spec i))).

(** The first secret: [n] fernet keys next to the credential keys. *)
Fixpoint generateKeys (n : nat) (i : Z) (keys : gmap string string) : program (res (gmap string string)) :=
  match n with
  | O => mret (inr keys)
  | S n =>
      k ← GenerateFernetKey;
      match k with
      | inl e => mret (inl e)
      | inr key => generateKeys n (i + 1) (<[fernetKey i := key]> keys)
      end
  end.

Section operations.
Context `{XL : ExternalLib}.

Definition fernetAnnotation : string := GetGroupLabel "keystone" +:+ "/rotatedat".
Definition fernetLabels (i : KeystoneAPI) : gmap string string :=
  GetLabels (Name (ka_meta i)) (GetGroupLabel "keystone") ∅.

Definition createFernetSecret (i : KeystoneAPI) (now : Z) (envVars : gmap string string)
  : program (gmap string string * option GoError) :=
  c0 ← GenerateFernetKey;
  match c0 with
  | inl e => mret (envVars, Some e)
  | inr credentialKeys0 =>
      c1 ← GenerateFernetKey;
      match c1 with
      | inl e => mret (envVars, Some e)
      | inr credentialKeys1 =>
          ks ← generateKeys (Z.to_nat (numberKeys i)) 0
                 {[ "CredentialKeys0" := credentialKeys0; "CredentialKeys1" := credentialKeys1 ]};
          match ks with
          | inl e => mret (envVars, Some e)
          | inr fernetKeys =>
              h ← call (EnsureSecret (Namespace (ka_meta i)) fernetSecretName fernetKeys (fernetLabels i)
                          {[ fernetAnnotation := formatRFC3339 now ]});
              mret match h with
              | inl e => (envVars, Some e)
              | inr hash => (<[fernetSecretName := hash]> envVars, None)
              end
          end
      end
  end.

(** A rotation is due: the staged key becomes the key [n] (the primary once
    the keys are shifted down) and a new one is staged. *)
Definition rotateKeys (n : Z) (data : gmap string string) : program (res (gmap string string)) :=
  let data := <[fernetKey n := default "" (data !! fernetKey 0)]> data in
  k ← GenerateFernetKey;
  mret match k with inl e => inl e | inr key => inr (<[fernetKey 0 := key]> data) end.

(** The rotation instant of the annotation has passed. *)
Definition rotationDue (i : KeystoneAPI) (now rotatedAt : Z) : bool :=
  timeBefore (timeAddDays rotatedAt (rotationDays i)) now.

(** The keys after removal and insertion, with the report whether the secret
    has to be written; the outer [None] is a loop that did not end. *)
Definition resizeKeys (fuel : nat) (n : Z) (changedKeys : bool) (data : gmap string string)
  : program (option (res (gmap string string * bool))) :=
  match removeExtra fuel n data with
  | None => mret None
  | Some (data, removed) =>
      r ← addMissing fuel n data;
      mret match r with
      | Some (inr (data, added)) => Some (inr (data, changedKeys || removed || added))
      | r => r
      end
  end.

(** The rotation instant a secret records. *)
Definition rotatedAt (secret : Secret) : option Z :=
  parseRFC3339 (default "" (Annotations (s_meta secret) !! fernetAnnotation)).

(** Rotation, then removal and insertion. *)
Definition updateKeys (fuel : nat) (i : KeystoneAPI) (now : Z) (secret : Secret)
  : program (option (res (gmap string string * bool))) :=
  match rotatedAt secret with
  | None => resizeKeys fuel (numberKeys i) true (s_Data secret)
  | Some at_ =>
      if rotationDue i now at_ then
        d ← rotateKeys (numberKeys i) (s_Data secret);
        match d with
        | inl e => mret (Some (inl e))
        | inr data => resizeKeys fuel (numberKeys i) false data
        end
      else resizeKeys fuel (numberKeys i) false (s_Data secret)
  end.

Definition ensureFernetKeys (fuel : nat) (i : KeystoneAPI) (envVars : gmap string string)
  : program (option (gmap string string * option GoError)) :=
  now ← call Now;
  s ← call (LibGetSecret (Namespace (ka_meta i)) fernetSecretName);
  match s with
  | inl e =>
      if IsNotFound e then r ← createFernetSecret i now envVars; mret (Some r)
      else mret (Some (envVars, Some e))
  | inr (secret, _) =>
      u ← updateKeys fuel i now secret;
      match u with
      | None => mret None
      | Some (inl e) => mret (Some (envVars, Some e))
      | Some (inr (data, changedKeys)) =>
          if negb changedKeys then mret (Some (envVars, None))
          else
            let annotations := <[fernetAnnotation := formatRFC3339 now]> (Annotations (s_meta secret)) in
            err ← call (UpdateSecret (setSecretData data
                    (setSecretMeta (setAnnotations annotations (s_meta secret)) secret)));
            mret (Some (envVars, err))
      end
  end.
End operations.

(** ** The calls of the key functions *)

Definition onlyRandom (X : Type) (c : Call X) : Prop := match c with RandRead _ => True | _ => False end.
Definition fernetCall (ns : string) (X : Type) (c : Call X) : Prop :=
  match c with
  | Now | RandRead _ | EnsureSecret _ _ _ _ _ | UpdateSecret _ => True
  | LibGetSecret ns' name => ns' = ns /\ name = fernetSecretName
  | _ => False
  end.

Section calls.
Context `{XL : ExternalLib}.
#[local] Hint Constants Opaque : emits.

Lemma GenerateFernetKey_emits : emits onlyRandom GenerateFernetKey.
Proof. unfold GenerateFernetKey. emits_go. exact I. Qed.
#[local] Hint Resolve GenerateFernetKey_emits : emits.
Lemma generateKeys_emits n i ks : emits onlyRandom (generateKeys n i ks).
Proof. revert i ks; induction n as [|n IH]; intros i ks; cbn [generateKeys]; emits_go. Qed.
Lemma addMissing_emits fuel n data : emits onlyRandom (addMissing fuel n data).
Proof. revert data; induction fuel as [|fuel IH]; intros data; cbn [addMissing]; emits_go. Qed.
#[local] Hint Resolve generateKeys_emits addMissing_emits : emits.
Lemma updateKeys_emits fuel i now s : emits onlyRandom (updateKeys fuel i now s).
Proof. unfold updateKeys, resizeKeys, rotateKeys. emits_go. Qed.

Lemma random_fernetCall {A} ns (p : program A) : emits onlyRandom p -> emits (fernetCall ns) p.
Proof. apply emits_mono. by intros X []. Qed.
#[local] Hint Resolve random_fernetCall updateKeys_emits : emits.
Lemma ensureFernetKeys_emits fuel i env : emits (fernetCall (Namespace (ka_meta i))) (ensureFernetKeys fuel i env).
Proof. unfold ensureFernetKeys, createFernetSecret. emits_go; first [exact I|done]. Qed.
End calls.

(** ** The keys as an indexed repository *)

Lemma fernetKey_inj i j : fernetKey i = fernetKey j -> i = j.
Proof. intros H%string_app_inj_l. by apply (inj pretty). Qed.

Lemma fernetKey_ne i j : i <> j -> fernetKey i <> fernetKey j.
Proof. intros H ?%fernetKey_inj. done. Qed.

(** The keys are exactly those of the indices from 0 to [n - 1]. *)
Definition ring (n : Z) (data : gmap string string) : Prop :=
  forall k, is_Some (data !! fernetKey k) <-> 0 <= k < n.

(** Two maps agree outside the fernet keys. *)
Definition sameOthers (d d' : gmap string string) : Prop :=
  forall name, (forall k, name <> fernetKey k) -> d' !! name = d !! name.

#[export] Instance sameOthers_preorder : PreOrder sameOthers.
Proof. split; [done|]. intros a b c H1 H2 name Hn. by rewrite (H2 name Hn), (H1 name Hn). Qed.

Lemma sameOthers_insert (d : gmap string string) k v : sameOthers d (<[fernetKey k := v]> d).
Proof. intros name Hn. by rewrite lookup_insert_ne by (by intros <-; eapply Hn). Qed.
Lemma sameOthers_delete (d : gmap string string) k : sameOthers d (delete (fernetKey k) d).
Proof. intros name Hn. by rewrite lookup_delete_ne by (by intros <-; eapply Hn). Qed.

(** Lookup of an index after the updates of the loops. *)
Lemma lookup_insert_key (d : gmap string string) i v k :
  <[fernetKey i := v]> d !! fernetKey k = if decide (k = i) then Some v else d !! fernetKey k.
Proof.
  case_decide; [subst; by rewrite lookup_insert_eq|]. by rewrite lookup_insert_ne by (by apply fernetKey_ne).
Qed.
Lemma lookup_delete_key (d : gmap string string) i k :
  delete (fernetKey i) d !! fernetKey k = if decide (k = i) then None else d !! fernetKey k.
Proof.
  case_decide; [subst; by rewrite lookup_delete_eq|]. by rewrite lookup_delete_ne by (by apply fernetKey_ne).
Qed.

(** ** The removal loops *)

(** With the keys [i+1 .. j-1] present and [j] the first gap, the inner loop
    ends and shifts exactly those keys. *)
Lemma shiftDown_spec fuel i j data :
  i < j -> (forall k, i < k < j -> is_Some (data !! fernetKey k)) -> data !! fernetKey j = None ->
  (Z.to_nat (j - i) <= fuel)%nat ->
  exists data', shiftDown fuel i data = Some data' /\ sameOthers data data' /\
    forall k, data' !! fernetKey k =
      if decide (i <= k < j - 1) then data !! fernetKey (k + 1)
      else if decide (i < j - 1 /\ k = j - 1) then None else data !! fernetKey k.
Proof.
  revert i data; induction fuel as [|fuel IH]; intros i data Hij Hin Hj Hfuel; [lia|]. simpl.
  destruct (decide (j = i + 1)) as [->|Hne].
  { rewrite Hj. exists data. split_and!; [done..|]. intros k. rewrite !decide_False by lia. done. }
  destruct (Hin (i + 1) ltac:(lia)) as [v Hv]. rewrite Hv.
  destruct (IH (i + 1) (delete (fernetKey (i + 1)) (<[fernetKey i:=v]> data))) as (data' & Hs & Hsame & Hk).
  - lia.
  - intros k Hk. rewrite lookup_delete_key, lookup_insert_key, !decide_False by lia. apply Hin. lia.
  - by rewrite lookup_delete_key, lookup_insert_key, !decide_False by lia.
  - lia.
  - exists data'. split_and!; [done| |].
    + etrans; [|exact Hsame]. etrans; [|apply sameOthers_delete]. apply sameOthers_insert.
    + intros k. rewrite Hk, !lookup_delete_key, !lookup_insert_key.
      repeat case_decide; subst; try lia; try done; try (by rewrite Hv); try (f_equal; f_equal; lia).
Qed.

(** The removal loop ends when no key between 2 and the first key it has to
    remove is missing: the keys come down from [M] to [n]. *)
Lemma removeExtra_spec fuel n M data :
  2 <= n <= M -> (forall k, 2 <= k < M -> is_Some (data !! fernetKey k)) -> data !! fernetKey M = None ->
  (Z.to_nat M + 1 <= fuel)%nat ->
  exists data' b, removeExtra fuel n data = Some (data', b) /\ sameOthers data data' /\
    b = bool_decide (n < M) /\
    forall k, data' !! fernetKey k =
      if decide (1 <= k < n) then data !! fernetKey (k + (M - n))
      else if decide (n <= k < M) then None else data !! fernetKey k.
Proof.
  revert M data; induction fuel as [|fuel IH]; intros M data Hn Hin HM Hfuel; [lia|].
  cbn [removeExtra]. destruct (decide (n = M)) as [<-|Hne].
  { rewrite HM. exists data, false. split_and!; [done|done|symmetry; apply bool_decide_eq_false_2; lia|].
    intros k. repeat case_decide; try lia; [f_equal; f_equal; lia|done]. }
  destruct (Hin n ltac:(lia)) as [v Hv]. rewrite Hv.
  destruct (shiftDown_spec (S fuel) 1 M data) as (d1 & Hs & Hsame & Hk); [lia| |done|lia|].
  { intros k Hk. apply Hin. lia. }
  rewrite Hs. destruct (IH (M - 1) d1) as (d2 & b & Hr & Hsame2 & Hb & Hk2).
  - lia.
  - intros k Hk'. rewrite Hk. repeat case_decide; try lia; apply Hin; lia.
  - rewrite Hk. repeat case_decide; try lia; done.
  - lia.
  - rewrite Hr. exists d2, true. split_and!; [done|by etrans|symmetry; apply bool_decide_eq_true_2; lia|].
    intros k. rewrite Hk2, !Hk. repeat case_decide; try lia; try done; f_equal; f_equal; lia.
Qed.

(** A gap the loop cannot cross: keys above it are never touched. *)
Lemma shiftDown_gap fuel i g data data' :
  shiftDown fuel i data = Some data' -> i < g -> data !! fernetKey g = None ->
  forall k, g <= k -> data' !! fernetKey k = data !! fernetKey k.
Proof.
  revert i data; induction fuel as [|fuel IH]; intros i data Hs Hig Hg k Hk; [done|]. simpl in Hs.
  destruct (data !! fernetKey (i + 1)) as [v|] eqn:Hv; [|by simplify_eq].
  assert (i + 1 <> g) by congruence.
  rewrite (IH _ _ Hs) by (rewrite ?lookup_delete_key, ?lookup_insert_key, ?decide_False by lia; (done || lia)).
  by rewrite lookup_delete_key, lookup_insert_key, !decide_False by lia.
Qed.

(** The removal loop never ends on a repository with a key [n] and a gap
    between 2 and [n - 1]. *)
Lemma removeExtra_diverges fuel n g data :
  1 < g < n -> data !! fernetKey g = None -> is_Some (data !! fernetKey n) ->
  removeExtra fuel n data = None.
Proof.
  revert data; induction fuel as [|fuel IH]; intros data Hg Hgap [v Hv]; [done|].
  cbn [removeExtra]. rewrite Hv. destruct (shiftDown (S fuel) 1 data) as [d1|] eqn:Hs; [|done].
  assert (forall k, g <= k -> d1 !! fernetKey k = data !! fernetKey k) as Hk
    by (eapply shiftDown_gap; [exact Hs|lia|done]).
  rewrite IH; [done|done|rewrite Hk; [done|lia]|rewrite Hk; [by exists v|lia]].
Qed.

(** ** When the removal loop ends *)

(** A run of consecutive keys is no longer than the map. *)
Lemma run_size (n : Z) (N : nat) (data : gmap string string) :
  (forall k, n <= k < n + Z.of_nat N -> is_Some (data !! fernetKey k)) -> (N <= size data)%nat.
Proof.
  intros Hin. set (l := (fun j : nat => fernetKey (n + Z.of_nat j)) <$> seq 0 N).
  assert (NoDup l) as Hnd.
  { apply NoDup_fmap_2; [|apply NoDup_seq]. intros a b Hab%fernetKey_inj. lia. }
  rewrite <- size_dom. transitivity (size (list_to_set (C := gset string) l)).
  - rewrite size_list_to_set by done. unfold l. by rewrite length_fmap, length_seq.
  - apply subseteq_size. intros x Hx%elem_of_list_to_set. unfold l in Hx.
    apply list_elem_of_fmap in Hx as (j & -> & [_ Hj]%elem_of_seq). apply elem_of_dom, Hin. lia.
Qed.

(** The first gap at or above [n]. *)
Lemma first_gap (n : Z) (data : gmap string string) :
  exists M, n <= M /\ (forall k, n <= k < M -> is_Some (data !! fernetKey k)) /\ data !! fernetKey M = None.
Proof.
  assert (forall N : nat, (exists M, n <= M /\ (forall k, n <= k < M -> is_Some (data !! fernetKey k)) /\
    data !! fernetKey M = None) \/ (forall k, n <= k < n + Z.of_nat N -> is_Some (data !! fernetKey k))) as Hsearch.
  { induction N as [|N [IH|IH]]; [right; lia|by left|].
    destruct (data !! fernetKey (n + Z.of_nat N)) as [v|] eqn:Hv.
    - right. intros k Hk. destruct (decide (k = n + Z.of_nat N)) as [->|]; [by eexists|apply IH; lia].
    - left. exists (n + Z.of_nat N). split_and!; [lia|done|done]. }
  destruct (Hsearch (S (size data))) as [?|Hall]; [done|]. apply run_size in Hall. lia.
Qed.

(** C33. When FernetMaxActiveKeys asks for [n] keys and the secret still has a
    key [n], the loop that removes the extra keys ends exactly when none of the
    keys 2 to [n-1] is missing; with a gap there it runs forever. *)
Theorem removeExtra_terminates_iff n data :
  2 <= n -> is_Some (data !! fernetKey n) ->
  (exists fuel, is_Some (removeExtra fuel n data)) <-> (forall g, 2 <= g < n -> is_Some (data !! fernetKey g)).
Proof.
  intros Hn Hext. split.
  - intros [fuel [r Hr]] g Hg. destruct (data !! fernetKey g) eqn:Hgap; [done|].
    rewrite (removeExtra_diverges fuel n g) in Hr; [done|lia|done|done].
  - intros Hin. destruct (first_gap n data) as (M & HM & Hrun & Hgap).
    destruct (removeExtra_spec (Z.to_nat M + 1) n M data) as (d & b & Hr & _); [lia| |done|lia|].
    + intros k Hk. destruct (Z.lt_ge_cases k n); [apply Hin; lia|apply Hrun; lia].
    + exists (Z.to_nat M + 1)%nat. by rewrite Hr.
Qed.

(** ** The insertion loops *)

Lemma pushUp_spec fuel i j v data :
  i <= j -> (forall k, i <= k < j -> is_Some (data !! fernetKey k)) -> data !! fernetKey j = None ->
  (Z.to_nat (j - i) < fuel)%nat ->
  exists data', pushUp fuel i v data = Some data' /\ sameOthers data data' /\
    forall k, data' !! fernetKey k =
      if decide (k = i) then Some v else if decide (i < k <= j) then data !! fernetKey (k - 1)
      else data !! fernetKey k.
Proof.
  revert i v data; induction fuel as [|fuel IH]; intros i v data Hij Hin Hj Hfuel; [lia|]. simpl.
  destruct (decide (i = j)) as [->|Hne].
  { rewrite Hj. eexists. split_and!; [done|apply sameOthers_insert|]. intros k. rewrite lookup_insert_key.
    repeat case_decide; try lia; done. }
  destruct (Hin i ltac:(lia)) as [w Hw]. rewrite Hw.
  destruct (IH (i + 1) w (<[fernetKey i:=v]> data)) as (data' & Hs & Hsame & Hk).
  - lia.
  - intros k Hk. rewrite lookup_insert_key, decide_False by lia. apply Hin. lia.
  - by rewrite lookup_insert_key, decide_False by lia.
  - lia.
  - exists data'. split_and!; [done|etrans; [apply sameOthers_insert|done]|].
    intros k. rewrite Hk, !lookup_insert_key. repeat case_decide; subst; try lia; try done.
    rewrite <- Hw. f_equal. f_equal. lia.
Qed.

(** The keys generated in a trace, in order. *)
Definition generated (t : trace) : list string :=
  omap (fun ev =>
    match ev with
    | Ev c x =>
        match c in Call X return X -> option string with
        | RandRead _ => fun r => match r with inr bs => Some (base64Encode bs) | inl _ => None end
        | _ => fun _ => None
        end x
    end) t.

Lemma generated_app t1 t2 : generated (t1 ++ t2) = generated t1 ++ generated t2.
Proof. apply omap_app. Qed.

Lemma GenerateFernetKey_spec :
  wp GenerateFernetKey (fun t r => match r with inr k => generated t = [k] | inl _ => generated t = [] end).
Proof. unfold GenerateFernetKey. wp_norm. by intros [e|bs]. Qed.

(** The repository after the insertion of the missing keys: the staged key stays,
    the new keys come in below the old ones, which keep their order, the first
    generated nearest to them. *)
Definition grown (m n : Z) (data data' : gmap string string) (new : list string) : Prop :=
  ring n data' /\ sameOthers data data' /\ data' !! fernetKey 0 = data !! fernetKey 0 /\
  (forall k, n - m < k < n -> data' !! fernetKey k = data !! fernetKey (k - (n - m))) /\
  (forall k, 1 <= k <= n - m -> data' !! fernetKey k = new !! Z.to_nat (n - m - k)) /\
  length new = Z.to_nat (n - m).

Lemma addMissing_spec fuel m n data :
  1 <= m <= n -> 2 <= n -> ring m data -> (2 * Z.to_nat n - Z.to_nat m < fuel)%nat ->
  wp (addMissing fuel n data) (fun t r => exists x, r = Some x /\
    match x with
    | inr (data', b) => b = bool_decide (m < n) /\ grown m n data data' (generated t) /\ (m = n -> data' = data)
    | inl _ => True
    end).
Proof.
  revert m data; induction fuel as [|fuel IH]; intros m data Hm Hn Hring Hfuel; [lia|].
  cbn [addMissing]. destruct (data !! fernetKey (n - 1)) as [v|] eqn:Hlast.
  - assert (0 <= n - 1 < m) by (apply Hring; by exists v). assert (m = n) as -> by lia.
    wp_norm. eexists. split; [done|]. split_and!; [symmetry; apply bool_decide_eq_false_2; lia| |done].
    split_and!; [done..| |intros k ?; lia|simpl; lia]. intros k Hk. f_equal. f_equal. lia.
  - assert (m < n) as Hlt.
    { destruct (decide (m = n)) as [->|]; [|lia]. destruct (proj2 (Hring (n - 1)) ltac:(lia)). congruence. }
    wp_use GenerateFernetKey_spec. intros t1 [e|key] Hgen; wp_norm; [by eexists|].
    destruct (pushUp_spec (S fuel) 1 m key data) as (d1 & Hp & Hsame & Hk).
    { lia. } { intros k Hk. apply Hring. lia. }
    { apply eq_None_not_Some. intros ?%Hring. lia. } { lia. }
    rewrite Hp. wp_norm.
    assert (ring (m + 1) d1) as Hring1.
    { intros k. rewrite Hk. case_decide; [split; [lia|by eexists]|].
      case_decide; rewrite (Hring _); lia. }
    rewrite wp_bind. eapply wp_mono; [|apply (IH (m + 1) d1); [lia..|done|lia]]. cbv beta.
    intros t2 r (x & -> & Hx). wp_norm. destruct x as [e|[d2 b]]; [by eexists|].
    eexists. split; [done|]. destruct Hx as (_ & (Hr2 & Hs2 & H0 & Hold & Hnew & Hlen) & Heq).
    split_and!; [symmetry; apply bool_decide_eq_true_2; lia| |lia].
    rewrite app_nil_r, generated_app, Hgen. split_and!; [done|by etrans| | | |].
    + rewrite H0, Hk. rewrite !decide_False by lia. done.
    + intros k Hk'. rewrite Hold by lia. rewrite Hk. rewrite decide_False, decide_True by lia. f_equal. f_equal. lia.
    + intros k Hk'. destruct (decide (k = n - m)) as [->|].
      * rewrite Z.sub_diag. destruct (decide (m + 1 = n)) as [Hmn|].
        -- rewrite (Heq Hmn), Hk. rewrite decide_True by lia. done.
        -- rewrite Hold by lia. rewrite Hk, decide_True by lia. done.
      * rewrite Hnew by lia. replace (Z.to_nat (n - m - k)) with (S (Z.to_nat (n - (m + 1) - k))) by lia. done.
    + simpl. lia.
Qed.

(** ** The update of the secret *)

Section update.
Context `{XL : ExternalLib}.

(** A rotation of the secret is due. *)
Definition due (i : KeystoneAPI) (now : Z) (secret : Secret) : bool :=
  match rotatedAt secret with Some at_ => rotationDue i now at_ | None => false end.
(** The annotation cannot be read. *)
Definition unreadable (secret : Secret) : bool := bool_decide (rotatedAt secret = None).
(** The data after the rotation step. *)
Definition rotated (n : Z) (new : string) (data : gmap string string) : gmap string string :=
  <[fernetKey 0 := new]> (<[fernetKey n := default "" (data !! fernetKey 0)]> data).

(** [updateKeys] when a rotation is due, and when it is not. *)
Lemma updateKeys_due fuel i now secret Q :
  due i now secret = true ->
  (forall new t, generated t = [new] ->
    wp (resizeKeys fuel (numberKeys i) false (rotated (numberKeys i) new (s_Data secret))) (fun t' r => Q (t ++ t') r)) ->
  (forall e t, generated t = [] -> Q t (Some (inl e))) ->
  wp (updateKeys fuel i now secret) Q.
Proof.
  unfold due, updateKeys. intros Hdue H1 H2. destruct (rotatedAt secret) as [at_|]; [|done]. rewrite Hdue.
  unfold rotateKeys. cbv zeta. rewrite !wp_bind. eapply wp_mono; [|apply GenerateFernetKey_spec]. cbv beta.
  intros t [e|new] Hgen; wp_norm.
  - rewrite !app_nil_r. by apply H2.
  - rewrite app_nil_r. by apply H1.
Qed.

Lemma updateKeys_not_due fuel i now secret :
  due i now secret = false ->
  updateKeys fuel i now secret = resizeKeys fuel (numberKeys i) (unreadable secret) (s_Data secret).
Proof.
  unfold due, updateKeys, unreadable. intros Hdue. destruct (rotatedAt secret) as [at_|]; [|done].
  by rewrite Hdue.
Qed.

(** Fuel for [updateKeys] from [M] keys to [n]. *)
Definition enoughFuel (M n : Z) (fuel : nat) : Prop := (2 * Z.to_nat n + Z.to_nat M + 3 <= fuel)%nat.

(** The repository after one rotation of [n] keys: the staged key became the
    primary, the others moved down, the oldest is gone, a new key is staged. *)
Definition rotatedOnce (n : Z) (new : string) (data data' : gmap string string) : Prop :=
  ring n data' /\ sameOthers data data' /\ data' !! fernetKey 0 = Some new /\
  data' !! fernetKey (n - 1) = data !! fernetKey 0 /\
  (forall k, 1 <= k < n - 1 -> data' !! fernetKey k = data !! fernetKey (k + 1)).

Lemma rotated_lookup n new data k :
  rotated n new data !! fernetKey k =
    if decide (k = 0) then Some new else if decide (k = n) then Some (default "" (data !! fernetKey 0))
    else data !! fernetKey k.
Proof. unfold rotated. by rewrite !lookup_insert_key. Qed.

Lemma rotated_others n new data : sameOthers data (rotated n new data).
Proof. etrans; [apply sameOthers_insert|apply sameOthers_insert]. Qed.

(** Rotation of a full repository, down to the insertion loop. *)
Lemma rotate_shift fuel n new data :
  2 <= n -> ring n data -> enoughFuel n n fuel ->
  exists d, removeExtra fuel n (rotated n new data) = Some (d, true) /\ rotatedOnce n new data d.
Proof.
  intros Hn Hring Hfuel. unfold enoughFuel in Hfuel.
  destruct (removeExtra_spec fuel n (n + 1) (rotated n new data)) as (d & b & Hr & Hsame & Hb & Hk).
  - lia.
  - intros k Hk. rewrite rotated_lookup. repeat case_decide; [by eexists|by eexists|]. apply Hring. lia.
  - rewrite rotated_lookup, !decide_False by lia. apply eq_None_not_Some. intros ?%Hring. lia.
  - lia.
  - rewrite bool_decide_eq_true_2 in Hb by lia. subst b. exists d. split; [done|].
    destruct (proj2 (Hring 0) ltac:(lia)) as [v0 Hv0]. split_and!.
    + intros k. rewrite Hk, !rotated_lookup. repeat case_decide; try lia; subst;
        try (split; [lia|by eexists]); try (split; [by intros []|lia]); rewrite (Hring _); lia.
    + etrans; [apply rotated_others|done].
    + rewrite Hk, !rotated_lookup. repeat case_decide; try lia. done.
    + rewrite Hk, !rotated_lookup. repeat case_decide; try lia. by rewrite Hv0.
    + intros k Hk'. rewrite Hk, !rotated_lookup. repeat case_decide; try lia. f_equal. f_equal. lia.
Qed.

Lemma ring_addMissing_id fuel n data :
  2 <= n -> ring n data -> (0 < fuel)%nat -> addMissing fuel n data = mret (Some (inr (data, false))).
Proof.
  intros Hn Hring Hf. destruct fuel as [|fuel]; [lia|]. cbn [addMissing].
  destruct (proj2 (Hring (n - 1)) ltac:(lia)) as [v Hv]. by rewrite Hv.
Qed.

(** A due rotation of a repository that has its [n] keys ends, fails only
    when the random source does, and otherwise promotes the staged key to
    primary, moves the other keys down by one dropping the oldest, stages the
    one newly generated key, and touches nothing else of the secret. *)
Lemma updateKeys_rotates fuel i now secret t r :
  let n := numberKeys i in
  2 <= n -> ring n (s_Data secret) -> due i now secret = true -> enoughFuel n n fuel ->
  runs (updateKeys fuel i now secret) t r ->
  (exists e, r = Some (inl e) /\ generated t = []) \/
  exists data' new, r = Some (inr (data', true)) /\ generated t = [new] /\ rotatedOnce n new (s_Data secret) data'.
Proof.
  intros n Hn Hring Hdue Hfuel Hr. wp_start Hr. apply updateKeys_due; [done| |by eauto].
  intros new u Hgen. fold n. unfold resizeKeys.
  destruct (rotate_shift fuel n new (s_Data secret)) as (d & -> & Hd); [done..|].
  rewrite ring_addMissing_id by (unfold enoughFuel in Hfuel; first [apply Hd|lia]). wp_norm.
  right. exists d, new. by rewrite app_nil_r.
Qed.

(** Changing FernetMaxActiveKeys from [M] to [n] keys when no rotation is
    due: the loops end and leave exactly [n] keys; the staged key stays, the
    newest old keys keep their order below the same primary, the oldest ones
    are dropped (or newly generated ones are put below them); the secret is
    rewritten exactly when the number changed or its annotation is unreadable. *)
Lemma updateKeys_resizes fuel i now secret M t r :
  let n := numberKeys i in
  1 <= M -> 2 <= n -> ring M (s_Data secret) -> due i now secret = false -> enoughFuel M n fuel ->
  runs (updateKeys fuel i now secret) t r ->
  (exists e, r = Some (inl e)) \/
  exists data' changed, r = Some (inr (data', changed)) /\
    (changed = true <-> rotatedAt secret = None \/ M <> n) /\
    ring n data' /\ sameOthers (s_Data secret) data' /\
    data' !! fernetKey 0 = s_Data secret !! fernetKey 0 /\
    (forall k, 1 <= k < n -> 0 < k + (M - n) -> data' !! fernetKey k = s_Data secret !! fernetKey (k + (M - n))) /\
    (forall k, 1 <= k <= n - M -> data' !! fernetKey k = generated t !! Z.to_nat (n - M - k)) /\
    length (generated t) = Z.to_nat (n - M).
Proof.
  intros n HM Hn Hring Hdue Hfuel Hr. unfold enoughFuel in Hfuel. wp_start Hr.
  rewrite updateKeys_not_due by done. fold n. unfold resizeKeys.
  destruct (Z.le_gt_cases n M) as [Hle|Hgt].
  - destruct (removeExtra_spec fuel n M (s_Data secret)) as (d & b & -> & Hsame & -> & Hk); [lia| | |lia|].
    { intros k ?. apply Hring. lia. }
    { apply eq_None_not_Some. intros ?%Hring. lia. }
    assert (ring n d) as Hrd.
    { intros k. rewrite Hk. repeat case_decide; rewrite ?(Hring _); [lia| |lia].
      split; [by intros []|lia]. }
    rewrite ring_addMissing_id by (done || lia). wp_norm. right. eexists d, _. split; [done|]. split_and!.
    + rewrite orb_false_r, orb_true_iff. unfold unreadable. rewrite !bool_decide_eq_true. intuition lia.
    + done.
    + done.
    + rewrite Hk. by rewrite !decide_False by lia.
    + intros k ? _. by rewrite Hk, decide_True by lia.
    + lia.
    + simpl. lia.
  - destruct fuel as [|fuel]; [lia|]. cbn [removeExtra].
    destruct (s_Data secret !! fernetKey n) as [v|] eqn:Hv; [destruct (proj1 (Hring n)); [by eexists|lia]|].
    rewrite wp_bind. eapply wp_mono; [|apply (addMissing_spec (S fuel) M n (s_Data secret)); [lia..|done|lia]]. cbv beta.
    intros t' r' (x & -> & Hx). destruct x as [e|[d b]]; wp_norm; [left; by exists e|]. right. rewrite app_nil_r.
    destruct Hx as (-> & (Hrd & Hsame & H0 & Hold & Hnew & Hlen) & _). eexists d, _. split; [done|]. split_and!; try done.
    + rewrite orb_false_r, orb_true_iff. unfold unreadable. rewrite !bool_decide_eq_true. intuition lia.
    + intros k ? ?. rewrite Hold by lia. f_equal. f_equal. lia.
Qed.

(** C34. Raising FernetMaxActiveKeys while a rotation is due hangs the
    controller: the rotation stores the staged key above a gap, and the
    removal loop then runs forever, whatever the fuel (only a failure of the
    random source stops it before). *)
Theorem updateKeys_hangs fuel i now secret m t r :
  let n := numberKeys i in
  2 <= m < n -> ring m (s_Data secret) -> due i now secret = true ->
  runs (updateKeys fuel i now secret) t r -> r = None \/ exists e, r = Some (inl e) /\ generated t = [].
Proof.
  intros n Hm Hring Hdue Hr. wp_start Hr. apply updateKeys_due; [done| |by eauto].
  intros new u Hgen. fold n. unfold resizeKeys. rewrite (removeExtra_diverges fuel n m); [by left|lia| |].
  - rewrite rotated_lookup, !decide_False by lia. apply eq_None_not_Some. intros ?%Hring. lia.
  - rewrite rotated_lookup. repeat case_decide; try lia. by eexists.
Qed.

(** Lowering FernetMaxActiveKeys by one while a rotation is due loses the
    primary key: the rotation overwrites it with the staged key, so no key of
    the new repository equals it (when the keys are pairwise different) and
    the tokens it encrypted can no longer be decrypted. *)
Lemma updateKeys_loses_primary fuel i now secret t data' changed primary :
  let n := numberKeys i in
  2 <= n -> ring (n + 1) (s_Data secret) -> due i now secret = true -> enoughFuel (n + 1) n fuel ->
  s_Data secret !! fernetKey n = Some primary -> (primary ∉ generated t) ->
  (forall k, s_Data secret !! fernetKey k = Some primary -> k = n) ->
  runs (updateKeys fuel i now secret) t (Some (inr (data', changed))) ->
  forall k, data' !! fernetKey k <> Some primary.
Proof.
  intros n Hn Hring Hdue Hfuel Hprim Hnew Hdist Hr. unfold enoughFuel in Hfuel.
  cut (wp (updateKeys fuel i now secret) (fun t r => primary ∉ generated t -> match r with
    | Some (inr (data', _)) => forall k, data' !! fernetKey k <> Some primary | _ => True end)).
  { intros Hwp. eapply runs_spec in Hr; [|exact Hwp]. by apply Hr. }
  apply updateKeys_due; [done| |done]. intros new u Hgen. fold n. unfold resizeKeys.
  destruct (removeExtra_spec fuel n (n + 1) (rotated n new (s_Data secret))) as (d & b & -> & _ & _ & Hk).
  - lia.
  - intros k Hk. rewrite rotated_lookup. repeat case_decide; try (by eexists). apply Hring. lia.
  - rewrite rotated_lookup, !decide_False by lia. apply eq_None_not_Some. intros ?%Hring. lia.
  - lia.
  - destruct (proj2 (Hring 0) ltac:(lia)) as [v0 Hv0].
    assert (ring n d) as Hrd.
    { intros k. rewrite Hk, !rotated_lookup. repeat case_decide; try lia; subst;
        try (split; [lia|by eexists]); try (split; [by intros []|lia]); rewrite (Hring _); lia. }
    rewrite ring_addMissing_id by (done || lia). wp_norm. rewrite app_nil_r, Hgen. intros Hne k.
    rewrite Hk, !rotated_lookup. repeat case_decide; try lia; try done.
    all: first [intros [= ->]; apply Hne; left
               |rewrite Hv0; intros [= ->]; specialize (Hdist 0 Hv0); lia
               |intros H'; specialize (Hdist _ H'); lia].
Qed.
End update.

(** ** The keys *)

Fixpoint indexOf (c : Ascii.ascii) (s : string) : option Z :=
  match s with
  | EmptyString => None
  | String d s' => if decide (c = d) then Some 0 else (fun k => k + 1) <$> indexOf c s'
  end.
Definition base64Value (c : Ascii.ascii) : option Z := indexOf c base64Alphabet.
Definition padding : Ascii.ascii := Ascii.ascii_of_nat 61.

(** The decoder, for the statement that no information is lost. *)
Fixpoint base64Decode (s : string) : option (list Z) :=
  match s with
  | EmptyString => Some []
  | String a (String b (String c (String d rest))) =>
      x ← base64Value a; y ← base64Value b;
      if decide (c = padding) then Some [x * 4 + y / 16]
      else
        z ← base64Value c;
        if decide (d = padding) then Some [x * 4 + y / 16; y mod 16 * 16 + z / 4]
        else
          w ← base64Value d; l ← base64Decode rest;
          Some (x * 4 + y / 16 :: y mod 16 * 16 + z / 4 :: z mod 4 * 64 + w :: l)
  | _ => None
  end.

Definition byte (b : Z) : Prop := 0 <= b < 256.

Lemma base64Char_value n :
  0 <= n < 64 -> exists c, base64Char n = String c "" /\ base64Value c = Some n /\ c <> padding.
Proof.
  intros Hn.
  assert (forallb (fun m => match String.get m base64Alphabet with
    | Some c => bool_decide (base64Value c = Some (Z.of_nat m)) && negb (bool_decide (c = padding))
    | None => false end) (seq 0 64) = true) as Hall by (vm_compute; reflexivity).
  rewrite forallb_forall in Hall.
  specialize (Hall (Z.to_nat n) ltac:(apply list_elem_of_In, elem_of_seq; lia)). unfold base64Char.
  destruct (String.get _ _) as [c|]; [|done]. exists c.
  apply andb_true_iff in Hall as [Hv%bool_decide_eq_true_1 Hp%negb_true_iff%bool_decide_eq_false_1].
  rewrite Z2Nat.id in Hv by lia. done.
Qed.

(** One character of the encoding, by its six bits. *)
Ltac sextet n c Hv Hp :=
  let Hc := fresh "Hc" in
  destruct (base64Char_value n) as (c & Hc & Hv & Hp);
  [Z.div_mod_to_equations; lia|rewrite Hc; clear Hc].
Ltac sextets := repeat first [reflexivity | solve [Z.div_mod_to_equations; lia] | f_equal].

Lemma base64Decode_encode bs :
  Forall byte bs ->
  base64Decode (base64Encode bs) = Some bs /\
  (String.length (base64Encode bs) = (length bs + 2) / 3 * 4)%nat.
Proof.
  unfold byte. induction bs as [bs IH] using (induction_ltof1 _ length). unfold ltof in IH. intros Hbs.
  destruct bs as [|a [|b [|c rest]]]; [done|..]; rewrite ?Forall_cons in Hbs; cbn [base64Encode].
  - destruct Hbs as [Ha _]. sextet (a / 4) c1 H1 P1. sextet (a mod 4 * 16) c2 H2 P2.
    split; [|done]. simpl. rewrite H1, H2. simpl. sextets.
  - destruct Hbs as (Ha & Hb & _). sextet (a / 4) c1 H1 P1. sextet (a mod 4 * 16 + b / 16) c2 H2 P2.
    sextet (b mod 16 * 4) c3 H3 P3. split; [|done]. simpl. rewrite H1, H2, H3. simpl.
    rewrite decide_False by done. simpl. sextets.
  - destruct Hbs as (Ha & Hb & Hc & Hrest). destruct (IH rest) as [IH1 IH2]; [simpl; lia|done|].
    sextet (a / 4) c1 H1 P1. sextet (a mod 4 * 16 + b / 16) c2 H2 P2.
    sextet (b mod 16 * 4 + c / 64) c3 H3 P3. sextet (c mod 64) c4 H4 P4. split.
    + simpl. rewrite H1, H2, H3, H4. simpl. rewrite decide_False by done. simpl. rewrite decide_False by done. simpl.
      change (EmptyString +:+ base64Encode rest) with (base64Encode rest). rewrite IH1. simpl. sextets.
    + rewrite !string_length_app, IH2. cbn [String.length length].
      replace (S (S (S (length rest))) + 2)%nat with (1 * 3 + (length rest + 2))%nat by lia.
      rewrite Nat.div_add_l by lia. lia.
Qed.

(** C40. A generated key is the 44 characters that encode the 32 random bytes,
    and the bytes can be read back from them: no randomness is lost. *)
Theorem GenerateFernetKey_roundtrip t key :
  runs GenerateFernetKey t (inr key) ->
  (forall bs, Ev (RandRead 32) (inr bs) ∈ t -> length bs = 32%nat /\ Forall byte bs) ->
  exists bs, t = [Ev (RandRead 32) (inr bs)] /\ base64Decode key = Some bs /\ String.length key = 44%nat.
Proof.
  intros ([e|bs] & t' & -> & Hr) Hbytes; runs_norm Hr; destruct Hr as [-> [= <-]].
  destruct (Hbytes bs) as [Hlen Hb]; [left|]. destruct (base64Decode_encode bs Hb) as [H1 H2].
  exists bs. split_and!; [done..|]. by rewrite H2, Hlen.
Qed.

(** ** The first secret *)

Lemma generateKeys_spec n i keys :
  wp (generateKeys n i keys) (fun t r =>
    match r with
    | inr keys' =>
        length (generated t) = n /\ sameOthers keys keys' /\
        forall k, keys' !! fernetKey k =
          if decide (i <= k < i + Z.of_nat n) then generated t !! Z.to_nat (k - i) else keys !! fernetKey k
    | inl _ => True
    end).
Proof.
  revert i keys; induction n as [|n IH]; intros i keys; cbn [generateKeys].
  { split_and!; [done..|]. intros k. by rewrite decide_False by lia. }
  wp_use GenerateFernetKey_spec. intros t1 [e|key] Hgen; wp_norm; [done|].
  eapply wp_mono; [|apply IH]. cbv beta. intros t2 [e|keys'] Hk; [done|].
  destruct Hk as (Hlen & Hsame & Hk). rewrite generated_app, Hgen. split_and!.
  - simpl. by rewrite Hlen.
  - etrans; [apply sameOthers_insert|done].
  - intros k. rewrite Hk, lookup_insert_key. repeat case_decide; try lia; subst.
    + replace (Z.to_nat (k - i)) with (S (Z.to_nat (k - (i + 1)))) by lia. done.
    + by rewrite Z.sub_diag.
    + done.
Qed.

Section creation.
Context `{XL : ExternalLib}.

(** The first secret is complete: two credential keys and exactly the
    fernet keys 0 to [n-1], every one of them generated for it and used once,
    stored under the annotation of the present instant; the hash of the secret
    enters the environment. *)
Lemma createFernetSecret_complete i now env t env' :
  0 <= numberKeys i ->
  runs (createFernetSecret i now env) t (env', None) ->
  exists data hash,
    last t = Some (Ev (EnsureSecret (Namespace (ka_meta i)) fernetSecretName data (fernetLabels i)
                        {[ fernetAnnotation := formatRFC3339 now ]}) (inr hash)) /\
    env' = <[fernetSecretName := hash]> env /\
    ring (numberKeys i) data /\
    generated t !! 0%nat = data !! "CredentialKeys0" /\ generated t !! 1%nat = data !! "CredentialKeys1" /\
    (forall k, 0 <= k < numberKeys i -> data !! fernetKey k = generated t !! Z.to_nat (k + 2)) /\
    Z.of_nat (length (generated t)) = numberKeys i + 2.
Proof.
  intros Hn Hr.
  cut (wp (createFernetSecret i now env) (fun t r => r.2 = None -> exists data hash,
    last t = Some (Ev (EnsureSecret (Namespace (ka_meta i)) fernetSecretName data (fernetLabels i)
                        {[ fernetAnnotation := formatRFC3339 now ]}) (inr hash)) /\
    r.1 = <[fernetSecretName := hash]> env /\
    ring (numberKeys i) data /\
    generated t !! 0%nat = data !! "CredentialKeys0" /\ generated t !! 1%nat = data !! "CredentialKeys1" /\
    (forall k, 0 <= k < numberKeys i -> data !! fernetKey k = generated t !! Z.to_nat (k + 2)) /\
    Z.of_nat (length (generated t)) = numberKeys i + 2)).
  { intros Hwp. eapply runs_spec in Hr; [|exact Hwp]. by apply Hr. }
  clear Hr t env'. unfold createFernetSecret.
  wp_use GenerateFernetKey_spec. intros t0 [e|c0] H0; wp_norm; [done|].
  wp_use GenerateFernetKey_spec. intros t1 [e|c1] H1; wp_norm; [done|].
  wp_use generateKeys_spec. intros t2 [e|keys] Hk; wp_norm; [done|].
  destruct Hk as (Hlen & Hsame & Hk). intros [e|hash]; wp_norm; [done|]. intros _. exists keys, hash.
  rewrite !generated_app, H0, H1. cbn [generated omap list_omap app].
  rewrite app_nil_r, !last_app. cbn.
  assert (forall k, "CredentialKeys0" <> fernetKey k) as Hc0 by (intros k [=]).
  assert (forall k, "CredentialKeys1" <> fernetKey k) as Hc1 by (intros k [=]).
  split_and!; [done|done| | | | |lia].
  - intros k. rewrite Hk. case_decide.
    + split; [lia|]. intros _. apply lookup_lt_is_Some. lia.
    + split; [|lia]. intros [v Hv]. apply lookup_insert_Some in Hv as [[Hv _]|[_ Hv]]; [by apply Hc0 in Hv|].
      apply lookup_singleton_Some in Hv as [Hv _]. by apply Hc1 in Hv.
  - by rewrite (Hsame _ Hc0), lookup_insert_eq.
  - rewrite (Hsame _ Hc1), lookup_insert_ne by done. by rewrite lookup_singleton_eq.
  - intros k Hk'. rewrite Hk, decide_True by lia. rewrite Z.sub_0_r.
    replace (Z.to_nat (k + 2)) with (S (S (Z.to_nat k))) by lia. done.
Qed.
End creation.

(** ** Witnesses *)

(** The keys [0 .. n-1] with pairwise different values. *)
Definition demoKey (k : Z) : string := "key-" +:+ pretty k.
Fixpoint demoKeys (n : nat) : gmap string string :=
  match n with O => ∅ | S n => <[fernetKey (Z.of_nat n) := demoKey (Z.of_nat n)]> (demoKeys n) end.

Lemma demoKeys_lookup n k :
  demoKeys n !! fernetKey k = if decide (0 <= k < Z.of_nat n) then Some (demoKey k) else None.
Proof.
  induction n as [|n IH]; cbn [demoKeys]; [by rewrite decide_False by lia|].
  rewrite lookup_insert_key, IH. repeat case_decide; subst; try lia; done.
Qed.

Lemma demoKeys_ring n : ring (Z.of_nat n) (demoKeys n).
Proof.
  intros k. rewrite demoKeys_lookup. case_decide; [by split; [lia|eexists]|]. split; [by intros []|lia].
Qed.

Definition demoFernetSecret (n : nat) (rotatedat : string) : Secret :=
  mkSecret (mkMeta "keystone" "openstack" 0 [] ∅ {[ "keystone.openstack.org/rotatedat" := rotatedat ]} None) None (demoKeys n).

Lemma updateKeys_hangs_witness :
  let p := updateKeys 100 demoAPI (2 * day) (demoFernetSecret 4 "epoch") in
  demoResult p = None \/ exists e, demoResult p = Some (inl e) /\ generated (demoTrace p) = [].
Proof.
  apply (updateKeys_hangs 100 demoAPI (2 * day) (demoFernetSecret 4 "epoch") 4).
  - vm_compute. split; congruence.
  - exact (demoKeys_ring 4).
  - vm_compute. reflexivity.
  - exact (demo_runs (updateKeys 100 demoAPI (2 * day) (demoFernetSecret 4 "epoch"))).
Defined.

Lemma updateKeys_loses_primary_demo :
  exists data' changed,
    demoResult (updateKeys 30 demoAPI (2 * day) (demoFernetSecret 6 "epoch")) = Some (inr (data', changed)) /\
    demoKeys 6 !! fernetKey 5 = Some (demoKey 5) /\
    forall k, data' !! fernetKey k <> Some (demoKey 5).
Proof.
  set (data' := match demoResult (updateKeys 30 demoAPI (2 * day) (demoFernetSecret 6 "epoch")) with
    Some (inr (d, _)) => d | _ => ∅ end).
  assert (demoResult (updateKeys 30 demoAPI (2 * day) (demoFernetSecret 6 "epoch")) = Some (inr (data', true))) as Hr
    by (vm_compute; reflexivity).
  exists data', true. split; [exact Hr|]. split; [vm_compute; reflexivity|].
  apply (updateKeys_loses_primary 30 demoAPI (2 * day) (demoFernetSecret 6 "epoch")
    (demoTrace (updateKeys 30 demoAPI (2 * day) (demoFernetSecret 6 "epoch"))) data' true).
  - vm_compute. congruence.
  - exact (demoKeys_ring 6).
  - vm_compute. reflexivity.
  - unfold enoughFuel. vm_compute. lia.
  - vm_compute. reflexivity.
  - vm_compute. intros H. apply list_elem_of_singleton in H. discriminate.
  - intros k Hk. change (numberKeys demoAPI) with 5. change (s_Data (demoFernetSecret 6 "epoch")) with (demoKeys 6) in Hk.
    rewrite demoKeys_lookup in Hk. case_decide; [|discriminate]. injection Hk as Hk.
    apply string_app_inj_l in Hk. exact (inj pretty _ _ Hk).
  - rewrite <- Hr. exact (demo_runs (updateKeys 30 demoAPI (2 * day) (demoFernetSecret 6 "epoch"))).
Defined.

Lemma removeExtra_terminates_iff_witness :
  (exists fuel, is_Some (removeExtra fuel 5 (demoKeys 7))).
Proof.
  apply (removeExtra_terminates_iff 5 (demoKeys 7)).
  - lia.
  - exists (demoKey 5). vm_compute. reflexivity.
  - intros g Hg. apply (demoKeys_ring 7). lia.
Defined.

Lemma GenerateFernetKey_roundtrip_witness :
  demoResult GenerateFernetKey = inr "AAAAAAAAAAAAAAAAAAAAAAAAAAAAAAAAAAAAAAAAAAA=" /\
  exists bs, demoTrace GenerateFernetKey = [Ev (RandRead 32) (inr bs)] /\
    base64Decode "AAAAAAAAAAAAAAAAAAAAAAAAAAAAAAAAAAAAAAAAAAA=" = Some bs.
Proof.
  split; [vm_compute; reflexivity|].
  destruct (GenerateFernetKey_roundtrip (demoTrace GenerateFernetKey) "AAAAAAAAAAAAAAAAAAAAAAAAAAAAAAAAAAAAAAAAAAA=")
    as (bs & Ht & Hd & _).
  - exact (demo_runs GenerateFernetKey).
  - intros bs Hin. apply list_elem_of_singleton in Hin. apply Ev_inj in Hin. injection Hin as ->.
    split; [reflexivity|]. repeat constructor; vm_compute; congruence.
  - exists bs. split; [exact Ht|exact Hd].
Defined.
