(* ===== verification/KeyRing.v ===== *)
(** The key repository as its users see it: a line of keys.

    Fernet.v models how the controller rewrites the secret, key by key.  Here
    is what that amounts to: the active keys from the oldest to the primary,
    followed by the staged key, form a line; a rotation takes the oldest key
    away and appends a new one; a change of FernetMaxActiveKeys cuts the line
    or extends it at its old end.  [ensureFernetKeys] refines these steps, and
    a history of reconciles is a window that slides over all keys generated. *)
From S2P Require Import Prelude Effects GoTime Api Conditions Instances Calls External Demo Fernet.
Open Scope Z_scope.

(** ** The abstract repository *)

(** The secret holds the line [q]: the staged key (index 0) is its last
    element, the keys from 1 up to the primary are the elements before it. *)
Definition holds (data : gmap string string) (q : list string) : Prop :=
  q <> [] /\
  forall k, data !! fernetKey k =
    if decide (k = 0) then last q
    else if decide (1 <= k < Z.of_nat (length q)) then q !! Z.to_nat (k - 1) else None.

(** One reconcile, with the keys it generated, for [n] active keys. *)
Inductive lineStep (n : Z) : list string -> list string -> list string -> Prop :=
| LineRotate new oldest q :
    Z.of_nat (length (oldest :: q)) = n -> lineStep n [new] (oldest :: q) (q ++ [new])
| LineDrop dropped q :
    Z.of_nat (length q) = n -> lineStep n [] (dropped ++ q) q
| LineFill new q :
    Z.of_nat (length (new ++ q)) = n -> lineStep n new q (reverse new ++ q).

(** The secret in the API server after a trace that started with [s]. *)
Definition secretAfter (s : Secret) (t : trace) : Secret :=
  foldl (fun s ev =>
    match ev with
    | Ev c x =>
        match c in Call X return X -> Secret with
        | UpdateSecret o => fun r => match r with None => o | Some _ => s end
        | _ => fun _ => s
        end x
    end) s t.

Definition isSecretUpdate (X : Type) (c : Call X) : bool := match c with UpdateSecret _ => true | _ => false end.

Lemma secretAfter_never s t : never isSecretUpdate t -> secretAfter s t = s.
Proof.
  revert s; induction t as [|[X c x] t IH]; intros s; [done|]. intros [Hc Ht]%Forall_cons.
  destruct c; first [discriminate|exact (IH s Ht)].
Qed.

(** ** The line of a repository *)

Lemma holds_ring data q : holds data q -> ring (Z.of_nat (length q)) data.
Proof.
  intros [Hne Hk] k. rewrite Hk. destruct q as [|x q]; [done|].
  case_decide; [subst; simpl; split; [lia|intros _; apply last_is_Some; done]|].
  case_decide.
  - split; [lia|]. intros _. apply lookup_lt_is_Some. simpl in *. lia.
  - split; [by intros []|lia].
Qed.

Lemma holds_zero data q : holds data q -> data !! fernetKey 0 = last q.
Proof. intros [_ Hk]. by rewrite Hk. Qed.
Lemma holds_key data q k :
  holds data q -> 1 <= k < Z.of_nat (length q) -> data !! fernetKey k = q !! Z.to_nat (k - 1).
Proof. intros [_ Hk] ?. rewrite Hk. by rewrite decide_False, decide_True by lia. Qed.

(** A full repository with the right keys holds the line. *)
Lemma ring_holds data q :
  q <> [] -> ring (Z.of_nat (length q)) data -> data !! fernetKey 0 = last q ->
  (forall k, 1 <= k < Z.of_nat (length q) -> data !! fernetKey k = q !! Z.to_nat (k - 1)) -> holds data q.
Proof.
  intros Hne Hr H0 Hk. split; [done|]. intros k. case_decide; [by subst|]. case_decide; [by apply Hk|].
  apply eq_None_not_Some. rewrite (Hr k). lia.
Qed.

Lemma rotatedOnce_holds n new data data' oldest q :
  2 <= n -> rotatedOnce n new data data' -> holds data (oldest :: q) -> Z.of_nat (length (oldest :: q)) = n ->
  holds data' (q ++ [new]).
Proof.
  intros Hn (Hr & _ & H0 & Hlast & Hk) Hq Hlen. simpl in Hlen.
  assert (Z.of_nat (length (q ++ [new])) = n) as Hlen' by (rewrite length_app; simpl; lia).
  apply ring_holds; rewrite ?Hlen'; [by destruct q|done|by rewrite last_snoc|].
  intros k Hk'. rewrite lookup_app_l by lia. destruct (decide (k = n - 1)) as [->|].
  - rewrite Hlast, (holds_zero _ _ Hq), last_cons. destruct q as [|y q] using rev_ind; [simpl in *; lia|].
    rewrite last_snoc. rewrite length_app in Hlen. simpl in Hlen. symmetry.
    apply list_lookup_middle. lia.
  - rewrite Hk by lia. rewrite (holds_key _ _ _ Hq) by (simpl; lia).
    replace (Z.to_nat (k + 1 - 1)) with (S (Z.to_nat (k - 1))) by lia. done.
Qed.

(** Fewer keys: the line is cut at its old end. *)
Lemma shrunk_holds n data data' dropped q :
  holds data (dropped ++ q) -> Z.of_nat (length q) = n -> 1 <= n -> ring n data' ->
  data' !! fernetKey 0 = data !! fernetKey 0 ->
  (forall k, 1 <= k < n -> data' !! fernetKey k = data !! fernetKey (k + Z.of_nat (length dropped))) ->
  holds data' q.
Proof.
  intros Hq Hlen Hn Hr H0 Hk. assert (q <> []) as Hne by (destruct q; simpl in *; [lia|done]).
  apply ring_holds; rewrite ?Hlen; [done|done| |].
  - rewrite H0, (holds_zero _ _ Hq), last_app. destruct (last q) eqn:E; [done|by apply last_None in E].
  - intros k Hk'. rewrite Hk by lia. rewrite (holds_key _ _ _ Hq) by (rewrite length_app; lia).
    rewrite lookup_app_r by lia. f_equal. lia.
Qed.

(** More keys: the line is extended at its old end, the first generated key
    nearest to the keys that were there. *)
Lemma grown_holds m n data data' new q :
  m <= n -> holds data q -> Z.of_nat (length q) = m -> ring n data' ->
  data' !! fernetKey 0 = data !! fernetKey 0 ->
  (forall k, 1 <= k < n -> 0 < k + (m - n) -> data' !! fernetKey k = data !! fernetKey (k + (m - n))) ->
  (forall k, 1 <= k <= n - m -> data' !! fernetKey k = new !! Z.to_nat (n - m - k)) ->
  length new = Z.to_nat (n - m) -> holds data' (reverse new ++ q).
Proof.
  intros Hmn Hq Hlen Hr H0 Hold Hnew Hln. pose proof Hq as [Hne _].
  assert (Z.of_nat (length (reverse new ++ q)) = n) as Hlen' by (rewrite length_app, length_reverse; lia).
  apply ring_holds; rewrite ?Hlen'; [by destruct (reverse new)|done| |].
  - rewrite H0, (holds_zero _ _ Hq), last_app. destruct (last q) eqn:E; [done|by apply last_None in E].
  - intros k Hk. destruct (decide (k <= n - m)).
    + rewrite Hnew by lia. rewrite lookup_app_l by (rewrite length_reverse; lia).
      rewrite reverse_lookup by lia. f_equal. lia.
    + rewrite Hold by lia. rewrite (holds_key _ _ _ Hq) by lia.
      rewrite lookup_app_r by (rewrite length_reverse; lia). rewrite length_reverse. f_equal. lia.
Qed.

(** ** Refinement *)

Section refinement.
Context `{XL : ExternalLib}.

(** What is assumed of the secret a reconcile reads: a line of at least two
    keys, and no change of FernetMaxActiveKeys while a rotation is due (which
    the code does not survive, see [updateKeys_hangs] and
    [updateKeys_loses_primary]). *)
Definition steady (i : KeystoneAPI) (now : Z) (secret : Secret) (q : list string) : Prop :=
  holds (s_Data secret) q /\ (2 <= length q)%nat /\ 2 <= numberKeys i /\
  (due i now secret = true -> Z.of_nat (length q) = numberKeys i).

Lemma updateKeys_line fuel i now secret q t r :
  steady i now secret q -> enoughFuel (Z.of_nat (length q)) (numberKeys i) fuel ->
  runs (updateKeys fuel i now secret) t r ->
  (exists e, r = Some (inl e)) \/
  exists data' changed q', r = Some (inr (data', changed)) /\ holds data' q' /\
    sameOthers (s_Data secret) data' /\ lineStep (numberKeys i) (generated t) q q' /\ (changed = false -> q' = q).
Proof.
  intros (Hq & Hlen & Hn & Hdue) Hfuel Hr. pose proof (holds_ring _ _ Hq) as Hring.
  destruct (due i now secret) eqn:Hd.
  - specialize (Hdue eq_refl). rewrite Hdue in Hring, Hfuel.
    destruct (updateKeys_rotates fuel i now secret t r) as [(e & -> & _)|(data' & new & -> & Hgen & Hrot)]; [done..| |].
    { left. by exists e. }
    right. destruct q as [|oldest q]; [simpl in *; lia|]. exists data', true, (q ++ [new]). rewrite Hgen.
    split_and!; [done| |by apply Hrot|by constructor|done].
    by eapply rotatedOnce_holds.
  - destruct (updateKeys_resizes fuel i now secret (Z.of_nat (length q)) t r)
      as [[e ->]|(data' & changed & -> & Hch & Hr' & Hsame & H0 & Hold & Hnew & Hln)]; [lia|done..|left; by exists e|].
    right. destruct (Z.le_gt_cases (numberKeys i) (Z.of_nat (length q))) as [Hle|Hgt].
    + set (d := Z.to_nat (Z.of_nat (length q) - numberKeys i)).
      assert (generated t = []) as -> by (apply nil_length_inv; lia).
      assert (Z.of_nat (length (drop d q)) = numberKeys i) as Hld by (rewrite length_drop; lia).
      exists data', changed, (drop d q). split_and!; [done| |done| |].
      * eapply (shrunk_holds (numberKeys i) (s_Data secret) data' (take d q)); [by rewrite take_drop|done|lia|done|done|].
        intros k Hk. rewrite Hold by lia. f_equal. f_equal. rewrite length_take. lia.
      * rewrite <- (take_drop d q) at 1. by constructor.
      * intros ->. assert (Z.of_nat (length q) = numberKeys i) as Heq.
        { destruct (decide (Z.of_nat (length q) = numberKeys i)); [done|].
          enough (false = true) by done. apply Hch. by right. }
        unfold d. by rewrite Heq, Z.sub_diag.
    + exists data', changed, (reverse (generated t) ++ q). split_and!; [done| |done| |].
      * eapply (grown_holds (Z.of_nat (length q)) (numberKeys i)); [lia|done|done|done|done|done|done|done].
      * constructor. rewrite length_app. lia.
      * intros ->. enough (false = true) by done. apply Hch. right. lia.
Qed.

Lemma updateKeys_no_update fuel i now secret : avoids isSecretUpdate (updateKeys fuel i now secret).
Proof. eapply emits_mono; [|apply updateKeys_emits]. by intros X []. Qed.

(** The exchange of a reconcile that finds the secret. *)
Definition readsFernet (i : KeystoneAPI) (now : Z) (secret : Secret) (hash : string) (u : trace) : trace :=
  Ev Now now :: Ev (LibGetSecret (Namespace (ka_meta i)) fernetSecretName) (inr (secret, hash)) :: u.

Lemma ensureFernetKeys_run fuel i env now secret hash u r :
  runs (ensureFernetKeys fuel i env) (readsFernet i now secret hash u) r ->
  exists tu out, runs (updateKeys fuel i now secret) tu out /\ never isSecretUpdate tu /\
    match out with
    | None => u = tu /\ r = None
    | Some (inl e) => u = tu /\ r = Some (env, Some e)
    | Some (inr (data, false)) => u = tu /\ r = Some (env, None)
    | Some (inr (data, true)) => exists o err, u = tu ++ [Ev (UpdateSecret o) err] /\ s_Data o = data /\ r = Some (env, err)
    end.
Proof.
  unfold ensureFernetKeys, readsFernet. intros (x & t' & [= Hx <-] & (y & t'' & [= Hy <-] & Hr)).
  apply Eqdep.EqdepTheory.inj_pair2 in Hx as <-, Hy as <-. runs_norm Hr.
  apply runs_bind in Hr as (tu & tr & out & -> & Hu & Hr). exists tu, out. split; [done|].
  split; [by eapply avoids_runs; [apply updateKeys_no_update|]|].
  destruct out as [[e|[data [|]]]|]; cbn [negb] in Hr; runs_norm Hr.
  - destruct Hr as [-> <-]. by rewrite app_nil_r.
  - destruct Hr as (err & t'' & -> & [-> <-]). by eexists _, err.
  - destruct Hr as [-> <-]. by rewrite app_nil_r.
  - destruct Hr as [-> <-]. by rewrite app_nil_r.
Qed.

Lemma ensureFernetKeys_line fuel i env now secret hash u env' q :
  runs (ensureFernetKeys fuel i env) (readsFernet i now secret hash u) (Some (env', None)) ->
  steady i now secret q -> enoughFuel (Z.of_nat (length q)) (numberKeys i) fuel ->
  env' = env /\
  exists q', holds (s_Data (secretAfter secret u)) q' /\
    lineStep (numberKeys i) (generated u) q q' /\
    sameOthers (s_Data secret) (s_Data (secretAfter secret u)).
Proof.
  intros Hr Hs Hfuel. apply ensureFernetKeys_run in Hr as (tu & out & Hu & Hno & Hout).
  destruct (updateKeys_line _ _ _ _ _ _ _ Hs Hfuel Hu) as [[e ->]|(data & changed & q' & -> & Hq' & Hsame & Hstep & Hch)].
  - by destruct Hout.
  - destruct changed.
    + destruct Hout as (o & err & -> & Ho & [= -> <-]). split; [done|]. exists q'.
      unfold secretAfter. rewrite foldl_app. simpl. rewrite Ho, generated_app. simpl. by rewrite app_nil_r.
    + destruct Hout as [-> [= ->]]. split; [done|]. exists q'. rewrite secretAfter_never by done.
      rewrite (Hch eq_refl). rewrite (Hch eq_refl) in Hstep. split_and!; [apply Hs|done|done].
Qed.
(** C8. Refinement: a reconcile of the key secret that reports success has, with
    whatever loops and map updates it took, moved the line of keys in the API
    server by exactly one step of the abstract repository, for the keys it
    generated: the oldest key dropped and a new one appended, the line cut or
    extended at its old end, or the line as it was; the environment (hence the
    pods' input hash) is untouched, and so are the other keys of the secret. *)
Theorem ensureFernetKeys_refines fuel i env now secret hash u env' q :
  runs (ensureFernetKeys fuel i env) (readsFernet i now secret hash u) (Some (env', None)) ->
  steady i now secret q -> enoughFuel (Z.of_nat (length q)) (numberKeys i) fuel ->
  env' = env /\
  exists q', holds (s_Data (secretAfter secret u)) q' /\
    lineStep (numberKeys i) (generated u) q q' /\
    sameOthers (s_Data secret) (s_Data (secretAfter secret u)).
Proof. apply ensureFernetKeys_line. Qed.
End refinement.

(** ** The loops end *)

Section termination.
Context `{XL : ExternalLib}.

(** A secret the loops survive: some full repository, whose size does not
    change while a rotation is due. *)
Definition fullRepository (fuel : nat) (i : KeystoneAPI) (now : Z) (secret : Secret) : Prop :=
  exists M, 1 <= M /\ ring M (s_Data secret) /\ enoughFuel M (numberKeys i) fuel /\
    (due i now secret = true -> M = numberKeys i).

Lemma updateKeys_returns fuel i now secret :
  2 <= numberKeys i -> fullRepository fuel i now secret -> wp (updateKeys fuel i now secret) (fun _ r => r <> None).
Proof.
  intros Hn (M & HM & Hring & Hfuel & Hdue). apply wp_runs. intros t r Hr.
  destruct (due i now secret) eqn:Hd.
  - rewrite (Hdue eq_refl) in Hring, Hfuel.
    by destruct (updateKeys_rotates fuel i now secret t r) as [(e & -> & _)|(data & new & -> & _)].
  - by destruct (updateKeys_resizes fuel i now secret M t r) as [[e ->]|(data & changed & -> & _)].
Qed.

Lemma ensureFernetKeys_returns fuel i env :
  2 <= numberKeys i ->
  wp (ensureFernetKeys fuel i env) (fun t r =>
    (forall now secret hash, Ev Now now ∈ t ->
       Ev (LibGetSecret (Namespace (ka_meta i)) fernetSecretName) (inr (secret, hash)) ∈ t ->
       fullRepository fuel i now secret) -> r <> None).
Proof.
  intros Hn. unfold ensureFernetKeys. wp_norm. intros now [e|[secret hash]].
  - destruct (IsNotFound e); wp_norm; [|done]. rewrite wp_bind. apply wp_runs. intros t r _. by wp_norm.
  - wp_norm. rewrite wp_bind. apply wp_runs. intros t u Hu.
    assert (forall t', fullRepository fuel i now secret -> t' = t -> u <> None) as Hret.
    { intros t' Hfull _. eapply runs_spec in Hu; [|by apply updateKeys_returns]. exact Hu. }
    destruct u as [[e|[data [|]]]|]; wp_norm; [done|intros err; by wp_norm|done|].
    intros Hs. exfalso. eapply (Hret t); [|done..]. eapply Hs; [apply list_elem_of_here|].
    apply list_elem_of_further, list_elem_of_here.
Qed.
End termination.

(** ** Histories of reconciles *)

Section history.
Context `{XL : ExternalLib}.

(** Successful reconciles one after the other, of any instances that ask for
    [n] keys, at any instants, each reading the secret the one before left;
    and the keys they generated. *)
Inductive history (n : Z) : Secret -> list string -> Secret -> Prop :=
| HistoryStart s : history n s [] s
| HistoryStep s gen s' fuel i env now hash u env' :
    history n s gen s' -> numberKeys i = n -> enoughFuel n n fuel ->
    runs (ensureFernetKeys fuel i env) (readsFernet i now s' hash u) (Some (env', None)) ->
    history n s (gen ++ generated u) (secretAfter s' u).

(** A step of a full line is one rotation or none. *)
Lemma lineStep_full n new q q' :
  lineStep n new q q' -> Z.of_nat (length q) = n ->
  (new = [] /\ q' = q) \/ (exists k oldest rest, new = [k] /\ q = oldest :: rest /\ q' = rest ++ [k]).
Proof.
  intros [k oldest rest Hl|dropped rest Hl|added rest Hl] Hlen.
  - right. by exists k, oldest, rest.
  - left. split; [done|]. rewrite length_app in Hlen. by destruct dropped; [|simpl in *; lia].
  - left. rewrite length_app in Hl. destruct added; [done|simpl in *; lia].
Qed.

Lemma history_window n s gen s' q :
  2 <= n -> holds (s_Data s) q -> Z.of_nat (length q) = n -> history n s gen s' ->
  holds (s_Data s') (drop (length gen) (q ++ gen)).
Proof.
  intros Hn Hq Hlen Hh. induction Hh as [s|s gen s' fuel i env now hash u env' Hh IH Hi Hfuel Hr].
  - by rewrite app_nil_r.
  - specialize (IH Hq). set (w := drop (length gen) (q ++ gen)) in *.
    assert (Z.of_nat (length w) = n) as Hw by (unfold w; rewrite length_drop, length_app; lia).
    destruct (ensureFernetKeys_line fuel i env now s' hash u env' w) as (_ & q' & Hq' & Hstep & _); [done| |by rewrite Hi, Hw|].
    { split_and!; [done|lia|lia|]. by rewrite Hi. }
    rewrite Hi in Hstep. destruct (lineStep_full _ _ _ _ Hstep Hw) as [[-> ->]|(k & oldest & rest & -> & Hwq & ->)].
    + by rewrite app_nil_r.
    + rewrite length_app, app_assoc. simpl. rewrite drop_app_le by (rewrite length_app; lia).
      enough (drop (length gen + 1) (q ++ gen) = rest) as -> by done.
      rewrite Nat.add_comm. replace (1 + length gen)%nat with (length gen + 1)%nat by lia.
      rewrite <- drop_drop. fold w. by rewrite Hwq.
Qed.

(** C9. While FernetMaxActiveKeys stays at [n], the repository is a window of the
    last [n] keys that slides over all keys ever generated, in their order,
    whatever the history of rotations: no key is lost early, none comes back,
    and none becomes the primary without having been staged for a whole cycle.
    So the tokens of a primary key stay readable for [n - 2] further rotations. *)
Theorem history_slides n s gen s' q :
  2 <= n -> holds (s_Data s) q -> Z.of_nat (length q) = n -> history n s gen s' ->
  holds (s_Data s') (drop (length gen) (q ++ gen)) /\
  (Z.of_nat (length gen) <= n - 2 -> forall primary, s_Data s !! fernetKey (n - 1) = Some primary ->
     s_Data s' !! fernetKey (n - 1 - Z.of_nat (length gen)) = Some primary).
Proof.
  intros Hn Hq Hlen Hh. pose proof (history_window _ _ _ _ _ Hn Hq Hlen Hh) as Hw. split; [done|].
  intros Hg primary Hp. rewrite (holds_key _ _ _ Hq) in Hp by lia.
  rewrite (holds_key _ _ _ Hw) by (rewrite length_drop, length_app; lia).
  rewrite lookup_drop, lookup_app_l by lia. rewrite <- Hp. f_equal. lia.
Qed.
End history.

(** ** Witnesses *)

Definition demoLine : list string := [demoKey 1; demoKey 2; demoKey 3; demoKey 4; demoKey 0].
Definition ringHandler (X : Type) (c : Call X) (w : unit) : X * unit :=
  match c in Call X return X * unit with
  | Now => (2 * day, w)
  | LibGetSecret _ _ => (inr (demoFernetSecret 5 "epoch", "hash"), w)
  | c => demoHandler _ c w
  end.
Definition demoRotation : trace := drop 2 (traceWith ringHandler (ensureFernetKeys 20 demoAPI ∅)).

Lemma demoLine_holds : holds (demoKeys 5) demoLine.
Proof.
  apply ring_holds; [done|exact (demoKeys_ring 5)|vm_compute; reflexivity|].
  intros k Hk. change (Z.of_nat (length demoLine)) with 5 in Hk.
  assert (k = 1 \/ k = 2 \/ k = 3 \/ k = 4) as [->|[->|[->| ->]]] by lia; vm_compute; reflexivity.
Qed.

Lemma demoRotation_runs :
  runs (ensureFernetKeys 20 demoAPI ∅) (readsFernet demoAPI (2 * day) (demoFernetSecret 5 "epoch") "hash" demoRotation)
    (Some (∅, None)).
Proof. exact (runsWith ringHandler (ensureFernetKeys 20 demoAPI ∅)). Qed.

Lemma ensureFernetKeys_refines_witness :
  exists q', holds (s_Data (secretAfter (demoFernetSecret 5 "epoch") demoRotation)) q' /\
    lineStep 5 (generated demoRotation) demoLine q' /\ length (generated demoRotation) = 1%nat.
Proof.
  destruct (ensureFernetKeys_refines 20 demoAPI ∅ (2 * day) (demoFernetSecret 5 "epoch") "hash" demoRotation ∅ demoLine)
    as (_ & q' & Hq' & Hstep & _).
  - exact demoRotation_runs.
  - split; [exact demoLine_holds|]. split; [vm_compute; lia|]. split; [vm_compute; congruence|]. intros _. reflexivity.
  - unfold enoughFuel. vm_compute. lia.
  - exists q'. split; [exact Hq'|]. split; [exact Hstep|]. vm_compute. reflexivity.
Defined.

Lemma history_slides_witness :
  exists gen s', history 5 (demoFernetSecret 5 "epoch") gen s' /\ length gen = 1%nat /\
    s_Data s' !! fernetKey 3 = Some (demoKey 4).
Proof.
  assert (history 5 (demoFernetSecret 5 "epoch") ([] ++ generated demoRotation)
            (secretAfter (demoFernetSecret 5 "epoch") demoRotation)) as Hh.
  { refine (HistoryStep 5 _ [] _ 20 demoAPI ∅ (2 * day) "hash" demoRotation ∅ (HistoryStart 5 _) eq_refl _ demoRotation_runs).
    unfold enoughFuel. vm_compute. lia. }
  eexists _, _. split; [exact Hh|]. split; [vm_compute; reflexivity|].
  refine (proj2 (history_slides 5 (demoFernetSecret 5 "epoch") _ _ demoLine _ demoLine_holds eq_refl Hh) _ (demoKey 4) _).
  - lia.
  - vm_compute. congruence.
  - vm_compute. reflexivity.
Defined.
