(* ===== verification/Webhook.v ===== *)
(** The KeystoneAPI admission webhook (api/v1beta1/keystoneapi_webhook.go and
    internal/webhook/v1beta1/keystoneapi_webhook.go): defaulting, validation of
    the external mode, and the route annotations. *)
From S2P Require Import Prelude Effects GoTime Api Conditions Instances Calls External Demo.

(** ** Field paths and errors (apimachinery's field package, as data) *)

Inductive FieldPath := NewPath (name : string) | Child (p : FieldPath) (name : string) | Key (p : FieldPath) (key : string).
Inductive FieldError :=
| Required (p : FieldPath) (detail : string)
| Invalid (p : FieldPath) (value detail : string).

(** common_webhook.DeprecatedFieldUpdate *)
Record DeprecatedFieldUpdate := mkDeprecatedFieldUpdate {
  DeprecatedFieldName : string;
  NewFieldPath : list string;
  OldDeprecatedValue : option string;
  NewDeprecatedValue : option string;
  NewValue : option string
}.
Record DeprecatedField := mkDeprecatedField {
  df_Name : string;
  df_NewFieldPath : list string;
  df_DeprecatedValue : option string;
  df_NewValue : option string
}.

(** The validation functions of the libraries. *)
Class WebhookLib := {
  ValidateDeprecatedFieldsCreate : list DeprecatedField -> FieldPath -> list string;
  ValidateDeprecatedFieldsUpdate : list DeprecatedFieldUpdate -> FieldPath -> list string * list FieldError;
  ValidateRoutedOverrides : FieldPath -> gmap string RoutedOverrideSpec -> list FieldError;
  ValidateTopologyRef : option TopoRef -> FieldPath -> string -> list FieldError;
  (** [apierrors.NewInvalid] and [apierrors.NewInternalError] *)
  NewInvalid : string -> list FieldError -> GoError;
  NewInternalError : string -> GoError
}.

#[export] Instance demoWebhookLib : WebhookLib := {|
  ValidateDeprecatedFieldsCreate := fun l _ => [];
  ValidateDeprecatedFieldsUpdate := fun l _ => ([], []);
  ValidateRoutedOverrides := fun _ _ => [];
  ValidateTopologyRef := fun _ _ _ => [];
  NewInvalid := fun name _ => errorf ("invalid: " +:+ name);
  NewInternalError := errorf
|}.

(** ** Defaulting *)

Record KeystoneAPIDefaults := mkAPIDefaults { ContainerImageURL : string; dAPITimeout : Z }.

(** [KeystoneAPISpecCore.Default] *)
Definition CoreDefault (d : KeystoneAPIDefaults) (core : KeystoneAPISpecCore) : KeystoneAPISpecCore :=
  if decide (ka_APITimeout core = 0%Z) then ka_setAPITimeout (dAPITimeout d) core else core.

(** [KeystoneAPI.Default], through [KeystoneAPISpec.Default] *)
Definition APIDefault (d : KeystoneAPIDefaults) (r : KeystoneAPI) : KeystoneAPI :=
  let spec := ka_spec r in
  let image := if decide (ka_ContainerImage spec = "") then ContainerImageURL d else ka_ContainerImage spec in
  mkKeystoneAPI (ka_meta r) (mkAPISpec (CoreDefault d (ka_core spec)) image) (ka_status r).

(** ** Validation *)

Section validation.
Context `{XL : ExternalLib} `{WL : WebhookLib}.

Definition getDeprecatedFields (spec : KeystoneAPISpecCore) (old : option KeystoneAPISpecCore)
  : list DeprecatedFieldUpdate :=
  [mkDeprecatedFieldUpdate "rabbitMqClusterName" ["notificationsBus"; "cluster"]
     (ka_RabbitMqClusterName <$> old) (Some (ka_RabbitMqClusterName spec)) (rc_Cluster <$> ka_NotificationsBus spec)].

Definition validateDeprecatedFieldsCreate (spec : KeystoneAPISpecCore) (basePath : FieldPath)
  : list string * list FieldError :=
  (ValidateDeprecatedFieldsCreate
     (map (fun df => mkDeprecatedField (DeprecatedFieldName df) (NewFieldPath df) (NewDeprecatedValue df) (NewValue df))
        (getDeprecatedFields spec None)) basePath, []).

Definition validateDeprecatedFieldsUpdate (spec old : KeystoneAPISpecCore) (basePath : FieldPath)
  : list string * list FieldError :=
  ValidateDeprecatedFieldsUpdate (getDeprecatedFields spec (Some old)) basePath.

(** The checks of one required endpoint of the external mode. *)
Definition validateEndpointURL (overridePath : FieldPath) (endpointType : string) (o : RoutedOverrideSpec)
  : list FieldError :=
  let path := Child (Key overridePath endpointType) "endpointURL" in
  match ro_EndpointURL o with
  | None => [Required path ("external Keystone API requires endpointURL to be set for " +:+ endpointType +:+ " endpoint")]
  | Some u =>
      if decide (u = "") then
        [Required path ("external Keystone API requires endpointURL to be set for " +:+ endpointType +:+ " endpoint")]
      else match urlParse u with
           | inl err => [Invalid path u ("invalid URL format: " +:+ Error err)]
           | inr scheme =>
               if decide (scheme = "") then
                 [Invalid path u "URL must include a scheme (e.g., http:// or https://)"]
               else []
           end
  end.

(** The loop over the override map, whose iteration order is not defined:
    [entries] lists the map in the order of the iteration. *)
Fixpoint validateOverrides (overridePath : FieldPath) (entries : list (string * RoutedOverrideSpec))
    (hasPublic hasInternal : bool) (allErrs : list FieldError) : bool * bool * list FieldError :=
  match entries with
  | [] => (hasPublic, hasInternal, allErrs)
  | (endpointType, overrideSpec) :: rest =>
      let '(hasPublic, allErrs) :=
        if decide (endpointType = EndpointPublic)
        then (true, allErrs ++ validateEndpointURL overridePath endpointType overrideSpec)
        else (hasPublic, allErrs) in
      let '(hasInternal, allErrs) :=
        if decide (endpointType = EndpointInternal)
        then (true, allErrs ++ validateEndpointURL overridePath endpointType overrideSpec)
        else (hasInternal, allErrs) in
      validateOverrides overridePath rest hasPublic hasInternal allErrs
  end.

Definition ValidateExternalKeystoneAPI (spec : KeystoneAPISpecCore) (basePath : FieldPath)
    (entries : list (string * RoutedOverrideSpec)) : list FieldError :=
  if negb (ka_ExternalKeystoneAPI spec) then []
  else
    let overridePath := Child (Child basePath "override") "service" in
    let '(hasPublic, hasInternal, allErrs) := validateOverrides overridePath entries false false [] in
    allErrs
    ++ (if hasPublic then []
        else [Required overridePath ("external Keystone API requires " +:+ EndpointPublic +:+ " endpoint to be defined")])
    ++ (if hasInternal then []
        else [Required overridePath ("external Keystone API requires " +:+ EndpointInternal +:+ " endpoint to be defined")]).

Definition ValidateTopology (spec : KeystoneAPISpecCore) (basePath : FieldPath) (namespace : string) : list FieldError :=
  ValidateTopologyRef (ka_TopologyRef spec) (Child basePath "topologyRef") namespace.

(** What creation and update check alike, after the deprecated fields. *)
Definition validateSpec (spec : KeystoneAPISpecCore) (basePath : FieldPath) (namespace : string)
    (entries : list (string * RoutedOverrideSpec)) : list FieldError :=
  ValidateRoutedOverrides (Child (Child basePath "override") "service") (ka_OverrideService spec)
  ++ ValidateTopology spec basePath namespace
  ++ ValidateExternalKeystoneAPI spec basePath entries.

(** [KeystoneAPISpecCore.ValidateCreate] and [ValidateUpdate] *)
Definition CoreValidateCreate (spec : KeystoneAPISpecCore) (basePath : FieldPath) (namespace : string)
    (entries : list (string * RoutedOverrideSpec)) : list string * list FieldError :=
  let '(warnings, errs) := validateDeprecatedFieldsCreate spec basePath in
  (warnings, errs ++ validateSpec spec basePath namespace entries).
Definition CoreValidateUpdate (spec old : KeystoneAPISpecCore) (basePath : FieldPath) (namespace : string)
    (entries : list (string * RoutedOverrideSpec)) : list string * list FieldError :=
  let '(warnings, errs) := validateDeprecatedFieldsUpdate spec old basePath in
  (warnings, errs ++ validateSpec spec basePath namespace entries).

(** The verdict on an object: warnings, and an error when there are field errors. *)
Definition verdict (r : KeystoneAPI) (p : list string * list FieldError) : list string * option GoError :=
  match p with
  | (warns, []) => (warns, None)
  | (warns, errs) => (warns, Some (NewInvalid (Name (ka_meta r)) errs))
  end.

(** [KeystoneAPI.ValidateCreate]; [ValidateUpdate] (an old object of another
    type is [None]); [ValidateDelete] *)
Definition ValidateCreate (r : KeystoneAPI) (entries : list (string * RoutedOverrideSpec))
  : list string * option GoError :=
  verdict r (CoreValidateCreate (ka_core (ka_spec r)) (NewPath "spec") (Namespace (ka_meta r)) entries).
Definition ValidateUpdate (r : KeystoneAPI) (old : option KeystoneAPI) (entries : list (string * RoutedOverrideSpec))
  : list string * option GoError :=
  match old with
  | None => ([], Some (NewInternalError "unable to convert existing object"))
  | Some o =>
      verdict r (CoreValidateUpdate (ka_core (ka_spec r)) (ka_core (ka_spec o)) (NewPath "spec")
                   (Namespace (ka_meta r)) entries)
  end.
Definition ValidateDelete (r : KeystoneAPI) : list string * option GoError := ([], None).
End validation.

(** ** Route annotations *)

Definition haProxyAnno : string := "haproxy.router.openshift.io/timeout".
Definition keystoneAnno : string := "api.keystone.openstack.org/timeout".

Definition SetDefaultRouteAnnotations (spec : KeystoneAPISpecCore) (annotations : gmap string string)
  : gmap string string :=
  match annotations !! keystoneAnno, annotations !! haProxyAnno with
  | None, Some _ => annotations
  | Some valKeystoneAPI, Some valHAProxy =>
      if decide (valKeystoneAPI ≠ valHAProxy) then delete keystoneAnno annotations
      else
        let timeout := pretty (ka_APITimeout spec) +:+ "s" in
        <[haProxyAnno := timeout]> (<[keystoneAnno := timeout]> annotations)
  | _, None =>
      let timeout := pretty (ka_APITimeout spec) +:+ "s" in
      <[haProxyAnno := timeout]> (<[keystoneAnno := timeout]> annotations)
  end.

(** ** Properties *)

Section external_validation.
Context `{XL : ExternalLib} `{WL : WebhookLib}.

(** An endpoint of the override map that the external mode accepts. *)
Definition usableEndpoint (spec : KeystoneAPISpecCore) (endpointType : string) : Prop :=
  exists o u scheme, ka_OverrideService spec !! endpointType = Some o /\ ro_EndpointURL o = Some u /\ u <> "" /\
    urlParse u = inr scheme /\ scheme <> "".

Lemma validateEndpointURL_nil p ty o :
  validateEndpointURL p ty o = [] <->
  exists u scheme, ro_EndpointURL o = Some u /\ u <> "" /\ urlParse u = inr scheme /\ scheme <> "".
Proof.
  unfold validateEndpointURL. split.
  - destruct (ro_EndpointURL o) as [u|]; [|done]. case_decide; [done|].
    destruct (urlParse u) as [e|scheme] eqn:Hu; [done|]. case_decide; [done|]. intros _. by exists u, scheme.
  - intros (u & scheme & -> & Hne & -> & Hs). by rewrite !decide_False.
Qed.

(** What the loop leaves: the two flags, and an error of a bad entry. *)
Lemma validateOverrides_spec p entries hp hi errs :
  let '(hp', hi', errs') := validateOverrides p entries hp hi errs in
  (hp' = true <-> hp = true \/ EndpointPublic ∈ entries.*1) /\
  (hi' = true <-> hi = true \/ EndpointInternal ∈ entries.*1) /\
  (errs' = [] <-> errs = [] /\ forall ty o, (ty, o) ∈ entries -> ty = EndpointPublic \/ ty = EndpointInternal ->
    validateEndpointURL p ty o = []).
Proof.
  assert (EndpointInternal <> EndpointPublic) as Hdiff by done.
  revert hp hi errs; induction entries as [|[ty o] rest IH]; intros hp hi errs; cbn [validateOverrides].
  { cbn. split_and!; [| |split; [intros ->; split; [done|intros ty o Hin]|by intros []]];
      try (split; [by left|intros [?|Hin]; [done|]]); by apply elem_of_nil in Hin. }
  destruct (decide (ty = EndpointPublic)) as [->|Hp].
  - rewrite decide_False by done. specialize (IH true hi (errs ++ validateEndpointURL p EndpointPublic o)).
    destruct (validateOverrides _ _ _ _ _) as [[hp' hi'] errs']. destruct IH as (H1 & H2 & H3). cbn.
    setoid_rewrite elem_of_cons. split_and!.
    + rewrite H1. tauto.
    + rewrite H2. intuition congruence.
    + rewrite H3, app_nil. split.
      * intros [[-> He] Hr]. split; [done|]. intros ty' o' [[= -> ->]|Hin] Hty; [done|by apply Hr].
      * intros [-> Hr]. split; [split; [done|apply Hr; by left]|]. intros ty' o' Hin Hty. apply Hr; [by right|done].
  - destruct (decide (ty = EndpointInternal)) as [->|Hi].
    + specialize (IH hp true (errs ++ validateEndpointURL p EndpointInternal o)).
      destruct (validateOverrides _ _ _ _ _) as [[hp' hi'] errs']. destruct IH as (H1 & H2 & H3). cbn.
      setoid_rewrite elem_of_cons. split_and!.
      * rewrite H1. intuition congruence.
      * rewrite H2. tauto.
      * rewrite H3, app_nil. split.
        -- intros [[-> He] Hr]. split; [done|]. intros ty' o' [[= -> ->]|Hin] Hty; [done|by apply Hr].
        -- intros [-> Hr]. split; [split; [done|apply Hr; [by left|by right]]|].
           intros ty' o' Hin Hty. apply Hr; [by right|done].
    + specialize (IH hp hi errs).
      destruct (validateOverrides _ _ _ _ _) as [[hp' hi'] errs']. destruct IH as (H1 & H2 & H3). cbn.
      setoid_rewrite elem_of_cons. split_and!.
      * rewrite H1. intuition congruence.
      * rewrite H2. intuition congruence.
      * rewrite H3. split.
        -- intros [-> Hr]. split; [done|]. intros ty' o' [[= -> ->]|Hin] Hty; [by destruct Hty|by apply Hr].
        -- intros [-> Hr]. split; [done|]. intros ty' o' Hin Hty. apply Hr; [by right|done].
Qed.

Lemma ValidateExternalKeystoneAPI_spec spec basePath entries :
  entries ≡ₚ map_to_list (ka_OverrideService spec) ->
  ValidateExternalKeystoneAPI spec basePath entries = [] <->
  (ka_ExternalKeystoneAPI spec = true -> usableEndpoint spec EndpointPublic /\ usableEndpoint spec EndpointInternal).
Proof.
  intros Hperm. unfold ValidateExternalKeystoneAPI. destruct (ka_ExternalKeystoneAPI spec); simpl; [|done].
  assert (forall ty o, (ty, o) ∈ entries <-> ka_OverrideService spec !! ty = Some o) as Hin.
  { intros ty o. by rewrite Hperm, elem_of_map_to_list. }
  set (p := Child (Child basePath "override") "service").
  pose proof (validateOverrides_spec p entries false false []) as Hspec.
  destruct (validateOverrides p entries false false []) as [[hp hi] errs]. destruct Hspec as (H1 & H2 & H3).
  assert (forall ty, ty ∈ entries.*1 <-> is_Some (ka_OverrideService spec !! ty)) as Hkeys.
  { intros ty. rewrite list_elem_of_fmap. split.
    - intros ([ty' o] & -> & Ho%Hin). by exists o.
    - intros [o Ho%Hin]. by exists (ty, o). }
  rewrite Hkeys in H1, H2.
  assert (forall ty, ty = EndpointPublic \/ ty = EndpointInternal ->
    errs = [] -> is_Some (ka_OverrideService spec !! ty) -> usableEndpoint spec ty) as Huse.
  { intros ty Hty [_ He]%H3 [o Ho]. pose proof (He ty o ltac:(by apply Hin) Hty) as Hu.
    apply validateEndpointURL_nil in Hu as (u & s & ? & ? & ? & ?). by exists o, u, s. }
  rewrite !app_nil. split.
  - intros (He & Hp & Hi) _. destruct hp; [|done]. destruct hi; [|done].
    destruct (proj1 H1 eq_refl) as [?|Hpub]; [done|]. destruct (proj1 H2 eq_refl) as [?|Hint]; [done|].
    split; apply Huse; auto.
  - intros Hboth. destruct (Hboth eq_refl) as [(o1 & u1 & s1 & Ho1 & Hu1) (o2 & u2 & s2 & Ho2 & Hu2)].
    split_and!.
    + apply H3. split; [done|]. intros ty o Ho%Hin Hty. apply validateEndpointURL_nil.
      destruct Hty as [-> | ->]; [exists u1, s1|exists u2, s2]; simplify_eq; tauto.
    + rewrite (proj2 H1); [done|]. right. by exists o1.
    + rewrite (proj2 H2); [done|]. right. by exists o2.
Qed.

(** C28. The external mode is accepted exactly when the override map has a
    public and an internal endpoint, each with a non-empty URL that parses and
    has a scheme, in whatever order the map is iterated; without the external
    mode nothing is asked. *)
Theorem ValidateExternalKeystoneAPI_iff spec basePath entries :
  entries ≡ₚ map_to_list (ka_OverrideService spec) ->
  ValidateExternalKeystoneAPI spec basePath entries = [] <->
  (ka_ExternalKeystoneAPI spec = true -> usableEndpoint spec EndpointPublic /\ usableEndpoint spec EndpointInternal).
Proof. apply ValidateExternalKeystoneAPI_spec. Qed.

Lemma CoreDefault_idem d core : CoreDefault d (CoreDefault d core) = CoreDefault d core.
Proof. unfold CoreDefault. by repeat case_decide. Qed.

Lemma validate_CoreDefault d core old basePath ns entries :
  CoreValidateCreate (CoreDefault d core) basePath ns entries = CoreValidateCreate core basePath ns entries /\
  CoreValidateUpdate (CoreDefault d core) (CoreDefault d old) basePath ns entries
    = CoreValidateUpdate core old basePath ns entries.
Proof. unfold CoreDefault. by repeat case_decide. Qed.

(** Defaulting is idempotent, keeps every value the user set, and never
    changes the verdict of the validation, on creation and on update (where
    the stored object was defaulted before). *)
Theorem APIDefault_safe d r old entries :
  APIDefault d (APIDefault d r) = APIDefault d r /\
  (ka_ContainerImage (ka_spec r) <> "" -> ka_ContainerImage (ka_spec (APIDefault d r)) = ka_ContainerImage (ka_spec r)) /\
  (ka_APITimeout (ka_core (ka_spec r)) <> 0%Z -> ka_core (ka_spec (APIDefault d r)) = ka_core (ka_spec r)) /\
  ValidateCreate (APIDefault d r) entries = ValidateCreate r entries /\
  ValidateUpdate (APIDefault d r) (APIDefault d <$> old) entries = ValidateUpdate r old entries.
Proof.
  split_and!.
  - unfold APIDefault. cbn [ka_spec ka_meta ka_status ka_core ka_ContainerImage]. rewrite CoreDefault_idem.
    do 2 f_equal. by repeat case_decide.
  - intros Hne. unfold APIDefault. simpl. by rewrite decide_False.
  - intros Hne. unfold APIDefault, CoreDefault. simpl. by rewrite decide_False.
  - unfold ValidateCreate, APIDefault. cbn [ka_spec ka_meta ka_core]. unfold verdict. cbn [ka_meta].
    by rewrite (proj1 (validate_CoreDefault d (ka_core (ka_spec r)) (ka_core (ka_spec r)) _ _ entries)).
  - unfold ValidateUpdate, APIDefault. destruct old as [o|]; [|done]. cbn [fmap option_fmap option_map ka_spec ka_meta ka_core].
    unfold verdict. cbn [ka_meta]. by rewrite (proj2 (validate_CoreDefault _ _ _ _ _ entries)).
Qed.
End external_validation.

(** The HAProxy timeout of the annotations belongs to the user: it is there and
    is not the one the operator recorded. *)
Definition userTimeout (annotations : gmap string string) : Prop :=
  is_Some (annotations !! haProxyAnno) /\ annotations !! keystoneAnno <> annotations !! haProxyAnno.

(** A HAProxy timeout set or changed by the user is never overwritten, and
    stays the user's; any other is set to the API timeout; no other annotation
    changes; and applying the defaults again changes nothing. *)
Theorem SetDefaultRouteAnnotations_owner spec annotations :
  let a := SetDefaultRouteAnnotations spec annotations in
  (userTimeout annotations -> a !! haProxyAnno = annotations !! haProxyAnno /\ a !! keystoneAnno = None) /\
  (~ userTimeout annotations ->
    a !! haProxyAnno = Some (pretty (ka_APITimeout spec) +:+ "s") /\ a !! keystoneAnno = a !! haProxyAnno) /\
  (forall k, k <> haProxyAnno -> k <> keystoneAnno -> a !! k = annotations !! k) /\
  SetDefaultRouteAnnotations spec a = a.
Proof.
  set (timeout := pretty (ka_APITimeout spec) +:+ "s"). cbv zeta. unfold userTimeout, SetDefaultRouteAnnotations.
  fold timeout.
  assert (keystoneAnno <> haProxyAnno) as Hne by done.
  assert (forall m : gmap string string, let a := <[haProxyAnno:=timeout]> (<[keystoneAnno:=timeout]> m) in
    a !! haProxyAnno = Some timeout /\ a !! keystoneAnno = Some timeout /\
    (forall k, k <> haProxyAnno -> k <> keystoneAnno -> a !! k = m !! k) /\
    <[haProxyAnno:=timeout]> (<[keystoneAnno:=timeout]> a) = a) as Hset.
  { intros m. cbv zeta. split_and!.
    - by rewrite lookup_insert_eq.
    - by rewrite lookup_insert_ne, lookup_insert_eq.
    - intros k H1 H2. by rewrite !lookup_insert_ne.
    - apply map_eq. intros k. destruct (decide (k = haProxyAnno)) as [->|H1]; [by rewrite !lookup_insert_eq|].
      destruct (decide (k = keystoneAnno)) as [->|H2].
      + by rewrite !(lookup_insert_ne _ haProxyAnno), !lookup_insert_eq by done.
      + by rewrite !lookup_insert_ne by done. }
  destruct (Hset annotations) as (S1 & S2 & S3 & S4).
  destruct (annotations !! keystoneAnno) as [vk|] eqn:Hk, (annotations !! haProxyAnno) as [vh|] eqn:Hh.
  - destruct (decide (vk ≠ vh)) as [Hd|Hd].
    + rewrite lookup_delete_eq, !lookup_delete_ne, Hh by done.
      split_and!; [done| |intros k ??; by rewrite lookup_delete_ne|done].
      intros Hn. exfalso. apply Hn. split; [by eexists|congruence].
    + apply dec_stable in Hd as ->. rewrite S1, S2, decide_False, S4 by tauto.
      split_and!; [intros [_ H]; done|done|done|done].
  - rewrite S1, S2, decide_False, S4 by tauto. split_and!; [intros [[? [=]] _]|done|done|done].
  - rewrite Hk, Hh. split_and!; [done| |done|done]. intros Hn. exfalso. apply Hn. split; [by eexists|done].
  - rewrite S1, S2, decide_False, S4 by tauto. split_and!; [intros [[? [=]] _]|done|done|done].
Qed.

(** ** Witnesses *)

Definition externalCore (public internal : option string) : KeystoneAPISpecCore :=
  mkAPISpecCore "" "" "" "regionOne" "admin" "admin" (Some 1%Z) "osp-secret" true "" "" false None None "AdminPassword"
    None false "" ∅ (mkHttpdCustomization None None) (mkResources ∅ ∅) []
    {[ "public" := mkRoutedOverride (mkOverrideSpec None "") public;
       "internal" := mkRoutedOverride (mkOverrideSpec None "") internal ]}
    "" (mkTLSAPI (mkGenericService None) (mkGenericService None) "") 60%Z None [] "" true None.

Lemma ValidateExternalKeystoneAPI_iff_witness :
  ValidateExternalKeystoneAPI (externalCore (Some "https://keystone.example.com") (Some "")) (NewPath "spec")
    (map_to_list (ka_OverrideService (externalCore (Some "https://keystone.example.com") (Some "")))) <> [] /\
  usableEndpoint (externalCore (Some "https://a") (Some "http://b")) EndpointInternal.
Proof.
  split; [vm_compute; congruence|].
  apply (ValidateExternalKeystoneAPI_iff (externalCore (Some "https://a") (Some "http://b")) (NewPath "spec")
    (map_to_list (ka_OverrideService (externalCore (Some "https://a") (Some "http://b")))));
    [reflexivity|vm_compute; reflexivity|reflexivity].
Defined.
