(* ===== verification/Helpers.v ===== *)
(** The library other operators use to talk about Keystone services and
    endpoints (api/v1beta1/keystoneendpoint.go, keystoneservice.go,
    keystoneapplicationcredential.go): helpers that create and delete the
    resources, the URL lists they derive from them, and the consumer finalizers
    on application credential secrets. *)
From S2P Require Import Prelude Effects GoTime Api Conditions Instances Calls External Demo.

(** ** KeystoneEndpoint *)

Record KeystoneEndpointHelper := mkEndpointHelper {
  keh_endpoint : KeystoneEndpoint;
  keh_timeout : Z;
  keh_labels : gmap string string;
  keh_id : gmap string string
}.

Definition emptyEndpointStatus : KeystoneEndpointStatus := mkEndpointStatus ∅ "" None [] 0.

Definition NewKeystoneEndpoint (name namespace : string) (spec : KeystoneEndpointSpec) (labels : gmap string string)
    (timeout : Z) : KeystoneEndpointHelper :=
  mkEndpointHelper (mkKeystoneEndpoint (newMeta name namespace) spec emptyEndpointStatus) timeout labels ∅.

Definition GetKeystoneEndpointWithName (name namespace : string) : program (res KeystoneEndpoint) :=
  call (GetKeystoneEndpoint namespace name).

Section endpoints.
Context `{FL : FinalizerLib} `{XL : ExternalLib}.
(** [h.GetFinalizer()] of the calling operator *)
Variable hFinalizer : string.

(** [CreateOrPatch]: the object is looked up by name, its spec and labels are
    set, and the helper is refreshed from the stored object. *)
Definition CreateOrPatch (ke : KeystoneEndpointHelper) : program (KeystoneEndpointHelper * ret) :=
  let m := ke_meta (keh_endpoint ke) in
  let endpoint :=
    mkKeystoneEndpoint (setFinalizers (AddFinalizer hFinalizer []).1 (newMeta (Name m) (Namespace m)))
      (mkEndpointSpec "" ∅) emptyEndpointStatus in
  err ← call (CreateOrPatchKeystoneEndpoint endpoint (fun e =>
    mkKeystoneEndpoint (setLabels (MergeStringMaps (Labels (ke_meta e)) (keh_labels ke)) (ke_meta e))
      (ke_spec (keh_endpoint ke)) (ke_status e)));
  match err with
  | Some e => mret (ke, if IsNotFound e then requeue (keh_timeout ke) else failWith e)
  | None =>
      r ← GetKeystoneEndpointWithName (Name m) (Namespace m);
      mret match r with
      | inl e => (ke, failWith e)
      | inr stored =>
          (mkEndpointHelper stored (keh_timeout ke) (keh_labels ke) (kes_EndpointIDs (ke_status stored)), done_)
      end
  end.

Definition GetEndpointIDs (ke : KeystoneEndpointHelper) : gmap string string := keh_id ke.
Definition ValidateGeneration (ke : KeystoneEndpointHelper) : bool :=
  bool_decide (Generation (ke_meta (keh_endpoint ke)) = kes_ObservedGeneration (ke_status (keh_endpoint ke))).

(** An error, unless it says that the object is gone. *)
Definition ignoreNotFound (err : option GoError) : option GoError :=
  match err with Some e => if IsNotFound e then None else Some e | None => None end.

(** [Delete]: delete the object, then take the operator's finalizer off it. *)
Definition Delete (ke : KeystoneEndpointHelper) : program (option GoError) :=
  let m := ke_meta (keh_endpoint ke) in
  r ← GetKeystoneEndpointWithName (Name m) (Namespace m);
  match r with
  | inl e => mret (if IsNotFound e then None else Some e)
  | inr endpoint =>
      err ← call (DeleteKeystoneEndpoint endpoint);
      match ignoreNotFound err with
      | Some e => mret (Some e)
      | None =>
          let '(fs, changed) := RemoveFinalizer hFinalizer (Finalizers (ke_meta endpoint)) in
          if changed then
            err ← call (UpdateKeystoneEndpoint (ke_setFinalizers fs endpoint));
            mret (ignoreNotFound err)
          else mret None
      end
  end.

Definition DeleteKeystoneEndpointWithName (name namespace : string) : program (option GoError) :=
  r ← GetKeystoneEndpointWithName name namespace;
  match r with
  | inl e => mret (if IsNotFound e then None else Some e)
  | inr ke => Delete (NewKeystoneEndpoint (Name (ke_meta ke)) namespace (ke_spec ke) ∅ 10)
  end.

(** ** The URLs of the registered endpoints *)

Definition GetKeystoneEndpointList (namespace : string) : program (res (list KeystoneEndpoint)) :=
  r ← call (ListKeystoneEndpoints namespace);
  mret match r with
  | inl e => inl (wrapErr ("error listing endpoints for namespace " +:+ namespace) e)
  | inr l => inr l
  end.

Definition getEndpointForVisibility (endpts : list Endpoint) (visibility : string) : option Endpoint :=
  let idx := IndexFunc (fun e => bool_decide (e_Interface e = visibility)) endpts in
  if (0 <=? idx)%Z then endpts !! Z.to_nat idx else None.

(** The URLs one KeystoneEndpoint contributes. *)
Definition urlsOf (visibility : option string) (ke : KeystoneEndpoint) : list string :=
  match visibility with
  | Some v =>
      match getEndpointForVisibility (kes_Endpoints (ke_status ke)) v with
      | Some endpt => [e_URL endpt]
      | None => []
      end
  | None => map e_URL (kes_Endpoints (ke_status ke))
  end.

Definition filterVisibility (keystoneEndpoints : list KeystoneEndpoint) (visibility : option string) : list string :=
  sortStrings (keystoneEndpoints ≫= urlsOf visibility).

(** The value of the selector label is one of the services to keep. *)
Definition keepsService (servicesToKeep : list string) (endpt : KeystoneEndpoint) : bool :=
  match Labels (ke_meta endpt) !! AppSelector with
  | Some svc => bool_decide (svc ∈ (list_to_set servicesToKeep : gset string))
  | None => false
  end.
Definition filterServices (all : list KeystoneEndpoint) (servicesToKeep : list string) : list KeystoneEndpoint :=
  filter (fun endpt => keepsService servicesToKeep endpt = true) all.

Definition GetKeystoneEndpointUrls (namespace : string) (visibility : option string) : program (res (list string)) :=
  r ← GetKeystoneEndpointList namespace;
  mret match r with inl e => inl e | inr l => inr (filterVisibility l visibility) end.

Definition GetKeystoneEndpointUrlsForServices (namespace : string) (visibility : option string)
    (servicesToKeep : list string) : program (res (list string)) :=
  r ← GetKeystoneEndpointList namespace;
  mret match r with
  | inl e => inl e
  | inr l => inr (filterVisibility (match servicesToKeep with [] => l | _ => filterServices l servicesToKeep end) visibility)
  end.

Definition GetHashforKeystoneEndpointUrlsForServices (namespace : string) (visibility : option string)
    (servicesToKeep : list string) : program (res string) :=
  r ← GetKeystoneEndpointUrlsForServices namespace visibility servicesToKeep;
  mret match r with
  | inl e => inl e
  | inr [] => inr ""
  | inr urls => ObjectHashURLs urls
  end.
End endpoints.

(** ** KeystoneService *)

Record KeystoneServiceHelper := mkServiceHelper {
  ksh_service : KeystoneService;
  ksh_timeout : Z;
  ksh_labels : gmap string string;
  ksh_id : string
}.

(** [NewKeystoneService]: the object is named after the service. *)
Definition NewKeystoneService (spec : KeystoneServiceSpec) (namespace : string) (labels : gmap string string)
    (timeout : Z) : KeystoneServiceHelper :=
  mkServiceHelper (mkService (newMeta (ks_ServiceName spec) namespace) spec (mkServiceStatus "" None)) timeout labels "".

Definition GetKeystoneServiceWithName (name namespace : string) : program (res KeystoneService) :=
  call (GetKeystoneService namespace name).

Section services.
Context `{FL : FinalizerLib} `{XL : ExternalLib}.
Variable hFinalizer : string.

Definition ServiceCreateOrPatch (ks : KeystoneServiceHelper) : program (KeystoneServiceHelper * ret) :=
  let m := ks_meta (ksh_service ks) in
  let service :=
    mkService (setFinalizers (AddFinalizer hFinalizer []).1 (newMeta (Name m) (Namespace m)))
      (mkServiceSpec "" "" "" false "" "" "") (mkServiceStatus "" None) in
  err ← call (CreateOrPatchKeystoneService service (fun s =>
    mkService (setLabels (MergeStringMaps (Labels (ks_meta s)) (ksh_labels ks)) (ks_meta s))
      (ks_spec (ksh_service ks)) (ks_status s)));
  match err with
  | Some e => mret (ks, if IsNotFound e then requeue (ksh_timeout ks) else failWith e)
  | None =>
      r ← GetKeystoneServiceWithName (Name m) (Namespace m);
      mret match r with
      | inl e => (ks, failWith e)
      | inr stored =>
          (mkServiceHelper stored (ksh_timeout ks) (ksh_labels ks) (ks_ServiceID (ks_status stored)), done_)
      end
  end.

Definition GetServiceID (ks : KeystoneServiceHelper) : string := ksh_id ks.

Definition ServiceDelete (ks : KeystoneServiceHelper) : program (option GoError) :=
  let m := ks_meta (ksh_service ks) in
  r ← GetKeystoneServiceWithName (Name m) (Namespace m);
  match r with
  | inl e => mret (if IsNotFound e then None else Some e)
  | inr service =>
      err ← call (DeleteKeystoneService service);
      match ignoreNotFound err with
      | Some e => mret (Some e)
      | None =>
          let '(fs, changed) := RemoveFinalizer hFinalizer (Finalizers (ks_meta service)) in
          if changed then
            err ← call (UpdateKeystoneService (ks_setFinalizers fs service));
            mret (ignoreNotFound err)
          else mret None
      end
  end.

Definition DeleteKeystoneServiceWithName (name namespace : string) : program (option GoError) :=
  r ← GetKeystoneServiceWithName name namespace;
  match r with
  | inl e => mret (if IsNotFound e then None else Some e)
  | inr ks => ServiceDelete (NewKeystoneService (ks_spec ks) namespace ∅ 10)
  end.
End services.

(** ** Consumer finalizers on application credential secrets *)

(** The secrets to give and to take the consumer finalizer, for
    object.ManageConsumerFinalizer (lib-common). *)
Definition ManageACSecretFinalizer (manage : option Secret -> option Secret -> string -> program (option GoError))
    (namespace newSecretName oldSecretName consumerFinalizer : string) : program (option GoError) :=
  if decide (newSecretName = oldSecretName) then mret None
  else
    n ← (if decide (newSecretName = "") then mret (inr None)
         else
           s ← call (GetSecret namespace newSecretName);
           mret match s with
           | inl e => inl (wrapErr ("failed to get new AC secret " +:+ newSecretName) e)
           | inr s => inr (Some s)
           end);
    match n with
    | inl e => mret (Some e)
    | inr newObj =>
        o ← (if decide (oldSecretName = "") then mret (inr None)
             else
               s ← call (GetSecret namespace oldSecretName);
               mret match s with
               | inl e => if IsNotFound e then inr None
                          else inl (wrapErr ("failed to get old AC secret " +:+ oldSecretName) e)
               | inr s => inr (Some s)
               end);
        match o with
        | inl e => mret (Some e)
        | inr oldObj => manage newObj oldObj consumerFinalizer
        end
    end.

Definition RemoveACSecretConsumerFinalizer (remove : Secret -> string -> program (option GoError))
    (namespace secretName consumerFinalizer : string) : program (option GoError) :=
  if decide (secretName = "") then mret None
  else
    s ← call (GetSecret namespace secretName);
    match s with
    | inl e => mret (if IsNotFound e then None else Some e)
    | inr secret => remove secret consumerFinalizer
    end.

(** ** Properties *)

Section urls.
Context `{XL : ExternalLib}.

Lemma urlsOf_visibility v ke u :
  NoDup (e_Interface <$> kes_Endpoints (ke_status ke)) ->
  u ∈ urlsOf (Some v) ke <-> exists e, e ∈ kes_Endpoints (ke_status ke) /\ e_Interface e = v /\ e_URL e = u.
Proof.
  intros Hnd. unfold urlsOf, getEndpointForVisibility.
  set (f := fun e => bool_decide (e_Interface e = v)).
  destruct (Z.lt_ge_cases (IndexFunc f (kes_Endpoints (ke_status ke))) 0) as [Hlt|Hge].
  - rewrite (proj2 (Z.leb_gt _ _)) by done. split; [by intros ?%elem_of_nil|].
    intros (e & He & Hv & _). eapply IndexFunc_none in Hlt; [|exact He]. by apply bool_decide_eq_false_1 in Hlt.
  - rewrite (proj2 (Z.leb_le _ _)) by done.
    destruct (IndexFunc_some f (kes_Endpoints (ke_status ke)) Hge) as (l1 & x & l2 & Hl & Hx & Hl1 & Hn).
    rewrite Hn, Hl, list_lookup_middle by done. apply bool_decide_eq_true_1 in Hx.
    rewrite list_elem_of_singleton. split; [intros ->; exists x; set_solver|].
    intros (e & He & Hv & <-). f_equal. rewrite Hl, fmap_app, fmap_cons in Hnd.
    apply NoDup_app in Hnd as (_ & H12 & [Hx2 _]%NoDup_cons).
    apply elem_of_app in He as [He|[->|He]%elem_of_cons]; [|done|].
    + specialize (Hl1 e He). by apply bool_decide_eq_false_1 in Hl1.
    + exfalso. apply Hx2. rewrite Hx, <- Hv. by apply list_elem_of_fmap_2.
Qed.

Lemma urlsOf_all ke u : u ∈ urlsOf None ke <-> exists e, e ∈ kes_Endpoints (ke_status ke) /\ e_URL e = u.
Proof. unfold urlsOf. rewrite list_elem_of_fmap. set_solver. Qed.

(** The KeystoneEndpoints a call keeps. *)
Definition kept (servicesToKeep : list string) (ke : KeystoneEndpoint) : Prop :=
  servicesToKeep = [] \/ exists svc, Labels (ke_meta ke) !! AppSelector = Some svc /\ svc ∈ servicesToKeep.

Lemma filterVisibility_perm l1 l2 v : l1 ≡ₚ l2 -> filterVisibility l1 v = filterVisibility l2 v.
Proof. intros H. apply sortStrings_canonical. by rewrite H. Qed.

(** The list the call answers, for the list of the API server. *)
Definition keptURLs (visibility : option string) (servicesToKeep : list string) (l : list KeystoneEndpoint) : list string :=
  filterVisibility (match servicesToKeep with [] => l | _ => filterServices l servicesToKeep end) visibility.

Lemma elem_of_keptURLs visibility services l u :
  (forall ke, ke ∈ l -> NoDup (e_Interface <$> kes_Endpoints (ke_status ke))) ->
  u ∈ keptURLs visibility services l <->
  exists ke e, ke ∈ l /\ kept services ke /\ e ∈ kes_Endpoints (ke_status ke) /\ e_URL e = u /\
    forall v, visibility = Some v -> e_Interface e = v.
Proof.
  intros Hnd. unfold keptURLs, filterVisibility. rewrite elem_of_sortStrings, list_elem_of_bind.
  assert (forall ke, ke ∈ (match services with [] => l | _ => filterServices l services end) <-> ke ∈ l /\ kept services ke)
    as Hkeep.
  { intros ke. unfold kept. destruct services as [|s ss]; [by intuition|].
    unfold filterServices. rewrite list_elem_of_filter. unfold keepsService.
    destruct (Labels (ke_meta ke) !! AppSelector) as [svc|].
    - rewrite bool_decide_eq_true, elem_of_list_to_set. split; [intros [? ?]; split; [done|right; by exists svc]|].
      intros [? [?|(svc' & [= <-] & ?)]]; done.
    - split; [by intros []|intros [_ [?|(? & [=] & _)]]; done]. }
  setoid_rewrite Hkeep. split.
  - intros (ke & Hu & Hin & Hk). destruct visibility as [v|].
    + apply urlsOf_visibility in Hu as (e & He & Hv & Hu); [|by apply Hnd]. exists ke, e. split_and!; try done.
      by intros v' [= <-].
    + apply urlsOf_all in Hu as (e & He & Hu). by exists ke, e.
  - intros (ke & e & Hin & Hk & He & Hu & Hv). exists ke. split; [|done]. destruct visibility as [v|].
    + apply urlsOf_visibility; [by apply Hnd|]. exists e. auto.
    + apply urlsOf_all. by exists e.
Qed.

(** C37. The URL list other operators hash is canonical: it is sorted, does
    not depend on the order in which the API server lists the
    KeystoneEndpoints, and has exactly the URLs of the endpoints of the
    requested visibility (all, if none is given) of the requested services
    (all, if none is given). *)
Theorem GetKeystoneEndpointUrlsForServices_canonical ns visibility services t urls :
  runs (GetKeystoneEndpointUrlsForServices ns visibility services) t (inr urls) ->
  exists l, t = [Ev (ListKeystoneEndpoints ns) (inr l)] /\
    StronglySorted string_le urls /\
    (forall l', l' ≡ₚ l -> keptURLs visibility services l' = urls) /\
    ((forall ke, ke ∈ l -> NoDup (e_Interface <$> kes_Endpoints (ke_status ke))) ->
     forall u, u ∈ urls <-> exists ke e, ke ∈ l /\ kept services ke /\ e ∈ kes_Endpoints (ke_status ke) /\
       e_URL e = u /\ forall v, visibility = Some v -> e_Interface e = v).
Proof.
  intros ([e|l] & t' & -> & Hr); runs_norm Hr; destruct Hr as [-> [= <-]]. exists l. split_and!; [done| | |].
  - apply sortStrings_sorted.
  - intros l' Hl. apply filterVisibility_perm. destruct services; [done|]. unfold filterServices. by rewrite Hl.
  - intros Hnd u. by apply elem_of_keptURLs.
Qed.
End urls.

(** ** Witnesses *)

Definition listHandler (X : Type) (c : Call X) (w : unit) : X * unit :=
  match c in Call X return X * unit with
  | ListKeystoneEndpoints _ =>
      (inr [mkKeystoneEndpoint (newMeta "b" "openstack") demoEndpointSpec
              (mkEndpointStatus ∅ "" None [mkEndpoint "public" "http://b" "2"] 0); demoEndpoint], w)
  | c => demoHandler _ c w
  end.

Lemma GetKeystoneEndpointUrlsForServices_canonical_witness :
  let p := GetKeystoneEndpointUrlsForServices "openstack" None [] in
  resultWith listHandler p = inr ["http://admin"; "http://b"] /\
  StronglySorted string_le ["http://admin"; "http://b"].
Proof.
  split; [vm_compute; reflexivity|].
  destruct (GetKeystoneEndpointUrlsForServices_canonical "openstack" None []
    (traceWith listHandler (GetKeystoneEndpointUrlsForServices "openstack" None [])) ["http://admin"; "http://b"])
    as (l & _ & Hs & _); [|exact Hs].
  exact (runsWith listHandler (GetKeystoneEndpointUrlsForServices "openstack" None [])).
Defined.
