(* ===== verification/Pods.v ===== *)
(** The pods of Keystone (internal/keystone): the volumes and mounts of the
    deployment, of the bootstrap and db-sync jobs and of the cron job, and the
    federation files, from the secret to the mount.

    A nil dereference of the code is the outer [None]. *)
From S2P Require Import Prelude Effects GoTime Api Conditions Instances Workloads Calls External Demo Fernet.
Open Scope Z_scope.

(** ** The libraries that build volumes (lib-common volume, tls, storage, env, pod) *)

Class PodLib := {
  TmpVolumeName : string; TmpMountPath : string;
  RunHttpdVolumeName : string; RunHttpdMountPath : string;
  VarLogHttpdVolumeName : string; VarLogHttpdMountPath : string;
  WritableDirVolume : string -> Volume;
  WritableDirVolumeMount : string -> string -> VolumeMount;
  (** tls.Ca *)
  CaCreateVolume : string -> Volume;
  CaCreateVolumeMounts : string -> list VolumeMount;
  (** tls.API.Enabled *)
  APIEnabled : TLSAPI -> string -> bool;
  (** tls.GenericService.ToService followed by the certificate volume of an
      endpoint, mounted at the given paths *)
  EndptCreateVolume : GenericService -> string -> res Volume;
  EndptCreateVolumeMounts : GenericService -> string -> string -> string -> list VolumeMount;
  (** memcachedv1 *)
  MTLSVolume : Memcached -> Volume;
  MTLSVolumeMounts : Memcached -> list VolumeMount;
  (** [VolMounts.Propagate]; [ToCoreVolumeSource], nil on error *)
  Propagate : VolMounts -> list string -> list VolMounts;
  ToCoreVolumeSource : StorageVolume -> option VolumeSource;
  MergeEnvs : list EnvVar -> gmap string string -> list EnvVar;
  RestrictivePodSecurityContext : list string -> string;
  RestrictiveSecurityContext : list string -> string;
  StringsFields : string -> list string;
  (** [json.Unmarshal] into a map of raw messages, [json.Marshal] of strings *)
  JsonUnmarshalMap : string -> res (gmap string string);
  JsonMarshalStrings : list string -> res string
}.

(** Mounts name the volume that was created with them. *)
Class PodLaws `{PodLib} := {
  WritableDirVolume_name n : v_Name (WritableDirVolume n) = n;
  WritableDirVolumeMount_name n p : vm_Name (WritableDirVolumeMount n p) = n;
  CaCreateVolumeMounts_name s vm : vm ∈ CaCreateVolumeMounts s -> vm_Name vm = v_Name (CaCreateVolume s);
  EndptCreateVolumeMounts_name g e c k v vm :
    EndptCreateVolume g e = inr v -> vm ∈ EndptCreateVolumeMounts g e c k -> vm_Name vm = v_Name v;
  MTLSVolumeMounts_name m vm : vm ∈ MTLSVolumeMounts m -> vm_Name vm = v_Name (MTLSVolume m);
  MergeEnvs_keeps base extra x : x ∈ base -> (extra !! ev_Name x = None) -> x ∈ MergeEnvs base extra
}.

(** ** filepath.Join *)

Fixpoint splitSlash (s acc : string) : list string :=
  match s with
  | EmptyString => [acc]
  | String c s' => if decide (String c EmptyString = "/") then acc :: splitSlash s' "" else splitSlash s' (acc +:+ String c EmptyString)
  end.
(** Resolve the elements of a path, last element first in [stack]. *)
Fixpoint cleanElements (rooted : bool) (els stack : list string) : list string :=
  match els with
  | [] => reverse stack
  | e :: rest =>
      if decide (e = "" \/ e = ".") then cleanElements rooted rest stack
      else if decide (e = "..") then
        match stack with
        | top :: below => if decide (top = "..") then cleanElements rooted rest (e :: stack) else cleanElements rooted rest below
        | [] => cleanElements rooted rest (if rooted then [] else [e])
        end
      else cleanElements rooted rest (e :: stack)
  end.
Definition filepathClean (p : string) : string :=
  let rooted := HasPrefix p "/" in
  match cleanElements rooted (splitSlash p "") [] with
  | [] => if rooted then "/" else "."
  | els => (if rooted then "/" else "") +:+ joinWith "/" els
  end.
Definition filepathJoin (a b : string) : string :=
  match filter (fun s => s <> "") [a; b] with
  | [] => ""
  | els => filepathClean (joinWith "/" els)
  end.

(** ** Constants (internal/keystone/const.go) *)

Definition ServiceName : string := "keystone".
Definition KeystonePublicPort : Z := 5000.
Definition FederationConfigKey : string := "federation-config.json".
Definition FederationMultiRealmSecret : string := "keystone-multirealm-federation-secret".
Definition FederationDefaultMountPath : string := "/var/lib/httpd/metadata".
Definition VarLogKeystoneVolumeName : string := "var-log-keystone".
Definition KeystonePropagation : list string := ["Keystone"].
Definition DBSyncPropagation : list string := ["DBSync"].
Definition BootstrapPropagation : list string := ["KeystoneBootstrap"].
Definition KeystoneCronJobPropagation : list string := ["KeystoneCron"].
Definition configAccessMode : Z := 288.

(** ** Volumes and mounts *)

Section volumes.
Context `{PL : PodLib}.

(** [KeystoneExtraMounts.Propagate] *)
Definition ExtraMountsPropagate (c : KeystoneExtraMounts) (svc : list string) : list VolMounts :=
  em_VolMounts c ≫= fun gv => Propagate gv svc.

(** The keys of the fernet-keys volume. *)
Definition fernetItems (numberKeys : Z) : list KeyToPath :=
  (fun i : Z => mkKeyToPath (fernetKey i) (pretty i)) <$> seqZ 0 numberKeys.

Definition extraVolumes (extraVol : list KeystoneExtraMounts) (svc : list string) : option (list Volume) :=
  mapM (fun v => src ← ToCoreVolumeSource v; Some (mkVolume (sv_Name v) src))
    (extraVol ≫= fun exv => ExtraMountsPropagate exv svc ≫= vms_Volumes).

(** [getVolumes] dereferences FernetMaxActiveKeys and the source of every
    extra volume. *)
Definition getVolumes (instance : KeystoneAPI) (extraVol : list KeystoneExtraMounts) (svc : list string)
  : option (list Volume) :=
  numberKeys ← ka_FernetMaxActiveKeys (ka_core (ka_spec instance));
  extra ← extraVolumes extraVol svc;
  Some ([mkVolume "config-data" (SecretSource (Name (ka_meta instance) +:+ "-config-data") [] configAccessMode);
         mkVolume "fernet-keys" (SecretSource ServiceName (fernetItems numberKeys) configAccessMode);
         mkVolume "credential-keys"
           (SecretSource ServiceName [mkKeyToPath "CredentialKeys0" "0"; mkKeyToPath "CredentialKeys1" "1"] configAccessMode);
         WritableDirVolume TmpVolumeName] ++ extra).

Definition configMount (path sub : string) : VolumeMount := mkVolumeMount "config-data" path sub true.
Definition fernetMount : VolumeMount := mkVolumeMount "fernet-keys" "/etc/keystone/fernet-keys" "" true.
Definition credentialMount : VolumeMount := mkVolumeMount "credential-keys" "/etc/keystone/credential-keys" "" true.
Definition tmpMount : VolumeMount := WritableDirVolumeMount TmpVolumeName TmpMountPath.

Definition getVolumeMounts (extraVol : list KeystoneExtraMounts) (svc : list string) : list VolumeMount :=
  [configMount "/etc/keystone/keystone.conf" "keystone.conf";
   configMount "/etc/keystone/keystone.conf.d/custom.conf" "custom.conf";
   configMount "/etc/httpd/conf/httpd.conf" "httpd.conf";
   configMount "/etc/httpd/conf.d/ssl.conf" "ssl.conf";
   configMount "/etc/my.cnf" "my.cnf";
   fernetMount; credentialMount;
   WritableDirVolumeMount RunHttpdVolumeName RunHttpdMountPath;
   tmpMount;
   WritableDirVolumeMount VarLogKeystoneVolumeName "/var/log/keystone";
   WritableDirVolumeMount VarLogHttpdVolumeName VarLogHttpdMountPath]
  ++ (extraVol ≫= fun exv => ExtraMountsPropagate exv svc ≫= vms_Mounts).

Definition getBootstrapVolumeMounts : list VolumeMount :=
  [configMount "/etc/keystone/keystone.conf" "keystone.conf";
   configMount "/etc/keystone/keystone.conf.d/custom.conf" "custom.conf";
   configMount "/etc/my.cnf" "my.cnf"; fernetMount; credentialMount; tmpMount].
Definition getCronJobVolumeMounts : list VolumeMount :=
  [configMount "/etc/keystone/keystone.conf" "keystone.conf"; configMount "/etc/my.cnf" "my.cnf"; fernetMount; tmpMount].
Definition getDBSyncVolumeMounts : list VolumeMount :=
  [configMount "/etc/keystone/keystone.conf" "keystone.conf"; configMount "/etc/my.cnf" "my.cnf"; tmpMount].

(** ** Federation *)

Definition federationVolumeName (index : nat) : string := "federation-realm-volume" +:+ Itoa index.
Definition getFederationVolumeMounts (federationMountPath : string) (federationFilenames : list string)
  : list VolumeMount :=
  imap (fun index filename =>
    mkVolumeMount (federationVolumeName index) (filepathJoin federationMountPath filename) (Itoa index) true)
    federationFilenames.
Definition getFederationVolumes (federationFilenames : list string) : list Volume :=
  imap (fun index _ => mkVolume (federationVolumeName index) (SecretSource FederationMultiRealmSecret [] configAccessMode))
    federationFilenames.

(** ** The parts the pods share *)

Definition caVolumes (i : KeystoneAPI) : list Volume * list VolumeMount :=
  let bundle := tls_CaBundleSecretName (ka_TLS (ka_core (ka_spec i))) in
  if decide (bundle = "") then ([], []) else ([CaCreateVolume bundle], CaCreateVolumeMounts bundle).
Definition mtlsVolumes (m : Memcached) : list Volume * list VolumeMount :=
  if decide (mc_MTLSSecret m = "") then ([], []) else ([MTLSVolume m], MTLSVolumeMounts m).
Definition federationVolumes (i : KeystoneAPI) (filenames : list string) : list Volume * list VolumeMount :=
  if decide (ka_FederatedRealmConfig (ka_core (ka_spec i)) = "") then ([], [])
  else (mkVolume "federation-realm-dir" EmptyDir :: getFederationVolumes filenames,
        mkVolumeMount "federation-realm-dir" FederationDefaultMountPath "" false
          :: getFederationVolumeMounts FederationDefaultMountPath filenames).

(** The certificate volumes of the two endpoints *)
Definition TLSService (i : KeystoneAPI) (endpt : string) : GenericService :=
  if decide (endpt = EndpointPublic) then tls_Public (ka_TLS (ka_core (ka_spec i)))
  else tls_Internal (ka_TLS (ka_core (ka_spec i))).
Definition TLSEnabled (i : KeystoneAPI) (endpt : string) : bool := APIEnabled (ka_TLS (ka_core (ka_spec i))) endpt.
Fixpoint certVolumes (i : KeystoneAPI) (endpts : list string) : res (list Volume * list VolumeMount) :=
  match endpts with
  | [] => inr ([], [])
  | endpt :: rest =>
      if TLSEnabled i endpt then
        match EndptCreateVolume (TLSService i endpt) endpt with
        | inl e => inl e
        | inr v =>
            match certVolumes i rest with
            | inl e => inl e
            | inr (vs, ms) =>
                inr (v :: vs,
                     EndptCreateVolumeMounts (TLSService i endpt) endpt
                       ("/etc/pki/tls/certs/" +:+ endpt +:+ ".crt") ("/etc/pki/tls/private/" +:+ endpt +:+ ".key") ++ ms)
            end
        end
      else certVolumes i rest
  end.
Definition customMounts (keys : list string) : list VolumeMount :=
  (fun key => configMount ("/etc/httpd/conf/" +:+ key) key) <$> keys.

(** The volumes and mounts of the deployment. *)
Definition deploymentVolumes (i : KeystoneAPI) (federationFilenames : list string) (memcached : Memcached)
    (customConfigKeys : list string) : option (res (list Volume * list VolumeMount)) :=
  volumes ← getVolumes i (ka_ExtraMounts (ka_core (ka_spec i))) KeystonePropagation;
  Some match certVolumes i [EndpointInternal; EndpointPublic] with
       | inl e => inl e
       | inr (certVs, certMs) =>
           inr (volumes
                ++ [WritableDirVolume RunHttpdVolumeName; WritableDirVolume VarLogKeystoneVolumeName;
                    WritableDirVolume VarLogHttpdVolumeName]
                ++ (caVolumes i).1 ++ (federationVolumes i federationFilenames).1 ++ (mtlsVolumes memcached).1 ++ certVs,
                getVolumeMounts (ka_ExtraMounts (ka_core (ka_spec i))) KeystonePropagation
                ++ (caVolumes i).2 ++ (federationVolumes i federationFilenames).2 ++ (mtlsVolumes memcached).2 ++ certMs
                ++ customMounts customConfigKeys)
       end.

(** ** The workloads *)

Definition httpProbe (i : KeystoneAPI) : Probe :=
  mkProbe 30 30 5 "/v3" KeystonePublicPort (if TLSEnabled i EndpointPublic then "HTTPS" else "").

Definition Deployment (instance : KeystoneAPI) (configHash : string) (labels annotations : gmap string string)
    (topology : option string) (appSelector : string) (federationFilenames : list string) (memcached : Memcached)
    (customConfigKeys : list string) : option (res DeploymentSpec) :=
  vols ← deploymentVolumes instance federationFilenames memcached customConfigKeys;
  Some match vols with
       | inl e => inl e
       | inr (volumes, volumeMounts) =>
           let core := ka_core (ka_spec instance) in
           inr {|
             dp_Name := ServiceName; dp_Namespace := Namespace (ka_meta instance);
             dp_Labels := labels; dp_Annotations := annotations; dp_Replicas := ka_Replicas core;
             dp_Pod := {|
               ps_RestartPolicy := "";
               ps_ServiceAccountName := RbacResourceName instance; ps_AutomountToken := false;
               ps_SecurityContext := RestrictivePodSecurityContext ["KeystoneUID"; "KeystoneGID"; "ApacheGID"];
               ps_Volumes := volumes;
               ps_Container := {|
                 ct_Name := ServiceName +:+ "-api"; ct_Image := ka_ContainerImage (ka_spec instance);
                 ct_Command := ["/bin/bash"]; ct_Args := ["-c"; "/usr/sbin/httpd -DFOREGROUND"];
                 ct_SecurityContext := RestrictiveSecurityContext ["KeystoneUID"; "KeystoneGID"];
                 ct_Env := MergeEnvs [] {[ "CONFIG_HASH" := configHash ]};
                 ct_VolumeMounts := volumeMounts; ct_Resources := ka_Resources core;
                 ct_ReadinessProbe := Some (httpProbe instance); ct_LivenessProbe := Some (httpProbe instance) |};
               ps_NodeSelector := ka_NodeSelector core |};
             dp_Placement := match topology with
                             | Some t => PlaceTopology t
                             | None => DistributePods appSelector [ServiceName] "kubernetes.io/hostname"
                             end |}
       end.

(** The pod of a job or cron job, which have no resources and no probes. *)
Definition jobPod (i : KeystoneAPI) (name restartPolicy : string) (command args : list string) (env : list EnvVar)
    (volumes : list Volume) (mounts : list VolumeMount) : PodSpec := {|
  ps_RestartPolicy := restartPolicy;
  ps_ServiceAccountName := RbacResourceName i; ps_AutomountToken := false;
  ps_SecurityContext := RestrictivePodSecurityContext ["KeystoneUID"; "KeystoneGID"];
  ps_Volumes := volumes;
  ps_Container := {|
    ct_Name := name; ct_Image := ka_ContainerImage (ka_spec i); ct_Command := command; ct_Args := args;
    ct_SecurityContext := RestrictiveSecurityContext ["KeystoneUID"; "KeystoneGID"]; ct_Env := env;
    ct_VolumeMounts := mounts; ct_Resources := mkResources ∅ ∅; ct_ReadinessProbe := None; ct_LivenessProbe := None |};
  ps_NodeSelector := ka_NodeSelector (ka_core (ka_spec i)) |}.

(** The environment of the bootstrap: the password comes from the secret's
    key "AdminPassword", the URLs from the endpoints that are there. *)
Definition bootstrapPassword (i : KeystoneAPI) : EnvVar :=
  mkEnvVar "OS_BOOTSTRAP_PASSWORD" (EnvFromSecret (ka_Secret (ka_core (ka_spec i))) "AdminPassword").
Definition bootstrapEnv (i : KeystoneAPI) (endpoints : gmap string string) : gmap string string :=
  let core := ka_core (ka_spec i) in
  let env := <["OS_BOOTSTRAP_REGION_ID" := ka_Region core]>
             (<["OS_BOOTSTRAP_SERVICE_NAME" := ServiceName]>
             (<["OS_BOOTSTRAP_PROJECT_NAME" := ka_AdminProject core]>
             {[ "OS_BOOTSTRAP_USERNAME" := ka_AdminUser core ]})) in
  let env := match endpoints !! "admin" with Some u => <["OS_BOOTSTRAP_ADMIN_URL" := u]> env | None => env end in
  let env := match endpoints !! "internal" with Some u => <["OS_BOOTSTRAP_INTERNAL_URL" := u]> env | None => env end in
  match endpoints !! "public" with Some u => <["OS_BOOTSTRAP_PUBLIC_URL" := u]> env | None => env end.

Definition BootstrapJob (i : KeystoneAPI) (labels annotations endpoints : gmap string string) (memcached : Memcached)
  : option Job :=
  volumes ← getVolumes i [] BootstrapPropagation;
  Some (mkJob (ServiceName +:+ "-bootstrap") (Namespace (ka_meta i)) labels annotations
    (jobPod i (ServiceName +:+ "-bootstrap") "OnFailure" ["/bin/bash"] ["-c"; "keystone-manage bootstrap"]
       (MergeEnvs [bootstrapPassword i] (bootstrapEnv i endpoints))
       (volumes ++ (caVolumes i).1 ++ (mtlsVolumes memcached).1)
       (getBootstrapVolumeMounts ++ (caVolumes i).2 ++ (mtlsVolumes memcached).2))).

Definition DbSyncJob (i : KeystoneAPI) (labels annotations : gmap string string) : option Job :=
  volumes ← getVolumes i [] DBSyncPropagation;
  Some (mkJob (ServiceName +:+ "-db-sync") (Namespace (ka_meta i)) labels annotations
    (jobPod i (ServiceName +:+ "-db-sync") "OnFailure" ["/bin/bash"] ["-c"; "keystone-manage db_sync"] (MergeEnvs [] ∅)
       (volumes ++ (caVolumes i).1) (getDBSyncVolumeMounts ++ (caVolumes i).2))).

Definition CronJob (i : KeystoneAPI) (labels annotations : gmap string string) (memcached : Memcached)
  : option CronJobSpec :=
  let core := ka_core (ka_spec i) in
  let cmd := ["keystone-manage"; "trust_flush"]
             ++ (if decide (ka_TrustFlushArgs core = "") then [] else StringsFields (ka_TrustFlushArgs core)) in
  volumes ← getVolumes i [] KeystoneCronJobPropagation;
  Some {|
    cj_Name := ServiceName +:+ "-cron"; cj_Namespace := Namespace (ka_meta i);
    cj_Schedule := ka_TrustFlushSchedule core; cj_Suspend := ka_TrustFlushSuspend core;
    cj_ConcurrencyPolicy := "Forbid"; cj_Parallelism := 1; cj_Completions := 1;
    cj_Labels := labels; cj_Annotations := annotations;
    cj_Pod := jobPod i (ServiceName +:+ "-cron") "Never" cmd [] (MergeEnvs [] ∅)
                (volumes ++ (caVolumes i).1 ++ (mtlsVolumes memcached).1)
                (getCronJobVolumeMounts ++ (caVolumes i).2 ++ (mtlsVolumes memcached).2) |}.
End volumes.

(** ** The federation secret *)

Section federation.
Context `{XL : ExternalLib} `{PL : PodLib}.

(** The data of the processed secret: the content of the file with index [k]
    under the key [k], and the names of the files. *)
Fixpoint indexedContents (index : nat) (filenames : list string) (rawConfigs : gmap string string)
    (data : gmap string string) : gmap string string :=
  match filenames with
  | [] => data
  | filename :: rest =>
      indexedContents (S index) rest rawConfigs
        (match rawConfigs !! filename with Some content => <[Itoa index := content]> data | None => data end)
  end.

Definition ensureFederationRealmConfig (i : KeystoneAPI) (envVars : gmap string string)
  : program (gmap string string * res (list string)) :=
  let realm := ka_FederatedRealmConfig (ka_core (ka_spec i)) in
  if decide (realm = "") then mret (envVars, inr [])
  else
    s ← call (LibGetSecret (Namespace (ka_meta i)) realm);
    match s with
    | inl e => mret (envVars, inl e)
    | inr (federationSecret, hash) =>
        let envVars := <[realm := hash]> envVars in
        match s_Data federationSecret !! FederationConfigKey with
        | None =>
            mret (envVars, inl (errorf ("key " +:+ FederationConfigKey +:+ " not found in secret " +:+ realm)))
        | Some jsonData =>
            match JsonUnmarshalMap jsonData with
            | inl e => mret (envVars, inl e)
            | inr rawConfigs =>
                let sortedFilenames := sortedKeys rawConfigs in
                match JsonMarshalStrings sortedFilenames with
                | inl e => mret (envVars, inl e)
                | inr filenamesJSON =>
                    let newSecretData :=
                      <["_filenames.json" := filenamesJSON]> (indexedContents 0 sortedFilenames rawConfigs ∅) in
                    h ← call (EnsureSecret (Namespace (ka_meta i)) FederationMultiRealmSecret newSecretData
                                (GetLabels (Name (ka_meta i)) (GetGroupLabel ServiceName) ∅) ∅);
                    mret match h with
                    | inl e => (envVars, inl e)
                    | inr newHash => (<[FederationMultiRealmSecret := newHash]> envVars, inr sortedFilenames)
                    end
                end
            end
        end
    end.
End federation.

#[export] Instance demoPodLib : PodLib := {|
  TmpVolumeName := "tmp"; TmpMountPath := "/tmp";
  RunHttpdVolumeName := "run-httpd"; RunHttpdMountPath := "/run/httpd";
  VarLogHttpdVolumeName := "var-log-httpd"; VarLogHttpdMountPath := "/var/log/httpd";
  WritableDirVolume := fun n => mkVolume n EmptyDir;
  WritableDirVolumeMount := fun n p => mkVolumeMount n p "" false;
  CaCreateVolume := fun s => mkVolume "combined-ca-bundle" (SecretSource s [] 292);
  CaCreateVolumeMounts := fun s => [mkVolumeMount "combined-ca-bundle" "/etc/pki/ca-trust" "" true];
  APIEnabled := fun t e =>
    match gs_SecretName (if decide (e = EndpointPublic) then tls_Public t else tls_Internal t) with
    | Some s => negb (bool_decide (s = "")) | None => false end;
  EndptCreateVolume := fun g e => inr (mkVolume (e +:+ "-tls-certs") (SecretSource (default "" (gs_SecretName g)) [] 256));
  EndptCreateVolumeMounts := fun g e c k => [mkVolumeMount (e +:+ "-tls-certs") c "tls.crt" true;
                                             mkVolumeMount (e +:+ "-tls-certs") k "tls.key" true];
  MTLSVolume := fun m => mkVolume "memcached-mtls" (SecretSource (mc_MTLSSecret m) [] 292);
  MTLSVolumeMounts := fun m => [mkVolumeMount "memcached-mtls" "/etc/pki/mtls" "" true];
  Propagate := fun v svc =>
    match vms_Propagation v with [] => [v] | ps => if decide (Exists (fun p => p ∈ svc) ps) then [v] else [] end;
  ToCoreVolumeSource := fun v => Some (OtherSource (sv_Source v));
  MergeEnvs := fun base extra =>
    base ++ ((fun kv => mkEnvVar kv.1 (EnvLiteral kv.2)) <$> map_to_list extra);
  RestrictivePodSecurityContext := joinWith ",";
  RestrictiveSecurityContext := joinWith ",";
  StringsFields := fun s => [s];
  JsonUnmarshalMap := fun s => if decide (s = "") then inl (errorf "unexpected end of JSON input") else inr {[ "realm.conf" := s ]};
  JsonMarshalStrings := fun l => inr (sprintSlice l)
|}.

#[export] Instance demoPodLaws : PodLaws.
Proof.
  split; try done.
  - intros s vm ->%list_elem_of_singleton. done.
  - intros g e c k v vm [= <-]. simpl. set_solver.
  - intros m vm ->%list_elem_of_singleton. done.
  - intros base extra x Hx _. simpl. apply elem_of_app. by left.
Qed.

(** ** Every mount has its volume *)

Definition names (vs : list Volume) : list string := v_Name <$> vs.
Definition backed (vs : list Volume) (ms : list VolumeMount) : Prop :=
  forall vm, vm ∈ ms -> vm_Name vm ∈ names vs.
Definition podBacked (p : PodSpec) : Prop := backed (ps_Volumes p) (ct_VolumeMounts (ps_Container p)).

Lemma backed_nil vs : backed vs [].
Proof. by intros vm ?%elem_of_nil. Qed.
Lemma backed_app vs1 vs2 ms1 ms2 : backed vs1 ms1 -> backed vs2 ms2 -> backed (vs1 ++ vs2) (ms1 ++ ms2).
Proof.
  intros H1 H2 vm Hvm. unfold names. rewrite fmap_app, elem_of_app. apply elem_of_app in Hvm as [?|?]; auto.
Qed.
Lemma backed_mono vs vs' ms : names vs ⊆ names vs' -> backed vs ms -> backed vs' ms.
Proof. intros Hs H vm Hvm. by apply Hs, H. Qed.
Lemma backed_mounts vs ms1 ms2 : backed vs ms1 -> backed vs ms2 -> backed vs (ms1 ++ ms2).
Proof. intros H1 H2 vm [?|?]%elem_of_app; auto. Qed.
Lemma backed_cons vs vm ms : vm_Name vm ∈ names vs -> backed vs ms -> backed vs (vm :: ms).
Proof. intros H1 H2 vm' [->|?]%elem_of_cons; auto. Qed.
Lemma names_app vs1 vs2 : names (vs1 ++ vs2) = names vs1 ++ names vs2.
Proof. apply fmap_app. Qed.

Section backing.
Context `{PodLaws}.

Definition baseNames : list string := ["config-data"; "fernet-keys"; "credential-keys"; TmpVolumeName].

Lemma getVolumes_names i ev svc vs :
  getVolumes i ev svc = Some vs -> exists extra, extraVolumes ev svc = Some extra /\ names vs = baseNames ++ names extra.
Proof.
  unfold getVolumes. destruct (ka_FernetMaxActiveKeys _) as [n|]; [|done]. simpl.
  destruct (extraVolumes ev svc) as [extra|]; [|done]. simpl. intros [= <-]. exists extra. split; [done|].
  unfold names. simpl. by rewrite WritableDirVolume_name.
Qed.

Lemma extraVolumes_names ev svc extra :
  extraVolumes ev svc = Some extra ->
  names extra = sv_Name <$> (ev ≫= fun exv => ExtraMountsPropagate exv svc ≫= vms_Volumes).
Proof.
  unfold extraVolumes, names. intros Hm. apply mapM_Some in Hm.
  induction Hm as [|v w l k Hv _ IH]; [done|]. rewrite !fmap_cons, IH. f_equal.
  destruct (ToCoreVolumeSource v); [|done]. by injection Hv as <-.
Qed.

Lemma caVolumes_backed i : backed (caVolumes i).1 (caVolumes i).2.
Proof.
  unfold caVolumes. case_decide; [apply backed_nil|]. intros vm Hvm. simpl.
  rewrite (CaCreateVolumeMounts_name _ vm Hvm). left.
Qed.
Lemma mtlsVolumes_backed m : backed (mtlsVolumes m).1 (mtlsVolumes m).2.
Proof.
  unfold mtlsVolumes. case_decide; [apply backed_nil|]. intros vm Hvm. simpl. rewrite (MTLSVolumeMounts_name m vm Hvm). left.
Qed.
Lemma federationVolumes_backed i fs : backed (federationVolumes i fs).1 (federationVolumes i fs).2.
Proof.
  unfold federationVolumes. case_decide; [apply backed_nil|]. apply backed_cons; [left|].
  intros vm Hvm. apply list_elem_of_lookup in Hvm as [k Hk].
  unfold getFederationVolumeMounts in Hk. rewrite list_lookup_imap in Hk.
  destruct (fs !! k) as [f|] eqn:Hf; [|done]. injection Hk as <-. unfold names.
  apply (list_elem_of_fmap_2' _ _ (mkVolume (federationVolumeName k) (SecretSource FederationMultiRealmSecret [] configAccessMode)));
    [|done].
  right. apply list_elem_of_lookup. exists k. unfold getFederationVolumes. by rewrite list_lookup_imap, Hf.
Qed.
Lemma certVolumes_backed i es vs ms : certVolumes i es = inr (vs, ms) -> backed vs ms.
Proof.
  revert vs ms; induction es as [|e es IH]; intros vs ms; simpl; [intros [= <- <-]; apply backed_nil|].
  destruct (TLSEnabled i e); [|apply IH]. destruct (EndptCreateVolume _ _) as [er|v] eqn:Hv; [done|].
  destruct (certVolumes i es) as [er|[vs' ms']]; [done|]. intros [= <- <-].
  apply (backed_app [v]); [|by apply IH]. intros vm Hvm. rewrite (EndptCreateVolumeMounts_name _ _ _ _ _ vm Hv Hvm). left.
Qed.

Lemma base_backed vs rest ms :
  names vs = baseNames ++ rest -> Forall (fun vm => vm_Name vm ∈ baseNames) ms -> backed vs ms.
Proof.
  intros Hn Hall vm Hvm. rewrite Hn. apply elem_of_app. left. by eapply Forall_forall in Hall.
Qed.

Lemma base_mounts : Forall (fun vm => vm_Name vm ∈ baseNames)
  (getBootstrapVolumeMounts ++ getCronJobVolumeMounts ++ getDBSyncVolumeMounts).
Proof.
  unfold getBootstrapVolumeMounts, getCronJobVolumeMounts, getDBSyncVolumeMounts, tmpMount, baseNames.
  repeat (apply Forall_cons; split; [rewrite ?WritableDirVolumeMount_name; simpl; set_solver|]). constructor.
Qed.

(** The extra mounts of a spec name extra volumes of the same spec. *)
Definition extraBacked (ev : list KeystoneExtraMounts) (svc : list string) : Prop :=
  forall vm, vm ∈ (ev ≫= fun exv => ExtraMountsPropagate exv svc ≫= vms_Mounts) ->
    vm_Name vm ∈ (sv_Name <$> (ev ≫= fun exv => ExtraMountsPropagate exv svc ≫= vms_Volumes)).

Definition runtimeDirs : list Volume :=
  [WritableDirVolume RunHttpdVolumeName; WritableDirVolume VarLogKeystoneVolumeName; WritableDirVolume VarLogHttpdVolumeName].
Lemma runtimeDirs_names : names runtimeDirs = [RunHttpdVolumeName; VarLogKeystoneVolumeName; VarLogHttpdVolumeName].
Proof. unfold runtimeDirs, names; simpl. by rewrite !WritableDirVolume_name. Qed.

Lemma getVolumeMounts_backed i ev svc vs :
  extraBacked ev svc -> getVolumes i ev svc = Some vs -> backed (vs ++ runtimeDirs) (getVolumeMounts ev svc).
Proof.
  intros Hextra Hvol. destruct (getVolumes_names _ _ _ _ Hvol) as (extra & He & Hn).
  unfold getVolumeMounts. apply backed_mounts.
  - assert (forall n, n ∈ baseNames ++ names runtimeDirs -> n ∈ names (vs ++ runtimeDirs)) as Hin.
    { intros n. rewrite names_app, Hn, !elem_of_app. tauto. }
    rewrite runtimeDirs_names in Hin.
    repeat (apply backed_cons; [apply Hin; unfold tmpMount; rewrite ?WritableDirVolumeMount_name;
      apply list_elem_of_In; cbn; repeat first [left; reflexivity|right]|]).
    apply backed_nil.
  - intros vm Hvm. apply Hextra in Hvm. rewrite names_app, Hn, (extraVolumes_names _ _ _ He), !elem_of_app. auto.
Qed.

Lemma deploymentVolumes_backed i fs m keys vs ms :
  extraBacked (ka_ExtraMounts (ka_core (ka_spec i))) KeystonePropagation ->
  deploymentVolumes i fs m keys = Some (inr (vs, ms)) -> backed vs ms.
Proof.
  intros Hextra. unfold deploymentVolumes.
  destruct (getVolumes _ _ _) as [volumes|] eqn:Hvol; [|done]. cbn [mbind option_bind].
  pose proof (getVolumeMounts_backed _ _ _ _ Hextra Hvol) as Hmain.
  destruct (getVolumes_names _ _ _ _ Hvol) as (extra & _ & Hn).
  revert Hmain. generalize (getVolumeMounts (ka_ExtraMounts (ka_core (ka_spec i))) KeystonePropagation). intros gm Hmain.
  destruct (certVolumes i [EndpointInternal; EndpointPublic]) as [er|[certVs certMs]] eqn:Hc; [done|].
  fold runtimeDirs. generalize runtimeDirs Hmain. clear Hmain. intros dirs Hmain [= <- <-]. rewrite !app_assoc.
  apply backed_mounts.
  - repeat apply backed_app;
      [done|apply caVolumes_backed|apply federationVolumes_backed|apply mtlsVolumes_backed|by eapply certVolumes_backed].
  - intros vm Hvm. apply list_elem_of_fmap in Hvm as (key & -> & _).
    rewrite !names_app, Hn, !elem_of_app. do 6 left. left.
Qed.

Lemma jobPod_backed i name rp cmd args env vs ms : backed vs ms -> podBacked (jobPod i name rp cmd args env vs ms).
Proof. done. Qed.

(** C27. No pod refers to a volume it does not have: in the deployment (when
    the user's extra mounts name the user's extra volumes), the bootstrap job,
    the db-sync job and the cron job, with or without TLS, mTLS, federation
    and custom configuration, every mount names a volume of the same pod. *)
Theorem pods_mounts_backed i :
  (forall hash ls an topo sel fs m keys d,
    extraBacked (ka_ExtraMounts (ka_core (ka_spec i))) KeystonePropagation ->
    Deployment i hash ls an topo sel fs m keys = Some (inr d) -> podBacked (dp_Pod d)) /\
  (forall ls an es m j, BootstrapJob i ls an es m = Some j -> podBacked (jb_Pod j)) /\
  (forall ls an j, DbSyncJob i ls an = Some j -> podBacked (jb_Pod j)) /\
  (forall ls an m j, CronJob i ls an m = Some j -> podBacked (cj_Pod j)).
Proof.
  pose proof base_mounts as [Hb [Hc Hd]%Forall_app]%Forall_app. split_and!.
  - intros hash ls an topo sel fs m keys d Hextra. unfold Deployment.
    destruct (deploymentVolumes _ _ _ _) as [[e|[vs ms]]|] eqn:Hv; simpl; [done| |done].
    intros [= <-]. by eapply deploymentVolumes_backed.
  - intros ls an es m j. unfold BootstrapJob. destruct (getVolumes _ _ _) as [vs|] eqn:Hv; [|done]. cbn [mbind option_bind].
    intros <-%Some_inj. destruct (getVolumes_names _ _ _ _ Hv) as (ex & _ & Hn).
    apply jobPod_backed, backed_app; [by eapply base_backed|].
    apply backed_app; [apply caVolumes_backed|apply mtlsVolumes_backed].
  - intros ls an j. unfold DbSyncJob. destruct (getVolumes _ _ _) as [vs|] eqn:Hv; [|done]. cbn [mbind option_bind].
    intros <-%Some_inj. destruct (getVolumes_names _ _ _ _ Hv) as (ex & _ & Hn).
    apply jobPod_backed, backed_app; [by eapply base_backed|apply caVolumes_backed].
  - intros ls an m j. unfold CronJob. destruct (getVolumes _ _ _) as [vs|] eqn:Hv; [|done]. cbn [mbind option_bind].
    intros <-%Some_inj. destruct (getVolumes_names _ _ _ _ Hv) as (ex & _ & Hn).
    apply jobPod_backed, backed_app; [by eapply base_backed|].
    apply backed_app; [apply caVolumes_backed|apply mtlsVolumes_backed].
Qed.
End backing.

(** ** The keys reach Keystone *)

Lemma fernetItems_spec n it :
  it ∈ fernetItems n <-> exists k, 0 <= k < n /\ it = mkKeyToPath (fernetKey k) (pretty k).
Proof.
  unfold fernetItems. rewrite list_elem_of_fmap. split.
  - intros (k & -> & Hk%elem_of_seqZ). exists k. split; [lia|done].
  - intros (k & Hk & ->). exists k. split; [done|]. apply elem_of_seqZ. lia.
Qed.

Lemma fernetItems_paths n : NoDup (ktp_Path <$> fernetItems n).
Proof.
  unfold fernetItems. rewrite <- list_fmap_compose. apply (NoDup_fmap_2 (fun k : Z => pretty k)). apply NoDup_seqZ.
Qed.

Section keys.
Context `{PodLaws}.

(** The key repository of every pod is the one the operator keeps: when
    the secret holds the credential keys and exactly the fernet keys 0 to
    FernetMaxActiveKeys - 1 (which creation, rotation and resizing establish),
    the volumes of any pod project, from that secret, every one of these keys
    to a file named after its index, no two to the same file, and no key
    that is absent (which would keep the pod from starting). *)
Lemma getVolumes_projects_ring i ev svc vs n data
    (Hn : ka_FernetMaxActiveKeys (ka_core (ka_spec i)) = Some n)
    (Hvs : getVolumes i ev svc = Some vs)
    (Hring : ring n data)
    (Hc0 : is_Some (data !! "CredentialKeys0")) (Hc1 : is_Some (data !! "CredentialKeys1")) :
  exists fernet credential,
    mkVolume "fernet-keys" (SecretSource fernetSecretName fernet configAccessMode) ∈ vs /\
    mkVolume "credential-keys" (SecretSource fernetSecretName credential configAccessMode) ∈ vs /\
    (forall it, it ∈ fernet ++ credential -> is_Some (data !! ktp_Key it)) /\
    (forall k, is_Some (data !! fernetKey k) -> mkKeyToPath (fernetKey k) (pretty k) ∈ fernet) /\
    NoDup (ktp_Path <$> fernet) /\ length fernet = Z.to_nat n.
Proof.
  revert Hvs. unfold getVolumes. rewrite Hn. cbn [mbind option_bind].
  destruct (extraVolumes ev svc) as [extra|]; [|done]. intros <-%Some_inj.
  exists (fernetItems n), [mkKeyToPath "CredentialKeys0" "0"; mkKeyToPath "CredentialKeys1" "1"]. split_and!.
  - apply elem_of_app. left. right. left.
  - apply elem_of_app. left. right. right. left.
  - intros it [(k & Hk & ->)%fernetItems_spec|Hit]%elem_of_app; [by apply Hring|].
    apply elem_of_cons in Hit as [->|Hit]; [done|]. apply list_elem_of_singleton in Hit as ->. done.
  - intros k Hk. apply fernetItems_spec. exists k. split; [by apply Hring|done].
  - apply fernetItems_paths.
  - unfold fernetItems. by rewrite length_fmap, length_seqZ.
Qed.
End keys.

(** ** Federation, from the secret to the mount *)

(** A decimal starts with a digit. *)
Lemma pretty_N_go_head x s :
  (0 < x)%N -> exists d s', pretty_N_go x s = String (pretty_N_char d) s'.
Proof.
  revert s; induction (N.lt_wf_0 x) as [x _ IH]; intros s Hx. rewrite pretty_N_go_step by done.
  destruct (decide (x / 10 = 0)%N) as [->|Hne]; [rewrite pretty_N_go_0; eauto|].
  apply IH; [apply N.div_lt; lia|by apply N.neq_0_lt_0].
Qed.
Lemma Itoa_head k : exists d s, Itoa k = String (pretty_N_char d) s.
Proof.
  unfold Itoa, pretty, pretty_nat, pretty, pretty_N. case_decide; [by exists 0%N, ""|]. apply pretty_N_go_head. lia.
Qed.
Lemma Itoa_underscore k s : Itoa k <> "_" +:+ s.
Proof.
  destruct (Itoa_head k) as (d & s' & ->). intros [= Hd _]. unfold pretty_N_char in Hd. repeat case_match; discriminate.
Qed.

Lemma indexedContents_lookup idx fs raw data k :
  indexedContents idx fs raw data !! Itoa k =
    if decide (idx <= k)%nat then
      match fs !! (k - idx)%nat ≫= fun f => raw !! f with Some c => Some c | None => data !! Itoa k end
    else data !! Itoa k.
Proof.
  revert idx data; induction fs as [|f fs IH]; intros idx data; simpl; [by case_decide|].
  rewrite IH. repeat case_decide; try lia.
  - replace (k - idx)%nat with (S (k - S idx)) by lia. cbn [lookup list_lookup].
    destruct (_ ≫= _); [done|]. destruct (raw !! f); [|done].
    rewrite lookup_insert_ne; [done|]. intros ?%Itoa_inj. lia.
  - replace k with idx by lia. rewrite Nat.sub_diag. simpl. destruct (raw !! f); [|done]. by rewrite lookup_insert_eq.
  - destruct (raw !! f); [|done]. rewrite lookup_insert_ne; [done|]. intros ?%Itoa_inj. lia.
Qed.

Section federation_files.
Context `{XL : ExternalLib} `{PL : PodLib}.

(** C26. Every federation file ends where httpd looks for it: when the
    operator accepts the user's federation secret, it has stored in its own
    secret, under the index of each file in the sorted list of names, the
    content the user gave that file; and the mount of that index projects that
    key of that secret to the path of the file, from a volume of its own. *)
Theorem federation_files_mounted i env t env' files
    (Hrealm : ka_FederatedRealmConfig (ka_core (ka_spec i)) <> "")
    (Hr : runs (ensureFederationRealmConfig i env) t (env', inr files)) :
  exists secret hash json raw data newHash,
    t = [Ev (LibGetSecret (Namespace (ka_meta i)) (ka_FederatedRealmConfig (ka_core (ka_spec i)))) (inr (secret, hash));
         Ev (EnsureSecret (Namespace (ka_meta i)) FederationMultiRealmSecret data
               (GetLabels (Name (ka_meta i)) (GetGroupLabel ServiceName) ∅) ∅) (inr newHash)] /\
    s_Data secret !! FederationConfigKey = Some json /\ JsonUnmarshalMap json = inr raw /\
    (forall f, f ∈ files <-> is_Some (raw !! f)) /\ NoDup files /\
    NoDup (v_Name <$> getFederationVolumes files) /\
    forall k f, files !! k = Some f ->
      data !! Itoa k = raw !! f /\
      getFederationVolumeMounts FederationDefaultMountPath files !! k =
        Some (mkVolumeMount (federationVolumeName k) (filepathJoin FederationDefaultMountPath f) (Itoa k) true) /\
      getFederationVolumes files !! k =
        Some (mkVolume (federationVolumeName k) (SecretSource FederationMultiRealmSecret [] configAccessMode)).
Proof.
  unfold ensureFederationRealmConfig in Hr. rewrite decide_False in Hr by done. runs_norm Hr.
  destruct Hr as (s & t1 & -> & Hr). destruct s as [e|[secret hash]]; runs_norm Hr; [by destruct Hr as [_ [=]]|].
  destruct (s_Data secret !! FederationConfigKey) as [json|] eqn:Hjson; runs_norm Hr; [|by destruct Hr as [_ [=]]].
  destruct (JsonUnmarshalMap json) as [e|raw] eqn:Hraw; runs_norm Hr; [by destruct Hr as [_ [=]]|].
  destruct (JsonMarshalStrings (sortedKeys raw)) as [e|names]; runs_norm Hr; [by destruct Hr as [_ [=]]|].
  destruct Hr as (h & t2 & -> & -> & Hr). destruct h as [e|newHash]; [by injection Hr|].
  injection Hr as _ <-. eexists secret, hash, json, raw, _, newHash.
  split_and!; [done..|intros f; apply elem_of_sortedKeys|apply sortedKeys_NoDup| |].
  - apply NoDup_alt. intros a b n Ha Hb. unfold getFederationVolumes in Ha, Hb.
    rewrite list_lookup_fmap, list_lookup_imap in Ha, Hb.
    destruct (sortedKeys raw !! a), (sortedKeys raw !! b); try done. simpl in *.
    injection Ha as <-. injection Hb as Hb%string_app_inj_l%Itoa_inj. done.
  - intros k f Hk. split_and!.
    + rewrite lookup_insert_ne.
      * rewrite indexedContents_lookup, decide_True, Nat.sub_0_r, Hk by lia. simpl.
        destruct (raw !! f) eqn:Hf; [done|]. apply list_elem_of_lookup_2, elem_of_sortedKeys in Hk as [? ?]. congruence.
      * intros Heq. by apply eq_sym, Itoa_underscore in Heq.
    + unfold getFederationVolumeMounts. by rewrite list_lookup_imap, Hk.
    + unfold getFederationVolumes. by rewrite list_lookup_imap, Hk.
Qed.
End federation_files.

(** ** Witnesses *)

Definition demoMemcached (mtls : string) : Memcached :=
  mkMemcached (newMeta "memcached" "openstack") true mtls "memcached:11211" "inet:memcached:11211" false.

Lemma pods_mounts_backed_witness :
  exists d j, Deployment demoAPI "h" ∅ ∅ None AppSelector ["a.conf"] (demoMemcached "mtls") ["x.conf"] = Some (inr d) /\
    podBacked (dp_Pod d) /\ BootstrapJob demoAPI ∅ ∅ ∅ (demoMemcached "") = Some j /\ podBacked (jb_Pod j).
Proof.
  destruct (pods_mounts_backed demoAPI) as (Hd & Hb & _). eexists _, _. split; [reflexivity|]. split.
  - refine (Hd "h" ∅ ∅ None AppSelector ["a.conf"] (demoMemcached "mtls") ["x.conf"] _ _ eq_refl).
    intros vm Hvm. exfalso. revert Hvm. apply not_elem_of_nil.
  - split; [reflexivity|]. exact (Hb ∅ ∅ ∅ (demoMemcached "") _ eq_refl).
Defined.

Definition demoKeySecret : gmap string string :=
  <["CredentialKeys0" := "c0"]> (<["CredentialKeys1" := "c1"]> (demoKeys 5)).

Definition withFederation (realm : string) (s : KeystoneAPISpecCore) : KeystoneAPISpecCore := mkAPISpecCore
    (ka_DatabaseInstance s) (ka_DatabaseAccount s) (ka_MemcachedInstance s) (ka_Region s) (ka_AdminProject s)
    (ka_AdminUser s) (ka_Replicas s) (ka_Secret s) (ka_EnableSecureRBAC s) (ka_TrustFlushArgs s)
    (ka_TrustFlushSchedule s) (ka_TrustFlushSuspend s) (ka_FernetRotationDays s) (ka_FernetMaxActiveKeys s)
    (ka_PasswordSelectorAdmin s) (ka_NodeSelector s) (ka_PreserveJobs s) (ka_CustomServiceConfig s)
    (ka_DefaultConfigOverwrite s) (ka_HttpdCustomization s) (ka_Resources s) (ka_NetworkAttachments s)
    (ka_OverrideService s) (ka_RabbitMqClusterName s) (ka_TLS s) (ka_APITimeout s) (ka_TopologyRef s) (ka_ExtraMounts s)
    realm (ka_ExternalKeystoneAPI s) (ka_NotificationsBus s).
Definition demoFederationAPI : KeystoneAPI :=
  mkKeystoneAPI (ka_meta demoAPI)
    (mkAPISpec (withFederation "realms" demoCore) "keystone:latest") (ka_status demoAPI).
Definition federationHandler (X : Type) (c : Call X) (w : unit) : X * unit :=
  match c in Call X return X * unit with
  | LibGetSecret _ n => (inr (mkSecret (newMeta n "openstack") None {[ FederationConfigKey := "content" ]}, "hash"), w)
  | c => demoHandler _ c w
  end.

Lemma federation_files_mounted_witness :
  exists data raw : gmap string string, data !! "0" = raw !! "realm.conf" /\ is_Some (raw !! "realm.conf") /\
    getFederationVolumeMounts FederationDefaultMountPath ["realm.conf"] !! 0%nat =
      Some (mkVolumeMount "federation-realm-volume0" "/var/lib/httpd/metadata/realm.conf" "0" true).
Proof.
  destruct (federation_files_mounted demoFederationAPI ∅ (traceWith federationHandler (ensureFederationRealmConfig demoFederationAPI ∅))
    (resultWith federationHandler (ensureFederationRealmConfig demoFederationAPI ∅)).1 ["realm.conf"])
    as (s & h & json & raw & data & nh & _ & _ & _ & Hfiles & _ & _ & Hk).
  - discriminate.
  - apply (runsWith_snd federationHandler). vm_compute. reflexivity.
  - exists data, raw. destruct (Hk 0%nat "realm.conf" eq_refl) as (Hd & Hm & _).
    split; [exact Hd|]. split; [|rewrite Hm; vm_compute; reflexivity].
    apply Hfiles. left.
Defined.
