(* ===== verification/APIController.v ===== *)
(** The KeystoneAPI controller (internal/controller/keystoneapi_controller.go):
    its reconcile loop for a deployed and for an external Keystone, and its
    deletion.  The fernet keys and the federation secret, which this controller
    maintains too, are in Fernet.v and Pods.v, the jobs and the deployment it
    creates in Pods.v. *)
From S2P Require Import Prelude Effects GoTime Api Conditions Instances Workloads Calls External Demo Fernet Pods.
Open Scope Z_scope.

(** ** Reconcile steps

    A step of the reconciler reads and updates the instance, calls the outside
    world, and either goes on with a value or leaves [Reconcile]: with a result,
    by a panic (a nil dereference), or never (a loop that does not end). *)

Inductive exit := Return (r : ret) | Panic | Hang.
Definition M (A : Type) : Type := KeystoneAPI -> program (KeystoneAPI * (exit + A)).

#[export] Instance M_ret : MRet M := fun A a i => mret (i, inr a).
#[export] Instance M_bind : MBind M := fun A B f m i =>
  ir ← m i; match ir.2 with inl e => mret (ir.1, inl e) | inr a => f a ir.1 end.

Definition lift {A} (p : program A) : M A := fun i => a ← p; mret (i, inr a).
Definition get : M KeystoneAPI := fun i => mret (i, inr i).
Definition modify (f : KeystoneAPI -> KeystoneAPI) : M unit := fun i => mret (f i, inr tt).
Definition leave {A} (e : exit) : M A := fun i => mret (i, inl e).
Definition return_ {A} (r : ret) : M A := leave (Return r).

(** The conditions of a KeystoneAPI. *)
Inductive APICondition :=
| InputReady | TLSInputReady | DBReady | DBSyncReady | RabbitMqTransportURLReady | MemcachedReady | CreateServiceReady
| BootstrapReady | ServiceConfigReady | DeploymentReady | NetworkAttachmentsReady | CronJobReady | ServiceAccountReady
| RoleReady | RoleBindingReady | TopologyReady | MariaDBAccountReady.
#[export] Instance APICondition_eq_dec : EqDecision APICondition.
Proof. solve_decision. Defined.

(** The names, message texts and pure functions of lib-common and of the other
    operators' packages; messages and other constants go by their Go name. *)
Class ControllerLib := {
  condName : APICondition -> string;
  msg : string -> string;
  const : string -> string;
  DatabaseClientConfig : Database -> bool -> string;
  (** service.NewService of the generic service, with the override of the user *)
  NewService : Service -> OverrideSpec -> res Service;
  GetAPIEndpoint : Service -> option string -> option string -> string -> res string;
  EnsureNetworksAnnotation : list string -> res (gmap string string);
  (** util.ObjectHash of the merged environment; util.SetHash *)
  ObjectHashEnv : list EnvVar -> res string;
  SetHash : gmap string string -> string -> string -> gmap string string * bool;
  YamlParameters : TemplateParameters -> res string;
  YamlConfig : OpenStackConfig -> res string;
  YamlConfigSecret : OpenStackConfigSecret -> res string
}.
Class ControllerLaws `{ControllerLib} := {
  condName_inj c d : condName c = condName d -> c = d;
  condName_Ready c : condName c <> ReadyCondition
}.

Definition DatabaseName : string := "keystone".
Definition DatabaseCRName : string := "keystone".
Definition DatabaseUsernamePrefix : string := "keystone".
Definition KeystoneInternalPort : Z := 5000.
Definition TransportConsumerFinalizer : string := "openstack.org/keystone-transport-consumer".
Definition DbSyncHash : string := "dbsync".
Definition BootstrapHash : string := "bootstrap".

(** keystone.GenerateCloudrc *)
Definition newline : string := String (Ascii.ascii_of_nat 10) EmptyString.
Definition GenerateCloudrc (secret : OpenStackConfigSecret) (config : OpenStackConfig) : string :=
  "export OS_AUTH_URL=" +:+ oc_AuthURL config
  +:+ newline +:+ "export OS_USERNAME=" +:+ oc_UserName config
  +:+ newline +:+ "export OS_PROJECT_NAME=" +:+ oc_ProjectName config
  +:+ newline +:+ "export OS_PROJECT_DOMAIN_NAME=" +:+ oc_ProjectDomainName config
  +:+ newline +:+ "export OS_USER_DOMAIN_NAME=" +:+ oc_UserDomainName config
  +:+ newline +:+ "export OS_PASSWORD=" +:+ ocs_Password secret.

Section operations.
Context `{CL : ConditionLib} `{FL : FinalizerLib} `{XL : ExternalLib} `{PL : PodLib} `{KL : ControllerLib}.

Definition apiFinalizer : string := helperFinalizer "KeystoneAPI".
Definition withCond (f : Conditions -> Conditions) (i : KeystoneAPI) : KeystoneAPI :=
  ka_setStatus (kas_setConditions (f (kas_Conditions (ka_status i))) (ka_status i)) i.
Definition setFalse (c : APICondition) (reason severity message : string) (args : list string) : M unit :=
  modify (withCond (condSet (Some (FalseCondition (condName c) reason severity message args)))).
Definition markTrue (c : APICondition) (message : string) : M unit :=
  modify (withCond (condMarkTrue (condName c) (msg message) [])).
Definition setStatus (f : KeystoneAPIStatus -> KeystoneAPIStatus) : M unit :=
  modify (fun i => ka_setStatus (f (ka_status i)) i).

(** Report an error (or that something is missing, or not there yet) and leave. *)
Definition failCond {A} (c : APICondition) (message : string) (e : GoError) : M A :=
  setFalse c ErrorReason SeverityWarning (msg message) [Error e];; return_ (failWith e).
Definition waitCond {A} (c : APICondition) (message : string) (r : Result) : M A :=
  setFalse c RequestedReason SeverityInfo (msg message) [];; return_ (r, None).
Definition warnCond {A} (c : APICondition) (message : string) (args : list string) (r : Result) : M A :=
  setFalse c ErrorReason SeverityWarning message args;; return_ (r, None).
Definition failIf (err : option GoError) : M unit :=
  match err with Some e => return_ (failWith e) | None => mret tt end.

(** The instance's namespace and core spec, read at every use as the code does. *)
Definition ns (i : KeystoneAPI) : string := Namespace (ka_meta i).
Definition core (i : KeystoneAPI) : KeystoneAPISpecCore := ka_core (ka_spec i).

(** ** verifySecret, verifyTLSInput *)

Definition verifySecret (vars : gmap string string) : M (gmap string string) :=
  i ← get;
  '(hash, result, err) ← lift (call (VerifySecretFields (ns i) (ka_Secret (core i)) ["AdminPassword"] (10 * second)));
  match err with
  | Some e => failCond InputReady "InputReadyErrorMessage" e
  | None =>
      if decide (result <> noResult) then warnCond InputReady (msg "InputReadyWaitingMessage") [] result
      else mret (<[ka_Secret (core i) := hash]> vars)
  end.

(** The error is returned; both callers leave, silently when the CA bundle is
    not there yet. *)
Definition verifyTLSInput (vars : gmap string string) : M (res (gmap string string)) :=
  i ← get;
  let bundle := tls_CaBundleSecretName (ka_TLS (core i)) in
  if decide (bundle = "") then mret (inr vars)
  else
    r ← lift (call (ValidateCACertSecret (ns i) bundle));
    match r with
    | inl e =>
        (if IsNotFound e
         then setFalse TLSInputReady ErrorReason SeverityWarning (msg "TLSInputReadyWaitingMessage") [bundle]
         else setFalse TLSInputReady ErrorReason SeverityWarning (msg "TLSInputErrorMessage") [Error e]);;
        mret (inl e)
    | inr hash => mret (inr (if decide (hash = "") then vars else <[CABundleKey := hash]> vars))
    end.
Definition requireTLSInput (vars : gmap string string) : M (gmap string string) :=
  r ← verifyTLSInput vars;
  match r with
  | inl e => return_ (if IsNotFound e then done_ else failWith e)
  | inr vars => mret vars
  end.

(** ** ensureDB *)

Definition ensureDB : M Database :=
  i ← get;
  err ← lift (call (EnsureMariaDBAccount (ns i) (ka_DatabaseAccount (core i)) false DatabaseUsernamePrefix));
  match err with
  | Some e => failCond MariaDBAccountReady "MariaDBAccountNotReadyMessage" e
  | None =>
      markTrue MariaDBAccountReady "MariaDBAccountReadyMessage";;
      let db := NewDatabaseForAccount (ka_DatabaseInstance (core i)) DatabaseName DatabaseCRName
                  (ka_DatabaseAccount (core i)) (ns i) in
      '(db, result, err) ← lift (call (CreateOrPatchAll db));
      match err with
      | Some e => failCond DBReady "DBReadyErrorMessage" e
      | None =>
          if decide (result <> noResult) then waitCond DBReady "DBReadyRunningMessage" result
          else
            '(db, result, err) ← lift (call (WaitForDBCreated db));
            match err with
            | Some e => failCond DBReady "DBReadyErrorMessage" e
            | None =>
                if decide (result <> noResult) then waitCond DBReady "DBReadyRunningMessage" result
                else
                  setStatus (kas_setDatabaseHostname (db_Hostname db));;
                  markTrue DBReady "DBReadyMessage";;
                  mret db
            end
      end
  end.

(** ** The transport URL *)

Definition transportURLName (i : KeystoneAPI) : string := Name (ka_meta i) +:+ "-keystone-transport".
(** What the update sets, from NotificationsBus or the deprecated field. *)
Definition mutateTransportURL (i : KeystoneAPI) (t : TransportURL) : TransportURL :=
  let '(cluster, user, vhost) :=
    match ka_NotificationsBus (core i) with
    | Some b => (rc_Cluster b, rc_User b, rc_Vhost b)
    | None => (if decide (ka_RabbitMqClusterName (core i) = "") then "rabbitmq" else ka_RabbitMqClusterName (core i), "", "")
    end in
  mkTransportURL (tu_Name t) (tu_Namespace t) (tu_Labels t) cluster user vhost (tu_SecretName t).
Definition transportURLCreateOrUpdate (i : KeystoneAPI) (serviceLabels : gmap string string)
  : program (TransportURL * option GoError) :=
  call (CreateOrUpdateTransportURL (ka_meta i)
          (mkTransportURL (transportURLName i) (ns i) serviceLabels "" "" "" "") (mutateTransportURL i)).

(** Create the transport URL, wait for its secret and hold that secret. *)
Definition ensureTransport (serviceLabels : gmap string string) : M string :=
  i ← get;
  '(transportURL, err) ← lift (transportURLCreateOrUpdate i serviceLabels);
  match err with
  | Some e => failCond RabbitMqTransportURLReady "RabbitMqTransportURLReadyErrorMessage" e
  | None =>
      let currentTransportSecret := tu_SecretName transportURL in
      if decide (currentTransportSecret = "") then
        waitCond RabbitMqTransportURLReady "RabbitMqTransportURLReadyRunningMessage" (requeueAfter (10 * second))
      else
        markTrue RabbitMqTransportURLReady "RabbitMqTransportURLReadyMessage";;
        setStatus (fun s => if decide (kas_TransportURLSecret s = "") then kas_setTransportURLSecret currentTransportSecret s else s);;
        err ← lift (call (ManageSecretConsumerFinalizer (ns i) currentTransportSecret TransportConsumerFinalizer));
        failIf err;;
        mret currentTransportSecret
  end.

(** ** Memcached *)

Definition ensureMemcached : M Memcached :=
  i ← get;
  r ← lift (call (GetMemcachedByName (ns i) (ka_MemcachedInstance (core i))));
  match r with
  | inl e =>
      if IsNotFound e
      then warnCond MemcachedReady (msg "MemcachedReadyWaitingMessage") [] (requeueAfter (10 * second))
      else failCond MemcachedReady "MemcachedReadyErrorMessage" e
  | inr memcached =>
      let '(fs, added) := AddFinalizer apiFinalizer (Finalizers (mc_meta memcached)) in
      let memcached := mc_setFinalizers fs memcached in
      err ← (if added then lift (call (UpdateMemcached memcached)) else mret None);
      match err with
      | Some e => failCond MemcachedReady "MemcachedReadyErrorMessage" e
      | None =>
          if negb (mc_IsReady memcached)
          then waitCond MemcachedReady "MemcachedReadyWaitingMessage" (requeueAfter (10 * second))
          else markTrue MemcachedReady "MemcachedReadyMessage";; mret memcached
      end
  end.

(** ** generateServiceConfigMaps *)

Definition cmLabels (i : KeystoneAPI) : gmap string string :=
  GetLabels (Name (ka_meta i)) (GetGroupLabel ServiceName) ∅.

(** The string, or empty, of an endpoint that may be missing. *)
Definition endpointOrEmpty (i : KeystoneAPI) (ty : string) : string :=
  match GetEndpoint i ty with inr u => u | inl _ => "" end.

Definition templateValues (i : KeystoneAPI) (mc : Memcached) (db : Database) (transportURLSecret : Secret)
  : gmap string TValue :=
  let v : gmap string TValue :=
    <["MemcachedServers" := TString (mc_ServerList mc)]>
    (<["MemcachedServersWithInet" := TString (mc_ServerListWithInet mc)]>
    (<["MemcachedTLS" := TBool (mc_TLSSupport mc)]>
    (<["TransportURL" := TString (default "" (s_Data transportURLSecret !! "transport_url"))]>
    (<["DatabaseConnection" := TString ("mysql+pymysql://" +:+ db_UserName db +:+ ":" +:+ db_Password db +:+ "@"
         +:+ kas_DatabaseHostname (ka_status i) +:+ "/" +:+ DatabaseName +:+ "?read_default_file=/etc/my.cnf")]>
    (<["ProcessNumber" := TInt (hc_ProcessNumber (ka_HttpdCustomization (core i)))]>
    (<["EnableSecureRBAC" := TBool (ka_EnableSecureRBAC (core i))]>
    {[ "FernetMaxActiveKeys" := TInt (ka_FernetMaxActiveKeys (core i)) ]})))))) in
  let v := <["KeystoneEndpointPublic" := TString (endpointOrEmpty i EndpointPublic)]> v in
  let v := <["KeystoneEndpointInternal" := TString (endpointOrEmpty i EndpointInternal)]> v in
  let v := if decide (mc_MTLSSecret mc = "") then v
           else <["MemcachedAuthCa" := TString (const "CaMountPath")]>
                (<["MemcachedAuthKey" := TString (const "KeyMountPath")]>
                (<["MemcachedAuthCert" := TString (const "CertMountPath")]> v)) in
  let v := <["QuorumQueues" := TBool (bool_decide (default "" (s_Data transportURLSecret !! "quorumqueues") = "true"))]> v in
  <["TimeOut" := TInt (Some (ka_APITimeout (core i)))]> v.

(** The template of an override file for one endpoint, when it has content. *)
Definition customTemplateName (endpt key : string) : string := "httpd_custom_" +:+ endpt +:+ "_" +:+ key.
Fixpoint addCustomTemplates (endpt : string) (keys : list string) (data templates : gmap string string)
  : gmap string string :=
  match keys with
  | [] => templates
  | key :: rest =>
      addCustomTemplates endpt rest data
        (if decide (default "" (data !! key) = "") then templates
         else <[customTemplateName endpt key := default "" (data !! key)]> templates)
  end.
Definition customTemplates (override : gmap string string) : gmap string string :=
  addCustomTemplates EndpointPublic (sortedKeys override) override
    (addCustomTemplates EndpointInternal (sortedKeys override) override ∅).

Definition vhostConfig (i : KeystoneAPI) (override : gmap string string) (endpt : string) : gmap string TValue :=
  let c : gmap string TValue :=
    <["TLS" := TBool false]>
    {[ "ServerName" := TString (Name (ka_meta i) +:+ "-" +:+ endpt +:+ "." +:+ ns i +:+ ".svc") ]} in
  let c := if TLSEnabled i endpt
           then <["SSLCertificateKeyFile" := TString ("/etc/pki/tls/private/" +:+ endpt +:+ ".key")]>
                (<["SSLCertificateFile" := TString ("/etc/pki/tls/certs/" +:+ endpt +:+ ".crt")]>
                (<["TLS" := TBool true]> c))
           else c in
  <["Override" := TBool (negb (bool_decide (override = ∅)))]> c.

Definition configTemplate (i : KeystoneAPI) (mc : Memcached) (db : Database) (transportURLSecret : Secret)
    (override : gmap string string) : res Template :=
  let parameters := mkTemplateParameters (templateValues i mc db transportURLSecret)
    (<[EndpointPublic := vhostConfig i override EndpointPublic]>
     {[ EndpointInternal := vhostConfig i override EndpointInternal ]}) in
  let tlsCfg := negb (bool_decide (tls_CaBundleSecretName (ka_TLS (core i)) = "")) in
  let customData : gmap string string :=
    ka_DefaultConfigOverwrite (core i)
    ∪ <["my.cnf" := DatabaseClientConfig db tlsCfg]>
      {[ const "CustomServiceConfigFileName" := ka_CustomServiceConfig (core i) ]} in
  match YamlParameters parameters with
  | inl e => inl (wrapErr "error marshalling to YAML" e)
  | inr yamlData =>
      inr {| tm_Name := Name (ka_meta i) +:+ "-config-data"; tm_Namespace := ns i;
             tm_StringTemplate := customTemplates override;
             tm_CustomData := <[const "TemplateParameters" := yamlData]> customData;
             tm_ConfigOptions := parameters; tm_Labels := cmLabels i; tm_CommonTemplates := ["ssl.conf"] |}
  end.

(** The override secret of the user, if the spec names one. *)
Definition httpdOverride (i : KeystoneAPI) : program (res (gmap string string)) :=
  match hc_CustomConfigSecret (ka_HttpdCustomization (core i)) with
  | None => mret (inr ∅)
  | Some name =>
      if decide (name = "") then mret (inr ∅)
      else
        r ← call (LibGetSecret (ns i) name);
        mret match r with inl e => inl e | inr (secret, _) => inr (s_Data secret) end
  end.

(** The keys of the override templates, and the environment with the hash of
    the configuration secret. *)
Definition generateServiceConfigMaps (i : KeystoneAPI) (vars : gmap string string) (mc : Memcached) (db : Database)
    (transportURLSecretName : string) : program (res (list string * gmap string string)) :=
  s ← call (LibGetSecret (ns i) transportURLSecretName);
  match s with
  | inl e => mret (inl e)
  | inr (transportURLSecret, _) =>
      o ← httpdOverride i;
      match o with
      | inl e => mret (inl e)
      | inr override =>
          match configTemplate i mc db transportURLSecret override with
          | inl e => mret (inl e)
          | inr tmpl =>
              h ← call (EnsureTemplate tmpl);
              mret match h with
              | inl e => inl e
              | inr hash => inr (sortedKeys (tm_StringTemplate tmpl), <[tm_Name tmpl := hash]> vars)
              end
          end
      end
  end.

(** ** reconcileCloudConfig *)

Definition cloudConfig (i : KeystoneAPI) (authURL : string) : OpenStackConfig :=
  mkOpenStackConfig authURL (ka_AdminProject (core i)) (ka_AdminUser (core i)) "Default" "Default" (ka_Region (core i)).
Definition cloudSecret (i : KeystoneAPI) (keystoneSecret : Secret) : OpenStackConfigSecret :=
  mkOpenStackConfigSecret (default "" (s_Data keystoneSecret !! ka_PasswordSelectorAdmin (core i))).

Definition reconcileCloudConfig (i : KeystoneAPI) : program (option GoError) :=
  match GetEndpoint i EndpointPublic with
  | inl e => mret (Some e)
  | inr authURL =>
      let openStackConfig := cloudConfig i authURL in
      match YamlConfig openStackConfig with
      | inl e => mret (Some e)
      | inr cloudsYamlVal =>
          err ← call (EnsureConfigMap (ns i) "openstack-config"
                        (<["clouds.yaml" := cloudsYamlVal]> {[ "OS_CLOUD" := "default" ]}) (cmLabels i));
          match err with
          | Some e => mret (Some e)
          | None =>
              s ← call (GetSecret (ns i) (ka_Secret (core i)));
              match s with
              | inl e => mret (Some e)
              | inr keystoneSecret =>
                  let secretConfig := cloudSecret i keystoneSecret in
                  match YamlConfigSecret secretConfig with
                  | inl e => mret (Some e)
                  | inr secretVal =>
                      h ← call (EnsureSecret (ns i) "openstack-config-secret"
                             (<["secure.yaml" := secretVal]> {[ "cloudrc" := GenerateCloudrc secretConfig openStackConfig ]})
                             (cmLabels i) ∅);
                      mret match h with inl e => Some e | inr _ => None end
                  end
              end
          end
      end
  end.

(** ** The other inputs *)

Definition createHashOfInputHashes (vars : gmap string string) : M string :=
  i ← get;
  match ObjectHashEnv (MergeEnvs [] vars) with
  | inl e => return_ (failWith e)
  | inr hash =>
      let '(hashMap, changed) := SetHash (kas_Hash (ka_status i)) (const "InputHashName") hash in
      (if changed then setStatus (kas_setHash hashMap) else mret tt);;
      mret hash
  end.

(** A failure to produce the service's configuration. *)
Definition configOr {A} (r : res A) : M A :=
  match r with inl e => failCond ServiceConfigReady "ServiceConfigReadyErrorMessage" e | inr a => mret a end.

Definition validateCertSecrets (vars : gmap string string) : M (gmap string string) :=
  i ← get;
  r ← lift (call (ValidateCertSecrets (ka_TLS (core i)) (ns i)));
  match r with
  | inl e =>
      if IsNotFound e
      then setFalse TLSInputReady RequestedReason SeverityInfo (msg "TLSInputReadyWaitingMessage") [Error e];; return_ done_
      else failCond TLSInputReady "TLSInputErrorMessage" e
  | inr certsHash => mret (<[const "TLSHashName" := certsHash]> vars)
  end.

(** The definitions of the networks to attach to. *)
Fixpoint getNADs (networks : list string) : M (list string) :=
  match networks with
  | [] => mret []
  | netAtt :: rest =>
      i ← get;
      r ← lift (call (GetNADWithName netAtt (ns i)));
      match r with
      | inl e =>
          if IsNotFound e
          then warnCond NetworkAttachmentsReady (msg "NetworkAttachmentsReadyWaitingMessage") [netAtt] (requeueAfter (10 * second))
          else failCond NetworkAttachmentsReady "NetworkAttachmentsReadyErrorMessage" e
      | inr nad =>
          nads ← getNADs rest;
          mret match nad with Some n => n :: nads | None => nads end
      end
  end.
Definition networkAnnotations : M (gmap string string) :=
  i ← get;
  nadList ← getNADs (ka_NetworkAttachments (core i));
  match EnsureNetworksAnnotation nadList with
  | inl e => return_ (failWith (wrapErr ("failed create network annotation from " +:+ sprintSlice (ka_NetworkAttachments (core i))) e))
  | inr serviceAnnotations => mret serviceAnnotations
  end.

(** ** reconcileInit *)

(** [KeystoneAPI.RbacConditionsSet] has a value receiver: the method replaces
    conditions in the array the copy shares with the instance, but a condition
    it would append is lost with the copy. *)
Definition RbacConditionsSet (c : Condition) (i : KeystoneAPI) : KeystoneAPI :=
  match condStatus (c_Type c) (kas_Conditions (ka_status i)) with
  | Some _ => withCond (condSet (Some c)) i
  | None => i
  end.
Definition rbacRules : list string := ["security.openshift.io/securitycontextconstraints:nonroot-v2:use"].
Definition reconcileRbac : M unit :=
  i ← get;
  '(conds, result, err) ← lift (call (ReconcileRbac (RbacNamespace i) (RbacResourceName i) rbacRules));
  modify (fun i => foldl (fun i c => RbacConditionsSet c i) i conds);;
  match err with
  | Some e => return_ (result, Some e)
  | None => if decide (result <> noResult) then return_ (result, None) else mret tt
  end.

(** Run a job to its end: a requested requeue takes precedence over an error. *)
Definition runJob (c : APICondition) (running error ready hashName : string) (job : option Job) : M unit :=
  match job with
  | None => leave Panic
  | Some j =>
      i ← get;
      '(changed, hash, result, err) ←
        lift (call (DoJob j hashName (ka_PreserveJobs (core i)) (5 * second)
                      (default "" (kas_Hash (ka_status i) !! hashName))));
      if decide (result <> noResult) then waitCond c running result
      else
        match err with
        | Some e => failCond c error e
        | None =>
            (if (changed : bool) then setStatus (fun s => kas_setHash (<[hashName := hash]> (kas_Hash s)) s) else mret tt);;
            markTrue c ready
        end
  end.

(** The service of an endpoint, with the annotations for its ingress. *)
Definition endpointPort (ty : string) : Z := if decide (ty = EndpointPublic) then KeystonePublicPort else KeystoneInternalPort.
Definition genericService (i : KeystoneAPI) (serviceLabels : gmap string string) (ty : string) : Service :=
  let endpointName := Name (ka_meta i) +:+ "-" +:+ ty in
  mkKubeService endpointName (ns i) (MergeStringMaps serviceLabels {[ const "AnnotationEndpointKey" := ty ]}) serviceLabels
    endpointName (endpointPort ty) ∅ "" "".
Definition svcOverride (i : KeystoneAPI) (ty : string) : RoutedOverrideSpec :=
  let o := default (mkRoutedOverride (mkOverrideSpec None "") None) (ka_OverrideService (core i) !! ty) in
  match os_EmbeddedLabelsAnnotations (ro_OverrideSpec o) with
  | Some _ => o
  | None => mkRoutedOverride (mkOverrideSpec (Some (∅, ∅)) (os_Spec (ro_OverrideSpec o))) (ro_EndpointURL o)
  end.
Definition annotateService (ty : string) (svc : Service) : Service :=
  let svc := AddAnnotation (const "AnnotationEndpointKey") ty svc in
  if decide (ty = EndpointPublic /\ kv_Type svc = "ClusterIP")
  then AddAnnotation (const "AnnotationIngressCreateKey") "true" svc
  else
    let svc := AddAnnotation (const "AnnotationIngressCreateKey") "false" svc in
    if decide (kv_Type svc = "LoadBalancer") then AddAnnotation (const "AnnotationHostnameKey") (kv_Hostname svc) svc else svc.

Definition exposeEndpoint (serviceLabels : gmap string string) (ty : string) : M string :=
  i ← get;
  match NewService (genericService i serviceLabels ty) (ro_OverrideSpec (svcOverride i ty)) with
  | inl e => failCond CreateServiceReady "CreateServiceReadyErrorMessage" e
  | inr svc =>
      '(svc, result, err) ← lift (call (CreateOrPatchService (annotateService ty svc)));
      match err with
      | Some e =>
          setFalse CreateServiceReady ErrorReason SeverityWarning (msg "CreateServiceReadyErrorMessage") [Error e];;
          return_ (result, Some e)
      | None =>
          if decide (result <> noResult) then waitCond CreateServiceReady "CreateServiceReadyRunningMessage" result
          else
            let protocol := if TLSEnabled i ty then Some (const "ProtocolHTTPS") else None in
            match GetAPIEndpoint svc (ro_EndpointURL (svcOverride i ty)) protocol "" with
            | inl e => return_ (failWith e)
            | inr url => mret url
            end
      end
  end.
Fixpoint exposeEndpoints (serviceLabels : gmap string string) (types : list string) (apiEndpoints : gmap string string)
  : M (gmap string string) :=
  match types with
  | [] => mret apiEndpoints
  | ty :: rest =>
      url ← exposeEndpoint serviceLabels ty;
      exposeEndpoints serviceLabels rest (<[ty := url]> apiEndpoints)
  end.

(** The bootstrap job, with the endpoints the status records. *)
Definition bootstrapStep (serviceLabels serviceAnnotations : gmap string string) (memcached : Memcached) : M unit :=
  i ← get;
  runJob BootstrapReady "BootstrapReadyRunningMessage" "BootstrapReadyErrorMessage" "BootstrapReadyMessage" BootstrapHash
    (BootstrapJob i serviceLabels serviceAnnotations (kas_APIEndpoints (ka_status i)) memcached).

Definition reconcileInit (serviceLabels serviceAnnotations : gmap string string) (memcached : Memcached) : M unit :=
  reconcileRbac;;
  i ← get;
  runJob DBSyncReady "DBSyncReadyRunningMessage" "DBSyncReadyErrorMessage" "DBSyncReadyMessage" DbSyncHash
    (DbSyncJob i serviceLabels serviceAnnotations);;
  apiEndpoints ← exposeEndpoints serviceLabels (sortStrings [EndpointPublic; EndpointInternal]) ∅;
  markTrue CreateServiceReady "CreateServiceReadyMessage";;
  setStatus (kas_setAPIEndpoints apiEndpoints);;
  bootstrapStep serviceLabels serviceAnnotations memcached.

(** Placeholders of the code: they log and succeed. *)
Definition reconcileUpdate : M unit := mret tt.
Definition reconcileUpgrade : M unit := mret tt.

(** ** reconcileNormal *)

(** What the preparation hands to the deployment. *)
Record Prepared := mkPrepared {
  pr_Labels : gmap string string; pr_Annotations : gmap string string; pr_TransportSecret : string;
  pr_Memcached : Memcached; pr_CustomConfigKeys : list string; pr_FederationFilenames : list string; pr_InputHash : string
}.

Definition serviceLabels (i : KeystoneAPI) : gmap string string :=
  <[AppSelector := ServiceName]> {[ const "OwnerSelector" := Name (ka_meta i) ]}.

(** The fernet loops may not end (see Fernet.v). *)
Definition fernetStep (fuel : nat) (vars : gmap string string) : M (gmap string string) :=
  i ← get;
  r ← lift (ensureFernetKeys fuel i vars);
  match r with
  | None => leave Hang
  | Some (vars, None) => mret vars
  | Some (_, Some e) => failCond ServiceConfigReady "ServiceConfigReadyErrorMessage" e
  end.

(** Everything that has to be there before the first pod: the secret, the
    database, the transport URL, memcached, the configuration, the keys, the
    certificates, the networks, and the jobs of [reconcileInit]. *)
Definition prepare (fuel : nat) : M Prepared :=
  i ← get;
  let labels := serviceLabels i in
  vars ← verifySecret ∅;
  markTrue InputReady "InputReadyMessage";;
  db ← ensureDB;
  currentTransportSecret ← ensureTransport labels;
  memcached ← ensureMemcached;
  i ← get;
  cfg ← lift (generateServiceConfigMaps i vars memcached db currentTransportSecret);
  '(customConfigKeys, vars) ← configOr cfg;
  vars ← fernetStep fuel vars;
  i ← get;
  '(vars, fed) ← lift (ensureFederationRealmConfig i vars);
  federationFilenames ← configOr fed;
  vars ← requireTLSInput vars;
  vars ← validateCertSecrets vars;
  markTrue TLSInputReady "InputReadyMessage";;
  inputHash ← createHashOfInputHashes vars;
  markTrue ServiceConfigReady "ServiceConfigReadyMessage";;
  serviceAnnotations ← networkAnnotations;
  reconcileInit labels serviceAnnotations memcached;;
  reconcileUpdate;;
  reconcileUpgrade;;
  mret (mkPrepared labels serviceAnnotations currentTransportSecret memcached customConfigKeys federationFilenames inputHash).

Definition topologyStep (labels : gmap string string) : M (option string) :=
  i ← get;
  r ← lift (call (EnsureServiceTopology (ka_TopologyRef (core i)) (kas_LastAppliedTopology (ka_status i))
                    (Name (ka_meta i)) labels));
  match r with
  | inl e =>
      setFalse TopologyReady ErrorReason SeverityWarning (msg "TopologyReadyErrorMessage") [Error e];;
      return_ (failWith (wrapErr "waiting for Topology requirements" e))
  | inr topology =>
      setStatus (kas_setLastAppliedTopology (ka_TopologyRef (core i)));;
      match ka_TopologyRef (core i) with Some _ => markTrue TopologyReady "TopologyReadyMessage" | None => mret tt end;;
      mret topology
  end.

(** Create or patch the deployment, and record what it reports. *)
Definition deploymentStep (p : Prepared) (topology : option string) : M DeploymentState :=
  i ← get;
  match Deployment i (pr_InputHash p) (pr_Labels p) (pr_Annotations p) topology AppSelector
          (pr_FederationFilenames p) (pr_Memcached p) (pr_CustomConfigKeys p) with
  | None => leave Panic
  | Some (inl e) => failCond DeploymentReady "DeploymentReadyErrorMessage" e
  | Some (inr deplDef) =>
      '(deploy, result, err) ← lift (call (CreateOrPatchDeployment deplDef (5 * second)));
      match err with
      | Some e =>
          setFalse DeploymentReady ErrorReason SeverityWarning (msg "DeploymentReadyErrorMessage") [Error e];;
          return_ (result, Some e)
      | None =>
          if decide (result <> noResult) then waitCond DeploymentReady "DeploymentReadyRunningMessage" result
          else
            (if decide (ds_Generation deploy = ds_ObservedGeneration deploy)
             then setStatus (fun s => kas_setRegion (ka_Region (core i)) (kas_setReadyCount (ds_ReadyReplicas deploy) s))
             else mret tt);;
            mret deploy
      end
  end.

Definition networkStep (labels : gmap string string) : M unit :=
  i ← get;
  r ← lift (call (VerifyNetworkStatus (ka_NetworkAttachments (core i)) labels (kas_ReadyCount (ka_status i))));
  match r with
  | inl e => return_ (failWith e)
  | inr (networkReady, networkAttachmentStatus) =>
      setStatus (kas_setNetworkAttachments networkAttachmentStatus);;
      if (networkReady : bool) then markTrue NetworkAttachmentsReady "NetworkAttachmentsReadyMessage"
      else warnCond NetworkAttachmentsReady (msg "NetworkAttachmentsErrorMessage")
             [sprintSlice (ka_NetworkAttachments (core i))] noResult
  end.

(** Is the deployment ready, with the present input? *)
Definition readyStep (inputHash : string) (deploy : DeploymentState) : M unit :=
  i ← get;
  r ← (if ds_IsReady deploy then lift (call (IsReadyForInput (ds_Name deploy) (ds_Namespace deploy) inputHash))
       else mret (inr false));
  match r with
  | inl e => return_ (failWith e)
  | inr true => markTrue DeploymentReady "DeploymentReadyMessage"
  | inr false =>
      match ka_Replicas (core i) with
      | None => leave Panic
      | Some n =>
          if 0 <? n
          then setFalse DeploymentReady RequestedReason SeverityInfo (msg "DeploymentReadyRunningMessage") []
          else mret tt
      end
  end.

(** With all replicas ready, the unused database accounts are released. *)
Definition releaseUnusedAccounts : M unit :=
  i ← get;
  match ka_Replicas (core i) with
  | None => leave Panic
  | Some n =>
      if decide (kas_ReadyCount (ka_status i) = n) then
        err ← lift (call (DeleteUnusedMariaDBAccountFinalizers DatabaseName (ka_DatabaseAccount (core i)) (ns i)));
        failIf err
      else mret tt
  end.

Definition cronJobStep (p : Prepared) : M unit :=
  i ← get;
  match CronJob i (pr_Labels p) (pr_Annotations p) (pr_Memcached p) with
  | None => leave Panic
  | Some cronjobDef =>
      '(result, err) ← lift (call (CreateOrPatchCronJob cronjobDef (5 * second)));
      match err with
      | Some e =>
          setFalse CronJobReady ErrorReason SeverityWarning (msg "CronJobReadyErrorMessage") [Error e];;
          return_ (result, Some e)
      | None => markTrue CronJobReady "CronJobReadyMessage"
      end
  end.

(** Move the consumer finalizer from the superseded transport secret once
    everything is ready, and drop stranded ones. *)
Definition rotateTransportSecret (currentTransportSecret : string) : M unit :=
  i ← get;
  r ← lift (call (FinalizeSecretRotation (ns i) (kas_TransportURLSecret (ka_status i)) currentTransportSecret
                    TransportConsumerFinalizer (condAllSubConditionIsTrue (kas_Conditions (ka_status i)))));
  match r with
  | inl e => return_ (failWith e)
  | inr transportSecretName =>
      setStatus (kas_setTransportURLSecret transportSecretName);;
      err ← lift (call (PruneSecretConsumerFinalizers (ns i) TransportConsumerFinalizer
                          [transportSecretName; currentTransportSecret]));
      failIf err
  end.

(** The deployment, the cron job and the client configuration. *)
Definition rollout (p : Prepared) : M unit :=
  topology ← topologyStep (pr_Labels p);
  deploy ← deploymentStep p topology;
  networkStep (pr_Labels p);;
  readyStep (pr_InputHash p) deploy;;
  releaseUnusedAccounts;;
  cronJobStep p;;
  i ← get;
  err ← lift (reconcileCloudConfig i);
  failIf err.

Definition reconcileNormal (fuel : nat) : M ret :=
  p ← prepare fuel;
  rollout p;;
  rotateTransportSecret (pr_TransportSecret p);;
  mret done_.

(** ** reconcileExternalKeystoneAPI *)

(** The URLs of the public and the internal endpoint, as the loop over the
    overrides finds them; [Some message] is the early exit for a missing URL. *)
Record ExternalURLs := mkExternalURLs { eu_Public : option string; eu_Internal : option string }.
Fixpoint externalURLs (types : list string) (overrides : gmap string RoutedOverrideSpec) (found : ExternalURLs)
  : string + ExternalURLs :=
  match types with
  | [] => inr found
  | ty :: rest =>
      let url := default "" (overrides !! ty ≫= ro_EndpointURL) in
      if decide (ty = EndpointPublic) then
        if decide (url = "") then inl "external Keystone API requires endpointURL to be set for public endpoint"
        else externalURLs rest overrides (mkExternalURLs (Some url) (eu_Internal found))
      else if decide (ty = EndpointInternal) then
        if decide (url = "") then inl "external Keystone API requires endpointURL to be set for internal endpoint"
        else externalURLs rest overrides (mkExternalURLs (eu_Public found) (Some url))
      else externalURLs rest overrides found
  end.

(** Both URLs, or the condition that says which one is missing. *)
Definition requireExternalURLs : M (string * string) :=
  i ← get;
  let overrides := ka_OverrideService (core i) in
  if decide (overrides = ∅) then warnCond InputReady (msg "InputReadyWaitingMessage") [] noResult
  else
    match externalURLs (sortedKeys overrides) overrides (mkExternalURLs None None) with
    | inl message => warnCond InputReady message [] noResult
    | inr (mkExternalURLs None _) =>
        warnCond InputReady "external Keystone API requires public endpoint to be defined" [] noResult
    | inr (mkExternalURLs _ None) =>
        warnCond InputReady "external Keystone API requires internal endpoint to be defined" [] noResult
    | inr (mkExternalURLs (Some public) (Some internal)) => mret (public, internal)
    end.

Definition reconcileExternalKeystoneAPI : M ret :=
  vars ← verifySecret ∅;
  '(publicEndpointURL, internalEndpointURL) ← requireExternalURLs;
  setStatus (fun s => kas_setAPIEndpoints (<[EndpointInternal := internalEndpointURL]>
                        (<[EndpointPublic := publicEndpointURL]> (kas_APIEndpoints s))) s);;
  i ← get;
  setStatus (kas_setRegion (ka_Region (core i)));;
  markTrue InputReady "InputReadyMessage";;
  setStatus (kas_setReadyCount 0);;
  requireTLSInput vars;;
  markTrue TLSInputReady "InputReadyMessage";;
  i ← get;
  err ← lift (reconcileCloudConfig i);
  failIf err;;
  mret done_.

(** ** reconcileDelete *)

Definition dropFinalizer : M unit :=
  modify (fun i => ka_setFinalizers (RemoveFinalizer apiFinalizer (Finalizers (ka_meta i))).1 i).

Definition releaseMemcached (i : KeystoneAPI) : M unit :=
  r ← lift (call (GetMemcachedByName (ns i) (ka_MemcachedInstance (core i))));
  match r with
  | inl e => if IsNotFound e then mret tt else return_ (failWith e)
  | inr memcached =>
      let '(fs, removed) := RemoveFinalizer apiFinalizer (Finalizers (mc_meta memcached)) in
      if removed then err ← lift (call (UpdateMemcached (mc_setFinalizers fs memcached))); failIf err else mret tt
  end.

Definition releaseDB (i : KeystoneAPI) : M unit :=
  r ← lift (call (GetDatabaseByNameAndAccount DatabaseCRName (ka_DatabaseAccount (core i)) (ns i)));
  match r with
  | inl e => if IsNotFound e then mret tt else return_ (failWith e)
  | inr db => err ← lift (call (DeleteDBFinalizer db)); failIf err
  end.

(** The secret in the status, and the one of a pending rotation. *)
Definition releaseTransport (i : KeystoneAPI) : M unit :=
  err ← lift (call (RemoveSecretConsumerFinalizer (ns i) (kas_TransportURLSecret (ka_status i)) TransportConsumerFinalizer));
  failIf err;;
  r ← lift (call (GetTransportURL (ns i) (transportURLName i)));
  match r with
  | inl e => if IsNotFound e then mret tt else return_ (failWith e)
  | inr transportURL =>
      if decide (tu_SecretName transportURL <> "" /\ tu_SecretName transportURL <> kas_TransportURLSecret (ka_status i))
      then err ← lift (call (RemoveSecretConsumerFinalizer (ns i) (tu_SecretName transportURL) TransportConsumerFinalizer));
           failIf err
      else mret tt
  end.

Definition releaseTopology (i : KeystoneAPI) : M unit :=
  '(result, err) ← lift (call (EnsureDeletedTopologyRef (kas_LastAppliedTopology (ka_status i)) (Name (ka_meta i))));
  match err with Some e => return_ (result, Some e) | None => mret tt end.

(** Another finalizer: a service or an endpoint still needs this Keystone. *)
Definition foreignFinalizer (i : KeystoneAPI) : bool :=
  bool_decide (Exists (fun f => f <> apiFinalizer) (Finalizers (ka_meta i))).

Definition reconcileDelete : M ret :=
  i ← get;
  if ka_ExternalKeystoneAPI (core i) then dropFinalizer;; mret done_
  else if foreignFinalizer i then mret done_
  else
    releaseTopology i;;
    releaseMemcached i;;
    releaseDB i;;
    releaseTransport i;;
    dropFinalizer;;
    mret done_.

(** ** Reconcile *)

Definition unknown (c : APICondition) (message : string) : Condition :=
  UnknownCondition (condName c) InitReason (msg message).
Definition internalConditions : list Condition :=
  [unknown DBReady "DBReadyInitMessage"; unknown DBSyncReady "DBSyncReadyInitMessage";
   unknown RabbitMqTransportURLReady "RabbitMqTransportURLReadyInitMessage"; unknown MemcachedReady "MemcachedReadyInitMessage";
   unknown CreateServiceReady "CreateServiceReadyInitMessage"; unknown BootstrapReady "BootstrapReadyInitMessage";
   unknown ServiceConfigReady "ServiceConfigReadyInitMessage"; unknown DeploymentReady "DeploymentReadyInitMessage";
   unknown NetworkAttachmentsReady "NetworkAttachmentsReadyInitMessage"; unknown CronJobReady "CronJobReadyInitMessage";
   unknown ServiceAccountReady "ServiceAccountReadyInitMessage"; unknown RoleReady "RoleReadyInitMessage";
   unknown RoleBindingReady "RoleBindingReadyInitMessage"].
Definition initConditions (i : KeystoneAPI) : Conditions :=
  let cl := CreateList [unknown InputReady "InputReadyInitMessage"; unknown TLSInputReady "InputReadyInitMessage"] in
  let cl := if ka_ExternalKeystoneAPI (core i) then cl else foldl (fun cl c => condSet (Some c) cl) cl internalConditions in
  match ka_TopologyRef (core i) with
  | Some _ => condSet (Some (unknown TopologyReady "TopologyReadyInitMessage")) cl
  | None => cl
  end.

(** The body of [Reconcile] between the fetch and the deferred patch. *)
Definition reconcileBody (fuel : nat) : M ret :=
  i ← get;
  let isNewInstance := bool_decide (kas_Conditions (ka_status i) = None) in
  modify (withCond (fun cs => condInit (initConditions i) (Some (default [] cs))));;
  setStatus (kas_setObservedGeneration (Generation (ka_meta i)));;
  let '(fs, added) := if notDeleting (ka_meta i) then AddFinalizer apiFinalizer (Finalizers (ka_meta i))
                      else (Finalizers (ka_meta i), false) in
  modify (ka_setFinalizers fs);;
  if added || isNewInstance then mret done_
  else if negb (notDeleting (ka_meta i)) then reconcileDelete
  else if ka_ExternalKeystoneAPI (core i) then reconcileExternalKeystoneAPI
  else reconcileNormal fuel.

(** The deferred function: a panic leaves the object as it is; the error of
    the patch replaces the error of the body. *)
Definition finish (saved : Conditions) (i : KeystoneAPI) (r : ret) : program ret :=
  let i := withCond (fun cs => RestoreLastTransitionTimes (summarizeReady cs) saved) i in
  perr ← call (PatchKeystoneAPI i);
  mret (r.1, match perr with Some e => Some e | None => r.2 end).

Definition Reconcile (fuel : nat) (namespace name : string) : program (exit + ret) :=
  r ← call (GetKeystoneAPICR namespace name);
  match r with
  | inl e => mret (inr (if IsNotFound e then done_ else failWith e))
  | inr instance =>
      h ← call NewHelper;
      match h with
      | Some e => mret (inr (failWith e))
      | None =>
          let saved := Some (default [] (kas_Conditions (ka_status instance))) in
          '(i, out) ← reconcileBody fuel instance;
          match out with
          | inl (Return r) | inr r => r ← finish saved i r; mret (inr r)
          | inl e => mret (inl e)
          end
      end
  end.
End operations.

(** ** An instance for the witnesses *)

#[export] Instance demoControllerLib : ControllerLib := {|
  condName := fun c => match c with
    | InputReady => "InputReady" | TLSInputReady => "TLSInputReady" | DBReady => "DBReady" | DBSyncReady => "DBSyncReady"
    | RabbitMqTransportURLReady => "RabbitMqTransportURLReady" | MemcachedReady => "MemcachedReady"
    | CreateServiceReady => "CreateServiceReady" | BootstrapReady => "BootstrapReady" | ServiceConfigReady => "ServiceConfigReady"
    | DeploymentReady => "DeploymentReady" | NetworkAttachmentsReady => "NetworkAttachmentsReady" | CronJobReady => "CronJobReady"
    | ServiceAccountReady => "ServiceAccountReady" | RoleReady => "RoleReady" | RoleBindingReady => "RoleBindingReady"
    | TopologyReady => "TopologyReady" | MariaDBAccountReady => "MariaDBAccountReady" end;
  msg := fun name => name;
  const := fun name => name;
  DatabaseClientConfig := fun db tls => "[client]";
  NewService := fun s o => inr s;
  GetAPIEndpoint := fun s url protocol path => inr (default ("http://" +:+ kv_Name s) url);
  EnsureNetworksAnnotation := fun nads => inr ∅;
  ObjectHashEnv := fun env => inr (joinWith "," ((fun e => ev_Name e) <$> env));
  SetHash := fun m k h => (<[k := h]> m, negb (bool_decide (m !! k = Some h)));
  YamlParameters := fun p => inr "parameters";
  YamlConfig := fun c => inr (oc_AuthURL c);
  YamlConfigSecret := fun c => inr (ocs_Password c)
|}.
#[export] Instance demoControllerLaws : ControllerLaws.
Proof.
  split; [intros [] []; by intros [=]|intros []; by intros [=]].
Qed.

(** A reconcile of a deployed Keystone against a world in which everything is
    there. *)
Definition demoHeldAPI : KeystoneAPI :=
  mkKeystoneAPI (mkMeta "keystone" "openstack" 1 ["openstack.org/KeystoneAPI"] ∅ ∅ None) (ka_spec demoAPI) (ka_status demoAPI).
Definition rbacDone (t : string) : Condition := mkCondition t ConditionTrue "Ready" "" "created" 0.
Definition apiHandler (X : Type) (c : Call X) (w : unit) : X * unit :=
  match c in Call X return X * unit with
  | GetKeystoneAPICR _ _ => (inr demoHeldAPI, w)
  | LibGetSecret _ n => (inr (mkSecret (newMeta n "openstack") None (<["transport_url" := "rabbit://"]> demoKeySecret), "hash"), w)
  | GetSecret _ n => (inr (mkSecret (newMeta n "openstack") None {[ "AdminPassword" := "pw" ]}), w)
  | GetMemcachedByName _ n => (inr (demoMemcached ""), w)
  | CreateOrUpdateTransportURL _ o mutate =>
      ((mkTransportURL (tu_Name o) (tu_Namespace o) (tu_Labels o) "rabbitmq" "" "" "transport-secret", None), w)
  | ReconcileRbac _ _ _ => ((rbacDone <$> ["ServiceAccountReady"; "RoleReady"; "RoleBindingReady"], noResult, None), w)
  | c => nullHandler _ c w
  end.

Definition demoReconcile : program (exit + ret) := Reconcile 40 "openstack" "keystone".
Definition demoReconcileTrace : trace := traceWith apiHandler demoReconcile.
(* Conversion opens these two names before it evaluates what they stand for. *)
Strategy -100 [demoReconcileTrace demoReconcile].
Lemma demoReconcile_runs : runs demoReconcile demoReconcileTrace (inr done_).
Proof.
  assert (resultWith apiHandler demoReconcile = inr done_) as Heq by (vm_compute; reflexivity).
  rewrite <- Heq. apply runsWith.
Qed.
