(* ===== verification/APIJudgements.v ===== *)
(** Judgements on the steps of the KeystoneAPI controller: what a step leaves
    alone ([preserves]), what holds when it goes on ([yields]), which calls it
    may issue ([emitsM]); with the automation that walks a step, and the first
    of them for every step of the controller. *)
From S2P Require Import Prelude Effects GoTime Api Conditions Instances Workloads Calls External Demo Fernet Pods.
From S2P Require Import APIController.
Open Scope Z_scope.

(** ** Judgements on reconcile steps *)

Section judgements.
Context `{CL : ConditionLib} `{KL : ControllerLib}.

Definition status (c : APICondition) (i : KeystoneAPI) : option string :=
  condStatus (condName c) (kas_Conditions (ka_status i)).

(** The RBAC reconciler of lib-common sets the conditions it is responsible
    for, and no others. *)
Definition rbacConditions : list string := condName <$> [ServiceAccountReady; RoleReady; RoleBindingReady].
Definition honestAnswer {X} (c : Call X) : X -> Prop :=
  match c in Call X return X -> Prop with
  | ReconcileRbac _ _ _ => fun answer => Forall (fun cd => c_Type cd ∈ rbacConditions) answer.1.1
  | _ => fun _ => True
  end.
Definition honest (t : trace) : Prop := Forall (fun ev => match ev with Ev c x => honestAnswer c x end) t.

Definition hwp {A} (m : M A) (i : KeystoneAPI) (Q : trace -> KeystoneAPI * (exit + A) -> Prop) : Prop :=
  wp (m i) (fun t r => honest t -> Q t r).

Lemma hwp_mono {A} (m : M A) i (Q1 Q2 : trace -> KeystoneAPI * (exit + A) -> Prop) :
  (forall t r, honest t -> Q1 t r -> Q2 t r) -> hwp m i Q1 -> hwp m i Q2.
Proof. intros H. apply wp_mono. eauto. Qed.

Lemma hwp_conj {A} (m : M A) i (Q1 Q2 : trace -> KeystoneAPI * (exit + A) -> Prop) :
  hwp m i Q1 -> hwp m i Q2 -> hwp m i (fun t r => Q1 t r /\ Q2 t r).
Proof. intros H1 H2. eapply wp_mono; [|exact (wp_conj _ _ _ H1 H2)]. cbv beta. tauto. Qed.

Lemma hwp_bind {A B} (m : M A) (f : A -> M B) i Q :
  hwp m i (fun t1 r => match r.2 with
    | inl e => Q t1 (r.1, inl e)
    | inr a => hwp (f a) r.1 (fun t2 r2 => Q (t1 ++ t2) r2) end) ->
  hwp (m ≫= f) i Q.
Proof.
  intros H. unfold hwp in *. unfold mbind at 1, M_bind. rewrite wp_bind. eapply wp_mono; [|exact H].
  intros t1 [i1 [e|a]] H1; cbn [fst snd] in *.
  - cbn [wp mret prog_ret]. rewrite app_nil_r. exact H1.
  - rewrite wp_runs. intros t2 r2 Hr Hh. apply Forall_app in Hh as [Hh1 Hh2]. specialize (H1 Hh1).
    rewrite wp_runs in H1. by apply H1.
Qed.

Lemma hwp_runs {A} (m : M A) i Q t r : hwp m i Q -> runs (m i) t r -> honest t -> Q t r.
Proof. intros H Hr. by eapply runs_spec in Hr; [|exact H]. Qed.

(** A function of the instance that a step leaves alone. *)
Definition preserves {X A} (f : KeystoneAPI -> X) (m : M A) : Prop := forall i, hwp m i (fun _ r => f r.1 = f i).

Lemma preserves_bind {X A B} (f : KeystoneAPI -> X) (m : M A) (g : A -> M B) :
  preserves f m -> (forall a, preserves f (g a)) -> preserves f (m ≫= g).
Proof.
  intros Hm Hg i. apply hwp_bind. eapply hwp_mono; [|apply Hm]. intros t [i1 [e|a]] _ H1; [exact H1|].
  eapply hwp_mono; [|apply Hg]. cbn in *. intros _ r _ H2. congruence.
Qed.
Lemma preserves_ret {X A} (f : KeystoneAPI -> X) (a : A) : preserves f (mret a).
Proof. by intros i _. Qed.
Lemma preserves_lift {X A} (f : KeystoneAPI -> X) (p : program A) : preserves f (lift p).
Proof. intros i. unfold hwp, lift. rewrite wp_bind. apply wp_runs. intros t a _ _. done. Qed.
Lemma preserves_get {X} (f : KeystoneAPI -> X) : preserves f get.
Proof. by intros i _. Qed.
Lemma preserves_leave {X A} (f : KeystoneAPI -> X) e : preserves f (@leave A e).
Proof. by intros i _. Qed.
Lemma preserves_modify {X} (f : KeystoneAPI -> X) g : (forall i, f (g i) = f i) -> preserves f (modify g).
Proof. intros H i _. apply H. Qed.

(** What holds of the exchange and of the result when a step goes on. *)
Definition yields {A} (m : M A) (i : KeystoneAPI) (F : trace -> A -> KeystoneAPI -> Prop) : Prop :=
  hwp m i (fun t r => forall a, r.2 = inr a -> F t a r.1).

Lemma yields_mono {A} (m : M A) i (F G : trace -> A -> KeystoneAPI -> Prop) :
  (forall t a i1, F t a i1 -> G t a i1) -> yields m i F -> yields m i G.
Proof. intros H. apply hwp_mono. intros t r _ H1 a Ha. by apply H, H1. Qed.
Lemma yields_any {A} (m : M A) i : yields m i (fun _ _ _ => True).
Proof. unfold yields, hwp. apply wp_runs. done. Qed.

Lemma yields_bind {A B} (m : M A) (f : A -> M B) i F G :
  yields m i F -> (forall t1 a i1, F t1 a i1 -> yields (f a) i1 (fun t2 b i2 => G (t1 ++ t2) b i2)) ->
  yields (m ≫= f) i G.
Proof.
  intros Hm Hf. apply hwp_bind. eapply hwp_mono; [|exact Hm]. intros t1 [i1 [e|a]] _ H1; cbn [fst snd] in *; [done|].
  apply Hf, H1. done.
Qed.
Lemma yields_preserves {X A} (f : KeystoneAPI -> X) (m : M A) i F :
  preserves f m -> yields m i F -> yields m i (fun t a i1 => F t a i1 /\ f i1 = f i).
Proof.
  intros Hp Hy. eapply hwp_mono; [|exact (hwp_conj _ _ _ _ Hy (Hp i))]. intros t r _ [H1 H2] a Ha. split; [by apply H1|done].
Qed.
Lemma yields_ret {A} (a : A) i (F : trace -> A -> KeystoneAPI -> Prop) : F [] a i -> yields (mret a) i F.
Proof. intros H _ b [= <-]. exact H. Qed.
Lemma yields_leave {A} e i (F : trace -> A -> KeystoneAPI -> Prop) : yields (leave e) i F.
Proof. by intros _ b. Qed.

(** The calls a step may issue. *)
Definition emitsM {A} (P : forall X, Call X -> Prop) (m : M A) : Prop := forall i, emits P (m i).
Lemma emitsM_bind {A B} P (m : M A) (f : A -> M B) : emitsM P m -> (forall a, emitsM P (f a)) -> emitsM P (m ≫= f).
Proof.
  intros Hm Hf i. unfold mbind at 1, M_bind. apply emits_bind; [apply Hm|]. intros [i1 [e|a]]; [exact I|apply Hf].
Qed.
Lemma emitsM_lift {A} P (p : program A) : emits P p -> emitsM P (lift p).
Proof. intros H i. apply emits_bind; [exact H|]. intros a. exact I. Qed.
Lemma emitsM_get P : emitsM P get.
Proof. intros i. exact I. Qed.
Lemma emitsM_modify P f : emitsM P (modify f).
Proof. intros i. exact I. Qed.
Lemma emitsM_leave {A} P e : emitsM P (@leave A e).
Proof. intros i. exact I. Qed.
Lemma emitsM_ret {A} P (a : A) : emitsM P (mret a).
Proof. intros i. exact I. Qed.
End judgements.

(** Walk a step, structurally. *)
Ltac M_cases :=
  match goal with
  | |- context [match ?x with _ => _ end] => case_match_of x
  end.
Create HintDb preserves.
Ltac preserves_go :=
  repeat (cbn beta iota;
    lazymatch goal with
    | |- forall _, preserves _ _ => intro
    | |- preserves _ (mbind _ _) => apply preserves_bind
    | |- preserves _ (lift _) => apply preserves_lift
    | |- preserves _ get => apply preserves_get
    | |- preserves _ (leave _) => apply preserves_leave
    | |- preserves _ (return_ _) => apply preserves_leave
    | |- preserves _ (mret _) => apply preserves_ret
    | |- preserves _ (let '(_, _) := _ in _) => M_cases
    | |- preserves _ (match _ with _ => _ end) => M_cases
    | |- preserves _ _ => solve [eauto 3 with preserves nocore]
    end).

(** ** What the steps leave alone *)

(** The two conditions that are only settled once the deployment is there. *)
Definition isLate (c : APICondition) : bool :=
  match c with DeploymentReady | CronJobReady => true | _ => false end.
(** What identifies the object a reconcile works on. *)
Definition ident (i : KeystoneAPI) : string * string * KeystoneAPISpec :=
  (Name (ka_meta i), Namespace (ka_meta i), ka_spec i).

Section leaves.
Context `{CLaws : ConditionLaws} `{KLaws : ControllerLaws}.

Lemma status_setFalse c d r s m a i :
  status c (withCond (condSet (Some (FalseCondition (condName d) r s m a))) i)
  = if decide (c = d) then Some ConditionFalse else status c i.
Proof.
  unfold status, withCond. cbn [kas_Conditions kas_setConditions ka_status ka_setStatus].
  rewrite condSet_status, FalseCondition_type, FalseCondition_status.
  repeat case_decide; subst; try done. exfalso; eauto using condName_inj.
Qed.
Lemma status_markTrue c d m i :
  status c (withCond (condMarkTrue (condName d) m []) i) = if decide (c = d) then Some ConditionTrue else status c i.
Proof.
  unfold status, withCond. cbn [kas_Conditions kas_setConditions ka_status ka_setStatus]. rewrite condMarkTrue_status.
  repeat case_decide; subst; try done. exfalso; eauto using condName_inj.
Qed.

Lemma preserves_failIf {X} (f : KeystoneAPI -> X) err : preserves f (failIf err).
Proof. destruct err; [apply preserves_leave|apply preserves_ret]. Qed.

(** RBAC: honest answers only touch the RBAC conditions. *)
Lemma RbacConditionsSet_status c cd i :
  c_Type cd ∈ rbacConditions -> condName c ∉ rbacConditions -> status c (RbacConditionsSet cd i) = status c i.
Proof.
  intros Hcd Hc. unfold RbacConditionsSet. destruct (condStatus (c_Type cd) _); [|done].
  unfold status, withCond. cbn [kas_Conditions kas_setConditions ka_status ka_setStatus].
  rewrite condSet_status, decide_False; [done|]. intros Heq. by rewrite Heq in Hc.
Qed.
Lemma RbacConditionsSet_ident cd i : ident (RbacConditionsSet cd i) = ident i.
Proof. unfold RbacConditionsSet. by destruct (condStatus _ _). Qed.

Lemma rbac_foldl {X} (f : KeystoneAPI -> X) conds i :
  (forall cd i, c_Type cd ∈ rbacConditions -> f (RbacConditionsSet cd i) = f i) ->
  Forall (fun cd => c_Type cd ∈ rbacConditions) conds ->
  f (foldl (fun i c => RbacConditionsSet c i) i conds) = f i.
Proof.
  intros Hf. revert i; induction conds as [|cd conds IH]; intros i Hc; [done|]. apply Forall_cons in Hc as [H1 H2].
  cbn. rewrite IH by done. by apply Hf.
Qed.

Lemma preserves_reconcileRbac {X} (f : KeystoneAPI -> X) :
  (forall cd i, c_Type cd ∈ rbacConditions -> f (RbacConditionsSet cd i) = f i) -> preserves f reconcileRbac.
Proof.
  intros Hf i. unfold reconcileRbac. apply hwp_bind. intros _. cbn [fst snd app]. apply hwp_bind.
  intros [[conds result] err] Hh%Forall_inv. cbn [fst snd app] in *. apply hwp_bind. intros _. cbn [fst snd app].
  rewrite <- (rbac_foldl f conds i Hf Hh).
  destruct err; [by intros _|]. by case_decide; intros _.
Qed.
End leaves.

(** An observer: a function of the instance that only depends on its identity,
    its transport secret and the conditions outside [touch]. *)
Record observer `{ConditionLib} `{ControllerLib} (touch : APICondition -> bool) {X} (f : KeystoneAPI -> X) : Prop := {
  obs_setFalse d r s m a i :
    touch d = true -> f (withCond (condSet (Some (FalseCondition (condName d) r s m a))) i) = f i;
  obs_markTrue d m i : touch d = true -> f (withCond (condMarkTrue (condName d) m []) i) = f i;
  obs_setStatus g i : (forall s, kas_Conditions (g s) = kas_Conditions s) ->
    (forall s, kas_TransportURLSecret (g s) = kas_TransportURLSecret s) -> f (ka_setStatus (g (ka_status i)) i) = f i;
  obs_rbac cd i : touch ServiceAccountReady = true -> touch RoleReady = true -> touch RoleBindingReady = true ->
    c_Type cd ∈ rbacConditions -> f (RbacConditionsSet cd i) = f i
}.

Section observers.
Context `{CLaws : ConditionLaws} `{FL : FinalizerLib} `{XL : ExternalLib} `{PL : PodLib} `{KLaws : ControllerLaws}.

Lemma ident_observer : observer (fun _ => true) ident.
Proof. split; try done. intros. apply RbacConditionsSet_ident. Qed.
Lemma status_observer c : observer (fun d => negb (bool_decide (d = c))) (status c).
Proof.
  split.
  - intros d r s m a i Hd%negb_true_iff%bool_decide_eq_false_1. by rewrite status_setFalse, decide_False.
  - intros d m i Hd%negb_true_iff%bool_decide_eq_false_1. by rewrite status_markTrue, decide_False.
  - intros g i Hg _. unfold status. cbn [kas_Conditions ka_status ka_setStatus]. by rewrite Hg.
  - intros cd i Hs Hr Hb Hcd. apply RbacConditionsSet_status; [done|].
    intros (d & Hd%condName_inj & Hin)%list_elem_of_fmap. subst d.
    repeat apply elem_of_cons in Hin as [->|Hin]; by apply not_elem_of_nil in Hin || apply negb_true_iff, bool_decide_eq_false_1 in Hs
      || apply negb_true_iff, bool_decide_eq_false_1 in Hr || apply negb_true_iff, bool_decide_eq_false_1 in Hb.
Qed.

(** The transport secret that the pods in use were configured with. *)
Definition secretOf (i : KeystoneAPI) : string := kas_TransportURLSecret (ka_status i).
Lemma secretOf_observer : observer (fun _ => true) secretOf.
Proof.
  split; try done.
  - intros g i _ Hg. apply Hg.
  - intros cd i _ _ _ _. unfold RbacConditionsSet. by destruct (condStatus _ _).
Qed.

Section steps.
Context {X} (touch : APICondition -> bool) (f : KeystoneAPI -> X) (Hobs : observer touch f).

Lemma p_setFalse d r s m a : touch d = true -> preserves f (setFalse d r s m a).
Proof. intros Hd. apply preserves_modify. intros i. by eapply obs_setFalse. Qed.
Lemma p_markTrue d m : touch d = true -> preserves f (markTrue d m).
Proof. intros Hd. apply preserves_modify. intros i. by eapply obs_markTrue. Qed.
Lemma p_setStatus g :
  (forall s, kas_Conditions (g s) = kas_Conditions s) ->
  (forall s, kas_TransportURLSecret (g s) = kas_TransportURLSecret s) -> preserves f (setStatus g).
Proof. intros Hg Ht. apply preserves_modify. intros i. by eapply obs_setStatus. Qed.
Lemma p_failCond {A} d m e : touch d = true -> preserves f (@failCond _ _ A d m e).
Proof. intros Hd. apply preserves_bind; [by apply p_setFalse|intros _; apply preserves_leave]. Qed.
Lemma p_waitCond {A} d m r : touch d = true -> preserves f (@waitCond _ _ A d m r).
Proof. intros Hd. apply preserves_bind; [by apply p_setFalse|intros _; apply preserves_leave]. Qed.
Lemma p_warnCond {A} d m a r : touch d = true -> preserves f (@warnCond _ _ A d m a r).
Proof. intros Hd. apply preserves_bind; [by apply p_setFalse|intros _; apply preserves_leave]. Qed.
End steps.
End observers.

(** Conditions are kept by an update of another field of the status. *)
Ltac keeps_conditions := intro; repeat (cbn; match goal with |- context [match ?x with _ => _ end] => destruct x end);
    reflexivity.

(** [preserves_go] with an observer at hand. *)
Ltac observe Hobs :=
  preserves_go;
  lazymatch goal with
  | |- preserves _ (setFalse _ _ _ _ _) => eapply p_setFalse; [exact Hobs|]
  | |- preserves _ (markTrue _ _) => eapply p_markTrue; [exact Hobs|]
  | |- preserves _ (setStatus _) => try (eapply p_setStatus; [exact Hobs|keeps_conditions|keeps_conditions])
  | |- preserves _ (failCond _ _ _) => eapply p_failCond; [exact Hobs|]
  | |- preserves _ (waitCond _ _ _) => eapply p_waitCond; [exact Hobs|]
  | |- preserves _ (warnCond _ _ _ _) => eapply p_warnCond; [exact Hobs|]
  | |- preserves _ (failIf _) => apply preserves_failIf
  | |- _ => idtac
  end.

Section stages.
Context `{CLaws : ConditionLaws} `{FL : FinalizerLib} `{XL : ExternalLib} `{PL : PodLib} `{KLaws : ControllerLaws}.
Context {X} (touch : APICondition -> bool) (f : KeystoneAPI -> X) (Hobs : observer touch f).
Context (Htouch : forall d, isLate d = false -> touch d = true).
(** The steps that set the transport secret. *)
Definition blindToSecret : Prop := forall s i, f (ka_setStatus (kas_setTransportURLSecret s (ka_status i)) i) = f i.
Context (Hblind : blindToSecret).
Ltac stage := observe Hobs; try (apply Htouch; reflexivity).

Lemma verifySecret_preserves vars : preserves f (verifySecret vars).
Proof. unfold verifySecret. stage. Qed.
Lemma requireTLSInput_preserves vars : preserves f (requireTLSInput vars).
Proof. unfold requireTLSInput, verifyTLSInput. stage. Qed.
Lemma ensureDB_preserves : preserves f ensureDB.
Proof. unfold ensureDB. stage. Qed.
Lemma ensureTransport_preserves ls : preserves f (ensureTransport ls).
Proof.
  unfold ensureTransport. stage. apply preserves_modify. intros i. cbv beta.
  destruct (decide (kas_TransportURLSecret (ka_status i) = "")); [apply Hblind|by destruct i].
Qed.
Lemma ensureMemcached_preserves : preserves f ensureMemcached.
Proof. unfold ensureMemcached. stage. Qed.
Lemma configOr_preserves {A} (r : res A) : preserves f (configOr r).
Proof. unfold configOr. stage. Qed.
Lemma fernetStep_preserves fuel vars : preserves f (fernetStep fuel vars).
Proof. unfold fernetStep. stage. Qed.
Lemma validateCertSecrets_preserves vars : preserves f (validateCertSecrets vars).
Proof. unfold validateCertSecrets. stage. Qed.
Lemma createHashOfInputHashes_preserves vars : preserves f (createHashOfInputHashes vars).
Proof. unfold createHashOfInputHashes. stage. Qed.
Lemma getNADs_preserves l : preserves f (getNADs l).
Proof. induction l as [|n l IH]; cbn [getNADs]; stage. Qed.
Lemma networkAnnotations_preserves : preserves f networkAnnotations.
Proof. unfold networkAnnotations. stage. apply getNADs_preserves. Qed.
Lemma reconcileRbac_preserves : preserves f reconcileRbac.
Proof. apply preserves_reconcileRbac. intros. eapply obs_rbac; [exact Hobs|apply Htouch; reflexivity..|done]. Qed.
Lemma runJob_preserves c r e m h j : isLate c = false -> preserves f (runJob c r e m h j).
Proof. intros Hc. unfold runJob. stage; by apply Htouch. Qed.
Lemma exposeEndpoint_preserves ls ty : preserves f (exposeEndpoint ls ty).
Proof. unfold exposeEndpoint. stage. Qed.
Lemma exposeEndpoints_preserves ls types eps : preserves f (exposeEndpoints ls types eps).
Proof.
  revert eps; induction types as [|ty types IH]; intros eps; cbn [exposeEndpoints]; stage.
  apply exposeEndpoint_preserves.
Qed.
Lemma reconcileInit_preserves ls an mc : preserves f (reconcileInit ls an mc).
Proof.
  unfold reconcileInit, bootstrapStep. stage; [apply reconcileRbac_preserves|by apply runJob_preserves|apply exposeEndpoints_preserves
    |by apply runJob_preserves].
Qed.
Lemma prepare_preserves fuel : preserves f (prepare fuel).
Proof.
  unfold prepare. stage; eauto using verifySecret_preserves, ensureDB_preserves, ensureTransport_preserves,
    ensureMemcached_preserves, @configOr_preserves, fernetStep_preserves, requireTLSInput_preserves,
    validateCertSecrets_preserves, createHashOfInputHashes_preserves, networkAnnotations_preserves, reconcileInit_preserves;
    apply preserves_ret.
Qed.
End stages.

Section rollout_stages.
Context `{CLaws : ConditionLaws} `{FL : FinalizerLib} `{XL : ExternalLib} `{PL : PodLib} `{KLaws : ControllerLaws}.
Context {X} (touch : APICondition -> bool) (f : KeystoneAPI -> X) (Hobs : observer touch f).

Lemma topologyStep_preserves ls : touch TopologyReady = true -> preserves f (topologyStep ls).
Proof. intros Ht. unfold topologyStep. by observe Hobs. Qed.
Lemma deploymentStep_preserves p topo : touch DeploymentReady = true -> preserves f (deploymentStep p topo).
Proof. intros Ht. unfold deploymentStep. by observe Hobs. Qed.
Lemma networkStep_preserves ls : touch NetworkAttachmentsReady = true -> preserves f (networkStep ls).
Proof. intros Ht. unfold networkStep. by observe Hobs. Qed.
Lemma readyStep_preserves h d : touch DeploymentReady = true -> preserves f (readyStep h d).
Proof. intros Ht. unfold readyStep. by observe Hobs. Qed.
Lemma releaseUnusedAccounts_preserves : preserves f releaseUnusedAccounts.
Proof. unfold releaseUnusedAccounts. observe Hobs. Qed.
Lemma cronJobStep_preserves p : touch CronJobReady = true -> preserves f (cronJobStep p).
Proof. intros Ht. unfold cronJobStep. by observe Hobs. Qed.
Lemma rotateTransportSecret_preserves s : blindToSecret f -> preserves f (rotateTransportSecret s).
Proof.
  intros Hblind. unfold rotateTransportSecret. observe Hobs. apply preserves_modify; intros; apply Hblind.
Qed.
End rollout_stages.

(** *** The transport secret in the status *)

Section secret.
Context `{CLaws : ConditionLaws} `{FL : FinalizerLib} `{XL : ExternalLib} `{PL : PodLib} `{KLaws : ControllerLaws}.

(** A step that keeps the transport secret of the status once there is one. *)
Definition keepsSecret {A} (m : M A) : Prop :=
  forall i, secretOf i <> "" -> hwp m i (fun _ r => secretOf r.1 = secretOf i).
Lemma keepsSecret_bind {A B} (m : M A) (f : A -> M B) : keepsSecret m -> (forall a, keepsSecret (f a)) -> keepsSecret (m ≫= f).
Proof.
  intros Hm Hf i Hi. apply hwp_bind. eapply hwp_mono; [|by apply Hm]. intros t [i1 [e|a]] _ H1; [exact H1|]. cbn in *.
  eapply hwp_mono; [|apply Hf; by rewrite H1]. cbn in *. intros t2 r _ H2. congruence.
Qed.
Lemma preserves_keepsSecret {A} (m : M A) : preserves secretOf m -> keepsSecret m.
Proof. intros Hm i _. apply Hm. Qed.

Lemma ensureTransport_keepsSecret ls : keepsSecret (ensureTransport ls).
Proof.
  unfold ensureTransport. apply keepsSecret_bind; [apply preserves_keepsSecret, preserves_get|]. intros i0.
  apply keepsSecret_bind; [apply preserves_keepsSecret, preserves_lift|]. intros [tu [e|]];
    [eapply preserves_keepsSecret, p_failCond; [exact secretOf_observer|done]|]. cbv zeta.
  destruct (decide _); [eapply preserves_keepsSecret, p_waitCond; [exact secretOf_observer|done]|].
  apply keepsSecret_bind; [eapply preserves_keepsSecret, p_markTrue; [exact secretOf_observer|done]|]. intros [].
  apply keepsSecret_bind.
  { intros i Hi _. cbv beta. unfold secretOf in *. cbn [ka_status ka_setStatus fst]. by rewrite decide_False. }
  intros []. apply preserves_keepsSecret. observe secretOf_observer.
Qed.
Lemma prepare_keepsSecret fuel : keepsSecret (prepare fuel).
Proof.
  unfold prepare. pose proof secretOf_observer as Hobs.
  assert (forall d, isLate d = false -> true = true) as Ht by done.
  repeat (apply keepsSecret_bind; [first [apply ensureTransport_keepsSecret|apply preserves_keepsSecret]|intro; cbv zeta;
    repeat match goal with p : _ * _ |- _ => destruct p end]); try apply preserves_keepsSecret;
    observe Hobs; eauto using verifySecret_preserves, ensureDB_preserves,
    ensureMemcached_preserves, @configOr_preserves, fernetStep_preserves, requireTLSInput_preserves,
    validateCertSecrets_preserves, createHashOfInputHashes_preserves, networkAnnotations_preserves, reconcileInit_preserves;
    apply preserves_ret.
Qed.
End secret.

(** ** Walking a step for what it yields *)

Section yields_rules.
Context `{CL : ConditionLib} `{KL : ControllerLib}.

Lemma yields_get {B} (f : KeystoneAPI -> M B) i G : yields (f i) i G -> yields (get ≫= f) i G.
Proof. intros H. apply hwp_bind. intros _. exact H. Qed.
Lemma yields_call {X B} (c : Call X) (f : X -> M B) i G :
  (forall x, yields (f x) i (fun t b i2 => G (Ev c x :: t) b i2)) -> yields (lift (call c) ≫= f) i G.
Proof. intros H. apply hwp_bind. intros x _. exact (H x). Qed.
Lemma yields_modify {B} g (f : unit -> M B) i G : yields (f tt) (g i) G -> yields (modify g ≫= f) i G.
Proof. intros H. apply hwp_bind. intros _. exact H. Qed.
Lemma yields_modify_last g i (G : trace -> unit -> KeystoneAPI -> Prop) : G [] tt (g i) -> yields (modify g) i G.
Proof. intros H _ b [= <-]. exact H. Qed.
Lemma yields_ret_bind {A B} (a : A) (f : A -> M B) i G : yields (f a) i G -> yields (mret a ≫= f) i G.
Proof. intros H. apply hwp_bind. intros _. exact H. Qed.
Lemma yields_never {A B} (m : M A) (f : A -> M B) i G :
  (forall j F, yields m j F) -> yields (m ≫= f) i G.
Proof. intros H. apply (yields_bind _ _ _ (fun _ _ _ => False)); [apply H|done]. Qed.
Lemma yields_failCond {A} d m e i (G : trace -> A -> KeystoneAPI -> Prop) : yields (failCond d m e) i G.
Proof. apply yields_modify, yields_leave. Qed.
Lemma yields_waitCond {A} d m r i (G : trace -> A -> KeystoneAPI -> Prop) : yields (waitCond d m r) i G.
Proof. apply yields_modify, yields_leave. Qed.
Lemma yields_warnCond {A} d m a r i (G : trace -> A -> KeystoneAPI -> Prop) : yields (warnCond d m a r) i G.
Proof. apply yields_modify, yields_leave. Qed.
Lemma yields_failIf {B} err (f : unit -> M B) i G :
  (err = None -> yields (f tt) i G) -> yields (failIf err ≫= f) i G.
Proof. destruct err; intros H; [apply yields_never; intros; apply yields_leave|by apply yields_ret_bind, H]. Qed.
End yields_rules.

Ltac yields_step :=
  cbn beta iota;
  lazymatch goal with
  | |- yields (get ≫= _) _ _ => apply yields_get
  | |- yields (lift (call _) ≫= _) _ _ => apply yields_call; intro
  | |- yields (modify _ ≫= _) _ _ => apply yields_modify
  | |- yields (setFalse _ _ _ _ _ ≫= _) _ _ => apply yields_modify
  | |- yields (markTrue _ _ ≫= _) _ _ => apply yields_modify
  | |- yields (setStatus _ ≫= _) _ _ => apply yields_modify
  | |- yields (mret _ ≫= _) _ _ => apply yields_ret_bind
  | |- yields (failIf _ ≫= _) _ _ => apply yields_failIf; intros ->
  | |- yields (setStatus _) _ _ => apply yields_modify_last
  | |- yields (markTrue _ _) _ _ => apply yields_modify_last
  | |- yields (setFalse _ _ _ _ _) _ _ => apply yields_modify_last
  | |- yields (mret _) _ _ => apply yields_ret
  | |- yields (leave _) _ _ => apply yields_leave
  | |- yields (return_ _) _ _ => apply yields_leave
  | |- yields (failCond _ _ _) _ _ => apply yields_failCond
  | |- yields (waitCond _ _ _) _ _ => apply yields_waitCond
  | |- yields (warnCond _ _ _ _) _ _ => apply yields_warnCond
  | |- yields (match _ with _ => _ end) _ _ => M_cases
  | |- yields (match _ with _ => _ end ≫= _) _ _ => M_cases
  end.
Ltac yields_go := repeat yields_step.
(** Use the specification of the sub-step at the head. *)
Ltac yields_use lem := eapply yields_bind; [apply lem|cbv beta].

Ltac no_results :=
  repeat match goal with Hn : ~ (?r <> noResult) |- _ =>
    is_var r; assert (r = noResult) by (exact (dec_stable Hn)); subst r end.
(** A segment of a right-nested concatenation is included in it. *)
Ltac sub_segment :=
  let ev := fresh "ev" in let Hev := fresh "Hev" in
  intros ev Hev; repeat (apply elem_of_app; first [left; exact Hev|right]); exact Hev.
Ltac in_list := first [apply list_elem_of_here | apply list_elem_of_further; in_list].
