(* ===== verification/APIGuards.v ===== *)
(** Every reconcile of the KeystoneAPI controller comes back, and everything it
    reads it is woken for: the guards of the controller's steps against panics,
    loops that do not end and secrets whose change it would miss. *)
From S2P Require Import Prelude Effects GoTime Api Conditions Instances Workloads Calls External Demo Watches Fernet.
From S2P Require Import KeyRing Pods APIController APIJudgements.
Open Scope Z_scope.

(** ** The secrets a call reads *)

Definition secretsRead (X : Type) (c : Call X) : list (string * string) :=
  match c with
  | GetSecret ns n | LibGetSecret ns n | VerifySecretFields ns n _ _ | ValidateCACertSecret ns n => [(ns, n)]
  | ValidateCertSecrets tls ns =>
      (fun n => (ns, n)) <$> indexPointer (gs_SecretName (tls_Internal tls)) ++ indexPointer (gs_SecretName (tls_Public tls))
  | GetDataFromSecret n _ _ => [("", n)]
  | _ => []
  end.

(** ** The judgement *)

Section guards.
Context `{CLaws : ConditionLaws} `{FL : FinalizerLib} `{XL : ExternalLib} `{PL : PodLib} `{KLaws : ControllerLaws}.
(** The object reconciled, the secrets its TransportURL names, and whether
    panics and hangs are to be excluded. *)
Context (i0 : KeystoneAPI) (transports : list string) (total : bool) (fuel : nat).

Definition known (n : string) : Prop :=
  n = "" \/ n ∈ references i0 \/ n = fernetSecretName \/ n ∈ transports.
Definition readOK {X} (c : Call X) : Prop :=
  Forall (fun r => r.1 = ns i0 /\ known r.2) (secretsRead X c).

(** The environment: the TransportURL names one of [transports]; and, for
    [total], the key secret is a full repository whose size does not change
    while a rotation is due. *)
Definition served (t : trace) : Prop :=
  (forall owner o m tu err, Ev (CreateOrUpdateTransportURL owner o m) (tu, err) ∈ t -> tu_SecretName tu ∈ transports) /\
  (total = true -> forall now secret hash, Ev Now now ∈ t ->
     Ev (LibGetSecret (ns i0) fernetSecretName) (inr (secret, hash)) ∈ t -> fullRepository fuel i0 now secret).

Lemma served_sub t t' : t' ⊆ t -> served t -> served t'.
Proof.
  intros Ht [H1 H2]. split; [intros owner o m tu err Hin; by eapply H1, Ht|].
  intros Htot now secret hash Hn Hs. apply (H2 Htot now secret hash); by apply Ht.
Qed.
Lemma served_app t1 t2 : served (t1 ++ t2) -> served t1 /\ served t2.
Proof. intros HH. split; (eapply served_sub; [|exact HH]); sub_go. Qed.

Definition leavesWell {A} (Q : A -> Prop) (r : exit + A) : Prop :=
  match r with inl (Return _) => True | inl _ => total = false | inr a => Q a end.
Definition okEvents (t : trace) : Prop := Forall (fun ev => match ev with Ev c _ => readOK c end) t.

Definition gwp {A} (m : M A) (i : KeystoneAPI) (Q : A -> Prop) : Prop :=
  ident i = ident i0 ->
  wp (m i) (fun t r => served t -> okEvents t /\ ident r.1 = ident i0 /\ leavesWell Q r.2).

Lemma gwp_mono {A} (m : M A) i (Q1 Q2 : A -> Prop) : (forall a, Q1 a -> Q2 a) -> gwp m i Q1 -> gwp m i Q2.
Proof.
  intros HH Hm Hi. eapply wp_mono; [|exact (Hm Hi)]. cbv beta.
  intros t [j [[]|a]] Ht Hs; destruct (Ht Hs) as (? & ? & ?); simpl; auto.
Qed.

Lemma gwp_bind {A B} (m : M A) (f : A -> M B) i Q R :
  gwp m i R -> (forall a j, R a -> gwp (f a) j Q) -> gwp (m ≫= f) i Q.
Proof.
  intros Hm Hf Hi. unfold mbind at 1, M_bind. rewrite wp_bind. eapply wp_mono; [|exact (Hm Hi)]. cbv beta.
  intros t1 [j [e|a]] H1; cbn [fst snd] in *.
  - cbn [wp mret prog_ret]. rewrite app_nil_r. exact H1.
  - apply wp_runs. intros t2 r Hr Hs. apply served_app in Hs as [Hs1 Hs2]. destruct (H1 Hs1) as (Hok & Hj & Ha).
    specialize (Hf a j Ha Hj). rewrite wp_runs in Hf. destruct (Hf _ _ Hr Hs2) as (Hok2 & ? & ?).
    split_and!; [by apply Forall_app|done|done].
Qed.

Lemma gwp_ret {A} (a : A) i (Q : A -> Prop) : Q a -> gwp (mret a) i Q.
Proof. intros HQ Hi _. split_and!; [constructor|done|done]. Qed.
Lemma gwp_return {A} r i (Q : A -> Prop) : gwp (return_ r) i Q.
Proof. intros Hi _. split_and!; [constructor|done|done]. Qed.
Lemma gwp_leave {A} e i (Q : A -> Prop) : total = false -> gwp (leave e) i Q.
Proof. intros Ht Hi _. split_and!; [constructor|done|by destruct e]. Qed.
Lemma gwp_get {B} (f : KeystoneAPI -> M B) i Q : (ident i = ident i0 -> gwp (f i) i Q) -> gwp (get ≫= f) i Q.
Proof. intros HH Hi. exact (HH Hi Hi). Qed.
Lemma gwp_modify f i (Q : unit -> Prop) : ident (f i) = ident i -> Q tt -> gwp (modify f) i Q.
Proof. intros Hf HQ Hi _. split_and!; [constructor|simpl; congruence|done]. Qed.

(** A program of the outside, with what it answers. *)
Lemma gwp_lift {A} (p : program A) i (Q : A -> Prop) :
  emits (fun X c => readOK c) p -> wp p (fun t a => served t -> Q a) -> gwp (lift p) i Q.
Proof.
  intros He Hp Hi. unfold lift. rewrite wp_bind.
  eapply wp_mono; [|exact (wp_conj _ _ _ (wp_emits _ _ He) Hp)]. cbv beta. intros t a [Hok HQ]. wp_norm.
  rewrite app_nil_r. intros Hs. split_and!; [done|done|by apply HQ].
Qed.
Lemma gwp_lift_any {A} (p : program A) i : emits (fun X c => readOK c) p -> gwp (lift p) i (fun _ => True).
Proof. intros He. apply gwp_lift; [done|]. by apply wp_runs. Qed.
Lemma gwp_call {X} (c : Call X) i (Q : X -> Prop) :
  readOK c -> (forall x, served [Ev c x] -> Q x) -> gwp (lift (call c)) i Q.
Proof. intros Hc HQ. apply gwp_lift; [by split|]. exact HQ. Qed.

Lemma gwp_bind_any {A B} (m : M A) (f : A -> M B) i Q :
  gwp m i (fun _ => True) -> (forall a j, gwp (f a) j Q) -> gwp (m ≫= f) i Q.
Proof. intros Hm Hf. eapply gwp_bind; [exact Hm|]. intros a j _. apply Hf. Qed.
Lemma gwp_any {A} (m : M A) i (Q : A -> Prop) : gwp m i Q -> gwp m i (fun _ => True).
Proof. by apply gwp_mono. Qed.

Lemma gwp_setFalse c r s m a i (Q : unit -> Prop) : Q tt -> gwp (setFalse c r s m a) i Q.
Proof. by apply gwp_modify. Qed.
Lemma gwp_markTrue c m i (Q : unit -> Prop) : Q tt -> gwp (markTrue c m) i Q.
Proof. by apply gwp_modify. Qed.
Lemma gwp_setStatus f i (Q : unit -> Prop) : Q tt -> gwp (setStatus f) i Q.
Proof. by apply gwp_modify. Qed.
Lemma gwp_failCond {A} c m e i (Q : A -> Prop) : gwp (failCond c m e) i Q.
Proof. apply gwp_bind_any; [by apply gwp_setFalse|]. intros. apply gwp_return. Qed.
Lemma gwp_waitCond {A} c m r i (Q : A -> Prop) : gwp (waitCond c m r) i Q.
Proof. apply gwp_bind_any; [by apply gwp_setFalse|]. intros. apply gwp_return. Qed.
Lemma gwp_warnCond {A} c m a r i (Q : A -> Prop) : gwp (warnCond c m a r) i Q.
Proof. apply gwp_bind_any; [by apply gwp_setFalse|]. intros. apply gwp_return. Qed.
Lemma gwp_failIf err i (Q : unit -> Prop) : Q tt -> gwp (failIf err) i Q.
Proof. intros HQ. destruct err; [apply gwp_return|by apply gwp_ret]. Qed.
Lemma gwp_reconcileRbac i : gwp reconcileRbac i (fun _ => True).
Proof.
  unfold reconcileRbac. apply gwp_get. intros _. apply gwp_bind_any; [by apply gwp_call; [constructor|]|].
  intros [[conds result] err] j. apply gwp_bind_any.
  - apply gwp_modify; [|done]. clear. revert j; induction conds as [|c conds IH]; intros j; [done|].
    simpl. rewrite IH. apply RbacConditionsSet_ident.
  - intros _ k. destruct err; [apply gwp_return|]. case_decide; [apply gwp_return|by apply gwp_ret].
Qed.

(** ** The names the spec gives *)

Lemma core_ident i : ident i = ident i0 -> ns i = ns i0 /\ core i = core i0.
Proof. unfold ident, ns, core. by intros [= _ -> ->]. Qed.

Lemma known_string s : indexString s ⊆ references i0 -> known s.
Proof. unfold indexString, known. case_decide; [by left|]. intros HH. right. left. apply HH. left. Qed.
Lemma known_pointer p s : p = Some s -> indexPointer p ⊆ references i0 -> known s.
Proof. intros ->. unfold known. intros HH. right. left. apply HH. left. Qed.

Lemma reads_one {X} (c : Call X) n nm : secretsRead X c = [(n, nm)] -> n = ns i0 -> known nm -> readOK c.
Proof. intros Hc Hn Hk. unfold readOK. rewrite Hc. by apply Forall_singleton. Qed.

Lemma known_Secret i : ident i = ident i0 -> known (ka_Secret (core i)).
Proof. intros [_ ->]%core_ident. apply known_string. unfold references, core. sub_go. Qed.
Lemma known_CaBundle i : ident i = ident i0 -> known (tls_CaBundleSecretName (ka_TLS (core i))).
Proof. intros [_ ->]%core_ident. apply known_string. unfold references, core. sub_go. Qed.
Lemma known_Federation i : ident i = ident i0 -> known (ka_FederatedRealmConfig (core i)).
Proof. intros [_ ->]%core_ident. apply known_string. unfold references, core. sub_go. Qed.
Lemma known_Custom i name :
  ident i = ident i0 -> hc_CustomConfigSecret (ka_HttpdCustomization (core i)) = Some name -> known name.
Proof. intros [_ ->]%core_ident Hn. eapply known_pointer; [exact Hn|]. unfold references, core. sub_go. Qed.
Lemma known_fernet : known fernetSecretName.
Proof. right. right. by left. Qed.
Lemma known_transport n : n ∈ transports -> known n.
Proof. intros ?. right. right. by right. Qed.
Lemma ns_ident i : ident i = ident i0 -> ns i = ns i0.
Proof. by intros [? _]%core_ident. Qed.
Lemma reads_certs i : ident i = ident i0 -> readOK (ValidateCertSecrets (ka_TLS (core i)) (ns i)).
Proof.
  intros [-> ->]%core_ident. apply Forall_fmap, Forall_forall. intros n Hn. split; [done|]. right. left.
  apply elem_of_app in Hn as [Hn|Hn]; unfold references, core; rewrite !elem_of_app; tauto.
Qed.

(** ** The steps *)

Create HintDb guards.
#[local] Hint Resolve known_Secret known_CaBundle known_Federation known_Custom known_fernet known_transport ns_ident : guards.
#[local] Hint Constants Opaque : guards.

Ltac reads :=
  first [ by apply Forall_nil_2
        | by apply reads_certs
        | eapply reads_one; [reflexivity|solve [eauto 2 with guards nocore]|solve [eauto 2 with guards nocore]] ].
Ltac guard_step :=
  cbn beta iota;
  lazymatch goal with
  | |- gwp (get ≫= _) _ _ => apply gwp_get; intros ?
  | |- gwp (_ ≫= _) _ _ => apply gwp_bind_any; [|intros]
  | |- gwp (lift (call _)) _ _ => apply gwp_call; [reads|intros; exact I]
  | |- gwp (mret _) _ _ => apply gwp_ret; exact I
  | |- gwp (return_ _) _ _ => apply gwp_return
  | |- gwp (setFalse _ _ _ _ _) _ _ => apply gwp_setFalse; exact I
  | |- gwp (markTrue _ _) _ _ => apply gwp_markTrue; exact I
  | |- gwp (setStatus _) _ _ => apply gwp_setStatus; exact I
  | |- gwp (failCond _ _ _) _ _ => apply gwp_failCond
  | |- gwp (waitCond _ _ _) _ _ => apply gwp_waitCond
  | |- gwp (warnCond _ _ _ _) _ _ => apply gwp_warnCond
  | |- gwp (failIf _) _ _ => apply gwp_failIf; exact I
  | |- gwp (match _ with _ => _ end) _ _ => M_cases
  | |- gwp _ _ _ => solve [eauto 2 with guards nocore]
  end.
Ltac guard_go := repeat guard_step.

Abbreviation safe m := (forall i, gwp m i (fun _ => True)).

Lemma verifySecret_safe vars : safe (verifySecret vars).
Proof. intros i. unfold verifySecret. guard_go. Qed.
Lemma requireTLSInput_safe vars : safe (requireTLSInput vars).
Proof. intros i. unfold requireTLSInput, verifyTLSInput. guard_go. Qed.
Lemma ensureDB_safe : safe ensureDB.
Proof. intros i. unfold ensureDB. guard_go. Qed.
Lemma ensureMemcached_safe : safe ensureMemcached.
Proof. intros i. unfold ensureMemcached. guard_go. Qed.
Lemma configOr_safe {A} (r : res A) : safe (configOr r).
Proof. intros i. unfold configOr. guard_go. Qed.
Lemma validateCertSecrets_safe vars : safe (validateCertSecrets vars).
Proof. intros i. unfold validateCertSecrets. guard_go. Qed.
Lemma createHashOfInputHashes_safe vars : safe (createHashOfInputHashes vars).
Proof. intros i. unfold createHashOfInputHashes. guard_go. Qed.
Lemma getNADs_safe l : safe (getNADs l).
Proof. induction l as [|n l IH]; intros i; cbn [getNADs]; guard_go. Qed.
#[local] Hint Resolve getNADs_safe : guards.
Lemma networkAnnotations_safe : safe networkAnnotations.
Proof. intros i. unfold networkAnnotations. guard_go. Qed.
Lemma exposeEndpoint_safe ls ty : safe (exposeEndpoint ls ty).
Proof. intros i. unfold exposeEndpoint. guard_go. Qed.
#[local] Hint Resolve exposeEndpoint_safe : guards.
Lemma exposeEndpoints_safe ls types eps : safe (exposeEndpoints ls types eps).
Proof. revert eps; induction types as [|ty types IH]; intros eps i; cbn [exposeEndpoints]; guard_go. Qed.
#[local] Hint Resolve verifySecret_safe requireTLSInput_safe ensureDB_safe ensureMemcached_safe configOr_safe
  validateCertSecrets_safe createHashOfInputHashes_safe networkAnnotations_safe exposeEndpoints_safe gwp_reconcileRbac : guards.

(** The transport secret is one the TransportURL names. *)
Lemma ensureTransport_safe ls i : gwp (ensureTransport ls) i (fun s => s ∈ transports).
Proof.
  unfold ensureTransport. apply gwp_get. intros Hi.
  eapply (gwp_bind _ _ _ _ (fun r => tu_SecretName r.1 ∈ transports)).
  - apply gwp_call; [by apply Forall_nil_2|]. intros [tu err] [Ht _]. eapply Ht. apply list_elem_of_here.
  - intros [tu err] j Htu. simpl in Htu. destruct err; [apply gwp_failCond|].
    case_decide; [apply gwp_waitCond|]. do 4 (apply gwp_bind_any; [guard_go|intros]). by apply gwp_ret.
Qed.

Lemma generateServiceConfigMaps_reads i vars mc db s :
  ident i = ident i0 -> s ∈ transports -> emits (fun X c => readOK c) (generateServiceConfigMaps i vars mc db s).
Proof.
  intros Hi Hs. pose proof (known_transport s Hs) as Hk. pose proof (ns_ident i Hi) as Hns.
  unfold generateServiceConfigMaps, httpdOverride. emits_go.
  all: first [reads|by apply Forall_nil_2|eapply reads_one; [reflexivity|done|by eapply known_Custom]].
Qed.
Lemma federation_reads i vars :
  ident i = ident i0 -> emits (fun X c => readOK c) (ensureFederationRealmConfig i vars).
Proof.
  intros Hi. pose proof (known_Federation i Hi) as Hk. pose proof (ns_ident i Hi) as Hns.
  unfold ensureFederationRealmConfig. emits_go; first [reads|by eapply reads_one].
Qed.
Lemma cloudConfig_reads i : ident i = ident i0 -> emits (fun X c => readOK c) (reconcileCloudConfig i).
Proof.
  intros Hi. pose proof (known_Secret i Hi) as Hk. pose proof (ns_ident i Hi) as Hns.
  unfold reconcileCloudConfig. emits_go; first [reads|by eapply reads_one].
Qed.

(** What the spec of a deployed Keystone must have: what the code dereferences. *)
Definition deployable (i : KeystoneAPI) : Prop :=
  (exists n, ka_FernetMaxActiveKeys (core i) = Some n /\ 2 <= n) /\ is_Some (ka_Replicas (core i)) /\
  is_Some (extraVolumes (ka_ExtraMounts (core i)) KeystonePropagation).
Context (Hdeployable : total = true -> deployable i0).

Lemma safe_or_deployable : total = false \/ deployable i0.
Proof. destruct total; [right; by apply Hdeployable|by left]. Qed.

Lemma fernetStep_safe vars : safe (fernetStep fuel vars).
Proof.
  intros i. unfold fernetStep. apply gwp_get. intros Hi. pose proof (core_ident i Hi) as [Hns Hcore].
  eapply (gwp_bind _ _ _ _ (fun r => total = true -> r <> None)).
  - apply gwp_lift.
    + eapply emits_mono; [|apply ensureFernetKeys_emits]. intros X c Hc.
      destruct c; try done; first [by apply Forall_nil_2|destruct Hc as [-> ->]].
      eapply reads_one; [done|exact Hns|apply known_fernet].
    + destruct safe_or_deployable as [Ht|[(n & Hn & Hn2) _]]; [apply wp_runs; intros t a _ _; congruence|].
      assert (numberKeys i = n) as Hnum by (unfold numberKeys; change (ka_core (ka_spec i)) with (core i);
        by rewrite Hcore, Hn).
      eapply wp_mono; [|apply ensureFernetKeys_returns; lia]. cbv beta. intros t r Hr [_ Hs] Ht. apply Hr.
      intros now secret hash Hnow Hget. fold (ns i) in Hget. rewrite Hns in Hget.
      destruct (Hs Ht now secret hash Hnow Hget) as (M & HM & Hring & Hf & Hdue). exists M.
      unfold fullRepository, due, rotationDue, rotationDays, numberKeys in *. fold (core i) (core i0) in *. by rewrite Hcore.
  - intros [[vars' [e|]]|] j Hr; [apply gwp_failCond|by apply gwp_ret|]. apply gwp_leave.
    destruct total; [by destruct (Hr eq_refl)|done].
Qed.

Lemma runJob_safe c r e m hn j : (total = true -> j <> None) -> safe (runJob c r e m hn j).
Proof.
  intros Hj i. unfold runJob. destruct j as [j|]; [guard_go|]. apply gwp_leave.
  destruct total; [by destruct (Hj eq_refl)|done].
Qed.

(** The volumes every pod starts from. *)
Lemma getVolumes_safe i svc : ident i = ident i0 -> total = true -> getVolumes i [] svc <> None.
Proof.
  intros [_ Hcore]%core_ident Ht. destruct (Hdeployable Ht) as [(n & Hn & _) _].
  unfold getVolumes. fold (core i). by rewrite Hcore, Hn.
Qed.
Lemma DbSyncJob_safe i ls an : ident i = ident i0 -> total = true -> DbSyncJob i ls an <> None.
Proof.
  intros Hi Ht. pose proof (getVolumes_safe i DBSyncPropagation Hi Ht) as Hv. unfold DbSyncJob.
  by destruct (getVolumes i [] DBSyncPropagation).
Qed.
Lemma BootstrapJob_safe i ls an es m : ident i = ident i0 -> total = true -> BootstrapJob i ls an es m <> None.
Proof.
  intros Hi Ht. pose proof (getVolumes_safe i BootstrapPropagation Hi Ht) as Hv. unfold BootstrapJob.
  by destruct (getVolumes i [] BootstrapPropagation).
Qed.
Lemma CronJob_safe i ls an m : ident i = ident i0 -> total = true -> CronJob i ls an m <> None.
Proof.
  intros Hi Ht. pose proof (getVolumes_safe i KeystoneCronJobPropagation Hi Ht) as Hv. unfold CronJob.
  by destruct (getVolumes i [] KeystoneCronJobPropagation).
Qed.
Lemma Deployment_safe i hs ls an topo sel fs m keys :
  ident i = ident i0 -> total = true -> Deployment i hs ls an topo sel fs m keys <> None.
Proof.
  intros [_ Hcore]%core_ident Ht. destruct (Hdeployable Ht) as [(n & Hn & _) [_ [vs Hvs]]].
  unfold Deployment, deploymentVolumes, getVolumes. fold (core i). by rewrite Hcore, Hn, Hvs.
Qed.

Lemma reconcileInit_safe ls an mc : safe (reconcileInit ls an mc).
Proof.
  intros i. unfold reconcileInit, bootstrapStep.
  guard_go; apply runJob_safe; [by apply DbSyncJob_safe|by apply BootstrapJob_safe].
Qed.
#[local] Hint Resolve fernetStep_safe reconcileInit_safe : guards.

Lemma prepare_safe i : gwp (prepare fuel) i (fun _ => True).
Proof.
  unfold prepare, reconcileUpdate, reconcileUpgrade. apply gwp_get. intros _.
  do 3 (apply gwp_bind_any; [guard_go|intros]).
  eapply gwp_bind; [apply ensureTransport_safe|]. intros s i1 Hs.
  apply gwp_bind_any; [guard_go|intros mc i2]. apply gwp_get. intros Hi2.
  apply gwp_bind_any; [apply gwp_lift_any; by apply generateServiceConfigMaps_reads|intros cfg i3].
  guard_go. apply gwp_lift_any. by apply federation_reads.
Qed.

Lemma replicas_total i : ident i = ident i0 -> ka_Replicas (core i) = None -> total = false.
Proof.
  intros [_ Hcore]%core_ident Hr. destruct safe_or_deployable as [?|(_ & [n Hn] & _)]; [done|]. congruence.
Qed.

Lemma topologyStep_safe ls : safe (topologyStep ls).
Proof. intros i. unfold topologyStep. guard_go. Qed.
Lemma deploymentStep_safe p topo : safe (deploymentStep p topo).
Proof.
  intros i. unfold deploymentStep. apply gwp_get. intros Hi. destruct (Deployment _ _ _ _ _ _ _ _ _) as [[e|d]|] eqn:Hd.
  - guard_go.
  - guard_go.
  - apply gwp_leave, not_true_is_false. intros Ht. by eapply Deployment_safe.
Qed.
Lemma networkStep_safe ls : safe (networkStep ls).
Proof. intros i. unfold networkStep. guard_go. Qed.
Lemma readyStep_safe hs d : safe (readyStep hs d).
Proof.
  intros i. unfold readyStep. apply gwp_get. intros Hi. apply gwp_bind_any; [guard_go|].
  intros [e|[|]] j; [guard_go..|].
  destruct (ka_Replicas (core i)) as [n|] eqn:Hr; [guard_go|]. apply gwp_leave. by eapply replicas_total.
Qed.
Lemma releaseUnusedAccounts_safe : safe releaseUnusedAccounts.
Proof.
  intros i. unfold releaseUnusedAccounts. apply gwp_get. intros Hi.
  destruct (ka_Replicas (core i)) as [n|] eqn:Hr; [guard_go|]. apply gwp_leave. by eapply replicas_total.
Qed.
Lemma cronJobStep_safe p : safe (cronJobStep p).
Proof.
  intros i. unfold cronJobStep. apply gwp_get. intros Hi. destruct (CronJob _ _ _ _) as [c|] eqn:Hc; [guard_go|].
  apply gwp_leave, not_true_is_false. intros Ht. by eapply CronJob_safe.
Qed.
#[local] Hint Resolve topologyStep_safe deploymentStep_safe networkStep_safe readyStep_safe releaseUnusedAccounts_safe
  cronJobStep_safe prepare_safe : guards.

Lemma cloudConfig_safe i : ident i = ident i0 -> forall j, gwp (lift (reconcileCloudConfig i)) j (fun _ => True).
Proof. intros Hi j. apply gwp_lift_any. by apply cloudConfig_reads. Qed.
#[local] Hint Resolve cloudConfig_safe : guards.

Lemma rollout_safe p : safe (rollout p).
Proof. intros i. unfold rollout. guard_go. Qed.
Lemma rotateTransportSecret_safe s : safe (rotateTransportSecret s).
Proof. intros i. unfold rotateTransportSecret. guard_go. Qed.
#[local] Hint Resolve rollout_safe rotateTransportSecret_safe : guards.
Lemma reconcileNormal_safe : safe (reconcileNormal fuel).
Proof. intros i. unfold reconcileNormal. guard_go. Qed.

Lemma requireExternalURLs_safe : safe requireExternalURLs.
Proof. intros i. unfold requireExternalURLs. guard_go. Qed.
#[local] Hint Resolve requireExternalURLs_safe : guards.
Lemma reconcileExternal_safe : safe reconcileExternalKeystoneAPI.
Proof. intros i. unfold reconcileExternalKeystoneAPI. guard_go. Qed.

Lemma dropFinalizer_safe : safe dropFinalizer.
Proof. intros i. by apply gwp_modify. Qed.
#[local] Hint Resolve dropFinalizer_safe : guards.
Lemma releases_safe i :
  safe (releaseTopology i) /\ safe (releaseMemcached i) /\ safe (releaseDB i) /\ safe (releaseTransport i).
Proof. split_and!; intros j; unfold releaseTopology, releaseMemcached, releaseDB, releaseTransport; guard_go. Qed.
Lemma reconcileDelete_safe : safe reconcileDelete.
Proof.
  intros i. unfold reconcileDelete. apply gwp_get. intros _. destruct (releases_safe i) as (Ht & Hm & Hd & Hr). guard_go.
Qed.

Lemma reconcileBody_safe : safe (reconcileBody fuel).
Proof.
  intros i. unfold reconcileBody. apply gwp_get. intros _. cbv zeta.
  apply gwp_bind_any; [by apply gwp_modify|intros _ i1]. apply gwp_bind_any; [guard_go|intros _ i2].
  destruct (if notDeleting (ka_meta i) then _ else _) as [fs added].
  apply gwp_bind_any; [by apply gwp_modify|intros _ i3].
  repeat case_match; [guard_go|apply reconcileDelete_safe|apply reconcileExternal_safe|apply reconcileNormal_safe].
Qed.
End guards.

(** ** The reconcile as a whole *)

Section whole.
Context `{CLaws : ConditionLaws} `{FL : FinalizerLib} `{XL : ExternalLib} `{PL : PodLib} `{KLaws : ControllerLaws}.

(** The secrets the TransportURL names in a trace. *)
Definition transportNames (t : trace) : list string :=
  omap (fun ev =>
    match ev with
    | Ev c x =>
        match c in Call X return X -> option string with
        | CreateOrUpdateTransportURL _ _ _ => fun r => Some (tu_SecretName r.1)
        | _ => fun _ => None
        end x
    end) t.

Lemma transportNames_spec t owner o m tu err :
  Ev (CreateOrUpdateTransportURL owner o m) (tu, err) ∈ t -> tu_SecretName tu ∈ transportNames t.
Proof. intros Hin. apply list_elem_of_omap. by eexists. Qed.
Lemma transportNames_inv t n :
  n ∈ transportNames t -> exists owner o m tu err, Ev (CreateOrUpdateTransportURL owner o m) (tu, err) ∈ t /\ tu_SecretName tu = n.
Proof.
  intros ([X c x] & Hin & Hn)%list_elem_of_omap. destruct c; try discriminate.
  destruct x as [tu err]. injection Hn as <-. by eexists _, _, _, _, _.
Qed.

(** What the reconcile of [i] exchanges and how it ends. *)
Lemma Reconcile_safe total fuel namespace name i t out :
  (total = true -> deployable i) ->
  runs (Reconcile fuel namespace name) (Ev (GetKeystoneAPICR namespace name) (inr i) :: t) out ->
  served i (transportNames t) total fuel t ->
  okEvents i (transportNames t) t /\ ((exists r, out = inr r) \/ total = false).
Proof.
  intros Hdep (g & t0 & [= Hg <-] & Hr) Hs. apply Eqdep.EqdepTheory.inj_pair2 in Hg as <-. runs_norm Hr.
  destruct Hr as (h & t1 & -> & Hr). destruct h as [e|]; runs_norm Hr.
  { destruct Hr as [-> <-]. split; [|by left; eexists]. constructor; [by apply Forall_nil_2|constructor]. }
  apply runs_bind in Hr as (tb & tf & [j o] & -> & Hb & Hr). cbn beta iota in Hr.
  eapply runs_spec in Hb; [|apply (reconcileBody_safe i (transportNames (Ev NewHelper None :: tb ++ tf)) total fuel Hdep);
    done].
  cbv beta in Hb. destruct Hb as (Hok & _ & Hl); [eapply served_sub; [|exact Hs]; sub_go|]. cbn [fst snd] in Hl.
  destruct o as [[r| |]|r]; unfold finish in Hr; runs_norm Hr.
  1,4: destruct Hr as (err & t2 & -> & -> & <-); split; [|by left; eexists];
    constructor; [by apply Forall_nil_2|]; apply Forall_app; split; [exact Hok|]; repeat constructor; by apply Forall_nil_2.
  all: destruct Hr as [-> <-]; split; [|by right]; rewrite app_nil_r in *; constructor; [by apply Forall_nil_2|exact Hok].
Qed.

(** C4. Every reconcile comes back: when the spec has what the code dereferences
    (FernetMaxActiveKeys and Replicas, which the CRD defaults, and extra volumes
    that convert) and the key secret, if there is one, is a full repository
    whose size does not change while a rotation is due, then a reconcile ends
    in a result or an error, for every answer of the environment to every
    other call: it neither panics nor runs a loop forever. *)
Theorem Reconcile_returns fuel namespace name i t out :
  runs (Reconcile fuel namespace name) (Ev (GetKeystoneAPICR namespace name) (inr i) :: t) out ->
  deployable i ->
  (forall now secret hash, Ev Now now ∈ t ->
     Ev (LibGetSecret (ns i) fernetSecretName) (inr (secret, hash)) ∈ t -> fullRepository fuel i now secret) ->
  exists r, out = inr r.
Proof.
  intros Hr Hdep Hsec. eapply (Reconcile_safe true) in Hr as [_ [?|?]]; [done..|].
  split; [intros; by eapply transportNames_spec|by intros _].
Qed.

(** C10. No change goes unnoticed: every secret a reconcile reads by name is one
    whose change wakes the controller for this very object (the watch maps it
    to a request for it, whatever else the cache holds), or one of a resource
    the controller owns: the key secret it writes itself and the secret the
    TransportURL names. *)
Theorem Reconcile_reads_watched fuel namespace name i t out X (c : Call X) x space n :
  runs (Reconcile fuel namespace name) (Ev (GetKeystoneAPICR namespace name) (inr i) :: t) out ->
  Ev c x ∈ t -> (space, n) ∈ secretsRead X c -> n <> "" ->
  (forall cache tw requests, runs (findObjectsForSrc space n) tw requests -> servedBy cache tw -> i ∈ cache ->
     requestFor i ∈ requests) \/
  space = ns i /\
    (n = fernetSecretName \/
     exists owner o m tu err, Ev (CreateOrUpdateTransportURL owner o m) (tu, err) ∈ t /\ tu_SecretName tu = n).
Proof.
  intros Hr Hin Hread Hn. eapply (Reconcile_safe false) in Hr as [Hok _]; [|done|by split; [intros;
    by eapply transportNames_spec|]].
  unfold okEvents in Hok. rewrite Forall_forall in Hok. specialize (Hok _ Hin). unfold readOK in Hok.
  rewrite Forall_forall in Hok.
  destruct (Hok _ Hread) as [Hsp [?|[Href|[?|Htr]]]]; simpl in *; [done| |by right; split; [|left]|].
  - left. intros cache tw requests Hrun Hserved Hi. rewrite (findObjectsForSrc_spec cache _ _ _ _ Hrun Hserved).
    exists i. split_and!; [done|by rewrite Hsp|done|done].
  - right. split; [done|]. right. by apply transportNames_inv.
Qed.
End whole.

(** ** Witnesses *)

Lemma demoReconcile_head :
  demoReconcileTrace = Ev (GetKeystoneAPICR "openstack" "keystone") (inr demoHeldAPI) :: drop 1 demoReconcileTrace.
Proof. vm_compute. reflexivity. Qed.

Lemma demoReconcile_runs_head :
  runs (Reconcile 40 "openstack" "keystone")
    (Ev (GetKeystoneAPICR "openstack" "keystone") (inr demoHeldAPI) :: drop 1 demoReconcileTrace) (inr done_).
Proof.
  pose proof demoReconcile_runs as Hr. rewrite demoReconcile_head in Hr. unfold demoReconcile in Hr at 1. exact Hr.
Qed.
Lemma demoReconcile_answers X (c : Call X) x : Ev c x ∈ drop 1 demoReconcileTrace -> x = (apiHandler X c tt).1.
Proof.
  intros Hin. assert (Ev c x ∈ demoReconcileTrace) as Ht; [rewrite demoReconcile_head; by apply list_elem_of_further|].
  unfold demoReconcileTrace in Ht. exact (traceWith_answers _ _ _ _ _ Ht).
Qed.
Lemma demoReconcile_reads :
  Ev (VerifySecretFields "openstack" "osp-secret" ["AdminPassword"] (10 * second)) ("secret-hash", noResult, None)
    ∈ drop 1 demoReconcileTrace.
Proof. apply (list_elem_of_lookup_2 _ 1%nat). vm_compute. reflexivity. Qed.
Lemma demoHeldAPI_deployable : deployable demoHeldAPI.
Proof. split; [exists 5; split; [reflexivity|vm_compute; congruence]|]. split; eexists; vm_compute; reflexivity. Qed.
Lemma demoReconcile_ring now secret hash :
  Ev (LibGetSecret (ns demoHeldAPI) fernetSecretName) (inr (secret, hash)) ∈ drop 1 demoReconcileTrace ->
  fullRepository 40 demoHeldAPI now secret.
Proof.
  intros Hin%demoReconcile_answers. injection Hin as -> _.
  exists 5. split; [lia|]. split; [|split; [unfold enoughFuel; vm_compute; lia|intros _; reflexivity]].
  intros k. rewrite <- (demoKeys_ring 5 k). cbn [s_Data]. unfold demoKeySecret.
  rewrite !lookup_insert_ne by (intros [=]). done.
Qed.
Lemma demoReconcile_transport owner o m tu err :
  Ev (CreateOrUpdateTransportURL owner o m) (tu, err) ∈ drop 1 demoReconcileTrace -> tu_SecretName tu <> "osp-secret".
Proof. intros Hin%demoReconcile_answers. injection Hin as -> _. discriminate. Qed.

Lemma Reconcile_returns_witness : exists r : ret, inr (A := exit) done_ = inr r.
Proof.
  apply (Reconcile_returns 40 "openstack" "keystone" demoHeldAPI (drop 1 demoReconcileTrace)).
  - exact demoReconcile_runs_head.
  - exact demoHeldAPI_deployable.
  - intros now secret hash _ Hin. exact (demoReconcile_ring now secret hash Hin).
Defined.

Lemma Reconcile_reads_watched_witness :
  requestFor demoHeldAPI ∈ resultWith (cacheHandler [demoHeldAPI]) (findObjectsForSrc "openstack" "osp-secret").
Proof.
  destruct (Reconcile_reads_watched 40 "openstack" "keystone" demoHeldAPI (drop 1 demoReconcileTrace) (inr done_) _
    (VerifySecretFields "openstack" "osp-secret" ["AdminPassword"] (10 * second)) ("secret-hash", noResult, None)
    "openstack" "osp-secret" demoReconcile_runs_head demoReconcile_reads) as [Hw|[_ [Hf|(owner & o & m & tu & err & Htu & Hn)]]].
  - left.
  - discriminate.
  - refine (Hw [demoHeldAPI] _ _ (runsWith (cacheHandler [demoHeldAPI]) (findObjectsForSrc "openstack" "osp-secret")) _ _).
    + apply cacheHandler_serves.
    + left.
  - discriminate.
  - destruct (demoReconcile_transport _ _ _ _ _ Htu Hn).
Defined.
