(* ===== verification/APIInputs.v ===== *)
(** The hash of the inputs: which hashes the preparation of the KeystoneAPI
    controller collects in the environment of the pods, in which order, and
    that the hash it computes is the hash of exactly these. *)
From S2P Require Import Prelude Effects GoTime Api Conditions Instances Workloads Calls External Demo Fernet Pods.
From S2P Require Import APIController APIJudgements.
Open Scope Z_scope.

(** Assignments to the environment map, in their order. *)
Definition writes (vars : gmap string string) (entries : list (string * string)) : gmap string string :=
  foldl (fun m e => <[e.1 := e.2]> m) vars entries.
Lemma writes_app vars es es' : writes vars (es ++ es') = writes (writes vars es) es'.
Proof. apply foldl_app. Qed.

Section inputs.
Context `{CLaws : ConditionLaws} `{FLaws : FinalizerLaws} `{XL : ExternalLib} `{PL : PodLib} `{KLaws : ControllerLaws}.
Implicit Types (i : KeystoneAPI) (t : trace) (e : list (string * string)).

(** What each input contributes, given what was exchanged: the password secret,
    the configuration secret, the key secret in the reconcile that creates it,
    the federation secret of the user and the one made of it, the CA bundle,
    and the certificates. *)
Definition secretEntry i t e : Prop :=
  exists h, Ev (VerifySecretFields (ns i) (ka_Secret (core i)) ["AdminPassword"] (10 * second)) (h, noResult, None) ∈ t /\
    e = [(ka_Secret (core i), h)].
Definition configEntry (tmpl : Template) t e : Prop :=
  exists h, Ev (EnsureTemplate tmpl) (inr h) ∈ t /\ e = [(tm_Name tmpl, h)].
Definition keysEntry i t e : Prop :=
  (exists s, Ev (LibGetSecret (ns i) fernetSecretName) (inr s) ∈ t) /\ e = [] \/
  exists data labels annotations h,
    Ev (EnsureSecret (ns i) fernetSecretName data labels annotations) (inr h) ∈ t /\ e = [(fernetSecretName, h)].
Definition realmEntries i t e : Prop :=
  let realm := ka_FederatedRealmConfig (core i) in
  realm = "" /\ e = [] \/
  exists s h data labels h', Ev (LibGetSecret (ns i) realm) (inr (s, h)) ∈ t /\
    Ev (EnsureSecret (ns i) FederationMultiRealmSecret data labels ∅) (inr h') ∈ t /\
    e = [(realm, h); (FederationMultiRealmSecret, h')].
Definition bundleEntry i t e : Prop :=
  let bundle := tls_CaBundleSecretName (ka_TLS (core i)) in
  bundle = "" /\ e = [] \/
  exists h, Ev (ValidateCACertSecret (ns i) bundle) (inr h) ∈ t /\ e = (if decide (h = "") then [] else [(CABundleKey, h)]).
Definition certsEntry i t e : Prop :=
  exists h, Ev (ValidateCertSecrets (ka_TLS (core i)) (ns i)) (inr h) ∈ t /\ e = [(const "TLSHashName", h)].

(** [hash] is the hash of all inputs, of the configuration [tmpl] among them. *)
Definition inputsHashed i (tmpl : Template) (hash : string) t : Prop :=
  exists e1 e2 e3 e4 e5 e6, secretEntry i t e1 /\ configEntry tmpl t e2 /\ keysEntry i t e3 /\ realmEntries i t e4 /\
    bundleEntry i t e5 /\ certsEntry i t e6 /\
    ObjectHashEnv (MergeEnvs [] (writes ∅ (e1 ++ e2 ++ e3 ++ e4 ++ e5 ++ e6))) = inr hash.

(** *** They only grow, and only depend on the identity of the instance. *)

Ltac grow Hs := repeat match goal with Hev : _ ∈ _ |- _ => apply Hs in Hev end; eauto 12.
Lemma secretEntry_sub i t t' e : t ⊆ t' -> secretEntry i t e -> secretEntry i t' e.
Proof. intros Hs (h & ? & ?). exists h. grow Hs. Qed.
Lemma configEntry_sub tmpl t t' e : t ⊆ t' -> configEntry tmpl t e -> configEntry tmpl t' e.
Proof. intros Hs (h & ? & ?). exists h. grow Hs. Qed.
Lemma keysEntry_sub i t t' e : t ⊆ t' -> keysEntry i t e -> keysEntry i t' e.
Proof. intros Hs [[[s ?] ?]|(d & l & a & h & ? & ?)]; [left|right; exists d, l, a, h]; grow Hs. Qed.
Lemma realmEntries_sub i t t' e : t ⊆ t' -> realmEntries i t e -> realmEntries i t' e.
Proof. intros Hs [?|(s & h & d & l & h' & ? & ? & ?)]; [by left|right; exists s, h, d, l, h']; grow Hs. Qed.
Lemma bundleEntry_sub i t t' e : t ⊆ t' -> bundleEntry i t e -> bundleEntry i t' e.
Proof. intros Hs [?|(h & ? & ?)]; [by left|right; exists h]; grow Hs. Qed.
Lemma certsEntry_sub i t t' e : t ⊆ t' -> certsEntry i t e -> certsEntry i t' e.
Proof. intros Hs (h & ? & ?). exists h. grow Hs. Qed.
Lemma inputsHashed_sub i tmpl h t t' : t ⊆ t' -> inputsHashed i tmpl h t -> inputsHashed i tmpl h t'.
Proof.
  intros Hs (e1 & e2 & e3 & e4 & e5 & e6 & F1 & F2 & F3 & F4 & F5 & F6 & F7). exists e1, e2, e3, e4, e5, e6.
  split_and!; eauto using secretEntry_sub, configEntry_sub, keysEntry_sub, realmEntries_sub, bundleEntry_sub, certsEntry_sub.
Qed.

Lemma ident_eq i j : ident i = ident j -> transportURLName i = transportURLName j /\ ns i = ns j /\ core i = core j.
Proof. unfold ident, transportURLName, ns, core. intros [= -> -> ->]. done. Qed.

Lemma lift_yields {A} (p : program A) i (F : trace -> A -> Prop) :
  wp p F -> yields (lift p) i (fun t a i1 => i1 = i /\ F t a).
Proof.
  intros Hwp. unfold yields, hwp, lift. rewrite wp_bind. eapply wp_mono; [|exact Hwp].
  intros t a HF. cbn. intros _ b [= <-]. by rewrite app_nil_r.
Qed.
Lemma lift_any_yields {A} (p : program A) i : yields (lift p) i (fun _ _ i1 => i1 = i).
Proof. eapply yields_mono; [|apply (lift_yields p i (fun _ _ => True)); by apply wp_runs]. intros t a i1 H'. apply H'. Qed.

Lemma configOr_yields {A} (r : res A) i : yields (configOr r) i (fun t a i1 => t = [] /\ i1 = i /\ r = inr a).
Proof. unfold configOr. yields_go. done. Qed.

Lemma entries_ident i j : ident i = ident j ->
  secretEntry i = secretEntry j /\ keysEntry i = keysEntry j /\ realmEntries i = realmEntries j /\
  bundleEntry i = bundleEntry j /\ certsEntry i = certsEntry j.
Proof.
  intros (_ & En & Ec)%ident_eq. unfold secretEntry, keysEntry, realmEntries, bundleEntry, certsEntry.
  by rewrite En, Ec.
Qed.
Lemma inputsHashed_ident i j tmpl h t : ident i = ident j -> inputsHashed i tmpl h t -> inputsHashed j tmpl h t.
Proof. intros (E1 & E2 & E3 & E4 & E5)%entries_ident. unfold inputsHashed. by rewrite E1, E2, E3, E4, E5. Qed.

(** *** The steps *)

Lemma verifySecret_writes vars i :
  yields (verifySecret vars) i (fun t vars' i1 => ident i1 = ident i /\
    exists e, secretEntry i t e /\ vars' = writes vars e).
Proof.
  unfold verifySecret. yields_go. no_results. split; [done|]. eexists.
  split; [eexists; split; [in_list|done]|done].
Qed.

Lemma createFernetSecret_writes i now vars :
  wp (createFernetSecret i now vars) (fun t r => forall vars', r = (vars', None) ->
    exists e, keysEntry i t e /\ vars' = writes vars e).
Proof.
  unfold createFernetSecret. rewrite wp_bind. apply wp_runs. intros t1 [e|c0] _; wp_norm; [done|].
  rewrite wp_bind. apply wp_runs. intros t2 [e|c1] _; wp_norm; [done|].
  rewrite wp_bind. apply wp_runs. intros t3 [e|ks] _; wp_norm; [done|].
  intros [e|h]; wp_norm; [done|]. intros vars' [= <-]. eexists.
  split; [right; eexists _, _, _, h; split; [repeat (apply elem_of_app; right); left|done]|done].
Qed.

Lemma ensureFernetKeys_writes fuel i vars :
  wp (ensureFernetKeys fuel i vars) (fun t r => forall vars', r = Some (vars', None) ->
    exists e, keysEntry i t e /\ vars' = writes vars e).
Proof.
  unfold ensureFernetKeys. wp_norm. intros now. intros [e|[secret h]]; wp_norm.
  - destruct (IsNotFound e); wp_norm; [|done]. rewrite wp_bind.
    eapply wp_mono; [|apply createFernetSecret_writes]. intros t1 [vars1 err] Hc. wp_norm.
    intros vars' [= -> ->]. destruct (Hc _ eq_refl) as (es & Hk & ->). exists es. split; [|done].
    eapply keysEntry_sub; [|exact Hk]. set_solver.
  - rewrite wp_bind. apply wp_runs. intros t1 u _.
    assert (forall t', Ev (LibGetSecret (ns i) fernetSecretName) (inr (secret, h)) ∈ t' -> keysEntry i t' []) as Hk.
    { intros t' ?. left. eauto. }
    destruct u as [[e|[data changed]]|]; wp_norm; [done| |done].
    destruct changed; cbn [negb]; wp_norm.
    + intros err. wp_norm. intros vars' [= -> ->]. exists []. split; [apply Hk; set_solver|done].
    + intros vars' [= ->]. exists []. split; [apply Hk; set_solver|done].
Qed.

Lemma fernetStep_writes fuel vars i :
  yields (fernetStep fuel vars) i (fun t vars' i1 => i1 = i /\ exists e, keysEntry i t e /\ vars' = writes vars e).
Proof.
  unfold fernetStep. apply yields_get. eapply yields_bind; [apply lift_yields, ensureFernetKeys_writes|].
  intros t1 [[vars' [err|]]|] i1 [-> Hk]; cbn beta iota; [apply yields_failCond| |apply yields_leave].
  apply yields_ret. split; [done|]. rewrite app_nil_r. by apply Hk.
Qed.

Lemma federation_writes i vars :
  wp (ensureFederationRealmConfig i vars) (fun t r => forall files, r.2 = inr files ->
    exists e, realmEntries i t e /\ r.1 = writes vars e).
Proof.
  unfold ensureFederationRealmConfig. case_decide as Hr; wp_norm.
  { intros files _. exists []. split; [by left|done]. }
  intros [e|[s h]]; wp_norm; [done|]. destruct (s_Data s !! FederationConfigKey) as [json|]; wp_norm; [|done].
  destruct (JsonUnmarshalMap json) as [e|raw]; wp_norm; [done|].
  destruct (JsonMarshalStrings _) as [e|names]; wp_norm; [done|]. intros [e|h']; wp_norm; [done|].
  intros files _. exists [(ka_FederatedRealmConfig (core i), h); (FederationMultiRealmSecret, h')].
  split; [|reflexivity]. right. eexists s, h, _, _, h'. split_and!; [left|right; left|reflexivity].
Qed.

Lemma verifyTLSInput_writes vars i :
  yields (verifyTLSInput vars) i (fun t r i1 => ident i1 = ident i /\
    forall vars', r = inr vars' -> exists e, bundleEntry i t e /\ vars' = writes vars e).
Proof.
  unfold verifyTLSInput. yields_go; (split; [done|]); intros vars' Heq; try discriminate; injection Heq as <-.
  - exists []. split; [by left|done].
  - exists (if decide (s = "") then [] else [(CABundleKey, s)]).
    split; [right; exists s; split; [left|done]|destruct (decide (s = "")); reflexivity].
Qed.
Lemma requireTLSInput_writes vars i :
  yields (requireTLSInput vars) i (fun t vars' i1 => ident i1 = ident i /\
    exists e, bundleEntry i t e /\ vars' = writes vars e).
Proof.
  unfold requireTLSInput. yields_use verifyTLSInput_writes. intros t1 [err|vars1] i1 [E F]; cbn beta iota;
    [apply yields_leave|].
  apply yields_ret. rewrite app_nil_r. split; [done|by apply F].
Qed.

Lemma validateCertSecrets_writes vars i :
  yields (validateCertSecrets vars) i (fun t vars' i1 => ident i1 = ident i /\
    exists e, certsEntry i t e /\ vars' = writes vars e).
Proof.
  unfold validateCertSecrets. yields_go. split; [done|]. eexists. split; [eexists; split; [in_list|done]|done].
Qed.

Lemma createHash_hashes vars i :
  yields (createHashOfInputHashes vars) i (fun t hash i1 => ident i1 = ident i /\
    ObjectHashEnv (MergeEnvs [] vars) = inr hash).
Proof. unfold createHashOfInputHashes. yields_go; done. Qed.
End inputs.
