(* ===== verification/APITheorems.v ===== *)
(** What the KeystoneAPI controller guarantees: readiness is truthful, nothing is
    deployed before its inputs, a superseded transport secret is kept until the
    roll-out that no longer needs it, deletion waits for the consumers, and an
    external Keystone is never deployed. *)
From S2P Require Import Prelude Effects GoTime Api Conditions Instances Workloads Calls External Demo Fernet Pods.
From S2P Require Import Webhook APIController APIJudgements APIInputs.
Open Scope Z_scope.

(** ** What the preparation has established when it goes on *)

Section facts.
Context `{CLaws : ConditionLaws} `{FLaws : FinalizerLaws} `{XL : ExternalLib} `{PL : PodLib} `{KLaws : ControllerLaws}.
Implicit Types (i : KeystoneAPI) (t : trace).

Definition secretVerified i t : Prop :=
  exists h, Ev (VerifySecretFields (ns i) (ka_Secret (core i)) ["AdminPassword"] (10 * second)) (h, noResult, None) ∈ t.
Definition databaseReady i t : Prop :=
  exists db0 db,
    Ev (CreateOrPatchAll (NewDatabaseForAccount (ka_DatabaseInstance (core i)) DatabaseName DatabaseCRName
                            (ka_DatabaseAccount (core i)) (ns i))) (db0, noResult, None) ∈ t /\
    Ev (WaitForDBCreated db0) (db, noResult, None) ∈ t.
(** The transport URL has the secret [s], which cannot go away any more. *)
Definition transportHeld i (s : string) t : Prop :=
  s <> "" /\ Ev (ManageSecretConsumerFinalizer (ns i) s TransportConsumerFinalizer) None ∈ t /\
  exists owner o m tu, Ev (CreateOrUpdateTransportURL owner o m) (tu, None) ∈ t /\ tu_Name o = transportURLName i /\
    tu_SecretName tu = s.
Definition memcachedHeld i t : Prop :=
  exists mc, Ev (GetMemcachedByName (ns i) (ka_MemcachedInstance (core i))) (inr mc) ∈ t /\ mc_IsReady mc = true /\
    (apiFinalizer ∈ Finalizers (mc_meta mc) \/
     exists mc', Ev (UpdateMemcached mc') None ∈ t /\ apiFinalizer ∈ Finalizers (mc_meta mc')).
(** The configuration secret [tmpl] carries the transport URL of the secret [s],
    and holds the override files with the given keys. *)
Definition configWritten i (s : string) (keys : list string) (tmpl : Template) t : Prop :=
  exists sec h hash, Ev (LibGetSecret (ns i) s) (inr (sec, h)) ∈ t /\ Ev (EnsureTemplate tmpl) (inr hash) ∈ t /\
    tp_Values (tm_ConfigOptions tmpl) !! "TransportURL" = Some (TString (default "" (s_Data sec !! "transport_url"))) /\
    keys = sortedKeys (tm_StringTemplate tmpl).
Definition jobDone (hashName : string) t : Prop :=
  exists j preserve timeout before changed hash,
    Ev (DoJob j hashName preserve timeout before) (changed, hash, noResult, None) ∈ t.

(** The configuration is written, and the input hash is the hash of it and of
    all other inputs. *)
Definition configured i (p : Prepared) t : Prop :=
  exists tmpl, configWritten i (pr_TransportSecret p) (pr_CustomConfigKeys p) tmpl t /\ inputsHashed i tmpl (pr_InputHash p) t.

(** All of the above. *)
Definition prepared i (p : Prepared) t : Prop :=
  secretVerified i t /\ databaseReady i t /\ transportHeld i (pr_TransportSecret p) t /\ memcachedHeld i t /\
  configured i p t /\ jobDone DbSyncHash t /\ jobDone BootstrapHash t.

Lemma secretVerified_sub i t t' : t ⊆ t' -> secretVerified i t -> secretVerified i t'.
Proof. intros Hs [h ?]. exists h. by apply Hs. Qed.
Lemma databaseReady_sub i t t' : t ⊆ t' -> databaseReady i t -> databaseReady i t'.
Proof. intros Hs (d0 & d & ? & ?). exists d0, d. split; by apply Hs. Qed.
Lemma transportHeld_sub i s t t' : t ⊆ t' -> transportHeld i s t -> transportHeld i s t'.
Proof.
  intros Hs (Hne & Hm & ow & o & m & tu & ? & ? & ?). split_and!; [done|by apply Hs|]. exists ow, o, m, tu.
  split; [by apply Hs|done].
Qed.
Lemma memcachedHeld_sub i t t' : t ⊆ t' -> memcachedHeld i t -> memcachedHeld i t'.
Proof.
  intros Hs (mc & ? & ? & Hf). exists mc. split_and!; [by apply Hs|done|].
  destruct Hf as [?|(mc' & ? & ?)]; [by left|right]. exists mc'. split; [by apply Hs|done].
Qed.
Lemma configWritten_sub i s ks tm t t' : t ⊆ t' -> configWritten i s ks tm t -> configWritten i s ks tm t'.
Proof. intros Hs (sec & h & hs & ? & ? & ? & ?). exists sec, h, hs. split_and!; [by apply Hs|by apply Hs|done|done]. Qed.
Lemma configured_sub i p t t' : t ⊆ t' -> configured i p t -> configured i p t'.
Proof.
  intros Hs (tm & F1 & F2). exists tm. split; [by eapply configWritten_sub|by eapply inputsHashed_sub].
Qed.
Lemma jobDone_sub h t t' : t ⊆ t' -> jobDone h t -> jobDone h t'.
Proof. intros Hs (j & a & b & c & d & e & ?). exists j, a, b, c, d, e. by apply Hs. Qed.
Lemma prepared_sub i p t t' : t ⊆ t' -> prepared i p t -> prepared i p t'.
Proof.
  intros Hs (F1 & F2 & F3 & F4 & F5 & F6 & F7).
  split_and!; eauto using secretVerified_sub, databaseReady_sub, transportHeld_sub, memcachedHeld_sub, configured_sub, jobDone_sub.
Qed.

Lemma secretEntry_verified i t e : secretEntry i t e -> secretVerified i t.
Proof. intros (h & ? & _). by exists h. Qed.

Lemma ensureDB_yields i :
  yields ensureDB i (fun t _ i1 => ident i1 = ident i /\ databaseReady i t).
Proof.
  unfold ensureDB. yields_go. no_results. split; [done|]. eexists _, _. split; in_list.
Qed.

Lemma ensureTransport_yields ls i :
  yields (ensureTransport ls) i (fun t s i1 => ident i1 = ident i /\ transportHeld i s t).
Proof.
  unfold ensureTransport, transportURLCreateOrUpdate. yields_go. split; [done|]. unfold transportHeld.
  split_and!; [done|in_list|].
  eexists _, _, _, _. split; [in_list|done].
Qed.

Lemma ensureMemcached_yields i :
  yields ensureMemcached i (fun t _ i1 => ident i1 = ident i /\ memcachedHeld i t).
Proof.
  unfold ensureMemcached. apply yields_get, yields_call. intros [e|mc]; cbn beta iota; [yields_go|].
  pose proof (AddFinalizer_elem apiFinalizer (Finalizers (mc_meta mc)) apiFinalizer) as Hel.
  pose proof (AddFinalizer_flag apiFinalizer (Finalizers (mc_meta mc))) as Hfl.
  pose proof (AddFinalizer_same apiFinalizer (Finalizers (mc_meta mc))) as Hsame.
  destruct (AddFinalizer _ _) as [fs added]. cbn [fst snd] in *.
  eapply (yields_bind _ _ _ (fun t err i1 => i1 = i /\
    (t = [] /\ added = false \/ t = [Ev (UpdateMemcached (mc_setFinalizers fs mc)) err]))).
  - destruct added; [|apply yields_ret; auto]. intros x _ err [= <-]. auto.
  - intros t1 [e|] i1 [-> Ht1]; [yields_go|].
    destruct (mc_IsReady (mc_setFinalizers fs mc)) eqn:Hrd; cbn [negb]; [|yields_go].
    apply yields_modify, yields_ret. split; [done|]. exists mc. split_and!; [in_list|done|].
    destruct Ht1 as [[-> ->]| ->].
    + left. symmetry in Hfl. by apply negb_false_iff, bool_decide_eq_true_1 in Hfl.
    + right. eexists. split; [in_list|]. cbn. apply Hel. by left.
Qed.

Lemma runJob_yields c r e m hashName j i :
  yields (runJob c r e m hashName j) i (fun t _ i1 => ident i1 = ident i /\ jobDone hashName t).
Proof.
  unfold runJob. destruct j as [j|]; [|apply yields_leave]. yields_go; no_results;
    (split; [done|]; eexists _, _, _, _, _, _; in_list).
Qed.

Lemma templateValues_TransportURL i mc db sec :
  templateValues i mc db sec !! "TransportURL" = Some (TString (default "" (s_Data sec !! "transport_url"))).
Proof.
  unfold templateValues. rewrite !lookup_insert_ne by done.
  case_decide; rewrite !lookup_insert_ne by done; by rewrite lookup_insert_eq.
Qed.

Lemma generateServiceConfigMaps_writes i vars mc db secret :
  wp (generateServiceConfigMaps i vars mc db secret) (fun t r =>
    forall keys vars', r = inr (keys, vars') ->
      exists tmpl e, configWritten i secret keys tmpl t /\ configEntry tmpl t e /\ vars' = writes vars e).
Proof.
  unfold generateServiceConfigMaps. wp_norm. intros [e|[sec h]]; wp_norm; [done|].
  rewrite wp_bind. apply wp_runs. intros t1 [e|override] _; wp_norm; [done|].
  destruct (configTemplate i mc db sec override) as [e|tmpl] eqn:Htmpl; wp_norm; [done|].
  intros [e|hash]; wp_norm; [done|]. intros keys vars' [= <- <-]. exists tmpl, [(tm_Name tmpl, hash)].
  split; [|split; [exists hash; split; [rewrite elem_of_cons, elem_of_app, list_elem_of_singleton; auto|done]|done]].
  exists sec, h, hash.
  unfold configTemplate in Htmpl. destruct (YamlParameters _) as [e|y]; [done|]. injection Htmpl as <-.
  split_and!; [left|rewrite elem_of_cons, elem_of_app, list_elem_of_singleton; auto|apply templateValues_TransportURL|done].
Qed.

Lemma preserves_yields {X A} (f : KeystoneAPI -> X) (m : M A) i : preserves f m -> yields m i (fun _ _ i1 => f i1 = f i).
Proof. intros Hp. eapply yields_mono; [|exact (yields_preserves f m i _ Hp (yields_any m i))]. by intros t a i1 [_ ?]. Qed.

Lemma reconcileInit_yields ls an mc i :
  yields (reconcileInit ls an mc) i (fun t _ i1 => ident i1 = ident i /\ jobDone DbSyncHash t /\ jobDone BootstrapHash t).
Proof.
  unfold reconcileInit, bootstrapStep.
  yields_use (preserves_yields ident _ i (reconcileRbac_preserves _ _ ident_observer (fun _ _ => eq_refl))). intros t0 [] i0 E0.
  apply yields_get. yields_use runJob_yields. intros t1 [] i1 [E1 J1].
  yields_use (preserves_yields ident _ i1 (exposeEndpoints_preserves _ _ ident_observer (fun _ _ => eq_refl) ls (sortStrings [EndpointPublic; EndpointInternal]) ∅)).
  intros t2 eps i2 E2. apply yields_modify, yields_modify, yields_get.
  eapply yields_mono; [|apply runJob_yields]. intros t3 [] i3 [E3 J3]. split_and!.
  - rewrite E3. cbn. by rewrite <- E0, <- E1, <- E2.
  - destruct J1 as (j & a & b & c & d & e & ?). exists j, a, b, c, d, e. sub_in.
  - destruct J3 as (j & a & b & c & d & e & ?). exists j, a, b, c, d, e. sub_in.
Qed.

(** The facts only depend on the identity of the instance. *)
Ltac by_ident Hid F := destruct (ident_eq _ _ Hid) as (Em & En & Ec);
  unfold databaseReady, transportHeld, memcachedHeld, configWritten in *; rewrite ?Em, ?En, ?Ec in F; exact F.
Lemma databaseReady_ident i j t : ident i = ident j -> databaseReady i t -> databaseReady j t.
Proof. intros Hid F. by_ident Hid F. Qed.
Lemma transportHeld_ident i j s t : ident i = ident j -> transportHeld i s t -> transportHeld j s t.
Proof. intros Hid F. by_ident Hid F. Qed.
Lemma memcachedHeld_ident i j t : ident i = ident j -> memcachedHeld i t -> memcachedHeld j t.
Proof. intros Hid F. by_ident Hid F. Qed.
Lemma configWritten_ident i j s ks tm t : ident i = ident j -> configWritten i s ks tm t -> configWritten j s ks tm t.
Proof. intros Hid F. by_ident Hid F. Qed.
Lemma configured_ident i j p t : ident i = ident j -> configured i p t -> configured j p t.
Proof. intros Hid (tm & F1 & F2). exists tm. split; [by eapply configWritten_ident|by eapply inputsHashed_ident]. Qed.

Ltac passes lem i' E :=
  eapply yields_bind; [exact (preserves_yields ident _ _ (lem _ _ ident_observer (fun _ _ => eq_refl)))
                      |cbv beta; intros ? ? i' E].

Lemma prepare_yields fuel i :
  yields (prepare fuel) i (fun t p i1 => ident i1 = ident i /\ prepared i p t).
Proof.
  unfold prepare. apply yields_get.
  yields_use verifySecret_writes. intros t1 vars1 i1 [E1 (e1 & F1 & ->)]. apply yields_modify.
  yields_use ensureDB_yields. intros t2 db i2 [E2 F2].
  yields_use ensureTransport_yields. intros t3 s i3 [E3 F3].
  yields_use ensureMemcached_yields. intros t4 mc i4 [E4 F4]. apply yields_get.
  eapply yields_bind; [apply lift_yields, generateServiceConfigMaps_writes|]. intros t5 cfg i5 [-> F5].
  yields_use @configOr_yields. intros t6 [keys vars2] i6 (-> & -> & ->). cbn beta iota.
  destruct (F5 _ _ eq_refl) as (tmpl & e2 & Fc & F2' & ->). clear F5.
  yields_use fernetStep_writes. intros t7 vars3 i7 [-> (e3 & F3' & ->)]. apply yields_get.
  eapply yields_bind; [apply lift_yields, federation_writes|]. intros t8 [vars4 fed] i8 [-> F8]. cbn beta iota.
  yields_use @configOr_yields. intros t9 files i9 (-> & -> & ->). destruct (F8 _ eq_refl) as (e4 & F4' & Hv). cbn in Hv.
  subst vars4.
  yields_use requireTLSInput_writes. intros t10 vars5 i10 [E10 (e5 & F5 & ->)].
  yields_use validateCertSecrets_writes. intros t11 vars6 i11 [E11 (e6 & F6 & ->)]. apply yields_modify.
  yields_use createHash_hashes. intros t12 inputHash i12 [E12 Fh]. apply yields_modify.
  eapply yields_bind; [exact (preserves_yields ident _ _ (networkAnnotations_preserves _ _ ident_observer (fun _ _ => eq_refl)))|].
  intros t13 an i13 E13. yields_use reconcileInit_yields. intros t14 [] i14 (E14 & J1 & J2).
  apply yields_ret_bind, yields_ret_bind, yields_ret.
  pose proof (eq_trans E2 E1 : ident i2 = ident i) as A2. pose proof (eq_trans E3 A2) as A3. pose proof (eq_trans E4 A3) as A4.
  pose proof (eq_trans E10 A4) as A10.
  split; [exact (eq_trans E14 (eq_trans E13 (eq_trans E12 (eq_trans E11 A10))))|].
  apply (databaseReady_ident _ i) in F2; [|exact E1]. apply (transportHeld_ident _ i) in F3; [|exact A2].
  apply (memcachedHeld_ident _ i) in F4; [|exact A3]. apply (configWritten_ident _ i) in Fc; [|exact A4].
  destruct (entries_ident _ _ A4) as (_ & Q3 & Q4 & Q5 & _). destruct (entries_ident _ _ A10) as (_ & _ & _ & _ & Q6).
  rewrite Q3 in F3'. rewrite Q4 in F4'. rewrite Q5 in F5. rewrite Q6 in F6.
  assert (inputsHashed i tmpl inputHash (t1 ++ t2 ++ t3 ++ t4 ++ t5 ++ t7 ++ t8 ++ t10 ++ t11)) as Fin.
  { exists e1, e2, e3, e4, e5, e6. split_and!; [eapply secretEntry_sub, F1|eapply configEntry_sub, F2'|eapply keysEntry_sub, F3'
      |eapply realmEntries_sub, F4'|eapply bundleEntry_sub, F5|eapply certsEntry_sub, F6|]; [sub_segment..|].
    by rewrite !writes_app. }
  apply secretEntry_verified in F1.
  split_and!; [eapply secretVerified_sub, F1|eapply databaseReady_sub, F2|eapply transportHeld_sub, F3
    |eapply memcachedHeld_sub, F4| |eapply jobDone_sub, J1|eapply jobDone_sub, J2];
    [sub_segment..| |sub_segment|sub_segment].
  exists tmpl. split; [eapply configWritten_sub, Fc; sub_segment|eapply inputsHashed_sub, Fin].
  clear. set_solver.
Qed.
End facts.

(** ** What the roll-out has established when its conditions are True *)

Section rollout.
Context `{CLaws : ConditionLaws} `{FLaws : FinalizerLaws} `{XL : ExternalLib} `{PL : PodLib} `{KLaws : ControllerLaws}.
Implicit Types (i : KeystoneAPI) (t : trace).

(** A condition that is there and is not True. *)
Definition notYet (c : APICondition) i : Prop := exists s, status c i = Some s /\ s <> ConditionTrue.
Lemma notYet_eq c i j : status c i = status c j -> notYet c j -> notYet c i.
Proof. intros Heq (s & Hs & Hne). exists s. by rewrite Heq. Qed.
Lemma notYet_setFalse c r s m a i : notYet c (withCond (condSet (Some (FalseCondition (condName c) r s m a))) i).
Proof. exists ConditionFalse. by rewrite status_setFalse, decide_True by done. Qed.

(** The deployment with the hash of the present inputs was applied, and it is
    ready with exactly these inputs; the cron job was applied. *)
Definition rolledOut (inputHash : string) t : Prop :=
  exists d ds c r,
    Ev (CreateOrPatchDeployment d (5 * second)) (ds, noResult, None) ∈ t /\
    ct_Env (ps_Container (dp_Pod d)) = MergeEnvs [] {[ "CONFIG_HASH" := inputHash ]} /\
    ds_IsReady ds = true /\ Ev (IsReadyForInput (ds_Name ds) (ds_Namespace ds) inputHash) (inr true) ∈ t /\
    Ev (CreateOrPatchCronJob c (5 * second)) (r, None) ∈ t.

(** A step that leaves alone a condition that is not True yet: if it does not
    go on, the condition is still not True. *)
Lemma gate {A B} c (m : M A) (f : A -> M B) i F (Q : trace -> KeystoneAPI -> Prop) :
  preserves (status c) m -> notYet c i -> yields m i F ->
  (forall t1 a i1, F t1 a i1 -> notYet c i1 -> hwp (f a) i1 (fun t2 r => notYet c r.1 \/ Q (t1 ++ t2) r.1)) ->
  hwp (m ≫= f) i (fun t r => notYet c r.1 \/ Q t r.1).
Proof.
  intros Hp Hi Hy Hf. apply hwp_bind. eapply hwp_mono; [|exact (hwp_conj _ _ _ _ Hy (Hp i))].
  intros t1 [i1 [e|a]] _ [F1 E1]; cbn [fst snd] in *; apply (notYet_eq _ _ _ E1) in Hi; [by left|]. by apply Hf; [apply F1|].
Qed.

Lemma Deployment_env i h ls an topo sel fs m keys d :
  Deployment i h ls an topo sel fs m keys = Some (inr d) ->
  ct_Env (ps_Container (dp_Pod d)) = MergeEnvs [] {[ "CONFIG_HASH" := h ]}.
Proof.
  unfold Deployment. destruct (deploymentVolumes i fs m keys) as [[e|[vs ms]]|]; cbn [mbind option_bind]; [done| |done].
  intros Hd%Some_inj. injection Hd as <-. reflexivity.
Qed.

Lemma deploymentStep_yields p topo i :
  yields (deploymentStep p topo) i (fun t ds i1 => status DeploymentReady i1 = status DeploymentReady i /\
    exists d, Ev (CreateOrPatchDeployment d (5 * second)) (ds, noResult, None) ∈ t /\
      ct_Env (ps_Container (dp_Pod d)) = MergeEnvs [] {[ "CONFIG_HASH" := pr_InputHash p ]}).
Proof.
  unfold deploymentStep. apply yields_get.
  destruct (Deployment _ _ _ _ _ _ _ _ _) as [[e|d]|] eqn:Hd; [apply yields_failCond| |apply yields_leave].
  yields_go; no_results; (split; [done|]; exists d; split; [in_list|by eapply Deployment_env]).
Qed.

Lemma readyStep_yields h ds i :
  notYet DeploymentReady i ->
  yields (readyStep h ds) i (fun t _ i1 => notYet DeploymentReady i1 \/
    (ds_IsReady ds = true /\ Ev (IsReadyForInput (ds_Name ds) (ds_Namespace ds) h) (inr true) ∈ t)).
Proof.
  intros Hi. unfold readyStep. apply yields_get.
  eapply (yields_bind _ _ _ (fun t r i1 => i1 = i /\ (r = inr true ->
    ds_IsReady ds = true /\ t = [Ev (IsReadyForInput (ds_Name ds) (ds_Namespace ds) h) (inr true)]))).
  - destruct (ds_IsReady ds); [|by apply yields_ret]. intros x _ r [= <-]. split; [done|]. by intros [= ->].
  - intros t1 r i1 [-> Hr]. destruct r as [e|[]]; [apply yields_leave| |].
    + destruct (Hr eq_refl) as [? ->]. apply yields_modify_last. right. split; [done|]. left.
    + destruct (ka_Replicas (core i)) as [n|]; [|apply yields_leave]. destruct (0 <? n).
      * apply yields_modify_last. left. apply notYet_setFalse.
      * apply yields_ret. by left.
Qed.

Lemma cronJobStep_hwp p i :
  notYet CronJobReady i ->
  hwp (cronJobStep p) i (fun t r => match r.2 with
    | inl _ => notYet CronJobReady r.1
    | inr _ => status DeploymentReady r.1 = status DeploymentReady i /\
               exists c res, Ev (CreateOrPatchCronJob c (5 * second)) (res, None) ∈ t end).
Proof.
  intros Hi. unfold cronJobStep. apply hwp_bind. intros _. cbn [fst snd app].
  destruct (CronJob _ _ _ _) as [c|]; [|by intros _]. apply hwp_bind. intros [res [e|]] _; cbn [fst snd app].
  - apply hwp_bind. intros _ _. cbn [fst snd leave]. apply notYet_setFalse.
  - intros _. cbn [fst snd]. split; [by rewrite status_markTrue, decide_False|]. exists c, res. left.
Qed.

Lemma rollout_hwp p i :
  notYet CronJobReady i -> notYet DeploymentReady i ->
  hwp (rollout p) i (fun t r => notYet CronJobReady r.1 \/ notYet DeploymentReady r.1 \/ rolledOut (pr_InputHash p) t).
Proof.
  intros Hc Hd. unfold rollout. pose proof (status_observer CronJobReady) as OC.
  pose proof (status_observer DeploymentReady) as OD.
  eapply (gate CronJobReady _ _ _ _ (fun t j => notYet DeploymentReady j \/ _));
    [by eapply topologyStep_preserves; [exact OC|]|done|
     by eapply preserves_yields, topologyStep_preserves; [exact OD|]|].
  intros t1 topo i1 E1 Hc1. apply (notYet_eq _ _ _ E1) in Hd.
  eapply (gate CronJobReady _ _ _ _ (fun t j => notYet DeploymentReady j \/ _));
    [by eapply deploymentStep_preserves; [exact OC|]|done|apply deploymentStep_yields|].
  intros t2 ds i2 (E2 & d & Hdep & Henv) Hc2. apply (notYet_eq _ _ _ E2) in Hd.
  eapply (gate CronJobReady _ _ _ _ (fun t j => notYet DeploymentReady j \/ _));
    [by eapply networkStep_preserves; [exact OC|]|done|
     by eapply preserves_yields, networkStep_preserves; [exact OD|]|].
  intros t3 [] i3 E3 Hc3. apply (notYet_eq _ _ _ E3) in Hd.
  eapply (gate CronJobReady _ _ _ _ (fun t j => notYet DeploymentReady j \/ _));
    [by eapply readyStep_preserves; [exact OC|]|done|by apply readyStep_yields|].
  intros t4 [] i4 F4 Hc4.
  eapply (gate CronJobReady _ _ _ _ (fun t j => notYet DeploymentReady j \/ _));
    [eapply releaseUnusedAccounts_preserves; exact OC|done|
     eapply preserves_yields, releaseUnusedAccounts_preserves; exact OD|].
  intros t5 [] i5 E5 Hc5. apply hwp_bind. eapply hwp_mono; [|by apply cronJobStep_hwp].
  intros t6 [i6 [e|[]]] _ F6; cbn [fst snd] in *; [by left|]. destruct F6 as (E6 & c & res & Hcron).
  assert (preserves (status DeploymentReady) (i ← get; err ← lift (reconcileCloudConfig i); failIf err)) as Hrest
    by (preserves_go; apply preserves_failIf).
  eapply hwp_mono; [|apply Hrest]. intros t7 r _ E7. right.
  destruct F4 as [Hn|[Hrd Hin]]; [left; exact (notYet_eq _ _ _ (eq_trans E7 (eq_trans E6 E5)) Hn)|right].
  exists d, ds, c, res. split_and!; [sub_in|done|done|sub_in|sub_in].
Qed.
End rollout.

(** ** The calls of the last steps are only theirs *)

Definition isDeployment (X : Type) (c : Call X) : bool :=
  match c with CreateOrPatchDeployment _ _ => true | _ => false end.
Definition isRotation (X : Type) (c : Call X) : bool :=
  match c with FinalizeSecretRotation _ _ _ _ _ | PruneSecretConsumerFinalizers _ _ _ => true | _ => false end.
Definition isLateCall (X : Type) (c : Call X) : bool := isDeployment X c || isRotation X c.
(** Not for the stages before the roll-out: the calls of the last steps, and
    those on what the controllers share. *)
Definition isReserved (X : Type) (c : Call X) : bool := isLateCall X c || isShared X c.
Lemma reserved_late X (c : Call X) : isLateCall X c = true -> isReserved X c = true.
Proof. unfold isReserved. by intros ->. Qed.
Lemma reserved_shared X (c : Call X) : isShared X c = true -> isReserved X c = true.
Proof. unfold isReserved. intros ->. apply orb_true_r. Qed.
Lemma emitsM_weaken {A} (K K' : forall X, Call X -> bool) (m : M A) :
  (forall X c, K X c = true -> K' X c = true) ->
  emitsM (fun X e => K' X e = false) m -> emitsM (fun X e => K X e = false) m.
Proof.
  intros HK Hm i. eapply emits_mono; [|apply Hm]. intros X c Hc. cbv beta in *. destruct (K X c) eqn:E; [|done].
  by rewrite (HK _ _ E) in Hc.
Qed.

Ltac emitsM_go :=
  repeat (cbn beta iota;
    lazymatch goal with
    | |- forall _, emitsM _ _ => intro
    | |- emitsM _ (mbind _ _) => apply emitsM_bind
    | |- emitsM _ (lift _) => apply emitsM_lift; emits_go
    | |- emitsM _ get => apply emitsM_get
    | |- emitsM _ (leave _) => apply emitsM_leave
    | |- emitsM _ (return_ _) => apply emitsM_leave
    | |- emitsM _ (mret _) => apply emitsM_ret
    | |- emitsM _ (setFalse _ _ _ _ _) => apply emitsM_modify
    | |- emitsM _ (markTrue _ _) => apply emitsM_modify
    | |- emitsM _ (setStatus _) => apply emitsM_modify
    | |- emitsM _ (modify _) => apply emitsM_modify
    | |- emitsM _ (failCond _ _ _) => apply emitsM_bind; [apply emitsM_modify|intro; apply emitsM_leave]
    | |- emitsM _ (waitCond _ _ _) => apply emitsM_bind; [apply emitsM_modify|intro; apply emitsM_leave]
    | |- emitsM _ (warnCond _ _ _ _) => apply emitsM_bind; [apply emitsM_modify|intro; apply emitsM_leave]
    | |- emitsM _ (failIf ?e) => destruct e; [apply emitsM_leave|apply emitsM_ret]
    | |- emitsM _ (match _ with _ => _ end) => M_cases
    | |- emitsM _ _ => solve [eauto 3 with emits nocore]
    end).

Section avoidance.
Context `{CL : ConditionLib} `{FL : FinalizerLib} `{XL : ExternalLib} `{PL : PodLib} `{KL : ControllerLib}.
Abbreviation avoidsM P m := (emitsM (fun X e => P X e = false) m).

#[local] Hint Constants Opaque : emits.
Lemma ensureFernetKeys_avoids fuel i vars : avoids isReserved (ensureFernetKeys fuel i vars).
Proof. eapply emits_mono; [|apply ensureFernetKeys_emits]. by intros X []. Qed.
Lemma ensureFederation_avoids i vars : avoids isReserved (ensureFederationRealmConfig i vars).
Proof. unfold ensureFederationRealmConfig. emits_go. Qed.
Lemma generateServiceConfigMaps_avoids i vars mc db s : avoids isReserved (generateServiceConfigMaps i vars mc db s).
Proof. unfold generateServiceConfigMaps, httpdOverride. emits_go. Qed.
#[local] Hint Resolve ensureFernetKeys_avoids ensureFederation_avoids generateServiceConfigMaps_avoids : emits.

Lemma getNADs_avoids l : avoidsM isReserved (getNADs l).
Proof. induction l as [|n l IH]; cbn [getNADs]; emitsM_go. Qed.
Lemma exposeEndpoint_avoids ls ty : avoidsM isReserved (exposeEndpoint ls ty).
Proof. unfold exposeEndpoint. emitsM_go. Qed.
#[local] Hint Resolve getNADs_avoids exposeEndpoint_avoids : emits.
Lemma exposeEndpoints_avoids ls types eps : avoidsM isReserved (exposeEndpoints ls types eps).
Proof. revert eps; induction types as [|ty types IH]; intros eps; cbn [exposeEndpoints]; emitsM_go. Qed.
#[local] Hint Resolve exposeEndpoints_avoids : emits.
Lemma verifySecret_avoids vars : avoidsM isReserved (verifySecret vars).
Proof. unfold verifySecret. emitsM_go. Qed.
Lemma requireTLSInput_avoids vars : avoidsM isReserved (requireTLSInput vars).
Proof. unfold requireTLSInput, verifyTLSInput. emitsM_go. Qed.
Lemma ensureDB_avoids : avoidsM isReserved ensureDB.
Proof. unfold ensureDB. emitsM_go. Qed.
Lemma ensureTransport_avoids ls : avoidsM isReserved (ensureTransport ls).
Proof. unfold ensureTransport, transportURLCreateOrUpdate. emitsM_go. Qed.
Lemma ensureMemcached_avoids : avoidsM isReserved ensureMemcached.
Proof. unfold ensureMemcached. emitsM_go. Qed.
Lemma configOr_avoids {A} (r : res A) : avoidsM isReserved (configOr r).
Proof. unfold configOr. emitsM_go. Qed.
Lemma fernetStep_avoids fuel vars : avoidsM isReserved (fernetStep fuel vars).
Proof. unfold fernetStep. emitsM_go. Qed.
Lemma validateCertSecrets_avoids vars : avoidsM isReserved (validateCertSecrets vars).
Proof. unfold validateCertSecrets. emitsM_go. Qed.
Lemma createHashOfInputHashes_avoids vars : avoidsM isReserved (createHashOfInputHashes vars).
Proof. unfold createHashOfInputHashes. emitsM_go. Qed.
Lemma networkAnnotations_avoids : avoidsM isReserved networkAnnotations.
Proof. unfold networkAnnotations. emitsM_go. Qed.
Lemma reconcileRbac_avoids : avoidsM isReserved reconcileRbac.
Proof. unfold reconcileRbac. emitsM_go. Qed.
Lemma runJob_avoids c r e m h j : avoidsM isReserved (runJob c r e m h j).
Proof. unfold runJob. emitsM_go. Qed.
#[local] Hint Resolve reconcileRbac_avoids runJob_avoids : emits.
Lemma reconcileInit_avoids ls an mc : avoidsM isReserved (reconcileInit ls an mc).
Proof. unfold reconcileInit, bootstrapStep. emitsM_go. Qed.
#[local] Hint Resolve verifySecret_avoids requireTLSInput_avoids ensureDB_avoids ensureTransport_avoids ensureMemcached_avoids
  @configOr_avoids fernetStep_avoids validateCertSecrets_avoids createHashOfInputHashes_avoids networkAnnotations_avoids
  reconcileInit_avoids : emits.
Lemma prepare_avoids fuel : avoidsM isReserved (prepare fuel).
Proof. unfold prepare, reconcileUpdate, reconcileUpgrade. emitsM_go. Qed.
Lemma rollout_avoids p : avoidsM (fun X c => isRotation X c || isShared X c) (rollout p).
Proof.
  unfold rollout, topologyStep, deploymentStep, networkStep, readyStep, releaseUnusedAccounts, cronJobStep, reconcileCloudConfig.
  emitsM_go.
Qed.
Lemma rollout_avoids_rotation p : avoidsM isRotation (rollout p).
Proof. eapply emitsM_weaken, rollout_avoids. intros X c Hc. cbv beta. by rewrite Hc. Qed.
Lemma reconcileNormal_quiet fuel : avoidsM isShared (reconcileNormal fuel).
Proof.
  unfold reconcileNormal. apply emitsM_bind; [eapply emitsM_weaken, prepare_avoids; apply reserved_shared|]. intros p.
  apply emitsM_bind.
  { eapply emitsM_weaken, rollout_avoids. intros X c Hc. cbv beta. rewrite Hc. apply orb_true_r. }
  intros _. unfold rotateTransportSecret. emitsM_go.
Qed.
End avoidance.

(** ** The reconcile of a deployed Keystone *)

Section normal.
Context `{CLaws : ConditionLaws} `{FLaws : FinalizerLaws} `{XL : ExternalLib} `{PL : PodLib} `{KLaws : ControllerLaws}.
Implicit Types (i : KeystoneAPI) (t : trace).

(** The roll-out of prepared inputs is complete. *)
Definition complete i (p : Prepared) t : Prop := prepared i p t /\ rolledOut (pr_InputHash p) t.

(** The release of superseded secrets in lib-common is guarded: without the
    guard a rotation stays with the old secret, when there is one. *)
Definition guardedAnswer {X} (c : Call X) : X -> Prop :=
  match c in Call X return X -> Prop with
  | FinalizeSecretRotation _ old _ _ false => fun r => forall x, r = inr x -> old <> "" -> x = old
  | _ => fun _ => True
  end.
Definition guarded t : Prop := Forall (fun ev => match ev with Ev c x => guardedAnswer c x end) t.

(** An exchange that lets go of the transport secret the pods of [i] use, or
    that forgets it: the rotation is finalized with its guard up, the finalizer
    is pruned from the secret or removed although nothing is being deleted, or
    the status comes to name another secret. *)
Definition releases i (ev : event Call) : Prop :=
  match ev with Ev c _ =>
    match c with
    | FinalizeSecretRotation _ _ _ _ ready => ready = true
    | PruneSecretConsumerFinalizers _ _ keep => secretOf i <> "" /\ secretOf i ∉ keep
    | RemoveSecretConsumerFinalizer _ _ _ => notDeleting (ka_meta i) = true
    | PatchKeystoneAPI o => secretOf i <> "" /\ secretOf o <> secretOf i
    | _ => False
    end
  end.
(** It does so for the secret that [p] was prepared with. *)
Definition supersedes i (p : Prepared) t (ev : event Call) : Prop :=
  match ev with Ev c _ =>
    match c with
    | FinalizeSecretRotation _ old new _ _ => new = pr_TransportSecret p /\ (secretOf i <> "" -> old = secretOf i)
    | PruneSecretConsumerFinalizers _ _ keep => pr_TransportSecret p ∈ keep
    | PatchKeystoneAPI o => exists n fin,
        Ev (FinalizeSecretRotation n (secretOf i) (pr_TransportSecret p) fin true) (inr (secretOf o)) ∈ t
    | _ => False
    end
  end.
(** A transport secret is only let go, for good, when the roll-out with its
    successor is complete, when the object is patched to name the secret of [i']
    in the end. *)
Definition rotationSafe i i' t : Prop :=
  guarded t -> forall o perr t1 ev t2,
    secretOf o = secretOf i' -> t ++ [Ev (PatchKeystoneAPI o) perr] = t1 ++ ev :: t2 -> releases i ev ->
      exists p, complete i p t1 /\ supersedes i p t1 ev.

Lemma rolledOut_sub h t t' : t ⊆ t' -> rolledOut h t -> rolledOut h t'.
Proof. intros Hs (d & ds & c & r & F1 & F2 & F3 & F4 & F5). exists d, ds, c, r. split_and!; auto. Qed.
Lemma complete_sub i p t t' : t ⊆ t' -> complete i p t -> complete i p t'.
Proof. intros Hs [F1 F2]. split; [by eapply prepared_sub|by eapply rolledOut_sub]. Qed.

(** A trace that lets nothing go. *)
Definition calm i t : Prop := Forall (fun ev => ~ releases i ev) t.
Definition secretKept i i' : Prop := secretOf i <> "" -> secretOf i' = secretOf i.
Lemma calm_rotationSafe i i' t : secretKept i i' -> calm i t -> rotationSafe i i' t.
Proof.
  intros Hk Hc _ o perr t1 ev t2 Ho Heq Hrel. destruct (event_after (releases i) _ _ _ _ _ Heq Hc Hrel) as (u & -> & Hp).
  destruct u as [|? u]; [|by destruct u]. injection Hp as <- _. destruct Hrel as [Hne Hs]. apply Hk in Hne. congruence.
Qed.
Lemma quiet_calm i t : never isRotation t -> never isShared t -> calm i t.
Proof.
  intros Hrot Hsh. apply Forall_forall. intros [X c x] Hin Hrel.
  apply (proj1 (Forall_forall _ _) Hrot) in Hin as Hr. apply (proj1 (Forall_forall _ _) Hsh) in Hin as Hs.
  destruct c; cbn in *; done.
Qed.

Lemma emitsM_hwp {A} K (m : M A) i : emitsM (fun X e => K X e = false) m -> hwp m i (fun t _ => never K t).
Proof. intros Hm. apply wp_runs. intros t r Hr _. eapply avoids_runs; [apply Hm|exact Hr]. Qed.

Lemma isRotation_late t : never isLateCall t -> never isRotation t.
Proof. intros Hn. eapply Forall_impl; [exact Hn|]. intros [X c x]. cbn. by intros [_ ?]%orb_false_iff. Qed.
Lemma isDeployment_late t : never isLateCall t -> never isDeployment t.
Proof. intros Hn. eapply Forall_impl; [exact Hn|]. intros [X c x]. cbn. by intros [? _]%orb_false_iff. Qed.

(** A condition that is not True yet, or all conditions True. *)
Lemma allTrue_notYet c i : condAllSubConditionIsTrue (kas_Conditions (ka_status i)) = true -> ~ notYet c i.
Proof. intros Hall (s & Hs & Hne). apply Hne. eapply condAllSub_true; [exact Hall|apply condName_Ready|exact Hs]. Qed.

Lemma late_touch c : isLate c = true -> forall d, isLate d = false -> negb (bool_decide (d = c)) = true.
Proof. intros Hc d Hd. apply negb_true_iff, bool_decide_eq_false_2. intros ->. congruence. Qed.

Lemma prepare_hwp fuel i c : isLate c = true ->
  hwp (prepare fuel) i (fun t r => status c r.1 = status c i /\ never isLateCall t /\
    forall p, r.2 = inr p -> ident r.1 = ident i /\ prepared i p t).
Proof.
  intros Hc. apply hwp_conj; [apply (prepare_preserves _ _ (status_observer c) (late_touch c Hc) (fun _ _ => eq_refl))|].
  apply hwp_conj; [eapply emitsM_hwp, emitsM_weaken, prepare_avoids; apply reserved_late|apply prepare_yields].
Qed.

Lemma rollout_preserves {X} (f : KeystoneAPI -> X) p : observer (fun _ => true) f -> preserves f (rollout p).
Proof.
  intros Hobs. unfold rollout. preserves_go; eauto using topologyStep_preserves, deploymentStep_preserves,
    networkStep_preserves, readyStep_preserves, releaseUnusedAccounts_preserves, cronJobStep_preserves, preserves_failIf.
Qed.

(** Neither the preparation nor the roll-out lets a secret go. *)
Lemma prepare_secret fuel i : hwp (prepare fuel) i (fun t r => secretKept i r.1 /\ calm i t).
Proof.
  apply hwp_conj.
  - unfold secretKept. destruct (decide (secretOf i = "")) as [He|He]; [by apply wp_runs|].
    eapply hwp_mono; [|by apply prepare_keepsSecret]. by intros t r _ Hk _.
  - eapply hwp_mono; [|exact (emitsM_hwp isReserved _ i (prepare_avoids fuel))]. intros t r _ Hn.
    apply quiet_calm; (eapply Forall_impl; [exact Hn|]); intros [X c x]; cbn.
    + by intros [[_ ?]%orb_false_iff _]%orb_false_iff.
    + by intros [_ ?]%orb_false_iff.
Qed.
Lemma rollout_secret p i j : hwp (rollout p) j (fun t r => secretOf r.1 = secretOf j /\ calm i t).
Proof.
  apply hwp_conj; [apply (rollout_preserves _ p secretOf_observer)|].
  eapply hwp_mono; [|exact (emitsM_hwp _ _ j (rollout_avoids p))]. intros t r _ Hn.
  apply quiet_calm; (eapply Forall_impl; [exact Hn|]); intros [X c x]; cbn; by intros [? ?]%orb_false_iff.
Qed.

(** The two requests of the last step, and the secret it leaves in the status. *)
Definition rotates i (s : string) t i' : Prop :=
  exists x, let ev := Ev (FinalizeSecretRotation (ns i) (secretOf i) s TransportConsumerFinalizer
                            (condAllSubConditionIsTrue (kas_Conditions (ka_status i)))) x in
    ((exists e, x = inl e) /\ t = [ev] /\ secretOf i' = secretOf i) \/
    (exists n err, x = inr n /\ secretOf i' = n /\
       t = [ev; Ev (PruneSecretConsumerFinalizers (ns i) TransportConsumerFinalizer [n; s]) err]).
Lemma rotateTransportSecret_hwp i s : hwp (rotateTransportSecret s) i (fun t r => rotates i s t r.1).
Proof.
  unfold rotateTransportSecret. apply hwp_bind. intros _. cbn [fst snd app]. apply hwp_bind. intros x _. cbn [fst snd app].
  destruct x as [e|n].
  - intros _. exists (inl e). left. split_and!; [by exists e|done|done].
  - apply hwp_bind. intros _. cbn [fst snd app]. apply hwp_bind. intros err _. cbn [fst snd app].
    destruct err as [e|]; intros _; exists (inr n); right; exists n; eexists; (split; [done|]); by split.
Qed.

(** The last step is safe: without the guard the old secret stays where it is,
    and with it the roll-out is complete. *)
Lemma rotates_safe i i2 i3 p t t3 :
  secretKept i i2 -> calm i t ->
  (condAllSubConditionIsTrue (kas_Conditions (ka_status i2)) = true -> complete i p t) ->
  rotates i2 (pr_TransportSecret p) t3 i3 -> rotationSafe i i3 (t ++ t3).
Proof.
  intros Hk Hc Hall (x & Ht3) Hg o perr u ev v Ho Heq Hrel. rewrite <- app_assoc in Heq.
  apply Forall_app in Hg as [_ Hg].
  destruct (event_after (releases i) _ _ _ _ _ Heq Hc Hrel) as (u' & -> & Heq'). clear Heq.
  unfold secretKept in Hk. set (ready := condAllSubConditionIsTrue _) in *.
  assert (forall u', complete i p t -> complete i p (t ++ u')) as Hsub.
  { intros w. apply complete_sub. sub_go. }
  destruct Ht3 as [([e ->] & -> & Hs)|(n & err & -> & Hs & ->)]; cbn [app] in Heq'.
  - destruct u' as [|e1 [|e2 u']]; [injection Heq' as <- _|injection Heq' as <- <- _|by destruct u'].
    + exists p. split; [by apply Hsub, Hall|]. split; [done|]. exact Hk.
    + destruct Hrel as [Hne Hch]. rewrite Ho, Hs in Hch. by apply Hk in Hne.
  - assert (secretOf i <> "" -> ready = false -> n = secretOf i) as Hstay.
    { intros Hne Hr. apply Forall_inv in Hg. cbn in Hg. rewrite Hr in Hg. rewrite <- (Hk Hne).
      apply Hg; [done|]. by rewrite (Hk Hne). }
    destruct u' as [|e1 [|e2 [|e3 u']]];
      [injection Heq' as <- _|injection Heq' as <- <- _|injection Heq' as <- <- <- _|by destruct u'].
    + exists p. split; [by apply Hsub, Hall|]. split; [done|exact Hk].
    + destruct Hrel as [Hne Hout]. exists p. destruct ready; [|exfalso; apply Hout; rewrite Hstay by done; left].
      split; [by apply Hsub, Hall|]. right; left.
    + destruct Hrel as [Hne Hch]. exists p. destruct ready; [|exfalso; apply Hch; rewrite Ho, Hs; by apply Hstay].
      split; [by apply Hsub, Hall|]. exists (ns i2), TransportConsumerFinalizer. rewrite Ho, Hs, <- (Hk Hne).
      apply elem_of_app. right. left.
Qed.

Lemma reconcileNormal_hwp fuel i :
  notYet CronJobReady i -> notYet DeploymentReady i ->
  hwp (reconcileNormal fuel) i (fun t r =>
    (notYet CronJobReady r.1 \/ notYet DeploymentReady r.1 \/ exists p, complete i p t) /\ rotationSafe i r.1 t).
Proof.
  intros Hc Hd. unfold reconcileNormal. apply hwp_bind.
  eapply hwp_mono; [|exact (hwp_conj _ _ _ _ (prepare_hwp fuel i CronJobReady eq_refl) (hwp_conj _ _ _ _
    (prepare_hwp fuel i DeploymentReady eq_refl) (prepare_secret fuel i)))].
  intros t1 [i1 e1] _ [(E1 & N1 & F1) [(E2 & _ & _) [K1 C1]]]. cbn [fst snd] in *.
  apply (notYet_eq _ _ _ E1) in Hc. apply (notYet_eq _ _ _ E2) in Hd.
  destruct e1 as [e|p]; [split; [by left|by apply calm_rotationSafe]|]. destruct (F1 p eq_refl) as [_ P1].
  apply hwp_bind.
  eapply hwp_mono; [|exact (hwp_conj _ _ _ _ (rollout_hwp p i1 Hc Hd) (rollout_secret p i i1))].
  intros t2 [i2 e2] _ [F2 [K2 C2]]. cbn [fst snd] in *. unfold secretKept in K1. rewrite <- K2 in K1. clear K2 N1.
  assert (calm i (t1 ++ t2)) as C12 by (by apply Forall_app).
  assert (notYet CronJobReady i2 \/ notYet DeploymentReady i2 \/ complete i p (t1 ++ t2)) as F12.
  { destruct F2 as [?|[?|Hro]]; [by left|by right; left|right; right]. split; [eapply prepared_sub; [|exact P1]; sub_go|].
    eapply rolledOut_sub; [|exact Hro]. sub_go. }
  destruct e2 as [e|[]].
  { split; [|by apply calm_rotationSafe]. destruct F12 as [?|[?|?]]; [by left|by right; left|right; right; by exists p]. }
  apply hwp_bind.
  eapply hwp_mono; [|exact (hwp_conj _ _ _ _ (rotateTransportSecret_hwp i2 (pr_TransportSecret p)) (hwp_conj _ _ _ _
    (rotateTransportSecret_preserves (status CronJobReady) (pr_TransportSecret p) (fun _ _ => eq_refl) i2)
    (rotateTransportSecret_preserves (status DeploymentReady) (pr_TransportSecret p) (fun _ _ => eq_refl) i2)))].
  intros t3 [i3 e3] _ (F3 & E3c & E3d). cbn [fst snd] in *.
  assert ((notYet CronJobReady i3 \/ notYet DeploymentReady i3 \/ exists p, complete i p (t1 ++ t2 ++ t3)) /\
    rotationSafe i i3 (t1 ++ t2 ++ t3)) as Hdone.
  { rewrite app_assoc. split.
    - destruct F12 as [Hn|[Hn|Hco]]; [left; exact (notYet_eq _ _ _ E3c Hn)|right; left; exact (notYet_eq _ _ _ E3d Hn)|].
      right; right. exists p. eapply complete_sub; [|exact Hco]. sub_go.
    - eapply rotates_safe; [exact K1|exact C12| |exact F3]. intros Hall.
      destruct F12 as [Hn|[Hn|Hco]]; [by apply allTrue_notYet in Hn|by apply allTrue_notYet in Hn|exact Hco]. }
  destruct e3 as [e|[]]; [exact Hdone|]. intros _. cbn [fst]. rewrite app_nil_r. exact Hdone.
Qed.

(** ** Reconcile *)

Lemma internal_unknown i c :
  ka_ExternalKeystoneAPI (core i) = false -> isLate c = true ->
  condStatus (condName c) (initConditions i) = Some ConditionUnknown.
Proof.
  intros Hint Hc. unfold initConditions, unknown. rewrite Hint.
  assert (condStatus (condName c) (foldl (fun cl c => condSet (Some c) cl)
    (CreateList [unknown InputReady "InputReadyInitMessage"; unknown TLSInputReady "InputReadyInitMessage"]) internalConditions)
    = Some ConditionUnknown) as Hl.
  { cbn [foldl internalConditions]. unfold unknown. rewrite !condSet_status, !UnknownCondition_type, !UnknownCondition_status.
    destruct c; try done; repeat case_decide; congruence. }
  destruct (ka_TopologyRef (core i)); [|exact Hl].
  rewrite condSet_status, UnknownCondition_type, UnknownCondition_status. case_decide; [done|exact Hl].
Qed.

Lemma prepared_ident i j p t : ident i = ident j -> prepared i p t -> prepared j p t.
Proof.
  intros Hid (F1 & F2 & F3 & F4 & F5 & F6). destruct (ident_eq _ _ Hid) as (Em & En & Ec).
  split_and!; [|by eapply databaseReady_ident|by eapply transportHeld_ident|by eapply memcachedHeld_ident
    |by eapply configured_ident|by destruct F6..].
  unfold secretVerified in *. by rewrite <- En, <- Ec.
Qed.
Lemma complete_ident i j p t : ident i = ident j -> complete i p t -> complete j p t.
Proof. intros Hid [F1 F2]. split; [by eapply prepared_ident|done]. Qed.

Section whole.
Context {X} (f : KeystoneAPI -> X) (Hobs : observer (fun _ => true) f).
Lemma reconcileNormal_preserves fuel : blindToSecret f -> preserves f (reconcileNormal fuel).
Proof. intros Hb. unfold reconcileNormal. preserves_go; eauto using prepare_preserves, rollout_preserves, rotateTransportSecret_preserves. Qed.
Lemma reconcileExternal_preserves : preserves f reconcileExternalKeystoneAPI.
Proof.
  unfold reconcileExternalKeystoneAPI, requireExternalURLs.
  observe Hobs; eauto using verifySecret_preserves, requireTLSInput_preserves.
Qed.
End whole.
Lemma reconcileDelete_preserves {X} (f : KeystoneAPI -> X) :
  (forall fs i, f (ka_setFinalizers fs i) = f i) -> preserves f reconcileDelete.
Proof.
  intros Hf. assert (preserves f dropFinalizer) as Hdrop by (apply preserves_modify; intros; apply Hf).
  unfold reconcileDelete, releaseTopology, releaseMemcached, releaseDB, releaseTransport. preserves_go;
    eauto using preserves_failIf.
Qed.
Lemma api_reconcileExternal_avoids : emitsM (fun X e => isReserved X e = false) reconcileExternalKeystoneAPI.
Proof.
  unfold reconcileExternalKeystoneAPI, requireExternalURLs, verifySecret, requireTLSInput, verifyTLSInput, reconcileCloudConfig.
  emitsM_go.
Qed.
Lemma api_reconcileDelete_avoids : emitsM (fun X e => isLateCall X e || isAPICall X e = false) reconcileDelete.
Proof.
  unfold reconcileDelete, releaseTopology, releaseMemcached, releaseDB, releaseTransport, dropFinalizer. emitsM_go.
Qed.
Lemma late_delete X (c : Call X) : isLateCall X c = true -> isLateCall X c || isAPICall X c = true.
Proof. by intros ->. Qed.
Lemma reconcileDelete_calm i j : notDeleting (ka_meta i) = false -> hwp reconcileDelete j (fun t _ => calm i t).
Proof.
  intros Hd. eapply hwp_mono; [|exact (emitsM_hwp _ _ j api_reconcileDelete_avoids)]. intros t r _ Hn.
  eapply Forall_impl; [exact Hn|]. intros [X c x] Hev Hrel. destruct c; cbn in *; congruence.
Qed.
Lemma reconcileExternal_calm i j : hwp reconcileExternalKeystoneAPI j (fun t _ => calm i t).
Proof.
  eapply hwp_mono; [|exact (emitsM_hwp _ _ j api_reconcileExternal_avoids)]. intros t r _ Hn.
  apply quiet_calm; (eapply Forall_impl; [exact Hn|]); intros [X c x]; cbn.
  - by intros [[_ ?]%orb_false_iff _]%orb_false_iff.
  - by intros [_ ?]%orb_false_iff.
Qed.

(** The outcome of a body: identity kept, readiness justified, rotation safe. *)
Definition sound {A} i (t : trace) (r : KeystoneAPI * (exit + A)) : Prop :=
  ident r.1 = ident i /\
  (ka_ExternalKeystoneAPI (core i) = false ->
     notYet CronJobReady r.1 \/ notYet DeploymentReady r.1 \/ exists p, complete i p t) /\
  rotationSafe i r.1 t.

(** The object as the body finds it, and with its own finalizer on it. *)
Definition sameObject i j : Prop :=
  ident i = ident j /\ secretOf i = secretOf j /\ notDeleting (ka_meta i) = notDeleting (ka_meta j).
Lemma releases_same i j ev : sameObject i j -> releases i ev <-> releases j ev.
Proof. intros (_ & Hs & Hd). destruct ev as [X c x]. destruct c; cbn; by rewrite ?Hs, ?Hd. Qed.
Lemma supersedes_same i j p t ev : sameObject i j -> supersedes i p t ev <-> supersedes j p t ev.
Proof. intros (_ & Hs & _). destruct ev as [X c x]. destruct c; cbn; by rewrite ?Hs. Qed.

Lemma sound_same {A} i j t (r : KeystoneAPI * (exit + A)) : sameObject i j -> sound i t r -> sound j t r.
Proof.
  intros Hsame (S1 & S2 & S3). pose proof Hsame as (Hid & _). destruct (ident_eq _ _ Hid) as (_ & _ & Ec). split_and!.
  - by rewrite S1.
  - rewrite <- Ec. intros Hint. destruct (S2 Hint) as [?|[?|[p ?]]]; [by left|by right; left|right; right]. exists p.
    by eapply complete_ident.
  - intros Hg o perr t1 ev t2 Ho Heq Hrel. destruct (S3 Hg o perr t1 ev t2 Ho Heq) as (p & Hp & Hsup);
      [by apply (releases_same i j ev Hsame)|]. exists p. split;
        [by eapply complete_ident|by apply (supersedes_same i j p t1 ev Hsame)].
Qed.
Lemma reconcileBody_sound fuel i : hwp (reconcileBody fuel) i (sound i).
Proof.
  unfold reconcileBody. apply hwp_bind. intros _. cbn [fst snd app]. apply hwp_bind. intros _. cbn [fst snd app].
  apply hwp_bind. intros _. cbn [fst snd app].
  destruct (if notDeleting (ka_meta i) then _ else _) as [fs added]. apply hwp_bind. intros _. cbn [fst snd app].
  set (j := ka_setFinalizers fs _).
  assert (sameObject j i) as Hj by (split_and!; done).
  assert (forall c, ka_ExternalKeystoneAPI (core i) = false -> isLate c = true -> notYet c j) as Hun.
  { intros c Hint Hc. exists ConditionUnknown. split; [|done].
    change (condStatus (condName c) (condInit (initConditions i) (Some (default [] (kas_Conditions (ka_status i)))))
      = Some ConditionUnknown).
    apply condInit_status; [by apply internal_unknown|apply condName_Ready]. }
  clearbody j. eapply (hwp_mono _ _ (sound j)); [intros t r _; by apply sound_same|].
  destruct Hj as (Hid & _ & Hdel). destruct (ident_eq _ _ Hid) as (_ & _ & Ec). rewrite <- Ec in Hun. rewrite <- Hdel.
  destruct (added || _).
  { intros _. split_and!; [done|intros Hint; left; by apply Hun|apply calm_rotationSafe; [by intros ?|by apply Forall_nil]]. }
  destruct (negb (notDeleting (ka_meta j))) eqn:Hd; [|destruct (ka_ExternalKeystoneAPI (core i)) eqn:Hext].
  - apply negb_true_iff in Hd.
    eapply hwp_mono; [|exact (hwp_conj _ _ _ _ (reconcileDelete_preserves ident (fun _ _ => eq_refl) j) (hwp_conj _ _ _ _
      (reconcileDelete_preserves (status CronJobReady) (fun _ _ => eq_refl) j) (hwp_conj _ _ _ _
      (reconcileDelete_preserves secretOf (fun _ _ => eq_refl) j) (reconcileDelete_calm j j Hd))))].
    intros t r _ (D1 & D2 & D3 & D4). split_and!; [done| |apply calm_rotationSafe; [by intros _|done]].
    intros Hint. left. apply (notYet_eq _ _ _ D2), Hun; done.
  - eapply hwp_mono; [|exact (hwp_conj _ _ _ _ (reconcileExternal_preserves _ ident_observer j) (hwp_conj _ _ _ _
      (reconcileExternal_preserves _ secretOf_observer j) (reconcileExternal_calm j j)))].
    intros t r _ (D1 & D2 & D3). split_and!; [done| |apply calm_rotationSafe; [by intros _|done]]. rewrite Ec. congruence.
  - eapply hwp_mono; [|refine (hwp_conj _ _ _ _ (reconcileNormal_preserves _ ident_observer fuel (fun _ _ => eq_refl) j)
      (reconcileNormal_hwp fuel j _ _)); apply Hun; [congruence|done|congruence|done]].
    intros t r _ (D1 & D2 & D3). split_and!; [done|by intros _|done].
Qed.

(** C1. Readiness is truthful: when a reconcile of a deployed Keystone ends by
    patching the object as Ready, then in that very reconcile the password
    secret was verified, the database was there, the transport URL had a secret
    that is held, memcached was ready and held, the configuration with that
    transport URL was written, the db-sync and bootstrap jobs were done, and
    the deployment, applied with the hash of these inputs, was ready with
    exactly this hash, and the cron job was applied. *)
Theorem Reconcile_ready_truthful fuel namespace name t o perr r
    (Hh : honest t)
    (Hr : runs (Reconcile fuel namespace name) (t ++ [Ev (PatchKeystoneAPI o) perr]) (inr r))
    (Hint : ka_ExternalKeystoneAPI (core o) = false)
    (Hready : condIsTrue ReadyCondition (kas_Conditions (ka_status o)) = true) :
  exists i p, Ev (GetKeystoneAPICR namespace name) (inr i) ∈ t /\ complete i p t.
Proof.
  unfold Reconcile in Hr. runs_norm Hr. destruct Hr as (g & t1 & Ht & Hr).
  destruct g as [e|i]; runs_norm Hr.
  { destruct Hr as [-> _]. destruct t as [|? [|??]]; discriminate. }
  destruct Hr as (h & t2 & -> & Hr). destruct h as [e|]; runs_norm Hr.
  { destruct Hr as [-> _]. destruct t as [|? [|? [|??]]]; discriminate. }
  apply runs_bind in Hr as (tb & tf & [j out] & -> & Hb & Hr). cbn beta iota in Hr.
  assert (exists rb, runs (finish (Some (default [] (kas_Conditions (ka_status i)))) j rb ≫= fun r => mret (inr r)) tf (inr r : exit + ret))
    as [rb Hf] by (destruct out as [[rb| |]|rb]; [by exists rb|by destruct Hr as [_ [=]]..|by exists rb]). clear Hr.
  unfold finish in Hf. runs_norm Hf. destruct Hf as (x & t3 & -> & -> & _).
  rewrite !app_comm_cons in Ht. apply app_inj_tail in Ht as [-> Ho].
  set (o' := withCond _ j) in Ho. assert (o = o') as -> by (by injection Ho). clear Ho. subst o'.
  assert (honest tb) as Hhb by (by do 2 apply Forall_inv_tail in Hh).
  destruct (hwp_runs _ _ _ _ _ (reconcileBody_sound fuel i) Hb Hhb) as (Hid & Hs & _). cbn [fst] in *.
  destruct (ident_eq _ _ Hid) as (_ & _ & Ec).
  assert (condAllSubConditionIsTrue (kas_Conditions (ka_status j)) = true) as Hall.
  { rewrite <- summarizeReady_Ready, condIsTrue_spec. rewrite condIsTrue_spec in Hready.
    unfold withCond in Hready. cbn [kas_Conditions kas_setConditions ka_status ka_setStatus] in Hready.
    by rewrite Restore_status in Hready. }
  destruct Hs as [Hn|[Hn|[p Hp]]]; [rewrite <- Ec; exact Hint|by apply allTrue_notYet in Hn|by apply allTrue_notYet in Hn|].
  exists i, p. split; [left|]. eapply complete_sub; [|exact Hp]. intros ev Hev. by do 2 right.
Qed.

(** What comes before the body of a reconcile calls for nothing. *)
Lemma Reconcile_event K fuel namespace name t out :
  runs (Reconcile fuel namespace name) t out ->
  (forall X c, K X c = true -> match c with GetKeystoneAPICR _ _ | NewHelper | PatchKeystoneAPI _ => False | _ => True end) ->
  never K t \/ exists i tb jo tf,
    t = Ev (GetKeystoneAPICR namespace name) (inr i) :: Ev NewHelper None :: tb ++ tf /\
    runs (reconcileBody fuel i) tb jo /\ never K tf.
Proof.
  intros Hr HK.
  assert (forall X (c : Call X) x, match c with GetKeystoneAPICR _ _ | NewHelper | PatchKeystoneAPI _ => True | _ => False end ->
    evIs K (Ev c x) = false) as Hno.
  { intros X c x Hc. cbn. destruct (K X c) eqn:Hk; [|done]. apply HK in Hk. by destruct c. }
  unfold Reconcile in Hr. runs_norm Hr. destruct Hr as (g & t1 & -> & Hr).
  destruct g as [e|i]; runs_norm Hr; [destruct Hr as [-> _]; left; by repeat constructor; apply Hno|].
  destruct Hr as (h & t2 & -> & Hr). destruct h as [e|]; runs_norm Hr; [destruct Hr as [-> _]; left; by repeat constructor;
    apply Hno|].
  apply runs_bind in Hr as (tb & tf & [j o] & -> & Hb & Hr). right. exists i, tb, (j, o), tf. split_and!; [done|done|].
  cbn beta iota in Hr. destruct o as [[rb| |]|rb]; [|by destruct Hr as [-> _]; apply Forall_nil..|].
  all: unfold finish in Hr; runs_norm Hr; destruct Hr as (x & t3 & -> & -> & _); repeat constructor; by apply Hno.
Qed.

(** An event of a kind that only a body has, in the body. *)
Lemma Reconcile_body_event K fuel namespace name t out t1 ev t2 :
  runs (Reconcile fuel namespace name) t out ->
  (forall X c, K X c = true -> match c with GetKeystoneAPICR _ _ | NewHelper | PatchKeystoneAPI _ => False | _ => True end) ->
  t = t1 ++ ev :: t2 -> evIs K ev = true -> honest t ->
  exists i tb jo u v, runs (reconcileBody fuel i) tb jo /\ honest tb /\ tb = u ++ ev :: v /\
    Ev (GetKeystoneAPICR namespace name) (inr i) ∈ t1 /\ u ⊆ t1.
Proof.
  intros Hr HK Ht Hev Hh.
  destruct (Reconcile_event K _ _ _ _ _ Hr HK) as [Hn|(i & tb & jo & tf & Heq & Hb & Hn)].
  { subst t. apply Forall_app in Hn as [_ [Hn _]%Forall_cons]. by pose proof (eq_trans (eq_sym Hn) Hev). }
  rewrite Heq in Ht, Hh. do 2 apply Forall_inv_tail in Hh. apply Forall_app in Hh as [Hhb _].
  assert (forall X (c : Call X) x, match c with GetKeystoneAPICR _ _ | NewHelper => True | _ => False end ->
    Ev c x <> ev) as Hne.
  { intros X c x Hc <-. cbn in Hev. apply HK in Hev. by destruct c. }
  destruct t1 as [|e1 [|e2 t1]]; [injection Ht as Ht _; by apply Hne in Ht|injection Ht as _ Ht _; by apply Hne in Ht|].
  injection Ht as <- <- Ht.
  assert (exists v, tb = t1 ++ ev :: v) as [v Htb].
  { clear -Ht Hn Hev. revert t1 Ht; induction tb as [|e tb IH]; intros t1 Ht.
    - cbn in Ht. subst tf. apply Forall_app in Hn as [_ [Hn _]%Forall_cons]. by pose proof (eq_trans (eq_sym Hn) Hev).
    - destruct t1 as [|e' t1]; injection Ht as <- Ht; [by exists tb|]. destruct (IH t1 Ht) as [v ->]. by exists v. }
  exists i, tb, jo, t1, v. split_and!; [done|done|done|left|]. intros x Hx. by do 2 right.
Qed.

(** C5. A transport secret in use is never released early.  Whatever in a
    reconcile lets go of the secret in the status, or forgets it - finalizing
    the rotation with its guard up, pruning the finalizers of all secrets but
    some others, removing the finalizer outside a deletion, or patching the
    object with another secret in its status -, that same reconcile has before
    verified all inputs, written the configuration with the NEW secret's URL,
    run both jobs, and seen the deployment ready with the hash of that
    configuration: the rotation goes from the status' secret to the new one,
    the new one keeps its finalizer, and the secret that the status comes to
    name is the answer of the finalization.  A finalizer is not removed outside
    a deletion at all.  Assumed of lib-common is what the comments say of it:
    an unguarded finalization stays with the old secret. *)
Theorem rotation_after_rollout fuel namespace name i t out t1 ev t2
    (Hh : honest t)
    (Hg : guarded t)
    (Hr : runs (Reconcile fuel namespace name) (Ev (GetKeystoneAPICR namespace name) (inr i) :: t) out)
    (Ht : t = t1 ++ ev :: t2)
    (Hev : releases i ev) :
  exists p, complete i p t1 /\ supersedes i p t1 ev.
Proof.
  unfold Reconcile in Hr. runs_norm Hr. destruct Hr as (g & t' & Hget & Hr).
  assert (t' = t) as -> by congruence. apply (f_equal head), (inj Some), Ev_inj in Hget as <-.
  runs_norm Hr. destruct Hr as (h & t' & -> & Hr).
  destruct t1 as [|e1 t1]; injection Ht as <- Ht; [done|]. apply Forall_inv_tail in Hh, Hg.
  destruct h as [e|]; runs_norm Hr; [destruct Hr as [-> _]; by destruct t1|].
  apply runs_bind in Hr as (tb & tf & [j o] & -> & Hb & Hr).
  apply Forall_app in Hh as [Hhb _]. apply Forall_app in Hg as [Hgb _].
  destruct (hwp_runs _ _ _ _ _ (reconcileBody_sound fuel i) Hb Hhb) as (_ & _ & Hsafe).
  assert (exists o' perr v, secretOf o' = secretOf j /\ tb ++ [Ev (PatchKeystoneAPI o') perr] = t1 ++ ev :: v) as
    (o' & perr & v & Ho & Heq).
  { cbn beta iota in Hr. destruct o as [[rb| |]|rb];
      [|destruct Hr as [-> _]; rewrite app_nil_r in Ht; exists j, None, (t2 ++ [Ev (PatchKeystoneAPI j) None]);
        rewrite Ht; by rewrite <- app_assoc..|].
    all: unfold finish in Hr; runs_norm Hr; destruct Hr as (x & t3 & -> & -> & _); eexists _, x, t2; (split; [|exact Ht]);
      reflexivity. }
  destruct (Hsafe Hgb _ _ _ _ _ Ho Heq Hev) as (p & Hp & Hsup). exists p.
  split; [eapply complete_sub; [|exact Hp]; by right|]. destruct ev as [X c x]. destruct c; try done; cbn in *.
  destruct Hsup as (n & fin & Hin). exists n, fin. by right.
Qed.

(** A deployment carries the hash of the prepared inputs. *)
Definition carries (h : string) (X : Type) (c : Call X) : Prop :=
  match c with
  | CreateOrPatchDeployment d _ => ct_Env (ps_Container (dp_Pod d)) = MergeEnvs [] {[ "CONFIG_HASH" := h ]}
  | _ => True
  end.
Definition deploysPrepared i t : Prop :=
  forall t1 d to x t2, t = t1 ++ Ev (CreateOrPatchDeployment d to) x :: t2 ->
    exists p, prepared i p t1 /\ carries (pr_InputHash p) _ (CreateOrPatchDeployment d to).

Lemma deploymentStep_carries p topo : emitsM (carries (pr_InputHash p)) (deploymentStep p topo).
Proof. unfold deploymentStep. emitsM_go. by eapply Deployment_env. Qed.
#[local] Hint Resolve deploymentStep_carries : emits.
Lemma rollout_carries p :
  emitsM (carries (pr_InputHash p)) (rollout p;; rotateTransportSecret (pr_TransportSecret p);; mret done_).
Proof.
  unfold rollout, topologyStep, networkStep, readyStep, releaseUnusedAccounts, cronJobStep, reconcileCloudConfig,
    rotateTransportSecret. emitsM_go; exact I.
Qed.

Lemma never_deploysPrepared i t : never isDeployment t -> deploysPrepared i t.
Proof. intros Hn t1 d to x t2 ->. apply Forall_app in Hn as [_ [Hn _]%Forall_cons]. done. Qed.

Lemma reconcileNormal_deploys fuel i : hwp (reconcileNormal fuel) i (fun t _ => deploysPrepared i t).
Proof.
  unfold reconcileNormal. apply hwp_bind. eapply hwp_mono; [|exact (prepare_hwp fuel i CronJobReady eq_refl)].
  intros ta [i1 [e|p]] _ (_ & Hn & F1); cbn [fst snd] in *; apply isDeployment_late in Hn; [by apply never_deploysPrepared|].
  destruct (F1 p eq_refl) as [_ P1]. apply wp_runs. intros tb r Hr _.
  eapply emits_runs in Hr; [|apply rollout_carries]. intros t1 d to x t2 Heq.
  destruct (event_after (fun ev => evIs isDeployment ev = true) _ _ _ _ _ Heq) as (u & -> & ->);
    [eapply Forall_impl; [exact Hn|]; intros ev Hev; by rewrite Hev|done|].
  exists p. split; [eapply prepared_sub; [|exact P1]; sub_go|]. by apply Forall_app in Hr as [_ [Hr _]%Forall_cons].
Qed.

Lemma deploysPrepared_ident i j t : ident i = ident j -> deploysPrepared i t -> deploysPrepared j t.
Proof.
  intros Hid Hd t1 d to x t2 Heq. destruct (Hd _ _ _ _ _ Heq) as (p & Hp & Hc). exists p. split; [|done].
  by eapply prepared_ident.
Qed.

Lemma reconcileBody_deploys fuel i : hwp (reconcileBody fuel) i (fun t _ => deploysPrepared i t).
Proof.
  unfold reconcileBody. do 3 (apply hwp_bind; intros _; cbn [fst snd app]).
  destruct (if notDeleting (ka_meta i) then _ else _) as [fs added]. apply hwp_bind. intros _. cbn [fst snd app].
  set (j := ka_setFinalizers fs _). assert (ident j = ident i) as Hj by done. clearbody j.
  eapply (hwp_mono _ _ (fun t _ => deploysPrepared j t)); [intros t r _; by apply deploysPrepared_ident|].
  destruct (added || _); [intros _; by apply never_deploysPrepared, Forall_nil|].
  destruct (negb _); [|destruct (ka_ExternalKeystoneAPI _); [|apply reconcileNormal_deploys]].
  all: eapply hwp_mono; [|eapply emitsM_hwp; first [apply (emitsM_weaken isLateCall _ _ late_delete), api_reconcileDelete_avoids
    |apply (emitsM_weaken _ _ _ reserved_late), api_reconcileExternal_avoids]].
  all: intros t r _ Hn; by apply never_deploysPrepared, isDeployment_late.
Qed.

(** C6. Nothing is deployed before its inputs: whenever a reconcile creates
    or patches the deployment, all of the preparation (the secret, the
    database, the transport URL and its secret, memcached, the configuration,
    the db-sync and the bootstrap job) has succeeded before in the same
    reconcile, and the pods carry the hash of exactly what was read and
    written then: the password secret, this configuration, the key secret if
    it was just created, the federation secrets, the CA bundle and the
    certificates, in this order; another input replaces the pods. *)
Theorem deployment_after_inputs fuel namespace name t out t1 d to x t2
    (Hh : honest t)
    (Hr : runs (Reconcile fuel namespace name) t out)
    (Ht : t = t1 ++ Ev (CreateOrPatchDeployment d to) x :: t2) :
  exists i p, Ev (GetKeystoneAPICR namespace name) (inr i) ∈ t1 /\ prepared i p t1 /\
    ct_Env (ps_Container (dp_Pod d)) = MergeEnvs [] {[ "CONFIG_HASH" := pr_InputHash p ]}.
Proof.
  destruct (Reconcile_body_event isDeployment _ _ _ _ _ _ _ _ Hr ltac:(by intros X []) Ht eq_refl Hh)
    as (i & tb & jo & u & v & Hb & Hhb & -> & Hi & Hu).
  destruct (hwp_runs _ _ _ _ _ (reconcileBody_deploys fuel i) Hb Hhb _ _ _ _ _ eq_refl) as (p & Hp & Hc).
  exists i, p. split_and!; [done|by eapply prepared_sub|exact Hc].
Qed.
End normal.

(** ** Deletion *)

Section deletion.
Context `{CLaws : ConditionLaws} `{FLaws : FinalizerLaws} `{XL : ExternalLib} `{PL : PodLib} `{KLaws : ControllerLaws}.
Implicit Types (i : KeystoneAPI) (t : trace).

(** The objects this Keystone held, and that it does not hold any more. *)
Definition memcachedReleased i t : Prop :=
  (exists e, Ev (GetMemcachedByName (ns i) (ka_MemcachedInstance (core i))) (inl e) ∈ t /\ IsNotFound e = true) \/
  exists mc, Ev (GetMemcachedByName (ns i) (ka_MemcachedInstance (core i))) (inr mc) ∈ t /\
    (apiFinalizer ∉ Finalizers (mc_meta mc) \/
     exists mc', Ev (UpdateMemcached mc') None ∈ t /\ Name (mc_meta mc') = Name (mc_meta mc) /\
       apiFinalizer ∉ Finalizers (mc_meta mc')).
Definition dbReleased i t : Prop :=
  (exists e, Ev (GetDatabaseByNameAndAccount DatabaseCRName (ka_DatabaseAccount (core i)) (ns i)) (inl e) ∈ t /\ IsNotFound e = true) \/
  exists db, Ev (GetDatabaseByNameAndAccount DatabaseCRName (ka_DatabaseAccount (core i)) (ns i)) (inr db) ∈ t /\
    Ev (DeleteDBFinalizer db) None ∈ t.
Definition secretReleased i (s : string) t : Prop :=
  Ev (RemoveSecretConsumerFinalizer (ns i) s TransportConsumerFinalizer) None ∈ t.
Definition transportReleased i t : Prop :=
  secretReleased i (kas_TransportURLSecret (ka_status i)) t /\
  ((exists e, Ev (GetTransportURL (ns i) (transportURLName i)) (inl e) ∈ t /\ IsNotFound e = true) \/
   exists tu, Ev (GetTransportURL (ns i) (transportURLName i)) (inr tu) ∈ t /\
     (tu_SecretName tu = "" \/ secretReleased i (tu_SecretName tu) t)).
Definition topologyReleased i t : Prop :=
  exists r, Ev (EnsureDeletedTopologyRef (kas_LastAppliedTopology (ka_status i)) (Name (ka_meta i))) (r, None) ∈ t.

Lemma releaseTopology_yields i j : yields (releaseTopology i) j (fun t _ j1 => j1 = j /\ topologyReleased i t).
Proof. unfold releaseTopology. yields_go. split; [done|]. eexists. in_list. Qed.

Lemma yields_failIf_last err j (G : trace -> unit -> KeystoneAPI -> Prop) :
  (err = None -> G [] tt j) -> yields (failIf err) j G.
Proof. destruct err; intros HG; [apply yields_leave|by apply yields_ret, HG]. Qed.

Lemma releaseMemcached_yields i j : yields (releaseMemcached i) j (fun t _ j1 => j1 = j /\ memcachedReleased i t).
Proof.
  unfold releaseMemcached. apply yields_call. intros [e|mc]; cbn beta iota.
  - destruct (IsNotFound e) eqn:He; [|apply yields_leave]. apply yields_ret. split; [done|]. left. exists e. split; [left|done].
  - pose proof (RemoveFinalizer_elem apiFinalizer (Finalizers (mc_meta mc)) apiFinalizer) as Hel.
    pose proof (RemoveFinalizer_flag apiFinalizer (Finalizers (mc_meta mc))) as Hfl.
    destruct (RemoveFinalizer _ _) as [fs []]; cbn [fst snd] in *.
    + apply yields_call. intros err. apply yields_failIf_last. intros ->. split; [done|]. right. exists mc. split; [left|].
      right.
      eexists. split; [in_list|]. split; [done|]. cbn. rewrite Hel. by intros [].
    + apply yields_ret. split; [done|]. right. exists mc. split; [left|]. left. symmetry in Hfl.
      by apply bool_decide_eq_false_1 in Hfl.
Qed.

Lemma releaseDB_yields i j : yields (releaseDB i) j (fun t _ j1 => j1 = j /\ dbReleased i t).
Proof.
  unfold releaseDB. apply yields_call. intros [e|db]; cbn beta iota.
  - destruct (IsNotFound e) eqn:He; [|apply yields_leave]. apply yields_ret. split; [done|]. left. exists e. split; [left|done].
  - apply yields_call. intros err. apply yields_failIf_last. intros ->. split; [done|]. right. exists db. split; in_list.
Qed.

Lemma releaseTransport_yields i j : yields (releaseTransport i) j (fun t _ j1 => j1 = j /\ transportReleased i t).
Proof.
  unfold releaseTransport. apply yields_call. intros err. apply yields_failIf. intros ->. apply yields_call.
  intros [e|tu]; cbn beta iota.
  - destruct (IsNotFound e) eqn:He; [|apply yields_leave]. apply yields_ret. split; [done|].
    split; [in_list|]. left. exists e. split; [in_list|done].
  - destruct (decide _) as [[Hne Hdiff]|Hn].
    + apply yields_call. intros err. apply yields_failIf_last. intros ->. split; [done|]. split; [in_list|]. right. exists tu.
      split; [in_list|]. right. in_list.
    + apply yields_ret. split; [done|]. split; [in_list|]. right. exists tu. split; [in_list|].
      destruct (decide (tu_SecretName tu = "")); [by left|right].
      destruct (decide (tu_SecretName tu = kas_TransportURLSecret (ka_status i))) as [->|?]; [in_list|]. by destruct Hn.
Qed.

(** A step that leaves the instance alone, on the way to a claim that is easy
    when it does not go on. *)
Lemma release_step {A B} (m : M A) (f : A -> M B) j F (Q : trace -> KeystoneAPI * (exit + B) -> Prop) :
  preserves (fun i => i) m -> yields m j F -> (forall t e, Q t (j, inl e)) ->
  (forall t1 a, F t1 a j -> hwp (f a) j (fun t2 r => Q (t1 ++ t2) r)) -> hwp (m ≫= f) j Q.
Proof.
  intros Hp Hy He Hf. apply hwp_bind. eapply hwp_mono; [|exact (hwp_conj _ _ _ _ Hy (Hp j))].
  intros t1 [j1 [e|a]] _ [F1 E1]; cbn [fst snd] in *; subst j1; [done|]. apply Hf, F1. done.
Qed.
Ltac keep := preserves_go; apply preserves_failIf.

Lemma topologyReleased_sub i t t' : t ⊆ t' -> topologyReleased i t -> topologyReleased i t'.
Proof. intros Hs [r ?]. exists r. by apply Hs. Qed.
Lemma memcachedReleased_sub i t t' : t ⊆ t' -> memcachedReleased i t -> memcachedReleased i t'.
Proof.
  intros Hs [(e & ? & ?)|(mc & ? & Hf)]; [left; exists e; split; [by apply Hs|done]|right]. exists mc. split; [by apply Hs|].
  destruct Hf as [?|(mc' & ? & ? & ?)]; [by left|right]. exists mc'. split; [by apply Hs|done].
Qed.
Lemma dbReleased_sub i t t' : t ⊆ t' -> dbReleased i t -> dbReleased i t'.
Proof.
  intros Hs [(e & ? & ?)|(db & ? & ?)]; [left; exists e; split; [by apply Hs|done]|right]. exists db. split; by apply Hs.
Qed.
Lemma transportReleased_sub i t t' : t ⊆ t' -> transportReleased i t -> transportReleased i t'.
Proof.
  unfold transportReleased, secretReleased. intros Hs (? & Hf). split; [by apply Hs|].
  destruct Hf as [(e & ? & ?)|(tu & ? & Hf)]; [left; exists e; split; [by apply Hs|done]|right]. exists tu.
  split; [by apply Hs|].
  destruct Hf as [?|?]; [by left|right]. by apply Hs.
Qed.

Definition deleted i t (r : KeystoneAPI * (exit + ret)) : Prop :=
  match r.2 with
  | inr res => res = done_ /\ r.1 = ka_setFinalizers (RemoveFinalizer apiFinalizer (Finalizers (ka_meta i))).1 i /\
      topologyReleased i t /\ memcachedReleased i t /\ dbReleased i t /\ transportReleased i t
  | inl e => r.1 = i
  end.
Lemma release_hwp i :
  hwp (releaseTopology i;; releaseMemcached i;; releaseDB i;; releaseTransport i;; dropFinalizer;; mret done_) i (deleted i).
Proof.
  eapply release_step; [unfold releaseTopology; preserves_go|apply releaseTopology_yields|done|]. intros t1 [] [_ R1].
  eapply release_step; [unfold releaseMemcached; keep|apply releaseMemcached_yields|done|]. intros t2 [] [_ R2].
  eapply release_step; [unfold releaseDB; keep|apply releaseDB_yields|done|]. intros t3 [] [_ R3].
  eapply release_step; [unfold releaseTransport; keep|apply releaseTransport_yields|done|]. intros t4 [] [_ R4].
  apply hwp_bind. intros _ _. unfold deleted. cbn [fst snd]. split_and!; [done|done|..].
  - eapply topologyReleased_sub; [|exact R1]. sub_go.
  - eapply memcachedReleased_sub; [|exact R2]. sub_go.
  - eapply dbReleased_sub; [|exact R3]. sub_go.
  - eapply transportReleased_sub; [|exact R4]. sub_go.
Qed.

Definition isRbac (X : Type) (c : Call X) : bool := match c with ReconcileRbac _ _ _ => true | _ => false end.
Lemma never_rbac_honest t : never isRbac t -> honest t.
Proof. intros Hn. eapply Forall_impl; [exact Hn|]. intros [X c x]. by destruct c. Qed.
Lemma reconcileDelete_no_rbac : emitsM (fun X e => isRbac X e = false) reconcileDelete.
Proof.
  unfold reconcileDelete, releaseTopology, releaseMemcached, releaseDB, releaseTransport, dropFinalizer. emitsM_go.
Qed.

End deletion.

(** ** An external Keystone *)

Definition urlOf (overrides : gmap string RoutedOverrideSpec) (ty : string) : string :=
  default "" (overrides !! ty ≫= ro_EndpointURL).

Lemma externalURLs_found types ov found res :
  externalURLs types ov found = inr res ->
  eu_Public res = (if decide (EndpointPublic ∈ types) then Some (urlOf ov EndpointPublic) else eu_Public found) /\
  eu_Internal res = (if decide (EndpointInternal ∈ types) then Some (urlOf ov EndpointInternal) else eu_Internal found) /\
  forall ty, ty = EndpointPublic \/ ty = EndpointInternal -> ty ∈ types -> urlOf ov ty <> "".
Proof.
  revert found; induction types as [|ty types IH]; intros found; cbn [externalURLs].
  { intros [= ->]. rewrite !decide_False by apply not_elem_of_nil. split_and!; [done..|]. by intros ty _ ?%not_elem_of_nil. }
  fold (urlOf ov ty). intros H. assert (exists found', externalURLs types ov found' = inr res /\
    eu_Public found' = (if decide (ty = EndpointPublic) then Some (urlOf ov ty) else eu_Public found) /\
    eu_Internal found' = (if decide (ty = EndpointInternal) then Some (urlOf ov ty) else eu_Internal found) /\
    (ty = EndpointPublic \/ ty = EndpointInternal -> urlOf ov ty <> "")) as (found' & Hr & H1 & H2 & H3).
  { repeat case_decide; subst; try done; eexists; (split; [exact H|]); split_and!; try done; tauto. }
  clear H. destruct (IH _ Hr) as (E1 & E2 & E3). rewrite E1, E2, H1, H2. split_and!.
  - repeat case_decide; subst; set_solver.
  - repeat case_decide; subst; set_solver.
  - intros ty' Hty [->|Hin]%elem_of_cons; [by apply H3|by apply E3].
Qed.

Lemma externalURLs_total types ov found :
  (forall ty, ty = EndpointPublic \/ ty = EndpointInternal -> ty ∈ types -> urlOf ov ty <> "") ->
  exists res, externalURLs types ov found = inr res.
Proof.
  revert found; induction types as [|ty types IH]; intros found Hne; cbn [externalURLs]; [by eexists|].
  fold (urlOf ov ty). assert (forall f, exists res, externalURLs types ov f = inr res) as Hrec.
  { intros f. apply IH. intros ty' Hty Hin. apply Hne; [done|by right]. }
  repeat case_decide; subst; try apply Hrec; exfalso.
  - eapply (Hne EndpointPublic); [by left|left|done].
  - eapply (Hne EndpointInternal); [by right|left|done].
Qed.

Section external.
Context `{CLaws : ConditionLaws} `{FLaws : FinalizerLaws} `{XL : ExternalLib} `{PL : PodLib} `{KLaws : ControllerLaws}.
Implicit Types (i : KeystoneAPI) (t : trace).

(** Reads and writes of secrets and config maps; nothing that deploys. *)
Definition isConfiguration (X : Type) (c : Call X) : bool :=
  match c with
  | VerifySecretFields _ _ _ _ | ValidateCACertSecret _ _ | EnsureConfigMap _ _ _ _ | GetSecret _ _
  | EnsureSecret _ _ _ _ _ => true
  | _ => false
  end.

(** The client configuration: clouds.yaml for the public endpoint, and the
    admin's password in secure.yaml and cloudrc. *)
Definition cloudWritten i (authURL : string) t : Prop :=
  exists yaml secret syaml h,
    YamlConfig (cloudConfig i authURL) = inr yaml /\
    Ev (EnsureConfigMap (ns i) "openstack-config" (<["clouds.yaml" := yaml]> {[ "OS_CLOUD" := "default" ]}) (cmLabels i)) None ∈ t /\
    Ev (GetSecret (ns i) (ka_Secret (core i))) (inr secret) ∈ t /\
    YamlConfigSecret (cloudSecret i secret) = inr syaml /\
    Ev (EnsureSecret (ns i) "openstack-config-secret"
          (<["secure.yaml" := syaml]> {[ "cloudrc" := GenerateCloudrc (cloudSecret i secret) (cloudConfig i authURL) ]})
          (cmLabels i) ∅) (inr h) ∈ t.

Lemma reconcileCloudConfig_writes i :
  wp (reconcileCloudConfig i) (fun t err => err = None ->
    exists url, GetEndpoint i EndpointPublic = inr url /\ cloudWritten i url t).
Proof.
  unfold reconcileCloudConfig. destruct (GetEndpoint i EndpointPublic) as [e|url]; wp_norm; [done|].
  destruct (YamlConfig _) as [e|y] eqn:Hy; wp_norm; [done|]. intros [e|]; wp_norm; [done|]. intros [e|sec]; wp_norm; [done|].
  destruct (YamlConfigSecret _) as [e|sy] eqn:Hsy; wp_norm; [done|]. intros [e|h]; wp_norm; [done|]. intros _.
  exists url. split; [done|]. exists y, sec, sy, h. split_and!; [done|in_list|in_list|done|in_list].
Qed.

Lemma requireExternalURLs_yields i :
  yields requireExternalURLs i (fun t urls i1 => i1 = i /\ t = [] /\
    urls = (urlOf (ka_OverrideService (core i)) EndpointPublic, urlOf (ka_OverrideService (core i)) EndpointInternal) /\
    urls.1 <> "" /\ urls.2 <> "").
Proof.
  unfold requireExternalURLs. apply yields_get. case_decide; [apply yields_warnCond|].
  set (ov := ka_OverrideService (core i)). destruct (externalURLs _ _ _) as [m|[p n]] eqn:Hext; [apply yields_warnCond|].
  destruct (externalURLs_found _ _ _ _ Hext) as (E1 & E2 & E3). cbn in E1, E2.
  destruct p as [p|]; [|apply yields_warnCond]. destruct n as [n|]; [|apply yields_warnCond]. apply yields_ret.
  destruct (decide (EndpointPublic ∈ _)); [|done]. destruct (decide (EndpointInternal ∈ _)); [|done].
  injection E1 as ->. injection E2 as ->. split_and!; [done..|apply E3; [by left|done]|apply E3; [by right|done]].
Qed.

Lemma requireExternalURLs_total i :
  urlOf (ka_OverrideService (core i)) EndpointPublic <> "" -> urlOf (ka_OverrideService (core i)) EndpointInternal <> "" ->
  requireExternalURLs i = mret (i, inr (urlOf (ka_OverrideService (core i)) EndpointPublic,
                                        urlOf (ka_OverrideService (core i)) EndpointInternal)).
Proof.
  intros Hp Hn. unfold requireExternalURLs, get. unfold mbind at 1, M_bind. cbn [mbind prog_bind mret prog_ret fst snd].
  set (ov := ka_OverrideService (core i)) in *.
  assert (forall ty, urlOf ov ty <> "" -> ty ∈ sortedKeys ov) as Hin.
  { intros ty Hty. apply elem_of_sortedKeys. unfold urlOf in Hty. destruct (ov !! ty) as [o|]; [by exists o|done]. }
  rewrite decide_False by (intros He; unfold urlOf in Hp; rewrite He, lookup_empty in Hp; done).
  destruct (externalURLs_total (sortedKeys ov) ov (mkExternalURLs None None)) as [[p n] Hext].
  { intros ty [-> | ->] _; done. }
  rewrite Hext. destruct (externalURLs_found _ _ _ _ Hext) as (E1 & E2 & _). cbn in E1, E2.
  rewrite decide_True in E1 by (by apply Hin). rewrite decide_True in E2 by (by apply Hin). subst p n. reflexivity.
Qed.

Lemma reconcileExternal_configuration : emitsM (fun X e => isConfiguration X e = true) reconcileExternalKeystoneAPI.
Proof.
  unfold reconcileExternalKeystoneAPI, requireExternalURLs, verifySecret, requireTLSInput, verifyTLSInput, reconcileCloudConfig.
  emitsM_go.
Qed.

(** What a reconcile of an external Keystone leaves in the status. *)
Definition external i i' : Prop :=
  let ov := ka_OverrideService (core i) in
  urlOf ov EndpointPublic <> "" /\ urlOf ov EndpointInternal <> "" /\
  GetEndpoint i' EndpointPublic = inr (urlOf ov EndpointPublic) /\
  GetEndpoint i' EndpointInternal = inr (urlOf ov EndpointInternal) /\
  GetRegion i' = ka_Region (core i) /\ kas_ReadyCount (ka_status i') = 0 /\
  status InputReady i' = Some ConditionTrue /\ status TLSInputReady i' = Some ConditionTrue.

(** The status besides the TLS condition. *)
Definition published i := (ident i, kas_APIEndpoints (ka_status i), kas_Region (ka_status i), kas_ReadyCount (ka_status i),
  status InputReady i).
Lemma requireTLSInput_published vars : preserves published (requireTLSInput vars).
Proof.
  assert (forall r s m a, preserves published (setFalse TLSInputReady r s m a)) as Hf.
  { intros. apply preserves_modify. intros i. unfold published. by rewrite status_setFalse, decide_False. }
  unfold requireTLSInput, verifyTLSInput. preserves_go; apply Hf.
Qed.

Lemma reconcileExternal_yields i :
  yields reconcileExternalKeystoneAPI i (fun t r i' => r = done_ /\ external i i' /\ secretVerified i t /\
    cloudWritten i (urlOf (ka_OverrideService (core i)) EndpointPublic) t).
Proof.
  unfold reconcileExternalKeystoneAPI. yields_use verifySecret_writes.
  intros t1 vars i1 [E1 (e1 & F1%secretEntry_verified & _)].
  yields_use requireExternalURLs_yields. intros t2 urls i2 (-> & -> & -> & Hp & Hn). cbn beta iota. cbn [fst snd] in Hp, Hn.
  destruct (ident_eq _ _ E1) as (_ & Ens & Ec). rewrite Ec in *.
  apply yields_modify, yields_get, yields_modify, yields_modify, yields_modify. cbn beta.
  set (j := ka_setStatus (kas_setReadyCount 0 _) _).
  assert (status InputReady j = Some ConditionTrue) as Hj.
  { unfold j. transitivity (status InputReady (withCond (condMarkTrue (condName InputReady) (msg "InputReadyMessage") []) i1));
      [done|]. by rewrite status_markTrue, decide_True. }
  assert (published j = (ident i1, <[EndpointInternal := urlOf (ka_OverrideService (core i)) EndpointInternal]>
    (<[EndpointPublic := urlOf (ka_OverrideService (core i)) EndpointPublic]> (kas_APIEndpoints (ka_status i1))),
    ka_Region (core i1), 0, Some ConditionTrue)) as Hpub by (unfold published; by rewrite Hj).
  clearbody j. yields_use (preserves_yields published _ j (requireTLSInput_published vars)). intros t3 vars' i3 E3.
  rewrite Hpub in E3. injection E3 as Enm Ensp Esp Eeps Ereg Erc Ein.
  assert (ident i3 = ident i1) as Eid by (unfold ident; by rewrite Enm, Ensp, Esp).
  apply yields_modify, yields_get. eapply yields_bind; [apply lift_yields, reconcileCloudConfig_writes|].
  intros t4 err i4 [-> F4]. apply yields_failIf. intros ->. apply yields_ret.
  destruct (F4 eq_refl) as (url & Hurl & Hcl). split; [done|].
  set (k := withCond _ i3) in *.
  assert (kas_APIEndpoints (ka_status k) = kas_APIEndpoints (ka_status i3)) as Ek by done.
  assert (ident k = ident i) as Eik by exact (eq_trans Eid E1).
  assert (status TLSInputReady k = Some ConditionTrue) as Htls by (unfold k; by rewrite status_markTrue, decide_True).
  assert (status InputReady k = Some ConditionTrue) as Hin by (unfold k; by rewrite status_markTrue, decide_False).
  assert (GetRegion k = ka_Region (core i)) as Hreg by (rewrite <- Ec; exact Ereg).
  assert (kas_ReadyCount (ka_status k) = 0) as Hrc by exact Erc.
  clearbody k. unfold GetEndpoint in Hurl. rewrite Ek, Eeps in Hurl.
  rewrite lookup_insert_ne, lookup_insert_eq in Hurl by done. injection Hurl as <-. split_and!.
  - unfold external, GetEndpoint. rewrite Ek, Eeps, lookup_insert_eq. rewrite lookup_insert_ne, lookup_insert_eq by done.
    split_and!; done.
  - eapply secretVerified_sub; [|exact F1]. sub_go.
  - destruct Hcl as (y & sec & sy & h & C1 & C2 & C3 & C4 & C5). destruct (ident_eq _ _ Eik) as (_ & Enk & Eck).
    assert (cmLabels k = cmLabels i) as El by (unfold cmLabels; injection Eik as -> _ _; done).
    exists y, sec, sy, h. unfold cloudConfig, cloudSecret in *. rewrite Enk, Eck, El in *.
    split_and!; [done|sub_in|sub_in|done|sub_in].
Qed.

(** C35. An external Keystone is used, never deployed: its reconcile only
    reads and writes secrets and config maps (no database, queue, cache, job,
    deployment or registration); when it succeeds it publishes the override
    URLs as the endpoints, the region, no replicas and both input conditions
    True, and the client configuration points to the public URL; and when both
    URLs are set (what the webhook enforces) it never stops for an endpoint. *)
Theorem reconcileExternal_configures i t i' out
    (Hr : runs (reconcileExternalKeystoneAPI i) t (i', out)) :
  Forall (fun ev => evIs isConfiguration ev = true) t /\
  (forall r, out = inr r -> r = done_ /\ external i i' /\ secretVerified i t /\
     cloudWritten i (urlOf (ka_OverrideService (core i)) EndpointPublic) t) /\
  (urlOf (ka_OverrideService (core i)) EndpointPublic <> "" -> urlOf (ka_OverrideService (core i)) EndpointInternal <> "" ->
     requireExternalURLs i = mret (i, inr (urlOf (ka_OverrideService (core i)) EndpointPublic,
                                           urlOf (ka_OverrideService (core i)) EndpointInternal))).
Proof.
  pose proof (emits_runs _ _ _ _ (reconcileExternal_configuration i) Hr) as Hcfg.
  split_and!; [|intros r ->|apply requireExternalURLs_total].
  - eapply Forall_impl; [exact Hcfg|]. by intros [X c x].
  - refine (hwp_runs _ _ _ _ _ (reconcileExternal_yields i) Hr _ r eq_refl).
    eapply Forall_impl; [exact Hcfg|]. intros [X c x]. by destruct c.
Qed.
End external.

(** ** Witnesses *)

(** A handler with honest answers has honest exchanges. *)
Lemma exec_honest {A W} (h : forall X, Call X -> W -> X * W) (p : program A) w :
  (forall X c w, honestAnswer c (h X c w).1) -> honest (exec h p w).1.1.
Proof.
  intros Hh. revert w; induction p as [a|X c k IH]; intros w; cbn [exec]; [apply Forall_nil; exact I|].
  pose proof (Hh X c w) as Hc. destruct (h X c w) as [x w1]. specialize (IH x w1).
  destruct (exec h (k x) w1) as [[t a] w2]. apply Forall_cons. by split.
Qed.

Lemma honest_removelast t : honest t -> honest (removelast t).
Proof.
  induction t as [|e t IH]; intros Hh; [done|]. cbn [removelast]. destruct t as [|e' t]; [by apply Forall_nil|].
  apply Forall_cons in Hh as [H1 H2]. apply Forall_cons. split; [done|by apply IH].
Qed.

Lemma last_removelast (t : trace) ev : last t = Some ev -> t = removelast t ++ [ev].
Proof.
  induction t as [|e t IH]; [done|]. cbn [last removelast]. destruct t as [|e' t]; [by intros [= ->]|].
  intros Hl. cbn [app]. f_equal. by apply IH.
Qed.

Lemma apiHandler_honest X (c : Call X) w : honestAnswer c (apiHandler X c w).1.
Proof. destruct c; try exact I. repeat constructor; vm_compute; repeat (left || right). Qed.

Lemma demoReconcile_honest : honest demoReconcileTrace.
Proof. apply exec_honest, apiHandler_honest. Qed.

Definition patched (t : trace) : KeystoneAPI :=
  match last t with
  | Some (Ev c _) => match c with PatchKeystoneAPI o => o | _ => demoAPI end
  | None => demoAPI
  end.

Lemma demoReconcile_patches :
  last demoReconcileTrace = Some (Ev (PatchKeystoneAPI (patched demoReconcileTrace)) None).
Proof. vm_compute. reflexivity. Qed.

Lemma Reconcile_ready_truthful_witness :
  exists i p, Ev (GetKeystoneAPICR "openstack" "keystone") (inr i) ∈ removelast demoReconcileTrace /\
    complete i p (removelast demoReconcileTrace).
Proof.
  apply (Reconcile_ready_truthful 40 "openstack" "keystone" (removelast demoReconcileTrace) (patched demoReconcileTrace) None done_).
  - apply honest_removelast, demoReconcile_honest.
  - rewrite <- (last_removelast demoReconcileTrace _ demoReconcile_patches). exact demoReconcile_runs.
  - vm_compute. reflexivity.
  - vm_compute. reflexivity.
Defined.

(** A Keystone whose pods use the secret before the one the queue has now: the
    roll-out is complete, the guard is up, and the rotation goes through. *)
Definition rotatingAPI : KeystoneAPI := ka_setStatus (kas_setTransportURLSecret "old-secret" (ka_status demoHeldAPI)) demoHeldAPI.
Definition rotatingHandler (X : Type) (c : Call X) (w : unit) : X * unit :=
  match c in Call X return X * unit with
  | GetKeystoneAPICR _ _ => (inr rotatingAPI, w)
  | c => apiHandler _ c w
  end.
Lemma rotatingHandler_honest X (c : Call X) w : honestAnswer c (rotatingHandler X c w).1.
Proof. destruct c; try exact I. apply (apiHandler_honest _ (ReconcileRbac _ _ _) w). Qed.
Definition rotatingTrace : trace := tail (traceWith rotatingHandler demoReconcile).
Lemma rotatingTrace_eq :
  traceWith rotatingHandler demoReconcile = Ev (GetKeystoneAPICR "openstack" "keystone") (inr rotatingAPI) :: rotatingTrace.
Proof. vm_compute. reflexivity. Qed.
Lemma rotatingTrace_runs :
  runs demoReconcile (Ev (GetKeystoneAPICR "openstack" "keystone") (inr rotatingAPI) :: rotatingTrace) (inr done_).
Proof.
  rewrite <- rotatingTrace_eq. assert (resultWith rotatingHandler demoReconcile = inr done_) as <- by (vm_compute; reflexivity).
  apply runsWith.
Qed.
Lemma rotatingTrace_honest : honest rotatingTrace.
Proof.
  assert (honest (Ev (GetKeystoneAPICR "openstack" "keystone") (inr rotatingAPI) :: rotatingTrace)) as Hall.
  { rewrite <- rotatingTrace_eq. apply exec_honest, rotatingHandler_honest. }
  by apply Forall_inv_tail in Hall.
Qed.
(** Every finalization of the trace has its guard up. *)
Definition guardUp (ev : event Call) : bool :=
  match ev with Ev c _ => match c with FinalizeSecretRotation _ _ _ _ ready => ready | _ => true end end.
Lemma guardUp_guarded t : forallb guardUp t = true -> guarded t.
Proof.
  intros Hall. apply Forall_forall. intros [X c x] Hin%list_elem_of_In. apply (proj1 (forallb_forall _ _) Hall) in Hin.
  destruct c; try done. cbn in Hin. by subst.
Qed.
Lemma rotatingTrace_guarded : guarded rotatingTrace.
Proof. apply guardUp_guarded. vm_compute. reflexivity. Qed.
Definition finalization : event Call :=
  Ev (FinalizeSecretRotation "openstack" "old-secret" "transport-secret" TransportConsumerFinalizer true) (inr "transport-secret").

Lemma rotation_after_rollout_witness :
  releases rotatingAPI finalization /\
  exists p, pr_TransportSecret p = "transport-secret" /\ complete rotatingAPI p (take 29 rotatingTrace).
Proof.
  split; [reflexivity|].
  destruct (rotation_after_rollout 40 "openstack" "keystone" rotatingAPI rotatingTrace (inr done_) (take 29 rotatingTrace)
    finalization (drop 30 rotatingTrace)) as (p & Hc & Hp & _).
  - exact rotatingTrace_honest.
  - exact rotatingTrace_guarded.
  - exact rotatingTrace_runs.
  - symmetry. apply take_drop_middle. vm_compute. reflexivity.
  - reflexivity.
  - exists p. split; [symmetry; exact Hp|exact Hc].
Defined.

(** The deployment of a trace. *)
Definition deploymentOf (ev : option (event Call)) : option DeploymentSpec :=
  match ev with
  | Some (Ev c _) => match c with CreateOrPatchDeployment d _ => Some d | _ => None end
  | None => None
  end.

Lemma deployment_after_inputs_witness :
  exists d i p, deploymentOf (demoReconcileTrace !! 22%nat) = Some d /\
    Ev (GetKeystoneAPICR "openstack" "keystone") (inr i) ∈ take 22 demoReconcileTrace /\
    prepared i p (take 22 demoReconcileTrace).
Proof.
  destruct (deploymentOf (demoReconcileTrace !! 22%nat)) as [d|] eqn:Hd; [|vm_compute in Hd; discriminate].
  destruct (deployment_after_inputs 40 "openstack" "keystone" demoReconcileTrace (inr done_) (take 22 demoReconcileTrace)
    d (5 * second) (mkDeploymentState "keystone" "openstack" 1 1 1 true, noResult, None) (drop 23 demoReconcileTrace)
    demoReconcile_honest demoReconcile_runs) as (i & p & Hi & Hp & _).
  - symmetry. apply take_drop_middle. vm_compute in Hd. injection Hd as <-. vm_compute. reflexivity.
  - exists d, i, p. split; [reflexivity|]. split; [exact Hi|exact Hp].
Defined.

(** An object in deletion with the transport secret of a finished roll-out. *)
Definition demoDeletedAPI (finalizers : list string) : KeystoneAPI :=
  mkKeystoneAPI (deletingMeta "keystone" "openstack" finalizers) (ka_spec demoAPI)
    (kas_setTransportURLSecret "old-secret" (ka_status demoAPI)).
Definition deletionHandler (X : Type) (c : Call X) (w : unit) : X * unit :=
  match c in Call X return X * unit with
  | GetTransportURL ns n => (inr (mkTransportURL n ns ∅ "rabbitmq" "" "" "new-secret"), w)
  | c => apiHandler _ c w
  end.


Definition demoExternalAPI : KeystoneAPI :=
  mkKeystoneAPI (ka_meta demoHeldAPI)
    (mkAPISpec (externalCore (Some "https://public") (Some "https://internal")) "keystone:latest") (ka_status demoAPI).

Lemma reconcileExternal_configures_witness :
  external demoExternalAPI (resultWith apiHandler (reconcileExternalKeystoneAPI demoExternalAPI)).1 /\
  cloudWritten demoExternalAPI "https://public" (traceWith apiHandler (reconcileExternalKeystoneAPI demoExternalAPI)).
Proof.
  destruct (reconcileExternal_configures demoExternalAPI
    (traceWith apiHandler (reconcileExternalKeystoneAPI demoExternalAPI))
    (resultWith apiHandler (reconcileExternalKeystoneAPI demoExternalAPI)).1 (inr done_)) as (_ & H & _).
  - apply runsWith_snd. vm_compute. reflexivity.
  - destruct (H done_ eq_refl) as (_ & He & _ & Hc). split; [exact He|exact Hc].
Defined.
