(* ===== verification/Admission.v ===== *)
(** The admission webhook as the API server calls it
    (internal/webhook/v1beta1/keystoneapi_webhook.go): the defaulter and the
    validators on an object of any dynamic type, and what an admitted object
    is worth to the KeystoneAPI controller. *)
From S2P Require Import Prelude Effects GoTime Api Conditions Instances Workloads Calls External Demo Pods.
From S2P Require Import Webhook APIController APITheorems.

(** ** Objects of any type *)

(** A runtime.Object: a *KeystoneAPI, which may be nil, or a value of another
    type, of which only the name of the type is used. *)
Inductive Object := ObjKeystoneAPI (p : option KeystoneAPI) | ObjOther (type : string).
#[export] Instance Object_inhabited : Inhabited Object := populate (ObjOther "<nil>").

Definition errUnexpectedObjectType : GoError := errorf "unexpected object type".
Definition unexpected (what type : string) : GoError :=
  errorf (Error errUnexpectedObjectType +:+ ": " +:+ what +:+ " but got " +:+ type).

Definition verdictOf : Type := list string * option GoError.

Section admission.
Context `{XL : ExternalLib} `{WL : WebhookLib}.

(** Each operation answers [None] where it panics: where the pointer is nil and
    its name is logged. *)
Definition Default (d : KeystoneAPIDefaults) (obj : Object) : option (Object * option GoError) :=
  match obj with
  | ObjOther type => Some (obj, Some (unexpected "expected an KeystoneAPI object" type))
  | ObjKeystoneAPI None => None
  | ObjKeystoneAPI (Some keystoneapi) => Some (ObjKeystoneAPI (Some (APIDefault d keystoneapi)), None)
  end.

Definition CustomValidateCreate (obj : Object) (entries : list (string * RoutedOverrideSpec)) : option verdictOf :=
  match obj with
  | ObjOther type => Some ([], Some (unexpected "expected a KeystoneAPI object" type))
  | ObjKeystoneAPI None => None
  | ObjKeystoneAPI (Some keystoneapi) => Some (ValidateCreate keystoneapi entries)
  end.

(** The old object, as [KeystoneAPI.ValidateUpdate] takes it: there is none if
    its type is another or its pointer is nil. *)
Definition oldKeystoneAPI (old : Object) : option KeystoneAPI :=
  match old with ObjKeystoneAPI p => p | ObjOther _ => None end.
Definition CustomValidateUpdate (old obj : Object) (entries : list (string * RoutedOverrideSpec)) : option verdictOf :=
  match obj with
  | ObjOther type => Some ([], Some (unexpected "expected a KeystoneAPI object for the newObj" type))
  | ObjKeystoneAPI None => None
  | ObjKeystoneAPI (Some keystoneapi) => Some (ValidateUpdate keystoneapi (oldKeystoneAPI old) entries)
  end.

Definition CustomValidateDelete (obj : Object) : option verdictOf :=
  match obj with
  | ObjOther type => Some ([], Some (unexpected "expected a KeystoneAPI object" type))
  | ObjKeystoneAPI None => None
  | ObjKeystoneAPI (Some keystoneapi) => Some (ValidateDelete keystoneapi)
  end.
End admission.

(** ** What an admitted object is worth *)

Section admitted.
Context `{XL : ExternalLib} `{WL : WebhookLib} `{CLaws : ConditionLaws} `{FL : FinalizerLib} `{PL : PodLib}
  `{KLaws : ControllerLaws}.

(** A verdict without errors. *)
Lemma verdict_ok r p warns : verdict r p = (warns, None) -> p = (warns, []).
Proof. destruct p as [ws [|e es]]; by intros [= ->]. Qed.

(** Whatever else is checked, an admitted object passed the check of the
    external mode. *)
Lemma admitted_external r old entries warns :
  ValidateCreate r entries = (warns, None) \/ ValidateUpdate r old entries = (warns, None) ->
  ValidateExternalKeystoneAPI (core r) (NewPath "spec") entries = [].
Proof.
  unfold ValidateCreate, ValidateUpdate, CoreValidateCreate, CoreValidateUpdate, validateSpec.
  intros [Hv|Hv]; [|destruct old as [o|]; [|done]]; apply verdict_ok in Hv.
  - destruct (validateDeprecatedFieldsCreate _ _) as [ws es]. injection Hv as _ Hes. rewrite !app_nil in Hes. apply Hes.
  - destruct (validateDeprecatedFieldsUpdate _ _ _) as [ws es]. injection Hv as _ Hes. rewrite !app_nil in Hes. apply Hes.
Qed.

Lemma usableEndpoint_urlOf spec ty : usableEndpoint spec ty -> urlOf (ka_OverrideService spec) ty <> "".
Proof. intros (o & u & scheme & Ho & Hu & Hne & _). unfold urlOf. by rewrite Ho; cbn [mbind option_bind]; rewrite Hu. Qed.

(** The verdict on an object does not depend on what defaulting fills in. *)
Lemma CoreDefault_verdict d spec old basePath namespace entries :
  CoreValidateCreate (CoreDefault d spec) basePath namespace entries = CoreValidateCreate spec basePath namespace entries /\
  CoreValidateUpdate (CoreDefault d spec) old basePath namespace entries = CoreValidateUpdate spec old basePath namespace entries.
Proof. unfold CoreDefault. by repeat case_decide. Qed.
Lemma APIDefault_verdict d r old entries :
  ValidateCreate (APIDefault d r) entries = ValidateCreate r entries /\
  ValidateUpdate (APIDefault d r) old entries = ValidateUpdate r old entries.
Proof.
  unfold ValidateCreate, ValidateUpdate, APIDefault, verdict. cbn [ka_spec ka_meta ka_core]. split.
  - by rewrite (proj1 (CoreDefault_verdict d _ (ka_core (ka_spec r)) _ _ entries)).
  - destruct old as [o|]; [|done]. by rewrite (proj2 (CoreDefault_verdict d _ _ _ _ entries)).
Qed.

(** C38. Defaulting never changes the verdict, and what the webhook admits the
    controller can use.  The defaulter answers every KeystoneAPI with an object
    and no error, and both validators say of that object what they say of the
    one it was made from, whatever the old object.  And an external KeystoneAPI
    that was defaulted and then admitted, on creation or on an update, from any
    old object and in any order of its override map, has a public and an
    internal URL that parse and have a scheme, and its reconcile goes past the
    endpoint checks with exactly these URLs. *)
Theorem admitted_external_proceeds d r old entries :
  exists i, Default d (ObjKeystoneAPI (Some r)) = Some (ObjKeystoneAPI (Some i), None) /\
    CustomValidateCreate (ObjKeystoneAPI (Some i)) entries = CustomValidateCreate (ObjKeystoneAPI (Some r)) entries /\
    CustomValidateUpdate old (ObjKeystoneAPI (Some i)) entries = CustomValidateUpdate old (ObjKeystoneAPI (Some r)) entries /\
    forall warns,
      CustomValidateCreate (ObjKeystoneAPI (Some i)) entries = Some (warns, None) \/
      CustomValidateUpdate old (ObjKeystoneAPI (Some i)) entries = Some (warns, None) ->
      entries ≡ₚ map_to_list (ka_OverrideService (core r)) -> ka_ExternalKeystoneAPI (core r) = true ->
      usableEndpoint (core i) EndpointPublic /\ usableEndpoint (core i) EndpointInternal /\
      requireExternalURLs i = mret (i, inr (urlOf (ka_OverrideService (core r)) EndpointPublic,
                                            urlOf (ka_OverrideService (core r)) EndpointInternal)).
Proof.
  exists (APIDefault d r). set (i := APIDefault d r).
  destruct (APIDefault_verdict d r (oldKeystoneAPI old) entries) as [Hcreate Hupdate]. fold i in Hcreate, Hupdate.
  split; [done|]. cbn [CustomValidateCreate CustomValidateUpdate]. split; [by rewrite Hcreate|].
  split; [by rewrite Hupdate|]. intros warns Hadm Hperm Hext.
  assert (ka_OverrideService (core i) = ka_OverrideService (core r) /\ ka_ExternalKeystoneAPI (core i) = true) as [Hov He].
  { unfold i, APIDefault, core, CoreDefault. cbn [ka_spec ka_core]. by case_decide. }
  assert (usableEndpoint (core i) EndpointPublic /\ usableEndpoint (core i) EndpointInternal) as [Hp Hn].
  { apply (ValidateExternalKeystoneAPI_spec (core i) (NewPath "spec") entries); [by rewrite Hov| |done].
    apply (admitted_external i (oldKeystoneAPI old) entries warns).
    destruct Hadm as [[= Hv]|[= Hv]]; [by left|by right]. }
  split_and!; [done..|]. rewrite <- Hov. apply requireExternalURLs_total; by apply usableEndpoint_urlOf.
Qed.
End admitted.

(** ** Witnesses *)

Definition demoDefaults : KeystoneAPIDefaults := mkAPIDefaults "keystone:latest" 60.
Lemma admitted_external_proceeds_witness :
  requireExternalURLs (APIDefault demoDefaults demoExternalAPI) =
    mret (APIDefault demoDefaults demoExternalAPI, inr ("https://public", "https://internal")).
Proof.
  destruct (admitted_external_proceeds demoDefaults demoExternalAPI (ObjOther "<nil>")
    (map_to_list (ka_OverrideService (core demoExternalAPI)))) as (i & Hobj & _ & _ & Hi).
  injection Hobj as <-. refine (proj2 (proj2 (Hi [] _ _ _))).
  - left. vm_compute. reflexivity.
  - reflexivity.
  - reflexivity.
Defined.
