(* ===== verification/Setup.v ===== *)
(** What the controllers register with the manager (the SetupWithManager
    functions of internal/controller and SetupKeystoneAPIWebhookWithManager of
    internal/webhook), and which reconciles a change in the cluster leads to. *)
From S2P Require Import Prelude Effects GoTime Api Conditions Instances Calls External Demo Watches ACController Webhook.

(** ** Watches *)

(** The predicates a watch is filtered by. *)
Inductive Predicate := AnyChange | ResourceVersionChanged | GenerationChanged | SuppressCreate.
(** The map functions of the controllers. *)
Inductive MapFunc := MemcachedFn | FindObjectsForSrc | NodesetToACMapFunc.
(** What a change is turned into: a request for the object itself ([For]), for
    its controller owner ([Owns]), or what a map function says ([Watches]). *)
Inductive Handler := EnqueueSelf | EnqueueOwner | EnqueueMapped (f : MapFunc).
Record Watch := mkWatch { wa_Kind : string; wa_Handler : Handler; wa_Predicate : Predicate }.

Definition For (kind : string) : Watch := mkWatch kind EnqueueSelf AnyChange.
Definition Owns (kind : string) : Watch := mkWatch kind EnqueueOwner AnyChange.
Definition Watches (kind : string) (f : MapFunc) (p : Predicate) : Watch := mkWatch kind (EnqueueMapped f) p.

(** [KeystoneAPIReconciler.SetupWithManager]: the builder. *)
Definition apiWatches : list Watch :=
  For "KeystoneAPI"
  :: (Owns <$> ["MariaDBDatabase"; "MariaDBAccount"; "Job"; "CronJob"; "Service"; "Secret"; "ConfigMap"; "Deployment";
                "ServiceAccount"; "Role"; "RoleBinding"; "TransportURL"])
  ++ [Watches "Memcached" MemcachedFn AnyChange;
      Watches "Secret" FindObjectsForSrc ResourceVersionChanged;
      Watches "Topology" FindObjectsForSrc GenerationChanged].
Definition serviceWatches : list Watch := [For "KeystoneService"].
Definition endpointWatches : list Watch := [For "KeystoneEndpoint"].
(** The NodeSets are watched where their CRD is installed. *)
Definition acWatches (nodeSets : bool) : list Watch :=
  [For "KeystoneApplicationCredential"; mkWatch "Secret" EnqueueOwner SuppressCreate]
  ++ (if nodeSets then [Watches "OpenStackDataPlaneNodeSet" NodesetToACMapFunc ResourceVersionChanged] else []).

(** ** Changes *)

Inductive ChangeType := Created | Updated | Deleted.
#[export] Instance ChangeType_eq_dec : EqDecision ChangeType.
Proof. solve_decision. Defined.
Record Change := mkChange {
  ch_Type : ChangeType;
  ch_Kind : string;
  ch_Namespace : string;
  ch_Name : string;
  (* the kind and name of the controller owner *)
  ch_Owner : option (string * string);
  (* of an update: another version (not a resync), another generation *)
  ch_NewVersion : bool;
  ch_NewGeneration : bool
}.

Definition passes (p : Predicate) (ch : Change) : bool :=
  match p with
  | AnyChange => true
  | ResourceVersionChanged => negb (bool_decide (ch_Type ch = Updated)) || ch_NewVersion ch
  | GenerationChanged => negb (bool_decide (ch_Type ch = Updated)) || ch_NewGeneration ch
  | SuppressCreate => negb (bool_decide (ch_Type ch = Created))
  end.

Definition runMapFunc (f : MapFunc) : string -> string -> program (list (string * string)) :=
  match f with
  | MemcachedFn => memcachedFn
  | FindObjectsForSrc => findObjectsForSrc
  | NodesetToACMapFunc => fun ns _ => nodesetToACMapFunc ns
  end.

(** The requests of one watch of a controller of objects of kind [kind]. *)
Definition enqueue (kind : string) (h : Handler) (ch : Change) : program (list (string * string)) :=
  match h with
  | EnqueueSelf => mret [(ch_Name ch, ch_Namespace ch)]
  | EnqueueOwner =>
      mret match ch_Owner ch with
           | Some (k, n) => if decide (k = kind) then [(n, ch_Namespace ch)] else []
           | None => []
           end
  | EnqueueMapped f => runMapFunc f (ch_Namespace ch) (ch_Name ch)
  end.
Fixpoint wake (kind : string) (ws : list Watch) (ch : Change) : program (list (string * string)) :=
  match ws with
  | [] => mret []
  | w :: rest =>
      r1 ← (if bool_decide (wa_Kind w = ch_Kind ch) && passes (wa_Predicate w) ch
            then enqueue kind (wa_Handler w) ch else mret []);
      r2 ← wake kind rest ch;
      mret (r1 ++ r2)
  end.

(** ** The manager *)

(** A certificate watcher, known by its identity. *)
Abbreviation CertWatcher := nat (only parsing).
Inductive Checker := Ping | WebhookStarted.
Inductive TLSVersion := VersionTLS12 | VersionTLS13.
(** tls.Config, as far as main.go sets it; Go's default minimum is TLS 1.2. *)
Record TLSConfig := mkTLSConfig { MinVersion : TLSVersion; NextProtos : list string; GetCertificate : option CertWatcher }.
(** The servers a manager starts: webhook.Options and metricsserver.Options with
    their TLS options applied, and the rest of ctrl.Options. *)
Record Launch := mkLaunch {
  la_WebhookPort : Z;
  la_WebhookTLS : TLSConfig;
  la_MetricsAddr : string;
  la_MetricsSecure : bool;
  la_MetricsFilter : bool;
  la_MetricsTLS : TLSConfig;
  la_ProbeAddr : string;
  la_PprofAddr : string;
  la_LeaderElection : bool
}.

(** The calls of main.go and of the SetupWithManager functions. *)
Inductive MgrCall : Type -> Type :=
| NewCertWatcher (cert key : string) : MgrCall (res CertWatcher)
| SetManagerOptions : MgrCall (option GoError)
| GetConfigOrDie : MgrCall (option GoError)
| NewManager : MgrCall (option GoError)
| GetConfig : MgrCall (option GoError)
| NewForConfig : MgrCall (option GoError)
| Getenv (name : string) : MgrCall string
(* lib-common's util.GetEnvVar: the variable, or the default *)
| GetEnvVar (name default : string) : MgrCall string
(* the package variable keystoneAPIDefaults *)
| SetAPIDefaults (d : KeystoneAPIDefaults) : MgrCall unit
| IndexField (kind field : string) (f : KeystoneAPI -> list string) : MgrCall (option GoError)
| RESTMapping (kind : string) : MgrCall (option GoError)
| Complete (kind : string) (ws : list Watch) : MgrCall (option GoError)
| CompleteWebhook (kind : string) : MgrCall (option GoError)
| AddRunnable (w : CertWatcher) : MgrCall (option GoError)
| AddHealthzCheck (name : string) (c : Checker) : MgrCall (option GoError)
| AddReadyzCheck (name : string) (c : Checker) : MgrCall (option GoError)
| Start (l : Launch) : MgrCall (option GoError).
Abbreviation startup := (prog MgrCall).

Fixpoint indexFields (ixs : list (string * (KeystoneAPI -> list string))) : startup (option GoError) :=
  match ixs with
  | [] => mret None
  | (field, f) :: rest =>
      err ← call (IndexField "KeystoneAPI" field f);
      match err with Some e => mret (Some e) | None => indexFields rest end
  end.
Definition KeystoneAPISetup : startup (option GoError) :=
  err ← indexFields indexers;
  match err with Some e => mret (Some e) | None => call (Complete "KeystoneAPI" apiWatches) end.
Definition KeystoneServiceSetup : startup (option GoError) := call (Complete "KeystoneService" serviceWatches).
Definition KeystoneEndpointSetup : startup (option GoError) := call (Complete "KeystoneEndpoint" endpointWatches).
Definition ApplicationCredentialSetup : startup (option GoError) :=
  err ← call (RESTMapping "OpenStackDataPlaneNodeSet");
  call (Complete "KeystoneApplicationCredential" (acWatches (match err with None => true | Some _ => false end))).
Definition SetupKeystoneAPIWebhookWithManager : startup (option GoError) := call (CompleteWebhook "KeystoneAPI").

(** [keystonev1.SetupDefaults] *)
Definition KeystoneAPIContainerImage : string := "quay.io/openstack-s2i-containers/openstack-keystone:master-latest".
Definition APIDefaultTimeout : Z := 60.
Definition SetupDefaults : startup unit :=
  image ← call (GetEnvVar "RELATED_IMAGE_KEYSTONE_API_IMAGE_URL_DEFAULT" KeystoneAPIContainerImage);
  call (SetAPIDefaults (mkAPIDefaults image APIDefaultTimeout)).

(** ** Exactly the instances concerned *)

Section wake.
Context (cache : list KeystoneAPI) (acs : list KeystoneApplicationCredential).
Implicit Types (ch : Change) (req : string * string) (t : trace).

(** The manager's cache answers the lists of the map functions. *)
Definition acsListed t : Prop :=
  forall ns r, Ev (ListApplicationCredentials ns) r ∈ t -> r = inr (filter (fun ac => Namespace (ac_meta ac) = ns) acs).
Definition cached t : Prop := servedBy cache t /\ listedBy cache t /\ acsListed t.
Lemma cached_app t1 t2 : cached (t1 ++ t2) -> cached t1 /\ cached t2.
Proof. unfold cached, servedBy, listedBy, acsListed. setoid_rewrite elem_of_app. naive_solver. Qed.

(** The object is a controller owner's. *)
Definition ownerRequest (kind : string) ch req : Prop := ch_Owner ch = Some (kind, req.1) /\ req.2 = ch_Namespace ch.
Definition acRequest (ac : KeystoneApplicationCredential) : string * string := (Name (ac_meta ac), Namespace (ac_meta ac)).
(** What a map function has to answer. *)
Definition mapped (f : MapFunc) (ns name : string) req : Prop :=
  match f with
  | MemcachedFn => exists cr, cr ∈ cache /\ Namespace (ka_meta cr) = ns /\
      ka_MemcachedInstance (ka_core (ka_spec cr)) = name /\ req = requestFor cr
  | FindObjectsForSrc => exists cr, cr ∈ cache /\ Namespace (ka_meta cr) = ns /\ name ∈ references cr /\ req = requestFor cr
  | NodesetToACMapFunc => exists ac, ac ∈ acs /\ Namespace (ac_meta ac) = ns /\ req = acRequest ac
  end.
Definition enqueued (kind : string) (h : Handler) ch req : Prop :=
  match h with
  | EnqueueSelf => req = (ch_Name ch, ch_Namespace ch)
  | EnqueueOwner => ownerRequest kind ch req
  | EnqueueMapped f => mapped f (ch_Namespace ch) (ch_Name ch) req
  end.

Lemma nodesetToACMapFunc_spec ns t r :
  runs (nodesetToACMapFunc ns) t r -> acsListed t -> forall req, req ∈ r <-> mapped NodesetToACMapFunc ns "" req.
Proof.
  intros (x & t' & -> & Hr) Hl req. runs_norm Hr. destruct Hr as [-> <-]. rewrite (Hl ns x (list_elem_of_here _ _)).
  cbn [mapped]. rewrite list_elem_of_fmap. setoid_rewrite list_elem_of_filter. unfold acRequest. naive_solver.
Qed.

Lemma enqueue_spec kind h ch :
  wp (enqueue kind h ch) (fun t r => cached t -> forall req, req ∈ r <-> enqueued kind h ch req).
Proof.
  destruct h as [| |f]; cbn [enqueue enqueued].
  - wp_norm. intros _ req. by rewrite list_elem_of_singleton.
  - wp_norm. intros _ [n ns]. unfold ownerRequest. cbn [fst snd].
    destruct (ch_Owner ch) as [[k n']|]; [|split; [by intros ?%elem_of_nil|by intros []]].
    case_decide; [rewrite list_elem_of_singleton; naive_solver|]. split; [by intros ?%elem_of_nil|naive_solver].
  - apply wp_runs. intros t r Hr (H1 & H2 & H3). destruct f; cbn [runMapFunc mapped] in *.
    + by apply (proj2 (watches_exact cache (ch_Namespace ch) (ch_Name ch)) t r).
    + by apply (findObjectsForSrc_spec cache (ch_Namespace ch) (ch_Name ch) t r).
    + by apply (nodesetToACMapFunc_spec (ch_Namespace ch) t r).
Qed.

Lemma wake_spec kind ws ch :
  wp (wake kind ws ch) (fun t r => cached t -> forall req, req ∈ r <->
    exists w, w ∈ ws /\ wa_Kind w = ch_Kind ch /\ passes (wa_Predicate w) ch = true /\ enqueued kind (wa_Handler w) ch req).
Proof.
  induction ws as [|w ws IH]; cbn [wake].
  { wp_norm. intros _ req. split; [by intros ?%elem_of_nil|by intros (w & ?%elem_of_nil & _)]. }
  rewrite wp_bind. apply (wp_mono _ (fun t r1 => cached t -> forall req, req ∈ r1 <->
    wa_Kind w = ch_Kind ch /\ passes (wa_Predicate w) ch = true /\ enqueued kind (wa_Handler w) ch req)).
  2: { case_match eqn:Hc; [|wp_norm].
       - apply andb_true_iff in Hc as [Hk%bool_decide_eq_true Hp]. eapply wp_mono; [|apply enqueue_spec]. cbv beta.
         intros t r Hr Ht req. rewrite (Hr Ht). tauto.
       - intros _ req. split; [by intros ?%elem_of_nil|]. intros (Hk & Hp & _).
         apply andb_false_iff in Hc as [Hc%bool_decide_eq_false|Hc]; [done|congruence]. }
  intros t1 r1 H1. wp_use IH. intros t2 r2 H2. wp_norm. rewrite app_nil_r. intros [Ht1 Ht2]%cached_app req.
  rewrite elem_of_app, (H1 Ht1), (H2 Ht2). setoid_rewrite elem_of_cons. naive_solver.
Qed.

(** The kinds of the objects a KeystoneAPI owns. *)
Definition ownedKinds : list string :=
  ["MariaDBDatabase"; "MariaDBAccount"; "Job"; "CronJob"; "Service"; "Secret"; "ConfigMap"; "Deployment";
   "ServiceAccount"; "Role"; "RoleBinding"; "TransportURL"].

Lemma elem_of_apiWatches w :
  w ∈ apiWatches <-> w = For "KeystoneAPI" \/ (exists k, k ∈ ownedKinds /\ w = Owns k) \/
    w = Watches "Memcached" MemcachedFn AnyChange \/ w = Watches "Secret" FindObjectsForSrc ResourceVersionChanged \/
    w = Watches "Topology" FindObjectsForSrc GenerationChanged.
Proof.
  unfold apiWatches. fold ownedKinds. rewrite elem_of_cons, elem_of_app, list_elem_of_fmap, !elem_of_cons, elem_of_nil.
  setoid_rewrite (comm and (_ = Owns _)). tauto.
Qed.
Lemma elem_of_acWatches b w :
  w ∈ acWatches b <-> w = For "KeystoneApplicationCredential" \/ w = mkWatch "Secret" EnqueueOwner SuppressCreate \/
    (b = true /\ w = Watches "OpenStackDataPlaneNodeSet" NodesetToACMapFunc ResourceVersionChanged).
Proof. unfold acWatches. rewrite elem_of_app, !elem_of_cons. destruct b; rewrite ?elem_of_cons, !elem_of_nil; naive_solver. Qed.
Lemma passes_version ch : passes ResourceVersionChanged ch = true <-> (ch_Type ch = Updated -> ch_NewVersion ch = true).
Proof. cbn. rewrite orb_true_iff, negb_true_iff, bool_decide_eq_false. destruct (decide (ch_Type ch = Updated)); tauto. Qed.
Lemma passes_generation ch : passes GenerationChanged ch = true <-> (ch_Type ch = Updated -> ch_NewGeneration ch = true).
Proof. cbn. rewrite orb_true_iff, negb_true_iff, bool_decide_eq_false. destruct (decide (ch_Type ch = Updated)); tauto. Qed.
Lemma passes_noCreate ch : passes SuppressCreate ch = true <-> ch_Type ch <> Created.
Proof. cbn. by rewrite negb_true_iff, bool_decide_eq_false. Qed.

(** C19. The registered watches miss nothing and wake nobody else.  A change
    leads to requests for exactly: the KeystoneAPI itself; the KeystoneAPI that
    owns the object, for the kinds the reconcile creates; the KeystoneAPIs of
    the namespace that refer to a secret or a topology by name (not on a resync
    of the secret, nor on a status update of the topology); those that use a
    memcached.  An application credential is woken by itself, by updates and
    deletions of its secrets but not by their creation, and by every NodeSet of
    its namespace, where NodeSets are installed. *)
Theorem wake_exact ch t r :
  cached t ->
  (runs (wake "KeystoneAPI" apiWatches ch) t r -> forall req, req ∈ r <->
     (ch_Kind ch = "KeystoneAPI" /\ req = (ch_Name ch, ch_Namespace ch)) \/
     (ch_Kind ch ∈ ownedKinds /\ ownerRequest "KeystoneAPI" ch req) \/
     ((ch_Kind ch = "Secret" /\ (ch_Type ch = Updated -> ch_NewVersion ch = true) \/
       ch_Kind ch = "Topology" /\ (ch_Type ch = Updated -> ch_NewGeneration ch = true)) /\
      exists cr, cr ∈ cache /\ Namespace (ka_meta cr) = ch_Namespace ch /\ ch_Name ch ∈ references cr /\ req = requestFor cr) \/
     (ch_Kind ch = "Memcached" /\ exists cr, cr ∈ cache /\ Namespace (ka_meta cr) = ch_Namespace ch /\
        ka_MemcachedInstance (ka_core (ka_spec cr)) = ch_Name ch /\ req = requestFor cr)) /\
  forall nodeSets, runs (wake "KeystoneApplicationCredential" (acWatches nodeSets) ch) t r -> forall req, req ∈ r <->
     (ch_Kind ch = "KeystoneApplicationCredential" /\ req = (ch_Name ch, ch_Namespace ch)) \/
     (ch_Kind ch = "Secret" /\ ch_Type ch <> Created /\ ownerRequest "KeystoneApplicationCredential" ch req) \/
     (ch_Kind ch = "OpenStackDataPlaneNodeSet" /\ nodeSets = true /\ (ch_Type ch = Updated -> ch_NewVersion ch = true) /\
        exists ac, ac ∈ acs /\ Namespace (ac_meta ac) = ch_Namespace ch /\ req = acRequest ac).
Proof.
  intros Ht. split; [intros Hr|intros nodeSets Hr]; intros req; (eapply runs_spec in Hr; [|apply wake_spec]);
    rewrite (Hr Ht req); clear Hr.
  - setoid_rewrite elem_of_apiWatches. rewrite <- passes_version, <- passes_generation. split.
    + intros (w & [->|[(k & Hk & ->)|[->|[->| ->]]]] & Hkind & Hp & He); cbn in *; subst; naive_solver.
    + intros [[Hk ->]|[[Hk Ho]|[[[[Hk Hp]|[Hk Hp]] Hm]|[Hk Hm]]]].
      * exists (For "KeystoneAPI"). cbn. rewrite Hk. naive_solver.
      * exists (Owns (ch_Kind ch)). split_and!; [right; left; by eexists|done..].
      * exists (Watches "Secret" FindObjectsForSrc ResourceVersionChanged). cbn. split_and!; [tauto|done..].
      * exists (Watches "Topology" FindObjectsForSrc GenerationChanged). cbn. split_and!; [tauto|done..].
      * exists (Watches "Memcached" MemcachedFn AnyChange). cbn. split_and!; [tauto|done..].
  - setoid_rewrite elem_of_acWatches. rewrite <- passes_version, <- passes_noCreate. split.
    + intros (w & [->|[->|[Hn ->]]] & Hkind & Hp & He); cbn in *; subst; naive_solver.
    + intros [[Hk ->]|[(Hk & Hp & Ho)|(Hk & Hn & Hp & Hm)]].
      * exists (For "KeystoneApplicationCredential"). cbn. rewrite Hk. naive_solver.
      * exists (mkWatch "Secret" EnqueueOwner SuppressCreate). cbn. split_and!; [tauto|done..].
      * exists (Watches "OpenStackDataPlaneNodeSet" NodesetToACMapFunc ResourceVersionChanged). cbn. split_and!; [tauto|done..].
Qed.
End wake.

(** ** Witnesses *)

(** An update of the secret [demoAPI] refers to. *)
Definition demoChange : Change := mkChange Updated "Secret" "openstack" "osp-secret" None true false.
Definition demoWake : program (list (string * string)) := wake "KeystoneAPI" apiWatches demoChange.
Lemma demoWake_cached : cached demoCache [] (traceWith (cacheHandler demoCache) demoWake).
Proof.
  split; [apply cacheHandler_serves|]. split.
  - intros ns labels r Hin. exact (traceWith_answers (cacheHandler demoCache) demoWake _ _ _ Hin).
  - intros ns r Hin. exact (traceWith_answers (cacheHandler demoCache) demoWake _ _ _ Hin).
Qed.
Lemma wake_exact_witness :
  ("keystone", "openstack") ∈ resultWith (cacheHandler demoCache) demoWake /\
  resultWith (cacheHandler demoCache) demoWake = [("keystone", "openstack")].
Proof.
  split; [|vm_compute; reflexivity].
  apply (proj1 (wake_exact demoCache [] demoChange _ _ demoWake_cached) (runsWith (cacheHandler demoCache) demoWake)).
  right; right; left. split; [left; split; [reflexivity|intros _; reflexivity]|].
  exists demoAPI. split; [left|]. split; [reflexivity|]. split; [left|reflexivity].
Defined.
