(* ===== verification/Main.v ===== *)
(** The start of the operator (cmd/main.go): flags, TLS options, the manager,
    the registration of the controllers and the webhook, the health checks. *)
From S2P Require Import Prelude Effects GoTime Api Conditions Instances Calls External Demo Watches Webhook Setup.

(** ** Flags *)

Record Flags := mkFlags {
  metricsAddr : string;
  probeAddr : string;
  enableLeaderElection : bool;
  secureMetrics : bool;
  webhookCertPath : string;
  webhookCertName : string;
  webhookCertKey : string;
  metricsCertPath : string;
  metricsCertName : string;
  metricsCertKey : string;
  pprofBindAddress : string;
  webhookPort : Z;
  enableHTTP2 : bool
}.
Definition defaultFlags : Flags :=
  mkFlags "0" ":8081" false true "" "tls.crt" "tls.key" "" "tls.crt" "tls.key" "" 9443 false.

(** ** Go slices

    A slice is a window on an array; [append] writes into the array while there
    is room and moves to a new, larger one when there is none.  The two servers
    start from the same slice of TLS options. *)

Inductive TLSOption := MinVersionTLS13 | DisableHTTP2 | CertificateOf (w : CertWatcher).
Record slice := mkSlice { sl_Array : nat; sl_Len : nat; sl_Cap : nat }.
Record heap := mkHeap { h_Next : nat; h_Cells : gmap (nat * nat) TLSOption }.
Definition nilSlice : slice := mkSlice 0 0 0.
Definition emptyHeap : heap := mkHeap 1 ∅.

(** The options a slice shows. *)
Definition readSlice (h : heap) (s : slice) : list TLSOption :=
  omap (fun i => h_Cells h !! (sl_Array s, i)) (seq 0 (sl_Len s)).

Definition applyOption (o : TLSOption) (c : TLSConfig) : TLSConfig :=
  match o with
  | MinVersionTLS13 => mkTLSConfig VersionTLS13 (NextProtos c) (GetCertificate c)
  | DisableHTTP2 => mkTLSConfig (MinVersion c) ["http/1.1"] (GetCertificate c)
  | CertificateOf w => mkTLSConfig (MinVersion c) (NextProtos c) (Some w)
  end.
(** The configuration of a server: its options in their order. *)
Definition tlsConfig (opts : list TLSOption) : TLSConfig :=
  fold_left (fun c o => applyOption o c) opts (mkTLSConfig VersionTLS12 [] None).

(** ** Programs that may end the process *)

(** [None]: [os.Exit(1)]. *)
Abbreviation exiting A := (startup (option A)).
Definition andThen {A B} (p : exiting A) (k : A -> exiting B) : exiting B :=
  p ≫= fun r => match r with Some a => k a | None => mret None end.
Definition proceed {A} (a : A) : exiting A := mret (Some a).
(** [if err := ...; err != nil { os.Exit(1) }] *)
Definition must (p : startup (option GoError)) : exiting unit :=
  p ≫= fun err => mret match err with None => Some tt | Some _ => None end.
Notation "x <~ p ; k" := (andThen p (fun x => k)) (at level 20, p at level 100, k at level 200, right associativity, only parsing).
Notation "' x <~ p ; k" := (andThen p (fun y => match y with x => k end))
  (at level 20, x pattern, p at level 100, k at level 200, right associativity, only parsing).

Section main.
(** Go's append, by the capacity before and the length needed, and filepath.Join. *)
Context (growCap : nat -> nat -> nat) (join : string -> string -> string).

Definition append (h : heap) (s : slice) (o : TLSOption) : heap * slice :=
  if decide (sl_Len s < sl_Cap s)%nat then
    (mkHeap (h_Next h) (<[(sl_Array s, sl_Len s) := o]> (h_Cells h)), mkSlice (sl_Array s) (S (sl_Len s)) (sl_Cap s))
  else
    let a := h_Next h in
    let copied := fold_left (fun cells i =>
      match h_Cells h !! (sl_Array s, i) with Some x => <[(a, i) := x]> cells | None => cells end)
      (seq 0 (sl_Len s)) (h_Cells h) in
    (mkHeap (S a) (<[(a, sl_Len s) := o]> copied), mkSlice a (S (sl_Len s)) (growCap (sl_Cap s) (S (sl_Len s)))).

(** The options both servers start from. *)
Definition baseOptions (f : Flags) : heap * slice :=
  let '(h, tlsOpts) := append emptyHeap nilSlice MinVersionTLS13 in
  if enableHTTP2 f then (h, tlsOpts) else append h tlsOpts DisableHTTP2.

(** A certificate watcher, where a path is given, and its option. *)
Definition addCertificate (path name key : string) (h : heap) (opts : slice) : exiting (option CertWatcher * heap * slice) :=
  if decide (path = "") then proceed (None, h, opts)
  else
    call (NewCertWatcher (join path name) (join path key)) ≫= fun r =>
    match r with
    | inl _ => mret None
    | inr w => let '(h, opts) := append h opts (CertificateOf w) in proceed (Some w, h, opts)
    end.

Definition startManager : exiting unit :=
  _ <~ must (call SetManagerOptions);
  _ <~ must (call GetConfigOrDie);
  _ <~ must (call NewManager);
  _ <~ must (call GetConfig);
  must (call NewForConfig).

Definition setupControllers : exiting unit :=
  _ <~ (SetupDefaults ≫= fun _ => proceed tt);
  _ <~ must KeystoneAPISetup;
  _ <~ must KeystoneServiceSetup;
  _ <~ must KeystoneEndpointSetup;
  must ApplicationCredentialSetup.

(** The webhook, unless it is disabled, and what the health checks ask. *)
Definition setupWebhooks : exiting Checker :=
  call (Getenv "ENABLE_WEBHOOKS") ≫= fun v =>
  if decide (v = "false") then proceed Ping
  else _ <~ must SetupKeystoneAPIWebhookWithManager; proceed WebhookStarted.

Definition addWatcher (w : option CertWatcher) : exiting unit :=
  match w with Some w => must (call (AddRunnable w)) | None => proceed tt end.

Definition addChecks (checker : Checker) : exiting unit :=
  _ <~ must (call (AddHealthzCheck "healthz" checker));
  must (call (AddReadyzCheck "readyz" checker)).

(** Everything before [mgr.Start]: what it will start.  The servers apply their
    TLS options when they are started, so the slices are read at the end. *)
Definition prepareMain (f : Flags) : exiting Launch :=
  let '(h, tlsOpts) := baseOptions f in
  let webhookTLSOpts := tlsOpts in
  '(webhookCertWatcher, h, webhookTLSOpts) <~
    addCertificate (webhookCertPath f) (webhookCertName f) (webhookCertKey f) h webhookTLSOpts;
  '(metricsCertWatcher, h, metricsTLSOpts) <~
    addCertificate (metricsCertPath f) (metricsCertName f) (metricsCertKey f) h tlsOpts;
  _ <~ startManager;
  _ <~ setupControllers;
  checker <~ setupWebhooks;
  _ <~ addWatcher metricsCertWatcher;
  _ <~ addWatcher webhookCertWatcher;
  _ <~ addChecks checker;
  proceed (mkLaunch (webhookPort f) (tlsConfig (readSlice h webhookTLSOpts))
    (metricsAddr f) (secureMetrics f) (secureMetrics f) (tlsConfig (readSlice h metricsTLSOpts))
    (probeAddr f) (pprofBindAddress f) (enableLeaderElection f)).

(** [main]: the exit code. *)
Definition main (f : Flags) : startup Z :=
  r ← andThen (prepareMain f) (fun l => must (call (Start l)));
  mret match r with Some _ => 0%Z | None => 1%Z end.
End main.

(** ** What a start consists of *)

(** A call that fails ends the process; that there is no NodeSet CRD is not a
    failure. *)
Definition failed (ev : event MgrCall) : Prop :=
  match ev with
  | Ev c x =>
      match c in MgrCall X return X -> Prop with
      | NewCertWatcher _ _ => fun r => exists e, r = inl e
      | Getenv _ | GetEnvVar _ _ => fun _ => False
      | SetAPIDefaults _ => fun _ => False
      | RESTMapping _ => fun _ => False
      | SetManagerOptions | GetConfigOrDie | NewManager | GetConfig | NewForConfig | IndexField _ _ _ | Complete _ _
      | CompleteWebhook _ | AddRunnable _ | AddHealthzCheck _ _ | AddReadyzCheck _ _ | Start _ => fun r => r <> None
      end x
  end.
Definition succeeded (t : list (event MgrCall)) : Prop := Forall (fun ev => ~ failed ev) t.
(** The last call failed, and no other. *)
Definition endsFailed (t : list (event MgrCall)) : Prop := exists t1 ev, t = t1 ++ [ev] /\ succeeded t1 /\ failed ev.

(** The milestones of a start. *)
Inductive Milestone :=
| Defaults (d : KeystoneAPIDefaults)
| Indexed (kind field : string)
| Controller (kind : string) (ws : list Watch)
| WebhookOf (kind : string)
| Runnable (w : CertWatcher)
| Healthz (c : Checker)
| Readyz (c : Checker)
| Launched (l : Launch).
Definition milestone (ev : event MgrCall) : option Milestone :=
  match ev with
  | Ev c _ =>
      match c with
      | SetAPIDefaults d => Some (Defaults d)
      | IndexField kind field _ => Some (Indexed kind field)
      | Complete kind ws => Some (Controller kind ws)
      | CompleteWebhook kind => Some (WebhookOf kind)
      | AddRunnable w => Some (Runnable w)
      | AddHealthzCheck _ c => Some (Healthz c)
      | AddReadyzCheck _ c => Some (Readyz c)
      | Start l => Some (Launched l)
      | _ => None
      end
  end.
Definition milestones : list (event MgrCall) -> list Milestone := omap milestone.
Lemma milestones_app t1 t2 : milestones (t1 ++ t2) = milestones t1 ++ milestones t2.
Proof. apply omap_app. Qed.

(** ** A judgement for programs that may exit *)

Definition wpx {A} (p : exiting A) (Q : list (event MgrCall) -> A -> Prop) : Prop :=
  wp p (fun t r => match r with Some a => succeeded t /\ Q t a | None => endsFailed t end).

Lemma wpx_mono {A} (p : exiting A) (Q1 Q2 : list (event MgrCall) -> A -> Prop) :
  (forall t a, Q1 t a -> Q2 t a) -> wpx p Q1 -> wpx p Q2.
Proof. intros HQ. apply wp_mono. intros t [a|]; [|done]. intros []. auto. Qed.
Lemma wpx_proceed {A} (a : A) (Q : list (event MgrCall) -> A -> Prop) : Q [] a -> wpx (proceed a) Q.
Proof. split; [constructor|done]. Qed.
Lemma endsFailed_app t1 t2 : succeeded t1 -> endsFailed t2 -> endsFailed (t1 ++ t2).
Proof.
  intros H1 (t & ev & -> & H2 & H3). exists (t1 ++ t), ev. split_and!; [by rewrite (assoc (++))|by apply Forall_app|done].
Qed.
Lemma wpx_andThen {A B} (p : exiting A) (k : A -> exiting B) Q :
  wpx p (fun t1 a => wpx (k a) (fun t2 b => Q (t1 ++ t2) b)) -> wpx (andThen p k) Q.
Proof.
  intros H. unfold wpx, andThen. rewrite wp_bind. eapply wp_mono; [|exact H]. cbv beta. intros t1 [a|].
  - intros [H1 H2]. eapply wp_mono; [|exact H2]. cbv beta. intros t2 [b|].
    + intros [H3 H4]. split; [by apply Forall_app|done].
    + by apply endsFailed_app.
  - intros H1. wp_norm. by rewrite app_nil_r.
Qed.
(** A call whose error is fatal, and that is the milestones [ms]. *)
Lemma wpx_must (c : MgrCall (option GoError)) Q :
  (forall x, failed (Ev c x) <-> x <> None) -> Q [Ev c None] tt -> wpx (must (call c)) Q.
Proof.
  intros Hf HQ. unfold wpx, must. wp_norm. intros [e|]; wp_norm.
  - exists [], (Ev c (Some e)). split_and!; [done|constructor|by apply Hf].
  - split; [|done]. constructor; [|constructor]. rewrite Hf. by intros [].
Qed.
Lemma must_ok (p : startup (option GoError)) Q :
  wp p (fun t err => match err with None => succeeded t /\ Q t tt | Some _ => endsFailed t end) -> wpx (must p) Q.
Proof.
  intros H. unfold wpx, must. rewrite wp_bind. eapply wp_mono; [|exact H]. cbv beta.
  intros t [e|] Ht; wp_norm; by rewrite app_nil_r.
Qed.

(** A list of calls none of which failed. *)
Ltac succeed := unfold succeeded; repeat (apply Forall_cons; split; [by intros []|]); apply Forall_nil; done.

(** ** The stages *)

Section stages.
Context (growCap : nat -> nat -> nat) (join : string -> string -> string).
Implicit Types (f : Flags) (t : list (event MgrCall)).

(** A stage with these milestones, in this order. *)
Abbreviation reaches p ms := (wpx p (fun t _ => milestones t = ms)).

Lemma startManager_spec : reaches startManager [].
Proof. unfold startManager. repeat (apply wpx_andThen, wpx_must; [done|]). by apply wpx_must. Qed.

Lemma indexFields_spec ixs :
  wp (indexFields ixs) (fun t err =>
    match err with
    | None => succeeded t /\ milestones t = (fun ix => Indexed "KeystoneAPI" ix.1) <$> ixs
    | Some _ => endsFailed t
    end).
Proof.
  induction ixs as [|[field g] ixs IH]; cbn [indexFields]; [split; [constructor|done]|]. wp_norm. intros [e|]; wp_norm.
  - exists [], (Ev (IndexField "KeystoneAPI" field g) (Some e)). split_and!; [done|succeed|done].
  - eapply wp_mono; [|exact IH]. cbv beta. intros t [e|].
    + apply (endsFailed_app [_]). succeed.
    + intros [H1 H2]. split; [constructor; [by intros []|done]|]. cbn. by f_equal.
Qed.
Lemma KeystoneAPISetup_spec :
  reaches (must KeystoneAPISetup) (((fun field => Indexed "KeystoneAPI" field) <$> indexers.*1) ++ [Controller "KeystoneAPI" apiWatches]).
Proof.
  apply must_ok. unfold KeystoneAPISetup. rewrite wp_bind. eapply wp_mono; [|apply indexFields_spec]. cbv beta.
  intros t [e|]; [intros Ht; wp_norm; by rewrite app_nil_r|]. intros [H1 H2]. wp_norm. intros [e|].
  - apply endsFailed_app; [done|]. exists [], (Ev (Complete "KeystoneAPI" apiWatches) (Some e)).
    split_and!; [done|succeed|done].
  - split; [apply Forall_app; split; [done|succeed]|].
    by rewrite milestones_app, H2, <- list_fmap_compose.
Qed.

(** The defaults the webhook works with, and the controllers. *)
Definition controllers (image : string) (nodeSets : bool) : list Milestone :=
  [Defaults (mkAPIDefaults image APIDefaultTimeout)]
  ++ ((fun field => Indexed "KeystoneAPI" field) <$> indexers.*1)
  ++ [Controller "KeystoneAPI" apiWatches; Controller "KeystoneService" serviceWatches;
      Controller "KeystoneEndpoint" endpointWatches; Controller "KeystoneApplicationCredential" (acWatches nodeSets)].

Lemma setupControllers_spec : wpx setupControllers (fun t _ => exists image nodeSets, milestones t = controllers image nodeSets).
Proof.
  unfold setupControllers. apply wpx_andThen. unfold wpx at 1. wp_norm. intros image. wp_norm. intros []. wp_norm.
  split; [succeed|]. apply wpx_andThen. eapply wpx_mono; [|apply KeystoneAPISetup_spec]. cbv beta. intros t1 [] H1.
  apply wpx_andThen, wpx_must; [done|]. apply wpx_andThen, wpx_must; [done|]. apply must_ok. unfold ApplicationCredentialSetup.
  wp_norm. intros m. wp_norm. intros [e|].
  - eexists [_], _. split_and!; [done|succeed|done].
  - split; [succeed|]. exists image, (match m with None => true | Some _ => false end).
    cbn. rewrite milestones_app, H1. unfold controllers. by rewrite <- (assoc (++)).
Qed.

(** The webhook is set up unless ENABLE_WEBHOOKS is "false"; then the health
    checks ask the webhook server. *)
Definition webhook (enabled : bool) : list Milestone := if enabled then [WebhookOf "KeystoneAPI"] else [].
Definition checkerOf (enabled : bool) : Checker := if enabled then WebhookStarted else Ping.
Lemma setupWebhooks_spec :
  wpx setupWebhooks (fun t c => exists v, Ev (Getenv "ENABLE_WEBHOOKS") v ∈ t /\
    milestones t = webhook (negb (bool_decide (v = "false"))) /\ c = checkerOf (negb (bool_decide (v = "false")))).
Proof.
  unfold setupWebhooks, wpx. wp_norm. intros v. case_decide as Hv; wp_norm.
  - split; [succeed|]. exists v. rewrite bool_decide_eq_true_2 by done. split_and!; [left|done..].
  - intros [e|]; wp_norm.
    + eexists [_], _. split_and!; [done|succeed|done].
    + split; [succeed|]. exists v. rewrite bool_decide_eq_false_2 by done. split_and!; [left|done..].
Qed.

Lemma addWatcher_spec w : reaches (addWatcher w) (Runnable <$> option_list w).
Proof. destruct w as [w|]; cbn [addWatcher]; [by apply wpx_must|by apply wpx_proceed]. Qed.
Lemma addChecks_spec c : reaches (addChecks c) [Healthz c; Readyz c].
Proof. unfold addChecks. apply wpx_andThen, wpx_must; [done|]. by apply wpx_must. Qed.

(** *** TLS options *)

(** The options before the certificates. *)
Definition common f : list TLSOption := if enableHTTP2 f then [MinVersionTLS13] else [MinVersionTLS13; DisableHTTP2].
(** A slice of the heap with these options. *)
Definition holds (h : heap) (s : slice) (opts : list TLSOption) : Prop :=
  sl_Len s = length opts /\ (sl_Array s < h_Next h)%nat /\
  forall i, (i < length opts)%nat -> h_Cells h !! (sl_Array s, i) = opts !! i.

Lemma holds_read h s opts : holds h s opts -> readSlice h s = opts.
Proof.
  intros (Hl & _ & Hc). unfold readSlice. rewrite Hl. clear Hl.
  assert (forall n, (n <= length opts)%nat ->
    omap (fun i => h_Cells h !! (sl_Array s, i)) (seq (length opts - n) n) = drop (length opts - n) opts) as Hind.
  { induction n as [|n IH]; intros Hn; [by rewrite drop_ge by lia|]. cbn [seq].
    destruct (lookup_lt_is_Some_2 opts (length opts - S n)) as [x Hx]; [lia|].
    cbn [omap list_omap]. rewrite Hc, Hx by lia. rewrite (drop_S _ x) by done.
    replace (S (length opts - S n)) with (length opts - n)%nat by lia. rewrite IH by lia. done. }
  specialize (Hind (length opts) ltac:(lia)). by rewrite Nat.sub_diag in Hind.
Qed.

Lemma copied_lookup (src cells : gmap (nat * nat) TLSOption) (arr a : nat) idx (k : nat * nat) :
  fold_left (fun cells i => match src !! (arr, i) with Some x => <[(a, i) := x]> cells | None => cells end) idx cells !! k
  = if decide (k.1 = a /\ k.2 ∈ idx /\ is_Some (src !! (arr, k.2))) then src !! (arr, k.2) else cells !! k.
Proof.
  revert cells; induction idx as [|i idx IH]; intros cells; cbn [fold_left].
  { rewrite decide_False; [done|]. by intros (_ & ?%elem_of_nil & _). }
  rewrite IH. destruct k as [b j]. cbn [fst snd].
  destruct (decide (b = a /\ j ∈ idx /\ is_Some (src !! (arr, j)))) as [(H1 & H2 & H3)|H1].
  { rewrite decide_True; [done|]. split_and!; [done|by right|done]. }
  destruct (decide (b = a /\ j ∈ i :: idx /\ is_Some (src !! (arr, j)))) as [(-> & Hj & H3)|H2].
  - apply elem_of_cons in Hj as [->|Hj]; [|by exfalso; apply H1]. destruct H3 as [x Hx]. by rewrite Hx, lookup_insert_eq.
  - destruct (src !! (arr, i)) as [x|] eqn:Hx; [|done]. rewrite lookup_insert_ne; [done|]. intros [= -> ->].
    apply H2. rewrite Hx. split_and!; [done|left|by eexists].
Qed.

(** Appending to a full slice moves it: no other slice sees the new option. *)
Lemma append_full h s opts o :
  holds h s opts -> ~ (sl_Len s < sl_Cap s)%nat ->
  let '(h', s') := append growCap h s o in
  holds h' s' (opts ++ [o]) /\ sl_Cap s' = growCap (sl_Cap s) (S (sl_Len s)) /\
  forall s2 opts2, holds h s2 opts2 -> holds h' s2 opts2.
Proof.
  intros (Hl & Ha & Hc) Hfull. unfold append. rewrite decide_False by done. cbv zeta. split; [|split; [done|]].
  - split; [rewrite length_app; cbn; lia|]. split; [cbn; lia|]. cbn [sl_Array h_Cells]. intros i Hi.
    rewrite length_app in Hi. cbn in Hi. destruct (decide (i = length opts)) as [->|Hne].
    { by rewrite Hl, lookup_insert_eq, lookup_app_r, Nat.sub_diag by lia. }
    rewrite lookup_insert_ne by (intros [= ?]; lia). rewrite lookup_app_l by lia. rewrite copied_lookup. cbn [fst snd].
    rewrite Hc by lia. destruct (lookup_lt_is_Some_2 opts i) as [x Hx]; [lia|]. rewrite decide_True; [done|].
    split_and!; [done|apply elem_of_seq; lia|by rewrite Hx].
  - intros s2 opts2 (Hl2 & Ha2 & Hc2). split; [done|]. split; [cbn; lia|]. intros i Hi. cbn [h_Cells].
    rewrite lookup_insert_ne by (intros [= ? ?]; lia). rewrite copied_lookup, decide_False; [by apply Hc2|].
    cbn. intros [? _]. lia.
Qed.

(** Go's growth of a slice of pointers: the arrays of one and of two options
    have no room to spare. *)
Context (grow1 : growCap 0 1 = 1%nat) (grow2 : growCap 1 2 = 2%nat).

Lemma holds_nil : holds emptyHeap nilSlice [].
Proof. split; [done|]. split; [cbn; lia|]. cbn. lia. Qed.
Lemma baseOptions_spec f :
  let '(h, s) := baseOptions growCap f in holds h s (common f) /\ ~ (sl_Len s < sl_Cap s)%nat.
Proof.
  unfold baseOptions, common. pose proof (append_full emptyHeap nilSlice [] MinVersionTLS13 holds_nil ltac:(cbn; lia)) as H1.
  assert (sl_Len (append growCap emptyHeap nilSlice MinVersionTLS13).2 = 1%nat) as Hlen by done.
  destruct (append growCap emptyHeap nilSlice MinVersionTLS13) as [h s]. destruct H1 as (H1 & Hcap & _). cbn in Hcap, Hlen.
  rewrite grow1 in Hcap. destruct (enableHTTP2 f); [split; [done|lia]|].
  pose proof (append_full h s _ DisableHTTP2 H1 ltac:(lia)) as H2.
  assert (sl_Len (append growCap h s DisableHTTP2).2 = 2%nat) as Hlen2.
  { unfold append. rewrite decide_False by lia. cbn. by rewrite Hlen. }
  destruct (append growCap h s DisableHTTP2) as [h' s']. destruct H2 as (H2 & Hcap2 & _). cbn in Hlen2. split; [done|].
  rewrite Hcap2, Hcap, Hlen, grow2. lia.
Qed.

(** The certificate watcher of a server. *)
Definition certOptions (w : option CertWatcher) : list TLSOption := CertificateOf <$> option_list w.
Definition watcherOf (path name key : string) (w : option CertWatcher) t : Prop :=
  match w with
  | Some w => path <> "" /\ t = [Ev (NewCertWatcher (join path name) (join path key)) (inr w)]
  | None => path = "" /\ t = []
  end.

Lemma addCertificate_spec path name key h s opts :
  holds h s opts -> ~ (sl_Len s < sl_Cap s)%nat ->
  wpx (addCertificate growCap join path name key h s) (fun t r =>
    watcherOf path name key r.1.1 t /\ holds r.1.2 r.2 (opts ++ certOptions r.1.1) /\
    forall s2 opts2, holds h s2 opts2 -> holds r.1.2 s2 opts2).
Proof.
  intros Hh Hfull. unfold addCertificate. case_decide as Hp; [apply wpx_proceed; cbn; by rewrite app_nil_r|].
  unfold wpx. wp_norm. intros [e|w]; wp_norm.
  - exists [], (Ev (NewCertWatcher (join path name) (join path key)) (inl e)). split_and!; [done|succeed|by eexists].
  - pose proof (append_full h s opts (CertificateOf w) Hh Hfull) as H1.
    destruct (append growCap h s (CertificateOf w)) as [h' s']. destruct H1 as (H1 & _ & H2). wp_norm.
    split; [succeed|]. by split_and!.
Qed.

(** *** Everything before the start *)

(** A server with this certificate watcher. *)
Definition serverTLS f (w : option CertWatcher) : TLSConfig :=
  mkTLSConfig VersionTLS13 (if enableHTTP2 f then [] else ["http/1.1"]) w.
Lemma tlsConfig_spec f w : tlsConfig (common f ++ certOptions w) = serverTLS f w.
Proof. unfold common, serverTLS. by destruct (enableHTTP2 f), w. Qed.

(** What is launched, with these certificates for the two servers. *)
Definition launchOf f (wh me : option CertWatcher) : Launch :=
  mkLaunch (webhookPort f) (serverTLS f wh) (metricsAddr f) (secureMetrics f) (secureMetrics f) (serverTLS f me)
    (probeAddr f) (pprofBindAddress f) (enableLeaderElection f).
(** The watcher of the files of a server, or none where no path is given. *)
Definition certificateOf (path name key : string) (w : option CertWatcher) t : Prop :=
  match w with
  | Some w => path <> "" /\ Ev (NewCertWatcher (join path name) (join path key)) (inr w) ∈ t
  | None => path = ""
  end.
Lemma watcherOf_certificate path name key w t t' :
  watcherOf path name key w t -> t ⊆ t' -> certificateOf path name key w t'.
Proof. destruct w as [w|]; cbn; [|tauto]. intros [H ->] Hsub. split; [done|]. apply Hsub. left. Qed.

Definition prepared f t (l : Launch) : Prop :=
  exists image nodeSets v wh me,
    l = launchOf f wh me /\
    certificateOf (webhookCertPath f) (webhookCertName f) (webhookCertKey f) wh t /\
    certificateOf (metricsCertPath f) (metricsCertName f) (metricsCertKey f) me t /\
    Ev (Getenv "ENABLE_WEBHOOKS") v ∈ t /\
    let enabled := negb (bool_decide (v = "false")) in
    milestones t = controllers image nodeSets ++ webhook enabled ++ (Runnable <$> option_list me) ++ (Runnable <$> option_list wh)
      ++ [Healthz (checkerOf enabled); Readyz (checkerOf enabled)].

Lemma watcherOf_milestones path name key w t : watcherOf path name key w t -> milestones t = [].
Proof. destruct w; [by intros [_ ->]|by intros [_ ->]]. Qed.

Lemma prepareMain_spec f : wpx (prepareMain growCap join f) (prepared f).
Proof.
  unfold prepareMain. pose proof (baseOptions_spec f) as Hbase. destruct (baseOptions growCap f) as [h s].
  destruct Hbase as [Hh Hfull].
  apply wpx_andThen. eapply wpx_mono; [|by apply addCertificate_spec]. intros t1 [[wh h1] s1] (Hw1 & Hh1 & Hk1).
  cbn [fst snd] in *.
  apply wpx_andThen. eapply wpx_mono; [|apply addCertificate_spec; [by apply Hk1|done]].
  intros t2 [[me h2] s2] (Hw2 & Hh2 & Hk2). cbn [fst snd] in *.
  apply wpx_andThen. eapply wpx_mono; [|apply startManager_spec]. cbv beta. intros t3 _ H3.
  apply wpx_andThen. eapply wpx_mono; [|apply setupControllers_spec]. cbv beta. intros t4 _ (image & nodeSets & H4).
  apply wpx_andThen. eapply wpx_mono; [|apply setupWebhooks_spec]. cbv beta. intros t5 c (v & Hv & H5 & ->).
  apply wpx_andThen. eapply wpx_mono; [|apply addWatcher_spec]. cbv beta. intros t6 _ H6.
  apply wpx_andThen. eapply wpx_mono; [|apply addWatcher_spec]. cbv beta. intros t7 _ H7.
  apply wpx_andThen. eapply wpx_mono; [|apply addChecks_spec]. cbv beta. intros t8 _ H8.
  apply wpx_proceed. exists image, nodeSets, v, wh, me.
  rewrite (holds_read _ _ _ (Hk2 _ _ Hh1)), (holds_read _ _ _ Hh2), !tlsConfig_spec. split; [done|].
  split; [eapply watcherOf_certificate; [done|sub_go]|]. split; [eapply watcherOf_certificate; [done|sub_go]|].
  split; [sub_in|].
  cbv zeta. rewrite !milestones_app, (watcherOf_milestones _ _ _ _ _ Hw1), (watcherOf_milestones _ _ _ _ _ Hw2), H3, H4, H5, H6, H7, H8.
  by rewrite app_nil_r.
Qed.

(** *** The start *)

Definition isStart X (c : MgrCall X) : bool := match c with Start _ => true | _ => false end.
Lemma indexFields_noStart ixs : avoids isStart (indexFields ixs).
Proof. induction ixs as [|[field g] ixs IH]; cbn [indexFields]; [exact I|]. emits_go. Qed.
#[local] Hint Resolve indexFields_noStart : emits.
Lemma prepareMain_noStart f : avoids isStart (prepareMain growCap join f).
Proof.
  unfold prepareMain. destruct (baseOptions growCap f) as [h s].
  unfold addCertificate, startManager, setupControllers, setupWebhooks, addWatcher, addChecks,
    SetupDefaults, KeystoneAPISetup, KeystoneServiceSetup, KeystoneEndpointSetup, ApplicationCredentialSetup,
    SetupKeystoneAPIWebhookWithManager, andThen, must, proceed. emits_go.
Qed.

Lemma main_spec f :
  wp (main growCap join f) (fun t code =>
    (code = 1%Z /\ endsFailed t /\ never isStart t) \/
    exists t0 l r, t = t0 ++ [Ev (Start l) r] /\ succeeded t0 /\ never isStart t0 /\ prepared f t0 l /\
      code = match r with None => 0%Z | Some _ => 1%Z end).
Proof.
  assert (Hno : wp (prepareMain growCap join f) (fun t _ => never isStart t)).
  { apply wp_runs. intros t a. apply avoids_runs, prepareMain_noStart. }
  unfold main, andThen. rewrite !wp_bind. eapply wp_mono; [|exact (wp_conj _ _ _ (prepareMain_spec f) Hno)]. cbv beta.
  intros t [l|]; wp_norm; [|intros [Hf Hn]; left; by rewrite !app_nil_r].
  intros [[Hs Hp] Hn] r. right. exists t, l, r. destruct r as [e|]; wp_norm; by rewrite ?app_nil_r.
Qed.

(** C15. The process serves only when everything it needs is in place.  Any
    failing step before the manager starts ends the process with code 1 and
    nothing runs after it; the code is 0 only after a manager that ran and
    stopped without an error.  When the manager starts, everything before it
    succeeded, in this order: the webhook's defaults, the field indexes, the
    four controllers with their watches, the webhook (unless ENABLE_WEBHOOKS is
    "false"), the certificate watchers, and both health checks, which ask the
    webhook server exactly when there is one.  Each server has its own
    certificate, no TLS version below 1.3, and no HTTP/2 unless it was asked
    for; metrics over HTTPS are behind authorization. *)
Theorem main_starts f t code :
  runs (main growCap join f) t code ->
  (code = 0%Z \/ code = 1%Z) /\
  (code = 0%Z <-> exists t0 l, t = t0 ++ [Ev (Start l) None]) /\
  (code = 1%Z -> endsFailed t) /\
  forall t1 l r t2, t = t1 ++ Ev (Start l) r :: t2 ->
    t2 = [] /\ succeeded t1 /\
    exists image nodeSets v wh me,
      l = launchOf f wh me /\
      certificateOf (webhookCertPath f) (webhookCertName f) (webhookCertKey f) wh t1 /\
      certificateOf (metricsCertPath f) (metricsCertName f) (metricsCertKey f) me t1 /\
      Ev (Getenv "ENABLE_WEBHOOKS") v ∈ t1 /\
      milestones t1 =
        controllers image nodeSets
        ++ (if decide (v = "false") then [] else [WebhookOf "KeystoneAPI"])
        ++ (Runnable <$> option_list me) ++ (Runnable <$> option_list wh)
        ++ (if decide (v = "false") then [Healthz Ping; Readyz Ping] else [Healthz WebhookStarted; Readyz WebhookStarted]).
Proof.
  intros Hr. wp_start Hr. eapply wp_mono; [|apply main_spec]. cbv beta. clear t code. intros t code H.
  assert (forall (u : list (event MgrCall)) t1 l r t2, never isStart u -> u = t1 ++ Ev (Start l) r :: t2 -> False) as Hnone.
  { intros u t1 l r t2 Hn ->. apply never_app in Hn as [_ Hn%Forall_cons]. by destruct Hn as [? _]. }
  destruct H as [(-> & Hf & Hn)|(t0 & l & r & -> & Hs & Hn & Hp & ->)].
  - split_and!; [by right| |done|intros; exfalso; by eapply Hnone]. split; [done|]. intros (t0 & l & Ht). exfalso.
    by eapply Hnone.
  - split_and!.
    + destruct r; [by right|by left].
    + split; [intros Hc; exists t0, l; by destruct r|].
      intros (t1 & l' & [-> Ht]%app_inj_tail). assert (l = l') as <- by by injection Ht. by apply Ev_inj in Ht as ->.
    + intros Hc. exists t0, (Ev (Start l) r). split_and!; [done..|by destruct r].
    + intros t1 l' r' t2 Ht. destruct (event_after (fun ev => evIs isStart ev = true) t0 _ t1 t2 _ Ht) as (t1' & -> & Ht1).
      { eapply Forall_impl; [exact Hn|]. cbv beta. congruence. }
      { done. }
      destruct t1' as [|? t1']; [|by destruct t1']. rewrite app_nil_r. injection Ht1 as <- _ <-.
      split_and!; [done..|]. destruct Hp as (image & nodeSets & v & wh & me & Hl & Hwh & Hme & Hv & Hm).
      exists image, nodeSets, v, wh, me. split_and!; [done..|]. rewrite Hm. cbv zeta. rewrite bool_decide_decide.
      by case_decide.
Qed.
End stages.

(** ** Witnesses *)

(** The growth of Go's slices, up to its size classes: to what is needed, and at
    least to twice the size. *)
Definition doubling (cap need : nat) : nat := Nat.max need (2 * cap).
Definition joinSlash (a b : string) : string := a +:+ "/" +:+ b.
(** A manager for which everything works; watchers are numbered. *)
Definition startHandler X (c : MgrCall X) (next : nat) : X * nat :=
  match c with
  | NewCertWatcher _ _ => (inr next, S next)
  | Getenv _ => ("true", next)
  | GetEnvVar _ default => (default, next)
  | SetAPIDefaults _ => (tt, next)
  | SetManagerOptions | GetConfigOrDie | NewManager | GetConfig | NewForConfig | IndexField _ _ _ | RESTMapping _
  | Complete _ _ | CompleteWebhook _ | AddRunnable _ | AddHealthzCheck _ _ | AddReadyzCheck _ _ | Start _ => (None, next)
  end.
Definition demoFlags : Flags :=
  mkFlags ":8443" ":8081" true true "/webhook" "tls.crt" "tls.key" "/metrics" "tls.crt" "tls.key" "" 9443 false.
Definition demoMain (growCap : nat -> nat -> nat) := exec startHandler (main growCap joinSlash demoFlags) 1%nat.
Definition launches (t : list (event MgrCall)) : list Launch :=
  omap (fun m => match m with Launched l => Some l | _ => None end) (milestones t).

Lemma main_starts_witness :
  (demoMain doubling).1.2 = 0%Z /\
  launches (demoMain doubling).1.1 = [launchOf demoFlags (Some 1%nat) (Some 2%nat)] /\
  exists t0 l, (demoMain doubling).1.1 = t0 ++ [Ev (Start l) None].
Proof.
  split; [vm_compute; reflexivity|]. split; [vm_compute; reflexivity|].
  apply (main_starts doubling joinSlash eq_refl eq_refl demoFlags _ _
    (exec_runs startHandler (main doubling joinSlash demoFlags) 1%nat)).
  vm_compute. reflexivity.
Defined.

(** The two servers are kept apart by the array of two options being full.  In an
    array of four the second [append] would overwrite what the first one wrote:
    the webhook server would get the certificate of the metrics server. *)
Example certificates_mixed :
  launches (demoMain (fun _ need => if decide (need <= 1)%nat then 1%nat else 4%nat)).1.1
  = [launchOf demoFlags (Some 2%nat) (Some 2%nat)].
Proof. vm_compute. reflexivity. Qed.
