(* ===== verification/Scheme.v ===== *)
(** The types the operator's clients know: the builder of the API group
    (api/v1beta1/groupversion_info.go), the types its files register, and the
    scheme cmd/main.go puts together before [main] runs. *)
From S2P Require Import Prelude Effects GoTime Api Watches Setup.

(** ** The API group *)

(** schema.GroupVersion and schema.GroupVersionKind *)
Record GroupVersionKind := mkGVK { gvk_Group : string; gvk_Version : string; gvk_Kind : string }.
#[export] Instance GroupVersionKind_eq_dec : EqDecision GroupVersionKind.
Proof. solve_decision. Defined.
#[export] Instance GroupVersionKind_countable : Countable GroupVersionKind.
Proof.
  refine (inj_countable' (fun g => (gvk_Group g, gvk_Version g, gvk_Kind g)) (fun x => mkGVK x.1.1 x.1.2 x.2) _). by intros [].
Defined.

Definition Group : string := "keystone.openstack.org".
Definition Version : string := "v1beta1".

(** scheme.Builder: the Go types it adds, each under its own name as the kind. *)
Definition Builder : Type := list (GroupVersionKind * string).
Definition goType (package kind : string) : string := package +:+ "." +:+ kind.
Definition Register (kinds : list string) (b : Builder) : Builder :=
  b ++ ((fun k => (mkGVK Group Version k, goType "keystonev1" k)) <$> kinds).

(** The [init] functions of the four files, which Go runs in the order of the
    file names. *)
Definition initAPITypes : Builder -> Builder := Register ["KeystoneAPI"; "KeystoneAPIList"].
Definition initACTypes : Builder -> Builder := Register ["KeystoneApplicationCredential"; "KeystoneApplicationCredentialList"].
Definition initEndpointTypes : Builder -> Builder := Register ["KeystoneEndpoint"; "KeystoneEndpointList"].
Definition initServiceTypes : Builder -> Builder := Register ["KeystoneService"; "KeystoneServiceList"].
Definition SchemeBuilder : Builder := initServiceTypes (initEndpointTypes (initACTypes (initAPITypes []))).

(** ** The scheme *)

(** runtime.Scheme: the Go type of a kind.  Another type for a kind that has
    one is a panic ([None]). *)
Definition scheme : Type := gmap GroupVersionKind string.
Definition addKnownType (s : scheme) (e : GroupVersionKind * string) : option scheme :=
  match s !! e.1 with
  | Some ty => if decide (ty = e.2) then Some s else None
  | None => Some (<[e.1 := e.2]> s)
  end.
Fixpoint AddToScheme (b : Builder) (s : scheme) : option scheme :=
  match b with
  | [] => Some s
  | e :: b => addKnownType s e ≫= AddToScheme b
  end.

Section init.
(** What the AddToScheme functions of the other packages add. *)
Context (clientgo mariadbv1 rabbitmqv1 memcachedv1 networkv1 topologyv1 : Builder).

(** The packages in the order of the calls in [init]. *)
Definition packages : list Builder :=
  [clientgo; SchemeBuilder; mariadbv1; rabbitmqv1; memcachedv1; networkv1; topologyv1].
(** utilruntime.Must: a panic ends the process before [main]. *)
Definition mainInit : option scheme := fold_left (fun s b => s ≫= AddToScheme b) packages (Some ∅).

Definition consistent (l : Builder) : Prop := forall g ty ty', (g, ty) ∈ l -> (g, ty') ∈ l -> ty = ty'.

Lemma AddToScheme_spec b s :
  (forall g ty, (g, ty) ∈ b -> forall ty', s !! g = Some ty' -> ty' = ty) -> consistent b ->
  exists s', AddToScheme b s = Some s' /\ forall g ty, s' !! g = Some ty <-> s !! g = Some ty \/ s !! g = None /\ (g, ty) ∈ b.
Proof.
  revert s; induction b as [|[g0 ty0] b IH]; intros s Hs Hb; cbn [AddToScheme].
  { exists s. split; [done|]. intros g ty. split; [by left|]. by intros [?|[_ ?%not_elem_of_nil]]. }
  assert (consistent b) as Hb' by (intros g ty ty' H1 H2; eapply Hb; by right).
  assert (forall g ty, (g, ty) ∈ b -> g = g0 -> ty = ty0) as H0 by (intros g ty Hin ->; eapply (Hb g0); [by right|left]).
  unfold addKnownType, scheme in *. cbn [fst snd]. destruct (s !! g0) as [ty|] eqn:L.
  - assert (ty = ty0) as -> by (by eapply Hs; [left|]). rewrite decide_True by done. cbn [mbind option_bind].
    destruct (IH s) as (s' & E & H); [intros g ty Hin; by apply Hs; right|done|]. exists s'. split; [done|]. intros g ty.
    rewrite H, elem_of_cons. split; [tauto|]. intros [?|[Hn [[= -> ->]|?]]]; [by left|congruence|right; by split].
  - cbn [mbind option_bind]. destruct (IH (<[g0 := ty0]> s)) as (s' & E & H); [|done|].
    { intros g ty Hin ty'. rewrite lookup_insert_Some. intros [[<- <-]|[_ Hl]]; [symmetry; by eapply H0|].
      by eapply Hs; [right|]. }
    exists s'. split; [done|]. intros g ty. rewrite H, lookup_insert_Some, lookup_insert_None, elem_of_cons.
    destruct (decide (g0 = g)) as [->|Hne]; [|intuition congruence].
    split; [intros [[[_ <-]|[? _]]|[[_ ?] _]]; [right; by split; [|left]|done|done]|].
    intros [Hg|[_ [[= ->]|Hin]]]; [congruence|left; by left|]. left. left. split; [done|]. symmetry. by apply (H0 g).
Qed.

(** When no two packages claim a kind for different types, the process gets to
    [main], and its clients know every type of every package, the custom
    resources of the operator and their lists among them, and nothing else. *)
Lemma mainInit_registers :
  consistent (concat packages) ->
  exists s, mainInit = Some s /\ forall g ty, s !! g = Some ty <-> (g, ty) ∈ concat packages.
Proof.
  unfold mainInit. intros Hc.
  assert (forall l (s : gmap GroupVersionKind string) seen, consistent (seen ++ concat l) ->
    (forall g ty, s !! g = Some ty <-> (g, ty) ∈ seen) ->
    exists s', fold_left (fun s b => s ≫= AddToScheme b) l (Some s) = Some s' /\
      forall g ty, s' !! g = Some ty <-> (g, ty) ∈ seen ++ concat l) as Hall.
  { induction l as [|b l IH]; intros s seen Hcl Hs; cbn [fold_left concat].
    { exists s. split; [done|]. intros g ty. by rewrite app_nil_r. }
    cbn [concat] in Hcl. destruct (AddToScheme_spec b s) as (s1 & E & H1).
    - intros g ty Hin ty' Hl%Hs. apply (Hcl g); rewrite !elem_of_app; auto.
    - intros g ty ty' Hin Hin'. apply (Hcl g); rewrite !elem_of_app; auto.
    - cbn [mbind option_bind]. rewrite E. rewrite app_assoc in Hcl.
      destruct (IH s1 (seen ++ b) Hcl) as (s' & E' & H').
      + intros g ty. rewrite H1, elem_of_app, Hs. split; [tauto|]. intros [?|Hin]; [by left|].
        destruct (s !! g) as [ty'|] eqn:L; [|by right]. left. apply Hs in L.
        assert (ty' = ty) as <- by (apply (Hcl g); rewrite !elem_of_app; auto). done.
      + exists s'. split; [done|]. intros g ty. by rewrite H', app_assoc. }
  destruct (Hall packages ∅ [] Hc) as (s & E & H); [|by exists s]. intros g ty. rewrite lookup_empty. split; [done|].
  by intros ?%not_elem_of_nil.
Qed.
End init.

(** The kinds of the watches of a controller that are of the operator's own
    group are registered. *)
Lemma own_watches_registered w b :
  w ∈ apiWatches ++ serviceWatches ++ endpointWatches ++ acWatches b -> wa_Handler w = EnqueueSelf ->
  (mkGVK Group Version (wa_Kind w), goType "keystonev1" (wa_Kind w)) ∈ SchemeBuilder.
Proof.
  assert (Forall (fun w => wa_Handler w = EnqueueSelf ->
    (mkGVK Group Version (wa_Kind w), goType "keystonev1" (wa_Kind w)) ∈ SchemeBuilder)
    (apiWatches ++ serviceWatches ++ endpointWatches ++ acWatches b)) as Hall.
  { repeat apply Forall_app_2; [..|destruct b]; repeat (constructor; [first [discriminate|intros _; set_solver]|]);
      constructor. }
  rewrite Forall_forall in Hall. apply Hall.
Qed.
