(* ===== verification/Catalogue.v ===== *)
(** The KeystoneEndpoint controller and Keystone's catalogue as one system: the
    catalogue the endpoints live in, the requests [reconcileEndpoints] sends it,
    and what a history of reconciles, edits of the spec, lost answers, lost
    status updates and crashes of the operator makes of it. *)
From S2P Require Import Prelude Effects World Tables GoTime Api Conditions Instances Calls External Demo EndpointController.

(** ** The catalogue *)

Record CatEntry := mkCatEntry { ce_Name : string; ce_ServiceID : string; ce_Availability : string; ce_URL : string }.
(** The registered endpoints by their ID. *)
Abbreviation catalogue := (gmap string CatEntry).

Definition entryOf (e : OSEndpoint) : CatEntry :=
  mkCatEntry (ose_Name e) (ose_ServiceID e) (ose_Availability e) (ose_URL e).
Definition listed (id : string) (c : CatEntry) : RegisteredEndpoint :=
  mkRegEndpoint id (ce_Name c) (ce_ServiceID c) (ce_URL c).
(** A service has one place per interface. *)
Definition slot (c : CatEntry) : string * string := (ce_ServiceID c, ce_Availability c).

(** A new entry under a new ID. *)
Definition created (cat : catalogue) (e : OSEndpoint) (id : string) (cat' : catalogue) : Prop :=
  id <> "" /\ cat !! id = None /\ cat' = <[id := entryOf e]> cat.
Definition updated (cat : catalogue) (e : OSEndpoint) (id : string) (cat' : catalogue) : Prop :=
  is_Some (cat !! id) /\ cat' = <[id := entryOf e]> cat.

Section catalogue.
Context `{XL : ExternalLib}.

(** One exchange with Keystone: the list of a slot is complete; a write that is
    confirmed was done; one that is not may have been done or not (the answer
    was lost), a delete in part.  Other calls leave the catalogue alone. *)
Definition catStep (cat : catalogue) (ev : event Call) (cat' : catalogue) : Prop :=
  match ev with
  | Ev c x =>
      match c in Call X return X -> Prop with
      | OSGetEndpoints _ serviceID ty => fun r => cat' = cat /\
          match r with
          | inl _ => True
          | inr l => exists a, GetAvailability ty = inr a /\ NoDup l /\
              forall re, re ∈ l <-> exists id c, cat !! id = Some c /\ slot c = (serviceID, a) /\ re = listed id c
          end
      | OSCreateEndpoint _ e => fun r =>
          match r with
          | inl _ => cat' = cat \/ exists id, created cat e id cat'
          | inr id => created cat e id cat'
          end
      | OSUpdateEndpoint _ e id => fun r =>
          match r with
          | inl _ => cat' = cat \/ updated cat e id cat'
          | inr id' => id' = id /\ updated cat e id cat'
          end
      | OSDeleteEndpoint _ e => fun r =>
          cat' ⊆ cat /\ (forall id c, cat !! id = Some c -> slot c <> slot (entryOf e) -> cat' !! id = Some c) /\
          (r = None -> forall id c, cat' !! id = Some c -> slot c <> slot (entryOf e))
      | _ => fun _ => cat' = cat
      end x
  end.

(** A whole exchange. *)
Definition catRun : catalogue -> trace -> catalogue -> Prop := wrun catStep.

(** A request Keystone did not confirm. *)
Definition unanswered (ev : event Call) : Prop :=
  match ev with
  | Ev c x =>
      match c in Call X return X -> Prop with
      | OSGetEndpoints _ _ _ => fun r => exists e, r = inl e
      | OSCreateEndpoint _ _ => fun r => exists e, r = inl e
      | OSUpdateEndpoint _ _ _ => fun r => exists e, r = inl e
      | OSDeleteEndpoint _ _ => fun r => r <> None
      | _ => fun _ => False
      end x
  end.
Definition answered (t : trace) : Prop := forall ev, ev ∈ t -> ~ unanswered ev.
Lemma answered_app t1 t2 : answered (t1 ++ t2) <-> answered t1 /\ answered t2.
Proof. unfold answered. setoid_rewrite elem_of_app. naive_solver. Qed.

(** ** Well-formed catalogues *)

(** The service has at most one entry per slot, and no entry has an empty ID. *)
Definition wfCat (serviceID : string) (cat : catalogue) : Prop :=
  cat !! "" = None /\ forall a, uniqueAt slot cat (serviceID, a).
(** The slot holds exactly one endpoint, with this ID and URL. *)
Definition holdsAt (cat : catalogue) (s : string * string) (id url : string) : Prop :=
  soleAt slot cat s id (fun c => ce_URL c = url).

Lemma wfCat_subset sid cat cat' : cat' ⊆ cat -> wfCat sid cat -> wfCat sid cat'.
Proof.
  intros Hsub [Hne Huniq]. split; [eapply lookup_weaken_None; eauto|]. intros a. by eapply uniqueAt_subset.
Qed.

(** Writing an entry: what the two writes have in common. *)
Lemma written_wf sid a cat id e :
  wfCat sid cat -> id <> "" -> slot (entryOf e) = (sid, a) ->
  (forall id' c', cat !! id' = Some c' -> slot c' = (sid, a) -> id' = id) ->
  (forall c, cat !! id = Some c -> slot c = (sid, a)) ->
  let cat' := <[id := entryOf e]> cat in
  wfCat sid cat' /\ sameOutside slot (eq (sid, a)) cat cat' /\ holdsAt cat' (sid, a) id (ose_URL e).
Proof.
  intros [Hne Huniq] Hid Hsl Honly Hold. cbv zeta. rewrite <- Hsl in *.
  destruct (written_entry slot cat id (entryOf e) Hid Honly Hold) as (Hs & (_ & (c & Hc & Hk & <-) & Hu) & Hwf).
  split_and!; [split; [by rewrite lookup_insert_ne|auto]|done|]. split_and!; [done| |done]. by exists (entryOf e).
Qed.

Lemma created_wf sid a cat e id cat' :
  wfCat sid cat -> emptyAt slot cat (sid, a) -> slot (entryOf e) = (sid, a) -> created cat e id cat' ->
  wfCat sid cat' /\ sameOutside slot (eq (sid, a)) cat cat' /\ holdsAt cat' (sid, a) id (ose_URL e).
Proof.
  intros Hwf He Hsl (Hid & Hfresh & ->). apply written_wf; [done..| |congruence].
  intros id' c' L S. by destruct (He _ _ L).
Qed.
Lemma updated_wf sid a cat e id cat' :
  wfCat sid cat -> slot (entryOf e) = (sid, a) -> (exists c, cat !! id = Some c /\ slot c = (sid, a)) ->
    updated cat e id cat' ->
  wfCat sid cat' /\ sameOutside slot (eq (sid, a)) cat cat' /\ holdsAt cat' (sid, a) id (ose_URL e).
Proof.
  intros Hwf Hsl (c & Hc & Hs) (_ & ->). apply written_wf; [done| |done| |].
  - intros ->. destruct Hwf as [Hne _]. congruence.
  - intros id' c' L S. destruct Hwf as [_ Hu]. eapply Hu; [exact L|exact Hc|exact S|exact Hs].
  - intros c' L. congruence.
Qed.
Lemma deleted_wf sid cat s cat' :
  wfCat sid cat -> cat' ⊆ cat -> (forall id c, cat !! id = Some c -> slot c <> s -> cat' !! id = Some c) ->
  wfCat sid cat' /\ sameOutside slot (eq s) cat cat'.
Proof.
  intros Hwf Hsub Hkeep. split; [by eapply wfCat_subset|]. intros id c Hc. split; [|intros L; by eapply lookup_weaken].
  intros L. apply Hkeep; [done|]. intros E. by apply Hc.
Qed.
End catalogue.

(** ** The loops against the catalogue *)

Section loops.
Context `{XL : ExternalLib}.
(** lib-common maps the interfaces to availabilities one to one. *)
Context (availability_inj : forall ty ty' a, GetAvailability ty = inr a -> GetAvailability ty' = inr a -> ty = ty').
Implicit Types (cat : catalogue) (i : KeystoneEndpoint).

Definition available (ty : string) : Prop := exists a, GetAvailability ty = inr a.
Definition serviceID i : string := kes_ServiceID (ke_status i).
(** The slots of some interfaces of a service. *)
Definition slots (sid : string) (types : list string) (s : string * string) : Prop :=
  exists ty a, ty ∈ types /\ GetAvailability ty = inr a /\ s = (sid, a).
(** The slot of an interface of the instance's service. *)
Definition registeredAt cat i (ty id url : string) : Prop :=
  exists a, GetAvailability ty = inr a /\ holdsAt cat (serviceID i, a) id url.
Definition unregistered cat i (ty : string) : Prop :=
  forall a, GetAvailability ty = inr a -> emptyAt slot cat (serviceID i, a).

Lemma slots_ty sid types ty a : GetAvailability ty = inr a -> slots sid types (sid, a) <-> ty ∈ types.
Proof.
  intros Ha. split; [|intros Hin; by exists ty, a]. intros (ty' & a' & Hin & Ha' & [= ->]).
  by rewrite (availability_inj _ _ _ Ha Ha').
Qed.
Lemma slots_one sid ty a s : GetAvailability ty = inr a -> eq (sid, a) s -> slots sid [ty] s.
Proof. intros Ha <-. exists ty, a. split_and!; [left|done|done]. Qed.
Lemma slots_sub sid l l' s : l ⊆ l' -> slots sid l s -> slots sid l' s.
Proof. intros Hl (ty & a & Hin & ? & ?). exists ty, a. auto. Qed.

(** The one endpoint a complete list shows. *)
Lemma listed_none cat sid a l :
  (forall re, re ∈ l <-> exists id c, cat !! id = Some c /\ slot c = (sid, a) /\ re = listed id c) -> l = [] ->
    emptyAt slot cat (sid, a).
Proof.
  intros Hl -> id c L S. assert (listed id c ∈ ([] : list RegisteredEndpoint)) as Hin by (apply Hl; by exists id, c).
  by apply elem_of_nil in Hin.
Qed.

(** A write that may or may not have happened when it is not confirmed. *)
Lemma written_outcome i ty a url cat cat' ev0 X (c : Call X) (x : X) (r : res string) (W : string -> Prop) :
  wfCat (serviceID i) cat -> GetAvailability ty = inr a -> (unanswered (Ev c x) <-> exists e, r = inl e) ->
  (forall id, W id -> wfCat (serviceID i) cat' /\ sameOutside slot (eq (serviceID i, a)) cat cat' /\
    holdsAt cat' (serviceID i, a) id url) ->
  match r with inl _ => cat' = cat \/ exists id, W id | inr id => W id end ->
  wfCat (serviceID i) cat' /\ sameOutside slot (slots (serviceID i) [ty]) cat cat' /\
  (forall id, r = inr id -> registeredAt cat' i ty id url) /\
  (answered ([ev0] ++ [Ev c x]) -> available ty -> exists id, r = inr id).
Proof.
  intros Hwf Ha Hun HW Hr.
  assert (forall c1, sameOutside slot (eq (serviceID i, a)) cat c1 ->
    sameOutside slot (slots (serviceID i) [ty]) cat c1) as Hsl.
  { intros c1. apply (sameOutside_mono slot). intros s. by apply slots_one. }
  destruct r as [e|id].
  - assert (answered ([ev0] ++ [Ev c x]) -> False) as Hno.
    { intros Hans. apply (Hans (Ev c x)); [right; left|]. apply Hun. by eexists. }
    destruct Hr as [->|[id Hid]]; [by split_and!|]. apply HW in Hid as (? & ? & _). split_and!; auto; done.
  - apply HW in Hr as (? & ? & ?). split_and!; [done|by apply Hsl| |intros; by eexists].
    intros ? [= <-]. by exists a.
Qed.

Lemma registerEndpoint_cat os ty url i cat :
  wfCat (serviceID i) cat ->
  wwp catStep (registerEndpoint os ty url i) cat (fun t cat' r =>
    wfCat (serviceID i) cat' /\ sameOutside slot (slots (serviceID i) [ty]) cat cat' /\
    (forall id, r = inr id -> registeredAt cat' i ty id url) /\
    (answered t -> available ty -> exists id, r = inr id)).
Proof.
  intros Hwf. unfold registerEndpoint. destruct (GetAvailability ty) as [e|a] eqn:Ha.
  { apply wwp_ret. split_and!; [done|done|done|]. intros _ [a Ha']. congruence. }
  assert (forall cat', sameOutside slot (eq (serviceID i, a)) cat cat' ->
    sameOutside slot (slots (serviceID i) [ty]) cat cat') as Hsl.
  { intros cat'. apply (sameOutside_mono slot). intros s. by apply slots_one. }
  assert (forall id cat', holdsAt cat' (serviceID i, a) id url -> registeredAt cat' i ty id url) as Hreg by (intros ???;
    by exists a).
  apply wwp_bind, wwp_call. intros all c1 [-> Hl]. destruct all as [e|l].
  { apply wwp_ret. split_and!; [done|done|done|]. intros Hans. destruct (Hans _ (list_elem_of_here _ _)). by exists e. }
  destruct Hl as (a' & Ha' & Hnd & Hl). rewrite Ha in Ha'. injection Ha' as <-.
  destruct l as [|endpoint [|e2 l]].
  - apply wwp_call. intros r cat' Hr. pose proof (listed_none _ _ _ _ Hl eq_refl) as He.
    apply (written_outcome i ty a url cat cat' _ _ _ r r (fun id => created cat (specEndpoint i a url) id cat'));
      [done|done|done| |exact Hr].
    intros id Hc. by apply (created_wf (serviceID i) a) in Hc.
  - destruct (proj1 (Hl endpoint) (list_elem_of_here _ _)) as (id & c & L & S & ->).
    assert (forall id' c', cat !! id' = Some c' -> slot c' = (serviceID i, a) -> id' = id) as Honly.
    { intros id' c' L' S'. destruct Hwf as [_ Hu]. by eapply Hu. }
    assert (id <> "") as Hid by (intros ->; destruct Hwf as [Hne _]; congruence).
    case_decide as Hurl; cbn [listed re_URL re_ID re_Name re_ServiceID] in *.
    + apply wwp_ret. split_and!; [done|done| |intros; by eexists]. intros ? [= <-]. apply Hreg. split_and!; [done| |done].
      exists c. done.
    + apply wwp_call. intros r cat' Hr.
      apply (written_outcome i ty a url cat cat' _ _ _ r r (fun id' => id' = id /\ updated cat (mkOSEndpoint (ce_Name c) (ce_ServiceID c) a url) id cat'));
        [done|done|done| |by destruct r as [|]; [destruct Hr; eauto|]].
      intros ? [-> Hu]. apply (updated_wf (serviceID i) a) in Hu; [done|done| |by exists c].
      injection S as E _. unfold slot. cbn. by rewrite E.
  - destruct (proj1 (Hl endpoint) (list_elem_of_here _ _)) as (id1 & c1 & L1 & S1 & ->).
    destruct (proj1 (Hl e2) ltac:(by right; left)) as (id2 & c2 & L2 & S2 & ->).
    destruct Hwf as [_ Hu]. assert (id1 = id2) as -> by exact (Hu _ _ _ _ _ L1 L2 S1 S2). assert (c1 = c2) as -> by congruence.
    apply NoDup_cons in Hnd as [Hnd _]. exfalso. apply Hnd. left.
Qed.

(** What a loop keeps of the instance. *)
Definition sameBinding i i' : Prop := ke_spec i' = ke_spec i /\ serviceID i' = serviceID i.
Lemma recordStatus_binding ty url id i : sameBinding i (recordStatus ty url id i).
Proof. split; [apply recordStatus_spec|]. unfold recordStatus, serviceID. by repeat case_match. Qed.
Lemma removeStatus_binding ty i : sameBinding i (removeStatus ty i).
Proof. split; [apply removeStatus_spec|]. unfold removeStatus, serviceID. by repeat case_match. Qed.

Lemma createOrUpdate_cat os types i cat :
  NoDup types -> (forall ty, ty ∈ types -> is_Some (ke_Endpoints (ke_spec i) !! ty)) -> wfCat (serviceID i) cat ->
  wwp catStep (createOrUpdate os types i) cat (fun t cat' r =>
    sameBinding i r.1 /\ wfCat (serviceID i) cat' /\ sameOutside slot (slots (serviceID i) types) cat cat' /\
    (r.2 = None -> forall ty, if decide (ty ∈ types)
       then exists id, kes_EndpointIDs (ke_status r.1) !! ty = Some id /\
              registeredAt cat' i ty id (default "" (ke_Endpoints (ke_spec i) !! ty))
       else kes_EndpointIDs (ke_status r.1) !! ty = kes_EndpointIDs (ke_status i) !! ty) /\
    (answered t -> Forall available types -> r.2 = None)).
Proof.
  revert i cat; induction types as [|ty types IH]; intros i cat Hnd Hspec Hwf; cbn [createOrUpdate].
  { apply wwp_ret. split_and!; try done. }
  apply NoDup_cons in Hnd as [Hty Hnd]. apply wwp_bind.
  eapply wwp_mono; [|by apply registerEndpoint_cat]. cbv beta. intros t1 c1 r (Hwf1 & Hs1 & Hreg & Hans).
  destruct r as [e|id].
  { apply wwp_ret. split_and!; [done|done| |done|].
    - eapply (sameOutside_mono slot); [|exact Hs1]. intros s. apply slots_sub. set_solver.
    - intros Ha [Hav _]%Forall_cons. rewrite app_nil_r in Ha. by destruct (Hans Ha Hav). }
  specialize (Hreg id eq_refl) as Hid. set (url := default "" _) in *.
  destruct (recordStatus_binding ty url id i) as [Eb1 Eb2]. set (i1 := recordStatus ty url id i) in *.
  eapply wwp_mono; [|apply IH]; [|done|intros ty' Hin; rewrite Eb1; apply Hspec; by right|by rewrite Eb2].
  cbv beta. rewrite Eb2. intros t2 c2 [i2 err] ([B1 B2] & Hwf2 & Hs2 & Hok & Hans2). cbn [fst snd] in *. split_and!.
  - split; congruence.
  - done.
  - transitivity c1; (eapply (sameOutside_mono slot); [|first [exact Hs1|exact Hs2]]); intros s; apply slots_sub; set_solver.
  - intros Hnone ty'. specialize (Hok Hnone ty'). destruct Hid as (a & Ha & Hh).
    assert (kes_EndpointIDs (ke_status i1) = <[ty:=id]> (kes_EndpointIDs (ke_status i))) as Eids.
    { apply recordStatus_ids; [apply Hh|]. apply Hspec. left. }
    rewrite Eids, Eb1 in Hok. unfold registeredAt in *. rewrite Eb2 in Hok.
    destruct (decide (ty' ∈ types)) as [Hin|Hnin].
    { rewrite decide_True by (by right). exact Hok. }
    destruct (decide (ty' = ty)) as [->|Hne].
    + rewrite decide_True by left. exists id. rewrite lookup_insert_eq in Hok. split; [done|]. exists a. split; [done|].
      eapply (soleAt_outside slot); [exact Hs2| |exact Hh]. by rewrite slots_ty.
    + rewrite decide_False by (intros [?|?]%elem_of_cons; done). by rewrite lookup_insert_ne in Hok.
  - intros [Ha1 Ha2]%answered_app [_ Hav]%Forall_cons. by apply Hans2.
Qed.

(** The interfaces that have a status and have left the spec. *)
Definition stale (spec : KeystoneEndpointSpec) (ty : string) : Prop := ke_Endpoints spec !! ty = None.
#[export] Instance stale_dec spec ty : Decision (stale spec ty).
Proof. unfold stale. apply _. Defined.

Lemma deleteStale_cat os types i cat :
  wwp catStep (deleteStale os types i) cat (fun t cat' r =>
    sameBinding i r.1 /\ cat' ⊆ cat /\ sameOutside slot (slots (serviceID i) types) cat cat' /\
    (r.2 = None -> forall ty, if decide (ty ∈ types /\ stale (ke_spec i) ty)
       then kes_EndpointIDs (ke_status r.1) !! ty = None /\ unregistered cat' i ty
       else kes_EndpointIDs (ke_status r.1) !! ty = kes_EndpointIDs (ke_status i) !! ty) /\
    (answered t -> Forall available types -> r.2 = None)).
Proof.
  revert i cat; induction types as [|ty types IH]; intros i cat; cbn [deleteStale].
  { apply wwp_ret. do 3 (split; [done|]). split; [|done]. intros _ ty. rewrite decide_False; [done|]. intros [Hin _].
    by apply elem_of_nil in Hin. }
  destruct (ke_Endpoints (ke_spec i) !! ty) as [url|] eqn:Hurl.
  { eapply wwp_mono; [|apply IH]. cbv beta. intros t c r (B & Hsub & Hs & Hok & Hans). split_and!; [done..| | |].
    - eapply (sameOutside_mono slot); [|exact Hs]. intros s. apply slots_sub. set_solver.
    - intros Hn ty'. specialize (Hok Hn ty'). destruct (decide (ty' ∈ types /\ stale (ke_spec i) ty')) as [[? ?]|Hno].
      + by rewrite decide_True by (split; [right|]; done).
      + rewrite decide_False; [done|]. intros [[->|?]%elem_of_cons Hst]; [|by apply Hno]. unfold stale in Hst. congruence.
    - intros Ha [_ Hav]%Forall_cons. by apply Hans. }
  destruct (GetAvailability ty) as [e|a] eqn:Ha.
  { apply wwp_ret. split_and!; try done. intros _ [[a ?] _]%Forall_cons. congruence. }
  apply wwp_bind, wwp_call. intros err c1 (Hsub1 & Hkeep & Hgone). change (slot (entryOf _)) with (serviceID i, a) in *.
  assert (sameOutside slot (slots (serviceID i) (ty :: types)) cat c1) as Hs1.
  { intros id c Hc. split; [|intros L; by eapply lookup_weaken]. intros L. apply Hkeep; [done|]. intros E. apply Hc. rewrite E.
    exists ty, a. split_and!; [left|done|done]. }
  destruct err as [e|].
  { apply wwp_ret. split_and!; try done. intros Hno. exfalso. by apply (Hno _ (list_elem_of_here _ _)). }
  destruct (removeStatus_binding ty i) as [Eb1 Eb2].
  eapply wwp_mono; [|apply IH]. cbv beta. rewrite Eb2. intros t c2 [i2 err] ([B1 B2] & Hsub & Hs & Hok & Hans).
  cbn [fst snd] in *.
  split_and!.
  - split; congruence.
  - by etransitivity.
  - transitivity c1; [done|]. eapply (sameOutside_mono slot); [|exact Hs]. intros s. apply slots_sub. set_solver.
  - intros Hn ty'. specialize (Hok Hn ty'). unfold unregistered in *. rewrite removeStatus_ids, Eb1, Eb2 in Hok.
    assert (forall a', GetAvailability ty = inr a' -> emptyAt slot c2 (serviceID i, a')) as Hty.
    { intros a' Ha' id c L. rewrite Ha in Ha'. injection Ha' as <-. apply (Hgone eq_refl id). by eapply lookup_weaken. }
    destruct (decide (ty' = ty)) as [->|Hne].
    + rewrite decide_True by (split; [left|done]). case_decide; [done|]. rewrite lookup_delete_eq in Hok. by split.
    + case_decide as H1; case_decide as H2; try done.
      * exfalso. apply H2. destruct H1. split; [by right|done].
      * exfalso. apply H1. destruct H2 as [[?|?]%elem_of_cons ?]; done.
      * by rewrite lookup_delete_ne in Hok.
  - intros Hall [_ Hav]%Forall_cons. apply Hans; [|done]. intros ev Hev. apply Hall. by right.
Qed.

(** What a reconcile that succeeds leaves: the interfaces of the spec are the
    ones in the status, and each is the one endpoint of its slot, with the
    spec's URL and the recorded ID. *)
Definition converged cat i : Prop :=
  forall ty, match ke_Endpoints (ke_spec i) !! ty with
    | Some url => exists id, kes_EndpointIDs (ke_status i) !! ty = Some id /\ registeredAt cat i ty id url
    | None => kes_EndpointIDs (ke_status i) !! ty = None
    end.
(** All interfaces the instance deals with exist. *)
Definition interfacesKnown i : Prop :=
  forall ty, is_Some (ke_Endpoints (ke_spec i) !! ty) \/ is_Some (kes_EndpointIDs (ke_status i) !! ty) -> available ty.

(** The slots of the interfaces the spec or the status knows. *)
Definition concerned i (s : string * string) : Prop :=
  exists ty a, (is_Some (ke_Endpoints (ke_spec i) !! ty) \/ is_Some (kes_EndpointIDs (ke_status i) !! ty)) /\
    GetAvailability ty = inr a /\ s = (serviceID i, a).
Lemma concerned_service i s : concerned i s -> s.1 = serviceID i.
Proof. by intros (ty & a & _ & _ & ->). Qed.

Lemma reconcileEndpoints_cat os i cat :
  wfCat (serviceID i) cat ->
  wwp catStep (reconcileEndpoints os i) cat (fun t cat' r =>
    sameBinding i r.1 /\ wfCat (serviceID i) cat' /\ sameOutside slot (concerned i) cat cat' /\
    (r.2 = None -> converged cat' r.1 /\
       forall ty, is_Some (kes_EndpointIDs (ke_status i) !! ty) -> stale (ke_spec i) ty -> unregistered cat' i ty) /\
    (answered t -> interfacesKnown i -> r.2 = None)).
Proof.
  intros Hwf. unfold reconcileEndpoints. apply wwp_bind. set (types := sortedKeys (kes_EndpointIDs (ke_status i))).
  assert (forall l s, (forall ty, ty ∈ l -> is_Some (ke_Endpoints (ke_spec i) !! ty) \/ is_Some (kes_EndpointIDs (ke_status i) !! ty)) ->
    slots (serviceID i) l s -> concerned i s) as Hsl by (intros l s Hl (ty & a & Hty & ? & ?); exists ty, a; auto).
  assert (forall c c', sameOutside slot (slots (serviceID i) types) c c' -> sameOutside slot (concerned i) c c') as Hsl1.
  { intros c c'. apply sameOutside_mono. intros s. apply Hsl. intros ty Hty%elem_of_sortedKeys. by right. }
  assert (forall c c', sameOutside slot (slots (serviceID i) (sortedKeys (ke_Endpoints (ke_spec i)))) c c' ->
    sameOutside slot (concerned i) c c') as Hsl2.
  { intros c c'. apply sameOutside_mono. intros s. apply Hsl. intros ty Hty%elem_of_sortedKeys. by left. }
  eapply wwp_mono; [|apply deleteStale_cat]. cbv beta. intros t1 c1 [i1 err] ([B1 B2] & Hsub & Hs1 & Hok1 & Hans1).
  cbn [fst snd] in *.
  pose proof (wfCat_subset _ _ _ Hsub Hwf) as Hwf1.
  destruct err as [e|].
  { apply wwp_ret. split_and!; [done|done|by apply Hsl1|done|]. intros Ha Hk.
    rewrite app_nil_r in Ha.
    apply Hans1; [done|]. apply Forall_forall. intros ty Hty%elem_of_sortedKeys. apply Hk. by right. }
  specialize (Hok1 eq_refl).
  eapply wwp_mono; [|apply createOrUpdate_cat]; [|apply sortedKeys_NoDup|by intros ty Hty%elem_of_sortedKeys|by rewrite B2].
  cbv beta. rewrite B1, B2. intros t2 c2 [i2 err] ([C1 C2] & Hwf2 & Hs2 & Hok2 & Hans2). cbn [fst snd] in *. split_and!.
  - split; congruence.
  - done.
  - transitivity c1; [by apply Hsl1|by apply Hsl2].
  - intros Hn. specialize (Hok2 Hn). split.
    + intros ty. specialize (Hok1 ty). specialize (Hok2 ty). unfold registeredAt in *. rewrite C1, C2, B1, B2 in *.
      destruct (ke_Endpoints (ke_spec i) !! ty) as [url|] eqn:Hurl.
      * rewrite decide_True in Hok2 by (apply elem_of_sortedKeys; eauto). exact Hok2.
      * rewrite decide_False in Hok2 by (rewrite elem_of_sortedKeys, Hurl; by intros []). rewrite Hok2.
        case_decide as Hd; [apply Hok1|]. rewrite Hok1. apply eq_None_not_Some. intros Hsome. apply Hd. split; [|done].
        by apply elem_of_sortedKeys.
    + intros ty Hsome Hst. specialize (Hok1 ty).
      rewrite decide_True in Hok1 by (split; [by apply elem_of_sortedKeys|done]). destruct Hok1 as [_ He].
      intros a Ha. eapply (emptyAt_outside slot); [exact Hs2| |by apply He]. rewrite slots_ty by exact Ha.
      rewrite elem_of_sortedKeys. unfold stale in Hst. rewrite Hst. by intros [].
  - intros [_ Ha2]%answered_app Hk. apply Hans2; [done|]. apply Forall_forall. intros ty Hty%elem_of_sortedKeys. apply Hk.
    by left.
Qed.
End loops.

(** ** A history of reconciles *)

(** The requests [reconcileEndpoints] makes. *)
Definition catalogueCall (X : Type) (c : Call X) : Prop :=
  match c with
  | OSGetEndpoints _ _ _ | OSCreateEndpoint _ _ | OSUpdateEndpoint _ _ _ | OSDeleteEndpoint _ _ => True
  | _ => False
  end.

Section history.
Context `{XL : ExternalLib} (os : OSClient).
Implicit Types (cat : catalogue) (i : KeystoneEndpoint).

Lemma deleteStale_emits types i : emits catalogueCall (deleteStale os types i).
Proof. revert i; induction types as [|ty types IH]; intros i; cbn [deleteStale]; emits_go; first [exact I|apply IH]. Qed.
Lemma createOrUpdate_emits types i : emits catalogueCall (createOrUpdate os types i).
Proof.
  revert i; induction types as [|ty types IH]; intros i; cbn [createOrUpdate]; unfold registerEndpoint; emits_go;
    first [exact I|apply IH].
Qed.
Lemma reconcileEndpoints_emits i : emits catalogueCall (reconcileEndpoints os i).
Proof.
  unfold reconcileEndpoints. apply emits_bind; [apply deleteStale_emits|].
  intros [i1 [e|]]; [exact I|apply createOrUpdate_emits].
Qed.

Lemma catalogue_fails X (c : Call X) cat : catalogueCall X c -> exists x, catStep cat (Ev c x) cat.
Proof.
  intros Hc. destruct c; try destruct Hc; cbn.
  1: exists (Some (errorf "lost")); done.
  all: exists (inl (errorf "lost")); auto.
Qed.

(** The user edits the endpoints of the spec. *)
Definition setEndpoints (endpoints : gmap string string) i : KeystoneEndpoint :=
  mkKeystoneEndpoint (ke_meta i) (mkEndpointSpec (ke_ServiceName (ke_spec i)) endpoints) (ke_status i).
Definition edited i i' : Prop := exists endpoints, i' = setEndpoints endpoints i.
(** The catalogue, and the KeystoneEndpoint as the API server stores it. *)
Definition catalogueStep : catalogue * KeystoneEndpoint -> catalogue * KeystoneEndpoint -> Prop :=
  step catStep (reconcileEndpoints os) edited.

Context (availability_inj : forall ty ty' a, GetAvailability ty = inr a -> GetAvailability ty' = inr a -> ty = ty').

(** No history duplicates an endpoint, or touches another service's. *)
Lemma reachable_invariant s s' :
  rtc catalogueStep s s' -> wfCat (serviceID s.2) s.1 ->
  serviceID s'.2 = serviceID s.2 /\ wfCat (serviceID s.2) s'.1 /\ sameOutside slot (fun x => x.1 = serviceID s.2) s.1 s'.1.
Proof.
  intros Hreach Hwf. set (sid := serviceID s.2) in *.
  apply (step_invariant catStep catalogueCall catalogue_fails (reconcileEndpoints os) edited
    (fun cat i => serviceID i = sid /\ wfCat sid cat /\ sameOutside slot (fun x => x.1 = sid) s.1 cat) s s'); [| | |done|done].
  - intros cat i i' [eps ->] H. exact H.
  - exact reconcileEndpoints_emits.
  - intros cat i (E & Hc & Hs). rewrite <- E in Hc, Hs |- *.
    eapply wwp_mono; [|by apply (reconcileEndpoints_cat availability_inj)]. cbv beta.
    intros t cat' r ([_ B] & Hc' & Hs' & _).
    apply (sameOutside_mono slot _ _ _ _ (concerned_service i)) in Hs'. split; (split_and!; [done|done|by transitivity cat]).
Qed.

(** C7. The catalogue converges, whatever happened before: from a catalogue
    with at most one endpoint per interface of the service, after any history
    of edits of the spec, reconciles that succeed or fail, requests whose
    answer is lost, status updates that are lost and crashes in the middle of
    a reconcile, the next reconcile of interfaces Keystone knows whose requests
    are all answered succeeds (no endpoint was ever duplicated), and a reconcile
    that succeeds leaves exactly one endpoint per interface of the spec, with
    the spec's URL and the ID the status records, and none for the interfaces
    that left the spec and the status still knew.  Successful or not, it leaves
    every other endpoint as it is: those of the service for interfaces that
    neither the spec nor the status knows (an endpoint that was created when
    the status update was lost, and whose interface then left the spec, is such
    a one: [endpoint_orphaned]), and over the whole history those of other
    services. *)
Theorem catalogue_converges s s' t i' err cat' :
  wfCat (serviceID s.2) s.1 -> rtc catalogueStep s s' ->
  runs (reconcileEndpoints os s'.2) t (i', err) -> catRun s'.1 t cat' ->
  (answered t -> interfacesKnown s'.2 -> err = None) /\
  (err = None -> converged cat' i' /\ ke_spec i' = ke_spec s'.2 /\
     forall ty, is_Some (kes_EndpointIDs (ke_status s'.2) !! ty) -> stale (ke_spec s'.2) ty -> unregistered cat' i' ty) /\
  sameOutside slot (concerned s'.2) s'.1 cat' /\ sameOutside slot (fun x => x.1 = serviceID s.2) s.1 cat'.
Proof.
  intros Hwf Hreach Hr Hrun. destruct (reachable_invariant _ _ Hreach Hwf) as (E & Hwf' & Hs).
  rewrite <- E in Hwf', Hs |- *.
  destruct (wwp_runs _ _ _ _ _ _ _ (reconcileEndpoints_cat availability_inj os s'.2 s'.1 Hwf') Hr Hrun)
    as ([B1 B2] & _ & Hs' & Hok & Hans). cbn [fst snd] in *.
  split_and!; [done| |done|].
  2: { transitivity s'.1; [done|]. exact (sameOutside_mono slot _ _ _ _ (concerned_service s'.2) Hs'). }
  intros Hn. destruct (Hok Hn) as [Hc Hst]. split_and!; [done|done|].
  intros ty H1 H2. unfold unregistered in *. rewrite B2. by apply Hst.
Qed.
End history.

(** ** A Keystone to run against *)

(** Keystone answering every request, its catalogue the state. *)
Definition keystone (X : Type) (c : Call X) (cat : catalogue) : X * catalogue :=
  match c in Call X return X * catalogue with
  | OSGetEndpoints _ sid ty =>
      (match GetAvailability ty with
       | inl e => inl e
       | inr a => inr ((fun p => listed p.1 p.2) <$> map_to_list (filter (fun p : string * CatEntry => slot p.2 = (sid, a)) cat))
       end, cat)
  | OSCreateEndpoint _ e => (inr (newID cat), <[newID cat := entryOf e]> cat)
  | OSUpdateEndpoint _ e id =>
      match cat !! id with
      | Some _ => (inr id, <[id := entryOf e]> cat)
      | None => (inl (errorf "not found"), cat)
      end
  | OSDeleteEndpoint _ e => (None, filter (fun p : string * CatEntry => slot p.2 <> slot (entryOf e)) cat)
  | c => ((nullHandler _ c tt).1, cat)
  end.

Lemma keystone_step X (c : Call X) cat : catStep cat (Ev c (keystone X c cat).1) (keystone X c cat).2.
Proof.
  destruct c; try reflexivity; cbn [keystone catStep fst snd].
  - split_and!.
    + apply map_filter_subseteq.
    + intros id c L Hs. by apply map_lookup_filter_Some.
    + intros _ id c [_ Hs]%map_lookup_filter_Some. exact Hs.
  - split; [done|]. destruct (GetAvailability interface) as [err|a]; [exact I|]. exists a. split; [done|]. split.
    + apply (NoDup_fmap_1 re_ID). rewrite <- list_fmap_compose. apply NoDup_fst_map_to_list.
    + intros re. rewrite list_elem_of_fmap. split.
      * intros ([id c] & -> & [L Hs]%elem_of_map_to_list%map_lookup_filter_Some). by exists id, c.
      * intros (id & c & L & Hs & ->). exists (id, c). split; [done|]. by apply elem_of_map_to_list, map_lookup_filter_Some.
  - destruct (newID_fresh cat). done.
  - destruct (cat !! id) as [c|] eqn:L; cbn; [|by left]. split; [done|]. by split; [exists c|].
Qed.

Lemma keystone_run {A} (p : program A) cat : catRun cat (exec keystone p cat).1.1 (exec keystone p cat).2.
Proof. apply exec_wrun, keystone_step. Qed.

(** A KeystoneEndpoint that was never reconciled, and what its first reconcile
    makes of an empty catalogue. *)
Definition newEndpoint : KeystoneEndpoint :=
  mkKeystoneEndpoint (newMeta "keystone" "openstack") demoEndpointSpec (mkEndpointStatus ∅ "service-id" None [] 0).
Definition firstRun : trace * (KeystoneEndpoint * option GoError) * catalogue :=
  exec keystone (reconcileEndpoints 0%nat newEndpoint) ∅.
(** The reconcile after one whose status was lost. *)
Definition secondRun : trace * (KeystoneEndpoint * option GoError) * catalogue :=
  exec keystone (reconcileEndpoints 0%nat newEndpoint) firstRun.2.

Lemma wfCat_empty sid : wfCat sid ∅.
Proof. split; [done|]. intros a id id' c c' H. by rewrite lookup_empty in H. Qed.
Lemma demo_availability ty ty' a : GetAvailability ty = inr a -> GetAvailability ty' = inr a -> ty = ty'.
Proof. cbn. by repeat case_decide; intros [= ->] [= ->]. Qed.
Lemma firstRun_lost : rtc (catalogueStep 0%nat) (∅, newEndpoint) (firstRun.2, newEndpoint).
Proof.
  apply rtc_once. apply (step_lost _ _ _ _ _ firstRun.1.1 firstRun.1.2); [apply exec_runs|apply keystone_run].
Qed.

(** A status that is lost can cost an endpoint: when the reconcile that created
    the endpoints could not store their IDs and the user then removes them from
    the spec, every later reconcile succeeds and leaves them in the catalogue. *)
Lemma endpoint_orphaned :
  let s := (firstRun.2, setEndpoints ∅ newEndpoint) in
  rtc (catalogueStep 0%nat) (∅, newEndpoint) s /\ size s.1 = 2%nat /\
  forall t i' err cat', runs (reconcileEndpoints 0%nat s.2) t (i', err) -> catRun s.1 t cat' -> err = None /\ cat' = s.1.
Proof.
  cbv zeta. split; [|split].
  - eapply rtc_r; [exact firstRun_lost|]. apply step_edit. by eexists.
  - vm_compute. reflexivity.
  - intros t i' err cat' Hr Hc. vm_compute in Hr. destruct Hr as [-> [= <- <-]]. by destruct Hc.
Qed.

Lemma catalogue_converges_witness :
  size firstRun.2 = 2%nat /\ secondRun.1.2.2 = None /\ converged secondRun.2 secondRun.1.2.1.
Proof.
  split; [vm_compute; reflexivity|]. assert (secondRun.1.2.2 = None) as Hn by (vm_compute; reflexivity). split; [exact Hn|].
  destruct (catalogue_converges 0%nat demo_availability (∅, newEndpoint) (firstRun.2, newEndpoint) secondRun.1.1
    secondRun.1.2.1 secondRun.1.2.2 secondRun.2) as (_ & H & _).
  - apply wfCat_empty.
  - exact firstRun_lost.
  - rewrite <- surjective_pairing. apply (exec_runs keystone (reconcileEndpoints 0%nat newEndpoint) firstRun.2).
  - apply (keystone_run (reconcileEndpoints 0%nat newEndpoint) firstRun.2).
  - exact (proj1 (H Hn)).
Defined.
