(* ===== verification/Registry.v ===== *)
(** The KeystoneService controller and Keystone's services as one system: the
    services by type and name, the requests [reconcileService] and [deregister]
    make, and what a history of reconciles, edits of the spec, lost answers,
    lost status updates and crashes of the operator makes of them. *)
From S2P Require Import Prelude Effects World Tables GoTime Api Conditions Instances Calls External Demo ServiceController.

(** ** The services *)

Record SvcEntry := mkSvcEntry { se_Type : string; se_Name : string; se_Enabled : bool; se_Extra : gmap string string }.
(** The registered services by their ID. *)
Abbreviation registry := (gmap string SvcEntry).

Definition svcKey (v : SvcEntry) : string * string := (se_Type v, se_Name v).
Definition keyOf (s : OSService) : string * string := (oss_Type s, oss_Name s).
Definition shown (id : string) (v : SvcEntry) : RegisteredService := mkRegService id (se_Enabled v) (se_Extra v).
(** The entry is the service the operator wrote; what else it holds is
    Keystone's own. *)
Definition shows (s : OSService) (v : SvcEntry) : Prop :=
  svcKey v = keyOf s /\ se_Enabled v = oss_Enabled s /\ se_Extra v !! "description" = Some (oss_Description s).

(** A new entry under a new ID; a new content of an entry. *)
Definition svcCreated (reg : registry) (s : OSService) (id : string) (reg' : registry) : Prop :=
  id <> "" /\ reg !! id = None /\ exists v, shows s v /\ reg' = <[id := v]> reg.
Definition svcUpdated (reg : registry) (s : OSService) (id : string) (reg' : registry) : Prop :=
  is_Some (reg !! id) /\ exists v, shows s v /\ reg' = <[id := v]> reg.

Section registry.
Context `{XL : ExternalLib}.

(** One exchange with Keystone: a search by type and name finds the service, or
    says that there is none, or fails; a write that is confirmed was done; one
    that is not may have been done or not.  Other calls leave the services
    alone. *)
Definition regStep (reg : registry) (ev : event Call) (reg' : registry) : Prop :=
  match ev with
  | Ev c x =>
      match c in Call X return X -> Prop with
      | OSGetService _ type name => fun r => reg' = reg /\
          match r with
          | (Some s, None) => exists id v, reg !! id = Some v /\ svcKey v = (type, name) /\ s = shown id v
          | (None, Some e) => Contains (Error e) ServiceNotFound = true -> emptyAt svcKey reg (type, name)
          | _ => False
          end
      | OSCreateService _ s => fun r =>
          match r with
          | (id, None) => svcCreated reg s id reg'
          | (_, Some _) => reg' = reg \/ exists id, svcCreated reg s id reg'
          end
      | OSUpdateService _ s id => fun r =>
          match r with
          | None => svcUpdated reg s id reg'
          | Some _ => reg' = reg \/ svcUpdated reg s id reg'
          end
      | OSDeleteService _ id => fun r =>
          match r with
          | None => reg' = delete id reg
          | Some _ => reg' = reg \/ reg' = delete id reg
          end
      | _ => fun _ => reg' = reg
      end x
  end.
Definition regRun : registry -> trace -> registry -> Prop := wrun regStep.

(** A request Keystone did not confirm; that there is no such service is an
    answer. *)
Definition refused (ev : event Call) : Prop :=
  match ev with
  | Ev c x =>
      match c in Call X return X -> Prop with
      | OSGetService _ _ _ => fun r => exists e, r.2 = Some e /\ Contains (Error e) ServiceNotFound = false
      | OSCreateService _ _ => fun r => r.2 <> None
      | OSUpdateService _ _ _ => fun r => r <> None
      | _ => fun _ => False
      end x
  end.
Definition confirmed (t : trace) : Prop := forall ev, ev ∈ t -> ~ refused ev.

(** No two services share a type and a name, and no ID is empty. *)
Definition wfReg (reg : registry) : Prop := reg !! "" = None /\ forall k, uniqueAt svcKey reg k.

Lemma svcWritten reg s id reg' v :
  wfReg reg -> id <> "" -> shows s v -> reg' = <[id := v]> reg ->
  (forall id' v', reg !! id' = Some v' -> svcKey v' = keyOf s -> id' = id) ->
  (forall v', reg !! id = Some v' -> svcKey v' = keyOf s) ->
  wfReg reg' /\ sameOutside svcKey (eq (keyOf s)) reg reg' /\ soleAt svcKey reg' (keyOf s) id (shows s).
Proof.
  intros [Hne Hu] Hid Hv -> Honly Hold. rewrite <- (proj1 Hv) in *.
  destruct (written_entry svcKey reg id v Hid Honly Hold) as (Hs & (_ & (v' & L & Hk & <-) & H) & Hwf).
  split; [|split; [exact Hs|]]; [split; [by rewrite lookup_insert_ne|auto]|]. split; [done|]. split; [by exists v|done].
Qed.
Lemma svcCreated_wf reg s id reg' :
  wfReg reg -> emptyAt svcKey reg (keyOf s) -> svcCreated reg s id reg' ->
  wfReg reg' /\ sameOutside svcKey (eq (keyOf s)) reg reg' /\ soleAt svcKey reg' (keyOf s) id (shows s).
Proof.
  intros Hwf He (Hid & Hnew & v & Hv & Hreg). apply (svcWritten reg s id reg' v); [done..| |congruence].
  intros id' v' L K. by destruct (He _ _ L).
Qed.
Lemma svcUpdated_wf reg s id reg' v0 :
  wfReg reg -> reg !! id = Some v0 -> svcKey v0 = keyOf s -> svcUpdated reg s id reg' ->
  wfReg reg' /\ sameOutside svcKey (eq (keyOf s)) reg reg' /\ soleAt svcKey reg' (keyOf s) id (shows s).
Proof.
  intros Hwf L K (_ & v & Hv & Hreg). pose proof Hwf as [Hne Hu].
  apply (svcWritten reg s id reg' v); [done| |done..| |congruence].
  - intros ->. congruence.
  - intros id' v' L' K'. by eapply Hu.
Qed.
End registry.

(** ** One reconcile against the services *)

Section reconcile.
Context `{XL : ExternalLib}.
Implicit Types (reg : registry) (i : KeystoneService).

(** The type and name of the spec are those of exactly one service, with the
    ID the status records, and it is as the spec says. *)
Definition registered reg i : Prop :=
  soleAt svcKey reg (keyOf (desiredService i)) (ks_ServiceID (ks_status i)) (shows (desiredService i)).
(** What a reconcile keeps of the instance. *)
Definition sameSpec i i' : Prop := exists id, i' = ks_setServiceID id i.

Lemma serviceDiffers_shows i id v :
  svcKey v = keyOf (desiredService i) ->
  serviceDiffers (shown id v) i = false <-> shows (desiredService i) v.
Proof.
  intros K. unfold serviceDiffers, shows. cbn. rewrite orb_false_iff, !negb_false_iff, bool_decide_eq_true.
  rewrite eqb_true_iff. naive_solver.
Qed.

Lemma registerService_reg i os reg service :
  wfReg reg ->
  match service with
  | Some s => exists id v, reg !! id = Some v /\ svcKey v = keyOf (desiredService i) /\ s = shown id v
  | None => emptyAt svcKey reg (keyOf (desiredService i))
  end ->
  wwp regStep (registerService i os service) reg (fun t reg' r =>
    sameSpec i r.1 /\ wfReg reg' /\ sameOutside svcKey (eq (keyOf (desiredService i))) reg reg' /\
    (r.2 = None -> registered reg' r.1) /\ (confirmed t -> r.2 = None)).
Proof.
  intros Hwf Hsvc. destruct service as [s|]; cbn [registerService].
  - destruct Hsvc as (id & v & L & K & ->). cbn [shown rs_ID].
    change (serviceDiffers _ (ks_setServiceID id i)) with (serviceDiffers (shown id v) i).
    change (desiredService (ks_setServiceID id i)) with (desiredService i).
    destruct (serviceDiffers (shown id v) i) eqn:Hd.
    + apply wwp_bind, wwp_call. intros err reg' Hs. apply wwp_ret. cbn [fst snd].
      assert (svcUpdated reg (desiredService i) id reg' ->
        wfReg reg' /\ sameOutside svcKey (eq (keyOf (desiredService i))) reg reg' /\
        soleAt svcKey reg' (keyOf (desiredService i)) id (shows (desiredService i))) as Hup by by eapply svcUpdated_wf.
      split; [by eexists|]. destruct err as [e|].
      * assert (~ confirmed ([Ev (OSUpdateService os (desiredService i) id) (Some e)] ++ [])) as Hno.
        { intros H. by apply (H _ (list_elem_of_here _ _)). }
        destruct Hs as [->|Hs]; [by split_and!|]. apply Hup in Hs as (? & ? & _). by split_and!.
      * apply Hup in Hs as (? & ? & ?). by split_and!.
    + apply wwp_ret. cbn [fst snd]. split; [by eexists|]. split_and!; try done. intros _.
      pose proof Hwf as [Hne Hu]. split; [|split].
      * intros E. cbn in E. congruence.
      * exists v. split_and!; [done|done|]. by apply (serviceDiffers_shows i id v K).
      * intros id' v' L' K'. by eapply Hu.
  - apply wwp_bind, wwp_call. intros [id err] reg' Hs. apply wwp_ret. cbn [fst snd].
    split; [by eexists|]. destruct err as [e|].
    + assert (~ confirmed ([Ev (OSCreateService os (desiredService i)) (id, Some e)] ++ [])) as Hno.
      { intros H. by apply (H _ (list_elem_of_here _ _)). }
      destruct Hs as [->|[id' Hs]]; [by split_and!|].
      apply svcCreated_wf in Hs as (? & ? & _); [|done..]. by split_and!.
    + apply svcCreated_wf in Hs as (? & ? & ?); [|done..]. by split_and!.
Qed.

Lemma reconcileService_reg i os reg :
  wfReg reg ->
  wwp regStep (reconcileService i os) reg (fun t reg' r =>
    sameSpec i r.1 /\ wfReg reg' /\ sameOutside svcKey (eq (keyOf (desiredService i))) reg reg' /\
    (r.2 = None -> registered reg' r.1) /\ (confirmed t -> r.2 = None)).
Proof.
  intros Hwf. unfold reconcileService. apply wwp_bind, wwp_call. intros [service err] reg1 [-> Hs].
  assert (sameSpec i i) as Hi by (exists (ks_ServiceID (ks_status i)); by destruct i as [? ? []]).
  assert (forall ev t, confirmed ([ev] ++ t) -> confirmed t) as Hc by (intros ev t H ev' Hin; apply H; by right).
  destruct err as [e|], service as [s|]; try done.
  - destruct (Contains (Error e) ServiceNotFound) eqn:Hnf; cbn [negb].
    + eapply wwp_mono; [|apply registerService_reg; [done|by apply Hs]]. cbv beta. naive_solver.
    + apply wwp_ret. split_and!; [done|done|done|done|]. intros H. exfalso. apply (H _ (list_elem_of_here _ _)). by exists e.
  - eapply wwp_mono; [|apply registerService_reg; [done|exact Hs]]. cbv beta. naive_solver.
Qed.

(** A reconcile that finds the service as the spec wants it writes nothing and
    changes nothing. *)
Lemma reconcileService_steady i os reg :
  registered reg i ->
  wwp regStep (reconcileService i os) reg (fun t reg' r => reg' = reg /\ r.1 = i /\ length t = 1%nat).
Proof.
  intros (Hid & (v & L & K & Hv) & Hu). unfold reconcileService. apply wwp_bind, wwp_call. intros [service err] reg1 [-> Hs].
  destruct err as [e|], service as [s|]; try done.
  - destruct (Contains (Error e) ServiceNotFound) eqn:Hnf; cbn [negb]; [|by apply wwp_ret].
    exfalso. by apply (Hs eq_refl _ _ L).
  - destruct Hs as (id' & v' & L' & K' & ->). assert (id' = ks_ServiceID (ks_status i)) as -> by by eapply Hu.
    assert (v' = v) as -> by congruence. cbn [registerService shown rs_ID].
    change (serviceDiffers _ (ks_setServiceID _ i)) with (serviceDiffers (shown (ks_ServiceID (ks_status i)) v) i).
    rewrite (proj2 (serviceDiffers_shows i _ v K) Hv). apply wwp_ret. by destruct i as [? ? []].
Qed.

(** Deletion removes the service the status names. *)
Lemma deregister_reg i os reg :
  registered reg i -> wfReg reg ->
  wwp regStep (deregister i (Some os)) reg (fun t reg' r =>
    wfReg reg' /\ sameOutside svcKey (eq (keyOf (desiredService i))) reg reg' /\
    (r.2 = None -> emptyAt svcKey reg' (keyOf (desiredService i)))).
Proof.
  intros (Hid & (v & L & K & Hv) & Hu) [Hne Huniq]. unfold deregister. rewrite decide_True by done.
  apply wwp_bind, wwp_call. intros err reg1 ->. destruct err as [e|]; [by apply wwp_ret|].
  assert (wfReg (delete (ks_ServiceID (ks_status i)) reg) /\
    sameOutside svcKey (eq (keyOf (desiredService i))) reg (delete (ks_ServiceID (ks_status i)) reg)) as [H1 H2].
  { split; [split; [by apply lookup_delete_None; right|]|].
    - intros k. eapply uniqueAt_subset; [apply delete_subseteq|done].
    - intros id v' Hv'. rewrite lookup_delete_Some. split; [|by intros []]. intros L'. split; [|done]. intros <-. congruence. }
  apply wwp_bind, wwp_call. intros err reg1 Hs. destruct err as [e|]; apply wwp_ret; cbn [fst snd].
  - by destruct Hs as [->| ->].
  - rewrite Hs. split_and!; [done|done|]. intros _ id v'. rewrite lookup_delete_Some. intros [Hne' L'] K'. apply Hne'. symmetry.
    by eapply Hu.
Qed.
End reconcile.

(** ** A history of reconciles *)

(** The requests [reconcileService] makes. *)
Definition registryCall (X : Type) (c : Call X) : Prop :=
  match c with OSGetService _ _ _ | OSCreateService _ _ | OSUpdateService _ _ _ => True | _ => False end.

Section history.
Context `{XL : ExternalLib} (os : OSClient).
Implicit Types (reg : registry) (i : KeystoneService).

Lemma reconcileService_emits i : emits registryCall (reconcileService i os).
Proof.
  assert (forall service, emits registryCall (registerService i os service)) as H.
  { intros [s|]; cbn [registerService]; [case_match|]; emits_go; exact I. }
  unfold reconcileService. emits_go; first [exact I|apply H].
Qed.

(** A service with a key, if there is one. *)
Definition servicesAt reg (k : string * string) : registry := filter (fun p : string * SvcEntry => svcKey p.2 = k) reg.
Lemma servicesAt_elem reg k id v : servicesAt reg k !! id = Some v <-> reg !! id = Some v /\ svcKey v = k.
Proof. apply map_lookup_filter_Some. Qed.
Lemma servicesAt_empty reg k : servicesAt reg k = ∅ -> emptyAt svcKey reg k.
Proof. intros H id v L K. pose proof (proj2 (servicesAt_elem reg k id v) (conj L K)) as E. by rewrite H in E. Qed.

Lemma registry_fails X (c : Call X) reg : registryCall X c -> exists x, regStep reg (Ev c x) reg.
Proof.
  intros Hc. destruct c; try destruct Hc; cbn [regStep].
  - destruct (decide (servicesAt reg (type, name) = ∅)) as [He|(id & v & Hv)%map_choose].
    + exists (None, Some (errorf ServiceNotFound)). split; [done|]. intros _. by apply servicesAt_empty.
    + exists (Some (shown id v), None). apply servicesAt_elem in Hv as []. split; [done|]. by exists id, v.
  - exists ("", Some (errorf "lost")). by left.
  - exists (Some (errorf "lost")). by left.
Qed.

(** The user edits the spec, within the types and names [S]. *)
Definition edited (S : string * string -> Prop) i i' : Prop :=
  exists spec, i' = mkService (ks_meta i) spec (ks_status i) /\ S (keyOf (desiredService i')).
(** The services, and the KeystoneService as the API server stores it. *)
Definition registryStep S : registry * KeystoneService -> registry * KeystoneService -> Prop :=
  step regStep (fun i => reconcileService i os) (edited S).

(** No history duplicates a service, or touches one whose type and name the
    KeystoneService never had. *)
Lemma registry_invariant S s s' :
  rtc (registryStep S) s s' -> wfReg s.1 -> S (keyOf (desiredService s.2)) ->
  wfReg s'.1 /\ sameOutside svcKey S s.1 s'.1 /\ S (keyOf (desiredService s'.2)).
Proof.
  intros Hreach Hwf HS.
  apply (step_invariant regStep registryCall registry_fails (fun i => reconcileService i os) (edited S)
    (fun reg i => wfReg reg /\ sameOutside svcKey S s.1 reg /\ S (keyOf (desiredService i))) s s'); [| | |done|done].
  - intros reg i i' (spec & -> & H) (? & ? & _). done.
  - exact reconcileService_emits.
  - intros reg i (Hc & Hs & Hi). eapply wwp_mono; [|by apply reconcileService_reg]. cbv beta.
    intros t reg' r ([id E] & Hc' & Hs' & _).
    assert (sameOutside svcKey S s.1 reg') as Hout.
    { transitivity reg; [done|]. eapply (sameOutside_mono svcKey); [|exact Hs']. by intros k <-. }
    split; (split_and!; [done|done|]); [by rewrite E|done].
Qed.

(** C11. The registration of a service converges, whatever happened before:
    from a Keystone where no two services share a type and a name, after any
    history of edits of the spec, reconciles that succeed or fail, requests
    whose answer is lost, status updates that are lost and crashes, the next
    reconcile whose requests are all confirmed succeeds, no service was ever
    duplicated, and a reconcile that succeeds leaves exactly one service of the
    spec's type and name, adopted or new, enabled and described as the spec
    says, with the ID the status records; the reconcile after it asks once and
    changes nothing; a deletion that succeeds then leaves no such service.
    Services whose type and name were never in the spec do not change. *)
Theorem registry_converges S s s' t i' err reg' :
  wfReg s.1 -> S (keyOf (desiredService s.2)) -> rtc (registryStep S) s s' ->
  runs (reconcileService s'.2 os) t (i', err) -> regRun s'.1 t reg' ->
  (confirmed t -> err = None) /\ wfReg reg' /\ sameOutside svcKey S s.1 reg' /\
  (err = None -> sameSpec s'.2 i' /\ registered reg' i' /\
     (forall t2 r reg2, runs (reconcileService i' os) t2 r -> regRun reg' t2 reg2 ->
        length t2 = 1%nat /\ reg2 = reg' /\ r.1 = i') /\
     forall t2 i2 reg2, runs (deregister i' (Some os)) t2 (i2, None) -> regRun reg' t2 reg2 ->
        emptyAt svcKey reg2 (keyOf (desiredService i'))).
Proof.
  intros Hwf HS Hreach Hr Hrun. destruct (registry_invariant S _ _ Hreach Hwf HS) as (Hwf' & Hs & HS').
  destruct (wwp_runs _ _ _ _ _ _ _ (reconcileService_reg s'.2 os s'.1 Hwf') Hr Hrun) as (Hi & Hwf'' & Hs' & Hok & Hans).
  cbn [fst snd] in *. split; [done|]. split; [done|]. split.
  { transitivity s'.1; [done|]. eapply (sameOutside_mono svcKey); [|exact Hs']. by intros k <-. }
  intros Hn. specialize (Hok Hn). split; [done|]. split; [done|]. split.
  - intros t2 r reg2 Hr2 Hrun2. by destruct (wwp_runs _ _ _ _ _ _ _ (reconcileService_steady i' os reg' Hok) Hr2 Hrun2) as (? & ? & ?).
  - intros t2 i2 reg2 Hr2 Hrun2.
    destruct (wwp_runs _ _ _ _ _ _ _ (deregister_reg i' os reg' Hok Hwf'') Hr2 Hrun2) as (_ & _ & H). by apply H.
Qed.
End history.

(** ** A Keystone to run against *)

(** Keystone answering every request, its services the state. *)
Definition keystoneServices (X : Type) (c : Call X) (reg : registry) : X * registry :=
  match c in Call X return X * registry with
  | OSGetService _ type name =>
      (match map_to_list (servicesAt reg (type, name)) with
       | [] => (None, Some (errorf (name +:+ " " +:+ ServiceNotFound)))
       | [(id, v)] => (Some (shown id v), None)
       | _ => (None, Some (errorf "multiple services found"))
       end, reg)
  | OSCreateService _ s =>
      ((newID reg, None), <[newID reg := mkSvcEntry (oss_Type s) (oss_Name s) (oss_Enabled s) {[ "description" := oss_Description s ]}]> reg)
  | OSUpdateService _ s id =>
      match reg !! id with
      | Some v => (None, <[id := mkSvcEntry (oss_Type s) (oss_Name s) (oss_Enabled s)
                              (<["description" := oss_Description s]> (se_Extra v))]> reg)
      | None => (Some (errorf "not found"), reg)
      end
  | OSDeleteService _ id => (None, delete id reg)
  | c => ((nullHandler _ c tt).1, reg)
  end.

Lemma keystoneServices_step X (c : Call X) reg : regStep reg (Ev c (keystoneServices X c reg).1) (keystoneServices X c reg).2.
Proof.
  destruct c; try reflexivity; cbn [keystoneServices regStep fst snd].
  - split; [done|]. destruct (map_to_list _) as [|[id v] [|? l]] eqn:Hl; [| |by vm_compute].
    + intros _. apply servicesAt_empty. by apply map_to_list_empty_iff.
    + exists id, v. assert ((id, v) ∈ map_to_list (servicesAt reg (type, name))) as Hin by (rewrite Hl; left).
      apply elem_of_map_to_list, servicesAt_elem in Hin as []. done.
  - destruct (newID_fresh reg). split_and!; [done|done|]. eexists. split; [|done]. split_and!; [done|done|].
    apply lookup_insert_eq.
  - destruct (reg !! id) as [v|] eqn:L; [|by left]. split; [by exists v|]. eexists. split; [|done].
    split_and!; [done|done|]. apply lookup_insert_eq.
Qed.
Lemma keystoneServices_run {A} (p : program A) reg : regRun reg (exec keystoneServices p reg).1.1 (exec keystoneServices p reg).2.
Proof. apply exec_wrun, keystoneServices_step. Qed.

(** The first reconcile of a KeystoneService that was never reconciled, and the
    reconcile after it when the status of the first was lost. *)
Definition firstService : trace * (KeystoneService * option GoError) * registry :=
  exec keystoneServices (reconcileService demoUserService 0%nat) ∅.
Definition secondService : trace * (KeystoneService * option GoError) * registry :=
  exec keystoneServices (reconcileService demoUserService 0%nat) firstService.2.

Lemma wfReg_empty : wfReg ∅.
Proof. split; [done|]. intros k id id' v v' H. by rewrite lookup_empty in H. Qed.
Lemma firstService_lost S : rtc (registryStep 0%nat S) (∅, demoUserService) (firstService.2, demoUserService).
Proof.
  apply rtc_once. apply (step_lost _ _ _ _ _ firstService.1.1 firstService.1.2); [apply exec_runs|apply keystoneServices_run].
Qed.
Lemma firstService_stored S : rtc (registryStep 0%nat S) (∅, demoUserService) (firstService.2, firstService.1.2.1).
Proof.
  apply rtc_once. apply (step_reconcile _ _ _ _ _ firstService.1.1 _ firstService.1.2.2); [|apply keystoneServices_run].
  rewrite <- surjective_pairing. apply exec_runs.
Qed.

(** Renaming a KeystoneService costs the service it had: the reconcile registers
    a second one, records its ID over the first, and the deletion removes the
    second only. *)
Definition renamed : KeystoneService :=
  mkService (ks_meta demoUserService) (mkServiceSpec "compute" "nova2" "Compute" true "nova" "osp-secret" "NovaPassword")
    (ks_status firstService.1.2.1).
Definition renamedRun : trace * (KeystoneService * option GoError) * registry :=
  exec keystoneServices (reconcileService renamed 0%nat) firstService.2.
Definition renamedDeleted : trace * (KeystoneService * option GoError) * registry :=
  exec keystoneServices (deregister renamedRun.1.2.1 (Some 0%nat)) renamedRun.2.

Lemma service_orphaned :
  rtc (registryStep 0%nat (fun _ => True)) (∅, demoUserService) (renamedRun.2, renamedRun.1.2.1) /\
  renamedDeleted.1.2.2 = None /\ ks_ServiceID (ks_status renamedDeleted.1.2.1) = "" /\
  svcKey <$> (map_to_list renamedDeleted.2).*2 = [("compute", "nova")].
Proof.
  split; [|by vm_compute]. etransitivity; [apply firstService_stored|]. eapply rtc_l; [|apply rtc_once].
  - apply step_edit. by exists (ks_spec renamed).
  - apply (step_reconcile _ _ _ _ _ renamedRun.1.1 _ renamedRun.1.2.2); [|apply keystoneServices_run].
    rewrite <- surjective_pairing. apply exec_runs.
Qed.

(** A KeystoneService whose status was lost is deleted without asking Keystone:
    an empty ID is taken for "nothing registered". *)
Definition forgotten : KeystoneService :=
  mkService (deletingMeta "nova" "openstack" [serviceFinalizer]) (ks_spec demoUserService) (ks_status demoUserService).
Definition forgottenRun : trace * (KeystoneService * ret) * registry := exec keystoneServices (reconcileInstance forgotten) firstService.2.
Lemma service_forgotten :
  rtc (registryStep 0%nat (fun _ => True)) (∅, demoUserService) (firstService.2, demoUserService) /\
  forgottenRun.1.2.2 = done_ /\ Finalizers (ks_meta forgottenRun.1.2.1) = [] /\
  svcKey <$> (map_to_list forgottenRun.2).*2 = [("compute", "nova")].
Proof. split; [apply firstService_lost|by vm_compute]. Qed.

Lemma registry_converges_witness :
  size firstService.2 = 1%nat /\ secondService.1.2.2 = None /\ wfReg secondService.2 /\
  registered secondService.2 secondService.1.2.1.
Proof.
  split; [vm_compute; reflexivity|]. assert (secondService.1.2.2 = None) as Hn by (vm_compute; reflexivity). split; [exact Hn|].
  destruct (registry_converges 0%nat (fun _ => True) (∅, demoUserService) (firstService.2, demoUserService) secondService.1.1
    secondService.1.2.1 secondService.1.2.2 secondService.2) as (_ & Hwf & _ & H).
  - apply wfReg_empty.
  - exact I.
  - apply firstService_lost.
  - rewrite <- surjective_pairing. apply (exec_runs keystoneServices (reconcileService demoUserService 0%nat) firstService.2).
  - apply (keystoneServices_run (reconcileService demoUserService 0%nat) firstService.2).
  - destruct (H Hn) as (_ & Hreg & _). split; [exact Hwf|exact Hreg].
Defined.
