(* ===== verification/Identity.v ===== *)
(** The KeystoneService controller and Keystone's identities as one system: the
    service project, the service users, the roles and who has them where, the
    requests [reconcileUser] and [deregister] make, and what any sequence of
    registrations and deregistrations of any KeystoneServices, with lost
    answers and crashes, makes of them. *)
From S2P Require Import Prelude Effects World Tables GoTime Api Conditions Instances Calls External Demo ServiceController.

(** ** The identities *)

(** Projects and users by ID, with name and domain; the users' passwords; the
    roles; and the roles users have in projects. *)
Record Identity := mkIdentity {
  projects : gmap string (string * string);
  users : gmap string (string * string);
  passwords : gmap string string;
  roles : gset string;
  grants : gset (string * string * string)
}.
Definition withProjects m (w : Identity) := mkIdentity m (users w) (passwords w) (roles w) (grants w).
Definition withUsers m p (w : Identity) := mkIdentity (projects w) m p (roles w) (grants w).
Definition withRoles s (w : Identity) := mkIdentity (projects w) (users w) (passwords w) s (grants w).
Definition withGrants s (w : Identity) := mkIdentity (projects w) (users w) (passwords w) (roles w) s.

(** Names are keys of their own. *)
Abbreviation nameKey := (fun v : string * string => v).
Definition projectKey (p : OSProject) : string * string := (osp_Name p, osp_DomainID p).
Definition userOf (u : OSUser) : string * string := (osu_Name u, osu_DomainID u).

(** "Create if it does not exist": the one there is, or a new one. *)
Definition projectFound (p : OSProject) (id : string) (w w' : Identity) : Prop :=
  (projects w !! id = Some (projectKey p) /\ w' = w) \/
  (emptyAt nameKey (projects w) (projectKey p) /\ id <> "" /\ projects w !! id = None /\
     w' = withProjects (<[id := projectKey p]> (projects w)) w).
(** The password of a user there is may be brought up to date. *)
Definition userFound (u : OSUser) (id : string) (w w' : Identity) : Prop :=
  (users w !! id = Some (userOf u) /\
     (w' = w \/ w' = withUsers (users w) (<[id := osu_Password u]> (passwords w)) w)) \/
  (emptyAt nameKey (users w) (userOf u) /\ id <> "" /\ users w !! id = None /\
     w' = withUsers (<[id := userOf u]> (users w)) (<[id := osu_Password u]> (passwords w)) w).
(** A user is gone, with what was granted to it. *)
Definition userGone (k : string * string) (w w' : Identity) : Prop :=
  users w' = filter (fun p : string * (string * string) => p.2 <> k) (users w) /\
  projects w' = projects w /\ roles w' = roles w /\
  (forall id, is_Some (users w' !! id) -> passwords w' !! id = passwords w !! id) /\
  grants w' = filter (fun g : string * string * string => is_Some (users w' !! g.1.2)) (grants w).

(** One exchange with Keystone: what is confirmed was done; what is not may have
    been done or not. *)
Definition idStep (w : Identity) (ev : event Call) (w' : Identity) : Prop :=
  match ev with
  | Ev c x =>
      match c in Call X return X -> Prop with
      | OSCreateProject _ p => fun r =>
          match r with
          | inr id => projectFound p id w w'
          | inl _ => w' = w \/ exists id, projectFound p id w w'
          end
      | OSCreateUser _ u => fun r =>
          match r with
          | inr id => userFound u id w w'
          | inl _ => w' = w \/ exists id, userFound u id w w'
          end
      | OSCreateRole _ n => fun r =>
          match r with
          | inr _ => w' = withRoles ({[n]} ∪ roles w) w
          | inl _ => w' = w \/ w' = withRoles ({[n]} ∪ roles w) w
          end
      | OSAssignUserRole _ role user project => fun r =>
          match r with
          | None => w' = withGrants ({[(role, user, project)]} ∪ grants w) w
          | Some _ => w' = w \/ w' = withGrants ({[(role, user, project)]} ∪ grants w) w
          end
      | OSDeleteUser _ name domain => fun r =>
          match r with
          | None => userGone (name, domain) w w'
          | Some _ => w' = w \/ userGone (name, domain) w w'
          end
      | _ => fun _ => w' = w
      end x
  end.
Definition idRun : Identity -> trace -> Identity -> Prop := wrun idStep.

(** A request that was not confirmed, or a password that is not there yet. *)
Definition unconfirmed (ev : event Call) : Prop :=
  match ev with
  | Ev c x =>
      match c in Call X return X -> Prop with
      | GetDataFromSecret _ _ _ => fun r => r.2 <> None \/ r.1.2 <> noResult
      | OSCreateProject _ _ => fun r => exists e, r = inl e
      | OSCreateUser _ _ => fun r => exists e, r = inl e
      | OSCreateRole _ _ => fun r => exists e, r = inl e
      | OSAssignUserRole _ _ _ _ => fun r => r <> None
      | _ => fun _ => False
      end x
  end.
Definition allConfirmed (t : trace) : Prop := forall ev, ev ∈ t -> ~ unconfirmed ev.

(** No two entries share a name and a domain, and no ID is empty. *)
Definition wfNames (m : gmap string (string * string)) : Prop := m !! "" = None /\ forall k, uniqueAt nameKey m k.
Definition wfIdentity (w : Identity) : Prop := wfNames (projects w) /\ wfNames (users w).

(** Nothing has changed but the service project and its roles, and users in
    [S]; what other users may do where is as before. *)
Record onlyTouched (S : string * string -> Prop) (w w' : Identity) : Prop := {
  ot_projects : sameOutside nameKey (eq (projectKey serviceProject)) (projects w) (projects w');
  ot_users : sameOutside nameKey S (users w) (users w');
  ot_passwords id v : users w !! id = Some v -> ~ S v -> passwords w' !! id = passwords w !! id;
  ot_roles r : (r ∉ roleNames) -> r ∈ roles w' <-> r ∈ roles w;
  ot_grants r id p v : users w !! id = Some v -> ~ S v -> (r, id, p) ∈ grants w' <-> (r, id, p) ∈ grants w
}.

#[export] Instance onlyTouched_preorder S : PreOrder (onlyTouched S).
Proof.
  split; [intros w; by split|]. intros w1 w2 w3 [P1 U1 K1 R1 G1] [P2 U2 K2 R2 G2].
  assert (forall id v, users w1 !! id = Some v -> ~ S v -> users w2 !! id = Some v) as HU by (intros id v Hv HS; by apply U1).
  split; [by transitivity (projects w2)|by transitivity (users w2)|..].
  - intros id v Hv HS. rewrite (K2 id v); [by apply (K1 id v)|by apply HU|done].
  - intros r Hr. rewrite R2 by done. by apply R1.
  - intros r id p v Hv HS. rewrite (G2 r id p v); [by apply (G1 r id p v)|by apply HU|done].
Qed.

(** ** One reconcile against the identities *)

Definition userKey (i : KeystoneService) : string * string := (ks_ServiceUser (ks_spec i), "default").
(** The service project and the service user are there once, and the user has
    both roles in it. *)
Definition provisioned (w : Identity) (i : KeystoneService) : Prop :=
  exists project user,
    soleAt nameKey (projects w) (projectKey serviceProject) project (fun _ => True) /\
    soleAt nameKey (users w) (userKey i) user (fun _ => True) /\
    forall r, r ∈ roleNames -> r ∈ roles w /\ (r, user, project) ∈ grants w.

Section reconcile.
Context `{XL : ExternalLib}.
Implicit Types (w : Identity) (i : KeystoneService).

(** An entry of a table of names, found or new. *)
Lemma name_found (m m' : gmap string (string * string)) k id :
  wfNames m -> m !! id = Some k /\ m' = m \/ emptyAt nameKey m k /\ id <> "" /\ m !! id = None /\ m' = <[id := k]> m ->
  wfNames m' /\ sameOutside nameKey (eq k) m m' /\ soleAt nameKey m' k id (fun _ => True).
Proof.
  intros [Hne Hu] [[L ->]|(He & Hid & Hnew & ->)].
  - split; [by split|]. split; [done|]. split; [intros ->; congruence|]. split; [by exists k|].
    intros id' v' L' K. by eapply Hu.
  - destruct (written_entry nameKey m id k Hid) as (Hs & (_ & (v & L & K & _) & Ho) & Hwf).
    + intros id' v' L' K. by destruct (He _ _ L').
    + intros v' L'. congruence.
    + split; [split; [by rewrite lookup_insert_ne|auto]|]. split; [done|]. split; [done|]. split; [by exists v|done].
Qed.

Lemma projectFound_spec S id w w' :
  wfIdentity w -> projectFound serviceProject id w w' ->
  wfIdentity w' /\ onlyTouched S w w' /\ users w' = users w /\
  soleAt nameKey (projects w') (projectKey serviceProject) id (fun _ => True).
Proof.
  intros [Hp Hus] Hf.
  destruct (name_found (projects w) (projects w') (projectKey serviceProject) id Hp) as (H1 & H2 & H3).
  { destruct Hf as [[L ->]|(? & ? & ? & ->)]; [by left|by right]. }
  assert (users w' = users w /\ passwords w' = passwords w /\ roles w' = roles w /\ grants w' = grants w) as (E1 & E2 & E3 & E4)
    by (destruct Hf as [[L ->]|(? & ? & ? & ->)]; done).
  split; [by split; [|rewrite E1]|]. split; [|by split]. split; [done|by rewrite E1|by rewrite E2|by rewrite E3|by rewrite E4].
Qed.
Lemma userFound_spec (S : string * string -> Prop) u id w w' :
  wfIdentity w -> S (userOf u) -> userFound u id w w' ->
  wfIdentity w' /\ onlyTouched S w w' /\ projects w' = projects w /\
  soleAt nameKey (users w') (userOf u) id (fun _ => True) /\
  (emptyAt nameKey (users w) (userOf u) -> passwords w' !! id = Some (osu_Password u)).
Proof.
  intros [Hp Hus] HS Hf.
  destruct (name_found (users w) (users w') (userOf u) id Hus) as (H1 & H2 & H3).
  { destruct Hf as [[L [-> | ->]]|(? & ? & ? & ->)]; [by left..|by right]. }
  assert (projects w' = projects w /\ roles w' = roles w /\ grants w' = grants w) as (E1 & E3 & E4)
    by (destruct Hf as [[L [-> | ->]]|(? & ? & ? & ->)]; done).
  assert (forall id' v, users w !! id' = Some v -> ~ S v -> id' <> id) as Hother.
  { intros id' v L HnS ->. destruct Hf as [[L' _]|(_ & _ & L' & _)]; congruence. }
  split; [by split; [rewrite E1|]|]. split; [|split; [done|split; [done|]]].
  - split; [by rewrite E1| | |by rewrite E3|by rewrite E4].
    + eapply sameOutside_mono; [|exact H2]. by intros k <-.
    + intros id' v L HnS. pose proof (Hother _ _ L HnS).
      destruct Hf as [[_ [-> | ->]]|(_ & _ & _ & ->)]; cbn [passwords withUsers]; rewrite ?lookup_insert_ne by done; done.
  - intros He. destruct Hf as [[L _]|(_ & _ & _ & ->)]; [by destruct (He _ _ L)|]. apply lookup_insert_eq.
Qed.

(** The roles of [l] for a user in a project. *)
Record granting (l : list string) (user project : string) w w' : Prop := {
  gr_projects : projects w' = projects w;
  gr_users : users w' = users w;
  gr_passwords : passwords w' = passwords w;
  gr_roles r : r ∈ roles w' -> r ∈ roles w \/ r ∈ l;
  gr_kept_roles : roles w ⊆ roles w';
  gr_grants r id p : (r, id, p) ∈ grants w' -> (r, id, p) ∈ grants w \/ id = user;
  gr_kept : grants w ⊆ grants w'
}.
Lemma granting_refl l user project w : granting l user project w w.
Proof. by split; auto. Qed.
Lemma granting_trans l user project w1 w2 w3 :
  granting l user project w1 w2 -> granting l user project w2 w3 -> granting l user project w1 w3.
Proof.
  intros [P1 U1 K1 R1 R1' G1 G1'] [P2 U2 K2 R2 R2' G2 G2']. split; [congruence..| | | |].
  - intros r [?|?]%R2; [by apply R1|by right].
  - by transitivity (roles w2).
  - intros r id p [?|?]%G2; [by apply (G1 r id p)|by right].
  - by transitivity (grants w2).
Qed.
Lemma granting_mono l l' user project w w' : l ⊆ l' -> granting l user project w w' -> granting l' user project w w'.
Proof. intros Hl [? ? ? R ? ? ?]. split; try done. intros r [?|?]%R; [by left|right; by apply Hl]. Qed.
Lemma granting_touched (S : string * string -> Prop) user project k w w' :
  granting roleNames user project w w' -> users w !! user = Some k -> S k -> onlyTouched S w w'.
Proof.
  intros [P U K R R' G G'] Hu Hk. split; rewrite ?P, ?U, ?K; try done.
  - intros r Hr. split; [by intros [?|?]%R|apply R'].
  - intros r id p v Hv HS. split; [intros [?| ->]%G; [done|congruence]|apply G'].
Qed.

Lemma role_step user project l r w w1 :
  r ∈ l -> w1 = w \/ w1 = withRoles ({[r]} ∪ roles w) w -> granting l user project w w1.
Proof. intros Hr [-> | ->]; [apply granting_refl|]. split; try done.
  - intros x [->%elem_of_singleton|?]%elem_of_union; [by right|by left].
  - apply union_subseteq_r.
  - by left.
Qed.
Lemma grant_step l user project r w w1 :
  w1 = w \/ w1 = withGrants ({[(r, user, project)]} ∪ grants w) w -> granting l user project w w1.
Proof.
  intros [-> | ->]; [apply granting_refl|]. split; try done; [by left| |apply union_subseteq_r].
  intros r' id p [[=]%elem_of_singleton|?]%elem_of_union; [by right|by left].
Qed.

Lemma confirmed_cons ev t : allConfirmed (ev :: t) <-> ~ unconfirmed ev /\ allConfirmed t.
Proof. unfold allConfirmed. setoid_rewrite elem_of_cons. naive_solver. Qed.

Lemma assignRoles_id os user project l w :
  wwp idStep (assignRoles os l user project) w (fun t w' err =>
    granting l user project w w' /\
    (err = None -> forall r, r ∈ l -> r ∈ roles w' /\ (r, user, project) ∈ grants w') /\
    (allConfirmed t -> err = None)).
Proof.
  revert w; induction l as [|r l IH]; intros w; cbn [assignRoles].
  { apply wwp_ret. split_and!; [apply granting_refl| |done]. by intros _ r ?%not_elem_of_nil. }
  apply wwp_bind, wwp_call. intros x w1 Hx.
  assert (granting (r :: l) user project w w1) as H1.
  { apply (role_step _ _ _ r); [left|]. destruct x; [exact Hx|by right]. }
  destruct x as [e|rid].
  { apply wwp_ret. split_and!; [done|done|]. cbn [app]. rewrite confirmed_cons. intros [Hn _]. exfalso. apply Hn. by exists e. }
  apply wwp_bind, wwp_call. intros err w2 Hx2.
  assert (granting (r :: l) user project w w2) as H2.
  { eapply granting_trans; [exact H1|]. apply (grant_step _ _ _ r). destruct err; [exact Hx2|by right]. }
  destruct err as [e|].
  { apply wwp_ret. split_and!; [done|done|]. cbn [app]. rewrite !confirmed_cons. intros (_ & Hn & _). by destruct Hn. }
  eapply wwp_mono; [|apply IH]. cbv beta. intros t w3 err (H3 & Hall & Hc).
  pose proof (granting_mono l (r :: l) _ _ _ _ ltac:(by intros y; right) H3) as H3'. split_and!.
  - by eapply granting_trans.
  - intros -> r' [->|Hr']%elem_of_cons; [|by apply Hall]. split.
    + apply (gr_kept_roles _ _ _ _ _ H3'), (elem_of_subseteq (roles w1)); [by rewrite Hx2|]. rewrite Hx.
      by apply elem_of_union_l, elem_of_singleton.
    + apply (gr_kept _ _ _ _ _ H3'). rewrite Hx2. by apply elem_of_union_l, elem_of_singleton.
  - cbn [app]. rewrite !confirmed_cons. intros (_ & _ & ?). by apply Hc.
Qed.
Lemma granting_wf l user project w w' : granting l user project w w' -> wfIdentity w -> wfIdentity w'.
Proof. intros [P U ? ? ? ? ?] [Hp Hu]. split; [by rewrite P|by rewrite U]. Qed.

(** Where the reconcile stops, nothing of what was asked for can be relied on. *)
Lemma stopped (S : string * string -> Prop) i w w' ev t (r : ret) (P : Prop) :
  wfIdentity w' -> onlyTouched S w w' -> r <> done_ -> unconfirmed ev -> ev ∈ t ->
  wfIdentity w' /\ onlyTouched S w w' /\ (r = done_ -> P) /\ (allConfirmed t -> r = done_).
Proof. intros ? ? Hr Hev Hin. split_and!; [done|done|done|]. intros Hc. by apply Hc in Hev. Qed.

(** The outcome: the password is the one of the secret when the user is new. *)
Definition provisionedAs w w' i (t : trace) : Prop :=
  provisioned w' i /\
  (emptyAt nameKey (users w) (userKey i) -> exists password user,
     Ev (GetDataFromSecret (ks_Secret (ks_spec i)) (10 * second) (ks_PasswordSelector (ks_spec i))) (password, noResult, None) ∈ t /\
     users w' !! user = Some (userKey i) /\ passwords w' !! user = Some password).

Lemma reconcileUser_id (S : string * string -> Prop) i os w :
  wfIdentity w -> S (userKey i) ->
  wwp idStep (reconcileUser i os) w (fun t w' r =>
    wfIdentity w' /\ onlyTouched S w w' /\ (r = done_ -> provisionedAs w w' i t) /\ (allConfirmed t -> r = done_)).
Proof.
  intros Hwf HS. unfold reconcileUser. apply wwp_bind, wwp_call. intros [[pw res] err] w0 ->. destruct err as [e|].
  { apply wwp_ret. eapply (stopped _ i); [done|done|done| |left]. by left. }
  case_decide as Hres.
  { apply wwp_ret. eapply (stopped _ i); [done|done|by intros [=]| |left]. by right. }
  subst res. apply wwp_bind, wwp_call. intros [e|project] w1 Hp.
  { apply wwp_ret. assert (wfIdentity w1 /\ onlyTouched S w w1) as [? ?].
    { destruct Hp as [->|[id Hp]]; [done|]. by apply (projectFound_spec S) in Hp as (? & ? & _). }
    eapply (stopped _ i); [done|done|done| |by right; left]. by exists e. }
  apply (projectFound_spec S) in Hp as (Hwf1 & Ht1 & Eu1 & Hp1); [|done].
  apply wwp_bind, wwp_call. intros [e|user] w2 Hu.
  { apply wwp_ret. assert (wfIdentity w2 /\ onlyTouched S w1 w2) as [? ?].
    { destruct Hu as [->|[id Hu]]; [done|]. by apply (userFound_spec S) in Hu as (? & ? & _). }
    eapply (stopped _ i); [done|by transitivity w1|done| |by right; right; left]. by exists e. }
  apply (userFound_spec S) in Hu as (Hwf2 & Ht2 & Ep2 & Hu2 & Hpw2); [|done|done].
  apply wwp_bind. eapply wwp_mono; [|apply assignRoles_id]. cbv beta. intros t w3 err (Hg & Hall & Hc). apply wwp_ret.
  pose proof Hu2 as (_ & (v & L & K & _) & _). subst v. pose proof (granting_wf _ _ _ _ _ Hg Hwf2) as Hwf3.
  pose proof (granting_touched S _ _ (userKey i) _ _ Hg L HS) as Ht3.
  split_and!; [done|by transitivity w1; [|transitivity w2]| |].
  - destruct err as [e|]; [done|]. intros _. specialize (Hall eq_refl). destruct Hg as [P3 U3 K3 _ _ _ _]. split.
    + exists project, user. rewrite P3, U3, Ep2. done.
    + rewrite <- Eu1. intros He. exists pw, user. rewrite U3, K3. split_and!; [left|done|by apply Hpw2].
  - cbn [app]. rewrite !confirmed_cons, app_nil_r. intros (_ & _ & _ & Ht). by rewrite (Hc Ht).
Qed.

(** With everything in place a reconcile changes nothing but, perhaps, the
    password of the user, which it may set again to that of the secret. *)
Definition samePrincipals w w' : Prop :=
  projects w' = projects w /\ users w' = users w /\ roles w' = roles w /\ grants w' = grants w.
Definition passwordRead i (password : string) (t : trace) : Prop :=
  Ev (GetDataFromSecret (ks_Secret (ks_spec i)) (10 * second) (ks_PasswordSelector (ks_spec i))) (password, noResult, None) ∈ t.
Definition resetOnly w w' i (t : trace) : Prop :=
  samePrincipals w w' /\
  forall id, passwords w' !! id = passwords w !! id \/
    users w !! id = Some (userKey i) /\ exists password, passwordRead i password t /\ passwords w' !! id = Some password.
Lemma resetOnly_refl w i t : resetOnly w w i t.
Proof. split; [done|]. by left. Qed.

Lemma assignRoles_steady os user project l w :
  (forall r, r ∈ l -> r ∈ roles w /\ (r, user, project) ∈ grants w) ->
  wwp idStep (assignRoles os l user project) w (fun _ w' _ => w' = w).
Proof.
  induction l as [|r l IH]; intros Hl; cbn [assignRoles]; [by apply wwp_ret|]. destruct (Hl r) as [Hr Hg]; [left|].
  assert (withRoles ({[r]} ∪ roles w) w = w) as Er.
  { destruct w; unfold withRoles; cbn in *. f_equal. by apply subseteq_union_1_L, singleton_subseteq_l. }
  assert (withGrants ({[(r, user, project)]} ∪ grants w) w = w) as Eg.
  { destruct w; unfold withGrants; cbn in *. f_equal. by apply subseteq_union_1_L, singleton_subseteq_l. }
  apply wwp_bind, wwp_call. intros x w1 H1.
  assert (w1 = w) as -> by (destruct x; cbn [idStep] in H1; rewrite Er in H1; [by destruct H1|done]).
  destruct x as [e|rid]; [by apply wwp_ret|]. apply wwp_bind, wwp_call. intros err w2 H2.
  assert (w2 = w) as -> by (destruct err; cbn [idStep] in H2; rewrite Eg in H2; [by destruct H2|done]).
  destruct err as [e|]; [by apply wwp_ret|]. apply IH. intros y Hy. apply Hl. by right.
Qed.
Lemma reconcileUser_steady i os w :
  provisioned w i -> wwp idStep (reconcileUser i os) w (fun t w' _ => resetOnly w w' i t).
Proof.
  intros (project & user & (_ & (v1 & L1 & K1 & _) & O1) & (_ & (v2 & L2 & K2 & _) & O2) & Hroles). subst v1 v2.
  unfold reconcileUser. apply wwp_bind, wwp_call. intros [[pw res] err] w0 ->.
  destruct err as [e|]; [by apply wwp_ret, resetOnly_refl|].
  case_decide as Hres; [by apply wwp_ret, resetOnly_refl|]. subst res.
  assert (forall id w', projectFound serviceProject id w w' -> id = project /\ w' = w) as Hp.
  { intros id w' [[L ->]|(He & _)]; [split; [by eapply O1|done]|by destruct (He _ _ L1)]. }
  apply wwp_bind, wwp_call. intros [e|p] w1 H1.
  { apply wwp_ret. by destruct H1 as [->|[id [_ ->]%Hp]]; apply resetOnly_refl. }
  apply Hp in H1 as [-> ->].
  assert (forall id w', userFound (serviceUser i pw project) id w w' ->
    id = user /\ forall t, passwordRead i pw t -> resetOnly w w' i t) as Hu.
  { intros id w' [[L Hw']|(He & _)]; [split; [by eapply O2|]|by destruct (He _ _ L2)]. intros t Hpw.
    destruct Hw' as [-> | ->]; [apply resetOnly_refl|]. split; [done|]. intros id'. cbn [passwords withUsers].
    destruct (decide (id' = id)) as [->|Hne]; [right|left; by rewrite lookup_insert_ne].
    split; [exact L|]. exists pw. split; [done|]. apply lookup_insert_eq. }
  apply wwp_bind, wwp_call. intros [e|u] w2 H2.
  { apply wwp_ret. destruct H2 as [->|[id [_ Hf]%Hu]]; [apply resetOnly_refl|apply Hf; left]. }
  destruct (Hu _ _ H2) as [-> Hset]. destruct (Hset [_] ltac:(left)) as [(_ & _ & E3 & E4) _].
  apply wwp_bind. eapply wwp_mono; [|apply assignRoles_steady; intros r Hr; rewrite E3, E4; by apply Hroles].
  cbv beta. intros t w3 err ->. apply wwp_ret. apply Hset. left.
Qed.

(** The deletion of a user. *)
Lemma userGone_spec (S : string * string -> Prop) k w w' :
  wfIdentity w -> S k -> userGone k w w' ->
  wfIdentity w' /\ onlyTouched S w w' /\ emptyAt nameKey (users w') k.
Proof.
  intros [Hp [Hne Hu]] HS (EU & EP & ER & EK & EG).
  assert (forall id v, users w' !! id = Some v <-> users w !! id = Some v /\ v <> k) as HU.
  { intros id v. rewrite EU. apply map_lookup_filter_Some. }
  split_and!.
  - split; [by rewrite EP|]. split.
    + rewrite eq_None_not_Some. intros [v [L _]%HU]. congruence.
    + intros k'. eapply uniqueAt_subset; [|apply Hu]. rewrite EU. apply map_filter_subseteq.
  - split; [by rewrite EP| | |by rewrite ER|].
    + intros id v Hv. rewrite HU. split; [intros L; split; [done|congruence]|by intros [? _]].
    + intros id v L Hv. apply EK. exists v. apply HU. split; [done|congruence].
    + intros r id p v L Hv. rewrite EG, elem_of_filter. split; [by intros [_ ?]|]. intros Hg. split; [|done]. exists v.
      apply HU. split; [done|congruence].
  - intros id v [_ ?]%HU. done.
Qed.
Lemma deregister_id (S : string * string -> Prop) i os w :
  wfIdentity w -> S (userKey i) ->
  wwp idStep (deregister i (Some os)) w (fun _ w' r =>
    wfIdentity w' /\ onlyTouched S w w' /\
    (r.2 = None -> ks_ServiceID (ks_status i) <> "" -> emptyAt nameKey (users w') (userKey i))).
Proof.
  intros Hwf HS. unfold deregister. case_decide as Hid; [|apply wwp_ret; split_and!; [done|done|by intros _ []]].
  apply wwp_bind, wwp_call. intros err w1 H1. destruct err as [e|].
  { apply wwp_ret. destruct H1 as [->|H1]; [done|]. apply (userGone_spec S) in H1 as (? & ? & _); done. }
  apply (userGone_spec S) in H1 as (? & ? & ?); [|done|done]. apply wwp_bind, wwp_call. intros err w2 ->.
  destruct err as [e|]; by apply wwp_ret.
Qed.
End reconcile.

(** ** A history of registrations and deregistrations *)

Definition identityCall (X : Type) (c : Call X) : Prop :=
  match c with
  | GetDataFromSecret _ _ _ | OSCreateProject _ _ | OSCreateUser _ _ | OSCreateRole _ _ | OSAssignUserRole _ _ _ _
  | OSDeleteUser _ _ _ | OSDeleteService _ _ => True
  | _ => False
  end.

Section history.
Context `{XL : ExternalLib} (os : OSClient).
Implicit Types (w : Identity) (i : KeystoneService).

Lemma identity_fails X (c : Call X) w : identityCall X c -> exists x, idStep w (Ev c x) w.
Proof.
  intros Hc. destruct c; try destruct Hc; cbn [idStep].
  - by exists ("", noResult, None).
  - by exists None.
  - exists (inl unavailable). by left.
  - exists (inl unavailable). by left.
  - exists (Some unavailable). by left.
  - exists (inl unavailable). by left.
  - exists (Some unavailable). by left.
Qed.

(** What the controller does to the identities for the KeystoneService [i]. *)
Definition reconcileIdentity i : program (KeystoneService * option GoError) :=
  if deleting i then deregister i (Some os) else r ← reconcileUser i os; mret (i, r.2).

(** The next reconcile is one of any KeystoneService, edited at will, whose
    user is in [S]. *)
Definition another (S : string * string -> Prop) i i' : Prop := S (userKey i').
Definition identityStep S : Identity * KeystoneService -> Identity * KeystoneService -> Prop :=
  step idStep reconcileIdentity (another S).

Lemma reconcileIdentity_emits i : emits identityCall (reconcileIdentity i).
Proof.
  assert (forall l u p, emits identityCall (assignRoles os l u p)) as Ha.
  { induction l as [|r l IH]; intros u p; cbn [assignRoles]; emits_go; first [exact I|apply IH]. }
  unfold reconcileIdentity, deregister, reconcileUser. emits_go; first [exact I|apply Ha].
Qed.

(** No history duplicates a project or a user, or touches what is not its own. *)
Lemma identity_invariant S s s' :
  rtc (identityStep S) s s' -> wfIdentity s.1 -> S (userKey s.2) ->
  wfIdentity s'.1 /\ onlyTouched S s.1 s'.1 /\ S (userKey s'.2).
Proof.
  intros Hreach Hwf HS.
  apply (step_invariant idStep identityCall identity_fails reconcileIdentity (another S)
    (fun w i => wfIdentity w /\ onlyTouched S s.1 w /\ S (userKey i)) s s'); [| | |done|done].
  - intros w i i' Hi (? & ? & _). done.
  - exact reconcileIdentity_emits.
  - intros w i (Hw & Hs & Hi). unfold reconcileIdentity. destruct (deleting i).
    + assert (wp (deregister i (Some os)) (fun _ a => userKey a.1 = userKey i)) as Hkey by (unfold deregister; by wp_go).
      eapply wp_mono; [|exact (wp_conj _ _ _ Hkey (deregister_id S i os w Hw Hi))]. cbv beta.
      intros t r [E H] w' Hrun. destruct (H w' Hrun) as (H1 & H2 & _). rewrite E.
      assert (onlyTouched S s.1 w') by (by transitivity w). done.
    + apply wwp_bind. eapply wwp_mono; [|by apply (reconcileUser_id S)]. cbv beta. intros t w' r (H1 & H2 & _). apply wwp_ret.
      assert (onlyTouched S s.1 w') by (by transitivity w). done.
Qed.

(** C12. The registration of a service user converges, whatever happened
    before: from a Keystone in which no two projects and no two users share a
    name and a domain, after any sequence of registrations and deregistrations
    of any KeystoneServices, with requests whose answer is lost and crashes, a
    reconcile whose requests are all confirmed succeeds, and one that succeeds
    leaves the service project and the user of the spec once each and the user
    with the admin and the service role in that project; a user that was not
    there has the password of the secret; the reconcile after it changes
    nothing, or sets the password of this user, and of no other, to that of the
    secret again; a deletion of a KeystoneService that has its service ID on
    record and that succeeds leaves no such user (without the ID nothing is
    deleted).  No project or user is ever duplicated, and other users, what
    they may do and other projects stay as they are. *)
Theorem identity_converges S s s' t r w' :
  wfIdentity s.1 -> S (userKey s.2) -> rtc (identityStep S) s s' ->
  runs (reconcileUser s'.2 os) t r -> idRun s'.1 t w' ->
  (allConfirmed t -> r = done_) /\ wfIdentity w' /\ onlyTouched S s.1 w' /\
  (r = done_ -> provisionedAs s'.1 w' s'.2 t /\
     (forall t2 r2 w2, runs (reconcileUser s'.2 os) t2 r2 -> idRun w' t2 w2 -> resetOnly w' w2 s'.2 t2) /\
     forall t2 i2 w2, runs (deregister s'.2 (Some os)) t2 (i2, None) -> idRun w' t2 w2 ->
        if decide (ks_ServiceID (ks_status s'.2) = "") then w2 = w' else emptyAt nameKey (users w2) (userKey s'.2)).
Proof.
  intros Hwf HS Hreach Hr Hrun. destruct (identity_invariant S _ _ Hreach Hwf HS) as (Hwf' & Hs & HS').
  destruct (wwp_runs _ _ _ _ _ _ _ (reconcileUser_id S s'.2 os s'.1 Hwf' HS') Hr Hrun) as (Hw & Hs' & Hok & Hc).
  split; [done|]. split; [done|]. split; [by transitivity s'.1|]. intros Hd. specialize (Hok Hd). split; [done|]. split.
  - intros t2 r2 w2 Hr2 Hrun2. by apply (wwp_runs _ _ _ _ _ _ _ (reconcileUser_steady s'.2 os w' (proj1 Hok)) Hr2 Hrun2).
  - intros t2 i2 w2 Hr2 Hrun2. case_decide as Hid.
    + unfold deregister in Hr2. rewrite decide_False in Hr2 by (by intros []). destruct Hr2 as [-> _]. exact Hrun2.
    + destruct (wwp_runs _ _ _ _ _ _ _ (deregister_id S s'.2 os w' Hw HS') Hr2 Hrun2) as (_ & _ & H). by apply H.
Qed.
End history.

(** ** A Keystone to run against *)

Definition idAt (m : gmap string (string * string)) (k : string * string) : option string :=
  fst <$> head (map_to_list (filter (fun p : string * (string * string) => p.2 = k) m)).
Lemma idAt_Some m k id : idAt m k = Some id -> m !! id = Some k.
Proof.
  unfold idAt. destruct (map_to_list _) as [|[id' v] l] eqn:Hl; [done|]. intros [= <-].
  assert ((id', v) ∈ map_to_list (filter (fun p : string * (string * string) => p.2 = k) m)) as Hin by (rewrite Hl; left).
  apply elem_of_map_to_list, map_lookup_filter_Some in Hin as [L K]. cbn in K. by subst v.
Qed.
Lemma idAt_None m k : idAt m k = None -> emptyAt nameKey m k.
Proof.
  unfold idAt. destruct (map_to_list _) as [|[id' v] l] eqn:Hl; [|done]. intros _ id v L K.
  apply map_to_list_empty_iff in Hl. assert (filter (fun p : string * (string * string) => p.2 = k) m !! id = Some v) as F
    by (by apply map_lookup_filter_Some). by rewrite Hl in F.
Qed.

(** Keystone answering every request, its identities the state. *)
Definition keystoneIdentity (X : Type) (c : Call X) (w : Identity) : X * Identity :=
  match c in Call X return X * Identity with
  | OSCreateProject _ p =>
      match idAt (projects w) (projectKey p) with
      | Some id => (inr id, w)
      | None => (inr (newID (projects w)), withProjects (<[newID (projects w) := projectKey p]> (projects w)) w)
      end
  | OSCreateUser _ u =>
      match idAt (users w) (userOf u) with
      | Some id => (inr id, w)
      | None => (inr (newID (users w)),
          withUsers (<[newID (users w) := userOf u]> (users w)) (<[newID (users w) := osu_Password u]> (passwords w)) w)
      end
  | OSCreateRole _ n => (inr n, withRoles ({[n]} ∪ roles w) w)
  | OSAssignUserRole _ role user project => (None, withGrants ({[(role, user, project)]} ∪ grants w) w)
  | OSDeleteUser _ name domain =>
      (None, let m := filter (fun p : string * (string * string) => p.2 <> (name, domain)) (users w) in
             mkIdentity (projects w) m (passwords w) (roles w)
               (filter (fun g : string * string * string => is_Some (m !! g.1.2)) (grants w)))
  | c => ((nullHandler _ c tt).1, w)
  end.
Lemma keystoneIdentity_step X (c : Call X) w : idStep w (Ev c (keystoneIdentity X c w).1) (keystoneIdentity X c w).2.
Proof.
  destruct c; try reflexivity; cbn [keystoneIdentity idStep].
  - destruct (idAt _ _) as [id|] eqn:Hid; cbn [fst snd]; [left; split; [by apply idAt_Some|done]|right].
    destruct (newID_fresh (projects w)). split_and!; [by apply idAt_None|done..].
  - destruct (idAt _ _) as [id|] eqn:Hid; cbn [fst snd]; [left; split; [by apply idAt_Some|by left]|right].
    destruct (newID_fresh (users w)). split_and!; [by apply idAt_None|done..].
  - by split_and!.
Qed.
Lemma keystoneIdentity_run {A} (p : program A) w : idRun w (exec keystoneIdentity p w).1.1 (exec keystoneIdentity p w).2.
Proof. apply exec_wrun, keystoneIdentity_step. Qed.

Definition emptyIdentity : Identity := mkIdentity ∅ ∅ ∅ ∅ ∅.
(** The user of nova registered twice; then the user of another service. *)
Definition otherService : KeystoneService :=
  mkService (newMeta "glance" "openstack") (mkServiceSpec "image" "glance" "Image" true "glance" "osp-secret" "GlancePassword")
    (mkServiceStatus "glance-id" (Some [])).
Definition novaRun : trace * (KeystoneService * option GoError) * Identity :=
  exec keystoneIdentity (reconcileIdentity 0%nat demoUserService) emptyIdentity.
Definition glanceRun : trace * ret * Identity := exec keystoneIdentity (reconcileUser otherService 0%nat) novaRun.2.

Lemma wfIdentity_empty : wfIdentity emptyIdentity.
Proof. split; (split; [done|]; intros k id id' v v' H; by destruct (lookup_empty_Some (M := gmap string) _ _ H)). Qed.
Lemma novaRun_reached : rtc (identityStep 0%nat (fun _ => True)) (emptyIdentity, demoUserService) (novaRun.2, otherService).
Proof.
  eapply rtc_l; [|apply rtc_once; by apply step_edit].
  apply (step_reconcile _ _ _ _ _ novaRun.1.1 _ novaRun.1.2.2); [|apply keystoneIdentity_run].
  assert (demoUserService = novaRun.1.2.1) as -> by (vm_compute; reflexivity). rewrite <- surjective_pairing. apply exec_runs.
Qed.

Lemma identity_converges_witness :
  (forall s, s ∈ [glanceRun.2] -> size (projects s) = 1%nat /\ size (users s) = 2%nat) /\ glanceRun.1.2 = done_ /\
  provisionedAs novaRun.2 glanceRun.2 otherService glanceRun.1.1.
Proof.
  split; [intros s ->%list_elem_of_singleton; split; vm_compute; reflexivity|].
  assert (glanceRun.1.2 = done_) as Hd by (vm_compute; reflexivity). split; [exact Hd|].
  destruct (identity_converges 0%nat (fun _ => True) (emptyIdentity, demoUserService) (novaRun.2, otherService) glanceRun.1.1
    glanceRun.1.2 glanceRun.2) as (_ & _ & _ & H).
  - apply wfIdentity_empty.
  - exact I.
  - apply novaRun_reached.
  - apply exec_runs.
  - apply (keystoneIdentity_run (reconcileUser otherService 0%nat) novaRun.2).
  - exact (proj1 (H Hd)).
Defined.
