(* ===== verification/Vault.v ===== *)
(** The KeystoneApplicationCredential controller, Keystone and the secrets of
    the namespace as one system: the credentials Keystone knows and when they
    expire, the secrets that hold them, the resource as the API server stores it, the
    steps they take, and what makes such a state sound.  Credentials.v lets
    the controller run on it. *)
From S2P Require Import Prelude Effects World Tables GoTime Api Conditions Instances Calls External Demo Protection KeystoneClient ACController.

(** ** The state *)

Record vault := mkVault {
  (* the resource as stored *)
  v_CR : KeystoneApplicationCredential;
  (* the secrets of its namespace by name *)
  v_secrets : gmap string Secret;
  (* the credentials Keystone knows: the user's ID, the credential's ID *)
  v_alive : gset (string * string);
  (* the IDs Keystone ever gave a credential *)
  v_issued : gset string;
  (* the instant a credential expires at, for those that do *)
  v_expires : gmap string Z;
  (* the ID of the user the spec names *)
  v_user : string
}.

Definition setCR (i : KeystoneApplicationCredential) (w : vault) : vault :=
  mkVault i (v_secrets w) (v_alive w) (v_issued w) (v_expires w) (v_user w).
Definition setUser (u : string) (w : vault) : vault :=
  mkVault (v_CR w) (v_secrets w) (v_alive w) (v_issued w) (v_expires w) u.
Definition putSecret (s : Secret) (w : vault) : vault :=
  mkVault (v_CR w) (<[s_Name s := s]> (v_secrets w)) (v_alive w) (v_issued w) (v_expires w) (v_user w).
Definition dropSecret (n : string) (w : vault) : vault :=
  mkVault (v_CR w) (delete n (v_secrets w)) (v_alive w) (v_issued w) (v_expires w) (v_user w).
Definition issue (u id : string) (e : option Z) (w : vault) : vault :=
  mkVault (v_CR w) (v_secrets w) ({[(u, id)]} ∪ v_alive w) ({[id]} ∪ v_issued w)
    (partial_alter (fun _ => e) id (v_expires w)) (v_user w).
Definition revoke (u id : string) (w : vault) : vault :=
  mkVault (v_CR w) (v_secrets w) (v_alive w ∖ {[ (u, id) ]}) (v_issued w) (v_expires w) (v_user w).

(** A credential is valid at an instant until it is revoked or expires. *)
Definition unexpired (w : vault) (now : Z) (id : string) : Prop := forall e, v_expires w !! id = Some e -> now < e.
Definition valid (w : vault) (now : Z) (u id : string) : Prop := (u, id) ∈ v_alive w /\ unexpired w now id.

(** Keystone gives a new credential an ID it never used, and an expiry when it
    was asked for one (as it rounds it). *)
Definition issued (o : ACCreateOpts) (u id : string) (e : option Z) (w w' : vault) : Prop :=
  id <> "" /\ (id ∉ v_issued w) /\ (e = None <-> aco_ExpiresAt o = None) /\ w' = issue u id e w.
(** It does not find a credential that is not there, nor one that it has dropped
    since it expired. *)
Definition missing (u id : string) (w w' : vault) : Prop :=
  (w' = w /\ (u, id) ∉ v_alive w) \/ (w' = revoke u id w /\ is_Some (v_expires w !! id)).
(** The API server creates a secret that does not exist. *)
Definition stored (s : Secret) (w w' : vault) : Prop := v_secrets w !! s_Name s = None /\ w' = putSecret s w.
(** It replaces one that exists; one that is being deleted goes with its last
    finalizer. *)
Definition replaced (s : Secret) (w w' : vault) : Prop :=
  exists old, v_secrets w !! s_Name s = Some old /\
    (w' = putSecret s w \/ (Finalizers (s_meta old) <> [] /\ Finalizers (s_meta s) = [] /\ w' = dropSecret (s_Name s) w)).
(** It removes one that has no finalizer. *)
Definition removed (s : Secret) (w w' : vault) : Prop :=
  match v_secrets w !! s_Name s with
  | Some old => w' = if decide (Finalizers (s_meta old) = []) then dropSecret (s_Name s) w else w
  | None => w' = w
  end.

(** One exchange, at whatever instant: reads are up to date; a write that is confirmed was done; one
    that is not may have been done.  That a credential is not there, or that a
    secret exists already, are answers. *)
Definition vaultStep (w : vault) (ev : event Call) (w' : vault) : Prop :=
  match ev with
  | Ev c x =>
      match c in Call X return X -> Prop with
      | GetApplicationCredential _ _ => fun r => w' = w /\ forall i, r = inr i -> i = v_CR w
      | PatchApplicationCredential o => fun r =>
          match r with None => w' = setCR o w | Some _ => w' = w \/ w' = setCR o w end
      | GetSecret _ n => fun r => w' = w /\
          match r with
          | inr s => v_secrets w !! n = Some s
          | inl e => IsNotFound e = true -> v_secrets w !! n = None
          end
      | LibGetSecret _ n => fun r => w' = w /\ forall s h, r = inr (s, h) -> v_secrets w !! n = Some s
      | ListSecrets _ labels => fun r => w' = w /\
          forall items, r = inr items -> NoDup (s_Name <$> items) /\
            forall s, s ∈ items <-> exists n, v_secrets w !! n = Some s /\ labels ⊆ Labels (s_meta s)
      | CreateSecret s => fun r =>
          match r with
          | None => stored s w w'
          | Some e => (w' = w \/ stored s w w') /\ (IsAlreadyExists e = true -> is_Some (v_secrets w' !! s_Name s))
          end
      | UpdateSecret s => fun r => match r with None => replaced s w w' | Some _ => w' = w \/ replaced s w w' end
      | DeleteSecret s => fun r => match r with None => removed s w w' | Some _ => w' = w \/ removed s w w' end
      | TokenExtractUser _ => fun r => w' = w /\ forall u, r = inr u -> u = v_user w
      | ACCreate _ u o => fun r =>
          match r with
          | inr c => exists e, cac_ExpiresAt c = default zeroTime e /\ issued o u (cac_ID c) e w w'
          | inl _ => w' = w \/ exists id e, issued o u id e w w'
          end
      | ACDelete _ u id => fun r =>
          match r with
          | None => w' = revoke u id w
          | Some e => if ResponseCodeIs e 404 then missing u id w w' else w' = w \/ w' = revoke u id w
          end
      | _ => fun _ => w' = w
      end x
  end.
Definition vaultRun : vault -> trace -> vault -> Prop := wrun vaultStep.

(** A request to Keystone that was not confirmed. *)
Definition unsettled (ev : event Call) : Prop :=
  match ev with
  | Ev c x =>
      match c in Call X return X -> Prop with
      | ACCreate _ _ _ => fun r => exists e, r = inl e
      | ACDelete _ _ _ => fun r => exists e, r = Some e /\ ResponseCodeIs e 404 = false
      | _ => fun _ => False
      end x
  end.
Definition settled (t : trace) : Prop := forall ev, ev ∈ t -> ~ unsettled ev.
Lemma settled_app t1 t2 : settled (t1 ++ t2) <-> settled t1 /\ settled t2.
Proof. unfold settled. setoid_rewrite elem_of_app. naive_solver. Qed.

(** The requests that change the state. *)
Definition changes (X : Type) (c : Call X) : bool :=
  match c with
  | PatchApplicationCredential _ | CreateSecret _ | UpdateSecret _ | DeleteSecret _ | ACCreate _ _ _ | ACDelete _ _ _ => true
  | _ => false
  end.
Lemma vaultStep_quiet X (c : Call X) x w w' : changes X c = false -> vaultStep w (Ev c x) w' -> w' = w.
Proof. destruct c; cbn; try done; by intros _ []. Qed.
Lemma wwp_quiet {A} (p : program A) w : avoids changes p -> wwp vaultStep p w (fun t w' _ => w' = w /\ settled t).
Proof.
  intros Hp. apply wp_runs. intros t a Hr. eapply avoids_runs in Hr; [|exact Hp]. clear p Hp a.
  intros w' Hw. revert w Hw. induction t as [|[X c x] t IH]; intros w Hw; [split; [exact Hw|set_solver]|].
  apply Forall_cons in Hr as [Hc Hr]. destruct Hw as (w1 & Hs & Hw). apply (vaultStep_quiet _ _ _ _ _ Hc) in Hs as ->.
  destruct (IH Hr w Hw) as [-> Ht]. split; [done|]. intros ev [->|Hin]%elem_of_cons; [|by apply Ht].
  destruct c; first [discriminate Hc|by intros []].
Qed.

(** A call can fail without effect. *)
Lemma vault_fails X (c : Call X) w : exists x, vaultStep w (Ev c x) w.
Proof.
  pose proof (nullHandler X c tt).1 as x. destruct c; try (by exists x); cbn [vaultStep].
  all: try (by exists (inl (errorf "lost")); split; [done|]).
  all: try (by exists (Some (errorf "lost")); left).

  - exists (Some (errorf "lost")). split; [by left|done].
  - exists (inl (errorf "lost")). by left.
Qed.

(** The IDs Keystone gave, and the expiries it gave with them, stay. *)
Definition dates (w w' : vault) : Prop :=
  v_issued w ⊆ v_issued w' /\ forall id, id ∈ v_issued w -> v_expires w' !! id = v_expires w !! id.
#[export] Instance dates_preorder : PreOrder dates.
Proof.
  split; [by intros w|]. intros w1 w2 w3 [H1 E1] [H2 E2]. split; [set_solver|]. intros id Hid. rewrite E2, E1; auto.
Qed.
Lemma issue_dates u id e w : id ∉ v_issued w -> dates w (issue u id e w).
Proof. intros Hid. split; cbn; [set_solver|]. intros id' Hin. apply lookup_partial_alter_ne. by intros ->. Qed.
Lemma vaultStep_dates w ev w' : vaultStep w ev w' -> dates w w'.
Proof.
  assert (forall w', w' = w -> dates w w') as Hsame by (by intros ? ->).
  assert (forall s w', replaced s w w' -> dates w w') as Hrep by (by intros s w1 (old & _ & [->|(_ & _ & ->)])).
  assert (forall s w', removed s w w' -> dates w w') as Hrem.
  { unfold removed. intros s w1. destruct (v_secrets w !! s_Name s); [case_decide|]; by intros ->. }
  assert (forall s w', stored s w w' -> dates w w') as Hst by (by intros s w1 [_ ->]).
  assert (forall o u id e w', issued o u id e w w' -> dates w w') as His
    by (intros o u id e w1 (_ & Hid & _ & ->); by apply issue_dates).
  destruct ev as [X c x]. destruct c; cbn [vaultStep]; try (by intros [-> _]); try (by intros ->).
  - destruct x as [e|]; [intros [->| ->]|intros ->]; done.
  - destruct x as [e|]; [intros [[->|?] _]|]; eauto.
  - destruct x as [e|]; [intros [->|?]|]; eauto.
  - destruct x as [e|]; [intros [->|?]|]; eauto.
  - destruct x as [e|c]; [intros [->|(id & e' & ?)]|intros (e' & _ & ?)]; eauto.
  - unfold missing. destruct x as [e|]; [|by intros ->]. destruct (ResponseCodeIs e 404);
      [intros [[-> _]|[-> _]]|intros [->| ->]]; done.
Qed.
Lemma vaultRun_dates w t w' : vaultRun w t w' -> dates w w'.
Proof.
  revert w. induction t as [|ev t IH]; intros w; [by intros ->|]. intros (w1 & H1 & H2).
  etransitivity; [by eapply vaultStep_dates|by apply IH].
Qed.
(** A credential that was created has the expiry Keystone told of. *)
Lemma vaultRun_created w t w' os u o c :
  vaultRun w t w' -> Ev (ACCreate os u o) (inr c) ∈ t -> cac_ExpiresAt c = default zeroTime (v_expires w' !! cac_ID c).
Proof.
  revert w. induction t as [|ev t IH]; intros w; [by intros _ ?%elem_of_nil|]. intros (w1 & H1 & H2) [<-|Hin]%elem_of_cons;
    [|by eapply IH].
  destruct H1 as (e & -> & _ & _ & _ & ->). destruct (vaultRun_dates _ _ _ H2) as [_ ->]; [|cbn; set_solver].
  cbn. by rewrite lookup_partial_alter_eq.
Qed.

(** ** What holds of the state *)

(** The secret is the status' current or previous one, or a consumer uses it. *)
Definition guarded (cur prev n : string) (s : Secret) : Prop :=
  (n <> "" /\ (n = cur \/ n = prev)) \/ hasConsumerFinalizer s = true.

(** The state is sound for a status with these references: the secrets of the
    status exist, no two secrets hold the same credential, and Keystone knows
    the credential of every guarded secret. *)
Record sound (acid cur prev : string) (w : vault) : Prop := {
  so_names : forall n s, v_secrets w !! n = Some s -> s_Name s = n;
  so_issued : forall n s, v_secrets w !! n = Some s -> secretACID s <> "" -> secretACID s ∈ v_issued w;
  so_alive : forall u id, (u, id) ∈ v_alive w -> id ∈ v_issued w;
  so_nonempty : "" ∉ v_issued w;
  so_unique : forall id, id <> "" -> uniqueAt secretACID (v_secrets w) id;
  so_status : acid <> "" -> cur <> "";
  so_current : cur <> "" -> acid <> "" /\ exists s, v_secrets w !! cur = Some s /\ secretACID s = acid;
  so_previous : prev <> "" -> is_Some (v_secrets w !! prev);
  so_valid : forall n s, v_secrets w !! n = Some s -> guarded cur prev n s -> exists u, (u, secretACID s) ∈ v_alive w
}.

(** A secret holds the credential. *)
Definition held (w : vault) (id : string) : Prop := exists n s, v_secrets w !! n = Some s /\ secretACID s = id.
Lemma held_elem w id : held w id <-> id ∈ (secretACID <$> (map_to_list (v_secrets w)).*2).
Proof.
  rewrite list_elem_of_fmap. setoid_rewrite list_elem_of_fmap. split.
  - intros (n & s & Hn & <-). exists s. split; [done|]. exists (n, s). split; [done|]. by apply elem_of_map_to_list.
  - intros (s & -> & [n s'] & -> & Hin). exists n, s'. split; [by apply elem_of_map_to_list|done].
Qed.
#[export] Instance held_dec w id : Decision (held w id).
Proof. refine (cast_if (decide (id ∈ (secretACID <$> (map_to_list (v_secrets w)).*2)))); by rewrite held_elem. Defined.
(** Known to Keystone, expired or not, and no secret holds it. *)
Definition orphan (w : vault) (u id : string) : Prop := (u, id) ∈ v_alive w /\ ~ held w id.
#[export] Instance orphan_dec w u id : Decision (orphan w u id).
Proof. unfold orphan. apply _. Defined.
Definition noNewOrphan (w w' : vault) : Prop := forall u id, orphan w' u id -> orphan w u id.
#[export] Instance noNewOrphan_preorder : PreOrder noNewOrphan.
Proof. split; [by intros w u id|intros w1 w2 w3 H1 H2 u id H; by apply H1, H2]. Qed.

(** The credentials the secrets hold are those of the user the spec names. *)
Definition owned (w : vault) : Prop :=
  forall n s u, v_secrets w !! n = Some s -> (u, secretACID s) ∈ v_alive w -> u = v_user w.

Section changes.
Context (acid cur prev : string).
Implicit Types (w : vault) (s : Secret).
Abbreviation sound := (sound acid cur prev).
Abbreviation guarded := (guarded cur prev).

Lemma guarded_sub n s s' : (hasConsumerFinalizer s' = true -> hasConsumerFinalizer s = true) -> guarded n s' -> guarded n s.
Proof. unfold Vault.guarded. tauto. Qed.

Lemma setCR_sound i w : sound w -> sound (setCR i w).
Proof. by intros []. Qed.
Lemma setUser_sound u w : sound w -> sound (setUser u w).
Proof. by intros []. Qed.

Lemma issue_sound u id e w : sound w -> id <> "" -> sound (issue u id e w).
Proof.
  intros [] Hid. split; cbn; try done; set_solver.
Qed.

Lemma revoke_sound u id w :
  sound w -> (forall n s, v_secrets w !! n = Some s -> guarded n s -> secretACID s <> id) -> sound (revoke u id w).
Proof.
  intros [] Hno. split; cbn; try done; set_solver.
Qed.

(** Another version of a secret that holds the same credential. *)
Lemma putSecret_sound s old w :
  sound w -> v_secrets w !! s_Name s = Some old -> secretACID s = secretACID old ->
  (guarded (s_Name s) s -> guarded (s_Name s) old) -> sound (putSecret s w).
Proof.
  intros [] Hold Hid Hg. split; cbn; try done.
  - intros n s'. rewrite lookup_insert_Some. intros [[<- <-]|[_ ?]]; [done|eauto].
  - intros n s'. rewrite lookup_insert_Some. intros [[<- <-]|[_ ?]]; [rewrite Hid|]; eauto.
  - intros id Hne n1 n2 s1 s2. rewrite !lookup_insert_Some.
    assert (forall n s', v_secrets w !! n = Some s' -> secretACID s' = id -> secretACID s = id -> s_Name s = n) as Hu.
    { intros n s' Hn H1 H2. eapply (so_unique0 id Hne); [exact Hold|exact Hn|congruence|done]. }
    intros [[<- <-]|[_ H1]] [[<- <-]|[_ H2]] K1 K2; [done|by eapply Hu|symmetry; by eapply Hu|].
    by eapply (so_unique0 id Hne).
  - intros Hc. destruct (so_current0 Hc) as [Ha (s' & Hs & Hi)]. split; [done|].
    destruct (decide (cur = s_Name s)) as [->|Hne]; [|by exists s'; rewrite lookup_insert_ne].
    exists s. rewrite lookup_insert_eq. split; [done|]. congruence.
  - intros Hp. rewrite lookup_insert_is_Some'. right. by apply so_previous0.
  - intros n s'. rewrite lookup_insert_Some. intros [[<- <-]|[_ ?]] Hgs; [rewrite Hid|]; eauto.
Qed.

Lemma dropSecret_sound s w :
  sound w -> v_secrets w !! s_Name s = Some s -> ~ guarded (s_Name s) s -> sound (dropSecret (s_Name s) w).
Proof.
  intros [] Hs Hg. split; cbn; try done.
  all: try (intros n s' [_ ?]%lookup_delete_Some; eauto).
  - intros id Hne. eapply uniqueAt_subset; [apply delete_subseteq|eauto].
  - intros Hc. destruct (so_current0 Hc) as [Ha (s' & Hs' & Hi)]. split; [done|]. exists s'. split; [|done].
    rewrite lookup_delete_ne; [done|]. intros E. apply Hg. left. rewrite E. tauto.
  - intros Hp. rewrite lookup_delete_ne; [by apply so_previous0|]. intros E. apply Hg. left. rewrite E. tauto.
Qed.

(** The secret of a credential that was just created. *)
Lemma newSecret_sound s u w :
  sound w -> v_secrets w !! s_Name s = None -> ~ held w (secretACID s) ->
  secretACID s ∈ v_issued w -> (u, secretACID s) ∈ v_alive w -> sound (putSecret s w).
Proof.
  intros [] Hnone Hheld Hi Ha. split; cbn; try done.
  - intros n s'. rewrite lookup_insert_Some. intros [[<- <-]|[_ ?]]; [done|eauto].
  - intros n s'. rewrite lookup_insert_Some. intros [[<- <-]|[_ ?]]; [done|eauto].
  - intros id Hne n1 n2 s1 s2. rewrite !lookup_insert_Some.
    intros [[<- <-]|[_ H1]] [[<- <-]|[_ H2]] K1 K2; [done| | |by eapply (so_unique0 id Hne)].
    + destruct Hheld. exists n2, s2. by rewrite K1, K2.
    + destruct Hheld. exists n1, s1. by rewrite K1, K2.
  - intros Hc. destruct (so_current0 Hc) as [Ha' (s' & Hs & Hid)]. split; [done|]. exists s'.
    rewrite lookup_insert_ne; [done|]. intros E. rewrite E in Hnone. congruence.
  - intros Hp. rewrite lookup_insert_is_Some'. right. by apply so_previous0.
  - intros n s'. rewrite lookup_insert_Some. intros [[<- <-]|[_ ?]] Hgs; [by exists u|eauto].
Qed.
End changes.

(** The status after a rotation. *)
Lemma rotated_sound acid cur prev s acid' w :
  sound acid cur prev w -> v_secrets w !! s_Name s = Some s -> s_Name s <> "" -> secretACID s = acid' -> acid' <> "" ->
  (exists u, (u, acid') ∈ v_alive w) ->
  sound acid' (s_Name s) (if decide (acid <> "" /\ cur <> "") then cur else prev) w.
Proof.
  intros [] Hs Hn Hid Hne Hal. split; try done.
  - intros _. split; [done|]. by exists s.
  - case_decide as Hd; [|done]. intros Hc. destruct (so_current0 Hc) as [_ (s' & Hs' & _)]. by rewrite Hs'.
  - intros n s' Hn' [[Hne' [-> | ->]]|Hc].
    + assert (s' = s) as -> by congruence. by rewrite Hid.
    + apply (so_valid0 _ s' Hn'). left. split; [done|]. case_decide; tauto.
    + apply (so_valid0 _ s' Hn'). by right.
Qed.
