(* ===== verification/Credentials.v ===== *)
(** What a history of reconciles, crashes, lost answers, edits of the spec and
    consumers that come and go makes of the credentials and secrets of a
    KeystoneApplicationCredential (the system of Vault.v). *)
From S2P Require Import Prelude Effects World Tables GoTime Api Conditions Instances Calls External Demo Protection KeystoneClient ACController Vault.

(** ** One reconcile *)

(** What a part of a reconcile does: it leaves the resource alone and the state
    sound; unless a request to Keystone was not confirmed, every credential that
    Keystone knows and no secret holds was one before. *)
Definition safely (acid cur prev : string) (w : vault) (t : trace) (w' : vault) : Prop :=
  sound acid cur prev w' /\ v_CR w' = v_CR w /\ v_user w' = v_user w /\
  (owned w -> owned w' /\ (settled t -> noNewOrphan w w')).

Section safely.
Context (acid cur prev : string).
Implicit Types (w : vault) (s : Secret).
Abbreviation sound := (sound acid cur prev).
Abbreviation guarded := (guarded cur prev).
Abbreviation safely := (safely acid cur prev).

Lemma safely_refl w t : sound w -> safely w t w.
Proof. intros Hw. unfold Credentials.safely. split_and!; [done..|]. intros Ho. split; [done|]. by intros _. Qed.
Lemma safely_trans w t1 w1 t2 w2 : safely w t1 w1 -> safely w1 t2 w2 -> safely w (t1 ++ t2) w2.
Proof.
  intros (_ & E1 & E2 & H1) (H & E3 & E4 & H2). unfold Credentials.safely. split_and!; [done|congruence|congruence|].
  intros Ho. destruct (H1 Ho) as [Ho1 Hn1]. destruct (H2 Ho1) as [Ho2 Hn2]. split; [done|].
  intros [? ?]%settled_app. etransitivity; [by apply Hn1|by apply Hn2].
Qed.

Lemma safely_revoke u id w t :
  sound w -> (forall n s, v_secrets w !! n = Some s -> guarded n s -> secretACID s <> id) -> safely w t (revoke u id w).
Proof.
  intros Hw Hno. unfold Credentials.safely. split_and!; [by apply revoke_sound|done|done|]. intros Ho. split.
  - intros n s u' Hn Ha. cbn in *. apply (Ho n s); [done|set_solver].
  - intros _ u' id' [Ha Hh]. split; [cbn in Ha; set_solver|exact Hh].
Qed.
Lemma safely_put s old w t :
  sound w -> v_secrets w !! s_Name s = Some old -> secretACID s = secretACID old ->
  (guarded (s_Name s) s -> guarded (s_Name s) old) -> safely w t (putSecret s w).
Proof.
  intros Hw Hold Hid Hg. unfold Credentials.safely. split_and!; [by eapply putSecret_sound|done|done|]. intros Ho. split.
  - intros n s' u. cbn. rewrite lookup_insert_Some. intros [[<- <-]|[_ Hn]] Ha; [|by eapply Ho].
    rewrite Hid in Ha. by eapply Ho.
  - intros _ u id [Ha Hh]. split; [exact Ha|]. intros (n & s' & Hn & Hs'). apply Hh.
    destruct (decide (n = s_Name s)) as [->|Hne].
    + exists (s_Name s), s. cbn. rewrite lookup_insert_eq. split; [done|]. congruence.
    + exists n, s'. cbn. by rewrite lookup_insert_ne.
Qed.
(** A secret may go when its credential has gone. *)
Lemma safely_drop s w t :
  sound w -> v_secrets w !! s_Name s = Some s -> ~ guarded (s_Name s) s ->
  (v_user w, secretACID s) ∉ v_alive w -> safely w t (dropSecret (s_Name s) w).
Proof.
  intros Hw Hs Hg Ha. unfold Credentials.safely. split_and!; [by apply dropSecret_sound|done|done|]. intros Ho. split.
  - intros n s' u. cbn. intros [_ Hn]%lookup_delete_Some. intros Ha'. by apply (Ho n s' u).
  - intros _ u id [Hal Hh]. split; [exact Hal|]. intros (n & s' & Hn & Hs'). apply Hh. exists n, s'. split; [|done].
    cbn. rewrite lookup_delete_ne; [done|]. intros <-. assert (s' = s) as -> by congruence. subst id.
    cbn in Hal. apply Ha. by rewrite <- (Ho _ _ _ Hs Hal).
Qed.

(** *** The programs *)

Context `{CL : ConditionLib} `{FLaws : FinalizerLaws} `{XL : ExternalLib}.
Abbreviation vwp p w Q := (wwp vaultStep p w Q).

Lemma ensureServiceLabel_safe sn ns svc w :
  sound w -> vwp (ensureServiceLabel sn ns svc) w (fun t w' _ => safely w t w').
Proof.
  intros Hw. unfold ensureServiceLabel. apply wwp_bind, wwp_call. intros r w1 [-> Hr]. destruct r as [e|s].
  { apply wwp_ret. by apply safely_refl. }
  case_decide; [apply wwp_ret; by apply safely_refl|]. apply wwp_call. intros err w' Hw'.
  pose proof (so_names _ _ _ _ Hw sn s Hr) as Hn.
  match type of Hw' with vaultStep _ (Ev (UpdateSecret ?n) _) _ => set (s' := n) in * end.
  assert (replaced s' w w' -> safely w [Ev (GetSecret ns sn) (inr s); Ev (UpdateSecret s') err] w') as Hrep.
  { intros (old & Hold & Hcase). change (s_Name s') with (s_Name s) in *. rewrite Hn in Hold.
    assert (old = s) as -> by congruence.
    destruct Hcase as [->|(H1 & H2 & _)]; [|done]. eapply (safely_put s' s); [done|change (s_Name s') with (s_Name s);
      congruence|done|].
    unfold Vault.guarded. done. }
  destruct err as [e|]; [destruct Hw' as [->|Hw']; [by apply safely_refl|]|]; by apply Hrep.
Qed.
Lemma ensureServiceLabels_safe names ns svc w :
  sound w -> vwp (ensureServiceLabels names ns svc) w (fun t w' _ => safely w t w').
Proof.
  revert w; induction names as [|sn names IH]; intros w Hw; cbn [ensureServiceLabels]; [by apply wwp_ret, safely_refl|].
  case_decide; [by apply IH|]. apply wwp_bind. eapply wwp_mono; [|by apply ensureServiceLabel_safe]. cbv beta.
  intros t w1 _ H1. eapply wwp_mono; [|apply IH, H1]. cbv beta. intros t2 w2 _ H2. by eapply safely_trans.
Qed.

Lemma revokeKeystoneAC_vault os u id w :
  vwp (revokeKeystoneAC os u id) w (fun t w' r =>
    (w' = w \/ w' = revoke u id w) /\ (r = None -> (u, id) ∉ v_alive w') /\ (settled t -> r = None)).
Proof.
  unfold revokeKeystoneAC. apply wwp_bind, wwp_call. intros err w' Hw'. apply wwp_ret. destruct err as [e|].
  - cbn in Hw'. destruct (ResponseCodeIs e 404) eqn:H4.
    { destruct Hw' as [[-> ?]|[-> _]]; split_and!; [by left|done|done|by right|set_solver|done]. }
    split_and!; [tauto|done|]. intros Hs. exfalso. apply (Hs _ (list_elem_of_here _ _)). by exists e.
  - cbn in Hw'. subst w'. split_and!; [by right|set_solver|done].
Qed.

Lemma unprotected_consumer s : hasConsumerFinalizer (unprotected s) = true -> hasConsumerFinalizer s = true.
Proof.
  unfold hasConsumerFinalizer. rewrite !existsb_exists. intros (f & Hin & Hf). exists f. split; [|done].
  apply list_elem_of_In. apply list_elem_of_In in Hin. cbn in Hin. rewrite RemoveFinalizer_elem in Hin. by destruct Hin.
Qed.
Lemma unprotected_guarded n s : guarded n (unprotected s) -> guarded n s.
Proof. apply guarded_sub, unprotected_consumer. Qed.

(** A program that changes one secret only. *)
Definition onlySecret (n : string) w w' : Prop := forall n', n' <> n -> v_secrets w' !! n' = v_secrets w !! n'.

Lemma unprotectSecret_safe s w :
  sound w -> v_secrets w !! s_Name s = Some s -> ~ guarded (s_Name s) s ->
  (v_user w, secretACID s) ∉ v_alive w ->
  vwp (unprotectSecret s) w (fun t w' r =>
    safely w t w' /\ onlySecret (s_Name s) w w' /\ v_alive w' = v_alive w /\ r.1 = unprotected s /\
    (r.2 = None -> v_secrets w' !! s_Name s = None \/ v_secrets w' !! s_Name s = Some (unprotected s))).
Proof.
  intros Hw Hs Hg Hgone. unfold unprotectSecret, unprotected. pose proof (unprotected_guarded (s_Name s) s) as Hug.
  unfold unprotected in Hug.
  pose proof (RemoveFinalizer_flag acSecretFinalizer (Finalizers (s_meta s))) as Hch.
  pose proof (RemoveFinalizer_same acSecretFinalizer (Finalizers (s_meta s))) as Hsame.
  destruct (RemoveFinalizer acSecretFinalizer (Finalizers (s_meta s))) as [fs changed] eqn:Hrem. cbn [fst snd] in *.
  set (s' := setSecretMeta (setFinalizers fs (s_meta s)) s) in *. destruct changed.
  - apply wwp_bind, wwp_call. intros err w' Hw'. apply wwp_ret. cbn [fst snd].
    assert (replaced s' w w' -> safely w ([Ev (UpdateSecret s') err] ++ []) w' /\ onlySecret (s_Name s) w w' /\
      v_alive w' = v_alive w /\ (v_secrets w' !! s_Name s = None \/ v_secrets w' !! s_Name s = Some s')) as Hrep.
    { intros (old & Hold & Hcase). change (s_Name s') with (s_Name s) in *. assert (old = s) as -> by congruence.
      destruct Hcase as [->|(_ & _ & ->)].
      - split_and!; [by eapply (safely_put s' s)| |done|right; cbn; by rewrite lookup_insert_eq].
        intros n' Hn'. cbn. by rewrite lookup_insert_ne.
      - split_and!; [by apply safely_drop| |done|left; cbn; by rewrite lookup_delete_eq].
        intros n' Hn'. cbn. by rewrite lookup_delete_ne. }
    destruct err as [e|].
    + destruct Hw' as [->|Hw']; [by split_and!; [apply safely_refl|..]|]. destruct (Hrep Hw') as (? & ? & ? & _). by split_and!.
    + destruct (Hrep Hw') as (? & ? & ? & ?). by split_and!.
  - apply wwp_ret. cbn [fst snd]. split_and!; [by apply safely_refl|done|done|done|]. intros _. right. rewrite Hs. f_equal.
    symmetry in Hch. apply bool_decide_eq_false in Hch. unfold s'. rewrite (Hsame Hch). by destruct s as [[] ? ?].
Qed.

Lemma revokeOf_safe os s w :
  sound w -> v_secrets w !! s_Name s = Some s -> ~ guarded (s_Name s) s -> secretACID s <> "" ->
  vwp (revokeKeystoneAC os (v_user w) (secretACID s)) w (fun t w' r =>
    safely w t w' /\ v_secrets w' = v_secrets w /\ v_alive w' ⊆ v_alive w /\
    (r = None -> (v_user w', secretACID s) ∉ v_alive w')).
Proof.
  intros Hw Hs Hg Hne. eapply wwp_mono; [|apply revokeKeystoneAC_vault]. cbv beta. intros t w' r (Hcase & Hgone & _).
  assert (safely w t w' /\ v_secrets w' = v_secrets w /\ v_user w' = v_user w /\ v_alive w' ⊆ v_alive w) as (H1 & H2 & H3 & H4).
  { destruct Hcase as [->| ->]; [by split_and!; [apply safely_refl|..]|]. split_and!; [|done|done|cbn; set_solver].
    apply safely_revoke; [done|].
    intros n s' Hn Hgs E. assert (n = s_Name s) as -> by exact (so_unique _ _ _ _ Hw _ Hne _ _ _ _ Hn Hs E eq_refl).
    assert (s' = s) as -> by congruence. done. }
  split_and!; [done..|]. by rewrite H3.
Qed.

Lemma deleteSecret_safe s w :
  sound w -> ~ guarded (s_Name s) s -> (v_user w, secretACID s) ∉ v_alive w ->
  v_secrets w !! s_Name s = None \/ v_secrets w !! s_Name s = Some s ->
  vwp (call (DeleteSecret s)) w (fun t w' _ =>
    safely w t w' /\ v_alive w' = v_alive w /\ v_secrets w' ⊆ v_secrets w /\ onlySecret (s_Name s) w w').
Proof.
  intros Hw Hg Hgone Hcase. apply wwp_call. intros err w' Hw'. set (t := [Ev (DeleteSecret s) err]).
  set (Q := _ /\ _ /\ _ /\ _).
  assert (removed s w w' -> Q) as Hrem.
  { unfold removed, Q. destruct Hcase as [Hc|Hc]; rewrite Hc; [intros ->; by split_and!; [apply safely_refl|..]|].
    case_decide; intros ->; [|by split_and!; [apply safely_refl|..]].
    split_and!; [by apply safely_drop|done|apply delete_subseteq|]. intros n' Hn'. cbn. by rewrite lookup_delete_ne. }
  unfold Q in *. destruct err as [e|]; [destruct Hw' as [->|Hw']; [by split_and!; [apply safely_refl|..]|]|]; by apply Hrem.
Qed.

Lemma cleanupSecret_safe os s w :
  sound w -> v_secrets w !! s_Name s = Some s -> ~ guarded (s_Name s) s ->
  vwp (cleanupSecret (Some os) (v_user w) s) w (fun t w' r =>
    safely w t w' /\ onlySecret (s_Name s) w w' /\ v_alive w' ⊆ v_alive w /\
    (r = None -> ((v_user w', secretACID s) ∉ v_alive w') /\
       forall s', v_secrets w' !! s_Name s = Some s' -> secretACID s' = secretACID s)).
Proof.
  intros Hw Hs Hg. unfold cleanupSecret. apply wwp_bind.
  apply (wwp_mono vaultStep _ w (fun t w1 r => safely w t w1 /\ v_secrets w1 = v_secrets w /\ v_alive w1 ⊆ v_alive w /\
    (r = None -> (v_user w1, secretACID s) ∉ v_alive w1))).
  2: { case_decide as Hid; [|by apply revokeOf_safe]. apply wwp_ret. split_and!; [by apply safely_refl|done|done|].
       intros _ Hu. rewrite Hid in Hu. by apply (so_nonempty _ _ _ _ Hw), (so_alive _ _ _ _ Hw (v_user w)). }
  intros t1 w1 r (H1 & E1 & Hal1 & Hgone). pose proof (proj1 H1) as Hw1.
  assert (onlySecret (s_Name s) w w1) as Ho1 by (intros n _; by rewrite E1).
  destruct r as [e|]; [apply wwp_ret; by rewrite app_nil_r|]. specialize (Hgone eq_refl). apply wwp_bind.
  eapply wwp_mono; [|apply (unprotectSecret_safe s w1); [done|by rewrite E1|done|done]]. cbv beta.
  intros t2 w2 [s' err] (H2 & Ho2 & Ha2 & Es & Hl2). cbn [fst snd] in *. subst s'.
  pose proof (safely_trans _ _ _ _ _ H1 H2) as H12.
  assert (onlySecret (s_Name s) w w2) as Ho12 by (intros n Hn; by rewrite Ho2, Ho1).
  destruct err as [e|]; [apply wwp_ret; rewrite app_nil_r, Ha2; by split_and!|]. apply wwp_bind.
  eapply wwp_mono; [|apply (deleteSecret_safe (unprotected s) w2)];
    [|by apply H2|by intros ?%unprotected_guarded| |by apply Hl2].
  2: { pose proof H2 as (_ & _ & Eu & _). rewrite Ha2, Eu. exact Hgone. }
  cbv beta. intros t3 w3 err (H3 & Ha3 & Hsub3 & Ho3). apply wwp_ret. rewrite app_nil_r. rewrite (assoc (++)).
  pose proof H2 as (_ & _ & Eu2 & _). pose proof H3 as (_ & _ & Eu3 & _). split_and!.
  - by eapply safely_trans.
  - intros n Hn. rewrite Ho3, Ho12; done.
  - by rewrite Ha3, Ha2.
  - intros _. split; [by rewrite Ha3, Ha2, Eu3, Eu2|]. intros s' Hs'.
    assert (v_secrets w2 !! s_Name s = Some s') as Hs2 by by eapply lookup_weaken.
    destruct (Hl2 eq_refl) as [E|E]; rewrite E in Hs2; [done|]. by injection Hs2 as <-.
Qed.

(** The status of [i] has these references. *)
Abbreviation refers i := (credentialRefs i = (acid, cur, prev)).

Lemma inUse_guarded i s : refers i -> inUse i s = false -> ~ guarded (s_Name s) s.
Proof.
  unfold credentialRefs, inUse, Vault.guarded. intros [= <- <- <-]. rewrite !orb_false_iff, !bool_decide_eq_false.
  intros [[H1 H2] H3]. rewrite H3. naive_solver.
Qed.

(** What a cleanup that succeeds made of the secrets it was given. *)
Definition cleaned i (items : list Secret) w w' : Prop :=
  (forall s, s ∈ items -> inUse i s = true \/ (v_user w', secretACID s) ∉ v_alive w') /\
  forall n s', v_secrets w' !! n = Some s' -> v_secrets w !! n = Some s' \/
    exists s, s ∈ items /\ inUse i s = false /\ s_Name s = n /\ secretACID s' = secretACID s.

Lemma cleanupSecrets_safe os i items w :
  refers i -> sound w -> NoDup (s_Name <$> items) -> (forall s, s ∈ items -> v_secrets w !! s_Name s = Some s) ->
  vwp (cleanupSecrets (Some os) (v_user w) i items) w (fun t w' r =>
    safely w t w' /\ v_alive w' ⊆ v_alive w /\ (r = None -> cleaned i items w w')).
Proof.
  intros Hi. revert w. induction items as [|s items IH]; intros w Hw Hnd Hin; cbn [cleanupSecrets].
  { apply wwp_ret. split_and!; [by apply safely_refl|done|]. intros _. split; [by intros s ?%elem_of_nil|by left]. }
  apply NoDup_cons in Hnd as [Hs Hnd]. destruct (inUse i s) eqn:Huse.
  { eapply wwp_mono; [|apply IH; [done|done|]; intros s' ?; apply Hin; by right]. cbv beta.
    intros t w' r (H1 & H2 & H3). split_and!; [done..|]. intros Hr. destruct (H3 Hr) as [Ha Hb]. split.
    - intros s' [->|?]%elem_of_cons; [by left|by apply Ha].
    - intros n s' Hn. destruct (Hb n s' Hn) as [?|(s0 & ? & ?)]; [by left|right]. exists s0. split; [by right|done]. }
  apply wwp_bind. eapply wwp_mono; [|apply cleanupSecret_safe; [done|apply Hin; left|by eapply inUse_guarded]]. cbv beta.
  intros t1 w1 r (H1 & Ho1 & Hal1 & Hd1). destruct r as [e|]; [apply wwp_ret; by rewrite app_nil_r|].
  destruct (Hd1 eq_refl) as [Hdead Hacid]. pose proof H1 as (Hw1 & _ & Eu & _). rewrite <- Eu.
  eapply wwp_mono; [|apply IH; [done|done|]].
  - cbv beta. intros t2 w2 r (H2 & Hal2 & H3). split_and!; [by eapply safely_trans|by etransitivity|].
    intros Hr. destruct (H3 Hr) as [Ha Hb]. pose proof H2 as (_ & _ & Eu2 & _). split.
    + intros s' [->|?]%elem_of_cons; [|by apply Ha]. right. rewrite Eu2. intros Hin2. by apply Hdead, Hal2.
    + intros n s' Hn. destruct (Hb n s' Hn) as [Hn1|(s0 & ? & ?)]; [|right; exists s0; split; [by right|done]].
      destruct (decide (n = s_Name s)) as [->|Hne]; [|left; by rewrite <- Ho1].
      right. exists s. split; [left|]. split_and!; [done|done|by apply Hacid].
  - intros s' Hs'. rewrite Ho1; [apply Hin; by right|]. intros E. apply Hs. rewrite <- E. by apply list_elem_of_fmap_2.
Qed.

(** Programs that read only, at the head of a sequence. *)
Lemma quiet_bind {A B} (p : program A) (f : A -> program B) w (Q : trace -> vault -> B -> Prop) :
  avoids changes p -> (forall t a, settled t -> vwp (f a) w (fun t2 w' b => Q (t ++ t2) w' b)) -> vwp (p ≫= f) w Q.
Proof.
  intros Hp Hf. apply wwp_bind. eapply wwp_mono; [|by apply wwp_quiet]. cbv beta. intros t w' a [-> Ht]. by apply Hf.
Qed.
Lemma safely_after t1 w t2 w' : safely w t2 w' -> safely w (t1 ++ t2) w'.
Proof.
  intros (H1 & H2 & H3 & H4). split; [done|]. split; [done|]. split; [done|]. intros Ho. destruct (H4 Ho) as [? Hn].
  split; [done|]. by intros [_ ?]%settled_app; apply Hn.
Qed.

Lemma getUserIDFromToken_vault os name w :
  vwp (getUserIDFromToken os name) w (fun t w' r => w' = w /\ settled t /\ forall u, r = inr u -> u = v_user w).
Proof.
  unfold getUserIDFromToken. apply wwp_bind, wwp_call. intros r w' [-> Hr]. apply wwp_ret. split; [done|]. split.
  { cbn [app]. intros ev ->%list_elem_of_singleton. by intros []. }
  intros u. destruct r as [e|u']; [done|]. case_decide; [done|]. intros [= <-]. by apply Hr.
Qed.

Lemma GetUserServiceClient_quiet k u sec p : avoids changes (GetUserServiceClient k u sec p).
Proof. unfold GetUserServiceClient, getPasswordFromOSPSecret, GetScopedClient, scopedClientTLS. emits_go. Qed.

Lemma cleanupUnusedRotatedSecrets_safe os i w :
  refers i -> sound w ->
  vwp (cleanupUnusedRotatedSecrets i (Some os) (v_user w)) w (fun t w' r =>
    safely w t w' /\ (r = None -> edpmInSync i t -> forall n s, v_secrets w' !! n = Some s ->
      acLabels (GetServiceNameFromACCR (Name (ac_meta i))) ⊆ Labels (s_meta s) ->
      inUse i s = true \/ (v_user w', secretACID s) ∉ v_alive w')).
Proof.
  intros Hi Hw. unfold cleanupUnusedRotatedSecrets. apply wwp_bind.
  apply (wwp_mono vaultStep _ w (fun t w' b => w' = w /\ (b = false -> ~ edpmInSync i t))).
  2: { unfold edpmInSync. destruct (IsEDPMService i); [|by apply wwp_ret].
       apply wwp_bind, wwp_call. intros r w' ->. apply wwp_ret. split; [done|]. intros Hb Hs.
       destruct (Hs eq_refl) as [info Hin].
       apply list_elem_of_singleton, Ev_inj in Hin as <-. done. }
  intros t1 w1 inSync [-> Hsync]. destruct inSync; cbn [negb].
  2: { apply wwp_ret. rewrite app_nil_r. split; [by apply safely_refl|]. intros _ Hs. by destruct (Hsync eq_refl). }
  apply wwp_bind, wwp_call. intros r w' [-> Hr]. destruct r as [e|items]; [by apply wwp_ret; split; [apply safely_refl|]|].
  destruct (Hr items eq_refl) as [Hnd Hl]. eapply wwp_mono; [|apply cleanupSecrets_safe; [done|done|done|]].
  - cbv beta. intros t w' r (Hc & _ & Hclean). split; [by do 2 apply safely_after|]. intros Hn _.
    destruct (Hclean Hn) as [Ha Hb]. intros n s Hs Hlab. destruct (Hb n s Hs) as [Hold|(s0 & Hin & Hnot & Hname & Eid)].
    + apply Ha. apply Hl. by exists n.
    + right. rewrite Eid. destruct (Ha s0 Hin); [congruence|done].
  - intros s (n & Hn & _)%Hl. by rewrite (so_names _ _ _ _ Hw n s Hn).
Qed.

Lemma tryCleanup_safe i k w : refers i -> sound w -> vwp (tryCleanup i k) w (fun t w' _ => safely w t w').
Proof.
  intros Hi Hw. unfold tryCleanup. apply quiet_bind; [apply GetUserServiceClient_quiet|].
  intros t1 [[[os|] res] [e|]] _; try by apply wwp_ret, safely_refl. case_decide; [by apply wwp_ret, safely_refl|].
  apply wwp_bind. eapply wwp_mono; [|apply getUserIDFromToken_vault]. cbv beta. intros t2 w' r (-> & _ & Hr).
  destruct r as [e|u]; [by apply wwp_ret, safely_refl|]. rewrite (Hr u eq_refl). apply wwp_bind.
  eapply wwp_mono; [|by apply cleanupUnusedRotatedSecrets_safe]. cbv beta. intros t3 w3 r3 [H3 _]. apply wwp_ret.
  rewrite app_nil_r. by do 2 apply safely_after.
Qed.
End safely.

(** ** Creation *)

Section creation.
Context `{CL : ConditionLib} `{FLaws : FinalizerLaws} `{XL : ExternalLib}.
Implicit Types (w : vault) (i : KeystoneApplicationCredential).
Abbreviation vwp p w Q := (wwp vaultStep p w Q).

(** The state is sound for the status of [i]. *)
Definition soundFor i w : Prop :=
  sound (acs_ACID (ac_status i)) (acs_SecretName (ac_status i)) (acs_PreviousSecretName (ac_status i)) w.
Definition safelyFor i : vault -> trace -> vault -> Prop :=
  safely (acs_ACID (ac_status i)) (acs_SecretName (ac_status i)) (acs_PreviousSecretName (ac_status i)).
(** What a reconcile of [i] that ends with [i'] did: the state is sound whether
    the new status is stored or lost. *)
Definition reconciled i w t w' i' : Prop :=
  safelyFor i w t w' /\ soundFor i' w' /\ ac_meta i' = ac_meta i.

Lemma soundFor_refs i i' w : credentialRefs i' = credentialRefs i -> soundFor i w -> soundFor i' w.
Proof. unfold credentialRefs, soundFor. by intros [= -> -> ->]. Qed.
Lemma reconciled_refs i w t w' i' :
  safelyFor i w t w' -> credentialRefs i' = credentialRefs i -> ac_meta i' = ac_meta i -> reconciled i w t w' i'.
Proof. intros Hs Hr Hm. split; [done|]. split; [|done]. eapply soundFor_refs; [done|]. apply Hs. Qed.

(** A program that only reads, with what is known of its value. *)
Lemma quiet_spec {A} (p : program A) (Q : trace -> A -> Prop) w :
  avoids changes p -> wp p Q -> vwp p w (fun t w' a => w' = w /\ settled t /\ Q t a).
Proof.
  intros Hp HQ. apply wp_runs. intros t a Hr w' Hw. pose proof (wwp_runs _ _ _ _ _ _ _ (wwp_quiet p w Hp) Hr Hw) as [-> ?].
  split_and!; [done..|]. eapply runs_spec; [exact HQ|exact Hr].
Qed.

Lemma createACWithName_vault os u i n w :
  vwp (createACWithName os u i n) w (fun t w' r =>
    match r with
    | inr c => exists o e, issued o u (cac_ID c) e w w'
    | inl _ => ~ settled t /\ (w' = w \/ exists o id e, issued o u id e w w')
    end).
Proof.
  unfold createACWithName. apply wwp_bind. eapply wwp_mono; [|apply wwp_quiet; emits_go]. cbv beta.
  intros t1 w1 ex [-> _]. apply wwp_bind, wwp_call. intros r w' Hw'. apply wwp_ret. destruct r as [e|c].
  2: { destruct Hw' as (e & _ & ?). by eexists _, e. }
  split; [|destruct Hw' as [?|(id & e' & ?)]; [by left|right; by eexists _, id, e']]. intros [_ Hs]%settled_app.
  apply (Hs _ (list_elem_of_here _ _)). by exists e.
Qed.

(** The secret of a credential that was just issued is there or not; when its
    creation succeeded, it is. *)
Lemma createImmutableACSecret_vault i id x w :
  id <> "" -> (forall n s, v_secrets w !! n = Some s -> secretACID s <> id) ->
  vwp (createImmutableACSecret i id x) w (fun t w' r =>
    settled t /\ (w' = w \/ stored (newACSecret i id x) w w') /\
    forall name, r = inr name -> name = s_Name (newACSecret i id x) /\ stored (newACSecret i id x) w w').
Proof.
  intros Hid Hno. unfold createImmutableACSecret. set (secret := newACSecret i id x).
  assert (secretACID secret = id) as Hsid by (unfold secretACID, secret; cbn; by rewrite lookup_insert_eq).
  apply quiet_bind; [emits_go|]. intros t1 [e|] Ht1.
  { apply wwp_ret. rewrite app_nil_r. split_and!; [done|by left|done]. }
  apply wwp_bind, wwp_call. intros err w1 Hw1.
  assert (settled [Ev (CreateSecret secret) err]) as Hc by (intros ev ->%list_elem_of_singleton; by intros []).
  destruct err as [e|].
  2: { apply wwp_ret. rewrite app_nil_r. split_and!; [by apply settled_app|by right|]. by intros ? [= <-]. }
  destruct Hw1 as [Hw1 Hex]. destruct (IsAlreadyExists e).
  - apply wwp_bind, wwp_call. intros r w2 [-> Hr].
    assert (settled [Ev (LibGetSecret (Namespace (ac_meta i)) (s_Name secret)) r]) as Hl
      by (intros ev ->%list_elem_of_singleton; by intros []).
    apply wwp_ret. rewrite app_nil_r, !settled_app. split_and!; [done..|].
    destruct r as [e'|[existing h]]; [done|]. case_decide as Hne; [done|]. intros ? [= <-]. split; [done|].
    destruct Hw1 as [->|?]; [|done]. destruct (Hno (s_Name secret) existing); [by eapply Hr|].
    exact Hne.
  - apply wwp_ret. rewrite app_nil_r. split_and!; [by apply settled_app|done|done].
Qed.

Lemma newACSecret_free i id x : hasConsumerFinalizer (newACSecret i id x) = false.
Proof. reflexivity. Qed.
Lemma newACSecret_name i id x : s_Name (newACSecret i id x) <> "".
Proof. discriminate. Qed.
Lemma newACSecret_ID i id x : secretACID (newACSecret i id x) = id.
Proof. unfold secretACID. cbn. by rewrite lookup_insert_eq. Qed.

Lemma finishRotation_meta i c n : wp (finishRotation i c n) (fun _ r => ac_meta r.1 = ac_meta i).
Proof.
  unfold finishRotation. wp_norm. intros at_. wp_norm. destruct (ComputeSecurityHash _); wp_norm; [done|].
  case_match; wp_norm; [by intros now []|done].
Qed.
Lemma finishRotation_vault i c w :
  vwp (finishRotation i c (s_Name (newACSecret i (cac_ID c) (cac_Secret c)))) w (fun t w' r =>
    w' = w /\ settled t /\ credentialRefs r.1 = rotatedRefs i c /\ ac_meta r.1 = ac_meta i).
Proof.
  eapply wwp_mono; [|apply quiet_spec; [|apply wp_conj; [apply finishRotation_spec|apply finishRotation_meta]]].
  - cbv beta. intros t w' r (? & ? & [_ ?] & ?). done.
  - unfold finishRotation. emits_go.
Qed.

(** The three states a creation can end in, as seen from the state before. *)
Lemma created_safe i o u id e w t w' :
  soundFor i w -> u = v_user w -> issued o u id e w w' -> ~ settled t -> safelyFor i w t w'.
Proof.
  intros Hw -> (Hid & Hnew & _ & ->) Ht. split; [by apply issue_sound|]. split_and!; [done..|]. intros Ho. split; [|done].
  intros n s u Hn Ha. cbn in Hn, Ha. apply elem_of_union in Ha as [Ha%elem_of_singleton|Ha]; [|by eapply Ho].
  injection Ha as -> E. destruct Hnew. rewrite <- E. eapply (so_issued _ _ _ _ Hw); [done|]. by rewrite E.
Qed.

Lemma stored_safe i o id e x w w1 w2 t :
  soundFor i w -> issued o (v_user w) id e w w1 -> stored (newACSecret i id x) w1 w2 -> safelyFor i w t w2.
Proof.
  intros Hw (Hid & Hnew & _ & ->) (Hnone & ->). set (s := newACSecret i id x) in *. pose proof (newACSecret_ID i id x) as Hs.
  assert (forall n s', v_secrets w !! n = Some s' -> secretACID s' <> id) as Hno.
  { intros n s' Hn E. apply Hnew. rewrite <- E. eapply (so_issued _ _ _ _ Hw); [done|]. by rewrite E. }
  split.
  { apply (newSecret_sound _ _ _ s (v_user w)); [by apply issue_sound|done| | |]; fold s in Hs; rewrite Hs; cbn;
      [|set_solver..].
    intros (n & s' & Hn & E). by eapply Hno. }
  split_and!; [done..|]. intros Ho. split.
  - intros n s' u. cbn. rewrite lookup_insert_Some, elem_of_union, elem_of_singleton.
    intros [[<- <-]|[_ Hn]] [Ha|Ha]; [congruence| | |by eapply Ho].
    + fold s in Hs. rewrite Hs in Ha. by apply (so_alive _ _ _ _ Hw) in Ha.
    + injection Ha as _ E. by destruct (Hno _ _ Hn).
  - intros _ u' id' [Ha Hh]. cbn in Ha. apply elem_of_union in Ha as [Ha%elem_of_singleton|Ha].
    + injection Ha as -> ->. destruct Hh. exists (s_Name s), s. cbn. by rewrite lookup_insert_eq.
    + split; [done|]. intros (n & s' & Hn & E). apply Hh. exists n, s'. split; [|done]. cbn.
      rewrite lookup_insert_ne; [done|]. intros <-. cbn in Hnone. congruence.
Qed.

(** The credential was revoked again: only its secret may be left. *)
Lemma revokedAgain_safe i o id e x w w1 w2 w3 t :
  soundFor i w -> issued o (v_user w) id e w w1 -> w2 = w1 \/ stored (newACSecret i id x) w1 w2 ->
  w3 = w2 \/ w3 = revoke (v_user w) id w2 -> (settled t -> (v_user w, id) ∉ v_alive w3) -> safelyFor i w t w3.
Proof.
  intros Hw Hi H2 H3 Hgone.
  assert (soundFor i w2 /\ v_CR w2 = v_CR w /\ v_user w2 = v_user w /\ (owned w -> owned w2) /\
    (forall n s, v_secrets w !! n = Some s -> v_secrets w2 !! n = Some s) /\
    (forall u' id', (u', id') ∈ v_alive w2 -> (u', id') = (v_user w, id) \/ (u', id') ∈ v_alive w) /\
    forall n s, v_secrets w2 !! n = Some s -> secretACID s = id -> hasConsumerFinalizer s = false /\ v_secrets w !! n = None)
    as (Hw2 & E1 & E2 & Ho2 & Hsub & Hal & Hfree).
  { pose proof Hi as (Hid & Hnew & _ & E). destruct H2 as [->|Hst].
    - destruct (created_safe i o (v_user w) id e w [Ev (ACCreate 0%nat "" (mkACCreateOpts "" "" false [] [] None)) (inl notFound)] w1)
        as (? & ? & ? & Ho); [done|done|done| |].
      { intros Hs. apply (Hs _ (list_elem_of_here _ _)). by eexists. }
      split_and!; [done|done|done|by intros ?; apply Ho|by subst w1|subst w1; cbn; set_solver|].
      intros n s Hn Es. subst w1. destruct Hnew. rewrite <- Es. eapply (so_issued _ _ _ _ Hw); [done|]. by rewrite Es.
    - destruct (stored_safe i o id e x w w1 w2 [] Hw Hi Hst) as (? & ? & ? & Ho). destruct Hst as [Hnone ->]. subst w1.
      cbn in *.
      split_and!; [done|done|done|by intros ?; apply Ho| |set_solver|].
      + intros n s Hn. rewrite lookup_insert_ne; [done|]. intros <-. cbn in *. congruence.
      + intros n s. rewrite lookup_insert_Some. intros [[<- <-]|[_ Hn]] Es; [done|].
        destruct Hnew. rewrite <- Es. eapply (so_issued _ _ _ _ Hw); [done|]. by rewrite Es. }
  assert (soundFor i w3 /\ v_CR w3 = v_CR w /\ v_user w3 = v_user w /\ (owned w -> owned w3) /\ v_secrets w3 = v_secrets w2 /\
    v_alive w3 ⊆ v_alive w2) as (Hw3 & E3 & E4 & Ho3 & Es & Hal3).
  { destruct H3 as [->| ->]; [done|]. split_and!; [|done|done| |done|cbn; set_solver].
    - apply revoke_sound; [done|]. intros n s Hn Hg E. destruct (Hfree n s Hn E) as [Hc Hnone].
      destruct Hg as [[Hne Hg]|Hg]; [|congruence].
      assert (is_Some (v_secrets w !! n)) as [s0 Hs0]; [|congruence].
      destruct Hg as [->| ->]; [|by apply (so_previous _ _ _ _ Hw)].
      destruct (so_current _ _ _ _ Hw Hne) as [_ (s0 & Hs0 & _)]. by exists s0.
    - intros Ho n s u Hn Ha. cbn in *. rewrite (Ho2 Ho n s u Hn); [done|set_solver]. }
  split; [done|]. split_and!; [done..|]. intros Ho. split; [by apply Ho3|]. intros Ht u' id' [Ha Hh].
  destruct (Hal u' id') as [[= -> ->]|Ha']; [by apply Hal3|by destruct (Hgone Ht)|]. split; [done|].
  intros (n & s & Hn & E). apply Hh. exists n, s. rewrite Es. split; [by apply Hsub|done].
Qed.

Lemma createCredential_safe os i w :
  soundFor i w -> vwp (createCredential i os) w (fun t w' r => reconciled i w t w' r.1).
Proof.
  intros Hw. unfold createCredential. apply wwp_bind. eapply wwp_mono; [|apply getUserIDFromToken_vault]. cbv beta.
  intros t1 w1 r (-> & _ & Hr). destruct r as [e|u]; [apply wwp_ret, reconciled_refs; [by apply safely_refl|done|done]|].
  rewrite (Hr u eq_refl). apply quiet_bind; [emits_go|]. intros t2 suffix _.
  apply wwp_bind. eapply wwp_mono; [|apply createACWithName_vault]. cbv beta. intros t3 w1 r H1. destruct r as [e|c].
  { apply wwp_ret, reconciled_refs; [|done|done]. destruct H1 as [Ht [->|(o & id & e' & H1)]]; [by apply safely_refl|].
    eapply created_safe; [done|done|done|]. by rewrite !settled_app; intros (_ & _ & ? & _). }
  assert (forall n s, v_secrets w1 !! n = Some s -> secretACID s <> cac_ID c) as Hno.
  { destruct H1 as (o & e & Hid & Hnew & _ & ->). intros n s Hn E. apply Hnew. rewrite <- E.
    eapply (so_issued _ _ _ _ Hw); [done|]. by rewrite E. }
  destruct H1 as (o & ex & H1).
  apply wwp_bind. eapply wwp_mono; [|apply createImmutableACSecret_vault; [by destruct H1|done]]. cbv beta.
  intros t4 w2 r (Ht4 & H2 & Hin). destruct r as [e|name].
  - apply wwp_bind. eapply wwp_mono; [|apply revokeKeystoneAC_vault]. cbv beta. intros t5 w3 r (H3 & Hgone & Hset).
    apply wwp_ret, reconciled_refs; [|done|done]. eapply revokedAgain_safe; [done|done|done|done|].
    rewrite !settled_app. intros (_ & _ & _ & _ & ? & _). by apply Hgone, Hset.
  - destruct (Hin name eq_refl) as [-> Hst]. eapply wwp_mono; [|apply finishRotation_vault]. cbv beta.
    intros t5 w3 [i' r] (-> & _ & Href & Hm). cbn [fst] in *.
    pose proof (stored_safe i o (cac_ID c) ex (cac_Secret c) w w1 w2) as Hsafe.
    split; [|split; [|done]]; [by apply Hsafe|]. unfold soundFor, credentialRefs, rotatedRefs in *. injection Href as -> -> ->.
    destruct (Hsafe [] Hw H1 Hst) as (Hw2 & _). destruct Hst as [Hnone ->].
    eapply (rotated_sound _ _ _ (newACSecret i (cac_ID c) (cac_Secret c)));
      [exact Hw2| |done|apply newACSecret_ID|by destruct H1|].
    + cbn. by rewrite lookup_insert_eq.
    + destruct H1 as (_ & _ & _ & ->). exists (v_user w). cbn. set_solver.
Qed.
End creation.

(** ** The whole reconcile *)

Section reconcile.
Context `{CL : ConditionLib} `{FLaws : FinalizerLaws} `{XL : ExternalLib}.
Implicit Types (w : vault) (i : KeystoneApplicationCredential).
Abbreviation vwp p w Q := (wwp vaultStep p w Q).

Lemma reconciled_after i w t1 t2 w' i' : reconciled i w t2 w' i' -> reconciled i w (t1 ++ t2) w' i'.
Proof. intros (H1 & H2 & H3). split; [|done]. by apply safely_after. Qed.
Lemma reconciled_from i i0 w t w' i' :
  credentialRefs i0 = credentialRefs i -> ac_meta i0 = ac_meta i -> reconciled i0 w t w' i' -> reconciled i w t w' i'.
Proof. unfold reconciled, safelyFor, credentialRefs. intros [= -> -> ->] -> (H1 & H2 & H3). done. Qed.
(** A reconcile that did nothing to the credential. *)
Lemma reconciled_none i i' w : soundFor i w -> credentialRefs i' = credentialRefs i -> ac_meta i' = ac_meta i ->
    reconciled i w [] w i'.
Proof. intros Hw. apply reconciled_refs. by apply safely_refl. Qed.

Lemma rotate_safe i k w : soundFor i w -> vwp (rotate i k) w (fun t w' r => reconciled i w t w' r.1).
Proof.
  intros Hw. unfold rotate. apply quiet_bind; [apply GetUserServiceClient_quiet|].
  intros t1 [[os res] err] _. destruct err as [e|]; [by apply wwp_ret, reconciled_after, reconciled_none|].
  case_decide; [by apply wwp_ret, reconciled_after, reconciled_none|].
  destruct os as [os|]; [|by apply wwp_ret, reconciled_after, reconciled_none].
  eapply wwp_mono; [|by apply createCredential_safe]. cbv beta. intros t w' r Hr. by apply reconciled_after.
Qed.

Lemma refreshEligible_refs i : credentialRefs (refreshEligible i) = credentialRefs i /\ ac_meta (refreshEligible i) = ac_meta i.
Proof. unfold refreshEligible. by case_match. Qed.

Lemma keepCredential_safe i k w : soundFor i w -> vwp (keepCredential i k) w (fun t w' r => reconciled i w t w' r.1).
Proof.
  intros Hw. unfold keepCredential. apply wwp_bind. eapply wwp_mono; [|by apply ensureServiceLabels_safe]. cbv beta.
  intros t1 w1 _ H1. destruct (refreshEligible_refs i) as [Er Em]. apply wwp_bind.
  eapply wwp_mono; [|apply (tryCleanup_safe (acs_ACID (ac_status i)) (acs_SecretName (ac_status i))
    (acs_PreviousSecretName (ac_status i))); [exact Er|apply H1]]. cbv beta.
  intros t2 w2 _ H2. apply wwp_ret. rewrite app_nil_r. apply reconciled_refs; [by eapply safely_trans|exact Er|exact Em].
Qed.

Lemma needsRotation_quiet i : avoids changes (needsRotation i).
Proof. unfold needsRotation. emits_go. Qed.

Lemma ac_reconcileNormal_safe i k w : soundFor i w -> vwp (reconcileNormal i k) w (fun t w' r => reconciled i w t w' r.1).
Proof.
  intros Hw. unfold reconcileNormal. apply quiet_bind; [apply needsRotation_quiet|]. intros t1 d _.
  destruct d as [e|[doRotate msg]]; [by apply wwp_ret, reconciled_after, reconciled_none|].
  apply quiet_bind; [emits_go|]. intros t2 d _.
  destruct d as [e|[]]; [by apply wwp_ret, reconciled_after, reconciled_after, reconciled_none| |].
  - eapply wwp_mono; [|by apply rotate_safe]. cbv beta. intros t w' r Hr. by do 2 apply reconciled_after.
  - eapply wwp_mono; [|by apply keepCredential_safe]. cbv beta. intros t w' r Hr. by do 2 apply reconciled_after.
Qed.

Lemma GetKeystoneAPI_quiet ns labels : avoids changes (GetKeystoneAPI ns labels).
Proof. unfold GetKeystoneAPI. emits_go. Qed.

Lemma reconcileInstance_safe i w :
  soundFor i w -> notDeleting (ac_meta i) = true -> vwp (reconcileInstance i) w (fun t w' r => reconciled i w t w' r.1).
Proof.
  intros Hw Hd. unfold reconcileInstance, deleting. rewrite Hd. cbn [negb]. apply quiet_bind; [apply GetKeystoneAPI_quiet|].
  intros t1 k _. destruct k as [e|k].
  { case_match; by apply wwp_ret, reconciled_after, reconciled_none. }
  case_match; [by apply wwp_ret, reconciled_after, reconciled_none|].
  eapply wwp_mono; [|apply ac_reconcileNormal_safe]; [|by eapply soundFor_refs; [|exact Hw]]. cbv beta. intros t w' r Hr.
  apply reconciled_after. by eapply reconciled_from; [..|exact Hr].
Qed.

(** The finalizer is the only thing of the metadata a reconcile changes. *)
Lemma ac_reconcileBody_safe i w :
  soundFor i w -> notDeleting (ac_meta i) = true ->
  vwp (reconcileBody i) w (fun t w' r =>
    safelyFor i w t w' /\ soundFor r.1 w' /\ notDeleting (ac_meta r.1) = true).
Proof.
  intros Hw Hd. unfold reconcileBody. cbv zeta.
  match goal with |- context [if notDeleting ?m then _ else _] => replace (notDeleting m) with true by (symmetry; exact Hd) end.
  destruct (AddFinalizer _ _) as [fs added].
  match goal with |- context [reconcileInstance ?j] => set (i1 := j) end.
  assert (credentialRefs i1 = credentialRefs i) as Er by done.
  assert (notDeleting (ac_meta i1) = true) as Hd1 by done.
  assert (soundFor i1 w) as Hw1 by by eapply soundFor_refs. case_match.
  { apply wwp_ret. split_and!; [by apply safely_refl|done|done]. }
  eapply wwp_mono; [|by apply reconcileInstance_safe]. cbv beta. intros t w' r (H1 & H2 & Em). split_and!; [|done|].
  - exact H1.
  - by rewrite Em.
Qed.

Lemma finalConditions_refs saved i :
  credentialRefs (finalConditions saved i) = credentialRefs i /\ ac_meta (finalConditions saved i) = ac_meta i.
Proof. unfold finalConditions. by case_match. Qed.

(** *** The expiry in the status *)

(** What the status says of the expiry of its credential. *)
Definition expiryRefs i : string * option Z := (acs_ACID (ac_status i), acs_ExpiresAt (ac_status i)).
(** It is true. *)
Definition dated i w : Prop :=
  acs_ACID (ac_status i) <> "" ->
  acs_ExpiresAt (ac_status i) = Some (default zeroTime (v_expires w !! acs_ACID (ac_status i))).
(** It is left alone, or as Keystone told of a credential that was created. *)
Definition datedBy i (t : trace) i' : Prop :=
  expiryRefs i' = expiryRefs i \/
  exists os u o c, Ev (ACCreate os u o) (inr c) ∈ t /\ expiryRefs i' = (cac_ID c, Some (cac_ExpiresAt c)).
Lemma datedBy_after i i0 t1 t2 i' : expiryRefs i0 = expiryRefs i -> datedBy i0 t2 i' -> datedBy i (t1 ++ t2) i'.
Proof.
  intros E [E'|(os & u & o & c & Hin & E')]; [left; congruence|right]. exists os, u, o, c. split; [|done].
  apply elem_of_app. by right.
Qed.
Lemma datedBy_app i t1 t2 i' : datedBy i t2 i' -> datedBy i (t1 ++ t2) i'.
Proof. by apply datedBy_after. Qed.

Lemma issued_ACID i w : soundFor i w -> acs_ACID (ac_status i) <> "" -> acs_ACID (ac_status i) ∈ v_issued w.
Proof.
  intros Hw Hid. destruct (so_current _ _ _ _ Hw (so_status _ _ _ _ Hw Hid)) as [_ (s & Hs & E)].
  rewrite <- E. eapply (so_issued _ _ _ _ Hw); [exact Hs|by rewrite E].
Qed.
Lemma dated_stable i w w' : soundFor i w -> dates w w' -> dated i w -> dated i w'.
Proof. intros Hw [_ E] Hd Hid. rewrite E; [by apply Hd|by apply issued_ACID]. Qed.
Lemma dated_refs i i' w : expiryRefs i' = expiryRefs i -> dated i w -> dated i' w.
Proof. unfold dated. by intros [= -> ->]. Qed.
Lemma datedBy_vault i w {B} (p : program (KeystoneApplicationCredential * B)) :
  soundFor i w -> dated i w -> wp p (fun t r => datedBy i t r.1) ->
  vwp p w (fun _ w' r => dated i w' /\ dated r.1 w').
Proof.
  intros Hw Hd. apply wp_mono. intros t r Hby w' Hrun.
  assert (dated i w') as Hi by (by eapply dated_stable; [|by eapply vaultRun_dates|]). split; [done|].
  destruct Hby as [E|(os & u & o & c & Hin & E)]; [by eapply dated_refs|]. injection E as E1 E2. intros _.
  by rewrite E1, E2, (vaultRun_created _ _ _ _ _ _ _ Hrun Hin).
Qed.

Lemma finishRotation_expiry i c n :
  wp (finishRotation i c n) (fun _ r => expiryRefs r.1 = (cac_ID c, Some (cac_ExpiresAt c))).
Proof.
  unfold finishRotation. wp_norm. intros at_. wp_norm. destruct (ComputeSecurityHash _); wp_norm; [done|].
  case_match; wp_norm; [by intros now []|done].
Qed.
Lemma createACWithName_event os u i n :
  wp (createACWithName os u i n) (fun t r => forall c, r = inr c -> exists o, Ev (ACCreate os u o) (inr c) ∈ t).
Proof.
  unfold createACWithName. wp_skip. intros [e|c]; wp_norm; [done|]. intros ? [= <-]. eexists. apply elem_of_app. right. left.
Qed.
Lemma createCredential_dated i os : wp (createCredential i os) (fun t r => datedBy i t r.1).
Proof.
  unfold createCredential. wp_skip. case_match; wp_norm; [by left|]. intros suffix. wp_norm.
  wp_use createACWithName_event. intros t1 [e|c] Hc; wp_norm; [by left|]. destruct (Hc c eq_refl) as [o Hin].
  wp_skip. case_match; wp_norm; [wp_skip; by left|].
  eapply wp_mono; [|apply finishRotation_expiry]. cbv beta. intros t2 r E. right. eexists os, _, o, c. split; [|exact E].
  apply elem_of_app. right. right. apply elem_of_app. by left.
Qed.
Lemma rotate_dated i k : wp (rotate i k) (fun t r => datedBy i t r.1).
Proof.
  unfold rotate. wp_skip. repeat case_match; wp_norm; try by left. eapply wp_mono; [|apply createCredential_dated]. intros.
  by eapply datedBy_after.
Qed.
Lemma keepCredential_dated i k : wp (keepCredential i k) (fun t r => datedBy i t r.1).
Proof. unfold keepCredential. wp_skip. wp_skip. left. unfold refreshEligible. by case_match. Qed.
Lemma ac_reconcileNormal_dated i k : wp (reconcileNormal i k) (fun t r => datedBy i t r.1).
Proof.
  unfold reconcileNormal. wp_skip. case_match; wp_norm; [by left|]. destruct p as [doRotate msg]. wp_skip.
  match goal with d : _ + bool |- _ => destruct d as [e|[]] end; wp_norm; [by left|..].
  - eapply wp_mono; [|apply rotate_dated]. intros. by do 2 apply datedBy_app.
  - eapply wp_mono; [|apply keepCredential_dated]. intros. by do 2 apply datedBy_app.
Qed.
Lemma ac_reconcileBody_dated i : notDeleting (ac_meta i) = true -> wp (reconcileBody i) (fun t r => datedBy i t r.1).
Proof.
  intros Hd. unfold reconcileBody. cbv zeta.
  match goal with |- context [if notDeleting ?m then _ else _] => replace (notDeleting m) with true by (symmetry; exact Hd) end.
  destruct (AddFinalizer _ _) as [fs added].
  match goal with |- context [reconcileInstance ?j] => set (i1 := j) end.
  assert (expiryRefs i1 = expiryRefs i) as Er by done.
  assert (deleting i1 = false) as Hd1 by (by apply negb_false_iff). clearbody i1.
  case_match; wp_norm; [by left|]. unfold reconcileInstance. rewrite Hd1. wp_skip. case_match.
  - case_match; wp_norm; by left.
  - case_match; wp_norm; [by left|]. eapply wp_mono; [|apply ac_reconcileNormal_dated]. intros. by eapply datedBy_after.
Qed.

(** The state is sound for the stored resource, which is not being deleted. *)
Definition wfVault w : Prop := soundFor (v_CR w) w /\ notDeleting (ac_meta (v_CR w)) = true.

Lemma wfVault_patched i w : soundFor i w -> notDeleting (ac_meta i) = true -> wfVault (setCR i w).
Proof. intros Hs Hd. split; [|done]. by apply setCR_sound. Qed.

Lemma ac_Reconcile_safe ns name w :
  wfVault w ->
  vwp (Reconcile ns name) w (fun t w' _ =>
    wfVault w' /\ v_user w' = v_user w /\ (owned w -> owned w' /\ (settled t -> noNewOrphan w w'))).
Proof.
  intros [Hw Hd]. unfold Reconcile. apply wwp_bind, wwp_call. intros r w1 [-> Hr]. destruct r as [e|i].
  { apply wwp_ret. by split_and!. }
  rewrite (Hr i eq_refl). set (cr := v_CR w) in *. apply quiet_bind; [emits_go|]. intros t1 [e|] _.
  { apply wwp_ret. by split_and!. }
  apply wwp_bind. eapply wwp_mono; [|by apply ac_reconcileBody_safe]. cbv beta.
  intros t2 w2 [i2 [result err]] (Hs & Hw2 & Hd2). cbn [fst] in *. destruct Hs as (Hwold & E1 & E2 & Hn).
  apply wwp_bind, wwp_call. intros perr w3 Hw3. apply wwp_ret.
  destruct (finalConditions_refs (Some (default [] (acs_Conditions (ac_status cr)))) i2) as [Er Em].
  match type of Hw3 with context [PatchApplicationCredential ?o] => set (i3 := o) in * end.
  assert (w3 = w2 \/ w3 = setCR i3 w2) as Hcase by (destruct perr; [exact Hw3|by right]). clear Hw3.
  assert (wfVault w3) as Hw3.
  { destruct Hcase as [->| ->].
    - split; [unfold soundFor; rewrite E1; exact Hwold|by rewrite E1].
    - apply wfVault_patched; [by eapply soundFor_refs; [exact Er|]|by rewrite Em]. }
  split; [done|]. split; [by destruct Hcase as [->| ->]|]. intros Ho. destruct (Hn Ho) as [Ho2 Hn2]. split.
  - by destruct Hcase as [->| ->].
  - rewrite !settled_app. intros (_ & _ & Ht2 & _) u id Horph.
    apply (Hn2 Ht2). by destruct Hcase as [->| ->].
Qed.
Lemma ac_Reconcile_dated ns name w :
  wfVault w -> dated (v_CR w) w -> vwp (Reconcile ns name) w (fun _ w' _ => dated (v_CR w') w').
Proof.
  intros [Hw Hd] Hdate. unfold Reconcile. apply wwp_bind, wwp_call. intros r w1 [-> Hr].
  destruct r as [e|i]; [by apply wwp_ret|].
  rewrite (Hr i eq_refl). set (cr := v_CR w) in *. apply quiet_bind; [emits_go|]. intros t1 [e|] _; [by apply wwp_ret|].
  apply wwp_bind. eapply wp_mono; [|exact (wp_conj _ _ _ (ac_reconcileBody_safe cr w Hw Hd)
    (datedBy_vault cr w _ Hw Hdate (ac_reconcileBody_dated cr Hd)))]. cbv beta.
  intros t2 [i2 [result err]] [Hs Hdates] w2 Hrun. destruct (Hs w2 Hrun) as ((_ & E1 & _) & _).
  destruct (Hdates w2 Hrun) as [Hold Hnew]. cbn [fst] in *.
  apply wwp_bind, wwp_call. intros perr w3 Hw3. apply wwp_ret.
  assert (dated (v_CR w2) w2) as H2 by (by rewrite E1).
  assert (expiryRefs (finalConditions (Some (default [] (acs_Conditions (ac_status cr)))) i2) = expiryRefs i2) as E2
    by (unfold finalConditions; by case_match).
  pose proof (dated_refs _ _ _ E2 Hnew) as H3.
  destruct perr as [e|]; [destruct Hw3 as [->|Hw3]; [done|]|]; rewrite Hw3; exact H3.
Qed.
End reconcile.

(** ** Histories *)

Section history.
Context `{CL : ConditionLib} `{FLaws : FinalizerLaws} `{XL : ExternalLib}.
Implicit Types (w : vault) (i : KeystoneApplicationCredential).

Definition editSpec (spec : KeystoneApplicationCredentialSpec) i : KeystoneApplicationCredential :=
  mkAC (ac_meta i) spec (ac_status i).
Definition userName w : string := ac_UserName (ac_spec (v_CR w)).

(** The spec is edited (another user name may be another user); a consumer takes
    the current or the previous secret, or releases a secret; the controller
    reconciles, and may die at any point. *)
Inductive move : vault -> vault -> Prop :=
| move_edit w spec u :
    (ac_UserName spec = userName w -> u = v_user w) -> move w (setUser u (setCR (editSpec spec (v_CR w)) w))
| move_consumer w s fs :
    let s' := setSecretMeta (setFinalizers fs (s_meta s)) s in
    s_Name s <> "" -> v_secrets w !! s_Name s = Some s ->
    (hasConsumerFinalizer s' = true -> inUse (v_CR w) s = true) -> move w (putSecret s' w)
| move_reconcile w ns name t w' : runs_prefix (Reconcile ns name) t -> vaultRun w t w' -> move w w'.
(** Moves that keep the user. *)
Definition userMove w w' : Prop := move w w' /\ userName w' = userName w.

(** A reconcile that ends, Keystone having confirmed its requests. *)
Definition settledReconcile w w' : Prop :=
  exists ns name t r, runs (Reconcile ns name) t r /\ vaultRun w t w' /\ settled t.

Lemma emits_any {A} (p : program A) : emits (fun _ _ => True) p.
Proof. by induction p as [a|X c k IH]; [|split]. Qed.

Lemma guarded_inUse w n s :
  wfVault w -> v_secrets w !! n = Some s -> inUse (v_CR w) s = true -> n <> "" ->
  guarded (acs_SecretName (ac_status (v_CR w))) (acs_PreviousSecretName (ac_status (v_CR w))) n s.
Proof.
  intros [Hw _] Hn. unfold inUse, guarded. rewrite (so_names _ _ _ _ Hw n s Hn), !orb_true_iff, !bool_decide_eq_true. tauto.
Qed.

Lemma move_inv w w' :
  move w w' -> wfVault w -> wfVault w' /\ (userName w' = userName w -> owned w -> owned w').
Proof.
  intros Hmove Hw. destruct Hmove as [w spec u Hu|w s fs s' Hne Hs Huse|w ns name t w' Hp Hrun].
  - pose proof Hw as [Hs Hd]. split.
    + split; [|exact Hd]. by apply setUser_sound, setCR_sound.
    + intros Hn Ho n s u' Hl Ha. cbn in *. rewrite (Hu Hn). by eapply Ho.
  - pose proof Hw as [Hsd Hd]. split.
    + split; [|done]. apply (putSecret_sound _ _ _ s' s); [done|done|done|]. intros [Hg|Hg]; [by left|].
      by apply (guarded_inUse w); [| |apply Huse|].
    + intros _ Ho n s0 u. cbn. rewrite lookup_insert_Some. intros [[<- <-]|[_ Hn]] Ha; [|by eapply Ho]. by eapply (Ho _ s).
  - destruct (crash_extends vaultStep (fun _ _ => True) (fun X c w _ => vault_fails X c w) _ _ _ _ (emits_any _) Hp Hrun)
      as (u & a & Hr & Hru).
    pose proof (wwp_runs _ _ _ _ _ _ _ (ac_Reconcile_safe ns name w Hw) Hr Hru) as (? & _ & H3).
    split; [done|]. intros _ Ho. by apply H3.
Qed.

Lemma moves_inv w w' : rtc move w w' -> wfVault w -> wfVault w'.
Proof. induction 1 as [w|w w1 w' Hm _ IH]; [done|]. intros Hw. apply IH. by apply (move_inv w w1). Qed.
Lemma userMoves_inv w w' : rtc userMove w w' -> wfVault w -> owned w -> wfVault w' /\ owned w'.
Proof.
  induction 1 as [w|w w1 w' [Hm Hn] _ IH]; [done|]. intros Hw Ho. destruct (move_inv _ _ Hm Hw) as [Hw1 Ho1].
  apply IH; [done|by apply Ho1].
Qed.

Lemma move_dated w w' : move w w' -> wfVault w -> dated (v_CR w) w -> dated (v_CR w') w'.
Proof.
  intros Hmove Hw Hd. destruct Hmove as [w spec u Hu|w s fs s' Hne Hs Huse|w ns name t w' Hp Hrun]; [exact Hd|exact Hd|].
  destruct (crash_extends vaultStep (fun _ _ => True) (fun X c w _ => vault_fails X c w) _ _ _ _ (emits_any _) Hp Hrun)
    as (u & a & Hr & Hru).
  exact (wwp_runs _ _ _ _ _ _ _ (ac_Reconcile_dated ns name w Hw Hd) Hr Hru).
Qed.
Lemma moves_dated w w' : rtc move w w' -> wfVault w -> dated (v_CR w) w -> dated (v_CR w') w'.
Proof.
  induction 1 as [w|w w1 w' Hm _ IH]; [done|]. intros Hw Hd. apply IH; [by apply (move_inv w w1)|by eapply move_dated].
Qed.

(** C13. A credential in use serves until it expires: whatever the history of
    edits, consumers that come and go, reconciles that succeed or fail, answers
    that are lost and crashes at any point, the credential the status names is
    the one its secret holds, and is valid in Keystone at every instant before
    its expiry, which is the one the status tells (or at every instant, when it
    has none); the previous secret is still there; its credential is valid in
    the same way, and so is that of every secret a consumer uses: none of them
    was revoked; and no two secrets hold the same credential. *)
Theorem credentials_safe w w' :
  wfVault w -> dated (v_CR w) w -> rtc move w w' ->
  let st := ac_status (v_CR w') in
  (acs_ACID st <> "" -> exists s u,
     v_secrets w' !! acs_SecretName st = Some s /\ secretACID s = acs_ACID st /\
     acs_ExpiresAt st = Some (default zeroTime (v_expires w' !! acs_ACID st)) /\
     forall now, unexpired w' now (acs_ACID st) -> valid w' now u (acs_ACID st)) /\
  (acs_PreviousSecretName st <> "" -> is_Some (v_secrets w' !! acs_PreviousSecretName st)) /\
  (forall n s, v_secrets w' !! n = Some s ->
     (n <> "" /\ n = acs_PreviousSecretName st) \/ hasConsumerFinalizer s = true ->
     exists u, (u, secretACID s) ∈ v_alive w' /\ forall now, unexpired w' now (secretACID s) ->
       valid w' now u (secretACID s)) /\
  forall n1 n2 s1 s2, v_secrets w' !! n1 = Some s1 -> v_secrets w' !! n2 = Some s2 ->
    secretACID s1 = secretACID s2 -> secretACID s1 <> "" -> n1 = n2.
Proof.
  intros Hw Hdate Hm. cbv zeta. pose proof (moves_dated _ _ Hm Hw Hdate) as Hd. pose proof (moves_inv _ _ Hm Hw) as [Hs _].
  split_and!.
  - intros Hid. pose proof (so_status _ _ _ _ Hs Hid) as Hc. destruct (so_current _ _ _ _ Hs Hc) as [_ (s & Hl & E)].
    destruct (so_valid _ _ _ _ Hs _ s Hl) as [u Hu]; [by left; tauto|]. exists s, u. rewrite E in Hu.
    split_and!; [done..|by apply Hd|].
    by split.
  - apply (so_previous _ _ _ _ Hs).
  - intros n s Hl Hn. destruct (so_valid _ _ _ _ Hs n s Hl) as [u Hu]; [unfold guarded; tauto|]. exists u.
    split; [done|by split].
  - intros n1 n2 s1 s2 H1 H2 E Hne. by eapply (so_unique _ _ _ _ Hs); [exact Hne|exact H1|exact H2|..].
Qed.

(** C14. Every credential is accounted for: after any history in which the
    user of the spec stays the same (crashes and lost answers included), a
    reconcile that ends with Keystone's confirmation of its requests, and any
    number of them, leaves no credential that Keystone knows (valid, or expired)
    without a secret that was not one before: what a rotation creates is stored or revoked again, and no
    secret is given up before its credential is revoked. *)
Theorem credentials_accounted w w1 w2 :
  wfVault w -> owned w -> rtc userMove w w1 -> rtc settledReconcile w1 w2 ->
  owned w2 /\ forall u id, (u, id) ∈ v_alive w2 ->
    held w2 id \/ ((u, id) ∈ v_alive w1 /\ ~ held w1 id).
Proof.
  intros Hw Ho Hm Hr. destruct (userMoves_inv _ _ Hm Hw Ho) as [Hw1 Ho1]. clear w Hw Ho Hm.
  assert (owned w2 /\ noNewOrphan w1 w2) as [Ho2 Hn].
  { induction Hr as [w|w w1 w' (ns & name & t & r & Hrun & Hv & Ht) _ IH]; [done|].
    pose proof (wwp_runs _ _ _ _ _ _ _ (ac_Reconcile_safe ns name w Hw1) Hrun Hv) as (Hw' & _ & H3).
    destruct (H3 Ho1) as [Ho' Hn']. destruct (IH Hw' Ho') as [? ?]. split; [done|]. etransitivity; [by apply Hn'|done]. }
  split; [done|]. intros u id Ha.
  destruct (decide (held w2 id)) as [Hin|Hnot]; [by left|right]. by apply Hn.
Qed.

End history.

(** ** A cluster to run against *)

Definition alreadyExists : GoError := mkError "already exists" ReasonAlreadyExists None.

(** Keystone and the API server answering every request at the instant [now]. *)
Definition clusterHandler (now : Z) (X : Type) (c : Call X) (w : vault) : X * vault :=
  match c in Call X return X * vault with
  | Now => (now, w)
  | GetApplicationCredential _ _ => (inr (v_CR w), w)
  | PatchApplicationCredential o => (None, setCR o w)
  | GetSecret _ n => (match v_secrets w !! n with Some s => inr s | None => inl notFound end, w)
  | LibGetSecret _ n => (match v_secrets w !! n with Some s => inr (s, "hash") | None => inl notFound end, w)
  | ListSecrets _ labels =>
      let items := (map_to_list (filter (fun p : string * Secret => labels ⊆ Labels (s_meta p.2)) (v_secrets w))).*2 in
      (if decide (NoDup (s_Name <$> items)) then inr items else inl unavailable, w)
  | CreateSecret s =>
      match v_secrets w !! s_Name s with Some _ => (Some alreadyExists, w) | None => (None, putSecret s w) end
  | UpdateSecret s =>
      match v_secrets w !! s_Name s with Some _ => (None, putSecret s w) | None => (Some notFound, w) end
  | DeleteSecret s =>
      (None, match v_secrets w !! s_Name s with
             | Some old => if decide (Finalizers (s_meta old) = []) then dropSecret (s_Name s) w else w
             | None => w
             end)
  | TokenExtractUser _ => (inr (v_user w), w)
  | ACCreate _ u o =>
      let id := fresh ({[""]} ∪ v_issued w) in
      (inr (mkCreatedAC id "s3cr3t" (default zeroTime (aco_ExpiresAt o))), issue u id (aco_ExpiresAt o) w)
  | ACDelete _ u id => if decide ((u, id) ∈ v_alive w) then (None, revoke u id w) else (Some notFound, w)
  | c => ((demoHandler _ c tt).1, w)
  end.
(** The answer to the creation of a credential is lost. *)
Definition lossyHandler (now : Z) (X : Type) (c : Call X) (w : vault) : X * vault :=
  match c in Call X return X * vault with
  | ACCreate _ u o => (inl unavailable, issue u (fresh ({[""]} ∪ v_issued w)) (aco_ExpiresAt o) w)
  | c => clusterHandler now _ c w
  end.

Lemma fresh_issued o u w :
  issued o u (fresh ({[""]} ∪ v_issued w)) (aco_ExpiresAt o) w (issue u (fresh ({[""]} ∪ v_issued w)) (aco_ExpiresAt o) w).
Proof.
  pose proof (is_fresh ({[""]} ∪ v_issued w : gset string)) as [H1 H2]%not_elem_of_union.
  split; [intros E; apply H1; rewrite E; by apply elem_of_singleton|]. done.
Qed.

Lemma clusterHandler_step now X (c : Call X) w : vaultStep w (Ev c (clusterHandler now X c w).1) (clusterHandler now X c w).2.
Proof.
  destruct c; try reflexivity; cbn [clusterHandler vaultStep fst snd].
  - split; [done|]. by intros i [= <-].
  - split; [done|]. by destruct (v_secrets w !! name).
  - destruct (v_secrets w !! s_Name s) eqn:Hl; cbn; [|done]. split; [by left|]. by intros _.
  - destruct (v_secrets w !! s_Name s) eqn:Hl; cbn; [|by left]. exists s0. split; [done|]. by left.
  - unfold removed. by destruct (v_secrets w !! s_Name s).
  - split; [done|]. intros s h. destruct (v_secrets w !! name); [by intros [= -> _]|done].
  - split; [done|]. case_decide as Hnd; [|done]. intros items [= <-]. split; [done|]. intros s.
    rewrite list_elem_of_fmap. split.
    + intros ([n s'] & -> & Hin). apply elem_of_map_to_list, map_lookup_filter_Some in Hin as []. by exists n.
    + intros (n & Hl & Hlab). exists (n, s). split; [done|]. by apply elem_of_map_to_list, map_lookup_filter_Some.
  - split; [done|]. by intros u [= <-].
  - eexists. split; [reflexivity|apply fresh_issued].
  - case_decide; cbn; [done|]. by left.
Qed.
Lemma lossyHandler_step now X (c : Call X) w : vaultStep w (Ev c (lossyHandler now X c w).1) (lossyHandler now X c w).2.
Proof.
  destruct c; try apply clusterHandler_step. cbn. right. eexists _, _. apply fresh_issued.
Qed.

(** A run of the reconcile against the cluster. *)
Definition clusterRun (now : Z) (w : vault) : trace * ret * vault :=
  exec (clusterHandler now) (Reconcile "openstack" "ac-barbican") w.
Definition lossyRun (now : Z) (w : vault) : trace * ret * vault :=
  exec (lossyHandler now) (Reconcile "openstack" "ac-barbican") w.
Lemma clusterRun_runs now w : runs (Reconcile "openstack" "ac-barbican") (clusterRun now w).1.1 (clusterRun now w).1.2.
Proof. apply exec_runs. Qed.
Lemma clusterRun_vault now w : vaultRun w (clusterRun now w).1.1 (clusterRun now w).2.
Proof. apply exec_wrun, clusterHandler_step. Qed.
Lemma clusterRun_move now w : move w (clusterRun now w).2.
Proof. eapply move_reconcile; [eapply runs_is_prefix, clusterRun_runs|apply clusterRun_vault]. Qed.
Lemma lossyRun_move now w : move w (lossyRun now w).2.
Proof.
  eapply (move_reconcile _ "openstack" "ac-barbican" (lossyRun now w).1.1); [eapply runs_is_prefix, exec_runs|].
  apply exec_wrun, lossyHandler_step.
Qed.

(** A resource that was never reconciled: its first reconcile adds the
    finalizer, the second creates the credential. *)
Definition newVault : vault := mkVault freshAC ∅ ∅ ∅ ∅ "user-id".
Definition firstReconcile : vault := (clusterRun 0 newVault).2.
Definition createdVault : vault := (clusterRun 0 firstReconcile).2.

Lemma newVault_wf : wfVault newVault /\ owned newVault.
Proof.
  split; [split; [|reflexivity]|by intros n s u H; cbn in H; rewrite lookup_empty in H].
  split; cbn; try done; try (intros n s H; by rewrite lookup_empty in H).
Qed.
Lemma createdVault_reach : rtc move newVault createdVault.
Proof. eapply rtc_l; [apply (clusterRun_move 0)|]. apply rtc_once, clusterRun_move. Qed.
Lemma createdVault_userReach : rtc userMove newVault createdVault.
Proof.
  eapply rtc_l; [split; [apply (clusterRun_move 0)|]|apply rtc_once; split; [apply (clusterRun_move 0)|]]; vm_compute;
    reflexivity.
Qed.

Lemma newVault_dated : dated (v_CR newVault) newVault.
Proof. by intros Hid. Qed.
(** The first credential was asked for at the instant 0, for 365 days. *)
Lemma credentials_safe_witness :
  acs_SecretName (ac_status (v_CR createdVault)) = "ac-barbican-0-secret" /\
  v_expires createdVault !! "0" = Some (durationOfDays 365) /\
  exists s u, v_secrets createdVault !! "ac-barbican-0-secret" = Some s /\ secretACID s = "0" /\
    valid createdVault (durationOfDays 364) u "0".
Proof.
  split; [vm_compute; reflexivity|]. split; [vm_compute; reflexivity|].
  destruct (credentials_safe newVault createdVault (proj1 newVault_wf) newVault_dated createdVault_reach) as [Hc _].
  assert (acs_ACID (ac_status (v_CR createdVault)) = "0") as Hid by (vm_compute; reflexivity). rewrite Hid in Hc.
  destruct Hc as (s & u & Hs & E & _ & Hv); [discriminate|]. exists s, u. split; [exact Hs|]. split; [exact E|].
  apply Hv. intros e He. assert (v_expires createdVault !! "0" = Some (durationOfDays 365)) as He0 by (vm_compute; reflexivity).
  rewrite He0 in He. injection He as <-. reflexivity.
Defined.

(** The next reconcile keeps the credential. *)
Lemma createdVault_settled : settledReconcile createdVault (clusterRun 0 createdVault).2.
Proof.
  exists "openstack", "ac-barbican", (clusterRun 0 createdVault).1.1, (clusterRun 0 createdVault).1.2.
  split; [apply clusterRun_runs|]. split; [apply clusterRun_vault|].
  assert (forallb (fun ev => negb (evIs changes ev) || evIs isPatch ev) (clusterRun 0 createdVault).1.1 = true) as H
    by (vm_compute; reflexivity).
  intros [X c x] Hin Hun. apply list_elem_of_In in Hin. apply (proj1 (forallb_forall _ _) H) in Hin. by destruct c.
Qed.
Lemma credentials_accounted_witness :
  elements (v_alive (clusterRun 0 createdVault).2) = [("user-id", "0")] /\
  (held (clusterRun 0 createdVault).2 "0" \/ (("user-id", "0") ∈ v_alive createdVault /\ ~ held createdVault "0")).
Proof.
  split; [vm_compute; reflexivity|].
  apply (credentials_accounted newVault createdVault (clusterRun 0 createdVault).2 (proj1 newVault_wf) (proj2 newVault_wf)
    createdVault_userReach (rtc_once _ _ createdVault_settled)).
  apply elem_of_elements. vm_compute. left.
Defined.

(** Two rotations, by edits of the roles: the first credential is neither the
    current one nor the previous one. *)
Definition withRoles (user : string) (roles : list string) : KeystoneApplicationCredentialSpec :=
  mkACSpec "osp-secret" "BarbicanPassword" user 365 182 roles false [].
Definition rotateAs (user userID role : string) (w : vault) : vault :=
  (clusterRun 0 (setUser userID (setCR (editSpec (withRoles user [role]) (v_CR w)) w))).2.
Lemma rotateAs_reach user userID role w :
  (user = userName w -> userID = v_user w) -> rtc move w (rotateAs user userID role w).
Proof. intros Hu. eapply rtc_l; [by apply (move_edit w (withRoles user [role]) userID)|]. apply rtc_once, clusterRun_move. Qed.

Definition twiceRotated : vault := rotateAs "barbican" "user-id" "reader" (rotateAs "barbican" "user-id" "admin" createdVault).
Definition cleanupRun : trace * option GoError * vault :=
  exec (clusterHandler 0) (cleanupUnusedRotatedSecrets (v_CR twiceRotated) (Some 0%nat) (v_user twiceRotated)) twiceRotated.
Lemma cleanupRun_runs :
  runs (cleanupUnusedRotatedSecrets (v_CR twiceRotated) (Some 0%nat) (v_user twiceRotated)) cleanupRun.1.1 cleanupRun.1.2.
Proof. exact (exec_runs (clusterHandler 0) _ twiceRotated). Qed.
Lemma cleanupRun_vault : vaultRun twiceRotated cleanupRun.1.1 cleanupRun.2.
Proof. exact (exec_wrun vaultStep (clusterHandler 0) (clusterHandler_step 0) _ twiceRotated). Qed.
Lemma cleanupRun_inSync :
  Ev (AreSecretHashesInSync (Namespace (ac_meta (v_CR twiceRotated)))) (inr (true, "")) ∈ cleanupRun.1.1.
Proof. vm_compute. left. Qed.
Lemma kept_spec (o : option Secret) (labels : gmap string string) (alive : gset (string * string)) u :
  match o with
  | Some s => bool_decide (labels ⊆ Labels (s_meta s)) && bool_decide ((u, secretACID s) ∈ alive)
  | None => false
  end = true ->
  exists s, o = Some s /\ labels ⊆ Labels (s_meta s) /\ (u, secretACID s) ∈ alive.
Proof.
  destruct o as [s|]; [|done]. intros [H1%bool_decide_eq_true H2%bool_decide_eq_true]%andb_true_iff. by exists s.
Qed.
Lemma cleanupRun_kept : exists s, v_secrets cleanupRun.2 !! "ac-barbican-1-secret" = Some s /\
  acLabels (GetServiceNameFromACCR (Name (ac_meta (v_CR twiceRotated)))) ⊆ Labels (s_meta s) /\
  ("user-id", secretACID s) ∈ v_alive cleanupRun.2.
Proof. apply kept_spec. vm_compute. reflexivity. Qed.
Lemma rotateAs_userReach role w :
  userName w = "barbican" -> v_user w = "user-id" -> userName (rotateAs "barbican" "user-id" role w) = "barbican" ->
  rtc userMove w (rotateAs "barbican" "user-id" role w).
Proof.
  intros Hn Hu Hn'. eapply rtc_l; [split; [by apply (move_edit w (withRoles "barbican" [role]) "user-id")|by rewrite Hn]|].
  apply rtc_once.
  split; [apply (clusterRun_move 0)|exact Hn'].
Qed.
Lemma twiceRotated_reach : rtc userMove newVault twiceRotated.
Proof.
  etransitivity; [apply createdVault_userReach|].
  etransitivity; apply rotateAs_userReach; vm_compute; reflexivity.
Qed.


(** A credential whose creation Keystone did not confirm stays valid without a
    secret: the reconcile afterwards creates another one. *)
Lemma credential_orphaned :
  let w := (clusterRun 0 (lossyRun 0 firstReconcile).2).2 in
  rtc move newVault w /\ acs_ACID (ac_status (v_CR w)) = "1" /\ orphan w "user-id" "0".
Proof.
  cbv zeta. split; [|split; [vm_compute; reflexivity|]].
  - eapply rtc_l; [apply (clusterRun_move 0)|]. eapply rtc_l; [apply (lossyRun_move 0)|]. apply rtc_once, clusterRun_move.
  - apply (bool_decide_unpack _). vm_compute. exact I.
Qed.

(** When the user name of the spec is edited, the credentials of the old user
    are revoked in the name of the new one: Keystone does not find them, the
    operator takes them for revoked and deletes their secrets. *)
Lemma credential_leaked :
  let w0 := rotateAs "other" "other-id" "reader" (rotateAs "other" "other-id" "admin" createdVault) in
  let w := (clusterRun 0 w0).2 in
  rtc move newVault w /\ (clusterRun 0 w0).1.2 = done_ /\ held w0 "0" /\ orphan w "user-id" "0".
Proof.
  cbv zeta. split; [|split; [vm_compute; reflexivity|split]].
  - etransitivity; [apply createdVault_reach|].
    etransitivity; [apply (rotateAs_reach "other" "other-id" "admin"); intros E; vm_compute in E; discriminate|].
    etransitivity; [apply (rotateAs_reach "other" "other-id" "reader"); intros _; vm_compute; reflexivity|].
    apply rtc_once, clusterRun_move.
  - apply (bool_decide_unpack _). vm_compute. exact I.
  - apply (bool_decide_unpack _). vm_compute. exact I.
Qed.
