(* ===== verification/Wakeups.v ===== *)
(** Progress of the KeystoneEndpoint, KeystoneService and application credential
    controllers.  The first two watch only their own kind ([serviceWatches] and
    [endpointWatches] of Setup.v), the third its secrets and NodeSets besides:
    nothing tells them that a KeystoneAPI, a KeystoneService or a password has
    become available.  So a reconcile that ends without an error and without a
    requeue must leave nothing to wait for. *)
From S2P Require Import Prelude Effects GoTime Api Conditions Instances Calls External Demo Protection KeystoneClient.
From S2P Require Import EndpointController ServiceController ACController.

(** What a program answers, whatever happens. *)
(** Decide a closed proposition. *)
Ltac by_computation := apply (bool_decide_unpack _); vm_compute; exact I.

(** The write of the instance is an event of its own kind, or the instance is
    going away: it got its first conditions, its finalizer, or lost it. *)
Definition selfWoken {A} (conds : A -> Conditions) (meta : A -> ObjectMeta) (finalizer : string) (i i' : A) : Prop :=
  (conds i = None /\ conds i' <> None) \/
  ((finalizer ∉ Finalizers (meta i)) /\ finalizer ∈ Finalizers (meta i')) \/
  (notDeleting (meta i) = false /\ finalizer ∉ Finalizers (meta i')).

Section progress.
Context `{CLaws : ConditionLaws} `{FLaws : FinalizerLaws} `{XL : ExternalLib}.

(** Every one of these conditions is True. *)
Definition allTrue (types : list string) (cs : Conditions) : Prop := Forall (fun ty => condStatus ty cs = Some ConditionTrue) types.

Lemma condStatus_Some ty cs s : condStatus ty cs = Some s -> cs <> None.
Proof. by intros Hs ->. Qed.
Lemma allTrue_summary types cs : ReadyCondition ∉ types -> allTrue types cs -> allTrue types (summarizeReady cs).
Proof.
  intros Hr Ht. apply Forall_forall. intros ty Hty. rewrite summarizeReady_other by (by intros ->).
  exact (proj1 (Forall_forall _ _) Ht ty Hty).
Qed.
Lemma summary_Some ty s cs : ty <> ReadyCondition -> condStatus ty cs = Some s -> summarizeReady cs <> None.
Proof. intros Hty Hs. eapply (condStatus_Some ty _ s). by rewrite summarizeReady_other. Qed.

(** ** KeystoneEndpoint *)

Abbreviation epConds i := (kes_Conditions (ke_status i)).
(** The conditions and the metadata are as before. *)
Definition epKept (i i' : KeystoneEndpoint) : Prop := epConds i' = epConds i /\ ke_meta i' = ke_meta i.
#[local] Instance epKept_preorder : PreOrder epKept.
Proof. split; [done|]. intros i1 i2 i3 [H1 H2] [H3 H4]. split; congruence. Qed.

Lemma removeStatus_kept ty i : epKept i (EndpointController.removeStatus ty i).
Proof. unfold EndpointController.removeStatus. split; [|done]. cbn. by case_match. Qed.
Lemma recordStatus_kept ty url id i : epKept i (EndpointController.recordStatus ty url id i).
Proof.
  unfold EndpointController.recordStatus. case_decide; [done|]. split; [|done]. cbn.
  destruct (ke_Endpoints (ke_spec i) !! ty); by case_match.
Qed.
Lemma deleteStale_kept os types i : wp (EndpointController.deleteStale os types i) (fun _ r => epKept i r.1).
Proof.
  revert i; induction types as [|ty types IH]; intros i; cbn [EndpointController.deleteStale]; [done|].
  case_match; [apply IH|]. case_match; [done|]. wp_norm. intros [e|]; wp_norm; [done|].
  eapply wp_mono; [|apply IH]. cbv beta. intros t r Hk. etransitivity; [apply removeStatus_kept|exact Hk].
Qed.
Lemma createOrUpdate_kept os types i : wp (EndpointController.createOrUpdate os types i) (fun _ r => epKept i r.1).
Proof.
  revert i; induction types as [|ty types IH]; intros i; cbn [EndpointController.createOrUpdate]; [done|].
  wp_skip. case_match; [done|]. eapply wp_mono; [|apply IH]. cbv beta. intros t' r Hk.
  etransitivity; [apply recordStatus_kept|exact Hk].
Qed.
Lemma reconcileEndpoints_kept os i : wp (EndpointController.reconcileEndpoints os i) (fun _ r => epKept i r.1).
Proof.
  unfold EndpointController.reconcileEndpoints. wp_use (deleteStale_kept os). intros t [i1 [e|]] Hk; [done|].
  eapply wp_mono; [|apply createOrUpdate_kept]. cbv beta. intros t' r Hk'. by etransitivity.
Qed.

Lemma allTrue_mark types f a ty cs : allTrue types cs -> allTrue (types ++ [ty]) (condMarkTrue ty f a cs).
Proof.
  intros Ht. apply Forall_app. split.
  - eapply Forall_impl; [exact Ht|]. cbv beta. intros ty' Hty'. rewrite condMarkTrue_status. by case_decide.
  - constructor; [|constructor]. by rewrite condMarkTrue_status, decide_True.
Qed.
Lemma allTrue_set types c cs : allTrue types cs -> c_Type c ∉ types -> allTrue types (condSet (Some c) cs).
Proof.
  intros Ht Hc. apply Forall_forall. intros ty Hty. rewrite condSet_status, decide_False by (by intros ->).
  exact (proj1 (Forall_forall _ _) Ht ty Hty).
Qed.

Definition clientDone : list string := [KeystoneAPIReadyCondition; AdminServiceClientReadyCondition].
Definition endpointDone : list string := clientDone ++ [KeystoneServiceOSEndpointsReadyCondition].

Lemma ep_mirrored i c ksSvc :
  allTrue clientDone (epConds i) -> condMirror KeystoneServiceReadyCondition (ks_Conditions (ks_status ksSvc)) = c ->
  allTrue clientDone (epConds (match c with Some _ => EndpointController.withCond (condSet c) i | None => i end)).
Proof.
  intros Hi Hc. destruct c as [c|]; [|done]. apply allTrue_set; [done|]. rewrite (condMirror_type _ _ _ Hc). vm_compute. 
  set_solver.
Qed.
Lemma ep_reconcileNormal_done i os k :
  allTrue clientDone (epConds i) ->
  wp (EndpointController.reconcileNormal i os k) (fun _ r => r.2 = done_ -> allTrue endpointDone (epConds r.1)).
Proof.
  intros Hi. unfold EndpointController.reconcileNormal. wp_norm. intros [e|ksSvc]; wp_norm; [by case_match|].
  pose proof (ep_mirrored i _ ksSvc Hi eq_refl) as Hm. revert Hm. generalize (match condMirror KeystoneServiceReadyCondition
    (ks_Conditions (ks_status ksSvc)) with Some _ => EndpointController.withCond (condSet (condMirror KeystoneServiceReadyCondition
    (ks_Conditions (ks_status ksSvc)))) i | None => i end). intros j Hj.
  case_match; wp_norm; [done|]. wp_skip. case_match; wp_norm; [done|]. wp_skip. case_match; wp_norm; [done|].
  wp_use (reconcileEndpoints_kept os). intros t' [j' [e|]] [Hk _]; wp_norm; [done|]. intros _.
  cbn [fst snd] in Hk. cbn. rewrite Hk. by apply (allTrue_mark clientDone).
Qed.

Lemma removeFinalizer_gone f l : f ∉ (RemoveFinalizer f l).1.
Proof. rewrite RemoveFinalizer_elem. by intros []. Qed.

Lemma ep_reconcileDelete_done i os ok :
  wp (EndpointController.reconcileDelete i os ok)
     (fun _ r => r.2 = done_ -> EndpointController.endpointFinalizer ∉ Finalizers (ke_meta r.1)).
Proof.
  unfold EndpointController.reconcileDelete. wp_skip. case_match; wp_norm; [done|].
  wp_skip. case_match; wp_norm; [done|]. wp_skip. case_match; wp_norm; [done|]. intros _. apply removeFinalizer_gone.
Qed.
Lemma ep_deleteFinalizersOnly_done i k :
  wp (EndpointController.reconcileDeleteFinalizersOnly i k)
     (fun _ r => r.2 = done_ -> EndpointController.endpointFinalizer ∉ Finalizers (ke_meta r.1)).
Proof.
  unfold EndpointController.reconcileDeleteFinalizersOnly. wp_skip. case_match; wp_norm; [done|].
  wp_skip. case_match; wp_norm; [done|]. intros _. apply removeFinalizer_gone.
Qed.

Lemma ep_reconcileWithClient_done i k :
  wp (EndpointController.reconcileWithClient i k) (fun _ r => r.2 = done_ ->
    if EndpointController.deleting i then EndpointController.endpointFinalizer ∉ Finalizers (ke_meta r.1)
    else allTrue endpointDone (epConds r.1)).
Proof.
  unfold EndpointController.reconcileWithClient. wp_skip. destruct a as [[os res] [e|]]; wp_norm; [done|].
  case_decide as Hres; wp_norm; [intros [= ->]; done|]. change (EndpointController.deleting (EndpointController.markTrue _ _ _ _))
    with (EndpointController.deleting i). destruct (EndpointController.deleting i).
  - eapply wp_mono; [|apply ep_reconcileDelete_done]. auto.
  - destruct os as [os|]; wp_norm; [|done]. eapply wp_mono; [|apply ep_reconcileNormal_done]; [auto|].
    apply (allTrue_mark [KeystoneAPIReadyCondition]), (allTrue_mark []). constructor.
Qed.
Lemma ep_reconcileInstance_done i :
  wp (EndpointController.reconcileInstance i) (fun _ r => r.2 = done_ ->
    if EndpointController.deleting i then EndpointController.endpointFinalizer ∉ Finalizers (ke_meta r.1)
    else allTrue endpointDone (epConds r.1)).
Proof.
  unfold EndpointController.reconcileInstance. wp_skip. destruct a as [e|k].
  - case_match; wp_norm; [|done]. destruct (EndpointController.deleting i); cbn [andb]; [|by wp_norm].
    case_match; wp_norm; [|done]. apply ep_reconcileDelete_done.
  - destruct (EndpointController.deleting i) eqn:Hdel; cbn [andb].
    + case_match; [apply ep_deleteFinalizersOnly_done|]. case_match; [apply ep_reconcileDelete_done|].
      case_match; wp_norm; [done|]. pose proof (ep_reconcileWithClient_done i k) as Hw. by rewrite Hdel in Hw.
    + case_match; wp_norm; [done|]. pose proof (ep_reconcileWithClient_done i k) as Hw. by rewrite Hdel in Hw.
Qed.

Lemma addFinalizer_added f l fs : AddFinalizer f l = (fs, true) -> (f ∉ l) /\ f ∈ fs.
Proof.
  intros Ha. pose proof (AddFinalizer_flag f l) as Hflag. pose proof (AddFinalizer_elem f l f) as Helem.
  rewrite Ha in Hflag, Helem. symmetry in Hflag. apply negb_true_iff, bool_decide_eq_false in Hflag. tauto.
Qed.

(** The first conditions are there to stay. *)
Lemma first_status l :
  NoDup (c_Type <$> l) -> UnknownCondition KeystoneAPIReadyCondition InitReason KeystoneAPIReadyInitMessage ∈ l ->
  condStatus KeystoneAPIReadyCondition (CreateList l) = Some ConditionUnknown.
Proof.
  intros Hnd Hin. pose proof (CreateList_status l _ Hnd Hin) as Hc.
  by rewrite UnknownCondition_type, UnknownCondition_status in Hc.
Qed.
Lemma first_Some l cs :
  NoDup (c_Type <$> l) -> UnknownCondition KeystoneAPIReadyCondition InitReason KeystoneAPIReadyInitMessage ∈ l ->
  summarizeReady (condInit (CreateList l) cs) <> None.
Proof.
  intros Hnd Hin. eapply (summary_Some KeystoneAPIReadyCondition); [done|].
  eapply condInit_status; [by apply first_status|done].
Qed.

(** Woken by its own write, or everything asked for is in place. *)
Definition epProgress (i i' : KeystoneEndpoint) : Prop :=
  selfWoken (fun i => epConds i) ke_meta EndpointController.endpointFinalizer i i' \/ allTrue endpointDone (epConds i').

Lemma ep_reconcileBody_done i :
  wp (EndpointController.reconcileBody i)
     (fun _ r => r.2 = done_ -> epProgress i (EndpointController.withCond summarizeReady r.1)).
Proof.
  unfold EndpointController.reconcileBody, epProgress, selfWoken. destruct (epConds i) as [cs|] eqn:Hcs.
  2: { wp_norm. intros _. left; left. split; [done|]. cbn. unfold EndpointController.initConditions.
       apply first_Some; [|left]. cbn. rewrite !UnknownCondition_type. by_computation. }
  destruct (AddFinalizer EndpointController.endpointFinalizer (Finalizers (ke_meta i))) as [fs added] eqn:Hf.
  cbv zeta. cbn [ke_meta ke_setStatus]. rewrite Hf.
  destruct (notDeleting (ke_meta i)) eqn:Hdel; cbn [andb].
  - destruct added; wp_norm.
    + intros _. left; right; left. by apply addFinalizer_added.
    + eapply wp_mono; [|apply ep_reconcileInstance_done]. cbv beta. intros t r Hr Hd. specialize (Hr Hd).
      unfold EndpointController.deleting in Hr. cbn [ke_meta ke_setStatus] in Hr. rewrite Hdel in Hr. right.
      apply allTrue_summary; [by_computation|done].
  - eapply wp_mono; [|apply ep_reconcileInstance_done]. cbv beta. intros t r Hr Hd. specialize (Hr Hd).
    unfold EndpointController.deleting in Hr. cbn [ke_meta ke_setStatus] in Hr. rewrite Hdel in Hr. left; right; right. done.
Qed.
Lemma ep_Reconcile_done ns name :
  wp (EndpointController.Reconcile ns name) (fun t r => r = done_ ->
    forall i, head t = Some (Ev (GetKeystoneEndpoint ns name) (inr i)) ->
    exists t0 i', t = t0 ++ [Ev (PatchKeystoneEndpoint i') None] /\ epProgress i i').
Proof.
  unfold EndpointController.Reconcile. wp_norm. intros [e|i]; wp_norm.
  { intros _ i Hi. apply (inj Some), Ev_inj in Hi. done. }
  intros [e|]; wp_norm; [done|]. wp_use ep_reconcileBody_done. intros t [i1 [res err]] Hb. wp_norm.
  intros [e|]; wp_norm; [by intros [= _ ?]|]. intros [= -> ->] i2 Hi. apply (inj Some), Ev_inj in Hi as [= <-].
  eexists (_ :: _ :: t), _. split; [done|]. by apply Hb.
Qed.

(** ** KeystoneService *)

Abbreviation svcConds i := (ks_Conditions (ks_status i)).
Definition serviceDone : list string :=
  clientDone ++ [KeystoneServiceOSServiceReadyCondition; KeystoneServiceOSUserReadyCondition].

Lemma reconcileService_kept i os : wp (ServiceController.reconcileService i os) (fun _ r => svcConds r.1 = svcConds i).
Proof.
  unfold ServiceController.reconcileService. wp_norm. intros [s e].
  assert (wp (ServiceController.registerService i os s) (fun _ r => svcConds r.1 = svcConds i)) as Hreg.
  { unfold ServiceController.registerService. destruct s as [s|]; cbv zeta; [case_match|]; wp_norm; [by intros x;
      wp_norm|done|].
    by intros [id e']; wp_norm. }
  destruct e as [e|]; [case_match; [done|]|]; exact Hreg.
Qed.
Lemma svc_reconcileNormal_done i os k :
  allTrue clientDone (svcConds i) ->
  wp (ServiceController.reconcileNormal i os k) (fun _ r => r.2 = done_ -> allTrue serviceDone (svcConds r.1)).
Proof.
  intros Hi. unfold ServiceController.reconcileNormal. wp_skip. case_match; wp_norm; [done|].
  wp_use (reconcileService_kept i os). intros t' [i1 [e|]] Hk; wp_norm; [done|]. cbn [fst] in Hk. wp_skip.
  destruct a0 as [res [e|]]; wp_norm; [done|]. case_decide as Hres; wp_norm; [intros [= ->]; done|]. intros _.
  cbn. rewrite Hk. by apply (allTrue_mark (clientDone ++ [_])), allTrue_mark.
Qed.
Lemma svc_reconcileDelete_done i os ok :
  wp (ServiceController.reconcileDelete i os ok)
     (fun _ r => r.2 = done_ -> ServiceController.serviceFinalizer ∉ Finalizers (ks_meta r.1)).
Proof.
  unfold ServiceController.reconcileDelete. wp_skip. destruct a as [i1 [e|]]; wp_norm; [done|].
  wp_skip. case_match; wp_norm; [done|]. intros _. apply removeFinalizer_gone.
Qed.
Lemma svc_deleteFinalizersOnly_done i k :
  wp (ServiceController.reconcileDeleteFinalizersOnly i k)
     (fun _ r => r.2 = done_ -> ServiceController.serviceFinalizer ∉ Finalizers (ks_meta r.1)).
Proof.
  unfold ServiceController.reconcileDeleteFinalizersOnly. wp_skip. case_match; wp_norm; [done|].
  intros _. apply removeFinalizer_gone.
Qed.

Lemma svc_reconcileWithClient_done i k :
  wp (ServiceController.reconcileWithClient i k) (fun _ r => r.2 = done_ ->
    if ServiceController.deleting i then ServiceController.serviceFinalizer ∉ Finalizers (ks_meta r.1)
    else allTrue serviceDone (svcConds r.1)).
Proof.
  unfold ServiceController.reconcileWithClient. wp_skip. destruct a as [[os res] [e|]]; wp_norm; [done|].
  case_decide as Hres; wp_norm; [intros [= ->]; done|]. change (ServiceController.deleting (ServiceController.svcTrue _ _ _ _))
    with (ServiceController.deleting i). destruct (ServiceController.deleting i).
  - eapply wp_mono; [|apply svc_reconcileDelete_done]. auto.
  - destruct os as [os|]; wp_norm; [|done]. eapply wp_mono; [|apply svc_reconcileNormal_done]; [auto|].
    apply (allTrue_mark [KeystoneAPIReadyCondition]), (allTrue_mark []). constructor.
Qed.
Lemma svc_reconcileInstance_done i :
  wp (ServiceController.reconcileInstance i) (fun _ r => r.2 = done_ ->
    if ServiceController.deleting i then ServiceController.serviceFinalizer ∉ Finalizers (ks_meta r.1)
    else allTrue serviceDone (svcConds r.1)).
Proof.
  unfold ServiceController.reconcileInstance. wp_skip. destruct a as [e|k].
  - case_match; wp_norm; [|done]. destruct (ServiceController.deleting i); cbn [andb]; [|by wp_norm].
    case_match; wp_norm; [|done]. apply svc_reconcileDelete_done.
  - pose proof (svc_reconcileWithClient_done i k) as Hw.
    destruct (ServiceController.deleting i) eqn:Hdel; cbn [andb].
    + case_match; [apply svc_deleteFinalizersOnly_done|]. case_match; [apply svc_reconcileDelete_done|].
      case_match; wp_norm; [done|exact Hw].
    + case_match; wp_norm; [done|exact Hw].
Qed.

Definition svcProgress (i i' : KeystoneService) : Prop :=
  selfWoken (fun i => svcConds i) ks_meta ServiceController.serviceFinalizer i i' \/ allTrue serviceDone (svcConds i').

Lemma svc_reconcileBody_done i :
  wp (ServiceController.reconcileBody i)
     (fun _ r => r.2 = done_ -> svcProgress i (ServiceController.svcCond summarizeReady r.1)).
Proof.
  unfold ServiceController.reconcileBody, svcProgress, selfWoken. destruct (svcConds i) as [cs|] eqn:Hcs.
  2: { wp_norm. intros _. left; left. split; [done|]. cbn. unfold ServiceController.initConditions.
       apply first_Some; [|left]. cbn. rewrite !UnknownCondition_type. by_computation. }
  destruct (AddFinalizer ServiceController.serviceFinalizer (Finalizers (ks_meta i))) as [fs added] eqn:Hf.
  pose proof (svc_reconcileInstance_done i) as Hi. unfold ServiceController.deleting in Hi.
  destruct (notDeleting (ks_meta i)) eqn:Hdel; cbn [andb negb] in *.
  - destruct added; wp_norm.
    + intros _. left; right; left. by apply addFinalizer_added.
    + eapply wp_mono; [|exact Hi]. cbv beta. intros t r Hr Hd. right.
      apply allTrue_summary; [by_computation|by apply Hr].
  - eapply wp_mono; [|exact Hi]. cbv beta. intros t r Hr Hd. left; right; right. by split; [|apply Hr].
Qed.
Lemma svc_Reconcile_done ns name :
  wp (ServiceController.Reconcile ns name) (fun t r => r = done_ ->
    forall i, head t = Some (Ev (GetKeystoneService ns name) (inr i)) ->
    exists t0 i', t = t0 ++ [Ev (PatchKeystoneService i') None] /\ svcProgress i i').
Proof.
  unfold ServiceController.Reconcile. wp_norm. intros [e|i]; wp_norm.
  { intros _ i Hi. apply (inj Some), Ev_inj in Hi. done. }
  intros [e|]; wp_norm; [done|]. wp_use svc_reconcileBody_done. intros t [i1 [res err]] Hb. wp_norm.
  intros [e|]; wp_norm; [by intros [= _ ?]|]. intros [= -> ->] i2 Hi. apply (inj Some), Ev_inj in Hi as [= <-].
  eexists (_ :: _ :: t), _. split; [done|]. by apply Hb.
Qed.

(** ** KeystoneApplicationCredential *)

Abbreviation acConds i := (acs_Conditions (ac_status i)).
Definition acDone : list string := [KeystoneAPIReadyCondition; KeystoneApplicationCredentialReadyCondition].

(** There is a credential, with the security fields of the spec, and the clock
    was read before its grace period. *)
Definition notDue (i : KeystoneApplicationCredential) (t : trace) : Prop :=
  acs_ACID (ac_status i) <> "" /\ ~ ACController.securityChanged i /\
  forall expiry, acs_ExpiresAt (ac_status i) = Some expiry -> expiry <> zeroTime ->
    exists now, Ev Now now ∈ t /\ (now <= ACController.eligibleAt i expiry)%Z.

Lemma notDue_sub i t t' : t ⊆ t' -> notDue i t -> notDue i t'.
Proof.
  intros Hsub (H1 & H2 & H3). split_and!; [done..|]. intros expiry He Hz.
  destruct (H3 expiry He Hz) as (now & Hin & Hle). exists now. split; [by apply Hsub|done].
Qed.
Lemma needsRotation_notDue i :
  wp (ACController.needsRotation i) (fun t d => match d with inr (false, _) => notDue i t | _ => True end).
Proof.
  unfold ACController.needsRotation, notDue. case_decide as Hid; wp_norm; [done|].
  destruct (ACController.ComputeSecurityHash (ac_spec i)) as [e|h] eqn:Hh; wp_norm; [done|].
  case_decide as Hch; wp_norm; [done|].
  assert (~ ACController.securityChanged i) as Hn.
  { intros (H1 & h0 & Hh0 & H2). rewrite Hh in Hh0. injection Hh0 as <-. by apply Hch. }
  destruct (acs_ExpiresAt (ac_status i)) as [expiry|]; wp_norm; [|by split_and!].
  unfold timeIsZero. case_bool_decide as Hz; wp_norm; [split_and!; [done..|]; by intros ? [= <-]|].
  intros now. unfold timeAfter, ACController.eligibleAt. rewrite ACController.negGraceDuration_negGrace.
  destruct (Z.ltb_spec (timeAdd expiry (ACController.negGrace (ac_spec i))) now) as [Hlt|Hge]; wp_norm; [done|].
  split_and!; [done..|]. intros ? [= <-] _. exists now. split; [left|done].
Qed.

Lemma finishRotation_notDone i created secretName :
  wp (ACController.finishRotation i created secretName) (fun _ r => r.2 <> done_).
Proof.
  unfold ACController.finishRotation. wp_go; done.
Qed.
Lemma rotate_notDone i k : wp (ACController.rotate i k) (fun _ r => r.2 <> done_).
Proof.
  unfold ACController.rotate. wp_skip. destruct a as [[os res] [e|]]; wp_norm; [done|].
  case_decide as Hres; wp_norm; [intros [= ->]; done|]. destruct os as [os|]; wp_norm; [|done].
  unfold ACController.createCredential. wp_skip. case_match; wp_norm; [done|]. wp_skip. wp_skip. case_match; wp_norm; [done|].
  wp_skip. case_match; [|apply finishRotation_notDone]. wp_skip. done.
Qed.
Lemma ac_reconcileNormal_done i k :
  allTrue [KeystoneAPIReadyCondition] (acConds i) ->
  wp (ACController.reconcileNormal i k) (fun t r => r.2 = done_ -> allTrue acDone (acConds r.1) /\ notDue i t).
Proof.
  intros Hi. unfold ACController.reconcileNormal. wp_use (needsRotation_notDue i). intros t1 [e|[b m]] Hb; wp_norm; [done|].
  rewrite wp_bind. apply (wp_mono _ (fun _ d => d = inr false -> b = false)).
  2: { case_decide; wp_norm; [congruence|]. intros [e|?]; wp_norm; [destruct (IsNotFound e)|]; congruence. }
  intros t2 [e|[]] Hd; wp_norm; [done|by eapply wp_mono; [|apply rotate_notDone]|]. rewrite (Hd eq_refl) in Hb.
  unfold ACController.keepCredential. cbv zeta. wp_skip. wp_skip. intros _. split.
  - apply (allTrue_mark [KeystoneAPIReadyCondition]). unfold ACController.refreshEligible. by case_match.
  - eapply notDue_sub; [|exact Hb]. sub_go.
Qed.
Lemma ac_reconcileDelete_done i ok :
  wp (ACController.reconcileDelete i ok) (fun _ r => r.2 = done_ -> ACController.finalizer ∉ Finalizers (ac_meta r.1)).
Proof.
  unfold ACController.reconcileDelete. wp_skip. case_match; wp_norm; [done|].
  unfold ACController.deleteCredentials. cbv zeta. wp_skip. wp_skip. case_match; wp_norm; [done|]. wp_skip.
  wp_skip. case_match; wp_norm; [done|]. wp_skip. case_match; wp_norm; [done|]. intros _. apply removeFinalizer_gone.
Qed.
Lemma ac_reconcileInstance_done i :
  wp (ACController.reconcileInstance i) (fun t r => r.2 = done_ ->
    if ACController.deleting i then ACController.finalizer ∉ Finalizers (ac_meta r.1)
    else allTrue acDone (acConds r.1) /\ notDue i t).
Proof.
  unfold ACController.reconcileInstance. wp_skip. destruct a as [e|k]; wp_norm.
  - case_match; wp_norm; [|done]. destruct (ACController.deleting i); wp_norm; [|done].
    eapply wp_mono; [|apply ac_reconcileDelete_done]. auto.
  - destruct (ACController.deleting i); wp_norm; [eapply wp_mono; [|apply ac_reconcileDelete_done]; auto|].
    case_match; wp_norm; [done|]. eapply wp_mono; [|apply ac_reconcileNormal_done].
    + cbv beta. intros t' r Hr Hd. destruct (Hr Hd) as [Hc Hn]. split; [done|]. eapply notDue_sub; [|exact Hn]. sub_go.
    + apply (allTrue_mark []). constructor.
Qed.

Definition acProgress (i i' : KeystoneApplicationCredential) (t : trace) : Prop :=
  selfWoken (fun i => acConds i) ac_meta ACController.finalizer i i' \/ (allTrue acDone (acConds i') /\ notDue i t).

Lemma ac_final_meta saved i : ac_meta (ACController.finalConditions saved i) = ac_meta i.
Proof. unfold ACController.finalConditions. by case_match. Qed.
Lemma ac_final_status saved i ty s :
  ty <> ReadyCondition -> condStatus ty (acConds i) = Some s ->
  condStatus ty (acConds (ACController.finalConditions saved i)) = Some s.
Proof.
  intros Hty Hs. unfold ACController.finalConditions. case_match; [|done].
  change (condStatus ty (RestoreLastTransitionTimes (summarizeReady (acConds i)) saved) = Some s).
  by rewrite Restore_status, summarizeReady_other.
Qed.
Lemma ac_final_done saved i : allTrue acDone (acConds i) -> allTrue acDone (acConds (ACController.finalConditions saved i)).
Proof.
  intros Ht. apply Forall_forall. intros ty Hty. apply ac_final_status; [|exact (proj1 (Forall_forall _ _) Ht ty Hty)].
  intros ->. revert Hty. by_computation.
Qed.
Lemma ac_initConditions : condStatus KeystoneAPIReadyCondition ACController.initConditions = Some ConditionUnknown.
Proof.
  apply first_status; [|left]. cbn. rewrite !UnknownCondition_type. by_computation.
Qed.

Lemma ac_reconcileBody_done i saved :
  wp (ACController.reconcileBody i)
     (fun t r => r.2 = done_ -> acProgress i (ACController.finalConditions saved r.1) t).
Proof.
  unfold ACController.reconcileBody, acProgress, selfWoken. cbv zeta. cbn [ac_meta ac_setStatus ACController.acCond].
  destruct (notDeleting (ac_meta i)) eqn:Hdel.
  - destruct (AddFinalizer ACController.finalizer (Finalizers (ac_meta i))) as [fs added] eqn:Hf.
    destruct added; cbn [orb]; [|case_bool_decide as Hnew].
    + wp_norm. intros _. left; right; left. rewrite ac_final_meta. by apply addFinalizer_added.
    + wp_norm. intros _. left; left. split; [done|]. eapply condStatus_Some, (ac_final_status _ _ KeystoneAPIReadyCondition); [done|].
      by apply condInit_status; [apply ac_initConditions|].
    + eapply wp_mono; [|apply ac_reconcileInstance_done]. cbv beta. intros t r Hr Hd. specialize (Hr Hd).
      unfold ACController.deleting in Hr. change (notDeleting _) with (notDeleting (ac_meta i)) in Hr. rewrite Hdel in Hr.
      destruct Hr as [Hc Hn]. right.
      split; [by apply ac_final_done|exact Hn].
  - eapply wp_mono; [|apply ac_reconcileInstance_done]. cbv beta. intros t r Hr Hd. specialize (Hr Hd).
    unfold ACController.deleting in Hr. change (notDeleting _) with (notDeleting (ac_meta i)) in Hr. rewrite Hdel in Hr.
    left; right; right. by rewrite ac_final_meta.
Qed.
Lemma ac_Reconcile_done ns name :
  wp (ACController.Reconcile ns name) (fun t r => r = done_ ->
    forall i, head t = Some (Ev (GetApplicationCredential ns name) (inr i)) ->
    exists t0 i', t = t0 ++ [Ev (PatchApplicationCredential i') None] /\ acProgress i i' t0).
Proof.
  unfold ACController.Reconcile. wp_norm. intros [e|i]; wp_norm.
  { intros _ i Hi. apply (inj Some), Ev_inj in Hi. done. }
  intros [e|]; wp_norm; [done|]. wp_use ac_reconcileBody_done. intros t [i1 [res err]] Hb. wp_norm.
  intros [e|]; wp_norm; [by intros [= _ ?]|]. intros [= -> ->] i2 Hi. apply (inj Some), Ev_inj in Hi as [= <-].
  eexists (_ :: _ :: t), _. split; [done|]. destruct (Hb eq_refl) as [Hw|[Hc Hn]]; [by left|right].
  split; [exact Hc|]. eapply notDue_sub; [|exact Hn]. sub_go.
Qed.

(** C16. No controller falls asleep over unfinished work.  A reconcile that ends
    without an error and without asking for a requeue has written the instance
    back, and either that write wakes the controller again (first conditions,
    finalizer) or lets the instance go, or all of the resource is in place: for
    a KeystoneEndpoint the API, the client and the catalogue conditions are
    True, for a KeystoneService the user's too, and an application credential
    exists, matches the security fields of the spec and is not due.  While
    something is missing, a KeystoneAPI or KeystoneService that is not ready or
    a secret, the reconcile comes back. *)
Theorem no_silent_stall ns name t :
  (forall i, runs (EndpointController.Reconcile ns name) t done_ ->
    head t = Some (Ev (GetKeystoneEndpoint ns name) (inr i)) ->
    exists t0 i', t = t0 ++ [Ev (PatchKeystoneEndpoint i') None] /\ epProgress i i') /\
  (forall i, runs (ServiceController.Reconcile ns name) t done_ ->
    head t = Some (Ev (GetKeystoneService ns name) (inr i)) ->
    exists t0 i', t = t0 ++ [Ev (PatchKeystoneService i') None] /\ svcProgress i i') /\
  (forall i, runs (ACController.Reconcile ns name) t done_ ->
    head t = Some (Ev (GetApplicationCredential ns name) (inr i)) ->
    exists t0 i', t = t0 ++ [Ev (PatchApplicationCredential i') None] /\ acProgress i i' t0).
Proof.
  split_and!; intros i Hr.
  - exact (runs_spec _ _ _ _ (ep_Reconcile_done ns name) Hr eq_refl i).
  - exact (runs_spec _ _ _ _ (svc_Reconcile_done ns name) Hr eq_refl i).
  - exact (runs_spec _ _ _ _ (ac_Reconcile_done ns name) Hr eq_refl i).
Qed.
End progress.

(** ** Witness *)

(** [demoEndpoint] after its finalizer was added, and everything it needs. *)
Definition heldEndpoint : KeystoneEndpoint := ke_setFinalizers ["openstack.org/KeystoneEndpoint"] demoEndpoint.
Definition heldHandler (X : Type) (c : Call X) (w : unit) : X * unit :=
  match c in Call X return X * unit with
  | GetKeystoneEndpoint _ _ => (inr heldEndpoint, w)
  | c => demoHandler _ c w
  end.
Lemma no_silent_stall_witness :
  resultWith heldHandler (EndpointController.Reconcile "openstack" "keystone") = done_ /\
  exists t0 i', traceWith heldHandler (EndpointController.Reconcile "openstack" "keystone")
    = t0 ++ [Ev (PatchKeystoneEndpoint i') None] /\ allTrue endpointDone (kes_Conditions (ke_status i')).
Proof.
  assert (resultWith heldHandler (EndpointController.Reconcile "openstack" "keystone") = done_) as Hd by (vm_compute;
    reflexivity).
  split; [exact Hd|].
  destruct (proj1 (no_silent_stall "openstack" "keystone"
    (traceWith heldHandler (EndpointController.Reconcile "openstack" "keystone"))) heldEndpoint)
    as (t0 & i' & Ht & [[[Hs _]|[[Hs _]|[Hs _]]]|Hp]).
  - rewrite <- Hd. apply runsWith.
  - vm_compute. reflexivity.
  - discriminate Hs.
  - destruct Hs. left.
  - discriminate Hs.
  - exists t0, i'. split; [exact Ht|exact Hp].
Defined.
