(* ===== verification/Sharing.v ===== *)
(** How the controllers treat the KeystoneAPI they share: what a reconcile
    knows of it at each point of its exchange, the rules a consumer (the
    KeystoneService and KeystoneEndpoint controllers) and the owner (the
    KeystoneAPI controller) follow, and the proofs that the controllers follow
    them.  Teardown.v puts the controllers together. *)
From S2P Require Import Prelude Effects GoTime Api Conditions Instances Calls External Demo Protection KeystoneClient.
From S2P Require Import EndpointController ServiceController APIController APIJudgements.

(** ** Knowledge *)

(** The KeystoneAPI a reconcile has in its hands: the one it read, or what its
    update made of it; after an update that failed it is of no use. *)
Definition learn (s : option KeystoneAPI) (ev : event Call) : option KeystoneAPI :=
  match ev with
  | Ev c x =>
      match c in Call X return X -> option KeystoneAPI with
      | GetKeystoneAPICR _ _ => fun r => match r with inr k => Some k | inl _ => s end
      | ListKeystoneAPIs _ _ => fun r => match r with inr [k] => Some k | _ => s end
      | UpdateKeystoneAPI o => fun r => match r with None => Some o | Some _ => None end
      | PatchKeystoneAPI _ => fun _ => None
      | _ => fun _ => s
      end x
  end.
Definition learned (s : option KeystoneAPI) (t : trace) : option KeystoneAPI := fold_left learn t s.
Lemma learned_app s t1 t2 : learned s (t1 ++ t2) = learned (learned s t1) t2.
Proof. apply fold_left_app. Qed.

(** A rule for each event, given what is known when it happens. *)
Abbreviation rule := (option KeystoneAPI -> event Call -> Prop).
Fixpoint obeys (R : rule) (s : option KeystoneAPI) (t : trace) : Prop :=
  match t with
  | [] => True
  | ev :: t => R s ev /\ obeys R (learn s ev) t
  end.
Lemma obeys_app R s t1 t2 : obeys R s (t1 ++ t2) <-> obeys R s t1 /\ obeys R (learned s t1) t2.
Proof.
  revert s; induction t1 as [|ev t1 IH]; intros s; cbn [app obeys]; [by cbn; tauto|].
  rewrite IH. unfold learned. cbn [fold_left]. tauto.
Qed.

(** ** A judgement on programs *)

Section keeps.
Context (answered : event Call -> Prop) (R : rule).

(** Started with [s] known and answered properly, [p] obeys the rule and ends
    with [Q] of what it knows and of its value. *)
Definition keeps {A} (p : program A) (s : option KeystoneAPI) (Q : option KeystoneAPI -> A -> Prop) : Prop :=
  wp p (fun t a => Forall answered t -> obeys R s t /\ Q (learned s t) a).

Lemma keeps_mono {A} (p : program A) s (Q1 Q2 : option KeystoneAPI -> A -> Prop) :
  (forall s' a, Q1 s' a -> Q2 s' a) -> keeps p s Q1 -> keeps p s Q2.
Proof. intros HQ. apply wp_mono. intros t a Hk Ht. destruct (Hk Ht) as [? ?]. split; [done|by apply HQ]. Qed.
Lemma keeps_ret {A} (a : A) s Q : Q s a -> keeps (mret a) s Q.
Proof. by intros HQ _. Qed.
Lemma keeps_call {X A} (c : Call X) (k : X -> program A) s Q :
  (forall x, answered (Ev c x) -> R s (Ev c x) /\ keeps (k x) (learn s (Ev c x)) Q) -> keeps (call c ≫= k) s Q.
Proof.
  intros Hk x. apply wp_runs. intros t a Hr [Hx Ht]%Forall_cons. destruct (Hk x Hx) as [HR Hp].
  eapply runs_spec in Hr; [|exact Hp]. destruct (Hr Ht) as [? ?]. by split; [split|].
Qed.
Lemma keeps_bind {A B} (p : program A) (f : A -> program B) s Q :
  keeps p s (fun s1 a => keeps (f a) s1 Q) -> keeps (p ≫= f) s Q.
Proof.
  intros Hp. unfold keeps. rewrite wp_bind. eapply wp_mono; [|exact Hp]. cbv beta. intros t1 a Hk. apply wp_runs.
  intros t2 b Hr [Ht1 Ht2]%Forall_app. destruct (Hk Ht1) as [Ho Hf]. eapply runs_spec in Hr; [|exact Hf].
  destruct (Hr Ht2) as [Ho2 HQ]. by rewrite learned_app, obeys_app.
Qed.

Lemma keeps_wp {A} (p : program A) s (P : A -> Prop) Q :
  wp p (fun _ a => P a) -> keeps p s Q -> keeps p s (fun s' a => P a /\ Q s' a).
Proof.
  intros HP HQ. eapply wp_mono; [|exact (wp_conj _ _ _ HP HQ)]. cbv beta. intros t a [? Hk] Ht.
  by destruct (Hk Ht).
Qed.

(** A program whose calls leave the knowledge alone and break no rule. *)
Lemma keeps_emits {A} (P : forall X, Call X -> Prop) (p : program A) s :
  emits P p -> (forall X (c : Call X) x, P X c -> learn s (Ev c x) = s /\ R s (Ev c x)) -> keeps p s (fun s' _ => s' = s).
Proof.
  intros Hp HP. apply wp_runs. intros t a Hr _. eapply emits_runs in Hr; [|exact Hp]. clear p Hp.
  induction Hr as [|[X c x] t Hc _ IH]; [done|]. destruct (HP X c x Hc) as [Hl HR]. destruct IH as [Ho Hs].
  change ((R s (Ev c x) /\ obeys R (learn s (Ev c x)) t) /\ learned (learn s (Ev c x)) t = s). by rewrite Hl.
Qed.
(** The rule from the start of the exchange. *)
Lemma keeps_runs {A} (p : program A) s t a :
  keeps p s (fun _ _ => True) -> runs p t a -> Forall answered t -> obeys R s t.
Proof. intros Hp Hr. eapply runs_spec in Hr; [|exact Hp]. intros Ht. by destruct (Hr Ht). Qed.
End keeps.

(** ** The answers that are relied on *)

(** The API server answers a request for an object with the object of that
    name; the RBAC reconciler is honest (APIJudgements.v). *)
Definition wellAnswered `{ControllerLib} (ev : event Call) : Prop :=
  match ev with
  | Ev c x =>
      match c in Call X return X -> Prop with
      | GetKeystoneService _ n => fun r => match r with inr i => Name (ks_meta i) = n | inl _ => True end
      | GetKeystoneEndpoint _ n => fun r => match r with inr i => Name (ke_meta i) = n | inl _ => True end
      | c => fun x => honestAnswer c x
      end x
  end.
Lemma wellAnswered_honest `{ControllerLib} t : Forall wellAnswered t -> honest t.
Proof. intros Ht. eapply Forall_impl; [exact Ht|]. intros [X c x]. by destruct c. Qed.

(** ** The consumers *)

Section consumers.
Context `{CL : ConditionLib} `{FLaws : FinalizerLaws} `{XL : ExternalLib} `{KL : ControllerLib}.

(** What a consumer with the finalizer [f] does to the KeystoneAPI it knows:
    it adds [f] when Keystone is ready, or removes [f]; it registers something
    only while the KeystoneAPI it knows carries [f]; it takes nothing of
    Keystone apart. *)
Definition consumerRule (f : string) : rule := fun s ev =>
  match ev with
  | Ev c _ =>
      match c with
      | UpdateKeystoneAPI o => exists k, s = Some k /\
          (KeystoneAPI_IsReady k = true /\ o = ka_setFinalizers (AddFinalizer f (Finalizers (ka_meta k))).1 k \/
           o = ka_setFinalizers (RemoveFinalizer f (Finalizers (ka_meta k))).1 k)
      | PatchKeystoneAPI _ => False
      | c => isTeardown _ c = false /\ (isRegistration _ c = true -> exists k, s = Some k /\ f ∈ Finalizers (ka_meta k))
      end
  end.

Definition isOwners (X : Type) (c : Call X) : bool := isAPICall X c || isTeardown X c.

Section rule.
Context (f : string).
Abbreviation holds := (keeps wellAnswered (consumerRule f)).

Lemma quiet_obeys s X (c : Call X) x : isShared X c = false -> learn s (Ev c x) = s /\ consumerRule f s (Ev c x).
Proof. by destruct c. Qed.
Lemma holds_quiet {A} (p : program A) s (Q : option KeystoneAPI -> A -> Prop) :
  avoids isShared p -> wp p (fun _ a => Q s a) -> holds p s Q.
Proof.
  intros Hp HQ. eapply keeps_mono; [|apply keeps_wp; [exact HQ|eapply keeps_emits; [exact Hp|apply quiet_obeys]]].
  by intros s' a [? ->].
Qed.
(** With the finalizer held, registering is allowed too. *)
Lemma holds_registering {A} (p : program A) k (Q : option KeystoneAPI -> A -> Prop) :
  avoids isOwners p -> f ∈ Finalizers (ka_meta k) -> (forall a, Q (Some k) a) -> holds p (Some k) Q.
Proof.
  intros Hp Hf HQ. eapply keeps_mono; [|eapply keeps_emits; [exact Hp|]]; [by intros s' a ->|].
  intros X c x Hc. destruct c; try done; (split; [done|split; [done|intros _; by exists k]]).
Qed.

Lemma holds_GetKeystoneAPI ns labels :
  holds (GetKeystoneAPI ns labels) None (fun s r => match r with inr k => s = Some k | inl _ => True end).
Proof. apply keeps_call. intros r _. split; [by split|]. apply keeps_ret. by destruct r as [e|[|k [|]]]. Qed.

Lemma holds_add k :
  KeystoneAPI_IsReady k = true ->
  holds (addAPIFinalizer f k) (Some k) (fun s err => err = None -> exists k', s = Some k' /\ f ∈ Finalizers (ka_meta k')).
Proof.
  intros Hk. unfold addAPIFinalizer.
  pose proof (AddFinalizer_elem f (Finalizers (ka_meta k)) f) as Hel.
  pose proof (AddFinalizer_flag f (Finalizers (ka_meta k))) as Hfl.
  destruct (AddFinalizer f (Finalizers (ka_meta k))) as [fs []] eqn:Ha; simpl in Hel, Hfl.
  - intros err _. split.
    + split; [|done]. exists k. split; [done|]. left. by rewrite Ha.
    + intros ->. eexists. split; [done|]. apply Hel. by left.
  - apply keeps_ret. intros _. exists k. split; [done|]. symmetry in Hfl.
    by apply negb_false_iff, bool_decide_eq_true_1 in Hfl.
Qed.
Lemma holds_remove k : holds (removeAPIFinalizer f k) (Some k) (fun _ _ => True).
Proof.
  unfold removeAPIFinalizer. destruct (RemoveFinalizer f (Finalizers (ka_meta k))) as [fs []] eqn:Hr.
  - intros err _. split; [|done]. split; [|done]. exists k. split; [done|]. right. by rewrite Hr.
  - by apply keeps_ret.
Qed.
End rule.

Lemma GetAdminServiceClient_quiet k : avoids isShared (GetAdminServiceClient k).
Proof. unfold GetAdminServiceClient, GetScopedClient, scopedClientTLS. emits_go. Qed.

(** *** KeystoneService *)

Lemma deregister_quiet i os : avoids isShared (deregister i os).
Proof. unfold deregister. emits_go. Qed.
Lemma deregister_meta i os : wp (deregister i os) (fun _ r => ks_meta r.1 = ks_meta i).
Proof. unfold deregister. by wp_go. Qed.
Lemma reconcileService_registers i os : avoids isOwners (reconcileService i os).
Proof. unfold reconcileService, registerService. emits_go. Qed.
Lemma assignRoles_registers os roles u p : avoids isOwners (assignRoles os roles u p).
Proof. induction roles as [|r l IH]; cbn [assignRoles]; emits_go; auto. Qed.
Lemma reconcileUser_registers i os : avoids isOwners (reconcileUser i os).
Proof. pose proof assignRoles_registers. unfold reconcileUser. emits_go; auto. Qed.

Section service.
Context (name : string).
Let f : string := serviceFinalizer +:+ "-" +:+ name.
Abbreviation holds := (keeps wellAnswered (consumerRule f)).
Implicit Types i : KeystoneService.

Lemma svc_reconcileNormal_holds i os k :
  Name (ks_meta i) = name -> KeystoneAPI_IsReady k = true ->
  holds (ServiceController.reconcileNormal i os k) (Some k) (fun _ _ => True).
Proof.
  intros Hn Hk. unfold ServiceController.reconcileNormal, svcConsumerFinalizer. rewrite Hn. fold f.
  apply keeps_bind. eapply keeps_mono; [|by apply holds_add]. intros s [e|] Hs; [by apply keeps_ret|].
  destruct (Hs eq_refl) as (k' & -> & Hf). apply keeps_bind, holds_registering; [apply reconcileService_registers|done|].
  intros [i1 [e|]]; [by apply keeps_ret|]. cbv zeta.
  apply keeps_bind, holds_registering; [apply reconcileUser_registers|done|].
  intros [res [e|]]; [|case_decide]; by apply keeps_ret.
Qed.
Lemma svc_release_holds i1 i k (g : KeystoneService) :
  Name (ks_meta i) = name ->
  holds (err ← removeAPIFinalizer (svcConsumerFinalizer i) k;
         match err with Some e => mret (i1, failWith e) | None => mret (g, done_) end) (Some k) (fun _ _ => True).
Proof.
  intros Hn. unfold svcConsumerFinalizer. rewrite Hn. apply keeps_bind. eapply keeps_mono; [|apply holds_remove].
  intros s [e|] _; by apply keeps_ret.
Qed.
Lemma svc_reconcileDelete_holds i os ok s :
  Name (ks_meta i) = name -> match ok with Some k => s = Some k | None => True end ->
  holds (ServiceController.reconcileDelete i os ok) s (fun _ _ => True).
Proof.
  intros Hn Hk. unfold ServiceController.reconcileDelete. apply keeps_bind, holds_quiet; [apply deregister_quiet|].
  eapply wp_mono; [|apply deregister_meta]. intros _ [i1 [e|]] Hm; [by apply keeps_ret|]. cbn [fst] in Hm.
  destruct ok as [k|]; [subst s; apply svc_release_holds; by rewrite Hm|by apply keeps_ret].
Qed.
Lemma svc_reconcileWithClient_holds i k :
  Name (ks_meta i) = name -> KeystoneAPI_IsReady k = true ->
  holds (ServiceController.reconcileWithClient i k) (Some k) (fun _ _ => True).
Proof.
  intros Hn Hk. unfold ServiceController.reconcileWithClient. cbv zeta.
  apply keeps_bind, holds_quiet; [apply GetAdminServiceClient_quiet|]. apply wp_runs.
  intros _ [[os res] [e|]] _; [by apply keeps_ret|].
  case_decide; [by apply keeps_ret|]. destruct (ServiceController.deleting _); [by apply svc_reconcileDelete_holds|].
  destruct os; [by apply svc_reconcileNormal_holds|by apply keeps_ret].
Qed.
Lemma svc_reconcileBody_holds i : Name (ks_meta i) = name -> holds (ServiceController.reconcileBody i) None (fun _ _ => True).
Proof.
  intros Hn. unfold ServiceController.reconcileBody. destruct (ks_Conditions _) as [cs|]; [|by apply keeps_ret].
  destruct (AddFinalizer _ _) as [fs added]. destruct (_ && _); [by apply keeps_ret|].
  unfold ServiceController.reconcileInstance. cbv zeta. apply keeps_bind. eapply keeps_mono; [|apply holds_GetKeystoneAPI].
  intros s [e|k] Hs.
  { destruct (IsNotFound e); [|by apply keeps_ret]. destruct (_ && _);
      [by apply svc_reconcileDelete_holds|by apply keeps_ret]. }
  subst s. destruct (_ && _); [by apply svc_release_holds|]. destruct (_ && _); [by apply svc_reconcileDelete_holds|].
  destruct (KeystoneAPI_IsReady k) eqn:Hk; [by apply svc_reconcileWithClient_holds|by apply keeps_ret].
Qed.

(** The KeystoneService controller is a consumer. *)
Lemma svc_Reconcile_holds ns : holds (ServiceController.Reconcile ns name) None (fun _ _ => True).
Proof.
  unfold ServiceController.Reconcile. apply keeps_call. intros r Hr. split; [done|].
  destruct r as [e|i]; [by apply keeps_ret|]. apply keeps_call. intros [e|] _; (split; [done|]); [by apply keeps_ret|].
  apply keeps_bind. eapply keeps_mono; [|by apply svc_reconcileBody_holds]. intros s [j [res err]] _. cbv zeta.
  apply keeps_call. intros perr _. split; [done|by apply keeps_ret].
Qed.
End service.

(** *** KeystoneEndpoint *)

Lemma deleteSpecEndpoints_quiet os types i : avoids isShared (deleteSpecEndpoints os types i).
Proof. induction types as [|ty l IH]; cbn [deleteSpecEndpoints]; emits_go; auto. Qed.
Lemma releaseService_quiet i : avoids isShared (releaseService i).
Proof. unfold releaseService, removeServiceFinalizer. emits_go. Qed.
Lemma protectService_quiet i s : avoids isShared (protectService i s).
Proof. unfold protectService, addServiceFinalizer. emits_go. Qed.
Lemma reconcileEndpoints_registers os i : avoids isOwners (reconcileEndpoints os i).
Proof.
  assert (forall types i, avoids isOwners (deleteStale os types i)) as Hd.
  { induction types as [|ty l IH]; intros j; cbn [deleteStale]; emits_go; auto. }
  assert (forall types i, avoids isOwners (createOrUpdate os types i)) as Hc.
  { induction types as [|ty l IH]; intros j; cbn [createOrUpdate]; unfold registerEndpoint; emits_go; auto. }
  unfold reconcileEndpoints. emits_go; auto.
Qed.

Section endpoint.
Context (name : string).
Let f : string := endpointFinalizer +:+ "-" +:+ name.
Abbreviation holds := (keeps wellAnswered (consumerRule f)).
Implicit Types i : KeystoneEndpoint.

Lemma ep_reconcileNormal_holds i os k :
  Name (ke_meta i) = name -> KeystoneAPI_IsReady k = true ->
  holds (EndpointController.reconcileNormal i os k) (Some k) (fun _ _ => True).
Proof.
  intros Hn Hk. unfold EndpointController.reconcileNormal. apply keeps_call.
  intros [e|svc] _; (split; [done|]); [by apply keeps_ret|].
  cbv zeta. destruct (negb (KeystoneService_IsReady svc)); [by apply keeps_ret|].
  cbn [learn].
  set (i1 := ke_setStatus (kes_setServiceID _ _) _). assert (Name (ke_meta i1) = name) as Hn1 by (subst i1;
    by destruct (condMirror _ _)).
  clearbody i1. clear i Hn. apply keeps_bind. unfold protectAPI, consumerFinalizer. rewrite Hn1. fold f.
  eapply keeps_mono; [|by apply holds_add]. intros s [e|] Hs; [by apply keeps_ret|].
  destruct (Hs eq_refl) as (k' & -> & Hf). apply keeps_bind, holds_quiet; [apply protectService_quiet|].
  apply wp_runs. intros _ [e|] _; [by apply keeps_ret|].
  apply keeps_bind, holds_registering; [apply reconcileEndpoints_registers|done|].
  intros [i2 [e|]]; by apply keeps_ret.
Qed.
Lemma ep_release_holds i1 i2 i k :
  Name (ke_meta i) = name ->
  holds (err ← releaseAPI i k;
         match err with Some e => mret (i1, failWith e) | None => mret (i2, done_) end) (Some k) (fun _ _ => True).
Proof.
  intros Hn. unfold releaseAPI, consumerFinalizer. rewrite Hn. apply keeps_bind. eapply keeps_mono; [|apply holds_remove].
  intros s [e|] _; by apply keeps_ret.
Qed.
Lemma ep_reconcileDelete_holds i os ok s :
  Name (ke_meta i) = name -> match ok with Some k => s = Some k | None => True end ->
  holds (EndpointController.reconcileDelete i os ok) s (fun _ _ => True).
Proof.
  intros Hn Hk. unfold EndpointController.reconcileDelete. apply keeps_bind, holds_quiet.
  { destruct os; [apply deleteSpecEndpoints_quiet|exact I]. }
  apply wp_runs. intros _ [e|] _; [by apply keeps_ret|]. cbv zeta.
  apply keeps_bind, holds_quiet; [apply releaseService_quiet|]. apply wp_runs. intros _ [e|] _; [by apply keeps_ret|].
  destruct ok as [k|]; [subst s; by apply ep_release_holds|by apply keeps_ret].
Qed.
Lemma ep_reconcileDeleteFinalizersOnly_holds i k :
  Name (ke_meta i) = name -> holds (EndpointController.reconcileDeleteFinalizersOnly i k) (Some k) (fun _ _ => True).
Proof.
  intros Hn. unfold EndpointController.reconcileDeleteFinalizersOnly.
  apply keeps_bind, holds_quiet; [apply releaseService_quiet|]. apply wp_runs. intros _ [e|] _; [by apply keeps_ret|].
  by apply ep_release_holds.
Qed.
Lemma ep_reconcileWithClient_holds i k :
  Name (ke_meta i) = name -> KeystoneAPI_IsReady k = true ->
  holds (EndpointController.reconcileWithClient i k) (Some k) (fun _ _ => True).
Proof.
  intros Hn Hk. unfold EndpointController.reconcileWithClient. cbv zeta.
  apply keeps_bind, holds_quiet; [apply GetAdminServiceClient_quiet|]. apply wp_runs.
  intros _ [[os res] [e|]] _; [by apply keeps_ret|].
  case_decide; [by apply keeps_ret|]. destruct (EndpointController.deleting _); [by apply ep_reconcileDelete_holds|].
  destruct os; [by apply ep_reconcileNormal_holds|by apply keeps_ret].
Qed.
Lemma ep_reconcileBody_holds i : Name (ke_meta i) = name -> holds (EndpointController.reconcileBody i) None (fun _ _ => True).
Proof.
  intros Hn. unfold EndpointController.reconcileBody. destruct (kes_Conditions _) as [cs|]; [|by apply keeps_ret].
  cbv zeta. destruct (AddFinalizer _ _) as [fs added]. destruct (_ && _); [by apply keeps_ret|].
  unfold EndpointController.reconcileInstance. cbv zeta. apply keeps_bind. eapply keeps_mono; [|apply holds_GetKeystoneAPI].
  intros s [e|k] Hs.
  { destruct (IsNotFound e); [|by apply keeps_ret]. destruct (_ && _); [by apply ep_reconcileDelete_holds|by apply keeps_ret]. }
  subst s. destruct (_ && _); [by apply ep_reconcileDeleteFinalizersOnly_holds|].
  destruct (_ && _); [by apply ep_reconcileDelete_holds|].
  destruct (KeystoneAPI_IsReady k) eqn:Hk; [by apply ep_reconcileWithClient_holds|by apply keeps_ret].
Qed.

(** The KeystoneEndpoint controller is a consumer. *)
Lemma ep_Reconcile_holds ns : holds (EndpointController.Reconcile ns name) None (fun _ _ => True).
Proof.
  unfold EndpointController.Reconcile. apply keeps_call. intros r Hr. split; [done|].
  destruct r as [e|i]; [by apply keeps_ret|]. apply keeps_call. intros [e|] _; (split; [done|]); [by apply keeps_ret|].
  apply keeps_bind. eapply keeps_mono; [|by apply ep_reconcileBody_holds]. intros s [j [res err]] _. cbv zeta.
  apply keeps_call. intros perr _. split; [done|by apply keeps_ret].
Qed.
End endpoint.
End consumers.
