(* ===== verification/Ownership.v ===== *)
(** The owner's side of Sharing.v: what the KeystoneAPI controller writes to
    the KeystoneAPI it read, and when it takes Keystone apart. *)
From S2P Require Import Prelude Effects GoTime Api Conditions Instances Workloads Calls External Demo Fernet Pods.
From S2P Require Import KeystoneClient APIController APIJudgements APITheorems Sharing.
Open Scope Z_scope.

Section owner.
Context `{CLaws : ConditionLaws} `{FLaws : FinalizerLaws} `{XL : ExternalLib} `{PL : PodLib} `{KLaws : ControllerLaws}.
Implicit Types (i j k o : KeystoneAPI).

Definition finalizers i : list string := Finalizers (ka_meta i).
Definition deleting i : bool := negb (notDeleting (ka_meta i)).
(** No finalizer but the owner's. *)
Definition released i : Prop := Forall (fun f => f = apiFinalizer) (finalizers i).

(** What is written back of an object that was read as [k]. *)
Definition ownerWrites k o : Prop :=
  (finalizers o = finalizers k /\ (KeystoneAPI_IsReady o = true -> deleting k = false /\ (apiFinalizer ∈ finalizers k))) \/
  (deleting k = false /\ (apiFinalizer ∉ finalizers k) /\ finalizers o = (AddFinalizer apiFinalizer (finalizers k)).1 /\
    KeystoneAPI_IsReady o = false) \/
  (deleting k = true /\ finalizers o = (RemoveFinalizer apiFinalizer (finalizers k)).1 /\ KeystoneAPI_IsReady o = false).

(** The owner writes its object only so, at the end; takes Keystone apart only
    when the object is being deleted and no one else holds it; and registers
    nothing. *)
Definition ownerRule : rule := fun s ev =>
  match ev with
  | Ev c _ =>
      match c with
      | UpdateKeystoneAPI _ => False
      | PatchKeystoneAPI o => exists k, s = Some k /\ ownerWrites k o
      | c => isRegistration _ c = false /\ (isTeardown _ c = true -> exists k, s = Some k /\ deleting k = true /\ released k)
      end
  end.
Abbreviation holds := (keeps wellAnswered ownerRule).

(** ** The calls of the body *)

Definition isOthers (X : Type) (c : Call X) : bool := isAPICall X c || isRegistration X c.
Definition bodyCall k (X : Type) (c : Call X) : Prop :=
  isOthers X c = false /\ (isTeardown X c = true -> deleting k = true /\ released k).

Lemma shared_bodyCall k X (c : Call X) : isShared X c = false -> bodyCall k X c.
Proof. destruct c; try discriminate; intros _; by split. Qed.
Lemma quiet_bodyCall {A} k (m : M A) i : emitsM (fun X c => isShared X c = false) m -> emits (bodyCall k) (m i).
Proof. intros Hm. eapply emits_mono; [apply shared_bodyCall|apply Hm]. Qed.

Lemma reconcileExternal_quiet : emitsM (fun X c => isShared X c = false) reconcileExternalKeystoneAPI.
Proof. eapply emitsM_weaken, api_reconcileExternal_avoids. apply reserved_shared. Qed.

Lemma emits_get {A} P (f : KeystoneAPI -> M A) i : emits P (f i i) -> emits P ((get ≫= f) i).
Proof. done. Qed.
Lemma not_foreign i : foreignFinalizer i = false -> released i.
Proof.
  intros Hf%bool_decide_eq_false_1. apply not_Exists_Forall in Hf; [|solve_decision].
  eapply Forall_impl; [exact Hf|]. cbv beta. intros f. apply dec_stable.
Qed.
Lemma reconcileDelete_calls i k :
  finalizers i = finalizers k -> deleting k = true -> emits (bodyCall k) (reconcileDelete i).
Proof.
  intros Hf Hd. unfold reconcileDelete. apply emits_get. destruct (ka_ExternalKeystoneAPI _).
  { apply quiet_bodyCall. unfold dropFinalizer. emitsM_go. }
  destruct (foreignFinalizer i) eqn:Hff; [exact I|]. apply not_foreign in Hff.
  assert (released k) as Hk by (unfold released; by rewrite <- Hf).
  eapply (emits_mono (fun X c => isOthers X c = false)); [by split|].
  assert (forall m : M ret, emitsM (fun X c => isOthers X c = false) m ->
    emits (fun X c => isOthers X c = false) (m i)) as Hm by auto.
  apply Hm. unfold releaseTopology, releaseMemcached, releaseDB, releaseTransport, dropFinalizer. emitsM_go.
Qed.

(** ** What the body makes of the object *)

Lemma meta_observer : observer (fun _ => true) ka_meta.
Proof. split; try done. intros. unfold RbacConditionsSet. by destruct (condStatus _ _). Qed.

Definition inputUnknown i : Prop := status InputReady i = Some ConditionUnknown.

Lemma init_unknown i : condStatus (condName InputReady) (initConditions i) = Some ConditionUnknown.
Proof.
  assert (condStatus (condName InputReady)
    (CreateList [unknown InputReady "InputReadyInitMessage";
      unknown TLSInputReady "InputReadyInitMessage"]) = Some ConditionUnknown) as Hl.
  { pose proof (CreateList_status [unknown InputReady "InputReadyInitMessage"; unknown TLSInputReady "InputReadyInitMessage"]
      (unknown InputReady "InputReadyInitMessage")) as Hc.
    unfold unknown in *. cbn [fmap list_fmap] in Hc. rewrite !UnknownCondition_type, UnknownCondition_status in Hc.
    apply Hc; [|left]. apply NoDup_cons. split; [|apply NoDup_singleton].
    intros Heq%list_elem_of_singleton%condName_inj. discriminate. }
  unfold initConditions. cbv zeta.
  assert (forall l cs, condStatus (condName InputReady) cs = Some ConditionUnknown ->
    Forall (fun c => c_Status c = ConditionUnknown) l ->
    condStatus (condName InputReady) (foldl (fun cl c => condSet (Some c) cl) cs l) = Some ConditionUnknown) as Hfold.
  { intros l. induction l as [|c l IH]; intros cs Hcs Hall; [done|]. apply Forall_cons in Hall as [Hc Hall].
    apply IH; [|done]. rewrite condSet_status, Hc. by case_decide. }
  assert (forall c m, c_Status (unknown c m) = ConditionUnknown) as Hu by (intros; apply UnknownCondition_status).
  assert (condStatus (condName InputReady) (if ka_ExternalKeystoneAPI (core i) then
    CreateList [unknown InputReady "InputReadyInitMessage"; unknown TLSInputReady "InputReadyInitMessage"]
    else foldl (fun cl c => condSet (Some c) cl)
      (CreateList [unknown InputReady "InputReadyInitMessage";
        unknown TLSInputReady "InputReadyInitMessage"]) internalConditions)
    = Some ConditionUnknown) as Hi.
  { destruct (ka_ExternalKeystoneAPI _); [done|]. apply Hfold; [done|]. unfold internalConditions.
    repeat constructor; apply Hu. }
  destruct (ka_TopologyRef _); [|exact Hi]. rewrite condSet_status, Hu. by case_decide.
Qed.

(** The object as the body enters its branches. *)
Definition entered (fs : list string) k : KeystoneAPI :=
  let i := withCond (fun cs => condInit (initConditions k) (Some (default [] cs))) k in
  ka_setFinalizers fs (ka_setStatus (kas_setObservedGeneration (Generation (ka_meta k)) (ka_status i)) i).
Definition entryFinalizers k : list string * bool :=
  if notDeleting (ka_meta k) then AddFinalizer apiFinalizer (Finalizers (ka_meta k)) else (Finalizers (ka_meta k), false).
Lemma reconcileBody_entered fuel k fs added :
  entryFinalizers k = (fs, added) ->
  reconcileBody fuel k =
    (if added || bool_decide (kas_Conditions (ka_status k) = None) then mret done_
     else if negb (notDeleting (ka_meta k)) then reconcileDelete
     else if ka_ExternalKeystoneAPI (core k) then reconcileExternalKeystoneAPI
     else reconcileNormal fuel) (entered fs k).
Proof.
  unfold entryFinalizers. intros He. unfold reconcileBody.
  transitivity (((let '(fs, added) := if notDeleting (ka_meta k) then AddFinalizer apiFinalizer (Finalizers (ka_meta k))
                      else (Finalizers (ka_meta k), false) in
     modify (ka_setFinalizers fs);;
     if added || bool_decide (kas_Conditions (ka_status k) = None) then mret done_
     else if negb (notDeleting (ka_meta k)) then reconcileDelete
     else if ka_ExternalKeystoneAPI (core k) then reconcileExternalKeystoneAPI
     else reconcileNormal fuel) : M ret)
    (let i := withCond (fun cs => condInit (initConditions k) (Some (default [] cs))) k in
     ka_setStatus (kas_setObservedGeneration (Generation (ka_meta k)) (ka_status i)) i)); [done|].
  rewrite He. done.
Qed.
Lemma entered_unknown fs k : inputUnknown (entered fs k).
Proof.
  change (condStatus (condName InputReady) (condInit (initConditions k) (Some (default [] (kas_Conditions (ka_status k)))))
    = Some ConditionUnknown).
  apply condInit_status; [apply init_unknown|apply condName_Ready].
Qed.
Lemma entryFinalizers_kept k fs :
  entryFinalizers k = (fs, false) -> fs = finalizers k /\ (deleting k = false -> apiFinalizer ∈ finalizers k).
Proof.
  unfold entryFinalizers, deleting, finalizers. destruct (notDeleting (ka_meta k)); [|by intros [= <-]].
  intros He. pose proof (AddFinalizer_flag apiFinalizer (Finalizers (ka_meta k))) as Hfl. rewrite He in Hfl.
  symmetry in Hfl. apply negb_false_iff, bool_decide_eq_true_1 in Hfl. split; [|done].
  by rewrite <- (AddFinalizer_same _ _ Hfl), He.
Qed.
Lemma entryFinalizers_added k fs :
  entryFinalizers k = (fs, true) ->
  deleting k = false /\ (apiFinalizer ∉ finalizers k) /\ fs = (AddFinalizer apiFinalizer (finalizers k)).1.
Proof.
  unfold entryFinalizers, deleting, finalizers. destruct (notDeleting (ka_meta k)); [|done].
  intros He. pose proof (AddFinalizer_flag apiFinalizer (Finalizers (ka_meta k))) as Hfl. rewrite He in *.
  symmetry in Hfl. by apply negb_true_iff, bool_decide_eq_false_1 in Hfl.
Qed.

Lemma reconcileBody_calls fuel k : emits (bodyCall k) (reconcileBody fuel k).
Proof.
  destruct (entryFinalizers k) as [fs added] eqn:He. rewrite (reconcileBody_entered _ _ _ _ He).
  destruct (added || _) eqn:Hadd; [exact I|]. apply orb_false_iff in Hadd as [-> _].
  destruct (entryFinalizers_kept _ _ He) as [-> _].
  destruct (negb (notDeleting (ka_meta k))) eqn:Hd; [by apply reconcileDelete_calls|].
  destruct (ka_ExternalKeystoneAPI _); apply quiet_bodyCall; [apply reconcileExternal_quiet|apply reconcileNormal_quiet].
Qed.

(** The object at the end of the body: as [ownerWrites], with an unknown
    input condition for what is not Ready. *)
Definition outcome k j : Prop :=
  (finalizers j = finalizers k /\ (inputUnknown j \/ deleting k = false /\ (apiFinalizer ∈ finalizers k))) \/
  (deleting k = false /\ (apiFinalizer ∉ finalizers k) /\ finalizers j = (AddFinalizer apiFinalizer (finalizers k)).1 /\
    inputUnknown j) \/
  (deleting k = true /\ finalizers j = (RemoveFinalizer apiFinalizer (finalizers k)).1 /\ inputUnknown j).

(** Started with the finalizers [l], [m] keeps them or drops the owner's. *)
Definition dropsOwn (l : list string) (m : M ret) : Prop := forall j, finalizers j = l ->
  hwp m j (fun _ r => finalizers r.1 = l \/ finalizers r.1 = (RemoveFinalizer apiFinalizer l).1).
Lemma dropsOwn_seq l (m : M unit) n : preserves finalizers m -> dropsOwn l n -> dropsOwn l (m;; n).
Proof.
  intros Hm Hn j Hj. apply hwp_bind. eapply hwp_mono; [|apply Hm]. intros t [j' [e|[]]] _ Hj'; cbn [fst snd] in *.
  - left. congruence.
  - apply Hn. congruence.
Qed.
Lemma reconcileDelete_drops l : dropsOwn l reconcileDelete.
Proof.
  assert (dropsOwn l (dropFinalizer;; mret done_)) as Hdrop by (intros j <- _; by right).
  intros i Hi. unfold reconcileDelete. apply hwp_bind. intros _. cbn [fst snd app]. revert i Hi.
  assert (forall i, dropsOwn l (if ka_ExternalKeystoneAPI (core i) then dropFinalizer;; mret done_
    else if foreignFinalizer i then mret done_
    else releaseTopology i;; releaseMemcached i;; releaseDB i;; releaseTransport i;; dropFinalizer;; mret done_)) as Hall.
  { intros i. destruct (ka_ExternalKeystoneAPI _); [done|]. destruct (foreignFinalizer i); [intros j Hj _; by left|].
    do 4 (apply dropsOwn_seq; [unfold releaseTopology, releaseMemcached, releaseDB, releaseTransport; preserves_go;
      eauto using preserves_failIf|]). exact Hdrop. }
  intros i Hi. by apply Hall.
Qed.

Lemma reconcileBody_outcome fuel k : hwp (reconcileBody fuel) k (fun _ r => outcome k r.1).
Proof.
  destruct (entryFinalizers k) as [fs added] eqn:He. unfold hwp. rewrite (reconcileBody_entered _ _ _ _ He).
  pose proof (entered_unknown fs k) as Hu. assert (finalizers (entered fs k) = fs) as Hf by done.
  set (j := entered fs k) in *. clearbody j. destruct added; cbn [orb].
  { intros _. destruct (entryFinalizers_added _ _ He) as (? & ? & Hfs). right; left. cbn [fst]. by rewrite Hf. }
  destruct (entryFinalizers_kept _ _ He) as [-> Hown].
  destruct (bool_decide _); [intros _; left; split; [done|by left]|].
  destruct (negb (notDeleting (ka_meta k))) eqn:Hd.
  - fold (hwp reconcileDelete j (fun _ r => outcome k r.1)).
    eapply hwp_mono; [|exact (hwp_conj _ _ _ _ (reconcileDelete_drops _ j Hf)
      (reconcileDelete_preserves (status InputReady) (fun _ _ => eq_refl) j))].
    intros t r _ [[Hk|Hdrop] Hs]; [left; split; [done|]; left|right; right; split_and!; [done..|]];
      unfold inputUnknown in *; congruence.
  - assert (hwp (if ka_ExternalKeystoneAPI (core k) then reconcileExternalKeystoneAPI else reconcileNormal fuel) j
      (fun _ r => ka_meta r.1 = ka_meta j)) as Hm.
    { destruct (ka_ExternalKeystoneAPI _); [apply (reconcileExternal_preserves _ meta_observer)
        |apply (reconcileNormal_preserves _ meta_observer fuel (fun _ _ => eq_refl))]. }
    eapply wp_mono; [|exact Hm]. intros t r Hr Hh. specialize (Hr Hh). left. split; [|by right; auto].
    unfold finalizers in *. by rewrite Hr.
Qed.

Lemma finish_writes k j saved :
  outcome k j ->
  ownerWrites k (withCond (fun cs => RestoreLastTransitionTimes (summarizeReady cs) saved) j).
Proof.
  set (o := withCond _ j). assert (finalizers o = finalizers j) as Hf by done.
  assert (KeystoneAPI_IsReady o = true -> ~ inputUnknown j) as Hready.
  { unfold KeystoneAPI_IsReady. subst o. cbn [withCond kas_Conditions kas_setConditions ka_status ka_setStatus].
    rewrite condIsTrue_spec, Restore_status, <- condIsTrue_spec, summarizeReady_Ready. intros Hall Hu.
    apply (condAllSub_true _ _ _ Hall) in Hu; [done|apply condName_Ready]. }
  assert (inputUnknown j -> KeystoneAPI_IsReady o = false) as Hnot by (destruct (KeystoneAPI_IsReady o);
    [by intros ?%Hready|done]).
  intros [[Hk [Hu|Hown]]|[(Hd & Hn & Hk & Hu)|(Hd & Hk & Hu)]]; [left..|right; left|right; right];
    rewrite ?Hf; split_and!; auto; by intros ?%Hready.
Qed.

Lemma bodyCall_obeys k X (c : Call X) x : bodyCall k X c -> learn (Some k) (Ev c x) = Some k /\ ownerRule (Some k) (Ev c x).
Proof.
  intros [Hc Ht]. destruct c; try done; (split; [done|split; [done|]]); intros Hx; exists k; by split; [|apply Ht].
Qed.

(** The KeystoneAPI controller is the owner. *)
Lemma api_Reconcile_holds fuel ns name : holds (Reconcile fuel ns name) None (fun _ _ => True).
Proof.
  unfold Reconcile. apply keeps_call. intros [e|k] _; (split; [done|]); [by apply keeps_ret|].
  apply keeps_call. intros [e|] _; (split; [done|]); [by apply keeps_ret|]. cbv zeta. cbn [learn].
  apply keeps_bind. eapply (keeps_mono _ _ _ _ (fun s r => outcome k r.1 /\ s = Some k)).
  - intros s [j out] [Ho ->]. cbn [fst] in Ho.
    assert (forall r, holds (r ← finish (Some (default [] (kas_Conditions (ka_status k)))) j r; mret (inr r : exit + ret))
      (Some k) (fun _ _ => True)) as Hf.
    { intros r. unfold finish. intros perr. split; [|done]. split; [|done]. exists k. split; [done|]. by apply finish_writes. }
    destruct out as [[r| |]|r]; [apply Hf|by apply keeps_ret..|apply Hf].
  - pose proof (keeps_emits wellAnswered ownerRule _ _ (Some k) (reconcileBody_calls fuel k)) as Hcalls.
    eapply wp_mono; [|exact (wp_conj _ _ _ (reconcileBody_outcome fuel k) (Hcalls (bodyCall_obeys k)))].
    cbv beta. intros t r [Ho Hk] Ht. destruct (Hk Ht) as [? ?]. split_and!; [done|by apply Ho, wellAnswered_honest|done].
Qed.
End owner.
