(* ===== verification/Teardown.v ===== *)
(** The controllers together: reconciles of the KeystoneAPI, of every
    KeystoneService and of every KeystoneEndpoint interleaved call by call, over
    one KeystoneAPI in the API server, with caches that lag behind, lost
    answers, crashes and a user who creates, edits and deletes the object.
    When the caches are [coherent], Keystone is never taken apart under a
    consumer that has registered something in it; when they are not, a consumer
    may register unprotected. *)
From stdpp Require Import relations functions.
From S2P Require Import Prelude Effects GoTime Api Conditions Instances Workloads Calls External Demo Fernet Pods.
From S2P Require Import KeystoneClient EndpointController ServiceController APIController APIJudgements APITheorems.
From S2P Require Import Sharing Ownership.

(** ** Prefixes of exchanges *)

Lemma prefix_extends {A} (p : program A) t :
  runs_prefix p t -> exists u a, runs p (t ++ u) a /\ forall X (c : Call X) x, Ev c x ∈ u -> x = (nullHandler X c tt).1.
Proof.
  revert t; induction p as [a|X e k IH]; intros t [->|Hp]; [|done| |].
  - exists [], a. split; [done|]. intros X c x Hin. by apply not_elem_of_nil in Hin.
  - exists (traceWith nullHandler (Vis e k)), (resultWith nullHandler (Vis e k)).
    split; [apply runsWith|]. intros Y c x. apply traceWith_answers.
  - destruct Hp as (x & t' & -> & Hp). destruct (IH x t' Hp) as (u & a & Hr & Hu). exists u, a. split; [|done].
    exists x, (t' ++ u). by split.
Qed.

Lemma nullHandler_wellAnswered `{ControllerLib} X (c : Call X) : wellAnswered (Ev c (nullHandler X c tt).1).
Proof. destruct c; try done. apply Forall_nil. done. Qed.

(** What a program keeps to, it keeps to at every event of a prefix. *)
Lemma keeps_prefix `{ControllerLib} {A} R (p : program A) s t ev :
  keeps wellAnswered R p s (fun _ _ => True) -> runs_prefix p (t ++ [ev]) -> Forall wellAnswered (t ++ [ev]) ->
  R (learned s t) ev.
Proof.
  intros Hk (u & a & Hr & Hu)%prefix_extends Ht. apply (keeps_runs _ _ _ _ _ _ Hk) in Hr.
  - rewrite !obeys_app in Hr. by destruct Hr as [[_ [HR _]] _].
  - apply Forall_app. split; [done|]. apply Forall_forall. intros [X c x] Hin%Hu. subst x. apply nullHandler_wellAnswered.
Qed.

(** ** The controllers as threads *)

Inductive thread := APIThread | ServiceThread (name : string) | EndpointThread (name : string).
#[export] Instance thread_eq_dec : EqDecision thread.
Proof. solve_decision. Defined.

(** The KeystoneAPI in the API server ([cur]) and the versions of it the cache
    of a thread may still serve ([past]); whether Keystone has been taken apart
    under this KeystoneAPI; and which consumers have registered something in
    Keystone and not given their finalizer up since. *)
Record Cluster := mkCluster {
  cur : option KeystoneAPI;
  past : thread -> list KeystoneAPI;
  torn : bool;
  engaged : thread -> bool
}.
Definition emptyCluster : Cluster := mkCluster None (fun _ => []) false (fun _ => false).

(** An object that is being deleted is gone with its last finalizer. *)
Definition settle (k : KeystoneAPI) : option KeystoneAPI :=
  if deleting k && bool_decide (finalizers k = []) then None else Some k.
Definition setTorn (b : bool) (w : Cluster) : Cluster := mkCluster (cur w) (past w) b (engaged w).
Definition setEngaged (τ : thread) (b : bool) (w : Cluster) : Cluster :=
  mkCluster (cur w) (past w) (torn w) (<[τ := b]> (engaged w)).

(** The API server takes no new finalizer on an object that is being deleted. *)
Definition admitted (c o : KeystoneAPI) : Prop := deleting c = true -> forall f, f ∈ finalizers o -> f ∈ finalizers c.

Definition conditions (k : KeystoneAPI) : Conditions := kas_Conditions (ka_status k).
(** [c'] is [c] after the patch with the difference of [s] and [o], a merge
    patch that replaces a list as a whole; it comes in two requests, for the
    metadata ([m]) and the status ([st]).  The other fields are anything. *)
Definition patched (m st : bool) (s o c c' : KeystoneAPI) : Prop :=
  DeletionTimestamp (ka_meta c') = DeletionTimestamp (ka_meta c) /\
  finalizers c' = (if m && negb (bool_decide (finalizers o = finalizers s)) then finalizers o else finalizers c) /\
  conditions c' = (if st && negb (bool_decide (conditions o = conditions s)) then conditions o else conditions c).

Section controllers.
Context `{CLaws : ConditionLaws} `{FLaws : FinalizerLaws} `{XL : ExternalLib} `{PL : PodLib} `{KLaws : ControllerLaws}.
Context (coherent : bool) (namespace crName : string).

Definition finalizerOf (τ : thread) : string :=
  match τ with
  | APIThread => apiFinalizer
  | ServiceThread n => serviceFinalizer +:+ "-" +:+ n
  | EndpointThread n => endpointFinalizer +:+ "-" +:+ n
  end.
Definition carried (τ : thread) (r : option KeystoneAPI) : bool :=
  match r with Some k => bool_decide (finalizerOf τ ∈ finalizers k) | None => false end.
(** The write of a thread that removes its finalizer, or that of the owner that
    adds it. *)
Definition decisive (τ : thread) (before after : option KeystoneAPI) : bool :=
  if carried τ before then negb (carried τ after) else bool_decide (τ = APIThread) && carried τ after.
(** A write: every cache may serve it from then on, and any older version too.
    In a [coherent] cluster the cache of a thread that wrote a decisive version
    serves nothing older to that thread. *)
Definition publish (writer : option thread) (k : option KeystoneAPI) (w : Cluster) : Cluster :=
  mkCluster k
    (fun τ => if coherent && bool_decide (writer = Some τ) && decisive τ (cur w) k then option_list k
              else past w τ ++ option_list k)
    (torn w) (engaged w).

(** What a thread may have exchanged so far. *)
Definition prefixOf (τ : thread) (t : trace) : Prop :=
  match τ with
  | APIThread => exists fuel, runs_prefix (APIController.Reconcile fuel namespace crName) t
  | ServiceThread n => runs_prefix (ServiceController.Reconcile namespace n) t
  | EndpointThread n => runs_prefix (EndpointController.Reconcile namespace n) t
  end.

(** One call of a thread that knows [s], and its answer. *)
Inductive exchange (τ : thread) (s : option KeystoneAPI) (w : Cluster) : event Call -> Cluster -> Prop :=
| ex_other X (c : Call X) x : isShared X c = false -> wellAnswered (Ev c x) -> exchange τ s w (Ev c x) w
(* reads, from the cache *)
| ex_get ns n r : (forall k, r = inr k -> k ∈ past w τ) -> exchange τ s w (Ev (GetKeystoneAPICR ns n) r) w
| ex_list ns labels r :
    (forall l k, r = inr l -> k ∈ l -> k ∈ past w τ) -> exchange τ s w (Ev (ListKeystoneAPIs ns labels) r) w
(* an update goes through on the version it was made from; its answer may be lost *)
| ex_update o err k :
    cur w = Some k -> s = Some k -> admitted k o ->
    exchange τ s w (Ev (UpdateKeystoneAPI o) err)
      (setEngaged τ (engaged w τ && bool_decide (finalizerOf τ ∈ finalizers o)) (publish (Some τ) (settle o) w))
| ex_update_refused o e : exchange τ s w (Ev (UpdateKeystoneAPI o) (Some e)) w
(* a patch goes through on any version, or in part *)
| ex_patch o err v c c' m st :
    s = Some v -> cur w = Some c -> patched m st v o c c' -> admitted c c' -> (err = None -> m = true /\ st = true) ->
    exchange τ s w (Ev (PatchKeystoneAPI o) err) (publish (Some τ) (settle c') w)
(* a patch that is refused, or that has nothing of this to change *)
| ex_patch_none o err :
    (err = None -> exists v, s = Some v /\ finalizers o = finalizers v /\ conditions o = conditions v) ->
      exchange τ s w (Ev (PatchKeystoneAPI o) err) w
| ex_teardown X (c : Call X) x : isTeardown X c = true -> exchange τ s w (Ev c x) (setTorn true w)
| ex_register X (c : Call X) x : isRegistration X c = true -> exchange τ s w (Ev c x) (setEngaged τ true w).

(** A user creates the object (without the finalizers of the controllers), or
    edits it, or deletes it. *)
Definition created (k : KeystoneAPI) : Prop :=
  deleting k = false /\ conditions k = None /\ forall τ, finalizerOf τ ∉ finalizers k.
Definition edited (k k' : KeystoneAPI) : Prop :=
  deleting k' = deleting k /\ conditions k' = conditions k /\ admitted k k' /\
  forall τ, finalizerOf τ ∈ finalizers k' <-> finalizerOf τ ∈ finalizers k.
Definition markedDeleted (k k' : KeystoneAPI) : Prop :=
  deleting k' = true /\ conditions k' = conditions k /\ finalizers k' = finalizers k.

(** The cluster, and for each thread the exchange of the reconcile it is in. *)
Abbreviation Config := (Cluster * (thread -> option trace))%type.
Inductive step : Config -> Config -> Prop :=
| st_start w l τ : l τ = None -> step (w, l) (w, <[τ := Some []]> l)
| st_exchange w l τ t ev w' :
    l τ = Some t -> prefixOf τ (t ++ [ev]) -> exchange τ (learned None t) w ev w' ->
    step (w, l) (w', <[τ := Some (t ++ [ev])]> l)
(* the reconcile is over, or the process dies *)
| st_stop w l τ t : l τ = Some t -> step (w, l) (w, <[τ := None]> l)
| st_create w l k : cur w = None -> created k -> step (w, l) (setTorn false (publish None (Some k) w), l)
| st_edit w l k k' : cur w = Some k -> edited k k' -> step (w, l) (publish None (settle k') w, l)
| st_delete w l k k' : cur w = Some k -> markedDeleted k k' -> step (w, l) (publish None (settle k') w, l).

Definition idle : thread -> option trace := fun _ => None.
Definition reachable (c : Config) : Prop := rtc step (emptyCluster, idle) c.

(** The rule a thread follows. *)
Definition ruleOf (τ : thread) : rule :=
  match τ with APIThread => ownerRule | _ => consumerRule (finalizerOf τ) end.
Lemma thread_obeys τ t ev : prefixOf τ (t ++ [ev]) -> Forall wellAnswered (t ++ [ev]) -> ruleOf τ (learned None t) ev.
Proof.
  destruct τ as [|n|n]; cbn [prefixOf ruleOf].
  - intros [fuel Hp]. apply keeps_prefix with (1 := api_Reconcile_holds fuel namespace crName) (2 := Hp).
  - apply keeps_prefix, svc_Reconcile_holds.
  - apply keeps_prefix, ep_Reconcile_holds.
Qed.

(** ** The invariant of the cluster *)

Section invariant.
Context (Hdistinct : Inj (=) (=) finalizerOf) (Hcoherent : coherent = true).
Implicit Types (w : Cluster) (c k o v : KeystoneAPI).

Definition carries τ k : Prop := finalizerOf τ ∈ finalizers k.
Definition held τ w : Prop := exists c, cur w = Some c /\ carries τ c.
Definition consumed k : Prop := exists τ, τ <> APIThread /\ carries τ k.

(** Of every version: deleting, it has finalizers; else, when it is ready or
    used, the owner's finalizer is on it. *)
Definition wf k : Prop :=
  (deleting k = true -> finalizers k <> []) /\
  (deleting k = false -> KeystoneAPI_IsReady k = true \/ consumed k -> carries APIThread k).

Record safe w : Prop := {
  safe_cur c : cur w = Some c -> wf c;
  safe_past τ k : k ∈ past w τ -> wf k;
  (* what a consumer may still read of its finalizer is true *)
  safe_consumer τ k : τ <> APIThread -> k ∈ past w τ -> carries τ k -> held τ w;
  (* and the owner of its own, and of a deletion and who uses the object then *)
  safe_owner k : k ∈ past w APIThread -> carries APIThread k <-> held APIThread w;
  safe_deleting k : k ∈ past w APIThread -> carries APIThread k -> deleting k = true ->
    exists c, cur w = Some c /\ deleting c = true /\ forall τ, τ <> APIThread -> carries τ c -> carries τ k;
  safe_engaged τ : τ <> APIThread -> engaged w τ = true -> held τ w;
  safe_torn : torn w = true -> (forall c, cur w = Some c -> deleting c = true) /\ forall τ, τ <> APIThread -> ~ held τ w
}.

(** A write of [writer] that turns [c] into [o]. *)
Record moves (writer : option thread) c o : Prop := {
  mv_others τ : writer <> Some τ -> carries τ o <-> carries τ c;
  mv_deleting : deleting c = true -> deleting o = true;
  mv_admitted : admitted c o;
  mv_owned : deleting o = false -> KeystoneAPI_IsReady o = true \/ consumed o -> carries APIThread o
}.

Lemma settle_Some k o : settle k = Some o -> o = k /\ (deleting k = true -> finalizers k <> []).
Proof.
  unfold settle. destruct (deleting k && bool_decide (finalizers k = [])) eqn:Hs; [done|]. intros [= <-]. split; [done|].
  intros Hd Hf. rewrite Hd, bool_decide_eq_true_2 in Hs by done. done.
Qed.
Lemma settle_carries τ k : carries τ k -> settle k = Some k.
Proof.
  unfold settle, carries. intros Hin. destruct (finalizers k); [by apply not_elem_of_nil in Hin|].
  by rewrite bool_decide_eq_false_2, andb_false_r.
Qed.
Lemma held_settle τ writer k w : held τ (publish writer (settle k) w) <-> carries τ k.
Proof.
  split.
  - intros (c & Hc & Hin). by apply settle_Some in Hc as [-> _].
  - intros Hk. exists k. split; [by apply (settle_carries τ)|done].
Qed.
Lemma held_cur τ w c : cur w = Some c -> held τ w <-> carries τ c.
Proof. intros Hc. split; [|by exists c]. intros (d & Hd & ?). congruence. Qed.

Lemma past_publish τ writer r k w :
  k ∈ past (publish writer r w) τ -> r = Some k \/ k ∈ past w τ /\ (writer = Some τ -> decisive τ (cur w) r = false).
Proof.
  assert (k ∈ option_list r -> r = Some k) as Hr.
  { destruct r as [j|]; [by intros ->%list_elem_of_singleton|by intros ?%not_elem_of_nil]. }
  cbn [publish past]. rewrite Hcoherent. destruct (bool_decide_reflect (writer = Some τ)) as [Hw|Hw]; cbn [andb].
  - destruct (decisive τ (cur w) r); [by left; apply Hr|]. intros [?|?]%elem_of_app; [by right|left; by apply Hr].
  - intros [?|?]%elem_of_app; [by right|left; by apply Hr].
Qed.
Lemma past_kept τ writer r w : writer <> Some τ -> past (publish writer r w) τ = past w τ ++ option_list r.
Proof. intros Hw. cbn [publish past]. by rewrite (bool_decide_eq_false_2 (writer = Some τ)), andb_false_r. Qed.

(** What a thread may still read of its own finalizer after a write. *)
Lemma carried_held τ w : carried τ (cur w) = true <-> held τ w.
Proof.
  unfold held. destruct (cur w) as [c|]; cbn [carried]; [|split; [done|by intros (? & ? & _)]].
  rewrite bool_decide_eq_true. split; [by exists c|by intros (d & [= <-] & ?)].
Qed.
Lemma held_kept τ writer c o w :
  cur w = Some c -> moves writer c o -> (writer = Some τ -> decisive τ (cur w) (settle o) = false) ->
  (held τ w -> held τ (publish writer (settle o) w)) /\
  (τ = APIThread -> held τ (publish writer (settle o) w) -> held τ w).
Proof.
  intros Hc Hm Hdec. destruct (decide (writer = Some τ)) as [Hw|Hw].
  - specialize (Hdec Hw). unfold decisive in Hdec. rewrite <- !carried_held. cbn [publish cur].
    destruct (carried τ (cur w)); [by destruct (carried τ (settle o))|]. split; [done|]. intros ->.
    rewrite bool_decide_eq_true_2 in Hdec by done. cbn [andb] in Hdec. by rewrite Hdec.
  - rewrite held_settle, (held_cur _ _ _ Hc), (mv_others _ _ _ Hm) by done. by split.
Qed.

Lemma publish_safe writer c o w :
  safe w -> cur w = Some c -> moves writer c o ->
  (forall τ, writer = Some τ -> τ <> APIThread -> engaged w τ = true -> carries τ o) ->
  safe (publish writer (settle o) w).
Proof.
  intros Hs Hc Hm Heng. pose proof Hm as [Ho Hd Ha How].
  assert (forall k, settle o = Some k -> wf k) as Hwf by (intros k [-> Hne]%settle_Some; by split).
  split; cbn [cur torn engaged publish].
  - exact Hwf.
  - intros τ k [Hk|[Hk _]]%past_publish; [by apply Hwf|by eapply safe_past].
  - intros τ k Hτ [Hk|[Hk Hdec]]%past_publish Hin; [by exists k|]. apply (held_kept τ _ c o w Hc Hm Hdec).
    by eapply safe_consumer.
  - intros k [Hk|[Hk Hdec]]%past_publish.
    + apply settle_Some in Hk as [-> _]. by rewrite held_settle.
    + destruct (held_kept APIThread _ c o w Hc Hm Hdec) as [K1 K2]. rewrite (safe_owner _ Hs k Hk). split; [done|by apply K2].
  - intros k [Hk|[Hk Hdec]]%past_publish Hown Hdel.
    + exists k. apply settle_Some in Hk as [-> _]. split_and!; [by apply (settle_carries APIThread)|done|done].
    + destruct (safe_deleting _ Hs k Hk Hown Hdel) as (d & Hd' & Hdd & Hall). assert (d = c) as -> by congruence.
      exists o. split_and!; [|by apply Hd|intros τ Hτ Hin; apply Hall; [done|by apply Ha]].
      apply (settle_carries APIThread), (held_settle APIThread writer o w), (held_kept APIThread _ c o w Hc Hm Hdec).
      by apply (safe_owner _ Hs k).
  - intros τ Hτ He. destruct (decide (writer = Some τ)) as [Hw|Hw]; [apply held_settle; by apply Heng|].
    apply (held_kept τ _ c o w Hc Hm); [done|]. by eapply safe_engaged.
  - intros Ht. destruct (safe_torn _ Hs Ht) as [Htc Hth]. split.
    + intros k [-> _]%settle_Some. by apply Hd, Htc.
    + intros τ Hτ Hh%held_settle. apply (Hth τ Hτ), (held_cur _ _ _ Hc). apply Ha; [by apply Htc|done].
Qed.
Lemma setEngaged_safe τ b w : safe w -> (b = true -> τ <> APIThread -> held τ w) -> safe (setEngaged τ b w).
Proof.
  intros [? ? ? ? ? He ?] Hb. split; try done. cbn [engaged setEngaged]. intros σ Hσ.
  destruct (decide (σ = τ)) as [->|Hne]; [rewrite fn_lookup_insert; intros ->; by apply Hb|].
  rewrite fn_lookup_insert_ne by done. by apply He.
Qed.
Lemma setTorn_safe w :
  safe w -> (forall c, cur w = Some c -> deleting c = true) -> (forall τ, τ <> APIThread -> ~ held τ w) ->
    safe (setTorn true w).
Proof. intros [] Hd Hh. by split. Qed.

(** *** The user *)

Lemma creation_safe k w : safe w -> cur w = None -> created k -> safe (setTorn false (publish None (Some k) w)).
Proof.
  intros Hs Hc (Hd & Hcond & Hf).
  assert (forall τ, ~ held τ w) as Hno by (intros τ (c & Hc' & _); congruence).
  assert (wf k) as Hk.
  { split; [by rewrite Hd|]. intros _ [Hr|(τ & _ & Hτ)]; [|by apply Hf in Hτ]. unfold KeystoneAPI_IsReady in Hr.
    unfold conditions in Hcond. rewrite Hcond, condIsTrue_spec in Hr. apply bool_decide_eq_true_1 in Hr.
    discriminate. }
  split; cbn [cur torn engaged publish setTorn].
  - by intros c [= <-].
  - intros τ j [[= <-]|[Hj _]]%past_publish; [done|by eapply safe_past].
  - intros τ j Hτ [[= <-]|[Hj _]]%past_publish Hin; [by apply Hf in Hin|].
    by apply (safe_consumer _ Hs _ _ Hτ Hj), Hno in Hin.
  - intros j Hj. split.
    + intros Hin. apply past_publish in Hj as [[= <-]|[Hj _]]; [by apply Hf in Hin|].
      by apply (safe_owner _ Hs _ Hj), Hno in Hin.
    + intros (c & [= <-] & Hin). by apply Hf in Hin.
  - intros j [[= <-]|[Hj _]]%past_publish Hin; [by apply Hf in Hin|]. by apply (safe_owner _ Hs _ Hj), Hno in Hin.
  - intros τ Hτ He. by apply (safe_engaged _ Hs _ Hτ), Hno in He.
  - done.
Qed.

Lemma ready_conditions k k' : conditions k' = conditions k -> KeystoneAPI_IsReady k' = KeystoneAPI_IsReady k.
Proof. unfold KeystoneAPI_IsReady, conditions. by intros ->. Qed.
Lemma edited_moves c o : wf c -> edited c o -> moves None c o.
Proof.
  intros [_ Hwf] (Hd & Hcond & Ha & Hf). split; [intros τ _; apply Hf|by rewrite Hd|done|].
  rewrite Hd, (ready_conditions _ _ Hcond). intros Hdel Huse. apply Hf, Hwf; [done|].
  destruct Huse as [?|(τ & ? & ?)]; [by left|right]. exists τ. by split; [|apply Hf].
Qed.
Lemma markedDeleted_moves c o : markedDeleted c o -> moves None c o.
Proof. intros (Hd & Hcond & Hf). unfold carries. split; unfold admitted, carries;
    [by rewrite Hf|done|by rewrite Hf|by rewrite Hd]. Qed.

(** *** A consumer *)

Lemma consumer_moves τ c o err :
  τ <> APIThread -> wf c -> admitted c o -> consumerRule (finalizerOf τ) (Some c) (Ev (UpdateKeystoneAPI o) err) ->
  moves (Some τ) c o.
Proof.
  intros Hτ [_ Hwf] Ha (k & [= <-] & Ho).
  assert (forall σ, Some τ <> Some σ -> carries σ o <-> carries σ c) as Hothers.
  { intros σ Hne. unfold carries, finalizers.
    assert (finalizerOf σ <> finalizerOf τ) by (intros Heq; apply Hne; f_equal; symmetry; by apply Hdistinct).
    destruct Ho as [[_ ->]| ->]; cbn; [rewrite AddFinalizer_elem|rewrite RemoveFinalizer_elem]; tauto. }
  assert (deleting o = deleting c) as Hd by (by destruct Ho as [[_ ->]| ->]).
  assert (KeystoneAPI_IsReady o = KeystoneAPI_IsReady c) as Hr by (by destruct Ho as [[_ ->]| ->]).
  split; [done|by rewrite Hd|done|]. rewrite Hd, Hr. intros Hdel Huse. apply Hothers; [congruence|]. apply Hwf; [done|].
  destruct Huse as [?|(σ & Hσ & Hin)]; [by left|]. destruct (decide (σ = τ)) as [->|Hne].
  - destruct Ho as [[? ->]| ->]; [by left|]. unfold carries, finalizers in Hin. cbn in Hin.
    apply RemoveFinalizer_elem in Hin as [[] _]. done.
  - right. exists σ. split; [done|]. apply Hothers; [congruence|done].
Qed.

(** *** The owner *)

(** When the patch changes the finalizers, the owner's come or go and the
    consumers' are those of the object. *)
Lemma owner_finalizers w v o c :
  safe w -> v ∈ past w APIThread -> cur w = Some c -> ownerWrites v o -> finalizers o <> finalizers v ->
  (deleting c = true -> forall f, f ∈ finalizers o -> f ∈ finalizers c) ->
  (forall τ, τ <> APIThread -> carries τ o <-> carries τ c) /\ (deleting c = false -> carries APIThread o) /\
  KeystoneAPI_IsReady o = false.
Proof.
  intros Hs Hv Hc Hw Hne Ha. pose proof (safe_cur _ Hs _ Hc) as [_ Hwf]. pose proof (safe_past _ Hs _ _ Hv) as [_ Hwfv].
  pose proof (safe_owner _ Hs _ Hv) as Hown. rewrite (held_cur _ _ _ Hc) in Hown.
  assert (forall τ, τ <> APIThread -> finalizerOf τ <> apiFinalizer) as Hd.
  { intros τ Hτ Heq. apply Hτ. by apply Hdistinct. }
  destruct Hw as [[Hf _]|[(Hdel & Hno & Hf & Hr)|(Hdel & Hf & Hr)]]; [done|..]; unfold carries in *; cbn [finalizerOf] in *.
  - assert (apiFinalizer ∈ finalizers o) as Hino by (rewrite Hf; apply AddFinalizer_elem; by left).
    destruct (deleting c) eqn:Hdc; [exfalso; by apply Hno, Hown, Ha|]. split_and!; [|done|done].
    intros τ Hτ. rewrite Hf, AddFinalizer_elem. split.
    + intros [Heq|Hin]; [by apply Hd in Heq|]. exfalso. apply Hno, Hwfv; [done|]. right. by exists τ.
    + intros Hin. exfalso. apply Hno, Hown, Hwf; [done|]. right. by exists τ.
  - assert (apiFinalizer ∈ finalizers v) as Hin.
    { destruct (decide (apiFinalizer ∈ finalizers v)); [done|]. exfalso. apply Hne. rewrite Hf. by apply RemoveFinalizer_same. }
    destruct (safe_deleting _ Hs _ Hv Hin Hdel) as (d & Hd' & Hdd & Hall). assert (d = c) as -> by congruence.
    split_and!; [|by rewrite Hdd|done]. intros τ Hτ. split; [by apply Ha|]. intros Hc'. rewrite Hf. apply RemoveFinalizer_elem.
    split; [by apply Hd|by apply Hall].
Qed.
Lemma owner_moves w v o c c' m st :
  safe w -> v ∈ past w APIThread -> cur w = Some c -> ownerWrites v o -> patched m st v o c c' -> admitted c c' ->
  moves (Some APIThread) c c'.
Proof.
  intros Hs Hv Hc Hw (Hts & Hf & Hcond) Ha.
  assert (deleting c' = deleting c) as Hd by (unfold deleting, notDeleting; by rewrite Hts).
  pose proof (safe_cur _ Hs _ Hc) as [_ Hwf].
  assert (KeystoneAPI_IsReady c' = true -> KeystoneAPI_IsReady c = true \/ KeystoneAPI_IsReady o = true) as Hr.
  { unfold KeystoneAPI_IsReady. unfold conditions in Hcond. rewrite Hcond. destruct (st && _); [by right|by left]. }
  assert (finalizers c' = finalizers c \/ finalizers o <> finalizers v /\ finalizers c' = finalizers o) as [Hk|[Hne Hk]].
  { rewrite Hf. destruct m; cbn [andb]; [|by left].
    destruct (bool_decide_reflect (finalizers o = finalizers v)); [by left|right; by split]. }
  - unfold carries in *. split; [intros τ _; unfold carries; by rewrite Hk|by rewrite Hd|done|].
    rewrite Hd. unfold consumed, carries. rewrite Hk. intros Hdel Huse. destruct Huse as [[Hrc|Hro]%Hr|Hu];
      [apply Hwf; [done|by left]| |apply Hwf; [done|by right]].
    destruct Hw as [[_ Hown]|[(_ & _ & _ & ?)|(_ & _ & ?)]]; [|congruence..].
    destruct (Hown Hro) as [_ Hin]. apply (held_cur APIThread _ _ Hc). by apply (safe_owner _ Hs v).
  - unfold admitted in Ha. rewrite Hk in Ha. destruct (owner_finalizers _ _ _ _ Hs Hv Hc Hw Hne Ha) as (Hoth & Hown & Hro).
    assert (forall τ, carries τ c' <-> carries τ o) as Hco by (intros τ; unfold carries; by rewrite Hk).
    split; [intros τ Hτ; rewrite Hco; apply Hoth; congruence|by rewrite Hd|unfold admitted; by rewrite Hk|].
    rewrite Hd. intros Hdel _. by apply Hco, Hown.
Qed.

(** *** One exchange *)

(** What a thread knows is of use: a consumer's finalizer is there, and the
    owner's version is one its cache may serve. *)
Definition informed τ (s : option KeystoneAPI) w : Prop := forall k, s = Some k ->
  if decide (τ = APIThread) then k ∈ past w APIThread else carries τ k -> held τ w.

Lemma exchange_wellAnswered τ s w ev w' : exchange τ s w ev w' -> wellAnswered ev.
Proof. intros []; try done; destruct c; done. Qed.

Lemma informed_past τ k w : safe w -> k ∈ past w τ -> informed τ (Some k) w.
Proof. intros Hs Hk ? [= <-]. case_decide as Hτ; [by subst τ|]. by apply (safe_consumer _ Hs). Qed.

Lemma rule_update τ s o err :
  ruleOf τ s (Ev (UpdateKeystoneAPI o) err) ->
  τ <> APIThread /\ consumerRule (finalizerOf τ) s (Ev (UpdateKeystoneAPI o) err).
Proof. by destruct τ. Qed.
Lemma rule_patch τ s o err :
  ruleOf τ s (Ev (PatchKeystoneAPI o) err) -> τ = APIThread /\ exists k, s = Some k /\ ownerWrites k o.
Proof. by destruct τ. Qed.
Lemma rule_teardown τ s X (c : Call X) x :
  isTeardown X c = true -> ruleOf τ s (Ev c x) ->
  τ = APIThread /\ exists k, s = Some k /\ deleting k = true /\ released k.
Proof.
  intros Hc. destruct τ; destruct c; try discriminate Hc; intros [Hn Ht]; by first [discriminate Hn|split; [|apply Ht]].
Qed.
Lemma rule_registration τ s X (c : Call X) x :
  isRegistration X c = true -> ruleOf τ s (Ev c x) -> τ <> APIThread /\ exists k, s = Some k /\ carries τ k.
Proof.
  intros Hc. destruct τ; destruct c; try discriminate Hc; intros [Hn Ht]; by first [discriminate Hn|split; [|apply Ht]].
Qed.

Lemma informed_publish τ writer c o w s :
  cur w = Some c -> moves writer c o -> writer <> Some τ -> informed τ s w -> informed τ s (publish writer (settle o) w).
Proof.
  intros Hc Hm Hτ Hi k Hk. specialize (Hi k Hk). case_decide as Ha.
  - rewrite past_kept by congruence. apply elem_of_app. by left.
  - intros Hin. apply held_settle, (mv_others _ _ _ Hm); [done|]. apply (held_cur _ _ _ Hc). by apply Hi.
Qed.
Lemma informed_created τ k w s : cur w = None -> informed τ s w -> informed τ s (setTorn false (publish None (Some k) w)).
Proof.
  intros Hc Hi j Hj. specialize (Hi j Hj). case_decide.
  - change (j ∈ past (publish None (Some k) w) APIThread). rewrite past_kept by done. apply elem_of_app. by left.
  - intros (c & Hc' & _)%Hi. congruence.
Qed.

(** The owner only takes apart what is being deleted and not held. *)
Lemma teardown_unheld k w :
  safe w -> k ∈ past w APIThread -> deleting k = true -> released k ->
  (forall c, cur w = Some c -> deleting c = true) /\ forall τ, τ <> APIThread -> ~ held τ w.
Proof.
  intros Hs Hk Hd Hrel. pose proof (safe_past _ Hs _ _ Hk) as [Hne _]. specialize (Hne Hd).
  assert (carries APIThread k) as Hown.
  { unfold carries, released in *. destruct (finalizers k) as [|f l]; [done|]. apply Forall_cons in Hrel as [-> _]. left. }
  destruct (safe_deleting _ Hs _ Hk Hown Hd) as (c & Hc & Hdc & Hall). split; [intros c' Hc'; congruence|].
  intros τ Hτ Hin%(held_cur _ _ _ Hc). apply Hall in Hin; [|done]. unfold released in Hrel. rewrite Forall_forall in Hrel.
  apply Hrel in Hin. by apply Hτ, Hdistinct.
Qed.

Lemma exchange_safe τ s w ev w' :
  safe w -> ruleOf τ s ev -> informed τ s w -> exchange τ s w ev w' ->
  safe w' /\ informed τ (learn s ev) w' /\
  (forall σ s', σ <> τ -> informed σ s' w -> informed σ s' w').
Proof.
  intros Hs HR Hi Hx. destruct Hx as [X c x Hc _|ns n r Hr|ns ls r Hr|o err k Hc -> Ha|o e|o err v c c' m st -> Hc Hp Ha He
    |o err _|X c x Ht|X c x Hg].
  - split_and!; [done| |done]. by destruct c.
  - split_and!; [done| |done]. destruct r as [e|k]; [done|]. by apply informed_past, Hr.
  - split_and!; [done| |done]. destruct r as [e|[|k [|? ?]]]; try done. apply informed_past, (Hr [k]); [done|done|left].
  - apply rule_update in HR as [Hτ HR].
    assert (moves (Some τ) k o) as Hm by (apply (consumer_moves _ _ _ err); [done|by eapply safe_cur|done|done]).
    set (b := engaged w τ && _). change (setEngaged τ b (publish (Some τ) (settle o) w)) with (publish (Some τ) (settle o) (setEngaged τ b w)).
    assert (b = true -> engaged w τ = true /\ carries τ o) as Hb by (intros [? ?%bool_decide_eq_true_1]%andb_true_iff; done).
    split_and!.
    + apply (publish_safe _ k); [|done|done|].
      * apply setEngaged_safe; [done|]. intros [He _]%Hb ?. by apply (safe_engaged _ Hs).
      * intros σ [= <-] _. cbn [engaged setEngaged]. rewrite fn_lookup_insert. by intros [_ ?]%Hb.
    + destruct err; [done|]. intros j [= <-]. rewrite decide_False by done. apply held_settle.
    + intros σ s' Hσ Hi'. apply (informed_publish _ _ k); [done..|congruence|done].
  - by split_and!.
  - apply rule_patch in HR as (-> & k & [= <-] & Hw). assert (v ∈ past w APIThread) as Hv by (by apply (Hi v)).
    pose proof (owner_moves _ _ _ _ _ _ _ Hs Hv Hc Hw Hp Ha) as Hm. split_and!; [|done|].
    + by apply (publish_safe _ c); [..|intros τ [= <-]].
    + intros σ s' Hσ Hi'. apply (informed_publish _ _ c); [done..|congruence|done].
  - by split_and!.
  - apply rule_teardown in HR as (-> & k & -> & Hd & Hrel); [|done].
    assert (k ∈ past w APIThread) as Hk by (by apply (Hi k)). destruct (teardown_unheld _ _ Hs Hk Hd Hrel) as [Hcd Hh].
    split_and!; [by apply setTorn_safe| |done]. by destruct c.
  - apply rule_registration in HR as (Hτ & k & -> & Hin); [|done].
    split_and!; [|by destruct c|done]. apply setEngaged_safe; [done|]. intros _ _. specialize (Hi k eq_refl).
    rewrite decide_False in Hi by done. by apply Hi.
Qed.

(** ** The configurations *)

Definition good (x : Config) : Prop :=
  safe x.1 /\ forall τ t, x.2 τ = Some t -> Forall wellAnswered t /\ informed τ (learned None t) x.1.

Lemma good_user w w' l :
  good (w, l) -> safe w' -> (forall τ s, informed τ s w -> informed τ s w') -> good (w', l).
Proof. intros [_ Hl] Hs Hi. split; [done|]. intros τ t Ht. destruct (Hl τ t Ht). split; [done|by apply Hi]. Qed.
Lemma good_local w l τ r :
  good (w, l) -> (forall t, r = Some t -> Forall wellAnswered t /\ informed τ (learned None t) w) ->
  good (w, <[τ := r]> l).
Proof.
  intros [Hs Hl] Hr. split; [done|]. intros σ u. cbn [fst snd]. destruct (decide (σ = τ)) as [->|Hne].
  - rewrite fn_lookup_insert. apply Hr.
  - rewrite fn_lookup_insert_ne by done. apply Hl.
Qed.

Lemma step_good x y : step x y -> good x -> good y.
Proof.
  intros Hstep Hg. pose proof Hg as [Hs Hl].
  destruct Hstep as [w l τ Ht|w l τ t ev w' Ht Hp Hx|w l τ t Ht|w l k Hc Hk|w l k k' Hc Hk|w l k k' Hc Hk]; cbn [fst snd] in *.
  - apply good_local; [done|]. intros t [= <-]. by split.
  - destruct (Hl _ _ Ht) as [Hwa Hi].
    assert (Forall wellAnswered (t ++ [ev])) as Hwa'
      by (apply Forall_app; split; [done|]; apply Forall_singleton; by eapply exchange_wellAnswered).
    destruct (exchange_safe _ _ _ _ _ Hs (thread_obeys _ _ _ Hp Hwa') Hi Hx) as (Hs' & Hi' & Hoth).
    split; [done|]. intros σ u. cbn [fst snd]. destruct (decide (σ = τ)) as [->|Hne].
    + rewrite fn_lookup_insert. intros [= <-]. split; [done|]. by rewrite learned_app.
    + rewrite fn_lookup_insert_ne by done. intros Hu. destruct (Hl _ _ Hu). split; [done|by apply Hoth].
  - by apply good_local.
  - apply (good_user w); [done|by apply creation_safe|]. intros τ s. by apply informed_created.
  - assert (moves None k k') as Hm by (apply edited_moves; [by eapply safe_cur|done]).
    apply (good_user w); [done|by apply (publish_safe _ k)|]. intros τ s. by apply (informed_publish _ _ k).
  - pose proof (markedDeleted_moves _ _ Hk) as Hm.
    apply (good_user w); [done|by apply (publish_safe _ k)|]. intros τ s. by apply (informed_publish _ _ k).
Qed.

Lemma empty_good : good (emptyCluster, idle).
Proof.
  split; [|done]. split; try done.
  - by intros τ k Hk%not_elem_of_nil.
  - by intros τ k _ Hk%not_elem_of_nil.
  - by intros k Hk%not_elem_of_nil.
  - by intros k Hk%not_elem_of_nil.
Qed.
Lemma reachable_good x : reachable x -> good x.
Proof. apply (rtc_ind_r good); [apply empty_good|]. intros y z _ Hyz Hy. by eapply step_good. Qed.
End invariant.


(** ** Running the threads *)

(** The server, the cache and the world in one handler; [fresh] says that the
    caller knows the current object. *)
Section serving.
Context (world : forall X, Call X -> X).
Context (Hworld : forall X (c : Call X), isShared X c = false -> wellAnswered (Ev c (world X c))).

Definition admittedb (c o : KeystoneAPI) : bool :=
  negb (deleting c) || bool_decide (Forall (fun f => f ∈ finalizers c) (finalizers o)).
Lemma admittedb_spec c o : admittedb c o = true -> admitted c o.
Proof.
  intros [Hn|Hf%bool_decide_eq_true_1]%orb_true_iff Hd f Hin; [by rewrite Hd in Hn|].
  rewrite Forall_forall in Hf. by apply Hf.
Qed.

Definition stored (o c : KeystoneAPI) : KeystoneAPI :=
  let m := ka_meta o in
  ka_setMeta (mkMeta (Name m) (Namespace m) (Generation m) (Finalizers m) (Labels m) (Annotations m)
                (DeletionTimestamp (ka_meta c))) o.
Definition isSome {A} (r : option A) : bool := match r with Some _ => true | None => false end.

Definition serve (τ : thread) (X : Type) (c : Call X) (fw : bool * Cluster) : X * (bool * Cluster) :=
  let '(fresh, w) := fw in
  match c in Call X return X -> X * (bool * Cluster) with
  | GetKeystoneAPICR _ _ => fun _ =>
      (match cur w with Some k => inr k | None => inl notFound end, (isSome (cur w), w))
  | ListKeystoneAPIs _ _ => fun _ => (inr (option_list (cur w)), (isSome (cur w), w))
  | UpdateKeystoneAPI o => fun _ =>
      match cur w with
      | Some k =>
          if fresh && admittedb k o then
            (None, (isSome (settle o),
                    setEngaged τ (engaged w τ && bool_decide (finalizerOf τ ∈ finalizers o)) (publish (Some τ) (settle o) w)))
          else (Some unavailable, (false, w))
      | None => (Some notFound, (false, w))
      end
  | PatchKeystoneAPI o => fun _ =>
      match cur w with
      | Some k =>
          if fresh && admittedb k (stored o k) then (None, (false, publish (Some τ) (settle (stored o k)) w))
          else (Some unavailable, (false, w))
      | None => (Some notFound, (false, w))
      end
  | c => fun x =>
      (x, (fresh, if isTeardown _ c then setTorn true w else if isRegistration _ c then setEngaged τ true w else w))
  end (world X c).

(** All threads are between reconciles. *)
Definition quiescent w : Prop := exists l, (forall τ, l τ = None) /\ reachable (w, l).

(** Every cache may serve the current object. *)
Definition visible w : Prop := forall τ k, cur w = Some k -> k ∈ past w τ.
Lemma publish_visible writer r w : visible (publish writer r w).
Proof.
  intros τ k. cbn [cur publish past]. intros ->. destruct (_ && _); [left|]. apply elem_of_app. right. left.
Qed.

Lemma serve_exchange τ X (c : Call X) s fresh w :
  visible w -> (fresh = true -> s = cur w) ->
  let '(x, (fresh', w')) := serve τ X c (fresh, w) in
  exchange τ s w (Ev c x) w' /\ visible w' /\ (fresh' = true -> learn s (Ev c x) = cur w').
Proof.
  intros Hv Hs. destruct (isShared X c) eqn:Hc; [|destruct c; try discriminate Hc; cbn;
    (split_and!; [apply ex_other; [done|by apply Hworld]|done|done])].
  destruct c; try discriminate Hc; cbn -[publish setEngaged stored settle learn];
    try (split_and!; [first [apply ex_teardown; reflexivity|apply ex_register; reflexivity]|done|done]).
  - destruct (cur w) as [k|] eqn:Hk; (split_and!; [|done|by rewrite ?Hk]); apply ex_get; [|done]. intros ? [= <-]. by apply Hv.
  - destruct (cur w) as [k|] eqn:Hk; (split_and!; [|done|by rewrite ?Hk]); apply ex_list.
    + intros l ? [= <-] ->%list_elem_of_singleton. by apply Hv.
    + by intros l k [= <-] ?%not_elem_of_nil.
  - destruct (cur w) as [k|] eqn:Hk; [|split_and!; [apply ex_update_refused|done|done]].
    destruct (fresh && admittedb k o) eqn:Hf; [|split_and!; [apply ex_update_refused|done|done]].
    apply andb_true_iff in Hf as [Hfresh Ha]. split_and!.
    + apply (ex_update _ _ _ _ _ k); [done|by apply Hs|by apply admittedb_spec].
    + apply publish_visible.
    + cbn [learn setEngaged publish cur]. destruct (settle o) as [j|] eqn:Hj; [|done]. intros _.
      by apply settle_Some in Hj as [-> _].
  - destruct (cur w) as [k|] eqn:Hk; [|split_and!; [by apply ex_patch_none|done|done]].
    destruct (fresh && admittedb k (stored o k)) eqn:Hf; [|split_and!; [by apply ex_patch_none|done|done]].
    apply andb_true_iff in Hf as [Hfresh Ha]. split_and!; [|apply publish_visible|done].
    apply (ex_patch _ _ _ _ _ k k _ true true); [by apply Hs|done| |by apply admittedb_spec|done].
    split; [done|]. cbn [andb]. change (finalizers (stored o k)) with (finalizers o).
    change (conditions (stored o k)) with (conditions o).
    split; [destruct (bool_decide_reflect (finalizers o = finalizers k))
      |destruct (bool_decide_reflect (conditions o = conditions k))]; done.
Qed.

(** A handler whose every answer is an exchange, and whose caller knows the
    current object when the flag says so, runs a reconcile of the cluster; the
    caches keep what [I] says of them. *)
Definition serves (I : Cluster -> Prop) (τ : thread) (h : forall X, Call X -> bool * Cluster -> X * (bool * Cluster)) : Prop :=
  forall X (c : Call X) s fresh w, I w -> (fresh = true -> s = cur w) ->
    let '(x, (fresh', w')) := h X c (fresh, w) in
    exchange τ s w (Ev c x) w' /\ I w' /\ (fresh' = true -> learn s (Ev c x) = cur w').
Lemma serve_serves τ : serves visible τ (serve τ).
Proof. intros X c s fresh w. apply serve_exchange. Qed.

Lemma exec_serves {A} I τ h (p : program A) : serves I τ h -> forall w l t0 fresh,
  I w -> (fresh = true -> learned None t0 = cur w) -> l τ = Some t0 ->
  (forall t, runs_prefix p t -> prefixOf τ (t0 ++ t)) -> reachable (w, l) ->
  let w' := (exec h p (fresh, w)).2.2 in
  I w' /\ exists l' t, l' τ = Some t /\ (forall σ, σ <> τ -> l' σ = l σ) /\ reachable (w', l').
Proof.
  intros Hh. induction p as [a|X c k IH]; intros w l t0 fresh Hv Hf Hl Hp Hr; cbn [exec].
  { cbn. split; [done|]. by exists l, t0. }
  pose proof (Hh X c _ fresh w Hv Hf) as Hx. destruct (h X c (fresh, w)) as [x [fresh' w1]].
  destruct Hx as (Hx & Hv1 & Hf1).
  specialize (IH x w1 (<[τ := Some (t0 ++ [Ev c x])]> l) (t0 ++ [Ev c x]) fresh').
  destruct (exec h (k x) (fresh', w1)) as [[t a] [b w2]]. cbn [snd] in *.
  destruct IH as (Hv2 & l' & t' & Hl' & Hoth & Hr'); [done| | | | |].
  - by rewrite learned_app.
  - apply fn_lookup_insert.
  - intros u Hu. rewrite <- app_assoc. apply Hp. right. by exists x, u.
  - eapply rtc_r; [exact Hr|]. apply (st_exchange _ _ _ t0); [done| |done]. apply Hp. right. exists x, []. split; [done|].
    destruct (k x); by left.
  - split; [done|]. exists l', t'. split_and!; [done| |done]. intros σ Hσ. rewrite Hoth, fn_lookup_insert_ne by done. done.
Qed.

(** A whole reconcile, served without interruption. *)
Lemma served_quiescent {A} I τ h (p : program A) w :
  serves I τ h -> (forall t, runs_prefix p t -> prefixOf τ t) -> I w /\ quiescent w ->
  I (exec h p (false, w)).2.2 /\ quiescent (exec h p (false, w)).2.2.
Proof.
  intros Hh Hp (Hv & l & Hl & Hr).
  destruct (exec_serves I τ h p Hh w (<[τ := Some []]> l) [] false) as (Hv' & l' & t & Ht & Hoth & Hr'); [done|done| |done| |].
  - apply fn_lookup_insert.
  - eapply rtc_r; [exact Hr|]. by apply st_start.
  - split; [done|]. exists (<[τ := None]> l'). split; [|eapply rtc_r; [exact Hr'|by eapply st_stop]].
    intros σ. destruct (decide (σ = τ)) as [->|Hne]; [apply fn_lookup_insert|]. rewrite fn_lookup_insert_ne by done.
    rewrite Hoth, fn_lookup_insert_ne by done. apply Hl.
Qed.
Definition reconciled {A} τ (p : program A) w : Cluster := (exec (serve τ) p (false, w)).2.2.
Lemma reconciled_quiescent {A} τ (p : program A) w :
  (forall t, runs_prefix p t -> prefixOf τ t) -> visible w /\ quiescent w ->
  visible (reconciled τ p w) /\ quiescent (reconciled τ p w).
Proof. apply served_quiescent, serve_serves. Qed.

(** The same with a cache that still serves the version [k] of the object. *)
Definition serveStale (k : KeystoneAPI) (τ : thread) (X : Type) (c : Call X) (fw : bool * Cluster) : X * (bool * Cluster) :=
  match c in Call X return X * (bool * Cluster) with
  | GetKeystoneAPICR _ _ => (inr k, (false, fw.2))
  | ListKeystoneAPIs _ _ => (inr [k], (false, fw.2))
  | c => serve τ _ c fw
  end.
Definition isRead (X : Type) (c : Call X) : bool :=
  match c with GetKeystoneAPICR _ _ | ListKeystoneAPIs _ _ => true | _ => false end.
Lemma serveStale_serves k τ : coherent = false -> serves (fun w => visible w /\ k ∈ past w τ) τ (serveStale k τ).
Proof.
  intros Hco X c s fresh w [Hv Hk] Hs.
  assert (forall writer r w', k ∈ past w' τ -> k ∈ past (publish writer r w') τ) as Hpast.
  { intros writer r w' Hin. cbn [publish past]. rewrite Hco. apply elem_of_app. by left. }
  assert (forall Y (d : Call Y), let '(x, (fresh', w')) := serve τ Y d (fresh, w) in k ∈ past w' τ) as Hkeep.
  { intros Y d. destruct d; cbn -[publish setEngaged stored settle]; try done;
      (destruct (cur w); [|done]); (destruct (_ && _); [|done]); by apply Hpast. }
  assert (forall Y (d : Call Y), let '(x, (fresh', w')) := serve τ Y d (fresh, w) in
    exchange τ s w (Ev d x) w' /\ (visible w' /\ k ∈ past w' τ) /\ (fresh' = true -> learn s (Ev d x) = cur w')) as Hserve.
  { intros Y d. pose proof (serve_exchange τ Y d s fresh w Hv Hs) as Hx. specialize (Hkeep Y d).
    destruct (serve τ Y d (fresh, w)) as [x [fresh' w']]. by destruct Hx as (? & ? & ?). }
  assert (serveStale k τ X c (fresh, w) = serve τ X c (fresh, w) \/ isRead X c = true) as [-> |Hc];
    [by destruct c; first [left; reflexivity|right; reflexivity]|apply Hserve|].
  destruct c; try discriminate Hc; cbn; (split; [|done]).
  - apply ex_get. by intros ? [= <-].
  - apply ex_list. by intros ? ? [= <-] ->%list_elem_of_singleton.
Qed.
Definition reconciledStale {A} k τ (p : program A) w : Cluster := (exec (serveStale k τ) p (false, w)).2.2.
End serving.
End controllers.

(** ** A life of a Keystone *)

(** The finalizers of the example instance tell the controllers apart. *)
Lemma demo_distinct : Inj (=) (=) (finalizerOf (XL := demoExternalLib)).
Proof.
  intros [|n|n] [|m|m] Heq; try done; try (by lazy in Heq); f_equal;
    by do 2 apply string_app_inj_l in Heq.
Qed.

(** A world in which all that Keystone needs is there, with one KeystoneService. *)
Definition lifeWorld (svc : KeystoneService) (X : Type) (c : Call X) : X :=
  match c in Call X return X with
  | GetKeystoneService _ n => if decide (n = Name (ks_meta svc)) then inr svc else inl notFound
  | ReconcileRbac _ _ _ => (rbacDone <$> ["ServiceAccountReady"; "RoleReady"; "RoleBindingReady"], noResult, None)
  | GetDatabaseByNameAndAccount n a ns => inr (NewDatabaseForAccount "openstack" n n a ns)
  | c => (apiHandler _ c tt).1
  end.
Lemma lifeWorld_wellAnswered svc X (c : Call X) : isShared X c = false -> wellAnswered (Ev c (lifeWorld svc X c)).
Proof.
  intros Hc. destruct c; try done; cbn.
  - case_decide; by subst.
  - apply (bool_decide_unpack _). by vm_compute.
Qed.

Definition lifeAPI : KeystoneAPI :=
  mkKeystoneAPI (newMeta "keystone" "openstack") (ka_spec demoAPI) (kas_setConditions None (ka_status demoAPI)).
Definition lifeService (deleting : option Z) : KeystoneService :=
  mkService (mkMeta "keystone" "openstack" 1 ["openstack.org/KeystoneService"] ∅ ∅ deleting) (ks_spec demoService) (ks_status demoService).

Section life.
Context (coherent : bool).
Abbreviation publish := (publish coherent).
Definition ownerTurn : Cluster -> Cluster :=
  reconciled coherent (lifeWorld (lifeService None)) APIThread (APIController.Reconcile 40 "openstack" "keystone").
Definition serviceTurn (deleting : option Z) : Cluster -> Cluster :=
  reconciled coherent (lifeWorld (lifeService deleting)) (ServiceThread "keystone") (ServiceController.Reconcile "openstack" "keystone").
Definition deleteTurn (w : Cluster) : Cluster :=
  match cur w with
  | Some k =>
      let m := ka_meta k in
      publish None (settle (ka_setMeta (mkMeta (Name m) (Namespace m) (Generation m) (Finalizers m) (Labels m) (Annotations m) (Some 0%Z)) k)) w
  | None => w
  end.
Definition bornCluster : Cluster := setTorn false (publish None (Some lifeAPI) emptyCluster).
(** Keystone is up, and the service is registered in it. *)
Definition usedCluster : Cluster := serviceTurn None (ownerTurn (ownerTurn bornCluster)).
(** The KeystoneAPI is deleted while it is in use; the owner waits. *)
Definition waitingCluster : Cluster := ownerTurn (deleteTurn usedCluster).
(** The service is deleted too, and Keystone goes. *)
Definition goneCluster : Cluster := ownerTurn (serviceTurn (Some 1%Z) waitingCluster).

Abbreviation alive w := (visible w /\ quiescent coherent "openstack" "keystone" w).
Lemma ownerTurn_alive w : alive w -> alive (ownerTurn w).
Proof. apply reconciled_quiescent; [apply lifeWorld_wellAnswered|]. intros t Ht. by exists 40%nat. Qed.
Lemma serviceTurn_alive d w : alive w -> alive (serviceTurn d w).
Proof. apply reconciled_quiescent; [apply lifeWorld_wellAnswered|done]. Qed.
Lemma deleteTurn_alive w : alive w -> alive (deleteTurn w).
Proof.
  intros [Hv (l & Hl & Hr)]. unfold deleteTurn. destruct (cur w) as [k|] eqn:Hk; [|by split; [|exists l]].
  split; [apply publish_visible|]. exists l. split; [done|]. eapply rtc_r; [exact Hr|]. by eapply st_delete.
Qed.
Lemma bornCluster_alive : alive bornCluster.
Proof.
  split; [exact (publish_visible coherent None (Some lifeAPI) emptyCluster)|].
  exists idle. split; [done|]. apply rtc_once.
  refine (st_create _ _ _ emptyCluster idle lifeAPI _ _); [done|].
  split_and!; [done|done|]. intros τ. apply not_elem_of_nil.
Qed.
Lemma usedCluster_alive : alive usedCluster.
Proof. apply serviceTurn_alive, ownerTurn_alive, ownerTurn_alive, bornCluster_alive. Qed.
Lemma goneCluster_alive : alive goneCluster.
Proof. apply ownerTurn_alive, serviceTurn_alive, ownerTurn_alive, deleteTurn_alive, usedCluster_alive. Qed.

End life.


(** Without coherence: the service is deleted, gives its finalizer up, and is
    created again; its first reconcile reads the version of the KeystoneAPI that
    still carries the finalizer, takes it for its own, and registers the service
    in a Keystone that nothing holds back from being taken apart. *)
Definition lastRead : KeystoneAPI := default lifeAPI (cur (usedCluster false)).
Definition releasedCluster : Cluster := serviceTurn false (Some 1%Z) (usedCluster false).
Definition staleCluster : Cluster :=
  reconciledStale false (lifeWorld (lifeService None)) lastRead (ServiceThread "keystone")
    (ServiceController.Reconcile "openstack" "keystone") releasedCluster.
Lemma stale_registration :
  exists l, reachable false "openstack" "keystone" (staleCluster, l) /\
    engaged staleCluster (ServiceThread "keystone") = true /\
    exists c, cur staleCluster = Some c /\ deleting c = false /\ finalizerOf (ServiceThread "keystone") ∉ finalizers c.
Proof.
  assert (visible releasedCluster /\ quiescent false "openstack" "keystone" releasedCluster) as Halive by apply serviceTurn_alive, usedCluster_alive.
  assert (lastRead ∈ past releasedCluster (ServiceThread "keystone")) as Hpast.
  { assert (past releasedCluster (ServiceThread "keystone") = past (usedCluster false) (ServiceThread "keystone") ++
      option_list (cur releasedCluster)) as -> by (vm_compute; reflexivity).
    apply elem_of_app. left. unfold lastRead. destruct (cur (usedCluster false)) as [c|] eqn:Hc; [|by vm_compute in Hc].
    by apply (proj1 (usedCluster_alive false)). }
  destruct (served_quiescent false "openstack" "keystone" (fun w => visible w /\ lastRead ∈ past w (ServiceThread "keystone"))
    (ServiceThread "keystone") (serveStale false (lifeWorld (lifeService None)) lastRead (ServiceThread "keystone"))
    (ServiceController.Reconcile "openstack" "keystone") releasedCluster) as (_ & l & _ & Hr).
  - apply serveStale_serves; [apply lifeWorld_wellAnswered|done].
  - done.
  - destruct Halive. done.
  - exists l. split; [exact Hr|]. split; [vm_compute; reflexivity|].
    destruct (cur staleCluster) as [c|] eqn:Hc; [|by vm_compute in Hc].
    assert (forall P : KeystoneAPI -> Prop, match cur staleCluster with Some k => P k | None => True end -> P c) as Hall
      by (intros P HP; by rewrite Hc in HP).
    exists c. split; [done|]. split; [apply Hall; vm_compute; reflexivity|].
    assert (finalizers c = [apiFinalizer]) as -> by (apply Hall; vm_compute; reflexivity).
    intros Hin%list_elem_of_singleton. by vm_compute in Hin.
Qed.
