(* ===== verification/Completion.v ===== *)
(** The other half of Teardown.v: a deletion completes.  When the KeystoneAPI
    and the objects of its consumers are being deleted, a turn of each consumer
    and then one of the owner let the KeystoneAPI go, whatever the order of the
    consumers: the finalizers do not wait for each other in a circle. *)
From stdpp Require Import relations functions.
From S2P Require Import Prelude Effects World GoTime Api Conditions Instances Workloads Calls External Demo Fernet Pods.
From S2P Require Import Protection KeystoneClient EndpointController ServiceController APIController.
From S2P Require Import Sharing Ownership Teardown.

Section completion.
Context `{CLaws : ConditionLaws} `{FLaws : FinalizerLaws} `{XL : ExternalLib} `{PL : PodLib} `{KLaws : ControllerLaws}.
Context (coherent : bool) (namespace crName : string) (world : forall X, Call X -> X).
Abbreviation publish := (publish coherent).
Abbreviation serve := (serve coherent).
Abbreviation reconciled := (reconciled coherent).
Abbreviation quiescent := (quiescent coherent).

(** The requests of a deletion succeed, and what is looked up is there or is
    reported as missing. *)
Definition settledGet {A} (r : res A) : Prop := match r with inl e => IsNotFound e = true | inr _ => True end.
Record cooperative : Prop := {
  co_helper : world _ NewHelper = None;
  co_topology last n : (world _ (EnsureDeletedTopologyRef last n)).2 = None;
  co_getMemcached ns n : settledGet (world _ (GetMemcachedByName ns n));
  co_memcached m : world _ (UpdateMemcached m) = None;
  co_getDB n a ns : settledGet (world _ (GetDatabaseByNameAndAccount n a ns));
  co_db d : world _ (DeleteDBFinalizer d) = None;
  co_secret ns n f : world _ (RemoveSecretConsumerFinalizer ns n f) = None;
  co_getTransport ns n : settledGet (world _ (GetTransportURL ns n));
  co_getService ns n : settledGet (world _ (GetKeystoneService ns n));
  co_service s : world _ (UpdateKeystoneService s) = None
}.
(** The object of a consumer is being deleted (and has been reconciled before). *)
Definition leaving (τ : thread) : Prop :=
  match τ with
  | APIThread => False
  | ServiceThread n => exists i, world _ (GetKeystoneService namespace n) = inr i /\ Name (ks_meta i) = n /\
      ServiceController.deleting i = true /\ ks_Conditions (ks_status i) <> None
  | EndpointThread n => exists i, world _ (GetKeystoneEndpoint namespace n) = inr i /\ Name (ke_meta i) = n /\
      EndpointController.deleting i = true /\ kes_Conditions (ke_status i) <> None
  end.

(** A turn of a thread, served without interruption. *)
Definition turn (fuel : nat) (τ : thread) : Cluster -> Cluster :=
  match τ with
  | APIThread => reconciled world τ (APIController.Reconcile fuel namespace crName)
  | ServiceThread n => reconciled world τ (ServiceController.Reconcile namespace n)
  | EndpointThread n => reconciled world τ (EndpointController.Reconcile namespace n)
  end.

(** The server as a world for programs. *)
Definition servedStep (τ : thread) (s : bool * Cluster) (ev : event Call) (s' : bool * Cluster) : Prop :=
  match ev with Ev c x => serve world τ _ c s = (x, s') end.
Abbreviation swp τ p s Q := (wwp (servedStep τ) p s (fun _ s' a => Q s' a)).
Lemma reconciled_swp {A} τ (p : program A) w (P : Cluster -> Prop) :
  swp τ p (false, w) (fun s' _ => P s'.2) -> P (reconciled world τ p w).
Proof.
  intros Hp. unfold reconciled. refine (wwp_runs _ _ _ _ _ _ _ Hp (exec_runs _ p (false, w)) _).
  apply exec_wrun. intros X c s. by apply surjective_pairing.
Qed.
Lemma swp_quiet {X A} τ (c : Call X) (k : X -> program A) s (Q : bool * Cluster -> A -> Prop) :
  isShared X c = false -> swp τ (k (world X c)) s Q -> swp τ (call c ≫= k) s Q.
Proof.
  intros Hc Hk. destruct s as [fresh w]. apply wwp_bind, wwp_call. intros x s' Hs.
  assert ((x, s') = (world X c, (fresh, w))) as [= -> ->] by (rewrite <- Hs; destruct c; try discriminate Hc; done). exact Hk.
Qed.

(** ** The turn of a consumer *)

Definition withoutFinalizer (f : string) (k : KeystoneAPI) : KeystoneAPI :=
  ka_setFinalizers (RemoveFinalizer f (finalizers k)).1 k.

(** The deleting object is updated to be without the finalizer. *)
Lemma remove_swp τ k w :
  cur w = Some k -> deleting k = true -> settle k = Some k ->
  swp τ (removeAPIFinalizer (finalizerOf τ) k) (true, w) (fun s' err =>
    err = None /\ cur s'.2 = settle (withoutFinalizer (finalizerOf τ) k) /\ torn s'.2 = torn w).
Proof.
  intros Hk Hd Hsettle. unfold removeAPIFinalizer, withoutFinalizer, finalizers.
  pose proof (RemoveFinalizer_flag (finalizerOf τ) (Finalizers (ka_meta k))) as Hfl.
  pose proof (RemoveFinalizer_elem (finalizerOf τ) (Finalizers (ka_meta k))) as Hel.
  pose proof (RemoveFinalizer_same (finalizerOf τ) (Finalizers (ka_meta k))) as Hsame.
  destruct (RemoveFinalizer (finalizerOf τ) (Finalizers (ka_meta k))) as [fs []] eqn:Hr; cbn [fst snd] in *.
  - apply wwp_call. intros err s'. set (o := ka_setFinalizers fs k).
    assert (admittedb k o = true) as Ha.
    { unfold admittedb. apply orb_true_iff. right. apply bool_decide_eq_true_2, Forall_forall. intros f Hf.
      by apply Hel in Hf as [_ ?]. }
    cbn -[publish setEngaged settle o]. rewrite Hk, Ha. cbn [andb]. intros [= <- <-]. done.
  - symmetry in Hfl. apply bool_decide_eq_false_1 in Hfl. rewrite (Hsame Hfl). apply wwp_ret. split_and!; [done| |done].
    cbn [snd]. rewrite Hk. assert (ka_setFinalizers (Finalizers (ka_meta k)) k = k) as -> by (by destruct k as [[] ? ?]). done.
Qed.

(** What is left of the KeystoneAPI when the consumer is through. *)
Definition gaveUp τ k (w w' : Cluster) : Prop :=
  cur w' = settle (withoutFinalizer (finalizerOf τ) k) /\ torn w' = torn w.

Lemma swp_find {A} τ ns labels (f : res KeystoneAPI -> program A) b w k (Q : bool * Cluster -> A -> Prop) :
  cur w = Some k -> swp τ (f (inr k)) (true, w) Q -> swp τ (GetKeystoneAPI ns labels ≫= f) (b, w) Q.
Proof.
  intros Hk Hf. unfold GetKeystoneAPI. apply wwp_bind, wwp_bind, wwp_call. intros r s' Hs. cbn in Hs.
  rewrite Hk in Hs. injection Hs as <- <-. apply wwp_ret. exact Hf.
Qed.

Lemma service_turn fuel n w k :
  cooperative -> leaving (ServiceThread n) -> cur w = Some k -> deleting k = true -> settle k = Some k ->
  gaveUp (ServiceThread n) k w (turn fuel (ServiceThread n) w).
Proof.
  intros Hco (i & Hi & Hn & Hdel & Hcond) Hk Hd Hsettle. unfold turn. apply reconciled_swp. unfold ServiceController.Reconcile.
  apply swp_quiet; [done|]. rewrite Hi. apply swp_quiet; [done|]. rewrite (co_helper Hco). apply wwp_bind.
  apply (wwp_mono _ _ _ (fun _ s' _ => gaveUp (ServiceThread n) k w s'.2)).
  { intros t [b w'] [j [res err]] HP. cbv zeta. apply swp_quiet; [done|]. by apply wwp_ret. }
  unfold ServiceController.reconcileBody. destruct (ks_Conditions (ks_status i)); [|done].
  pose proof Hdel as Hnd. unfold ServiceController.deleting in Hnd. apply negb_true_iff in Hnd.
  destruct (AddFinalizer _ _) as [fs added]. rewrite Hnd. cbn [andb]. unfold ServiceController.reconcileInstance. cbv zeta.
  apply swp_find with (k := k); [done|]. unfold deleting in Hd. rewrite Hdel, Hd. cbn [andb].
  unfold ServiceController.reconcileDeleteFinalizersOnly, svcConsumerFinalizer. rewrite Hn.
  apply wwp_bind. eapply wwp_mono; [|by apply (remove_swp (ServiceThread n))]. cbv beta.
  intros t s' err (-> & Hc & Ht). by apply wwp_ret.
Qed.

Lemma endpoint_turn fuel n w k :
  cooperative -> leaving (EndpointThread n) -> cur w = Some k -> deleting k = true -> settle k = Some k ->
  gaveUp (EndpointThread n) k w (turn fuel (EndpointThread n) w).
Proof.
  intros Hco (i & Hi & Hn & Hdel & Hcond) Hk Hd Hsettle. unfold turn. apply reconciled_swp. unfold EndpointController.Reconcile.
  apply swp_quiet; [done|]. rewrite Hi. apply swp_quiet; [done|]. rewrite (co_helper Hco). apply wwp_bind.
  apply (wwp_mono _ _ _ (fun _ s' _ => gaveUp (EndpointThread n) k w s'.2)).
  { intros t [b w'] [j [res err]] HP. cbv zeta. apply swp_quiet; [done|]. by apply wwp_ret. }
  unfold EndpointController.reconcileBody. destruct (kes_Conditions (ke_status i)); [|done]. cbv zeta.
  pose proof Hdel as Hnd. unfold EndpointController.deleting in Hnd. apply negb_true_iff in Hnd.
  destruct (AddFinalizer _ _) as [fs added]. cbn [ke_meta ke_setStatus]. rewrite Hnd. cbn [andb].
  unfold EndpointController.reconcileInstance. cbv zeta.
  apply swp_find with (k := k); [done|]. unfold EndpointController.deleting. cbn [ke_meta ke_setStatus].
  unfold deleting in Hd. rewrite Hnd, Hd. cbn [negb andb].
  unfold EndpointController.reconcileDeleteFinalizersOnly. apply wwp_bind.
  apply (wwp_mono _ _ _ (fun _ s' err => s' = (true, w) /\ err = None)).
  { intros t s' err [-> ->]. unfold releaseAPI, consumerFinalizer. cbn [ke_meta ke_setStatus]. rewrite Hn. apply wwp_bind.
    eapply wwp_mono; [|by apply (remove_swp (EndpointThread n))]. cbv beta. intros t' s' err (-> & Hc & Ht). by apply wwp_ret. }
  unfold releaseService. apply swp_quiet; [done|].
  match goal with |- context [world _ (GetKeystoneService ?a ?b)] =>
    pose proof (co_getService Hco a b) as Hg; destruct (world _ (GetKeystoneService a b)) as [e|svc] end.
  - cbn [settledGet] in Hg. rewrite Hg. by apply wwp_ret.
  - unfold removeServiceFinalizer. destruct (RemoveFinalizer _ _) as [fs' []]; [|by apply wwp_ret].
    apply wwp_call. intros x s' [= <- <-]. by rewrite (co_service Hco).
Qed.

(** ** The turn of the owner *)

(** Between the reading and the patch the owner's requests leave the object and
    its knowledge of it alone. *)
Definition goesOn (s s' : bool * Cluster) : Prop :=
  s'.1 = s.1 /\ cur s'.2 = cur s.2 /\ (torn s.2 = true -> torn s'.2 = true).
#[local] Instance goesOn_preorder : PreOrder goesOn.
Proof.
  split; [by intros s; repeat split|]. intros s1 s2 s3 (? & ? & ?) (? & ? & ?). unfold goesOn. split_and!; [congruence..|auto].
Qed.

Lemma owner_call {X A} (c : Call X) (k : X -> M A) j s (Q : bool * Cluster -> KeystoneAPI * (exit + A) -> Prop) :
  isOthers X c = false ->
  (forall s', goesOn s s' -> (isTeardown X c = true -> torn s'.2 = true) -> swp APIThread (k (world X c) j) s' Q) ->
  swp APIThread ((lift (call c) ≫= k) j) s Q.
Proof.
  intros Hc Hk. destruct s as [b w]. apply wwp_bind, wwp_bind, wwp_call. intros x s' Hs. apply wwp_ret. cbn [fst snd].
  assert (x = world X c /\ s' = (b, if isTeardown X c then setTorn true w else w)) as [-> ->].
  { apply pair_equal_spec. unfold servedStep in Hs. rewrite <- Hs. by destruct c. }
  apply Hk; [|by intros ->]. by destruct (isTeardown X c).
Qed.

(** A step of the deletion that succeeds. *)
Definition steps (m : M unit) : Prop := forall j s, swp APIThread (m j) s (fun s' r => goesOn s s' /\ r = (j, inr tt)).
Lemma steps_ret : steps (mret tt).
Proof. intros j s. by apply wwp_ret. Qed.
Lemma steps_call {X} (c : Call X) (k : X -> M unit) : isOthers X c = false -> steps (k (world X c)) ->
    steps (lift (call c) ≫= k).
Proof.
  intros Hc Hk j s. apply owner_call; [done|]. intros s1 Hs1 _. eapply wwp_mono; [|apply Hk]. cbv beta.
  intros t s2 r [Hs2 ->]. split; [by etrans|done].
Qed.
Lemma steps_then {A} (m : M unit) (n : M A) j s Q :
  steps m -> (forall s', goesOn s s' -> swp APIThread (n j) s' Q) -> swp APIThread ((m;; n) j) s Q.
Proof. intros Hm Hn. apply wwp_bind. eapply wwp_mono; [|apply Hm]. intros t s' r [Hs ->]. by apply Hn. Qed.
Lemma steps_seq (m n : M unit) : steps m -> steps n -> steps (m;; n).
Proof.
  intros Hm Hn j s. apply steps_then; [done|]. intros s1 Hs1. eapply wwp_mono; [|apply Hn]. cbv beta.
  intros t s2 r [Hs2 ->]. split; [by etrans|done].
Qed.
Lemma steps_found {A} (r : res A) (f : GoError -> M unit) (g : A -> M unit) :
  settledGet r -> (forall a, steps (g a)) ->
  steps (match r with inl e => if IsNotFound e then mret tt else f e | inr a => g a end).
Proof. intros Hr Hg. destruct r as [e|a]; [|done]. cbn [settledGet] in Hr. rewrite Hr. apply steps_ret. Qed.

Section owner.
Context (Hco : cooperative).
Lemma releaseMemcached_steps i : steps (releaseMemcached i).
Proof.
  apply steps_call; [done|]. apply steps_found; [apply Hco|]. intros mc. destruct (RemoveFinalizer _ _) as [fs []];
    [|apply steps_ret]. apply steps_call; [done|]. rewrite (co_memcached Hco). apply steps_ret.
Qed.
Lemma releaseDB_steps i : steps (releaseDB i).
Proof.
  apply steps_call; [done|]. apply steps_found; [apply Hco|]. intros db. apply steps_call; [done|].
  rewrite (co_db Hco). apply steps_ret.
Qed.
Lemma releaseTransport_steps i : steps (releaseTransport i).
Proof.
  apply steps_call; [done|]. rewrite (co_secret Hco). apply steps_seq; [apply steps_ret|].
  apply steps_call; [done|]. apply steps_found; [apply Hco|]. intros tu. case_decide; [|apply steps_ret].
  apply steps_call; [done|]. rewrite (co_secret Hco). apply steps_ret.
Qed.

(** The deletion drops the owner's finalizer, and takes a deployed Keystone
    apart. *)
Lemma reconcileDelete_swp j s :
  released j ->
  swp APIThread (reconcileDelete j) s (fun s' r =>
    s'.1 = s.1 /\ cur s'.2 = cur s.2 /\ (ka_ExternalKeystoneAPI (core j) = false -> torn s'.2 = true) /\
    r = (withoutFinalizer apiFinalizer j, inr done_)).
Proof.
  intros Hrel. unfold reconcileDelete. apply wwp_bind, wwp_ret. cbn [fst snd].
  destruct (ka_ExternalKeystoneAPI (core j)) eqn:Hx; [by apply wwp_bind, wwp_ret, wwp_ret|].
  assert (foreignFinalizer j = false) as ->.
  { apply bool_decide_eq_false_2. intros (f & Hf & Hne)%Exists_exists. unfold released in Hrel.
    rewrite Forall_forall in Hrel. by apply Hne, Hrel. }
  apply wwp_bind. apply (wwp_mono _ _ _ (fun _ s' r => goesOn s s' /\ torn s'.2 = true /\ r = (j, inr tt))).
  - intros t s1 r (Hs1 & Ht & ->). cbn [snd fst].
    apply steps_then; [apply releaseMemcached_steps|]. intros s2 Hs2.
    apply steps_then; [apply releaseDB_steps|]. intros s3 Hs3.
    apply steps_then; [apply releaseTransport_steps|]. intros s4 Hs4.
    assert (goesOn s1 s4) as (? & ? & Htn) by (etrans; [exact Hs2|]; by etrans). destruct Hs1 as (? & ? & _).
    apply wwp_bind, wwp_ret, wwp_ret. split_and!; [congruence..|auto|done].
  - unfold releaseTopology. apply owner_call; [done|]. intros s' Hs Ht. pose proof (co_topology Hco) as Htop.
    match goal with |- context [world _ (EnsureDeletedTopologyRef ?a ?b)] =>
      specialize (Htop a b); destruct (world _ (EnsureDeletedTopologyRef a b)) as [x err] end.
    cbn [snd] in Htop. subst err. apply wwp_ret. split_and!; [done|by apply Ht|done].
Qed.

(** The owner lets an object go that only it holds. *)
Lemma owner_turn fuel w k :
  cur w = Some k -> deleting k = true -> released k -> conditions k <> None ->
  let w' := turn fuel APIThread w in
  cur w' = None /\ (ka_ExternalKeystoneAPI (core k) = false -> torn w' = true).
Proof.
  intros Hk Hd Hrel Hcond. cbv zeta. unfold turn. apply reconciled_swp. unfold APIController.Reconcile.
  apply wwp_bind, wwp_call. intros r s' Hs. cbn in Hs. rewrite Hk in Hs. injection Hs as <- <-. cbn [isSome].
  apply swp_quiet; [done|]. rewrite (co_helper Hco). cbv zeta. apply wwp_bind.
  assert (entryFinalizers k = (finalizers k, false)) as He.
  { unfold entryFinalizers. by rewrite (proj1 (negb_true_iff _) Hd). }
  rewrite (reconcileBody_entered _ _ _ _ He), bool_decide_eq_false_2 by exact Hcond. unfold deleting in Hd. rewrite Hd.
  cbn [orb]. set (j := entered _ _). assert (released j) as Hj by exact Hrel.
  eapply wwp_mono; [|by apply reconcileDelete_swp]. cbv beta. intros t [b w1] r (Hb & Hc & Ht & ->). cbn [fst snd] in *.
  apply wwp_bind. unfold finish. cbv zeta. set (o := withCond _ _). apply wwp_bind, wwp_call. intros perr s2 Hs.
  apply wwp_ret, wwp_ret. assert (finalizers (stored o k) = []) as Hf.
  { destruct (finalizers (stored o k)) as [|f l] eqn:Hl; [done|exfalso].
    assert (f ∈ finalizers (withoutFinalizer apiFinalizer j)) as [Hne Hin]%RemoveFinalizer_elem
      by (change (f ∈ finalizers (stored o k)); rewrite Hl; left).
    unfold released in Hj. rewrite Forall_forall in Hj. by apply Hne, Hj. }
  cbn -[publish settle stored o] in Hs. subst b. rewrite Hc, Hk in Hs. unfold admittedb in Hs.
  rewrite Hf, orb_true_r in Hs. injection Hs as <- <-. split; [|exact Ht]. cbn [snd cur publish]. unfold settle. rewrite Hf.
  by replace (deleting (stored o k)) with true.
Qed.
End owner.

(** ** All the turns *)

Definition turns (fuel : nat) (τs : list thread) (w : Cluster) : Cluster := fold_left (fun w τ => turn fuel τ w) τs w.

Lemma consumer_turn fuel τ w k :
  cooperative -> leaving τ -> cur w = Some k -> deleting k = true -> settle k = Some k -> gaveUp τ k w (turn fuel τ w).
Proof. destruct τ; [done|apply service_turn|apply endpoint_turn]. Qed.

Lemma consumer_turns fuel τs w k :
  Inj (=) (=) finalizerOf -> cooperative -> Forall leaving τs ->
  cur w = Some k -> deleting k = true -> apiFinalizer ∈ finalizers k ->
  exists k', cur (turns fuel τs w) = Some k' /\ deleting k' = true /\ apiFinalizer ∈ finalizers k' /\
    conditions k' = conditions k /\ core k' = core k /\ torn (turns fuel τs w) = torn w /\
    forall f, f ∈ finalizers k' -> f ∈ finalizers k /\ (f ∉ finalizerOf <$> τs).
Proof.
  intros Hinj Hco Hl. revert w k. induction Hl as [|τ τs Hτ _ IH]; intros w k Hk Hd Hown.
  { exists k. split_and!; try done. intros f Hf. split; [done|]. apply not_elem_of_nil. }
  destruct (consumer_turn fuel τ w k) as [Hc Ht]; [done..|by apply (settle_carries APIThread)|].
  set (k1 := withoutFinalizer _ k) in *.
  assert (apiFinalizer ∈ finalizers k1) as Hown1.
  { apply RemoveFinalizer_elem. split; [|done]. change (finalizerOf APIThread <> finalizerOf τ). by intros <-%Hinj. }
  rewrite (settle_carries APIThread) in Hc by done.
  destruct (IH _ _ Hc) as (k' & Hk' & Hd' & Ho' & Hcond & Hcore & Htorn & Hf); [done..|].
  exists k'. split_and!; [exact Hk'|done|done|exact Hcond|exact Hcore|by rewrite <- Ht|].
  intros f [[Hne Hin]%RemoveFinalizer_elem Hno]%Hf. split; [done|].
  by intros [?|?]%elem_of_cons.
Qed.

Lemma turn_quiescent fuel τ w :
  (forall X (c : Call X), isShared X c = false -> wellAnswered (Ev c (world X c))) ->
  visible w /\ quiescent namespace crName w ->
  visible (turn fuel τ w) /\ quiescent namespace crName (turn fuel τ w).
Proof. intros Hworld. destruct τ; apply reconciled_quiescent; try done. intros t Ht. by exists fuel. Qed.

(** C3. A deletion completes.  When the KeystoneAPI and the services and
    endpoints whose finalizers are on it are being deleted, and the requests
    succeed, one reconcile of each of them, in any order, and then one of the
    KeystoneAPI let it go.  Keystone is as it was until all of its consumers
    are through, and taken apart (when it is not an external one) by the time
    the object is gone.  All of it is a run of the interleaved controllers. *)
Theorem deletion_completes fuel τs w k
    (Hdistinct : Inj (=) (=) finalizerOf)
    (Hworld : forall X (c : Call X), isShared X c = false -> wellAnswered (Ev c (world X c)))
    (Hco : cooperative)
    (Hleaving : Forall leaving τs)
    (Hstart : visible w /\ quiescent namespace crName w)
    (Hk : cur w = Some k)
    (Hdeleting : deleting k = true)
    (Hentered : conditions k <> None)
    (Hown : apiFinalizer ∈ finalizers k)
    (Hheld : forall f, f ∈ finalizers k -> f = apiFinalizer \/ f ∈ finalizerOf <$> τs) :
  let w1 := turns fuel τs w in
  let w2 := turn fuel APIThread w1 in
  ((exists k1, cur w1 = Some k1) /\ torn w1 = torn w) /\
  (cur w2 = None /\ (ka_ExternalKeystoneAPI (core k) = false -> torn w2 = true)) /\
  quiescent namespace crName w2.
Proof.
  cbv zeta. destruct (consumer_turns fuel τs w k) as (k1 & Hk1 & Hd1 & _ & Hc1 & Hcore & Ht & Hf); [done..|].
  assert (released k1) as Hrel.
  { apply Forall_forall. intros f [Hin Hno]%Hf. by destruct (Hheld f Hin). }
  destruct (owner_turn Hco fuel _ _ Hk1 Hd1 Hrel) as [Hgone Htorn]; [by rewrite Hc1|].
  split_and!; [by exists k1|done|done|intros Hx; apply Htorn; by rewrite Hcore|].
  apply turn_quiescent; [done|]. clear -Hstart Hworld. revert w Hstart. induction τs as [|τ τs IH]; intros w Hw; [done|].
  by apply IH, turn_quiescent.
Qed.
End completion.

(** The Keystone of Teardown.v that waits for its service to be deleted. *)
Lemma waitingCluster_alive : visible (waitingCluster true) /\ quiescent true "openstack" "keystone" (waitingCluster true).
Proof. exact (ownerTurn_alive true _ (deleteTurn_alive true _ (usedCluster_alive true))). Qed.
Lemma lifeWorld_cooperative svc : cooperative (lifeWorld svc).
Proof. split; intros; first [exact I|reflexivity|cbn; case_decide; first [exact I|reflexivity]]. Qed.
Lemma deletion_completes_witness :
  exists k, cur (waitingCluster true) = Some k /\ finalizers k <> [] /\ torn (waitingCluster true) = false /\
    let leavingWorld := lifeWorld (lifeService (Some 1%Z)) in
    let gone := turn true "openstack" "keystone" leavingWorld 40 APIThread
                  (turns true "openstack" "keystone" leavingWorld 40 [ServiceThread "keystone"] (waitingCluster true)) in
    cur gone = None /\ torn gone = true.
Proof.
  destruct (cur (waitingCluster true)) as [k|] eqn:Hk; [|by vm_compute in Hk].
  assert (forall P : KeystoneAPI -> Prop, match cur (waitingCluster true) with Some k => P k | None => True end -> P k) as Hall
    by (intros P HP; by rewrite Hk in HP).
  assert (ka_ExternalKeystoneAPI (core k) = false) as Hint by (apply Hall; by vm_compute).
  assert (finalizers k = [apiFinalizer; finalizerOf (ServiceThread "keystone")]) as Hfs by (apply Hall; by vm_compute).
  exists k. split; [done|]. split; [by rewrite Hfs|]. split; [by vm_compute|]. cbv zeta.
  refine ((fun H => conj (proj1 (proj1 (proj2 H))) (proj2 (proj1 (proj2 H)) Hint)) _).
  apply (deletion_completes true "openstack" "keystone" _ 40 [ServiceThread "keystone"] (waitingCluster true) k).
  - apply demo_distinct.
  - apply lifeWorld_wellAnswered.
  - apply lifeWorld_cooperative.
  - apply Forall_singleton. exists (lifeService (Some 1%Z)). split_and!; [reflexivity|reflexivity|reflexivity|discriminate].
  - apply waitingCluster_alive.
  - done.
  - apply Hall. by vm_compute.
  - apply Hall. by vm_compute.
  - rewrite Hfs. left.
  - intros f. rewrite Hfs. intros [?|?]%elem_of_cons; [by left|by right].
Defined.
